(* ===== verification/_CoqProject ===== *)
-Q . S2P
Prelude.v
FileTree.v
Handles.v
IpAddr.v
Types.v
Errors.v
Ring.v
Cache.v
Network.v
Dispatch.v
Logon.v
Paths.v
Emit.v
Hygiene.v
Config.v
Signing.v
Tls.v
Delivery.v
Rotation.v
SharedLog.v
Version.v
Resource.v
X509.v
Wide.v
Subscription.v
LogonHandles.v
EtwSession.v
TlsConfig.v
Transport.v
Enrollment.v
Identity.v
Custody.v
CustodyHandles.v
Protection.v
CustodyTree.v
InstanceLock.v
Installed.v
Service.v
ServiceStatus.v
MigrationChecks.v
LogFile.v
MigrationRun.v
MigrationToy.v
MigrationSafety.v
MigrationLogic.v
MigrationPhases.v
MigrationStaging.v
MigrationRecovery.v
MigrationStarts.v
Agent.v
Capture.v
EndToEnd.v
ServiceRun.v
ServiceLife.v
CommandLine.v
