(* ===== verification/Prelude.v ===== *)
(** * CyberGuard endpoint agent: a verification library

    This library models the CyberGuard endpoint agent, the Rust program under
    [src/agent/cg-agent/], and proves what makes its parts correct. The
    definitions follow the code function by function: a Rust [Result] is
    [Result] below, a [u64] is a [Z] with its wrap-around or saturation written
    out, an [Instant] is a number of nanoseconds, a [HashMap] is a [gmap], a
    [String] is a byte string. No axiom is used.

    ** The program and how its parts interact

    The agent enrolls with its server, keeps the identity it was issued, captures
    process, network and logon events from the operating system and delivers them
    in signed heartbeats over mutual TLS. Data flows as follows.

    - The tracing session ([etw/session.rs]) delivers records to its callbacks; each
      decodes a record ([etw/network.rs]), looks up the process's creation time
      ([etw/cache.rs]) and puts an event into the ring ([etw/ring.rs]); that is
      [etw/dispatch.rs]. The logon thread ([logon/subscription.rs]) does the same for
      Security-log records ([logon/mod.rs]). A hygiene thread sweeps the cache and
      watches the counters ([etw/hygiene.rs]).
    - The delivery loop ([delivery.rs]) drains the ring into batches, renders each
      event once ([cges/emit.rs], [paths.rs], [etw/uid.rs]), signs the envelope
      ([envelope.rs], [signing.rs], [canonical.rs]) and sends it ([tls.rs]); it
      retries, drops or gives up according to the outcome.
    - Before that, [main.rs] or the service takes the per-host lock
      ([instance_lock.rs]) and [lib.rs] opens the capture, builds the TLS client and
      starts the loop; [identity.rs] loads the identity or enrolls ([enrollment.rs]),
      [x509.rs] reads the certificate it was issued, [secure_storage.rs] seals its key,
      and [config.rs] decides which configurations the agent accepts.
    - As a Windows service ([service/windows.rs], [service/mod.rs]) the agent runs from
      fixed paths under custody ([custody.rs]), migrates a console installation
      ([service/migration.rs]), reports its status, repeats enrollment rounds, and logs
      to a rotating file ([service/log_file.rs], [service/rotation.rs]). The build
      script ([build.rs]) and [version.rs] agree on the version.

    ** Files

    - [Prelude.v] (this file): results with their [let?] notation, machine
      integers, bytes and strings, printing of numbers, shared list lemmas, the
      tactics and the hint database [agent].
    - [IpAddr.v]: the standard library's addresses, printed and parsed.
    - [Types.v], [Errors.v]: the event types and open errors of [etw/types.rs] and
      [logon/mod.rs]; the error enums of [errors.rs] with exit codes and lines, and
      the startup action of [startup.rs].
    - [Ring.v]: [EventRing] (record of capacity, deque and drop counter; one
      function per method, each taking the lock once) with the abstract queue
      [RingSpec] it refines, and the throttled overflow warning.
    - [Cache.v], [Network.v], [Dispatch.v], [Logon.v], [Hygiene.v]: the capture
      side, one file per source file. The world outside (UUIDs drawn, instants,
      the liveness probe) is an argument.
    - [EtwSession.v]: the capture session, [etw/session.rs] with the helpers of
      [etw/events_lost_impl.rs] and the hygiene thread's loop. The host is the session of
      the agent's name and who created it; the tracing crate's start is a parameter under
      [trace_contract].
    - [Subscription.v]: [logon/subscription.rs], the thread as a step relation beside the
      writers of the log and the stop.
    - [Capture.v]: the capture of [lib.rs] opened over those two, and the three sources
      filling one ring.
    - [EndToEnd.v]: the turns of the capture's sources and of the delivery in one schedule
      over one ring, beside the secure run.
    - [Handles.v]: programs that open, use and close what Windows hands out (handles,
      descriptors, tokens, buffers) and may leave a thread behind, step by step and any
      number at a time, and the rules of ownership by which a program is shown to close
      what it opened.
    - [CustodyHandles.v], [LogonHandles.v]: those programs for [custody.rs] and its users
      ([service/migration.rs], [service/log_file.rs], [identity.rs],
      [secure_storage.rs], [etw/hygiene.rs], the event log of [service/windows.rs]), and
      for [logon/subscription.rs] with its thread. They follow every path of the same
      functions whose effects [Custody.v] and [Subscription.v] model.
    - [SharedLog.v]: the logger of [lib.rs]: its set-up, its lifecycle lines, and the
      writer its threads share, over any inner writer and over the rotating log.
    - [Wide.v]: the UTF-16 texts exchanged with Windows, wherever the code does so.
    - [Paths.v], [Emit.v]: device-path translation against a reference that scans
      the pairs in order; rendering to the wire shapes and their JSON.
    - [Config.v]: the configuration record, its defaults and its validation, with
      [f64] as the standard library's binary64 [spec_float].
    - [Signing.v]: envelopes and sealing. The classes [WireCrypto] and
      [WireCryptoLaws] hold Ed25519, base64url and the JSON canonicalizer, which
      are third-party crates.
    - [Tls.v], [TlsConfig.v]: the secure sender's exchange and its classification
      of failures; the client configurations, with rustls as the class [Rustls].
    - [Delivery.v]: [run_until] as iterations in a trace monad. A [Round] is what
      one iteration meets. [PostSpec] is the life cycle of a POST as an inductive
      step relation.
    - [Transport.v], [Enrollment.v]: the plain heartbeat client and enrollment,
      over one retry loop; the network is a function from attempts to outcomes.
    - [X509.v]: the DER reader, and the encoding its results are measured against.
    - [Identity.v]: load, persist and ensure over a file system in which every
      operation may fail and which decides what file a path names, with the classes [SecureStore] (its plaintext instance is
      the non-Windows store of [secure_storage.rs]) and [IdentityJson].
    - [Protection.v]: the DPAPI store, which discharges [SecureStore]'s law; the
      access-control list of the identity's files; the wait of a custody operation, in
      time.
    - [FileTree.v], [Custody.v], [CustodyTree.v], [Installed.v]: Windows' paths and
      trees; the custody check and the writes under it ([custody.rs]) over objects with
      attributes, security and contents, with Windows' SIDs and SDDL as the class
      [Win32Security]; the handles and directories the migration uses; the installed
      service's identity (the module [installed] of [identity.rs]) on top of it.
    - [InstanceLock.v]: [acquire] as a tree of Win32 calls, so that several processes
      interleave call by call over one host.
    - [Rotation.v], [LogFile.v]: the rotating log over a directory in which every
      operation may fail, the tests of a file's existence included, in a state-and-error
      monad; the log file opened under custody.
    - [Version.v], [Resource.v]: the release version's grammar; the build script's
      reading of it and the version resource it writes.
    - [Service.v], [ServiceStatus.v]: the service's exits, error lines, fixed paths and
      rounds; its status with the thread that reports it, if it could be spawned, as a
      step relation.
    - [MigrationChecks.v], [MigrationRun.v]: the migration's data and checks, and its
      operations over the custody's store. [MigrationToy.v] is a host to migrate;
      [MigrationSafety.v] what no failure can lose; [MigrationLogic.v] a program logic;
      [MigrationPhases.v], [MigrationStaging.v], [MigrationRecovery.v] and
      [MigrationStarts.v] the phases, the steps between them, and any sequence of
      starts.
    - [Agent.v], [ServiceRun.v], [ServiceLife.v], [CommandLine.v]: the runs of [lib.rs];
      the service's run with its supervision, poll by poll, and its life cycle as an
      automaton over its steps and their results; the console of [main.rs].

    ** What the theorems show

    - Delivery: every run follows the life cycle of a POST; no captured event is
      lost unaccounted, over a run and over the stop (also when the stop's budget
      runs out); POSTs go out in order under consecutive numbers; what is dropped
      and given up, and after how many failures; the tick timeline and backoffs.
    - Ring, cache, dispatch: the ring refines a bounded queue that drops its
      oldest; a Terminate carries its own process's creation time; a sweep evicts
      exactly dead unchanged entries; decoding reads back what was encoded.
    - Capture session: without the lock a start stops no session but its own; with it a
      session left behind is reclaimed, and a start that fails leaves none; the stop ends
      in time, also when the pump thread never does, and acts once; every record delivered is reported, excluded, from before
      1970 or counted. Opening the capture refines the step the agent's run is written
      against.
    - Logon subscription: records are handed on in order and once, and none is passed over
      unless a read failed; a subscription that works leaves none unread while the thread
      waits, one that answers [ERROR_INVALID_OPERATION] may; the thread ends after a stop; a
      rendered record reads back.
    - The three sources together: every event handed to the delivery is well typed; over a
      whole run of their turns and the delivery's the ring accepts one event for each
      record that says one, each of which is delivered, dropped, evicted or undelivered and
      counted so; the records that cannot be used are counted.
    - Rendering: one agent's process uids never collide, and a Launch and its
      Terminate have the same; path translation is the longest match; a failed
      logon reveals no name the caller typed.
    - Identity: a certificate is read exactly when it is a well-formed DER
      document; persist and load are inverse where the three paths name
      three files; installed mode loads only a
      consistent identity; nothing enrolls over an identity that is there; token
      hygiene removes the token alone; enrollment's and the client's retry
      policies, which always end; the sealed key unseals; a hardened file is its owner's
      and the system's alone.
    - Custody: the check accepts exactly the objects the policy describes; a file
      is replaced whole or not at all and keeps its security; the service's persist
      never overwrites, never exposes and writes [identity.json] last; its check
      passes only on no identity or on a whole one; no operation is waited for beyond its
      bound.
    - Instance lock: no two processes hold it, in any interleaving with any call failing,
      and a start that ends has closed what it opened.
    - Migration: nothing changes without the lock; the console installation stays whole
      wherever a start is cut off; the phases are an invariant of any sequence of starts,
      and at most two undisturbed starts commit it; the pass over the old copies touches
      only what the record names.
    - Service: its start follows one order whatever it meets and goes on after no failed
      step, a refused lock ends it before anything is touched, statuses are reported in
      order, a stop is reported in time if the status thread is there, and ends in time
      with the exit's code; the console guards the secure path by the lock; the log file is
      under custody.
    - Signing, TLS, configuration: a sealed envelope verifies; which failures are
      fatal; the configurations accepted are the documented ones but for two values, and
      which the service accepts; what a TLS client trusts.
    - Rotation: whatever fails, rotation loses at most the oldest archive, and a file whose
      test of existence failed; how the
      bytes are cut into writes does not matter; files are bounded; a failure is
      reported once.
    - Handles: what the custody's operations and the logon subscription open is closed
      exactly once and never used after its close, in every interleaving of the threads,
      whatever each call answers and whenever an operation panics; an operation that was
      given up on keeps what it holds until it ends, if it ends, and closes it then.
    - Log: the lines of all threads reach the file whole, each once and each thread's in
      order, so the shared log is a sequential one; the first logger set up stays.
    - Texts: what is passed to Windows as UTF-16 comes back unchanged.
    - Version: the byte loop decides the grammar, and the build script agrees.

    ** How the host is modelled

    Calls into Windows and the third-party crates are inputs, parameters with a contract,
    or, where several processes or threads share an object, a small host: named kernel
    objects exist while a handle to them is open ([InstanceLock.v]), the session of the
    agent's name has a creator ([EtwSession.v]), the event log grows beside its reader
    ([Subscription.v]). A process killed at some point is a run in which every call from
    there on fails. In [ServiceStatus.v] the status thread runs up to [late] after it could,
    and in [ServiceLife.v] the runtime polls up to [late] after what it waits for; in
    [EtwSession.v] a sleep is up to [late] longer than asked for. [ServiceRun.v] runs the
    pass over the old copies whole, before or after the identity step. The rotating log
    works on its own view of its directory.

    The custody's objects are known by their paths: hard links to one file are separate
    objects, and a reparse point is an object and not followed, so an effect seen through
    another link is not expressed (the code refuses files with more links than one and
    reparse points, which is). In [Custody.v] an operation on its own thread that is
    given up on acts at once or never; that its handles may live on, beside what the caller
    does next, is in [CustodyHandles.v]. The identity's files in [Identity.v] are whatever
    [locate] makes of their paths, so two paths may name one file; [Installed.v] and
    [MigrationRun.v], whose paths are fixed and distinct, take each path for itself. That
    [identity.json] is UTF-8 text where the migration reads it is a premise of
    [MigrationStarts.v] ([mg_identity_text]): the JSON crate does not look into the strings
    it skips.

    ** Bounds and fuel

    Loops over lists are structural. [Delivery.catch_up] has fuel for every tick
    between the start and now, and [ticks_on_absolute_timeline] shows it is enough;
    where it would not end (an interval of zero) the flow is [Spins], and the
    configuration check refuses that. The DER loops have the length of what is left
    as fuel, which is enough as each element takes at least two bytes
    ([certificate_identity_exact] has no fuel premise). [Transport.retry_loop] has
    as fuel the number of attempts, and both its users are shown to return.
    [EtwSession.wait_pump] has the polls that fit before its deadline, and
    [stop_returns] shows every stop returns. [ServiceStatus.loop_top] takes at most two
    turns before it waits. In [CustodyHandles.v] and [LogonHandles.v] the length of a loop
    whose end the host decides (entries, batches, turns) is a number the theorems
    quantify over; answers are numbers, of which each call fixes the meaning.
    Hexadecimal printing has 16 digits, those of a [u64].

    ** What is not modelled

    The log lines other than the lifecycle's, the parsing of the command line (clap's),
    what a level's text lets through (the logging crate's), and what the tracing
    crate's parser makes of a record's bytes, which is an input. Of the unsafe blocks the
    life of what Windows hands out is modelled, not the layout of memory: buffers and
    pointers appear as the values they hold. The server side (TypeScript) is another program. *)

From stdpp Require Export prelude gmap strings pretty.
From Stdlib Require Export ZArith Lia.
From Stdlib Require Strings.Ascii Strings.Byte.

#[export] Set Default Goal Selector "!".

(** ** Results: Rust's [Result] and its [?] operator *)

Inductive Result (A E : Type) : Type :=
| Ok (a : A)
| Err (e : E).
Arguments Ok {A E} _.
Arguments Err {A E} _.

#[export] Instance Result_eq_dec {A E} `{EqDecision A, EqDecision E} :
  EqDecision (Result A E).
Proof. solve_decision. Defined.

Definition map_err {A E F} (f : E → F) (r : Result A E) : Result A F :=
  match r with Ok a => Ok a | Err e => Err (f e) end.

Definition is_ok {A E} (r : Result A E) : bool :=
  match r with Ok _ => true | Err _ => false end.

Definition ok_or {A E} (o : option A) (e : E) : Result A E :=
  match o with Some a => Ok a | None => Err e end.

Declare Scope rust_scope.
Delimit Scope rust_scope with rust.

(** [let? x := c in k] is [let x = c?; k]. *)
Notation "'let?' x ':=' c 'in' k" :=
  (match c with Ok x => k | Err e => Err e end)
  (at level 10, x pattern, c at level 100, k at level 200) : rust_scope.
Notation "'try?' c 'in' k" :=
  (match c with Ok _ => k | Err e => Err e end)
  (at level 10, c at level 100, k at level 200) : rust_scope.
Open Scope rust_scope.

(** ** Machine integers: [Z] with the width written out *)

Definition in_u (w x : Z) : Prop := (0 ≤ x < 2 ^ w)%Z.
Definition in_i (w x : Z) : Prop := (- 2 ^ (w - 1) ≤ x < 2 ^ (w - 1))%Z.

(** Wrapping ([fetch_add], [as]) and saturating arithmetic. *)
Definition wrap_u (w x : Z) : Z := (x mod 2 ^ w)%Z.
Definition sat_u (w x : Z) : Z := Z.max 0 (Z.min x (2 ^ w - 1)).

Definition u32_max : Z := 4294967295.
Definition u64_max : Z := 18446744073709551615.

(** [a.saturating_sub(b)] on unsigned integers and durations. *)
Definition sat_sub (a b : Z) : Z := Z.max 0 (a - b).

#[export] Instance in_u_dec w x : Decision (in_u w x).
Proof. unfold in_u; apply _. Defined.
#[export] Instance in_i_dec w x : Decision (in_i w x).
Proof. unfold in_i; apply _. Defined.

Lemma wrap_u_range w x : (0 ≤ w)%Z → in_u w (wrap_u w x).
Proof. intros; apply Z.mod_pos_bound; lia. Qed.

Lemma wrap_u_small w x : in_u w x → wrap_u w x = x.
Proof. unfold in_u, wrap_u; intros; by apply Z.mod_small. Qed.

Lemma sat_u_range w x : (0 ≤ w)%Z → in_u w (sat_u w x).
Proof. unfold in_u, sat_u; intros; lia. Qed.

Lemma sat_u_small w x : in_u w x → sat_u w x = x.
Proof. unfold in_u, sat_u; lia. Qed.

Lemma wrap_u_add_l w a b : (0 ≤ w)%Z → wrap_u w (wrap_u w a + b) = wrap_u w (a + b).
Proof. intros; unfold wrap_u. by rewrite Zplus_mod_idemp_l. Qed.

(** A decidable property of the [n] integers from [from] on, by evaluation. *)
Fixpoint for_range (P : Z → bool) (n : nat) (from : Z) : bool :=
  match n with O => true | S n' => P from && for_range P n' (from + 1) end.

Lemma for_range_spec P n from :
  for_range P n from = true → ∀ x, (from ≤ x < from + Z.of_nat n)%Z → P x = true.
Proof.
  revert from; induction n as [|n IH]; intros from H x Hx; simpl in *; [lia|].
  apply andb_true_iff in H as [H1 H2].
  destruct (Z.eq_dec x from) as [->|]; [done|]. apply (IH (from + 1)%Z); [done|lia].
Qed.

(** A shifted number and bits below it. *)
Lemma lor_shiftl_add k x y :
  (0 ≤ k)%Z → (0 ≤ y < 2 ^ k)%Z → Z.lor (Z.shiftl x k) y = (x * 2 ^ k + y)%Z.
Proof.
  intros Hk Hy. assert (Z.land (Z.shiftl x k) y = 0)%Z as H0.
  { apply Z.bits_inj'. intros n Hn. rewrite Z.land_spec, Z.bits_0.
    destruct (Z.lt_ge_cases n k); [by rewrite Z.shiftl_spec_low|].
    rewrite <- (Z.mod_small y (2 ^ k)), Z.mod_pow2_bits_high by lia. apply andb_false_r. }
  pose proof (Z.add_lor_land (Z.shiftl x k) y) as H. rewrite Z.shiftl_mul_pow2 in * by lia. lia.
Qed.

(** ** Bytes *)

Definition byte_Z (b : Byte.byte) : Z := Z.of_N (Byte.to_N b).

#[export] Instance byte_eq_dec : EqDecision Byte.byte.
Proof. intros a b. destruct (Byte.byte_eq_dec a b); [left|right]; done. Defined.

Lemma byte_Z_range b : in_u 8 (byte_Z b).
Proof. unfold in_u, byte_Z. pose proof (Byte.to_N_bounded b). lia. Qed.

(** ** Strings

    A Rust [str] is its UTF-8 bytes: a [string] of Rocq, one [ascii] per
    byte. The functions below are those of [core::str] the agent uses. *)

Definition is_empty (s : string) : bool :=
  match s with EmptyString => true | _ => false end.

Fixpoint strip_prefix (p s : string) : option string :=
  match p, s with
  | EmptyString, _ => Some s
  | String a p', String b s' =>
      if decide (a = b) then strip_prefix p' s' else None
  | String _ _, EmptyString => None
  end.

Definition starts_with (p s : string) : bool :=
  match strip_prefix p s with Some _ => true | None => false end.

(** [s.strip_suffix(x)]. *)
Fixpoint strip_suffix (x s : string) : option string :=
  if decide (s = x) then Some ""
  else match s with
       | EmptyString => None
       | String a s' => match strip_suffix x s' with
                        | Some t => Some (String a t)
                        | None => None
                        end
       end.

(** [s.split(c)]: the pieces between the separators; never empty. *)
Fixpoint split_on (c : Ascii.ascii) (s : string) : list string :=
  match s with
  | EmptyString => [""]
  | String a s' =>
      if decide (a = c) then "" :: split_on c s'
      else match split_on c s' with
           | [] => [String a ""]
           | p :: ps => String a p :: ps
           end
  end.

(** [parts.join(sep)]. *)
Fixpoint join (sep : string) (l : list string) : string :=
  match l with
  | [] => ""
  | [x] => x
  | x :: xs => x +:+ sep +:+ join sep xs
  end.

Definition ascii_N (a : Ascii.ascii) : N := Ascii.N_of_ascii a.

Definition is_ascii_digit (a : Ascii.ascii) : bool :=
  bool_decide (48 ≤ ascii_N a ≤ 57)%N.
Definition is_ascii_lower (a : Ascii.ascii) : bool :=
  bool_decide (97 ≤ ascii_N a ≤ 122)%N.
Definition is_ascii_upper (a : Ascii.ascii) : bool :=
  bool_decide (65 ≤ ascii_N a ≤ 90)%N.
(** [a..=f]. *)
Definition is_lower_hex_letter (a : Ascii.ascii) : bool :=
  bool_decide (97 ≤ ascii_N a ≤ 102)%N.
Definition is_upper_hex_letter (a : Ascii.ascii) : bool :=
  bool_decide (65 ≤ ascii_N a ≤ 70)%N.
Definition is_ascii_hexdigit (a : Ascii.ascii) : bool :=
  is_ascii_digit a || is_lower_hex_letter a || is_upper_hex_letter a.

Definition to_ascii_lowercase (a : Ascii.ascii) : Ascii.ascii :=
  if is_ascii_upper a then Ascii.ascii_of_N (ascii_N a + 32) else a.

Fixpoint lowercase (s : string) : string :=
  match s with
  | EmptyString => EmptyString
  | String a s' => String (to_ascii_lowercase a) (lowercase s')
  end.

Definition eq_ignore_ascii_case (s t : string) : bool :=
  bool_decide (lowercase s = lowercase t).

Fixpoint forallb_str (P : Ascii.ascii → bool) (s : string) : bool :=
  match s with
  | EmptyString => true
  | String a s' => P a && forallb_str P s'
  end.

(** A byte that continues a UTF-8 sequence ([0b10xxxxxx]): an index in front
    of one is not a character boundary. *)
Definition is_continuation (a : Ascii.ascii) : bool :=
  bool_decide (128 ≤ ascii_N a < 192)%N.

(** [s.get(..n)] with the rest: [None] past the end or inside a character. *)
Fixpoint split_at (n : nat) (s : string) : option (string * string) :=
  match n, s with
  | O, EmptyString => Some (EmptyString, EmptyString)
  | O, String a _ => if is_continuation a then None else Some (EmptyString, s)
  | S _, EmptyString => None
  | S n', String a s' =>
      match split_at n' s' with
      | Some (h, t) => Some (String a h, t)
      | None => None
      end
  end.

(** [s.last()] as a byte, for [ends_with] and the trailing separators. *)
Fixpoint ends_with_char (c : Ascii.ascii) (s : string) : bool :=
  match s with
  | EmptyString => false
  | String a EmptyString => bool_decide (a = c)
  | String _ s' => ends_with_char c s'
  end.

(** [s.trim_end_matches(c)]. *)
Fixpoint trim_end_char (c : Ascii.ascii) (s : string) : string :=
  match s with
  | EmptyString => EmptyString
  | String a s' =>
      match trim_end_char c s' with
      | EmptyString => if decide (a = c) then EmptyString else String a EmptyString
      | t => String a t
      end
  end.

Definition backslash : Ascii.ascii := Ascii.ascii_of_N 92.
Definition slash : Ascii.ascii := Ascii.ascii_of_N 47.

(** Decimal and lowercase hexadecimal text of an unsigned integer. *)
Definition dec (x : Z) : string := pretty x.

Definition hex_digit (x : Z) : Ascii.ascii :=
  if (x <? 10)%Z then Ascii.ascii_of_N (Z.to_N (48 + x))
  else Ascii.ascii_of_N (Z.to_N (87 + x)).

Fixpoint hex_go (fuel : nat) (x : Z) (acc : string) : string :=
  match fuel with
  | O => acc
  | S f =>
      let acc' := String (hex_digit (x mod 16)) acc in
      if (x / 16 =? 0)%Z then acc' else hex_go f (x / 16) acc'
  end.
(** [{:x}] of an integer below [2 ^ 64]: sixteen digits are enough. *)
Definition hex (x : Z) : string := hex_go 16 x "".

(** [{:0nx}]: padded with zeros on the left to [n] digits. *)
Fixpoint zeros (n : nat) : string :=
  match n with O => "" | S n' => String (Ascii.ascii_of_N 48) (zeros n') end.
Definition hex_padded (n : nat) (x : Z) : string :=
  zeros (n - String.length (hex x)) +:+ hex x.

(** ** Lemmas shared by the components *)

Lemma app_str_nil_r s : s +:+ "" = s.
Proof.
  induction s as [|a s IH]; [done|].
  change (String a s +:+ "") with (String a (s +:+ "")). by rewrite IH.
Qed.

Lemma app_str_cons a s t : String a s +:+ t = String a (s +:+ t).
Proof. done. Qed.

Lemma app_str_assoc s t u : (s +:+ t) +:+ u = s +:+ (t +:+ u).
Proof.
  induction s as [|a s IH]; [done|]. by rewrite !app_str_cons, IH.
Qed.

Lemma length_app_str s t :
  String.length (s +:+ t) = String.length s + String.length t.
Proof. induction s as [|a s IH]; [done|]. rewrite app_str_cons; simpl; lia. Qed.

Lemma app_str_inj_l s t u : s +:+ t = s +:+ u → t = u.
Proof.
  induction s as [|a s IH]; [done|].
  rewrite !app_str_cons. intros [= ?]; auto.
Qed.

Lemma strip_prefix_spec p s t : strip_prefix p s = Some t ↔ s = p +:+ t.
Proof.
  revert s; induction p as [|a p IH]; intros s; simpl.
  - split; [by intros [= ->]|by intros ->].
  - rewrite app_str_cons. destruct s as [|b s]; [done|].
    case_decide; simplify_eq; [rewrite IH|]; split; congruence.
Qed.

Lemma strip_prefix_app p t : strip_prefix p (p +:+ t) = Some t.
Proof. by apply strip_prefix_spec. Qed.

Lemma starts_with_spec p s : starts_with p s = true ↔ ∃ t, s = p +:+ t.
Proof.
  unfold starts_with. split.
  - destruct (strip_prefix p s) as [t|] eqn:E; [|done].
    intros _; exists t; by apply strip_prefix_spec.
  - intros [t ->]. by rewrite strip_prefix_app.
Qed.

Lemma strip_suffix_app x s t : strip_suffix x s = Some t → s = t +:+ x.
Proof.
  revert t; induction s as [|a s IH]; intros t; simpl.
  - case_decide; [intros [= <-]; by subst|done].
  - case_decide; [intros [= <-]; by subst|].
    destruct (strip_suffix x s) as [u|]; [|done].
    intros [= <-]. rewrite app_str_cons. f_equal; auto.
Qed.

Lemma strip_suffix_refl x t : strip_suffix x (t +:+ x) = Some t.
Proof.
  induction t as [|a t IH].
  - change ("" +:+ x) with x.
    destruct x; unfold strip_suffix; destruct (decide _); done.
  - rewrite app_str_cons; simpl. rewrite decide_False; [by rewrite IH|].
    intros E%(f_equal String.length). simpl in E. rewrite length_app_str in E. lia.
Qed.

Lemma split_at_spec n s h t :
  split_at n s = Some (h, t) → s = h +:+ t ∧ String.length h = n.
Proof.
  revert s h t; induction n as [|n IH]; intros [|a s] h t; simpl; try done.
  - by intros [= <- <-].
  - case_match; [done|]. by intros [= <- <-].
  - destruct (split_at n s) as [[h' t']|] eqn:E; [|done].
    intros [= <- <-]. apply IH in E as [-> <-]. done.
Qed.

Lemma split_on_not_nil c s : split_on c s ≠ [].
Proof. destruct s; simpl; [done|]. case_decide; [done|]. by case_match. Qed.

Lemma join_split_on c s : join (String c "") (split_on c s) = s.
Proof.
  induction s as [|a s IH]; [done|]; simpl.
  pose proof (split_on_not_nil c s).
  case_decide as Hc; subst.
  - destruct (split_on c s) as [|p ps]; [done|].
    change (join (String c "") ("" :: p :: ps))
      with (String c (join (String c "") (p :: ps))). by rewrite IH.
  - destruct (split_on c s) as [|p [|q qs]]; [done| |].
    + simpl in *; by subst.
    + change (join (String c "") (String a p :: q :: qs))
        with (String a (join (String c "") (p :: q :: qs))). by rewrite IH.
Qed.

(** The text before the first separator. *)
Lemma split_on_head c s t :
  forallb_str (λ a, negb (bool_decide (a = c))) s = true →
  head (split_on c s) = Some s ∧ head (split_on c (s +:+ String c t)) = Some s.
Proof.
  induction s as [|a s IH]; cbn [forallb_str].
  - intros _. split; [done|]. change ("" +:+ String c t) with (String c t); cbn [split_on].
    by rewrite decide_True.
  - intros [Ha Hs]%andb_true_iff. apply negb_true_iff, bool_decide_eq_false in Ha.
    destruct (IH Hs) as [H1 H2]. rewrite app_str_cons. cbn [split_on].
    rewrite !decide_False by done.
    destruct (split_on c s) as [|p ps]; [done|].
    destruct (split_on c (s +:+ String c t)) as [|q qs]; [done|].
    simpl in *. simplify_eq. done.
Qed.

Lemma forallb_str_app P s t : forallb_str P (s +:+ t) = forallb_str P s && forallb_str P t.
Proof.
  induction s as [|a s IH]; [done|]. rewrite app_str_cons; cbn [forallb_str].
  by rewrite IH, andb_assoc.
Qed.

Lemma lowercase_app s t : lowercase (s +:+ t) = lowercase s +:+ lowercase t.
Proof. induction s as [|a s IH]; [done|]. by rewrite app_str_cons; simpl; rewrite IH. Qed.

Lemma length_lowercase s : String.length (lowercase s) = String.length s.
Proof. induction s; simpl; auto. Qed.

Lemma eq_ignore_ascii_case_refl s : eq_ignore_ascii_case s s = true.
Proof. by apply bool_decide_eq_true. Qed.

Lemma eq_ignore_ascii_case_length s t :
  eq_ignore_ascii_case s t = true → String.length s = String.length t.
Proof.
  intros E%bool_decide_eq_true. rewrite <- (length_lowercase s), E.
  apply length_lowercase.
Qed.

(** A decimal text is digits. *)
Lemma pretty_N_go_digits x s :
  forallb_str is_ascii_digit s = true → forallb_str is_ascii_digit (pretty_N_go x s) = true.
Proof.
  revert s. induction (N.lt_wf_0 x) as [x _ IH]; intros s Hs.
  assert (x = 0 ∨ 0 < x)%N as [->|Hx] by lia; [by rewrite pretty_N_go_0|].
  rewrite pretty_N_go_step by done. apply IH; [by apply N.div_lt|].
  cbn [forallb_str]. rewrite Hs. unfold pretty_N_char. by repeat case_match.
Qed.

Lemma dec_digits x : (0 ≤ x)%Z → forallb_str is_ascii_digit (dec x) = true.
Proof.
  intros Hx. destruct x as [|p|p]; [done| |lia].
  unfold dec, pretty, pretty_Z, pretty, pretty_positive, pretty, pretty_N.
  rewrite decide_False by done. by apply pretty_N_go_digits.
Qed.

Lemma pretty_N_go_length (n : nat) x s :
  (x < 10 ^ N.of_nat n)%N → String.length (pretty_N_go x s) ≤ String.length s + n.
Proof.
  revert x s; induction n as [|n IH]; intros x s Hx.
  { assert (x = 0)%N as -> by lia. rewrite pretty_N_go_0. lia. }
  assert (x = 0 ∨ 0 < x)%N as [->|Hpos] by lia; [rewrite pretty_N_go_0; lia|].
  rewrite pretty_N_go_step by done. etrans; [apply IH|simpl; lia].
  apply N.Div0.div_lt_upper_bound. rewrite Nat2N.inj_succ, N.pow_succ_r' in Hx. done.
Qed.

(** A number below [10 ^ n] has at most [n] digits. *)
Lemma dec_length (n : nat) x :
  (0 < n) → (0 ≤ x < 10 ^ Z.of_nat n)%Z → String.length (dec x) ≤ n.
Proof.
  intros Hn Hx. destruct x as [|p|p]; [done| |lia].
  unfold dec, pretty, pretty_Z, pretty, pretty_positive, pretty, pretty_N.
  rewrite decide_False by done. etrans; [apply (pretty_N_go_length n)|simpl; lia].
  apply N2Z.inj_lt. rewrite N2Z.inj_pow, nat_N_Z. lia.
Qed.

(** The last character of a text is that of its last non-empty part. *)
Lemma app_last_char q a s n :
  q +:+ String a "" = s +:+ n → n = "" ∨ ∃ n', n = n' +:+ String a "".
Proof.
  revert q; induction s as [|b s IH]; intros q.
  { change ("" +:+ n) with n. intros <-. right. by exists q. }
  rewrite app_str_cons. destruct q as [|c q].
  - change ("" +:+ String a "") with (String a ""). intros [= _ H]. left.
    destruct s; [|done]. by destruct n.
  - rewrite app_str_cons. intros [= _ H]. eauto.
Qed.

(** Texts around a separator neither left part contains. *)
Lemma app_sep_inj (P : Ascii.ascii → bool) c s s' t t' :
  forallb_str P s = true → forallb_str P s' = true → P c = false →
  s +:+ String c t = s' +:+ String c t' → s = s' ∧ t = t'.
Proof.
  intros Hs Hs' Hc. revert s' Hs Hs'; induction s as [|a s IH]; intros [|a' s'].
  - by intros _ _ [= ->].
  - cbn [forallb_str]. intros _ [Ha _]%andb_true_iff [= -> _]. congruence.
  - cbn [forallb_str]. intros [Ha _]%andb_true_iff _ [= -> _]. congruence.
  - cbn [forallb_str]. intros [_ Hs]%andb_true_iff [_ Hs']%andb_true_iff.
    rewrite !app_str_cons. intros [= -> H]. by destruct (IH s' Hs Hs' H) as [-> ->].
Qed.

Lemma dec_inj x y : dec x = dec y → x = y.
Proof. apply (inj pretty). Qed.

(** ** Lists *)

(** The last [n] elements. *)
Definition lastn {A} (n : nat) (l : list A) : list A := drop (length l - n) l.

Lemma length_lastn {A} n (l : list A) : length (lastn n l) = n `min` length l.
Proof. unfold lastn. rewrite length_drop. lia. Qed.

Lemma lastn_all {A} n (l : list A) : length l ≤ n → lastn n l = l.
Proof. intros. unfold lastn. by replace (length l - n) with 0 by lia. Qed.

Lemma drop_succ_tail {A} n (l : list A) : drop (S n) l = tail (drop n l).
Proof. revert l; induction n as [|n IH]; intros [|x l]; try done. apply IH. Qed.

Lemma tail_sublist {A} (l : list A) : tail l `sublist_of` l.
Proof. destruct l; simpl; [done|]. by apply sublist_cons. Qed.

(** Pushing on a bounded queue that drops its oldest element. *)
Lemma lastn_snoc_full {A} n (l : list A) x :
  n = length l → 0 < n → lastn n (l ++ [x]) = tail l ++ [x].
Proof.
  intros -> ?. unfold lastn. rewrite length_app; simpl.
  replace (length l + 1 - length l) with 1 by lia.
  destruct l; simpl in *; [lia|]. by rewrite drop_0.
Qed.

(** ** Automation *)

Create HintDb agent.
Create Rewrite HintDb agent_length.
#[export] Hint Resolve wrap_u_range sat_u_range byte_Z_range : agent.
#[export] Hint Resolve eq_ignore_ascii_case_refl strip_prefix_app : agent.
#[export] Hint Rewrite @length_app @length_take @length_drop @length_fmap
  @length_reverse @length_replicate : agent_length.

(** Case analysis on every [match] and [if] of the goal, with the equations. *)
Ltac case_all := repeat (case_match; simplify_eq/=).

Ltac simpl_length := autorewrite with agent_length in *; simpl in *.
Ltac solve_length := simpl_length; lia.

(** Unfold the width predicates and finish with linear arithmetic. *)
Ltac widths := unfold in_u, in_i, u32_max, u64_max, sat_sub in *; lia.

(** ** Fixed-width patterns: one class of characters per position *)

Fixpoint matches (pat : list (Ascii.ascii → bool)) (s : string) : bool :=
  match pat, s with
  | [], EmptyString => true
  | P :: pat', String a s' => P a && matches pat' s'
  | _, _ => false
  end.

Lemma matches_app p q s :
  matches (p ++ q) s = true ↔ ∃ a b, s = a +:+ b ∧ matches p a = true ∧ matches q b = true.
Proof.
  revert s; induction p as [|P p IH]; intros s; cbn [app matches].
  - split; [intros; by exists "", s|]. intros (a & b & -> & Ha & Hb). by destruct a.
  - destruct s as [|x s].
    { split; [done|]. intros ([|y a] & b & E & Ha & Hb); [done|]. by rewrite app_str_cons in E. }
    rewrite andb_true_iff, IH. split.
    + intros (Hx & a & b & -> & Ha & Hb). exists (String x a), b. cbn [matches]. by rewrite Hx, Ha.
    + intros ([|y a] & b & E & Ha & Hb); [done|]. rewrite app_str_cons in E. simplify_eq.
      cbn [matches] in Ha. apply andb_true_iff in Ha as [Hy Ha]. split; [done|]. by exists a, b.
Qed.

Lemma matches_replicate n P s :
  matches (replicate n P) s = true ↔ String.length s = n ∧ forallb_str P s = true.
Proof.
  revert s; induction n as [|n IH]; intros [|a s]; simpl; try (split; [done|naive_solver]).
  rewrite !andb_true_iff, IH. naive_solver lia.
Qed.

(** Splitting at a separator the head does not contain. *)
Lemma split_on_plain c p :
  forallb_str (λ a, negb (bool_decide (a = c))) p = true → split_on c p = [p].
Proof.
  induction p as [|a p IH]; cbn [forallb_str split_on]; [done|].
  intros [Ha Hp]%andb_true_iff. apply negb_true_iff, bool_decide_eq_false in Ha.
  by rewrite decide_False, IH.
Qed.

Lemma split_on_app c p t :
  forallb_str (λ a, negb (bool_decide (a = c))) p = true →
  split_on c (p +:+ String c t) = p :: split_on c t.
Proof.
  induction p as [|a p IH]; cbn [forallb_str].
  - intros _. change ("" +:+ String c t) with (String c t). cbn [split_on]. by rewrite decide_True.
  - intros [Ha Hp]%andb_true_iff. apply negb_true_iff, bool_decide_eq_false in Ha.
    rewrite app_str_cons. cbn [split_on]. by rewrite decide_False, IH.
Qed.

Lemma forallb_str_impl (P Q : Ascii.ascii → bool) s :
  (∀ a, P a = true → Q a = true) → forallb_str P s = true → forallb_str Q s = true.
Proof.
  intros H. induction s as [|a s IH]; cbn [forallb_str]; [done|].
  intros [Ha Hs]%andb_true_iff. by rewrite (H _ Ha), IH.
Qed.
