(* ===== verification/FileTree.v ===== *)
(** * Paths and directory trees

    What the file operations of [custody.rs] and [service/migration.rs] use of
    Windows' file system: a path is looked up by its components with either slash
    and whatever ASCII case, and a store is a map from such paths to objects, so
    that a directory's rename moves, and its removal deletes, everything below it. *)

From stdpp Require Import sorting.
From S2P Require Import Prelude.

(** ** Paths *)

Notation Path := (list string).

Definition is_slash (c : Ascii.ascii) : bool := bool_decide (c = backslash) || bool_decide (c = slash).

(** The pieces between the separators. *)
Fixpoint pieces (s : string) : list string :=
  match s with
  | EmptyString => [""]
  | String a s' =>
      if is_slash a then "" :: pieces s'
      else match pieces s' with
           | [] => [String a ""]
           | p :: ps => String a p :: ps
           end
  end.

Definition components (s : string) : list string := filter (λ p, p ≠ "") (pieces s).

(** What a path is looked up by. *)
Definition path_key (s : string) : Path := lowercase <$> components s.

(** [Path::file_name], or the empty text. *)
Definition file_name (s : string) : string := default "" (last (components s)).

(** The text up to its last separator. *)
Fixpoint directory_part (s : string) : string :=
  match s with
  | EmptyString => EmptyString
  | String a s' =>
      if is_slash a then String a (directory_part s')
      else match directory_part s' with
           | EmptyString => EmptyString
           | d => String a d
           end
  end.

(** [Path::with_file_name]. *)
Definition with_file_name (s name : string) : string := directory_part s +:+ name.

(** A name of one component. *)
Definition plain_name (n : string) : bool := negb (is_empty n) && forallb_str (λ c, negb (is_slash c)) n.

Lemma pieces_not_nil s : pieces s ≠ [].
Proof. destruct s; cbn; [done|]. case_match; [done|]. by case_match. Qed.

Lemma pieces_app_slash s c n : is_slash c = true → pieces (s +:+ String c n) = pieces s ++ pieces n.
Proof.
  intros Hc. induction s as [|a s IH].
  - change ("" +:+ String c n) with (String c n). cbn [pieces]. by rewrite Hc.
  - rewrite app_str_cons. cbn [pieces]. rewrite IH. destruct (is_slash a); [done|].
    pose proof (pieces_not_nil s). by destruct (pieces s).
Qed.

Lemma pieces_plain n : forallb_str (λ c, negb (is_slash c)) n = true → pieces n = [n].
Proof.
  induction n as [|a n IH]; [done|]. cbn [forallb_str pieces].
  intros [Ha Hn]%andb_true_iff. apply negb_true_iff in Ha. by rewrite Ha, IH.
Qed.

Lemma components_plain n : plain_name n = true → components n = [n].
Proof.
  unfold plain_name, components. intros [He Hn]%andb_true_iff. rewrite (pieces_plain n Hn).
  rewrite filter_cons_True, filter_nil; [done|]. by destruct n.
Qed.

(** A name joined with a separator between. *)
Lemma components_join base c n :
  is_slash c = true → plain_name n = true → components (base +:+ String c n) = components base ++ [n].
Proof.
  intros Hc Hn. unfold components at 1. rewrite pieces_app_slash by done. rewrite filter_app. f_equal.
  by apply components_plain.
Qed.

(** ** Trees *)

Section Tree.
Context {V : Type}.
Implicit Types (m : gmap Path V) (d k r from to : Path).

(** [k] without the leading [d]. *)
Fixpoint strip_path (d k : Path) : option Path :=
  match d, k with
  | [], _ => Some k
  | a :: d', b :: k' => if decide (a = b) then strip_path d' k' else None
  | _ :: _, [] => None
  end.

Lemma strip_path_Some d k r : strip_path d k = Some r ↔ k = d ++ r.
Proof.
  revert k; induction d as [|a d IH]; intros k; cbn.
  - split; [by intros [= ->]|by intros ->].
  - destruct k as [|b k]; [done|]. case_decide; simplify_eq; [rewrite IH|]; split; congruence.
Qed.

Lemma strip_path_app d r : strip_path d (d ++ r) = Some r.
Proof. by apply strip_path_Some. Qed.

(** Everything at or below [d]. *)
Definition below d k : bool := match strip_path d k with Some _ => true | None => false end.

Lemma below_spec d k : below d k = true ↔ ∃ r, k = d ++ r.
Proof.
  unfold below. split.
  - destruct (strip_path d k) as [r|] eqn:E; [|done]. apply strip_path_Some in E. eauto.
  - intros [r ->]. by rewrite strip_path_app.
Qed.

Lemma below_app d r : below d (d ++ r) = true.
Proof. apply below_spec. eauto. Qed.

Lemma below_self d : below d d = true.
Proof. apply below_spec. exists []. by rewrite app_nil_r. Qed.

(** Siblings: neither is below the other. *)
Lemma below_sibling p (a b : string) r : a ≠ b → below (p ++ [a]) ((p ++ [b]) ++ r) = false.
Proof.
  intros Hne. destruct (below _ _) eqn:E; [|done]. apply below_spec in E as [r' E].
  rewrite <- !app_assoc in E. apply app_inv_head in E. by injection E as ->.
Qed.

Definition remove_tree d m : gmap Path V := filter (λ kv, below d kv.1 = false) m.

Lemma remove_tree_lookup d m k : remove_tree d m !! k = if below d k then None else m !! k.
Proof.
  unfold remove_tree. destruct (below d k) eqn:E.
  - apply map_lookup_filter_None. right. intros v _. cbn. congruence.
  - destruct (m !! k) as [v|] eqn:Ek.
    + by apply map_lookup_filter_Some.
    + apply map_lookup_filter_None. by left.
Qed.

(** The rename of [from] to [to]: the keys below [from] are rebased. *)
Definition move_key (from to k : Path) : Path :=
  match strip_path from k with Some r => to ++ r | None => k end.

Definition move_tree from to m : gmap Path V :=
  list_to_map ((λ kv, (move_key from to kv.1, kv.2)) <$> map_to_list m).

Definition unoccupied d m : Prop := ∀ r, m !! (d ++ r) = None.

Lemma move_key_inj from to m k k' v v' :
  unoccupied to m → m !! k = Some v → m !! k' = Some v' →
  move_key from to k = move_key from to k' → k = k'.
Proof.
  unfold move_key. intros Hu Hk Hk'.
  destruct (strip_path from k) as [r|] eqn:E, (strip_path from k') as [r'|] eqn:E'; intros H; [| | |done].
  - apply strip_path_Some in E as ->, E' as ->. apply app_inv_head in H. by subst.
  - subst k'. by rewrite Hu in Hk'.
  - subst k. by rewrite Hu in Hk.
Qed.

Lemma move_tree_Some from to m k v :
  unoccupied to m →
  move_tree from to m !! k = Some v ↔ ∃ j, k = move_key from to j ∧ m !! j = Some v.
Proof.
  intros Hu. unfold move_tree.
  assert (NoDup (((λ kv, (move_key from to kv.1, kv.2)) <$> map_to_list m).*1)) as Hnd.
  { rewrite <- list_fmap_compose. apply NoDup_fmap_2_strong.
    - intros [j x] [j' x'] Hj Hj' H. cbn in H. apply elem_of_map_to_list in Hj, Hj'.
      pose proof (move_key_inj _ _ _ _ _ _ _ Hu Hj Hj' H) as ->. congruence.
    - apply NoDup_map_to_list. }
  rewrite <- elem_of_list_to_map by done. rewrite list_elem_of_fmap. split.
  - intros ([j x] & [= -> ->] & H). apply elem_of_map_to_list in H. eauto.
  - intros (j & -> & H). exists (j, v). split; [done|]. by apply elem_of_map_to_list.
Qed.

Lemma move_tree_to from to m r :
  unoccupied to m → move_tree from to m !! (to ++ r) = m !! (from ++ r).
Proof.
  intros Hu. apply option_eq. intros v. rewrite move_tree_Some by done. split.
  - intros (j & Hj & Hv). unfold move_key in Hj. destruct (strip_path from j) as [r'|] eqn:E.
    + apply strip_path_Some in E as ->. apply app_inv_head in Hj. by subst.
    + subst j. by rewrite Hu in Hv.
  - intros Hv. exists (from ++ r). split; [|done]. unfold move_key. by rewrite strip_path_app.
Qed.

Lemma move_tree_other from to m k :
  unoccupied to m → below to k = false → move_tree from to m !! k = if below from k then None else m !! k.
Proof.
  intros Hu Hk. apply option_eq. intros v. rewrite move_tree_Some by done. split.
  - intros (j & Hj & Hv). unfold move_key in Hj. destruct (strip_path from j) as [r'|] eqn:E.
    + subst k. by rewrite below_app in Hk.
    + subst j. unfold below. by rewrite E.
  - destruct (below from k) eqn:E; [done|]. intros Hv. exists k. split; [|done].
    unfold move_key. unfold below in E. by destruct (strip_path from k).
Qed.

(** The entries directly in [d]. *)
Definition is_child d k : bool := match strip_path d k with Some [_] => true | _ => false end.

Definition children d m : list V := snd <$> filter (λ kv, is_child d kv.1 = true) (map_to_list m).

Lemma is_child_spec d k : is_child d k = true ↔ ∃ n, k = d ++ [n].
Proof.
  unfold is_child. split.
  - destruct (strip_path d k) as [[|n [|]]|] eqn:E; try done. apply strip_path_Some in E. eauto.
  - intros [n ->]. by rewrite strip_path_app.
Qed.

Lemma elem_of_children d m v : v ∈ children d m ↔ ∃ n, m !! (d ++ [n]) = Some v.
Proof.
  unfold children. rewrite list_elem_of_fmap. split.
  - intros ([k x] & -> & H). apply list_elem_of_filter in H as [Hc H]. apply elem_of_map_to_list in H.
    cbn in *. apply is_child_spec in Hc as [n ->]. eauto.
  - intros [n H]. exists (d ++ [n], v). split; [done|]. apply list_elem_of_filter. split.
    + apply is_child_spec. eauto.
    + by apply elem_of_map_to_list.
Qed.

(** The paths strictly below [d], the deepest first. *)
Definition deeper (a b : Path) : Prop := length b ≤ length a.
#[global] Instance deeper_dec a b : Decision (deeper a b).
Proof. unfold deeper. apply _. Defined.

Definition descendants d m : list Path :=
  merge_sort deeper (filter (λ k, below d k = true ∧ k ≠ d) ((map_to_list m).*1)).

Lemma elem_of_descendants d m k : k ∈ descendants d m → below d k = true ∧ k ≠ d.
Proof. unfold descendants. rewrite merge_sort_Permutation. intros [H _]%list_elem_of_filter. done. Qed.

(** Some of the paths below [d] deleted. *)
Definition delete_all (ks : list Path) m : gmap Path V := foldr delete m ks.

Lemma delete_all_lookup ks m k : delete_all ks m !! k = if decide (k ∈ ks) then None else m !! k.
Proof.
  induction ks as [|j ks IH]; cbn [delete_all foldr].
  - rewrite decide_False by apply not_elem_of_nil. done.
  - fold (delete_all ks m). destruct (decide (k = j)) as [->|Hne].
    + rewrite lookup_delete_eq, decide_True by left. done.
    + rewrite lookup_delete_ne by done. rewrite IH.
      destruct (decide (k ∈ ks)); [rewrite decide_True by (by right)|rewrite decide_False]; try done.
      rewrite elem_of_cons. naive_solver.
Qed.

End Tree.
