(* ===== verification/Handles.v ===== *)
(** * Handles and who closes them

    The agent owns what Windows hands out (file and event handles, event-log handles,
    security descriptors, buffers a call allocated) and gives each back itself, by a [Drop]
    or by hand. This file is the calculus in which those functions are written: a program
    that opens, uses and closes, may leave a thread behind, and for the rest depends on what
    its calls answer; a host that knows what is open, where threads interleave call by
    call and a thread left behind may go on, or not, for as long as it likes; and a logic of
    ownership, after separation logic, in which each function is shown to close exactly
    what it opened. A use or a close of something not open is a misuse; the soundness
    theorem is that a program the logic accepts never comes to one. *)

From S2P Require Import Prelude.
Open Scope Z_scope.
#[export] Set Warnings "-clear-no-such-hyp".

(** ** Programs *)

(** What a thread left behind still does; its result goes nowhere. *)
Inductive lprog : Type :=
| LEnd
| LOpen (on_failure : option Z) (k : Z → lprog)
| LUse (h : Z) (k : Z → lprog)
| LClose (h : Z) (k : lprog)
| LAsk (k : Z → lprog).

(** A call that hands out a handle, or the value its failure returns, if it can fail; a
    call on a handle, with its answer; a close; any other call; and a thread left behind. *)
Inductive hprog (A : Type) : Type :=
| HRet (a : A)
| HOpen (on_failure : option Z) (k : Z → hprog A)
| HUse (h : Z) (k : Z → hprog A)
| HClose (h : Z) (k : hprog A)
| HAsk (k : Z → hprog A)
| HLeave (q : lprog) (k : hprog A).
Arguments HRet {A} a.
Arguments HOpen {A} on_failure k.
Arguments HUse {A} h k.
Arguments HClose {A} h k.
Arguments HAsk {A} k.
Arguments HLeave {A} q k.

Fixpoint hbind {A B} (p : hprog A) (f : A → hprog B) : hprog B :=
  match p with
  | HRet a => f a
  | HOpen on_failure k => HOpen on_failure (λ h, hbind (k h) f)
  | HUse h k => HUse h (λ z, hbind (k z) f)
  | HClose h k => HClose h (hbind k f)
  | HAsk k => HAsk (λ z, hbind (k z) f)
  | HLeave q k => HLeave q (hbind k f)
  end.

(** A program as a thread left behind runs it, and back. *)
Fixpoint detach (p : hprog unit) : lprog :=
  match p with
  | HRet _ | HLeave _ _ => LEnd
  | HOpen on_failure k => LOpen on_failure (λ h, detach (k h))
  | HUse h k => LUse h (λ z, detach (k z))
  | HClose h k => LClose h (detach k)
  | HAsk k => LAsk (λ z, detach (k z))
  end.
Fixpoint attach (q : lprog) : hprog unit :=
  match q with
  | LEnd => HRet tt
  | LOpen on_failure k => HOpen on_failure (λ h, attach (k h))
  | LUse h k => HUse h (λ z, attach (k z))
  | LClose h k => HClose h (attach k)
  | LAsk k => HAsk (λ z, attach (k z))
  end.

(** A program that leaves no thread behind. *)
Fixpoint leaves_none {A} (p : hprog A) : Prop :=
  match p with
  | HRet _ => True
  | HOpen _ k | HUse _ k | HAsk k => ∀ z, leaves_none (k z)
  | HClose _ k => leaves_none k
  | HLeave _ _ => False
  end.

Definition open_or (failed : Z) : hprog Z := HOpen (Some failed) HRet.
Definition open_always : hprog Z := HOpen None HRet.
Definition use (h : Z) : hprog Z := HUse h HRet.
Definition close (h : Z) : hprog unit := HClose h (HRet tt).
Definition ask : hprog Z := HAsk HRet.

Declare Scope handle_scope.
Delimit Scope handle_scope with handle.
Notation "'let!' x ':=' p 'in' k" := (hbind p (λ x, k))
  (at level 10, x pattern, p at level 100, k at level 200) : handle_scope.
Notation "'then!' p 'in' k" := (hbind p (λ _, k))
  (at level 10, p at level 100, k at level 200) : handle_scope.
Open Scope handle_scope.

(** ** Scopes *)

(** [let x = p?; k] where nothing is owned on the way. *)
Definition htry {A B E} (p : hprog (Result A E)) (k : A → hprog (Result B E)) : hprog (Result B E) :=
  let! r := p in match r with Ok a => k a | Err e => HRet (Err e) end.
Notation "'try!' x ':=' p 'in' k" := (htry p (λ x, k))
  (at level 10, x pattern, p at level 100, k at level 200) : handle_scope.

(** A value dropped at the end of the scope, however it is left: [CloseHandle] of a
    [Handle], [LocalFree] of a [Descriptor], the close of a [File]. *)
Definition scoped {A} (h : Z) (body : hprog A) : hprog A :=
  let! r := body in then! close h in HRet r.

(** [let x = p?; k] in a scope that owns [h], which [k] may move: an error drops it. *)
Definition holding {A B E} (h : Z) (p : hprog (Result A E)) (k : A → hprog (Result B E)) : hprog (Result B E) :=
  let! r := p in match r with Ok a => k a | Err e => then! close h in HRet (Err e) end.
Notation "'holding!' h ';' x ':=' p 'in' k" := (holding h p (λ x, k))
  (at level 10, h at level 9, x pattern, p at level 100, k at level 200) : handle_scope.

(** A BOOL or a status as the code tests it. *)
Definition succeeds (p : hprog Z) : hprog (Result unit unit) :=
  let! ok := p in HRet (if ok =? 0 then Err tt else Ok tt).

Definition INVALID_HANDLE_VALUE : Z := -1.

(** What no call hands out as a handle. *)
Definition valid (h : Z) : Prop := h ≠ 0 ∧ h ≠ INVALID_HANDLE_VALUE.

#[export] Instance valid_dec h : Decision (valid h).
Proof. unfold valid; apply _. Defined.

(** ** The host *)

(** One call of a program over the handles that are open. *)
Inductive hstep {A} : gset Z * hprog A → gset Z * hprog A → Prop :=
| open_fails live v k : hstep (live, HOpen (Some v) k) (live, k v)
| open_gives live on_failure k h :
    valid h → h ∉ live → on_failure ≠ Some h → hstep (live, HOpen on_failure k) ({[h]} ∪ live, k h)
| used live h k z : h ∈ live → hstep (live, HUse h k) (live, k z)
| closed live h k : h ∈ live → hstep (live, HClose h k) (live ∖ {[h]}, k)
| asked live k z : hstep (live, HAsk k) (live, k z).

(** The next call is on something that is not open. *)
Definition misuses {A} (live : gset Z) (p : hprog A) : Prop :=
  match p with HUse h _ | HClose h _ => h ∉ live | _ => False end.

#[export] Instance misuses_dec {A} live (p : hprog A) : Decision (misuses live p).
Proof. destruct p; apply _. Defined.

(** Two threads over one host. *)
Record Pair (A B : Type) := { live : gset Z; left_ : hprog A; right_ : hprog B }.
Arguments live {A B} _.
Arguments left_ {A B} _.
Arguments right_ {A B} _.

Inductive pair_step {A B} : Pair A B → Pair A B → Prop :=
| left_steps c L p : hstep (live c, left_ c) (L, p) → pair_step c {| live := L; left_ := p; right_ := right_ c |}
| right_steps c L q : hstep (live c, right_ c) (L, q) → pair_step c {| live := L; left_ := left_ c; right_ := q |}.

(** A run by the answers its calls get, until they or the program end. *)
Fixpoint hrun {A} (answers : list Z) (L : gset Z) (p : hprog A) : option (gset Z * hprog A) :=
  match answers, p with
  | _, HRet _ | _, HLeave _ _ | [], _ => Some (L, p)
  | z :: answers, HOpen on_failure k =>
      if decide (on_failure = Some z) then hrun answers L (k z)
      else if decide (valid z ∧ z ∉ L) then hrun answers ({[z]} ∪ L) (k z) else None
  | z :: answers, HUse h k => if decide (h ∈ L) then hrun answers L (k z) else None
  | _ :: answers, HClose h k => if decide (h ∈ L) then hrun answers (L ∖ {[h]}) k else None
  | z :: answers, HAsk k => hrun answers L (k z)
  end.

Lemma hrun_steps {A} answers L (p : hprog A) c : hrun answers L p = Some c → rtc hstep (L, p) c.
Proof.
  revert L p. induction answers as [|z answers IH]; intros L p; [by destruct p; intros [= <-]|].
  destruct p as [a|f k|h k|h k|k|q k]; cbn; intros H; repeat case_decide; destruct_and?; simplify_eq.
  - done.
  - eapply rtc_l; [apply open_fails|by apply IH].
  - eapply rtc_l; [by apply open_gives|by apply IH].
  - eapply rtc_l; [by apply (used L h k z)|by apply IH].
  - eapply rtc_l; [by apply closed|by apply IH].
  - eapply rtc_l; [apply (asked L k z)|by apply IH].
  - done.
Qed.

(** Any number of threads over one host; one left behind is one more. *)
Record Pool := { open_ : gset Z; threads : list (hprog unit) }.

Inductive pool_step : Pool → Pool → Prop :=
| moves c i p L p' :
    threads c !! i = Some p → hstep (open_ c, p) (L, p') →
    pool_step c {| open_ := L; threads := <[i := p']> (threads c) |}
| leaves c i q k :
    threads c !! i = Some (HLeave q k) →
    pool_step c {| open_ := open_ c; threads := <[i := k]> (threads c) ++ [attach q] |}.

(** A run by the thread that moves next and the answer it gets. *)
Fixpoint pool_run (schedule : list (nat * Z)) (c : Pool) : option Pool :=
  match schedule with
  | [] => Some c
  | (i, z) :: schedule =>
      match threads c !! i with
      | Some (HLeave q k) =>
          pool_run schedule {| open_ := open_ c; threads := <[i := k]> (threads c) ++ [attach q] |}
      | Some p =>
          match hrun [z] (open_ c) p with
          | Some (L, p') => pool_run schedule {| open_ := L; threads := <[i := p']> (threads c) |}
          | None => None
          end
      | None => None
      end
  end.

Lemma moves_rtc c i p L p' : threads c !! i = Some p → rtc hstep (open_ c, p) (L, p') →
  rtc pool_step c {| open_ := L; threads := <[i := p']> (threads c) |}.
Proof.
  intros Hi H. remember (open_ c, p) as x eqn:Ex. remember (L, p') as y eqn:Ey. revert c p Hi Ex.
  induction H as [x|x [L1 p1] y Hst _ IH]; intros c p Hi ->.
  - injection Ey as <- <-. rewrite list_insert_id by done. by destruct c.
  - eapply rtc_l; [by eapply moves|]. specialize (IH Ey {| open_ := L1; threads := <[i := p1]> (threads c) |} p1).
    cbn in IH. rewrite list_lookup_insert_eq in IH by (by eapply lookup_lt_Some).
    rewrite list_insert_insert_eq in IH. by apply IH.
Qed.

Lemma pool_run_steps schedule c c' : pool_run schedule c = Some c' → rtc pool_step c c'.
Proof.
  revert c. induction schedule as [|[i z] schedule IH]; intros c; cbn [pool_run]; [by intros [= <-]|].
  destruct (threads c !! i) as [p|] eqn:Hi; [|done].
  assert (∀ p, threads c !! i = Some p →
    match hrun [z] (open_ c) p with
    | Some (L, p') => pool_run schedule {| open_ := L; threads := <[i := p']> (threads c) |} | None => None
    end = Some c' → rtc pool_step c c') as Hmove.
  { intros p0 H0 H. destruct (hrun [z] (open_ c) p0) as [[L p']|] eqn:E; [|done]. apply hrun_steps in E.
    etrans; [by eapply moves_rtc|by apply IH]. }
  destruct p as [a|f k|h k|h k|k|q k]; try (by apply Hmove). intros H. eapply rtc_l; [by apply leaves|by apply IH].
Qed.

Lemma left_steps_rtc {A B} L (p : hprog A) L' p' (q : hprog B) :
  rtc hstep (L, p) (L', p') →
  rtc pair_step {| live := L; left_ := p; right_ := q |} {| live := L'; left_ := p'; right_ := q |}.
Proof.
  intros H. apply (rtc_congruence (λ c, {| live := c.1; left_ := c.2; right_ := q |}) pair_step) in H; [done|].
  intros [L1 p1] [L2 p2] Hst. by apply (left_steps {| live := L1; left_ := p1; right_ := q |}).
Qed.

Lemma right_steps_rtc {A B} L (p : hprog A) (q : hprog B) L' q' :
  rtc hstep (L, q) (L', q') →
  rtc pair_step {| live := L; left_ := p; right_ := q |} {| live := L'; left_ := p; right_ := q' |}.
Proof.
  intros H. apply (rtc_congruence (λ c, {| live := c.1; left_ := p; right_ := c.2 |}) pair_step) in H; [done|].
  intros [L1 p1] [L2 p2] Hst. by apply (right_steps {| live := L1; left_ := p; right_ := p1 |}).
Qed.

(** ** Ownership *)

(** [safe B p S Q]: with what it owns in [S], and what it shares and may use but not close
    in [B], the program misuses nothing whatever it is answered, and when it returns [Q]
    holds of its result and of what it owns then. A thread it leaves behind takes a part of
    what it owns with it, uses nothing else, and closes it all if it ever ends. *)
Fixpoint left_safe (q : lprog) (S : gset Z) : Prop :=
  match q with
  | LEnd => S = ∅
  | LOpen on_failure k =>
      (∀ v, on_failure = Some v → left_safe (k v) S) ∧
      (∀ h, valid h → h ∉ S → on_failure ≠ Some h → left_safe (k h) ({[h]} ∪ S))
  | LUse h k => h ∈ S ∧ ∀ z, left_safe (k z) S
  | LClose h k => h ∈ S ∧ left_safe k (S ∖ {[h]})
  | LAsk k => ∀ z, left_safe (k z) S
  end.

Fixpoint safe {A} (B : gset Z) (p : hprog A) (S : gset Z) (Q : A → gset Z → Prop) : Prop :=
  match p with
  | HRet a => Q a S
  | HOpen on_failure k =>
      (∀ v, on_failure = Some v → safe B (k v) S Q) ∧
      (∀ h, valid h → h ∉ B ∪ S → on_failure ≠ Some h → safe B (k h) ({[h]} ∪ S) Q)
  | HUse h k => h ∈ B ∪ S ∧ ∀ z, safe B (k z) S Q
  | HClose h k => h ∈ S ∧ safe B k (S ∖ {[h]}) Q
  | HAsk k => ∀ z, safe B (k z) S Q
  | HLeave q k => ∃ T F, S = T ∪ F ∧ T ## F ∧ left_safe q T ∧ safe B k F Q
  end.

(** The specification of a function: it takes over [X], uses [H] of its callers, and hands
    [out a] over with its result [a]; whatever else its callers own stays theirs. What
    changes hands is never null or invalid. *)
Definition all_valid (X : gset Z) : Prop := ∀ h, h ∈ X → valid h.

Definition owns {A} (H X : gset Z) (p : hprog A) (out : A → gset Z) : Prop :=
  ∀ B S, B ## S → X ## B ∪ S → H ⊆ B ∪ S → all_valid X →
    safe B p (X ∪ S) (λ a S', S' = out a ∪ S ∧ out a ## B ∪ S ∧ all_valid (out a)).

(** Handed over with a success alone. *)
Definition on_ok {A E} (o : A → gset Z) (r : Result A E) : gset Z :=
  match r with Ok a => o a | Err _ => ∅ end.

(** A function that closes all it opens. *)
Notation keeps p := (owns ∅ ∅ p (λ _, ∅)).

Lemma safe_mono {A} B (p : hprog A) S (Q R : A → gset Z → Prop) :
  (∀ a S', Q a S' → R a S') → safe B p S Q → safe B p S R.
Proof.
  intros HQR. revert S. induction p as [a|f k IH|h k IH|h k IH|k IH|q k IH]; intros S; cbn; [apply HQR|..].
  - intros [H1 H2]. split; eauto.
  - intros [H1 H2]. split; eauto.
  - intros [H1 H2]. split; eauto.
  - eauto.
  - intros (T & F & H1 & H2 & H3 & H4). exists T, F. eauto.
Qed.

Lemma safe_hbind {A C} B (p : hprog A) (f : A → hprog C) S Q :
  safe B p S (λ a S', safe B (f a) S' Q) → safe B (hbind p f) S Q.
Proof.
  revert S. induction p as [a|g k IH|h k IH|h k IH|k IH|q k IH]; intros S; cbn; [done|..].
  - intros [H1 H2]. split; eauto.
  - intros [H1 H2]. split; eauto.
  - intros [H1 H2]. split; eauto.
  - eauto.
  - intros (T & F & H1 & H2 & H3 & H4). exists T, F. eauto.
Qed.

(** ** Rules *)

(** The facts about sets alone. *)
Ltac own_set :=
  repeat match goal with
  | H : ?P |- _ =>
      lazymatch P with
      | _ ## _ => fail | _ ⊆ _ => fail | _ ∈ _ => fail | _ ∉ _ => fail | ¬ _ => fail | _ ≠ _ => fail
      | _ => clear H
      end
  end; set_solver.

Lemma all_valid_empty : all_valid ∅.
Proof. intros h. set_solver. Qed.
Lemma all_valid_subseteq X Y : all_valid Y → X ⊆ Y → all_valid X.
Proof. intros HY HX h Hh. apply HY. set_solver. Qed.
Lemma all_valid_union X Y : all_valid X → all_valid Y → all_valid (X ∪ Y).
Proof. intros HX HY h [?|?]%elem_of_union; eauto. Qed.
Lemma all_valid_singleton h : valid h → all_valid {[h]}.
Proof. by intros Hh h' ->%elem_of_singleton. Qed.

Lemma owns_eq {A} H X Y (p : hprog A) out : X = Y → owns H X p out → owns H Y p out.
Proof. by intros ->. Qed.

Lemma owns_borrow {A} H H' X (p : hprog A) out : H ⊆ H' → owns H X p out → owns H' X p out.
Proof. intros HH Hp B S HB HX HS. apply Hp; [done|done|set_solver]. Qed.

Lemma owns_valid {A} H X (p : hprog A) out : (all_valid X → owns H X p out) → owns H X p out.
Proof. intros Hp B S HB HX HS Hv. by apply Hp. Qed.

Lemma owns_ret {A} H X (a : A) out : out a = X → owns H X (HRet a) out.
Proof. intros <- B S HB HX HS Hv. by split_and!. Qed.

Lemma owns_bind {A C} H X (p : hprog A) out (f : A → hprog C) out' :
  owns H X p out → (∀ a, owns H (out a) (f a) out') → owns H X (hbind p f) out'.
Proof.
  intros Hp Hf B S HB HX HS Hv. apply safe_hbind. eapply safe_mono; [|by apply Hp].
  intros a S' (-> & Ho & Hv'). by apply Hf.
Qed.

Lemma split_owned (T X S : gset Z) : T ⊆ X → X ∪ S = T ∪ (X ∖ T ∪ S).
Proof. intros HT. rewrite (assoc_L (∪)). f_equal. by rewrite <- union_difference_L. Qed.

(** A call that takes over [T] of what is owned and may use the rest. *)
Lemma owns_call {A C} H X T (p : hprog A) o (f : A → hprog C) out :
  owns ((X ∖ T) ∪ H) T p o → T ⊆ X → (∀ a, o a ## X ∖ T → owns H (X ∖ T ∪ o a) (f a) out) →
  owns H X (hbind p f) out.
Proof.
  intros Hp HT Hf B S HB HX HS Hv. apply safe_hbind. rewrite (split_owned T) by done.
  eapply safe_mono; [|apply Hp; [own_set..|by eapply all_valid_subseteq]]. intros a S' (-> & Ho & Hv').
  replace (o a ∪ (X ∖ T ∪ S)) with ((X ∖ T ∪ o a) ∪ S) by own_set. apply Hf; [own_set..|].
  apply all_valid_union; [|done]. eapply all_valid_subseteq; [exact Hv|own_set].
Qed.

(** The same for a program followed to a postcondition of its own. *)
Lemma safe_owns {A C} B T X (p : hprog A) o (f : A → hprog C) Q :
  owns (B ∪ (T ∖ X)) X p o → B ## T → X ⊆ T → all_valid X →
  (∀ a, o a ## B ∪ (T ∖ X) → all_valid (o a) → safe B (f a) (o a ∪ (T ∖ X)) Q) → safe B (hbind p f) T Q.
Proof.
  intros Hp HB HX Hv Hf. apply safe_hbind. rewrite (union_difference_L X T) by done.
  eapply safe_mono; [|apply Hp; [own_set|own_set|done|done]]. intros a S' (-> & Ho & Hv'). apply Hf; [own_set|done].
Qed.

Lemma owns_use H h : h ∈ H → owns H ∅ (use h) (λ _, ∅).
Proof.
  intros Hh B S HB HX HS Hv. split; [own_set|]. intros z. split_and!; [own_set..|apply all_valid_empty].
Qed.

Lemma owns_ask H : owns H ∅ ask (λ _, ∅).
Proof. intros B S HB HX HS Hv z. split_and!; [own_set..|apply all_valid_empty]. Qed.

Lemma owns_close H h : owns H {[h]} (close h) (λ _, ∅).
Proof.
  intros B S HB HX HS Hv. split; [own_set|]. cbn. split_and!; [|own_set|apply all_valid_empty].
  assert (h ∉ S) by own_set. own_set.
Qed.

Lemma owns_open_always H : owns H ∅ open_always (λ h, {[h]}).
Proof.
  intros B S HB HX HS Hn. split; [by intros v|]. intros h Hv Hh _. cbn.
  split_and!; [own_set..|by apply all_valid_singleton].
Qed.

(** What a call that can fail hands out. *)
Definition handed (failed h : Z) : gset Z := if h =? failed then ∅ else {[h]}.

Lemma owns_open_or H failed : owns H ∅ (open_or failed) (handed failed).
Proof.
  intros B S HB HX HS Hn. unfold handed. split.
  - intros v [= <-]. cbn. rewrite Z.eqb_refl. split_and!; [own_set..|apply all_valid_empty].
  - intros h Hv Hh Hf. cbn. destruct (Z.eqb_spec h failed) as [->|]; [done|].
    split_and!; [own_set..|by apply all_valid_singleton].
Qed.

Lemma safe_assoc {A C D} B (p : hprog A) (f : A → hprog C) (g : C → hprog D) S Q :
  safe B (hbind p (λ a, hbind (f a) g)) S Q → safe B (hbind (hbind p f) g) S Q.
Proof.
  revert S. induction p as [a|w k IH|h k IH|h k IH|k IH|q k IH]; intros S; cbn; [done|..].
  - intros [H1 H2]. split; eauto.
  - intros [H1 H2]. split; eauto.
  - intros [H1 H2]. split; eauto.
  - eauto.
  - intros (T & F & H1 & H2 & H3 & H4). exists T, F. eauto.
Qed.

Lemma owns_assoc {A C D} H X (p : hprog A) (f : A → hprog C) (g : C → hprog D) out :
  owns H X (hbind p (λ a, hbind (f a) g)) out → owns H X (hbind (hbind p f) g) out.
Proof. intros Hp B S HB HX HS Hv. apply safe_assoc. by apply Hp. Qed.

(** The last call of a function. *)
Lemma owns_last {A} H X T (p : hprog A) o out :
  owns ((X ∖ T) ∪ H) T p o → T ⊆ X → (∀ a, o a ## X ∖ T → out a = X ∖ T ∪ o a) → owns H X p out.
Proof.
  intros Hp HT Ho B S HB HX HS Hv. rewrite (split_owned T) by done.
  eapply safe_mono; [|apply Hp; [own_set..|by eapply all_valid_subseteq]]. intros a S' (-> & Hd & Hv').
  rewrite Ho by own_set. split_and!; [own_set..|]. apply all_valid_union; [|done].
  eapply all_valid_subseteq; [exact Hv|own_set].
Qed.

(** *** Automation: a function's body is followed call by call, each call by its
    specification in the database [owned], and each branch ends with an equation of sets. *)

Create HintDb owned.
#[export] Hint Resolve owns_use owns_ask owns_close owns_open_always owns_open_or : owned.
#[export] Hint Extern 1 (_ ∈ _) => own_set : owned.

Ltac own_sets :=
  repeat first [rewrite difference_empty_L | rewrite union_empty_r_L | rewrite union_empty_l_L | rewrite difference_diag_L].
Ltac own_subset := first [apply empty_subseteq | reflexivity | own_set].
Ltac own_call :=
  eapply owns_call;
  [solve [eauto 3 with owned]|own_subset
  |let Hd := fresh "Hd" in intros ? Hd; cbv beta in Hd |- *; try match type of Hd with ∅ ## _ => clear Hd end;
   own_sets].
Ltac own_last :=
  eapply owns_last; [solve [eauto 3 with owned]|own_subset|intros ? ?; unfold handed, on_ok in *; repeat case_match; own_set].
Ltac own_inner :=
  match goal with
  | |- owns _ _ (hbind (HRet ?a) ?f) _ => change (hbind (HRet a) f) with (f a); cbv beta iota
  | |- owns _ _ (hbind (hbind _ _) _) _ => apply owns_assoc
  | |- owns _ _ (htry _ _) _ => unfold htry at 1
  | |- owns _ _ (holding _ _ _) _ => unfold holding at 1
  | |- owns _ _ (scoped _ _) _ => unfold scoped at 1
  | |- owns _ _ (hbind (htry _ _) _) _ => unfold htry at 1
  | |- owns _ _ (hbind (holding _ _ _) _) _ => unfold holding at 1
  | |- owns _ _ (hbind (scoped _ _) _) _ => unfold scoped at 1
  | |- owns _ _ (HRet _) _ => apply owns_ret; unfold handed, on_ok in *; repeat case_match; own_set
  end.
Ltac own_branch := unfold handed in *; case_match.
Ltac own := repeat first [own_inner | own_call | own_last | own_branch].

(** ** Soundness *)

(** What one thread can do to the handles: it keeps what the others own. *)
Lemma safe_step {A} B S F (p : hprog A) Q L p' :
  safe B p S Q → F ## B ∪ S → B ## S → hstep (B ∪ S ∪ F, p) (L, p') →
  ∃ S', L = B ∪ S' ∪ F ∧ F ## B ∪ S' ∧ B ## S' ∧ safe B p' S' Q.
Proof.
  intros Hs HF HB Hst. inversion Hst; subst; cbn in Hs.
  - exists S. destruct Hs as [H _]. by eauto.
  - exists ({[h]} ∪ S). destruct Hs as [_ H]. split; [set_solver|]. split; [set_solver|].
    split; [set_solver|]. apply H; [done|set_solver|done].
  - exists S. destruct Hs as [_ H]. by eauto.
  - exists (S ∖ {[h]}). destruct Hs as [Hh H]. split; [|split; [set_solver|split; [set_solver|done]]].
    assert (h ∉ B ∪ F) by set_solver. set_solver.
  - exists S. by eauto.
Qed.

(** A thread left behind, as a thread. *)
Lemma attach_safe B q T : B ## T → left_safe q T → safe B (attach q) T (λ _ S, S = ∅).
Proof.
  revert T. induction q as [|f k IH|h k IH|h k IH|k IH]; intros T HB; cbn; [done|..].
  - intros [H1 H2]. split; [eauto|]. intros h Hv Hh Hf. apply IH; [set_solver|]. apply H2; [done|set_solver|done].
  - intros [H1 H2]. split; [set_solver|eauto].
  - intros [H1 H2]. split; [done|]. apply IH; [set_solver|done].
  - eauto.
Qed.

Lemma detach_safe (p : hprog unit) T : leaves_none p → safe ∅ p T (λ _ S, S = ∅) → left_safe (detach p) T.
Proof.
  revert T. induction p as [a|f k IH|h k IH|h k IH|k IH|q k IH]; intros T Hp; cbn in *; [done|..].
  - intros [H1 H2]. split; [eauto|]. intros h Hv Hh Hf. apply IH; [done|]. apply H2; [done|set_solver|done].
  - intros [H1 H2]. split; [set_solver|eauto].
  - intros [H1 H2]. split; [done|]. by apply IH.
  - eauto.
  - done.
Qed.

Lemma leaves_none_hbind {A B} (p : hprog A) (f : A → hprog B) : leaves_none p → (∀ a, leaves_none (f a)) → leaves_none (hbind p f).
Proof.
  intros Hp Hf. induction p as [a|g k IH|h k IH|h k IH|k IH|q k IH]; cbn in *; auto.
Qed.

(** *** Any number of threads *)

(** The threads divide what is open beside [B] among them. *)
Fixpoint shares (B : gset Z) (ts : list (hprog unit)) (L : gset Z) : Prop :=
  match ts with
  | [] => L = ∅
  | p :: ts => ∃ S F, L = S ∪ F ∧ S ## F ∧ safe B p S (λ _ S', S' = ∅) ∧ shares B ts F
  end.

(** The part of one of them, which it may change. *)
Lemma shares_at B ts L i p : shares B ts L → ts !! i = Some p →
  ∃ S F, L = S ∪ F ∧ S ## F ∧ safe B p S (λ _ S', S' = ∅) ∧
    ∀ S' p', S' ## F → safe B p' S' (λ _ S', S' = ∅) → shares B (<[i := p']> ts) (S' ∪ F).
Proof.
  revert ts L. induction i as [|i IH]; intros [|q ts] L; cbn; try done; intros (S & F & -> & HD & Hq & Hts).
  - intros [= ->]. exists S, F. split_and!; try done. intros S' p' HD' Hp'. by exists S', F.
  - intros Hi. destruct (IH ts F Hts Hi) as (S1 & F1 & -> & HD1 & Hp & Hins).
    exists S1, (S ∪ F1). split_and!; [set_solver|set_solver|done|]. intros S' p' HD' Hp'.
    exists S, (S' ∪ F1). split_and!; [set_solver|set_solver|done|]. apply Hins; [set_solver|done].
Qed.

Lemma shares_snoc B ts L p T : shares B ts L → L ## T → safe B p T (λ _ S', S' = ∅) → shares B (ts ++ [p]) (L ∪ T).
Proof.
  revert L. induction ts as [|q ts IH]; intros L; cbn.
  - intros -> _ Hp. exists T, ∅. split_and!; try done; set_solver.
  - intros (S & F & -> & HD & Hq & Hts) HT Hp. exists S, (F ∪ T). split_and!; [set_solver|set_solver|done|].
    apply IH; [done|set_solver|done].
Qed.

Definition pool_safe (B : gset Z) (c : Pool) : Prop := ∃ L, open_ c = B ∪ L ∧ B ## L ∧ shares B (threads c) L.

Lemma pool_safe_step B c c' : pool_safe B c → pool_step c c' → pool_safe B c'.
Proof.
  intros (L & Ho & HB & Hs) Hst. destruct Hst as [c i p L1 p' Hi Hst|c i q k Hi].
  - destruct (shares_at B _ L i p Hs Hi) as (S & F & -> & HD & Hp & Hins). rewrite Ho in Hst.
    replace (B ∪ (S ∪ F)) with (B ∪ S ∪ F) in Hst by set_solver.
    destruct (safe_step B S F p _ L1 p' Hp) as (S' & -> & H1 & H2 & H3); [set_solver|set_solver|done|].
    exists (S' ∪ F). cbn. split_and!; [set_solver|set_solver|]. apply Hins; [set_solver|done].
  - destruct (shares_at B _ L i _ Hs Hi) as (S & F & -> & HD & (T & R & -> & HTR & Hq & Hk) & Hins).
    exists ((R ∪ F) ∪ T). cbn. split_and!; [rewrite Ho; set_solver|set_solver|].
    apply shares_snoc; [apply Hins; [set_solver|done]|set_solver|]. apply attach_safe; [set_solver|done].
Qed.

Lemma shares_no_misuse B ts L p : shares B ts L → p ∈ ts → ¬ misuses (B ∪ L) p.
Proof.
  intros Hs [i Hi]%list_elem_of_lookup. destruct (shares_at B ts L i p Hs Hi) as (S & F & -> & _ & Hp & _).
  replace (B ∪ (S ∪ F)) with (B ∪ S ∪ F) by set_solver. destruct p; cbn in *; try tauto; destruct Hp; set_solver.
Qed.

(** What each thread owns; one that has returned owns nothing. *)
Lemma shares_owned B ts L : shares B ts L →
  ∃ owned : list (gset Z), L = ⋃ owned ∧ Forall2 (λ p S, p = HRet tt → S = ∅) ts owned.
Proof.
  revert L. induction ts as [|p ts IH]; intros L; cbn.
  - intros ->. exists []. by split; [|constructor].
  - intros (S & F & -> & _ & Hp & Hts). destruct (IH F Hts) as (owned & -> & Ho). exists (S :: owned).
    split; [done|]. constructor; [|done]. intros ->. exact Hp.
Qed.

Lemma shares_start B ps : Forall (λ p, safe B p ∅ (λ _ S, S = ∅)) ps → shares B ps ∅.
Proof.
  induction 1 as [|p ps Hp _ IH]; cbn; [done|]. exists ∅, ∅. split_and!; try done; set_solver.
Qed.

(** In every interleaving of threads the logic accepts and of those they leave behind, no
    call is on something that is not open, and at each point what is open is what was open
    before and what the threads that have not returned own. *)
Theorem pool_sound (B : gset Z) (ps : list (hprog unit)) c :
  Forall (λ p, safe B p ∅ (λ _ S, S = ∅)) ps → rtc pool_step {| open_ := B; threads := ps |} c →
  (∀ p, p ∈ threads c → ¬ misuses (open_ c) p) ∧
  ∃ owned : list (gset Z), open_ c = B ∪ ⋃ owned ∧ B ## ⋃ owned ∧
    Forall2 (λ p S, p = HRet tt → S = ∅) (threads c) owned.
Proof.
  intros Hps Hc. assert (pool_safe B c) as (L & Ho & HB & Hs).
  { refine (rtc_ind_r (pool_safe B) _ _ _ _ Hc).
    - exists ∅. cbn. split_and!; [set_solver|set_solver|by apply shares_start].
    - intros x y _ Hxy IH. by eapply pool_safe_step. }
  split; [intros p Hp; rewrite Ho; by eapply shares_no_misuse|].
  destruct (shares_owned B _ L Hs) as (owned & -> & Hf). by exists owned.
Qed.

Lemma safe_no_misuse {A} B S F (p : hprog A) Q : safe B p S Q → ¬ misuses (B ∪ S ∪ F) p.
Proof. destruct p; cbn; intros Hs; try tauto; destruct Hs; set_solver. Qed.

(** Two threads, each owning its own and sharing [B]. *)
Definition pair_safe {A C} (B : gset Z) (QA : A → gset Z → Prop) (QC : C → gset Z → Prop) (c : Pair A C) : Prop :=
  ∃ S T, live c = B ∪ S ∪ T ∧ S ## T ∧ B ## S ∪ T ∧ safe B (left_ c) S QA ∧ safe B (right_ c) T QC.

Lemma pair_safe_step {A C} B QA QC (c c' : Pair A C) :
  pair_safe B QA QC c → pair_step c c' → pair_safe B QA QC c'.
Proof.
  intros (S & T & HL & HST & HB & HS & HT) Hst. destruct Hst as [c L p Hst|c L q Hst]; rewrite HL in Hst.
  - destruct (safe_step B S T _ QA L p HS) as (S' & -> & H1 & H2 & H3); [set_solver|set_solver|done|].
    exists S', T. cbn. split_and!; try done; set_solver.
  - replace (B ∪ S ∪ T) with (B ∪ T ∪ S) in Hst by set_solver.
    destruct (safe_step B T S _ QC L q HT) as (T' & -> & H1 & H2 & H3); [set_solver|set_solver|done|].
    exists S, T'. cbn. split_and!; try done; set_solver.
Qed.

Lemma pair_safe_no_misuse {A C} B QA QC (c : Pair A C) :
  pair_safe B QA QC c → ¬ misuses (live c) (left_ c) ∧ ¬ misuses (live c) (right_ c).
Proof.
  intros (S & T & -> & _ & _ & HS & HT). split; [by eapply safe_no_misuse|].
  replace (B ∪ S ∪ T) with (B ∪ T ∪ S) by set_solver. by eapply safe_no_misuse.
Qed.

(** In every interleaving of two threads the logic accepts, no call is on something that is
    not open, and at each point what is open is what they own and share. *)
Theorem ownership_sound {A C} B S T (p : hprog A) (q : hprog C) QA QC c :
  safe B p S QA → safe B q T QC → S ## T → B ## S ∪ T →
  rtc pair_step {| live := B ∪ S ∪ T; left_ := p; right_ := q |} c →
  ¬ misuses (live c) (left_ c) ∧ ¬ misuses (live c) (right_ c) ∧ pair_safe B QA QC c.
Proof.
  intros HS HT HST HB Hc. assert (pair_safe B QA QC c) as Hsafe.
  { refine (rtc_ind_r (pair_safe B QA QC) _ _ _ _ Hc); [by exists S, T|].
    intros x y _ Hxy IH. by eapply pair_safe_step. }
  destruct (pair_safe_no_misuse _ _ _ _ Hsafe). by split_and!.
Qed.

(** One thread: the same without another. *)
Lemma thread_sound {A} (p : hprog A) S Q L p' :
  safe ∅ p S Q → rtc hstep (S, p) (L, p') → ¬ misuses L p' ∧ safe ∅ p' L Q.
Proof.
  intros Hp Hst. apply (left_steps_rtc _ _ _ _ (HRet tt)) in Hst.
  destruct (ownership_sound ∅ S ∅ p (HRet tt) Q (λ _ T, T = ∅) {| live := L; left_ := p'; right_ := HRet tt |})
    as (Hm & _ & S' & T & HL & _ & _ & HS & HT); [done|done|set_solver|set_solver| |].
  { by rewrite union_empty_l_L, union_empty_r_L. }
  cbn in *. subst T. rewrite union_empty_l_L, union_empty_r_L in HL. by subst S'.
Qed.
