(* ===== verification/IpAddr.v ===== *)
(** * [std::net] addresses

    What the agent uses of the standard library's addresses: the two address
    kinds as their octets, [to_ipv4_mapped], the textual forms ([Display]:
    dotted decimal and RFC 5952) and the parser behind [str::parse::<IpAddr>]
    ([core::net::parser]). Network records ([Network.v]) build addresses from
    bytes, logon records ([Logon.v]) parse them from text, and rendering
    ([Emit.v]) prints them. *)

From S2P Require Import Prelude.
Import Byte.

(** An address is its octets in network order: 4 for IPv4, 16 for IPv6. *)
Inductive IpAddr : Type :=
| V4 (octets : list byte)
| V6 (octets : list byte).

#[export] Instance IpAddr_eq_dec : EqDecision IpAddr.
Proof. solve_decision. Defined.

Definition ip_wf (a : IpAddr) : Prop :=
  match a with V4 o => length o = 4 | V6 o => length o = 16 end.

#[export] Instance ip_wf_dec a : Decision (ip_wf a).
Proof. destruct a; apply _. Defined.

Record SocketAddr := { ip : IpAddr; port : Z }.

#[export] Instance SocketAddr_eq_dec : EqDecision SocketAddr.
Proof. solve_decision. Defined.

(** [Ipv6Addr::to_ipv4_mapped]: the last four octets of [::ffff:a.b.c.d]. *)
Definition to_ipv4_mapped (v6 : list byte) : option (list byte) :=
  match v6 with
  | [x00; x00; x00; x00; x00; x00; x00; x00; x00; x00; xff; xff; a; b; c; d] =>
      Some [a; b; c; d]
  | _ => None
  end.

(** The canonical form both event kinds use: an IPv4-mapped IPv6 address is
    its IPv4 address. *)
Definition canonical (a : IpAddr) : IpAddr :=
  match a with
  | V6 v6 => match to_ipv4_mapped v6 with Some v4 => V4 v4 | None => V6 v6 end
  | v4 => v4
  end.

(** ** Display *)

Definition dot : string := ".".
Definition colon : Ascii.ascii := Ascii.ascii_of_N 58.

Definition show_v4 (o : list byte) : string := join "." ((λ b, dec (byte_Z b)) <$> o).

(** The eight 16-bit segments. *)
Fixpoint segments (o : list byte) : list Z :=
  match o with
  | hi :: lo :: o' => (byte_Z hi * 256 + byte_Z lo)%Z :: segments o'
  | _ => []
  end.

(** The first longest run of zero segments, as (start, length). *)
Fixpoint zero_run (l : list Z) (i : nat) (cur best : nat * nat) : nat * nat :=
  match l with
  | [] => best
  | s :: l' =>
      if (s =? 0)%Z then
        let cur' := if decide (cur.2 = 0) then (i, 1) else (cur.1, S cur.2) in
        zero_run l' (S i) cur' (if decide (best.2 < cur'.2) then cur' else best)
      else zero_run l' (S i) (0, 0) best
  end.

Definition show_segments (l : list Z) : string := join ":" (hex <$> l).

Definition show_v6 (o : list byte) : string :=
  match to_ipv4_mapped o with
  | Some v4 => "::ffff:" +:+ show_v4 v4
  | None =>
      let l := segments o in
      let '(start, len) := zero_run l 0 (0, 0) (0, 0) in
      if decide (1 < len)
      then show_segments (take start l) +:+ "::" +:+ show_segments (drop (start + len) l)
      else show_segments l
  end.

Definition show_ip (a : IpAddr) : string :=
  match a with V4 o => show_v4 o | V6 o => show_v6 o end.

(** ** Parsing: a parser consumes a prefix of the text or fails, leaving its
    input unchanged ([read_atomically]). *)

Definition Parser (A : Type) : Type := string → option (A * string).

Definition digit_of (radix : Z) (a : Ascii.ascii) : option Z :=
  let n := Z.of_N (ascii_N a) in
  let v := if is_ascii_digit a then Some (n - 48)%Z
           else if is_ascii_lower a then Some (n - 87)%Z
           else if is_ascii_upper a then Some (n - 55)%Z else None in
  match v with Some d => if (d <? radix)%Z then Some d else None | None => None end.

(** Digits read so far ([count]) and their value; stops at the first
    non-digit. [None] past [max] digits. *)
Fixpoint read_digits (radix : Z) (max count : nat) (acc : Z) (s : string)
  : option (nat * Z * string) :=
  match s with
  | EmptyString => Some (count, acc, s)
  | String a s' =>
      match digit_of radix a with
      | None => Some (count, acc, s)
      | Some d =>
          if decide (S count ≤ max)
          then read_digits radix max (S count) (acc * radix + d) s' else None
      end
  end.

Definition read_number (radix : Z) (max : nat) (bound : Z) (zero_prefix : bool)
  : Parser Z := λ s,
  let leading_zero := starts_with "0" s in
  match read_digits radix max 0 0 s with
  | Some (count, v, rest) =>
      if decide (count = 0) then None
      else if negb zero_prefix && leading_zero && bool_decide (1 < count) then None
      else if (v <=? bound)%Z then Some (v, rest) else None
  | None => None
  end.

(** [read_separator(sep, index, inner)]: [sep] first unless [index] is 0. *)
Definition read_separator {A} (sep : string) (i : nat) (p : Parser A) : Parser A :=
  λ s, if decide (i = 0) then p s
       else match strip_prefix sep s with Some s' => p s' | None => None end.

Definition byte_of_Z (x : Z) : byte := default x00 (Byte.of_N (Z.to_N x)).

Fixpoint read_octets (n i : nat) : Parser (list byte) := λ s,
  match n with
  | O => Some ([], s)
  | S n' =>
      match read_separator "." i (read_number 10 3 255 false) s with
      | Some (v, s') =>
          match read_octets n' (S i) s' with
          | Some (o, rest) => Some (byte_of_Z v :: o, rest)
          | None => None
          end
      | None => None
      end
  end.

Definition read_ipv4_addr : Parser (list byte) := read_octets 4 0.

Definition octets_of_segment (x : Z) : list byte :=
  [byte_of_Z (x / 256); byte_of_Z (x mod 256)].

(** [read_groups] with [left] slots left of which the next is the [i]-th:
    the octets read, whether they end in an embedded IPv4 address, the rest. *)
Fixpoint read_groups (left i : nat) (s : string) : list byte * bool * string :=
  match left with
  | O => ([], false, s)
  | S left' =>
      let v4 := if decide (left' = 0) then None
                else read_separator ":" i read_ipv4_addr s in
      match v4 with
      | Some (o, rest) => (o, true, rest)
      | None =>
          match read_separator ":" i (read_number 16 4 65535 true) s with
          | Some (g, s') =>
              let '(o, e, rest) := read_groups left' (S i) s' in
              (octets_of_segment g ++ o, e, rest)
          | None => ([], false, s)
          end
      end
  end.

Definition read_ipv6_addr : Parser (list byte) := λ s,
  let '(head, head_v4, s1) := read_groups 8 0 s in
  if decide (length head = 16) then Some (head, s1)
  else if head_v4 then None
  else match strip_prefix "::" s1 with
       | None => None
       | Some s2 =>
           let groups := length head `div` 2 in
           let '(tail, _, s3) := read_groups (8 - (groups + 1)) 0 s2 in
           Some (head ++ replicate (16 - length head - length tail) x00 ++ tail, s3)
       end.

(** [str::parse::<IpAddr>]: IPv4, else IPv6, and nothing left over. *)
Definition parse_ip (s : string) : option IpAddr :=
  match read_ipv4_addr s with
  | Some (o, EmptyString) => Some (V4 o)
  | Some _ => None
  | None =>
      match read_ipv6_addr s with
      | Some (o, EmptyString) => Some (V6 o)
      | _ => None
      end
  end.

(** ** Laws *)

Lemma to_ipv4_mapped_length o v4 : to_ipv4_mapped o = Some v4 → length v4 = 4.
Proof. unfold to_ipv4_mapped. intros. by case_all. Qed.

Lemma canonical_wf a : ip_wf a → ip_wf (canonical a).
Proof.
  destruct a as [o|o]; simpl; [done|].
  destruct (to_ipv4_mapped o) eqn:E; simpl; [|done].
  intros _; by eapply to_ipv4_mapped_length.
Qed.

Lemma canonical_idempotent a : canonical (canonical a) = canonical a.
Proof. destruct a as [o|o]; simpl; [done|]. by destruct (to_ipv4_mapped o) eqn:E; simpl; rewrite ?E. Qed.

Lemma octets_of_segment_length x : length (octets_of_segment x) = 2.
Proof. done. Qed.

Lemma read_octets_length n i s o rest :
  read_octets n i s = Some (o, rest) → length o = n.
Proof.
  revert i s o rest; induction n as [|n IH]; intros i s o rest; simpl.
  - by intros [= <- _].
  - destruct (read_separator _ _ _ _) as [[v s']|]; [|done].
    destruct (read_octets n (S i) s') as [[o' r']|] eqn:E; [|done].
    intros [= <- <-]; simpl. f_equal; eauto.
Qed.

Lemma read_groups_length left i s o e rest :
  read_groups left i s = (o, e, rest) → length o ≤ 2 * left.
Proof.
  revert i s o e rest; induction left as [|left IH]; intros i s o e rest.
  - simpl; intros [= <- _ _]; simpl; lia.
  - cbn [read_groups].
    destruct (if decide (left = 0) then _ else _) as [[v4 r4]|] eqn:E4.
    { case_decide; [done|]. intros [= <- _ _].
      assert (length v4 = 4); [|lia].
      unfold read_separator, read_ipv4_addr in E4.
      destruct (decide (i = 0)); [by eapply read_octets_length|].
      destruct (strip_prefix ":" s); [by eapply read_octets_length|done]. }
    destruct (read_separator _ _ (read_number _ _ _ _) s) as [[g s']|].
    + destruct (read_groups left (S i) s') as [[o' e'] r'] eqn:E.
      intros [= <- _ _]. apply IH in E. simpl. lia.
    + intros [= <- _ _]; simpl; lia.
Qed.

(** What parses is an address of the right size. *)
Lemma parse_ip_wf s a : parse_ip s = Some a → ip_wf a.
Proof.
  unfold parse_ip.
  destruct (read_ipv4_addr s) as [[o r]|] eqn:E4.
  { destruct r; intros; simplify_eq; simpl. by eapply read_octets_length. }
  destruct (read_ipv6_addr s) as [[o r]|] eqn:E6; [|done].
  destruct r; intros; simplify_eq; simpl. revert E6. unfold read_ipv6_addr.
  destruct (read_groups 8 0 s) as [[h e] s1] eqn:Eh.
  case_decide; [by intros [= <- _]|].
  destruct e; [done|]. destruct (strip_prefix "::" s1) as [s2|]; [|done].
  destruct (read_groups _ 0 s2) as [[t e'] s3] eqn:Et. intros [= <- _].
  apply read_groups_length in Eh, Et. rewrite !length_app, length_replicate.
  assert (length t ≤ 16 - length h); [|lia].
  pose proof (Nat.div_mod_eq (length h) 2). pose proof (Nat.mod_upper_bound (length h) 2). lia.
Qed.

(** Digits read from a text that ends with them read the same with more text
    behind, provided it does not start with a digit. *)
Definition no_digit (radix : Z) (s : string) : Prop :=
  match s with EmptyString => True | String a _ => digit_of radix a = None end.

Lemma read_digits_app radix max count acc s rest count' v :
  read_digits radix max count acc s = Some (count', v, "") → no_digit radix rest →
  read_digits radix max count acc (s +:+ rest) = Some (count', v, rest).
Proof.
  revert count acc; induction s as [|a s IH]; intros count acc.
  - simpl. intros [= -> ->] Hr. change ("" +:+ rest) with rest.
    destruct rest as [|a rest]; simpl in *; [done|]. by rewrite Hr.
  - rewrite app_str_cons; cbn [read_digits]. destruct (digit_of radix a); [|done].
    case_decide; [|done]. intros; by apply IH.
Qed.

Lemma read_number_app radix max bound z s rest v :
  s ≠ "" → read_number radix max bound z s = Some (v, "") → no_digit radix rest →
  read_number radix max bound z (s +:+ rest) = Some (v, rest).
Proof.
  intros Hs. unfold read_number.
  destruct (read_digits radix max 0 0 s) as [[[c v'] r]|] eqn:E; [|done].
  assert (starts_with "0" (s +:+ rest) = starts_with "0" s) as ->.
  { destruct s as [|a s]; [done|]. unfold starts_with. rewrite app_str_cons; simpl.
    by case_decide. }
  destruct (decide (c = 0)) as [|Hc]; [done|].
  destruct (negb z && _ && _) eqn:H0; [done|].
  destruct (v' <=? bound)%Z eqn:H1; [|done]. intros [= -> ->] Hr.
  rewrite (read_digits_app _ _ _ _ _ _ _ _ E Hr).
  rewrite decide_False by done. by rewrite H0, H1.
Qed.

(** Every octet's decimal text reads back as that octet. *)
Lemma read_number_octet b : read_number 10 3 255 false (dec (byte_Z b)) = Some (byte_Z b, "").
Proof. destruct b; vm_compute; reflexivity. Qed.

Lemma dec_byte_not_empty b : dec (byte_Z b) ≠ "".
Proof. destruct b; vm_compute; discriminate. Qed.

Lemma byte_of_byte_Z b : byte_of_Z (byte_Z b) = b.
Proof. destruct b; vm_compute; reflexivity. Qed.

#[export] Hint Resolve dec_byte_not_empty read_number_octet : agent.

Lemma read_separator_first {A} sep (p : Parser A) s : read_separator sep 0 p s = p s.
Proof. done. Qed.

Lemma read_separator_next {A} sep i (p : Parser A) s :
  read_separator sep (S i) p (sep +:+ s) = p s.
Proof. unfold read_separator. rewrite decide_False by done. by rewrite strip_prefix_app. Qed.

(** Dotted decimal reads back as the address it prints. *)
Lemma parse_show_v4 o : length o = 4 → parse_ip (show_v4 o) = Some (V4 o).
Proof.
  intros Hlen. destruct o as [|a [|b [|c [|d [|]]]]]; try done.
  unfold parse_ip, read_ipv4_addr, show_v4.
  cbn [fmap list_fmap join read_octets].
  rewrite read_separator_first, (read_number_app _ _ _ _ _ _ (byte_Z a))
    by (eauto with agent; done).
  rewrite read_separator_next, (read_number_app _ _ _ _ _ _ (byte_Z b))
    by (eauto with agent; done).
  rewrite read_separator_next, (read_number_app _ _ _ _ _ _ (byte_Z c))
    by (eauto with agent; done).
  rewrite read_separator_next, read_number_octet. by rewrite !byte_of_byte_Z.
Qed.

Example parse_v6 : parse_ip "2001:db8::1:0:0:1" =
  Some (V6 [x20; x01; x0d; xb8; x00; x00; x00; x00; x00; x01; x00; x00; x00; x00; x00; x01]).
Proof. vm_compute. reflexivity. Qed.

Example show_parse_v6 :
  show_ip <$> parse_ip "2001:0DB8:0:0:1:0:0:1" = Some "2001:db8::1:0:0:1".
Proof. vm_compute. reflexivity. Qed.

Example parse_mapped : canonical <$> parse_ip "::ffff:192.0.2.7" = Some (V4 [xc0; x00; x02; x07]).
Proof. vm_compute. reflexivity. Qed.

Example parse_leading_zero : parse_ip "192.0.02.7" = None.
Proof. vm_compute. reflexivity. Qed.
