(* ===== verification/Types.v ===== *)
(** * Captured events and start errors ([etw/types.rs], [logon/mod.rs])

    The in-memory shapes of the three event classes and the ring's sum of
    them, the process-activity discriminant with its integer form, and the
    classification of a failed ETW start with the instance-lock mode applied.
    The identifiers the agent draws ([Uuid::now_v7]) come from a crate and
    are inputs of the operations that use them. *)

From S2P Require Import Prelude IpAddr.
Open Scope Z_scope.

(** ** Activity discriminant *)

Inductive ActivityId := Launch | Terminate.

#[export] Instance ActivityId_eq_dec : EqDecision ActivityId.
Proof. solve_decision. Defined.

Definition activity_to_u64 (a : ActivityId) : Z :=
  match a with Launch => 1 | Terminate => 2 end.

Definition activity_try_from (v : Z) : Result ActivityId string :=
  if v =? 1 then Ok Launch
  else if v =? 2 then Ok Terminate
  else Err ("invalid activity_id: " +:+ dec v).

(** ** Event records *)

(** [CapturedEvent]. *)
Record CapturedEvent := {
  ce_pid : Z;
  ce_event_id : string;
  ce_activity_id : ActivityId;
  ce_image_file_name : string;
  ce_parent_pid : Z;
  ce_command_line : string;
  ce_subject_user_sid : string;
  ce_etw_timestamp_nanos : Z;
  ce_created_time_nanos : option Z;
  ce_exit_status : option Z;
}.

Inductive Direction := Outbound | Inbound.

#[export] Instance Direction_eq_dec : EqDecision Direction.
Proof. solve_decision. Defined.

(** [NetworkEvent]. *)
Record NetworkEvent := {
  ne_event_id : string;
  ne_pid : Z;
  ne_direction : Direction;
  ne_src : SocketAddr;
  ne_dst : SocketAddr;
  ne_etw_timestamp_nanos : Z;
  ne_created_time_nanos : option Z;
}.

Inductive LogonStatus := Success | Failure.

#[export] Instance LogonStatus_eq_dec : EqDecision LogonStatus.
Proof. solve_decision. Defined.

Record LogonSource := { ls_ip : IpAddr; ls_hostname : option string }.

(** [LogonEvent]. *)
Record LogonEvent := {
  le_event_id : string;
  le_status : LogonStatus;
  le_user_uid : string;
  le_user_name : string;
  le_user_domain : string;
  le_logon_type_id : Z;
  le_auth_protocol : string;
  le_auth_protocol_id : Z;
  le_src : option LogonSource;
  le_status_code : option Z;
  le_status_detail : option Z;
  le_elevated_token : option bool;
  le_timestamp_nanos : Z;
}.

Inductive RingEvent :=
| Process (e : CapturedEvent)
| Network (e : NetworkEvent)
| Logon (e : LogonEvent).

#[export] Instance CapturedEvent_eq_dec : EqDecision CapturedEvent.
Proof. solve_decision. Defined.
#[export] Instance NetworkEvent_eq_dec : EqDecision NetworkEvent.
Proof. solve_decision. Defined.
#[export] Instance LogonSource_eq_dec : EqDecision LogonSource.
Proof. solve_decision. Defined.
#[export] Instance LogonEvent_eq_dec : EqDecision LogonEvent.
Proof. solve_decision. Defined.
#[export] Instance RingEvent_eq_dec : EqDecision RingEvent.
Proof. solve_decision. Defined.

Definition as_process (e : RingEvent) : option CapturedEvent :=
  match e with Process c => Some c | _ => None end.
Definition as_network (e : RingEvent) : option NetworkEvent :=
  match e with Network n => Some n | _ => None end.
Definition as_logon (e : RingEvent) : option LogonEvent :=
  match e with Logon l => Some l | _ => None end.

(** [into_process], which gives the event up, and the [From] of each class. *)
Definition into_process (e : RingEvent) : option CapturedEvent := as_process e.
Definition from_captured (e : CapturedEvent) : RingEvent := Process e.
Definition from_network (e : NetworkEvent) : RingEvent := Network e.
Definition from_logon (e : LogonEvent) : RingEvent := Logon e.

(** The agent-generated identifier of an event, whatever its class. *)
Definition ring_event_id (e : RingEvent) : string :=
  match e with
  | Process c => ce_event_id c | Network n => ne_event_id n | Logon l => le_event_id l
  end.

(** ** ETW start errors *)

Inductive StartMode := Locked | Unlocked.

Inductive OpenError :=
| PrivilegeNotHeld
| AccessDenied
| OpenFailed (code : Z) (message : string)
| Unsupported.

#[export] Instance StartMode_eq_dec : EqDecision StartMode.
Proof. solve_decision. Defined.
#[export] Instance OpenError_eq_dec : EqDecision OpenError.
Proof. solve_decision. Defined.

(** [raw as u32] of an [i32]. *)
Definition i32_as_u32 (raw : Z) : Z := wrap_u 32 raw.
(** [code as i32] of a [u32]. *)
Definition u32_as_i32 (x : Z) : Z := if x <? 2 ^ 31 then x else x - 2 ^ 32.

(** An [HRESULT_FROM_WIN32] value carries its Win32 code in the low half. *)
Definition win32_from_os_error (raw : Z) : Z :=
  let value := i32_as_u32 raw in
  if Z.land value 0xFFFF0000 =? 0x80070000 then Z.land value 0xFFFF else value.

Section Messages.
(** The system's message for an OS error code, as [strerror] or
    [FormatMessageW] gives it. *)
Context (system_message : Z → string).

(** [io::Error::from_raw_os_error(code).to_string()]. *)
Definition io_error_text (code : Z) : string :=
  system_message code +:+ " (os error " +:+ dec code +:+ ")".

Definition win32_message (code : Z) : string :=
  let text := io_error_text (u32_as_i32 code) in
  let suffix := " (os error " +:+ dec code +:+ ")" in
  default text (strip_suffix suffix text).

Definition from_win32 (code : Z) : OpenError :=
  if code =? 5 then AccessDenied
  else if code =? 1314 then PrivilegeNotHeld
  else OpenFailed code (win32_message code).

(** A code below [2 ^ 31] loses exactly the suffix the library appends. *)
Lemma win32_message_plain code :
  0 ≤ code < 2 ^ 31 → win32_message code = system_message code.
Proof.
  intros H. unfold win32_message, io_error_text, u32_as_i32.
  rewrite (proj2 (Z.ltb_lt _ _)) by lia. by rewrite strip_suffix_refl.
Qed.
End Messages.

Definition is_privilege (e : OpenError) : bool :=
  match e with PrivilegeNotHeld | AccessDenied => true | _ => false end.

Definition with_lock_mode (e : OpenError) (mode : StartMode) : OpenError :=
  match mode, e with
  | Unlocked, OpenFailed 183 _ => PrivilegeNotHeld
  | _, _ => e
  end.

Definition must_stop_after_failed_start (e : OpenError) (mode : StartMode) : bool :=
  match mode with Locked => true | Unlocked => is_privilege e end.

(** ** Lemmas *)

Lemma activity_roundtrip a : activity_try_from (activity_to_u64 a) = Ok a.
Proof. by destruct a. Qed.

Lemma activity_try_from_ok v a : activity_try_from v = Ok a → v = activity_to_u64 a.
Proof. unfold activity_try_from. destruct (Z.eqb_spec v 1); [naive_solver|]. destruct (Z.eqb_spec v 2); naive_solver. Qed.

(** A Win32 code wrapped as an [HRESULT] comes back; a plain one is kept. *)
Lemma win32_from_hresult code :
  0 ≤ code < 2 ^ 16 → win32_from_os_error (u32_as_i32 (Z.lor 0x80070000 code)) = code.
Proof.
  intros H. assert (Z.land code 0xFFFF0000 = 0) as Hhigh.
  { apply Z.bits_inj'. intros n Hn. change 0xFFFF0000 with (Z.shiftl 0xFFFF 16).
    rewrite Z.land_spec, Z.bits_0. destruct (Z.lt_ge_cases n 16); [by rewrite Z.shiftl_spec_low, andb_false_r by lia|].
    by rewrite <- (Z.mod_small code (2 ^ 16)), Z.mod_pow2_bits_high by lia. }
  assert (Z.land code 0xFFFF = code) as Hlow.
  { change 0xFFFF with (Z.ones 16). by rewrite Z.land_ones, Z.mod_small by lia. }
  assert (Z.lor 0x80070000 code = 0x80070000 + code) as Hsum.
  { apply (lor_shiftl_add 16 0x8007 code); lia. }
  unfold win32_from_os_error, i32_as_u32, u32_as_i32. rewrite Hsum. destruct (Z.ltb_spec (0x80070000 + code) (2 ^ 31)); [lia|].
  assert (wrap_u 32 (0x80070000 + code - 2 ^ 32) = Z.lor 0x80070000 code) as ->.
  { rewrite Hsum. unfold wrap_u. rewrite <- (Z.mod_add _ 1), Z.mod_small by lia. lia. }
  by rewrite !Z.land_lor_distr_l, Hhigh, Hlow.
Qed.

(** ** Concrete events, for the examples and witnesses *)

Definition sample_process (pid : Z) (name : string) : CapturedEvent :=
  {| ce_pid := pid; ce_event_id := "e" +:+ dec pid; ce_activity_id := Launch;
     ce_image_file_name := name; ce_parent_pid := 4; ce_command_line := "";
     ce_subject_user_sid := "S-1-5-18"; ce_etw_timestamp_nanos := 1000;
     ce_created_time_nanos := Some 1000; ce_exit_status := None |}.

Definition sample_network (pid : Z) : NetworkEvent :=
  {| ne_event_id := "n" +:+ dec pid; ne_pid := pid; ne_direction := Outbound;
     ne_src := {| ip := V4 [Byte.x0a; Byte.x00; Byte.x00; Byte.x01]; port := 50000 |};
     ne_dst := {| ip := V4 [Byte.x0a; Byte.x00; Byte.x00; Byte.x02]; port := 443 |};
     ne_etw_timestamp_nanos := 2000; ne_created_time_nanos := None |}.
