(* ===== verification/Errors.v ===== *)
(** * Error domains, exit codes and startup action ([errors.rs], [startup.rs])

    The agent's error enums with the exit code and the stderr line of each,
    the conversion of a failed ETW start, and the startup action it selects. *)

From S2P Require Import Prelude IpAddr Types.
Open Scope Z_scope.

Inductive ConfigError :=
| ConfigNotFound (path : string)
| ConfigIo (message : string)
| ConfigParse (message : string) (position : option (nat * nat))
| MissingKey (key : string)
| Invalid (message : string).

#[export] Instance ConfigError_eq_dec : EqDecision ConfigError.
Proof. solve_decision. Defined.

(** [Display for ConfigError]. *)
Definition config_error_text (e : ConfigError) : string :=
  match e with
  | ConfigNotFound p => "config file not found: " +:+ p
  | ConfigIo m => "failed to read config file: " +:+ m
  | ConfigParse m _ => "failed to parse config TOML: " +:+ m
  | MissingKey k => "invalid config: missing key '" +:+ k +:+ "'"
  | Invalid m => "invalid config: " +:+ m
  end.

Inductive TransportError :=
| TransportNetwork (message : string)
| BadStatus (status : Z)
| RetryExhausted (attempts : Z) (last_error : string)
| TransportTimeout (timeout_ms : Z).

Definition transport_error_text (e : TransportError) : string :=
  match e with
  | TransportNetwork m => "transport error: " +:+ m
  | BadStatus s => "server returned non-2xx: " +:+ dec s
  | RetryExhausted a l =>
      "retry budget exhausted after " +:+ dec a +:+ " attempts: " +:+ l
  | TransportTimeout t => "request timed out after " +:+ dec t +:+ " ms"
  end.

Inductive SecureStoreError := SealError (m : string) | UnsealError (m : string).

Definition secure_store_error_text (e : SecureStoreError) : string :=
  match e with
  | SealError m => "seal failed: " +:+ m
  | UnsealError m => "unseal failed (wrong machine, or corrupted blob): " +:+ m
  end.

Inductive TlsError :=
| ServerCertUntrusted (m : string)
| ClientCertRejected (m : string)
| ClientConfig (m : string).

#[export] Instance TlsError_eq_dec : EqDecision TlsError.
Proof. solve_decision. Defined.

Definition tls_exit_code (e : TlsError) : Z :=
  match e with
  | ServerCertUntrusted _ | ClientConfig _ => 6
  | ClientCertRejected _ => 7
  end.

Definition tls_stderr_line (e : TlsError) : string :=
  match e with
  | ServerCertUntrusted m =>
      "cg-agent: tls: server certificate verification failed: " +:+ m
  | ClientConfig m => "cg-agent: tls: client configuration failed: " +:+ m
  | ClientCertRejected _ => "cg-agent: tls: server rejected client certificate"
  end.

Inductive EnrollmentError :=
| MissingToken
| Refused (m : string)
| Unreachable (attempts : Z) (last_error : string)
| Persistence (m : string)
| EnrollmentTls (e : TlsError).

#[export] Instance EnrollmentError_eq_dec : EqDecision EnrollmentError.
Proof. solve_decision. Defined.

Definition enrollment_exit_code (e : EnrollmentError) : Z :=
  match e with
  | MissingToken => 2
  | Refused _ => 3
  | Unreachable _ _ => 4
  | Persistence _ => 5
  | EnrollmentTls tls => tls_exit_code tls
  end.

Definition enrollment_stderr_line (e : EnrollmentError) : string :=
  match e with
  | MissingToken => "cg-agent: invalid config: missing key 'enrollment.token'"
  | Refused m => "cg-agent: enrollment failed: " +:+ m
  | Unreachable a _ =>
      "cg-agent: enrollment failed: server unreachable after " +:+ dec a +:+ " attempts"
  | Persistence m => "cg-agent: identity error: " +:+ m
  | EnrollmentTls tls => tls_stderr_line tls
  end.

Inductive SigningError := Canonical (m : string) | Sign (m : string).

#[export] Instance SigningError_eq_dec : EqDecision SigningError.
Proof. solve_decision. Defined.

Definition signing_exit_code (_ : SigningError) : Z := 8.

Definition signing_error_text (e : SigningError) : string :=
  match e with
  | Canonical m => "canonicalization failed: " +:+ m
  | Sign m => "signature operation failed: " +:+ m
  end.

Definition STDERR_INSUFFICIENT_PRIVILEGE : string :=
  "cg-agent: insufficient privilege to open Microsoft-Windows-Kernel-Process ETW session; run as elevated user or LocalSystem".

Inductive EtwError :=
| EtwPrivilegeNotHeld
| EtwAccessDenied
| EtwFailed (code : Z) (message : string)
| EtwUnsupported.

#[export] Instance EtwError_eq_dec : EqDecision EtwError.
Proof. solve_decision. Defined.

Definition etw_error_text (e : EtwError) : string :=
  match e with
  | EtwPrivilegeNotHeld => "ETW open refused: insufficient privilege"
  | EtwAccessDenied => "ETW open refused: access denied"
  | EtwFailed c m => "ETW session open failed: " +:+ dec c +:+ " " +:+ m
  | EtwUnsupported => "ETW capture is not available on this platform"
  end.

Definition etw_exit_code (e : EtwError) : Z :=
  match e with
  | EtwPrivilegeNotHeld | EtwAccessDenied => 9
  | EtwFailed _ _ | EtwUnsupported => 1
  end.

Definition etw_stderr_line (e : EtwError) : string :=
  match e with
  | EtwPrivilegeNotHeld | EtwAccessDenied => STDERR_INSUFFICIENT_PRIVILEGE
  | other => "cg-agent: " +:+ etw_error_text other
  end.

(** [From<OpenError> for EtwError]. *)
Definition etw_from_open (e : OpenError) : EtwError :=
  match e with
  | PrivilegeNotHeld => EtwPrivilegeNotHeld
  | AccessDenied => EtwAccessDenied
  | OpenFailed code message => EtwFailed code message
  | Unsupported => EtwUnsupported
  end.

Inductive LogonError :=
| LogonAccessDenied
| LogonFailed (code : Z) (message : string).

#[export] Instance LogonError_eq_dec : EqDecision LogonError.
Proof. solve_decision. Defined.

Definition logon_from_win32 (system_message : Z → string) (code : Z) : LogonError :=
  if (code =? 5) || (code =? 1314) then LogonAccessDenied
  else LogonFailed code (win32_message system_message code).

Definition logon_exit_code (e : LogonError) : Z :=
  match e with LogonAccessDenied => 9 | LogonFailed _ _ => 1 end.

Definition STDERR_LOGON_PRIVILEGE : string :=
  "cg-agent: insufficient privilege to read the Security log; run as elevated user".

Definition logon_error_text (e : LogonError) : string :=
  match e with
  | LogonAccessDenied => "Security log subscription refused: insufficient privilege"
  | LogonFailed c m => "Security log subscription failed: " +:+ dec c +:+ " " +:+ m
  end.

Definition logon_stderr_line (e : LogonError) : string :=
  match e with
  | LogonAccessDenied => STDERR_LOGON_PRIVILEGE
  | other => "cg-agent: " +:+ logon_error_text other
  end.

Inductive AgentError :=
| AgentConfigError (e : ConfigError)
| AgentTransport (e : TransportError)
| AgentEnrollment (e : EnrollmentError)
| AgentSecureStore (e : SecureStoreError)
| AgentTls (e : TlsError)
| AgentSigning (e : SigningError)
| AgentEtw (e : EtwError)
| AgentLogon (e : LogonError).

Definition agent_exit_code (e : AgentError) : Z :=
  match e with
  | AgentTls t => tls_exit_code t
  | AgentSigning s => signing_exit_code s
  | AgentEnrollment en => enrollment_exit_code en
  | AgentConfigError _ => 2
  | AgentEtw e => etw_exit_code e
  | AgentLogon e => logon_exit_code e
  | _ => 1
  end.

(** [Display for EnrollmentError]. *)
Definition enrollment_error_text (e : EnrollmentError) : string :=
  match e with
  | MissingToken => "invalid config: missing key 'enrollment.token'"
  | Refused m => "enrollment refused: " +:+ m
  | Unreachable a l => "server unreachable after " +:+ dec a +:+ " attempts: " +:+ l
  | Persistence m => "identity persistence/load failed: " +:+ m
  | EnrollmentTls (ServerCertUntrusted m) =>
      "server certificate verification failed: " +:+ m
  | EnrollmentTls (ClientCertRejected m) => "server rejected client certificate: " +:+ m
  | EnrollmentTls (ClientConfig m) => "tls client configuration failed: " +:+ m
  end.

Definition agent_stderr_line (e : AgentError) : string :=
  match e with
  | AgentTls tls => tls_stderr_line tls
  | AgentSigning s => "cg-agent: signing failed: " +:+ signing_error_text s
  | AgentEtw etw => etw_stderr_line etw
  | AgentLogon logon => logon_stderr_line logon
  | AgentConfigError c => "cg-agent: " +:+ config_error_text c
  | AgentTransport t => "cg-agent: " +:+ transport_error_text t
  | AgentEnrollment en => "cg-agent: " +:+ enrollment_error_text en
  | AgentSecureStore s => "cg-agent: " +:+ secure_store_error_text s
  end.

(** ** Startup *)

Record StartupAbort := { exit_code : Z; stderr_message : string }.

Definition handle_etw_open_result (r : Result unit OpenError) : Result unit StartupAbort :=
  match r with
  | Ok _ | Err Unsupported => Ok tt
  | Err e =>
      let err := etw_from_open e in
      Err {| exit_code := etw_exit_code err; stderr_message := etw_stderr_line err |}
  end.

(** ** Properties *)

(** A failed ETW start selects the startup action by its Win32 code and the lock
    mode alone: access denied, a missing privilege, and a session name that is taken
    when the start does not hold the instance lock end the agent
    with code 9 and the privilege line; every other code ends it with code 1 and a
    line with that code and its message. *)
Theorem etw_start_failure_action (system_message : Z → string) (code : Z) (mode : StartMode) :
  let e := with_lock_mode (from_win32 system_message code) mode in
  handle_etw_open_result (Err e) =
    if decide (code = 5 ∨ code = 1314 ∨ (code = 183 ∧ mode = Unlocked))
    then Err {| exit_code := 9; stderr_message := STDERR_INSUFFICIENT_PRIVILEGE |}
    else Err {| exit_code := 1;
                stderr_message := "cg-agent: ETW session open failed: " +:+ dec code +:+ " "
                                    +:+ win32_message system_message code |}.
Proof.
  unfold from_win32. destruct (Z.eqb_spec code 5) as [->|H5].
  { rewrite decide_True by auto. by destruct mode. }
  destruct (Z.eqb_spec code 1314) as [->|H1314].
  { rewrite decide_True by auto. by destruct mode. }
  destruct (Z.eq_dec code 183) as [->|H183].
  { destruct mode; [rewrite decide_False by naive_solver|rewrite decide_True by auto]; done. }
  rewrite decide_False by naive_solver.
  assert (with_lock_mode (OpenFailed code (win32_message system_message code)) mode
          = OpenFailed code (win32_message system_message code)) as ->; [|done].
  destruct mode; [done|]. unfold with_lock_mode. by repeat (case_match; try congruence).
Qed.
