(* ===== verification/Ring.v ===== *)
(** * The bounded event ring ([etw/ring.rs])

    [EventRing] is the queue between the capture threads and the delivery
    loop: a mutex around a deque, and an atomic drop counter. Every method
    takes the lock once, so a concurrent execution is a sequence of the
    operations below, in the order the lock was taken. [RingSpec] is the
    abstract queue the ring implements; [OverflowWarning] is the throttled
    warning the delivery loop checks. Instants are nanoseconds. *)

From S2P Require Import Prelude IpAddr Types.
Open Scope Z_scope.

Definition Instant := Z.
Definition seconds (n : Z) : Z := n * 1000000000.
Definition millis (n : Z) : Z := n * 1000000.

Record EventRing := {
  capacity : nat;
  events : list (Instant * RingEvent);
  dropped_total : Z;
}.

Definition new (capacity : nat) : EventRing :=
  {| capacity := capacity; events := []; dropped_total := 0 |}.

Definition new_for_test (capacity : nat) : EventRing := new capacity.

(** AC-006: a process event that would render an empty [process.name]. *)
Definition refused_event (e : RingEvent) : bool :=
  match e with Process p => is_empty (ce_image_file_name p) | _ => false end.

Definition enqueue_or_drop (r : EventRing) (now : Instant) (e : RingEvent) : EventRing :=
  if refused_event e then r
  else if decide (capacity r ≤ length (events r))%nat
  then {| capacity := capacity r; events := tail (events r) ++ [(now, e)];
          dropped_total := wrap_u 64 (dropped_total r + 1) |}
  else {| capacity := capacity r; events := events r ++ [(now, e)];
          dropped_total := dropped_total r |}.

Definition events_dropped_total (r : EventRing) : Z := dropped_total r.

Definition add_dropped (r : EventRing) (n : Z) : EventRing :=
  {| capacity := capacity r; events := events r;
     dropped_total := wrap_u 64 (dropped_total r + n) |}.

Definition snapshot_events (r : EventRing) : list RingEvent := snd <$> events r.

Definition drain_up_to (r : EventRing) (max : nat) : list RingEvent * EventRing :=
  let n := (max `min` length (events r))%nat in
  (snd <$> take n (events r),
   {| capacity := capacity r; events := drop n (events r); dropped_total := dropped_total r |}).

(** [drain_up_to(usize::MAX)]: no ring holds that many events. *)
Definition drain_events (r : EventRing) : list RingEvent * EventRing :=
  drain_up_to r (length (events r)).

Definition oldest_enqueued_at (r : EventRing) : option Instant := fst <$> head (events r).

Definition ring_len (r : EventRing) : nat := length (events r).
Definition ring_is_empty (r : EventRing) : bool := bool_decide (ring_len r = 0%nat).

(** ** Operation sequences *)

Inductive RingOp :=
| Enqueue (now : Instant) (e : RingEvent)
| Drain (max : nat)
| AddDropped (n : Z).

Definition ring_step (r : EventRing) (op : RingOp) : list RingEvent * EventRing :=
  match op with
  | Enqueue now e => ([], enqueue_or_drop r now e)
  | Drain max => drain_up_to r max
  | AddDropped n => ([], add_dropped r n)
  end.

(** The events drained, in order, and the ring left. *)
Fixpoint ring_run (r : EventRing) (ops : list RingOp) : list RingEvent * EventRing :=
  match ops with
  | [] => ([], r)
  | op :: ops' =>
      let '(out, r1) := ring_step r op in
      let '(outs, r2) := ring_run r1 ops' in (out ++ outs, r2)
  end.

(** The events the operations offer and the ring does not refuse. *)
Fixpoint accepted (ops : list RingOp) : list RingEvent :=
  match ops with
  | [] => []
  | Enqueue _ e :: ops' => if refused_event e then accepted ops' else e :: accepted ops'
  | _ :: ops' => accepted ops'
  end.

Fixpoint added (ops : list RingOp) : Z :=
  match ops with
  | [] => 0
  | AddDropped n :: ops' => n + added ops'
  | _ :: ops' => added ops'
  end.

(** ** The abstract queue: the whole history of accepted events and the
    position of the first one still retained; losing an event moves the
    position without an output. *)
Module RingSpec.
Record state := { history : list RingEvent; first : nat; lost : nat }.

Definition init : state := {| history := []; first := 0; lost := 0 |}.

Definition retained (s : state) : list RingEvent := drop (first s) (history s).

Definition push (cap : nat) (s : state) (e : RingEvent) : state :=
  if decide (cap ≤ length (history s) - first s)%nat
  then {| history := history s ++ [e]; first := S (first s); lost := S (lost s) |}
  else {| history := history s ++ [e]; first := first s; lost := lost s |}.

Definition pull (max : nat) (s : state) : list RingEvent * state :=
  let n := (max `min` (length (history s) - first s))%nat in
  (take n (retained s), {| history := history s; first := first s + n; lost := lost s |}).

Definition step (cap : nat) (s : state) (op : RingOp) : list RingEvent * state :=
  match op with
  | Enqueue _ e => ([], if refused_event e then s else push cap s e)
  | Drain max => pull max s
  | AddDropped _ => ([], s)
  end.

Fixpoint run (cap : nat) (s : state) (ops : list RingOp) : list RingEvent * state :=
  match ops with
  | [] => ([], s)
  | op :: ops' =>
      let '(out, s1) := step cap s op in
      let '(outs, s2) := run cap s1 ops' in (out ++ outs, s2)
  end.
End RingSpec.

(** The simulation: same retained events, the position within the history,
    and the counter is the abstract loss plus what was added, modulo [2 ^ 64]. *)
Definition ring_rel (cap : nat) (extra : Z) (r : EventRing) (s : RingSpec.state) : Prop :=
  capacity r = cap ∧
  snapshot_events r = RingSpec.retained s ∧
  (RingSpec.first s ≤ length (RingSpec.history s))%nat ∧
  dropped_total r = wrap_u 64 (Z.of_nat (RingSpec.lost s) + extra).

(** ** The throttled overflow warning *)

Record OverflowWarning := { reported_total : Z; last_warn : option Instant }.

Definition overflow_new : OverflowWarning := {| reported_total := 0; last_warn := None |}.

Definition INTERVAL : Z := seconds 60.

(** [check]: whether it warned; the line carries the total and the increase. *)
Definition overflow_check (w : OverflowWarning) (r : EventRing) (now : Instant)
  : bool * OverflowWarning :=
  let total := events_dropped_total r in
  if total <=? reported_total w then (false, w)
  else
    match last_warn w with
    | Some last =>
        if sat_sub now last <? INTERVAL then (false, w)
        else (true, {| reported_total := total; last_warn := Some now |})
    | None => (true, {| reported_total := total; last_warn := Some now |})
    end.

(** The instants at which a sequence of checks warned. *)
Fixpoint warnings (w : OverflowWarning) (l : list (EventRing * Instant)) : list Instant :=
  match l with
  | [] => []
  | (r, now) :: l' =>
      let '(b, w') := overflow_check w r now in
      if b then now :: warnings w' l' else warnings w' l'
  end.

(** Each instant is at least [INTERVAL] after the one before it. *)
Fixpoint spaced (last : option Instant) (l : list Instant) : Prop :=
  match l with
  | [] => True
  | t :: l' =>
      match last with Some s => s + INTERVAL ≤ t | None => True end ∧ spaced (Some t) l'
  end.

(** ** Lemmas *)

Lemma snapshot_length r : length (snapshot_events r) = ring_len r.
Proof. apply length_fmap. Qed.

Lemma snapshot_enqueue r now e :
  refused_event e = false →
  snapshot_events (enqueue_or_drop r now e) =
    (if decide (capacity r ≤ length (snapshot_events r))%nat
     then tail (snapshot_events r) else snapshot_events r) ++ [e].
Proof.
  intros He. unfold enqueue_or_drop, snapshot_events. rewrite He, length_fmap.
  case_decide; cbn [events]; rewrite fmap_app; [|done]. by destruct (events r).
Qed.

Lemma enqueue_last r now e :
  refused_event e = false → last (snapshot_events (enqueue_or_drop r now e)) = Some e.
Proof. intros. by rewrite snapshot_enqueue, last_snoc. Qed.

Lemma rel_enqueue cap extra r s now e :
  (0 < cap)%nat → refused_event e = false → ring_rel cap extra r s →
  ring_rel cap extra (enqueue_or_drop r now e) (RingSpec.push cap s e).
Proof.
  intros Hcap He (Hc & Hs & Hle & Hd). unfold ring_rel.
  pose proof (f_equal length Hs) as Hlen.
  unfold RingSpec.retained in Hlen. rewrite length_drop in Hlen.
  rewrite snapshot_enqueue by done. rewrite Hlen, Hc, Hs.
  unfold enqueue_or_drop. rewrite He. unfold RingSpec.push, RingSpec.retained.
  rewrite snapshot_length in Hlen. rewrite Hc. unfold ring_len in Hlen.
  rewrite Hlen. destruct (decide _) as [Hfull|]; simpl; rewrite length_app; simpl;
    split_and!; try done; try lia.
  - rewrite drop_app_le by lia. by rewrite drop_succ_tail.
  - rewrite Hd, wrap_u_add_l by lia. f_equal; lia.
  - rewrite drop_app_le by lia. done.
Qed.

Lemma rel_drain cap extra r s max :
  ring_rel cap extra r s →
  (drain_up_to r max).1 = (RingSpec.pull max s).1 ∧
  ring_rel cap extra (drain_up_to r max).2 (RingSpec.pull max s).2.
Proof.
  intros (Hc & Hs & Hle & Hd). pose proof (f_equal length Hs) as Hlen.
  rewrite snapshot_length in Hlen. unfold RingSpec.retained in Hlen.
  rewrite length_drop in Hlen. unfold ring_len in Hlen.
  unfold drain_up_to, RingSpec.pull, ring_rel, snapshot_events in *; simpl.
  rewrite <- Hlen, fmap_take, fmap_drop, Hs. unfold RingSpec.retained. simpl.
  rewrite drop_drop. split_and!; try done; lia.
Qed.

Lemma rel_step cap extra r s op :
  (0 < cap)%nat → ring_rel cap extra r s →
  (ring_step r op).1 = (RingSpec.step cap s op).1 ∧
  ring_rel cap (added [op] + extra) (ring_step r op).2 (RingSpec.step cap s op).2.
Proof.
  intros Hcap Hrel. destruct op as [now e|max|n]; simpl.
  - destruct (refused_event e) eqn:He; split; try done.
    + unfold enqueue_or_drop. by rewrite He.
    + by apply rel_enqueue.
  - by apply rel_drain.
  - split; [done|]. destruct Hrel as (Hc & Hs & Hle & Hd).
    unfold ring_rel, add_dropped; simpl. split_and!; try done.
    rewrite Hd, wrap_u_add_l by lia. f_equal; lia.
Qed.

Lemma rel_run cap extra r s ops :
  (0 < cap)%nat → ring_rel cap extra r s →
  (ring_run r ops).1 = (RingSpec.run cap s ops).1 ∧
  ring_rel cap (added ops + extra) (ring_run r ops).2 (RingSpec.run cap s ops).2.
Proof.
  intros Hcap. revert extra r s; induction ops as [|op ops IH]; intros extra r s Hrel.
  { simpl. by rewrite Z.add_0_l. }
  simpl. destruct (rel_step cap extra r s op Hcap Hrel) as [Hout Hrel'].
  destruct (ring_step r op) as [o1 r1], (RingSpec.step cap s op) as [o2 s1]; simpl in *; subst.
  destruct (IH _ _ _ Hrel') as [Houts Hrel''].
  destruct (ring_run r1 ops), (RingSpec.run cap s1 ops); simpl in *; subst.
  split; [done|]. destruct op; simpl in *;
    (destruct Hrel'' as (?&?&?&Hd); repeat split; try done; rewrite Hd; f_equal; lia).
Qed.

Lemma rel_init cap : ring_rel cap 0 (new cap) RingSpec.init.
Proof. by repeat split. Qed.

(** What the abstract queue does to its history: it appends the accepted
    events, what leaves it is accounted for, and what was drained followed by
    what is retained keeps the order of what was there and what came. *)
Definition shape (s : RingSpec.state) (acc out : list RingEvent) (s' : RingSpec.state) : Prop :=
  RingSpec.history s' = RingSpec.history s ++ acc ∧
  (RingSpec.first s' + RingSpec.lost s
     = RingSpec.first s + length out + RingSpec.lost s')%nat ∧
  (RingSpec.first s' ≤ length (RingSpec.history s'))%nat ∧
  (out ++ RingSpec.retained s') `sublist_of` (RingSpec.retained s ++ acc).

Lemma shape_trans s a o s1 a' o' s2 :
  shape s a o s1 → shape s1 a' o' s2 → shape s (a ++ a') (o ++ o') s2.
Proof.
  intros (H1 & H2 & H3 & H4) (K1 & K2 & K3 & K4). unfold shape.
  rewrite K1, H1, length_app, <- !app_assoc. split_and!; try done; try lia.
  { rewrite !length_app in *. rewrite K1, H1 in K3. rewrite !length_app in K3. lia. }
  etrans; [apply sublist_app; [reflexivity|apply K4]|].
  rewrite !app_assoc. by apply sublist_app.
Qed.

Lemma shape_step cap s op :
  (RingSpec.first s ≤ length (RingSpec.history s))%nat →
  shape s (accepted [op]) (RingSpec.step cap s op).1 (RingSpec.step cap s op).2.
Proof.
  intros Hle. destruct op as [now e|max|n]; simpl; unfold shape.
  - destruct (refused_event e); simpl; [rewrite !app_nil_r; split_and!; done || lia|].
    unfold RingSpec.push, RingSpec.retained.
    destruct (decide _); cbn [RingSpec.history RingSpec.first RingSpec.lost fst snd];
      rewrite length_app; cbn [length]; split_and!; try done; try lia.
    + destruct (decide (RingSpec.first s = length (RingSpec.history s))).
      * rewrite drop_ge by (rewrite length_app; simpl; lia). apply sublist_nil_l.
      * rewrite drop_app_le by lia. apply sublist_app; [|done].
        rewrite drop_succ_tail. apply tail_sublist.
    + by rewrite drop_app_le by lia.
  - unfold RingSpec.retained; simpl. rewrite !app_nil_r, length_take, length_drop.
    split_and!; try done; try lia.
    by rewrite <- drop_drop, take_drop.
  - simpl. rewrite !app_nil_r. split_and!; reflexivity || lia.
Qed.

Lemma shape_run cap s ops :
  (RingSpec.first s ≤ length (RingSpec.history s))%nat →
  shape s (accepted ops) (RingSpec.run cap s ops).1 (RingSpec.run cap s ops).2.
Proof.
  revert s; induction ops as [|op ops IH]; intros s Hle.
  { unfold shape; simpl. rewrite !app_nil_r. split_and!; done || lia. }
  pose proof (shape_step cap s op Hle) as H1. cbn [RingSpec.run].
  destruct (RingSpec.step cap s op) as [out s1]; cbn [fst snd] in *.
  assert (RingSpec.first s1 ≤ length (RingSpec.history s1))%nat as Hle1 by apply H1.
  specialize (IH s1 Hle1). destruct (RingSpec.run cap s1 ops) as [outs s2]; cbn [fst snd] in *.
  replace (accepted (op :: ops)) with (accepted [op] ++ accepted ops)
    by (destruct op; simpl; [destruct (refused_event _)|..]; done).
  by eapply shape_trans.
Qed.

Lemma retained_suffix s : RingSpec.retained s `suffix_of` RingSpec.history s.
Proof. exists (take (RingSpec.first s) (RingSpec.history s)). unfold RingSpec.retained. by rewrite take_drop. Qed.

Lemma enqueue_len r now e :
  (0 < capacity r)%nat → (ring_len r ≤ capacity r)%nat →
  (ring_len (enqueue_or_drop r now e) ≤ capacity r)%nat.
Proof.
  intros. unfold enqueue_or_drop, ring_len in *. destruct (refused_event e); [done|].
  case_decide; simpl; rewrite length_app; simpl; [|lia]. destruct (events r); simpl in *; lia.
Qed.

Lemma ring_run_app r a b :
  ring_run r (a ++ b) =
    ((ring_run r a).1 ++ (ring_run (ring_run r a).2 b).1, (ring_run (ring_run r a).2 b).2).
Proof.
  revert r; induction a as [|op a IH]; intros r; cbn [ring_run app fst snd].
  { by destruct (ring_run r b). }
  destruct (ring_step r op) as [o r1]. rewrite IH. destruct (ring_run r1 a) as [o1 r2]; cbn [fst snd].
  by rewrite app_assoc.
Qed.

Lemma accepted_app a b : accepted (a ++ b) = accepted a ++ accepted b.
Proof.
  induction a as [|[now e|max|n] a IH]; cbn [accepted app]; [done| |done|done].
  case_match; by rewrite IH.
Qed.

Lemma added_app a b : added (a ++ b) = added a + added b.
Proof. induction a as [|[now e|max|n] a IH]; cbn [added app]; [done|done|done|lia]. Qed.

(** An accepted operation never empties a ring of non-zero capacity. *)
Lemma enqueue_nonempty r now e :
  (0 < ring_len r)%nat → (0 < ring_len (enqueue_or_drop r now e))%nat.
Proof.
  intros. unfold enqueue_or_drop, ring_len in *. repeat case_match; simpl; rewrite ?length_app; simpl; lia.
Qed.

(** ** Properties *)

(** C30 The ring implements the abstract queue: from an empty ring of any
    non-zero capacity, every sequence of enqueues, drains and [add_dropped]
    drains the same events in the same order as the queue, retains the same
    events, and its counter is the number of events the queue lost plus what
    was added, modulo [2 ^ 64]. *)
Theorem ring_refines_queue (cap : nat) (ops : list RingOp) :
  (0 < cap)%nat →
  (ring_run (new cap) ops).1 = (RingSpec.run cap RingSpec.init ops).1 ∧
  ring_rel cap (added ops) (ring_run (new cap) ops).2 (RingSpec.run cap RingSpec.init ops).2.
Proof.
  intros Hcap. destruct (rel_run cap 0 _ _ ops Hcap (rel_init cap)) as [H1 H2].
  by rewrite Z.add_0_r in H2.
Qed.

Lemma ring_refines_queue_witness :
  let ops := [Enqueue 1 (Process (sample_process 1 "a")); Enqueue 2 (Process (sample_process 2 "b"));
              Enqueue 3 (Network (sample_network 3)); AddDropped 7; Drain 5] in
  (ring_run (new 2) ops).1 = [Process (sample_process 2 "b"); Network (sample_network 3)] ∧
  dropped_total (ring_run (new 2) ops).2 = 8.
Proof.
  intros ops. destruct (ring_refines_queue 2 ops) as [H1 (_ & _ & _ & H2)]; [lia|].
  rewrite H1, H2. vm_compute. split; reflexivity.
Defined.

(** Nothing is lost unaccounted: after any sequence of operations on a
    ring of non-zero capacity, every accepted event was drained, is retained
    or was counted as dropped; the events drained, followed by those retained,
    keep the order they were accepted in; and those retained are the most
    recent. *)
Theorem ring_conservation (cap : nat) (ops : list RingOp) :
  (0 < cap)%nat →
  let '(out, r) := ring_run (new cap) ops in
  ∃ lost : nat,
    length (accepted ops) = (length out + ring_len r + lost)%nat ∧
    dropped_total r = wrap_u 64 (Z.of_nat lost + added ops) ∧
    (out ++ snapshot_events r) `sublist_of` accepted ops ∧
    snapshot_events r `suffix_of` accepted ops.
Proof.
  intros Hcap. destruct (rel_run cap 0 _ _ ops Hcap (rel_init cap)) as [Ho (Hc & Hs & Hf & Hd)].
  pose proof (shape_run cap RingSpec.init ops ltac:(simpl; lia)) as (K1 & K2 & K3 & K4).
  pose proof (retained_suffix (RingSpec.run cap RingSpec.init ops).2) as Hsuf.
  destruct (ring_run (new cap) ops) as [out r], (RingSpec.run cap RingSpec.init ops) as [out' s'];
    simpl in *; subst.
  exists (RingSpec.lost s'). rewrite Hd, Z.add_0_r, <- snapshot_length, Hs, K1 in *.
  unfold RingSpec.retained at 1. rewrite length_drop, K1. repeat split; try done. lia.
Qed.

Lemma ring_conservation_witness :
  (0 < 1)%nat ∧
  ∃ lost : nat,
    (2 = 0 + 1 + lost)%nat ∧
    1 = wrap_u 64 (Z.of_nat lost + 0).
Proof.
  split; [lia|].
  destruct (ring_conservation 1 [Enqueue 1 (Network (sample_network 1));
                                 Enqueue 2 (Network (sample_network 2))]) as (lost & H1 & H2 & _);
    [lia|]. by exists lost.
Defined.

(** The ring is bounded: whatever is done to a ring of non-zero capacity,
    it never holds more events than its capacity, and its capacity never
    changes. *)
Theorem ring_bounded (r : EventRing) (ops : list RingOp) :
  (0 < capacity r)%nat → (ring_len r ≤ capacity r)%nat →
  let r' := (ring_run r ops).2 in
  capacity r' = capacity r ∧ (ring_len r' ≤ capacity r)%nat.
Proof.
  revert r; induction ops as [|op ops IH]; intros r Hcap Hlen; [done|]. cbn [ring_run].
  assert (capacity (ring_step r op).2 = capacity r ∧
          (ring_len (ring_step r op).2 ≤ capacity r)%nat) as [H1 H2].
  { destruct op as [now e|max|n]; simpl; [|split; [done|]|done].
    - split; [|by apply enqueue_len]. unfold enqueue_or_drop. by repeat case_match.
    - unfold ring_len in *; simpl. rewrite length_drop. lia. }
  destruct (ring_step r op) as [o r1]; cbn [snd] in *.
  specialize (IH r1 ltac:(lia) ltac:(lia)). rewrite H1 in IH.
  by destruct (ring_run r1 ops).
Qed.

Lemma ring_bounded_witness :
  (0 < capacity (new 1))%nat ∧
  let r' := (ring_run (new 1) [Enqueue 1 (Network (sample_network 1));
                               Enqueue 2 (Network (sample_network 2))]).2 in
  (ring_len r' ≤ 1)%nat.
Proof.
  split; [apply Nat.lt_0_succ|].
  refine (proj2 (ring_bounded (new 1) _ _ _)); apply Nat.lt_0_succ || apply Nat.le_0_l.
Defined.

Lemma warnings_spaced w l : spaced (last_warn w) (warnings w l).
Proof.
  revert w; induction l as [|[r now] l IH]; intros w; simpl; [done|].
  destruct (overflow_check w r now) as [b w'] eqn:E. unfold overflow_check in E.
  destruct (_ <=? _); [simplify_eq; apply IH|].
  destruct (last_warn w) as [last|] eqn:El.
  - destruct (Z.ltb_spec (sat_sub now last) INTERVAL); simplify_eq; [rewrite <- El; apply IH|].
    simpl. split;
      [|exact (IH {| reported_total := events_dropped_total r; last_warn := Some now |})].
    unfold sat_sub, INTERVAL, seconds in *. lia.
  - simplify_eq. simpl. split; [done|].
    exact (IH {| reported_total := events_dropped_total r; last_warn := Some now |}).
Qed.

(** The overflow warning is throttled: over any sequence of checks of any
    rings, two warnings are at least 60 seconds apart, and a check warns only
    when the dropped total is above the one last reported, which it then
    records. *)
Theorem overflow_warning_throttled (l : list (EventRing * Instant)) :
  spaced None (warnings overflow_new l) ∧
  ∀ w r now, (overflow_check w r now).1 = true →
    reported_total w < events_dropped_total r ∧
    (overflow_check w r now).2 =
      {| reported_total := events_dropped_total r; last_warn := Some now |}.
Proof.
  split; [apply (warnings_spaced overflow_new)|].
  intros w r now. unfold overflow_check.
  destruct (Z.leb_spec (events_dropped_total r) (reported_total w)); [done|].
  destruct (last_warn w); [destruct (_ <? _)|]; simpl; done.
Qed.

(** A process event without an image name never enters the ring, and a
    warning does not wait for the interval when none was written yet. *)
Example refused_not_enqueued :
  ring_len (enqueue_or_drop (new 4) 0 (Process (sample_process 9 ""))) = 0%nat.
Proof. reflexivity. Qed.

Example first_warning_at_once :
  (overflow_check overflow_new (add_dropped (new 4) 2) 5).1 = true.
Proof. reflexivity. Qed.
