(* ===== verification/Cache.v ===== *)
(** * The creation-time cache ([etw/cache.rs])

    [CreatedTimeCache]: a mutex around a map from PID to creation time. The
    dispatch inserts, consults and looks up; the hygiene thread sweeps. A
    sweep takes the lock twice, for the snapshot and for the eviction, and
    asks about each PID in between with the lock free: [sweep_between] takes
    the entries at the first and at the second lock as two maps. *)

From S2P Require Import Prelude.
Open Scope Z_scope.

Definition CreatedTimeCache := gmap Z Z.

Definition cache_new : gmap Z Z := ∅.

Definition insert (c : gmap Z Z) (pid created_time_nanos : Z) : gmap Z Z :=
  <[pid := created_time_nanos]> c.

Definition consult_and_purge (c : gmap Z Z) (pid : Z) : option Z * gmap Z Z :=
  (c !! pid, delete pid c).

Definition created_time (c : gmap Z Z) (pid : Z) : option Z := c !! pid.

Definition cache_len (c : gmap Z Z) : nat := size c.
Definition cache_is_empty (c : gmap Z Z) : bool := bool_decide (cache_len c = 0%nat).

(** The eviction loop: only the entries still holding the swept time. *)
Fixpoint evict (c : gmap Z Z) (gone : list (Z * Z)) : nat * gmap Z Z :=
  match gone with
  | [] => (0%nat, c)
  | (pid, time) :: gone' =>
      if decide (c !! pid = Some time)
      then let '(n, c') := evict (delete pid c) gone' in (S n, c')
      else evict c gone'
  end.

Definition gone_of (is_alive : Z → bool) (snapshot : list (Z * Z)) : list (Z * Z) :=
  filter (λ e, is_alive e.1 = false) snapshot.

(** [at_snapshot] under the first lock, [at_evict] under the second. *)
Definition sweep_between (is_alive : Z → bool) (at_snapshot at_evict : gmap Z Z)
  : nat * gmap Z Z :=
  evict at_evict (gone_of is_alive (map_to_list at_snapshot)).

(** A sweep nothing interleaves with. *)
Definition sweep (is_alive : Z → bool) (c : gmap Z Z) : nat * gmap Z Z :=
  sweep_between is_alive c c.

(** ** Lemmas *)

Definition survives (gone : list (Z * Z)) (c : gmap Z Z) (pid : Z) : option Z :=
  match c !! pid with
  | Some t => if decide ((pid, t) ∈ gone) then None else Some t
  | None => None
  end.

Lemma evict_spec (c : gmap Z Z) (gone : list (Z * Z)) :
  NoDup gone.*1 →
  (∀ pid, (evict c gone).2 !! pid = survives gone c pid) ∧
  (size (evict c gone).2 + (evict c gone).1 = size c)%nat.
Proof.
  unfold survives. revert c; induction gone as [|[p t] gone IH]; intros c; cbn [evict fmap list_fmap fst].
  { intros _. split; [|simpl; lia]. intros pid. simpl. destruct (c !! pid); [|done].
    done. }
  rewrite NoDup_cons. intros [Hp Hnd].
  assert (∀ t', (p, t') ∉ gone) as Hp'
    by (intros t' H; apply Hp, list_elem_of_fmap; by exists (p, t')).
  case_decide as Hc.
  - destruct (IH (delete p c) Hnd) as [IHl IHs].
    destruct (evict (delete p c) gone) as [n c']; simpl in *. split.
    + intros pid. rewrite IHl. destruct (decide (pid = p)) as [->|Hne].
      * rewrite lookup_delete_eq, Hc, decide_True by set_solver. done.
      * rewrite lookup_delete_ne by done. destruct (c !! pid) as [t'|]; [|done].
        apply decide_ext. set_solver.
    + rewrite map_size_delete_Some in IHs by eauto.
      assert (size c ≠ 0)%nat; [|lia]. rewrite map_size_non_empty_iff. by intros ->.
  - destruct (IH c Hnd) as [IHl IHs]. split; [|done].
    intros pid. rewrite IHl. destruct (c !! pid) as [t'|] eqn:E; [|done].
    apply decide_ext. rewrite elem_of_cons. naive_solver.
Qed.

Lemma gone_of_NoDup is_alive (m : gmap Z Z) : NoDup (gone_of is_alive (map_to_list m)).*1.
Proof.
  eapply (sublist_NoDup _ (map_to_list m).*1); [apply NoDup_fst_map_to_list|].
  apply fmap_sublist, sublist_filter.
Qed.

Lemma elem_of_gone is_alive (m : gmap Z Z) pid t :
  (pid, t) ∈ gone_of is_alive (map_to_list m) ↔ is_alive pid = false ∧ m !! pid = Some t.
Proof. unfold gone_of. rewrite list_elem_of_filter, elem_of_map_to_list. done. Qed.

(** A sweep evicts exactly the entries of dead processes that were there
    at the snapshot and are unchanged at the eviction: whatever the dispatch
    did in between, an entry a new Launch replaced with another time, an entry
    of a live process and an entry added meanwhile stay, and the returned
    number is the number of entries removed. *)
Theorem sweep_evicts_exactly (is_alive : Z → bool) (at_snapshot at_evict : gmap Z Z) :
  let '(evicted, after) := sweep_between is_alive at_snapshot at_evict in
  (∀ pid, after !! pid =
     if decide (is_alive pid = false ∧ at_snapshot !! pid = at_evict !! pid)
     then None else at_evict !! pid) ∧
  (size after + evicted = size at_evict)%nat.
Proof.
  pose proof (evict_spec at_evict _ (gone_of_NoDup is_alive at_snapshot)) as [Hl Hs].
  unfold sweep_between. destruct (evict _ _) as [n after]; simpl in *. split; [|done].
  intros pid. rewrite Hl. unfold survives.
  destruct (at_evict !! pid) as [t|]; [|by case_decide].
  apply decide_ext. by rewrite elem_of_gone.
Qed.

(** ** The cache along a sequence of dispatches *)

Lemma created_time_insert c pid t : created_time (insert c pid t) pid = Some t.
Proof. apply lookup_insert_eq. Qed.

Lemma created_time_insert_ne c pid pid' t :
  pid ≠ pid' → created_time (insert c pid t) pid' = created_time c pid'.
Proof. apply lookup_insert_ne. Qed.

#[export] Hint Resolve created_time_insert created_time_insert_ne : agent.
