(* ===== verification/Network.v ===== *)
(** * Decoding a Kernel-Network connection record ([etw/network.rs]) *)

From S2P Require Import Prelude IpAddr Types.
Open Scope Z_scope.

Definition TCP_CONNECT_V4 : Z := 12.
Definition TCP_ACCEPT_V4 : Z := 15.
Definition TCP_CONNECT_V6 : Z := 28.
Definition TCP_ACCEPT_V6 : Z := 31.

Definition CONNECTION_EVENT_IDS : list Z :=
  [TCP_CONNECT_V4; TCP_ACCEPT_V4; TCP_CONNECT_V6; TCP_ACCEPT_V6].

Record DecodedConnection := {
  dc_pid : Z;
  dc_direction : Direction;
  dc_src : SocketAddr;
  dc_dst : SocketAddr;
}.

Definition connection_direction (event_id : Z) : option Direction :=
  if (event_id =? TCP_CONNECT_V4) || (event_id =? TCP_CONNECT_V6) then Some Outbound
  else if (event_id =? TCP_ACCEPT_V4) || (event_id =? TCP_ACCEPT_V6) then Some Inbound
  else None.

(** [uN::from_le_bytes] and [uN::from_be_bytes]. *)
Fixpoint from_le_bytes (bs : list Byte.byte) : Z :=
  match bs with [] => 0 | b :: bs' => byte_Z b + 256 * from_le_bytes bs' end.
Definition from_be_bytes (bs : list Byte.byte) : Z := from_le_bytes (reverse bs).

Definition decode_pid (bytes : list Byte.byte) : option Z :=
  if decide (length bytes = 4%nat) then Some (from_le_bytes bytes) else None.

(** H1: ports are big-endian. *)
Definition port (bytes : list Byte.byte) : option Z :=
  if decide (length bytes = 2%nat) then Some (from_be_bytes bytes) else None.

(** H2: addresses are in network order, 4 or 16 bytes. *)
Definition address (bytes : list Byte.byte) : option IpAddr :=
  if decide (length bytes = 4%nat) then Some (V4 bytes)
  else if decide (length bytes = 16%nat)
  then Some (match to_ipv4_mapped bytes with Some v4 => V4 v4 | None => V6 bytes end)
  else None.

(** H3: [saddr]/[sport] is the host's local endpoint. *)
Definition local_and_remote (s d : SocketAddr) : SocketAddr * SocketAddr := (s, d).

Definition decode_connection (event_id : Z) (pid saddr daddr sport dport : list Byte.byte)
  : option DecodedConnection :=
  direction ← connection_direction event_id;
  pid ← decode_pid pid;
  sa ← address saddr; sp ← port sport;
  let s := {| ip := sa; IpAddr.port := sp |} in
  da ← address daddr; dp ← port dport;
  let d := {| ip := da; IpAddr.port := dp |} in
  let '(local, remote) := local_and_remote s d in
  let '(src, dst) := match direction with
                     | Outbound => (local, remote)
                     | Inbound => (remote, local)
                     end in
  Some {| dc_pid := pid; dc_direction := direction; dc_src := src; dc_dst := dst |}.

(** ** Encoding, for the statements: the bytes the provider writes. *)

Fixpoint le_bytes (n : nat) (x : Z) : list Byte.byte :=
  match n with O => [] | S n' => byte_of_Z (x mod 256) :: le_bytes n' (x / 256) end.
Definition be_bytes (n : nat) (x : Z) : list Byte.byte := reverse (le_bytes n x).
Definition octets (a : IpAddr) : list Byte.byte :=
  match a with V4 o => o | V6 o => o end.

(** ** Lemmas *)

Lemma byte_Z_of_Z x : in_u 8 x → byte_Z (byte_of_Z x) = x.
Proof.
  intros H. apply Z.eqb_eq.
  apply (for_range_spec (λ x, byte_Z (byte_of_Z x) =? x) 256 0); [vm_compute; reflexivity|].
  unfold in_u in H. lia.
Qed.

Lemma length_le_bytes n x : length (le_bytes n x) = n.
Proof. revert x; induction n; intros; simpl; auto. Qed.

Lemma from_le_le_bytes n x : in_u (8 * Z.of_nat n) x → from_le_bytes (le_bytes n x) = x.
Proof.
  revert x; induction n as [|n IH]; intros x Hx; unfold in_u in *.
  { simpl in *. lia. }
  cbn [le_bytes from_le_bytes]. rewrite byte_Z_of_Z by (apply Z.mod_pos_bound; lia).
  rewrite IH.
  - rewrite (Z.div_mod x 256) at 3 by lia. lia.
  - replace (8 * Z.of_nat (S n)) with (8 * Z.of_nat n + 8) in Hx by lia.
    rewrite Z.pow_add_r in Hx by lia. change (2 ^ 8) with 256 in Hx.
    split; [apply Z.div_pos; lia|apply Z.div_lt_upper_bound; lia].
Qed.

Lemma from_le_bytes_range bs : in_u (8 * Z.of_nat (length bs)) (from_le_bytes bs).
Proof.
  induction bs as [|b bs IH]; cbn [from_le_bytes length].
  - done.
  - unfold in_u in *. pose proof (byte_Z_range b) as Hb. unfold in_u in Hb.
    replace (8 * Z.of_nat (S (length bs))) with (8 * Z.of_nat (length bs) + 8) by lia.
    rewrite Z.pow_add_r by lia. change (2 ^ 8) with 256 in *. lia.
Qed.

Lemma decode_pid_le x : in_u 32 x → decode_pid (le_bytes 4 x) = Some x.
Proof.
  intros. unfold decode_pid. rewrite length_le_bytes, decide_True by done.
  by rewrite from_le_le_bytes.
Qed.

Lemma port_be x : in_u 16 x → port (be_bytes 2 x) = Some x.
Proof.
  intros. unfold port, be_bytes, from_be_bytes.
  rewrite length_reverse, length_le_bytes, decide_True by done.
  by rewrite reverse_involutive, from_le_le_bytes.
Qed.

Lemma address_canonical a : ip_wf a → address (octets a) = Some (canonical a).
Proof. destruct a as [o|o]; simpl; intros H; unfold address; by rewrite H. Qed.

Lemma address_wf bytes a : address bytes = Some a → ip_wf a.
Proof.
  unfold address. repeat case_decide; intros [= <-]; [done|].
  by destruct (to_ipv4_mapped _) eqn:E; [eapply to_ipv4_mapped_length|].
Qed.

(** A connection record reads back: for each of the four event ids, the
    little-endian PID, the addresses in network order and the big-endian ports
    decode to the connection with that process and direction, its initiator as
    [src] and its acceptor as [dst], an IPv4-mapped address as its IPv4
    address; every other event id decodes to nothing. *)
Theorem decode_connection_roundtrip (event_id pid lport rport : Z) (local remote : IpAddr) :
  in_u 32 pid → in_u 16 lport → in_u 16 rport → ip_wf local → ip_wf remote →
  decode_connection event_id (le_bytes 4 pid) (octets local) (octets remote)
    (be_bytes 2 lport) (be_bytes 2 rport) =
  let l := {| ip := canonical local; IpAddr.port := lport |} in
  let r := {| ip := canonical remote; IpAddr.port := rport |} in
  if decide (event_id = 12 ∨ event_id = 28)
  then Some {| dc_pid := pid; dc_direction := Outbound; dc_src := l; dc_dst := r |}
  else if decide (event_id = 15 ∨ event_id = 31)
  then Some {| dc_pid := pid; dc_direction := Inbound; dc_src := r; dc_dst := l |}
  else None.
Proof.
  intros Hp Hl Hr Hlw Hrw. unfold decode_connection, connection_direction.
  rewrite decode_pid_le, !address_canonical, !port_be by done.
  unfold TCP_CONNECT_V4, TCP_CONNECT_V6, TCP_ACCEPT_V4, TCP_ACCEPT_V6.
  destruct (Z.eqb_spec event_id 12), (Z.eqb_spec event_id 28), (Z.eqb_spec event_id 15),
    (Z.eqb_spec event_id 31); subst; try lia; simpl;
    repeat case_decide; try done; intuition lia.
Qed.

Lemma decode_connection_roundtrip_witness :
  in_u 32 4321 ∧
  decode_connection 15 (le_bytes 4 4321) (octets (V4 [Byte.x7f; Byte.x00; Byte.x00; Byte.x01]))
    (octets (V4 [Byte.x0a; Byte.x00; Byte.x00; Byte.x09])) (be_bytes 2 8443) (be_bytes 2 50123)
  = Some {| dc_pid := 4321; dc_direction := Inbound;
            dc_src := {| ip := V4 [Byte.x0a; Byte.x00; Byte.x00; Byte.x09]; IpAddr.port := 50123 |};
            dc_dst := {| ip := V4 [Byte.x7f; Byte.x00; Byte.x00; Byte.x01]; IpAddr.port := 8443 |} |}.
Proof.
  split; [by vm_compute|].
  rewrite (decode_connection_roundtrip 15 4321 8443 50123) by (by vm_compute).
  reflexivity.
Defined.

Lemma decode_connection_some event_id p sa da sp dp c :
  decode_connection event_id p sa da sp dp = Some c →
  connection_direction event_id = Some (dc_direction c) ∧
  decode_pid p = Some (dc_pid c) ∧ ip_wf (ip (dc_src c)) ∧ ip_wf (ip (dc_dst c)).
Proof.
  unfold decode_connection. intros H.
  destruct (connection_direction event_id) as [d|]; [|done].
  destruct (decode_pid p); [|done]. simpl in H.
  destruct (address sa) eqn:Es; [|done]. destruct (port sp); [|done].
  destruct (address da) eqn:Ed; [|done]. destruct (port dp); [|done].
  apply address_wf in Es, Ed. simpl in H. destruct d; simplify_eq; done.
Qed.
