(* ===== verification/Dispatch.v ===== *)
(** * The dispatch callbacks ([etw/dispatch.rs])

    One record becomes an event in the ring, with the cache consulted at
    dispatch. The UUID each event draws and the instant of its enqueue are
    inputs. [NetworkDiscards] packs the first discarded record into one
    64-bit atomic. *)

From S2P Require Import Prelude IpAddr Types Ring Cache Network.
Open Scope Z_scope.

(** ** Timestamps *)

Definition FILETIME_TO_UNIX_100NS : Z := 116444736000000000.

(** [checked_sub] fails outside [i64]; the product saturates at [u64::MAX]. *)
Definition filetime_to_unix_nanos (filetime_100ns : Z) : option Z :=
  let unix_100ns := filetime_100ns - FILETIME_TO_UNIX_100NS in
  if decide (in_i 64 unix_100ns) then
    if unix_100ns <? 0 then None else Some (sat_u 64 (unix_100ns * 100))
  else None.

(** ** Process records *)

Record RawProcessRecord := {
  rp_activity_id : ActivityId;
  rp_pid : Z;
  rp_parent_pid : Z;
  rp_image_file_name : string;
  rp_command_line : string;
  rp_subject_user_sid : string;
  rp_filetime_100ns : Z;
  rp_exit_status : option Z;
}.

(** [uuid] and [now] are the identifier drawn and the instant of the enqueue. *)
Definition dispatch_record (uuid : string) (now : Instant) (raw : RawProcessRecord)
    (cache : gmap Z Z) (ring : EventRing) : gmap Z Z * EventRing :=
  match filetime_to_unix_nanos (rp_filetime_100ns raw) with
  | None => (cache, ring)
  | Some etw_timestamp_nanos =>
      let '(created_time_nanos, cache') :=
        match rp_activity_id raw with
        | Launch => (Some etw_timestamp_nanos, Cache.insert cache (rp_pid raw) etw_timestamp_nanos)
        | Terminate => consult_and_purge cache (rp_pid raw)
        end in
      (cache',
       enqueue_or_drop ring now (Process {|
         ce_pid := rp_pid raw;
         ce_event_id := uuid;
         ce_activity_id := rp_activity_id raw;
         ce_image_file_name := rp_image_file_name raw;
         ce_parent_pid := rp_parent_pid raw;
         ce_command_line := rp_command_line raw;
         ce_subject_user_sid := rp_subject_user_sid raw;
         ce_etw_timestamp_nanos := etw_timestamp_nanos;
         ce_created_time_nanos := created_time_nanos;
         ce_exit_status := rp_exit_status raw |}))
  end.

(** ** Discarded network records *)

Record RawNetworkRecord := {
  rn_event_id : Z;
  rn_pid : list Byte.byte;
  rn_saddr : list Byte.byte;
  rn_daddr : list Byte.byte;
  rn_sport : list Byte.byte;
  rn_dport : list Byte.byte;
  rn_filetime_100ns : Z;
}.

Record DiscardSample := { ds_event_id : Z; ds_field_lengths : list Z }.

Record NetworkDiscards := { nd_total : Z; nd_first : Z }.

Definition discards_new : NetworkDiscards := {| nd_total := 0; nd_first := 0 |}.

Definition PRESENT : Z := Z.shiftl 1 63.

(** [packed |= (len.min(255) as u64) << (8 * i)], from the [i]-th on. *)
Fixpoint pack_lengths (i : Z) (lens : list Z) : Z :=
  match lens with
  | [] => 0
  | len :: lens' => Z.lor (Z.shiftl (Z.min len 255) (8 * i)) (pack_lengths (i + 1) lens')
  end.

Definition pack (event_id : Z) (field_lengths : list Z) : Z :=
  Z.lor (Z.lor PRESENT (Z.shiftl event_id 40)) (pack_lengths 0 field_lengths).

(** [compare_exchange(0, packed)]: only the first record is kept. *)
Definition discards_record (d : NetworkDiscards) (event_id : Z) (field_lengths : list Z)
  : NetworkDiscards :=
  {| nd_total := wrap_u 64 (nd_total d + 1);
     nd_first := if nd_first d =? 0 then pack event_id field_lengths else nd_first d |}.

Definition discards_total (d : NetworkDiscards) : Z := nd_total d.

Definition unpack_length (packed i : Z) : Z := Z.land (Z.shiftr packed (8 * i)) 255.

Definition discards_first (d : NetworkDiscards) : option DiscardSample :=
  let packed := nd_first d in
  if Z.land packed PRESENT =? 0 then None
  else Some {| ds_event_id := Z.land (Z.shiftr packed 40) 65535;
               ds_field_lengths := unpack_length packed <$> [0; 1; 2; 3; 4] |}.

(** ** Network records *)

Definition lengths_of (raw : RawNetworkRecord) : list Z :=
  (λ l : list Byte.byte, Z.of_nat (length l)) <$>
    [rn_pid raw; rn_saddr raw; rn_daddr raw; rn_sport raw; rn_dport raw].

Definition dispatch_network_record (uuid : string) (now : Instant) (raw : RawNetworkRecord)
    (excluded_pid : option Z) (cache : gmap Z Z) (ring : EventRing) (discards : NetworkDiscards)
  : EventRing * NetworkDiscards :=
  let lengths := lengths_of raw in
  match connection_direction (rn_event_id raw) with
  | None => (ring, discards_record discards (rn_event_id raw) lengths)
  | Some _ =>
      if bool_decide (is_Some excluded_pid) && bool_decide (decode_pid (rn_pid raw) = excluded_pid)
      then (ring, discards)
      else
        match decode_connection (rn_event_id raw) (rn_pid raw) (rn_saddr raw) (rn_daddr raw)
                (rn_sport raw) (rn_dport raw) with
        | None => (ring, discards_record discards (rn_event_id raw) lengths)
        | Some connection =>
            match filetime_to_unix_nanos (rn_filetime_100ns raw) with
            | None => (ring, discards)
            | Some etw_timestamp_nanos =>
                (enqueue_or_drop ring now (Network {|
                   ne_event_id := uuid;
                   ne_pid := dc_pid connection;
                   ne_direction := dc_direction connection;
                   ne_src := dc_src connection;
                   ne_dst := dc_dst connection;
                   ne_etw_timestamp_nanos := etw_timestamp_nanos;
                   ne_created_time_nanos := created_time cache (dc_pid connection) |}),
                 discards)
            end
        end
  end.

(** ** Lemmas *)

Lemma filetime_range t n : filetime_to_unix_nanos t = Some n → in_u 64 n.
Proof.
  unfold filetime_to_unix_nanos. case_decide; [|done].
  destruct (_ <? 0); [done|]. intros [= <-]. apply sat_u_range. lia.
Qed.

(** Bits of a value below [2 ^ w]. *)
Lemma small_testbit w x n : in_u w x → w ≤ n → 0 ≤ w → Z.testbit x n = false.
Proof.
  intros [H1 H2] Hn Hw. destruct (Z.eq_dec x 0) as [->|]; [apply Z.bits_0|].
  apply Z.bits_above_log2; [lia|]. apply Z.log2_lt_pow2; [lia|].
  eapply Z.lt_le_trans; [apply H2|]. apply Z.pow_le_mono_r; lia.
Qed.

(** The packed lengths stay below the bit behind the last of them. *)
Lemma pack_lengths_testbit i lens n :
  0 ≤ i → Forall (λ x, 0 ≤ x) lens →
  Z.testbit (pack_lengths i lens) n =
    match lens !! Z.to_nat (n / 8 - i) with
    | Some len => bool_decide (8 * i ≤ n) && Z.testbit (Z.min len 255) (n mod 8)
    | None => false
    end.
Proof.
  intros Hi Hlens. destruct (Z_lt_le_dec n 0) as [Hneg|Hn].
  { rewrite Z.testbit_neg_r by done. rewrite bool_decide_eq_false_2 by lia. by case_match. }
  revert i Hi; induction Hlens as [|len lens Hl _ IH]; intros i Hi; cbn [pack_lengths].
  { by rewrite Z.bits_0. }
  pose proof (Z.div_mod n 8). pose proof (Z.mod_pos_bound n 8).
  rewrite Z.lor_spec, Z.shiftl_spec, IH by lia.
  destruct (Z_lt_le_dec (n / 8) i) as [Hlt|Hge].
  { rewrite Z.testbit_neg_r by lia. rewrite !bool_decide_eq_false_2 by lia.
    by repeat case_match. }
  destruct (Z.eq_dec (n / 8) i) as [Heq|Hne].
  - replace (n / 8 - i) with 0 by lia. cbn [Z.to_nat lookup list_lookup].
    rewrite !(bool_decide_eq_false_2 (8 * (i + 1) ≤ n)) by lia.
    rewrite bool_decide_eq_true_2 by lia. replace (n - 8 * i) with (n mod 8) by lia.
    case_match; by rewrite orb_false_r.
  - rewrite (small_testbit 8) by (try split; lia).
    replace (Z.to_nat (n / 8 - i)) with (S (Z.to_nat (n / 8 - (i + 1)))) by lia.
    cbn [lookup list_lookup]. rewrite !bool_decide_eq_true_2 by lia. done.
Qed.

Lemma PRESENT_testbit n : 0 ≤ n → Z.testbit PRESENT n = bool_decide (n = 63).
Proof.
  intros. unfold PRESENT. rewrite Z.shiftl_1_l, Z.pow2_bits_eqb by lia.
  destruct (Z.eqb_spec 63 n); [rewrite bool_decide_eq_true_2|rewrite bool_decide_eq_false_2]; lia || done.
Qed.

Lemma pack_testbit event_id lens n :
  0 ≤ n → Z.testbit (pack event_id lens) n =
    bool_decide (n = 63) || Z.testbit event_id (n - 40) || Z.testbit (pack_lengths 0 lens) n.
Proof.
  intros. unfold pack. by rewrite !Z.lor_spec, PRESENT_testbit, Z.shiftl_spec by lia.
Qed.

Lemma pack_present event_id lens : Z.land (pack event_id lens) PRESENT ≠ 0.
Proof.
  intros H%(f_equal (λ x, Z.testbit x 63)). rewrite Z.land_spec, pack_testbit, Z.bits_0 in H by lia.
  rewrite PRESENT_testbit in H by lia. done.
Qed.

Section Packing.
Context (event_id : Z) (lens : list Z).
Hypothesis Hid : in_u 16 event_id.
Hypothesis Hlen : length lens = 5%nat.
Hypothesis Hpos : Forall (λ x, 0 ≤ x) lens.

Lemma pack_lengths_high n : 40 ≤ n → Z.testbit (pack_lengths 0 lens) n = false.
Proof.
  intros. rewrite pack_lengths_testbit by (done || lia).
  rewrite lookup_ge_None_2; [done|]. rewrite Hlen.
  assert (5 ≤ n / 8) by (apply Z.div_le_lower_bound; lia). lia.
Qed.

Lemma pack_event_id : Z.land (Z.shiftr (pack event_id lens) 40) 65535 = event_id.
Proof.
  apply Z.bits_inj'; intros n Hn. change 65535 with (Z.ones 16).
  rewrite Z.land_spec, Z.shiftr_spec, pack_testbit, pack_lengths_high by lia.
  replace (n + 40 - 40) with n by lia.
  destruct (Z_lt_le_dec n 16) as [Hlt|Hge].
  - rewrite Z.ones_spec_low by lia. rewrite bool_decide_eq_false_2 by lia. by rewrite orb_false_r, andb_true_r.
  - rewrite Z.ones_spec_high by lia. rewrite (small_testbit 16) by (done || lia).
    by rewrite andb_false_r.
Qed.

Lemma pack_length (i : nat) :
  (i < 5)%nat → ∃ len, lens !! i = Some len ∧
    unpack_length (pack event_id lens) (Z.of_nat i) = Z.min len 255.
Proof.
  intros Hi. destruct (lookup_lt_is_Some_2 lens i) as [len El]; [lia|].
  exists len; split; [done|].
  assert (0 ≤ len) by (by eapply (Forall_lookup_1 _ _ _ _ Hpos)).
  unfold unpack_length. apply Z.bits_inj'; intros n Hn. change 255 with (Z.ones 8) at 1.
  rewrite Z.land_spec, Z.shiftr_spec, pack_testbit by lia.
  destruct (Z_lt_le_dec n 8) as [Hlt|Hge].
  - rewrite Z.ones_spec_low, andb_true_r by lia. rewrite bool_decide_eq_false_2 by lia.
    rewrite (Z.testbit_neg_r event_id) by lia. cbn [orb].
    rewrite pack_lengths_testbit by (done || lia).
    replace (n + 8 * Z.of_nat i) with (Z.of_nat i * 8 + n) by lia.
    rewrite Z.div_add_l, Z.div_small, Z.add_0_r by lia.
    replace (Z.to_nat (Z.of_nat i - 0)) with i by lia. rewrite El.
    rewrite bool_decide_eq_true_2 by lia. cbn [andb].
    by rewrite Z.add_comm, Z_mod_plus_full, Z.mod_small by lia.
  - rewrite Z.ones_spec_high, andb_false_r by lia.
    by rewrite (small_testbit 8) by (try split; lia).
Qed.
End Packing.

Definition record_all (d : NetworkDiscards) (l : list (Z * list Z)) : NetworkDiscards :=
  fold_left (λ d e, discards_record d e.1 e.2) l d.

Lemma record_all_total d l :
  discards_total (record_all d l) = wrap_u 64 (discards_total d + Z.of_nat (length l))
  ∨ l = [].
Proof.
  revert d; induction l as [|e l IH]; intros d; [by right|left].
  cbn [record_all fold_left]. destruct (IH (discards_record d e.1 e.2)) as [H| ->].
  - unfold record_all, discards_total in *. rewrite H. simpl.
    rewrite wrap_u_add_l by lia. f_equal. cbn [length]. lia.
  - done.
Qed.

Lemma record_all_first d l : nd_first d ≠ 0 → nd_first (record_all d l) = nd_first d.
Proof.
  revert d; induction l as [|e l IH]; intros d Hd; [done|]. cbn [record_all fold_left].
  assert (nd_first (discards_record d e.1 e.2) = nd_first d) as H.
  { simpl. by rewrite (proj2 (Z.eqb_neq _ _)). }
  unfold record_all in IH. rewrite IH by congruence. done.
Qed.

(** The discard sample reads back: after any sequence of discarded
    records, whose five field lengths are non-negative and whose event id is a
    [u16], the count is their number modulo [2 ^ 64] and the sample unpacked
    from the 64-bit word is the first record, its id exact and each of its
    lengths capped at 255. *)
Theorem discards_keep_first (event_id : Z) (lens : list Z) (rest : list (Z * list Z)) :
  in_u 16 event_id → length lens = 5%nat → Forall (λ x, 0 ≤ x) lens →
  let d := record_all discards_new ((event_id, lens) :: rest) in
  discards_total d = wrap_u 64 (1 + Z.of_nat (length rest)) ∧
  discards_first d = Some {| ds_event_id := event_id;
                             ds_field_lengths := (λ x, Z.min x 255) <$> lens |}.
Proof.
  intros Hid Hlen Hpos d. split.
  { destruct (record_all_total discards_new ((event_id, lens) :: rest)) as [H|]; [|done].
    unfold d. rewrite H. f_equal. cbn [length discards_total nd_total discards_new]. lia. }
  unfold discards_first, d. cbn [record_all fold_left].
  pose proof (pack_present event_id lens) as Hp.
  assert (nd_first (discards_record discards_new event_id lens) = pack event_id lens) as E by done.
  change (fold_left _ rest _) with (record_all (discards_record discards_new event_id lens) rest).
  rewrite record_all_first, E by (rewrite E; intros H0; apply Hp; by rewrite H0).
  rewrite (proj2 (Z.eqb_neq _ _)) by done. do 2 f_equal; [by apply pack_event_id|].
  pose proof (pack_length event_id lens Hlen Hpos) as Hl.
  destruct lens as [|a [|b [|c [|e [|f [|]]]]]]; try done.
  pose proof (Hl 0%nat ltac:(lia)) as (? & [= <-] & E0).
  pose proof (Hl 1%nat ltac:(lia)) as (? & [= <-] & E1).
  pose proof (Hl 2%nat ltac:(lia)) as (? & [= <-] & E2).
  pose proof (Hl 3%nat ltac:(lia)) as (? & [= <-] & E3).
  pose proof (Hl 4%nat ltac:(lia)) as (? & [= <-] & E4).
  change (Z.of_nat 0) with 0 in E0. change (Z.of_nat 1) with 1 in E1.
  change (Z.of_nat 2) with 2 in E2. change (Z.of_nat 3) with 3 in E3.
  change (Z.of_nat 4) with 4 in E4.
  cbn [fmap list_fmap]. by rewrite E0, E1, E2, E3, E4.
Qed.

Lemma discards_keep_first_witness :
  in_u 16 99 ∧
  discards_first (record_all discards_new [(99, [4; 300; 4; 2; 0]); (7, [0; 0; 0; 0; 0])]) =
    Some {| ds_event_id := 99; ds_field_lengths := [4; 255; 4; 2; 0] |}.
Proof.
  split; [by vm_compute|].
  apply (discards_keep_first 99 [4; 300; 4; 2; 0] [(7, [0; 0; 0; 0; 0])]);
    [by vm_compute|done|by repeat constructor].
Defined.

(** ** Process records: creation times *)

(** The creation time an observer of the records would attribute to [pid]:
    the timestamp of the last Launch not followed by a Terminate. A record
    with a timestamp before 1970 is dropped and changes nothing. *)
Fixpoint live_launch (pid : Z) (start : option Z) (raws : list RawProcessRecord) : option Z :=
  match raws with
  | [] => start
  | raw :: raws' =>
      let start' :=
        if decide (rp_pid raw = pid) then
          match filetime_to_unix_nanos (rp_filetime_100ns raw), rp_activity_id raw with
          | Some t, Launch => Some t
          | Some _, Terminate => None
          | None, _ => start
          end
        else start in
      live_launch pid start' raws'
  end.

(** The records of one callback thread, in order, each with the identifier and
    the instant of its event. *)
Definition dispatch_all (raws : list (string * Instant * RawProcessRecord))
    (cache : gmap Z Z) (ring : EventRing) : gmap Z Z * EventRing :=
  fold_left (λ '(c, r) '(uuid, now, raw), dispatch_record uuid now raw c r) raws (cache, ring).

Lemma dispatch_record_cache uuid now raw c r pid :
  (dispatch_record uuid now raw c r).1 !! pid = live_launch pid (c !! pid) [raw].
Proof.
  unfold dispatch_record; simpl.
  destruct (filetime_to_unix_nanos _) as [t|]; [|by case_decide].
  destruct (rp_activity_id raw); simpl; unfold Cache.insert.
  - rewrite lookup_insert. by repeat case_decide.
  - rewrite lookup_delete. by repeat case_decide.
Qed.

Lemma dispatch_all_cache raws c r pid :
  (dispatch_all raws c r).1 !! pid = live_launch pid (c !! pid) (raws.*2).
Proof.
  revert c r; induction raws as [|[[uuid now] raw] raws IH]; intros c r; [done|].
  cbn [dispatch_all fold_left].
  pose proof (dispatch_record_cache uuid now raw c r pid) as H.
  destruct (dispatch_record uuid now raw c r) as [c1 r1]; simpl in H.
  unfold dispatch_all in IH. rewrite IH, H. done.
Qed.

(** A Terminate carries its process's own creation time: after any
    records, a Terminate of [pid] with a representable timestamp enqueues an
    event whose creation time is the timestamp of the last Launch of [pid]
    that no Terminate of it followed, and none when there is no such Launch; a
    Launch carries its own timestamp; and a later Launch of the reused PID
    cannot change an event already enqueued, since nothing is resolved after
    dispatch. *)
Theorem terminate_created_time (raws : list (string * Instant * RawProcessRecord))
    (uuid : string) (now t : Z) (raw : RawProcessRecord) (cap : nat) :
  filetime_to_unix_nanos (rp_filetime_100ns raw) = Some t →
  rp_image_file_name raw ≠ "" → (0 < cap)%nat →
  let '(c, r) := dispatch_all raws ∅ (new cap) in
  let '(c', r') := dispatch_record uuid now raw c r in
  ∃ e, last (snapshot_events r') = Some (Process e) ∧
    ce_event_id e = uuid ∧ ce_etw_timestamp_nanos e = t ∧
    ce_created_time_nanos e =
      match rp_activity_id raw with
      | Launch => Some t
      | Terminate => live_launch (rp_pid raw) None (raws.*2)
      end.
Proof.
  intros Ht Hname Hcap. pose proof (dispatch_all_cache raws ∅ (new cap) (rp_pid raw)) as Hc.
  destruct (dispatch_all raws ∅ (new cap)) as [c r]; simpl in Hc.
  rewrite lookup_empty in Hc. unfold dispatch_record. rewrite Ht.
  assert (∀ e, ce_image_file_name e = rp_image_file_name raw →
            last (snapshot_events (enqueue_or_drop r now (Process e))) = Some (Process e)) as Hlast.
  { intros e He. apply enqueue_last. simpl. rewrite He. by destruct (rp_image_file_name raw). }
  destruct (rp_activity_id raw); simpl; eexists; (split; [by apply Hlast|]); simpl; auto.
Qed.

(** ** Network records *)

(** The ids a direction is known for. *)
Lemma connection_ids id : id ∉ CONNECTION_EVENT_IDS ↔ connection_direction id = None.
Proof.
  unfold CONNECTION_EVENT_IDS, connection_direction.
  rewrite !not_elem_of_cons. unfold TCP_CONNECT_V4, TCP_CONNECT_V6, TCP_ACCEPT_V4, TCP_ACCEPT_V6.
  destruct (Z.eqb_spec id 12), (Z.eqb_spec id 28), (Z.eqb_spec id 15), (Z.eqb_spec id 31); simpl;
    split; try done; intros; intuition (try lia); set_solver.
Qed.

(** What happens to each network record is decided by its event id, its
    PID and its bytes alone: one of another event id or with fields that do
    not decode is counted as discarded and not reported; one of the excluded
    process is neither counted nor reported; any other is enqueued with the
    decoded endpoints and the creation time the cache holds for its process at
    dispatch, or dropped uncounted when its timestamp is before 1970. *)
Theorem network_record_outcome (uuid : string) (now : Instant) (raw : RawNetworkRecord)
    (excluded : option Z) (cache : gmap Z Z) (ring : EventRing) (d : NetworkDiscards) :
  let dec := decode_connection (rn_event_id raw) (rn_pid raw) (rn_saddr raw) (rn_daddr raw)
               (rn_sport raw) (rn_dport raw) in
  let '(ring', d') := dispatch_network_record uuid now raw excluded cache ring d in
  if decide (rn_event_id raw ∉ CONNECTION_EVENT_IDS) then
    ring' = ring ∧ d' = discards_record d (rn_event_id raw) (lengths_of raw)
  else if decide (is_Some excluded ∧ decode_pid (rn_pid raw) = excluded) then
    ring' = ring ∧ d' = d
  else match dec, filetime_to_unix_nanos (rn_filetime_100ns raw) with
       | None, _ => ring' = ring ∧ d' = discards_record d (rn_event_id raw) (lengths_of raw)
       | Some _, None => ring' = ring ∧ d' = d
       | Some c, Some t =>
           d' = d ∧ ring' = enqueue_or_drop ring now (Network
             {| ne_event_id := uuid; ne_pid := dc_pid c; ne_direction := dc_direction c;
                ne_src := dc_src c; ne_dst := dc_dst c; ne_etw_timestamp_nanos := t;
                ne_created_time_nanos := cache !! dc_pid c |})
       end.
Proof.
  pose proof (connection_ids (rn_event_id raw)) as Hids.
  intros dec. destruct (dispatch_network_record _ _ _ _ _ _ _) as [ring' d'] eqn:E.
  unfold dispatch_network_record in E. fold dec in E.
  destruct (connection_direction (rn_event_id raw)) as [dir|] eqn:Ed.
  2: { rewrite decide_True by tauto. by simplify_eq. }
  rewrite decide_False by (intros H; apply Hids in H; done).
  destruct (decide (is_Some excluded ∧ _)) as [[Hx Hp]|Hn].
  { rewrite !bool_decide_eq_true_2 in E by done. by simplify_eq/=. }
  assert (bool_decide (is_Some excluded) && bool_decide (decode_pid (rn_pid raw) = excluded) = false)
    as Hb.
  { apply andb_false_iff. rewrite !bool_decide_eq_false. destruct (decide (is_Some excluded)); tauto. }
  rewrite Hb in E. destruct dec; [|by simplify_eq].
  by destruct (filetime_to_unix_nanos _); simplify_eq.
Qed.

(** ** Timestamps *)

(** The timestamp conversion is total and exact: for every [i64] FILETIME
    it yields nothing before 1970 (and where the subtraction would overflow),
    otherwise the nanoseconds since 1970, saturated at [u64::MAX]. *)
Theorem filetime_conversion (t : Z) :
  in_i 64 t →
  filetime_to_unix_nanos t =
    (if t <? FILETIME_TO_UNIX_100NS then None
     else Some (Z.min ((t - FILETIME_TO_UNIX_100NS) * 100) u64_max)).
Proof.
  unfold in_i, filetime_to_unix_nanos, FILETIME_TO_UNIX_100NS. intros Ht.
  case_decide as Hi; unfold in_i in Hi.
  - destruct (Z.ltb_spec (t - 116444736000000000) 0), (Z.ltb_spec t 116444736000000000);
      try lia; [done|]. f_equal. unfold sat_u, u64_max. change (2 ^ 64 - 1) with 18446744073709551615. lia.
  - destruct (Z.ltb_spec t 116444736000000000); [done|]. exfalso; apply Hi. lia.
Qed.

Lemma filetime_conversion_witness :
  in_i 64 116444736000000001 ∧ filetime_to_unix_nanos 116444736000000001 = Some 100.
Proof.
  split; [by vm_compute|]. rewrite (filetime_conversion 116444736000000001); by vm_compute.
Defined.

Definition sample_raw (a : ActivityId) (pid filetime : Z) : RawProcessRecord :=
  {| rp_activity_id := a; rp_pid := pid; rp_parent_pid := 4; rp_image_file_name := "cmd.exe";
     rp_command_line := ""; rp_subject_user_sid := "S-1-5-18"; rp_filetime_100ns := filetime;
     rp_exit_status := None |}.

Lemma terminate_created_time_witness :
  let raws := [("a", 1, sample_raw Launch 10 116444736000000005);
               ("b", 2, sample_raw Terminate 10 116444736000000006);
               ("c", 3, sample_raw Launch 10 116444736000000007)] in
  let raw := sample_raw Terminate 10 116444736000000009 in
  let '(c, r) := dispatch_all raws ∅ (new 8) in
  ∃ e, last (snapshot_events (dispatch_record "d" 4 raw c r).2) = Some (Process e) ∧
       ce_created_time_nanos e = Some 700.
Proof.
  intros raws raw.
  pose proof (terminate_created_time raws "d" 4 900 raw 8 ltac:(by vm_compute) ltac:(done) ltac:(lia)) as H.
  destruct (dispatch_all raws ∅ (new 8)) as [c r].
  destruct (dispatch_record "d" 4 raw c r) as [c' r'].
  destruct H as (e & He & _ & _ & Hc). exists e. split; [exact He|]. rewrite Hc. by vm_compute.
Defined.
