(* ===== verification/Logon.v ===== *)
(** * Logon telemetry ([logon/mod.rs])

    Decoding of Security-log records 4624 and 4625, their dispatch into the
    ring, and the counting of the records the agent cannot use. *)

From S2P Require Import Prelude IpAddr Types Ring Cache Network Dispatch.
Open Scope Z_scope.

Definition EVENT_LOGON_SUCCESS : Z := 4624.
Definition EVENT_LOGON_FAILURE : Z := 4625.
Definition WITHHELD : string := "<withheld>".
Definition NO_VALUE : string := "-".

Definition ACCOUNT_EXISTS_CODES : list Z :=
  [0xC000006A; 0xC0000234; 0xC0000072; 0xC000006F; 0xC0000070; 0xC0000193;
   0xC0000071; 0xC0000224; 0xC000015B].

Record RawLogonRecord := {
  rl_event_id : Z;
  rl_version : Z;
  rl_filetime_100ns : Z;
  rl_target_user_sid : option string;
  rl_target_user_name : option string;
  rl_target_domain_name : option string;
  rl_logon_type : option Z;
  rl_auth_package : option string;
  rl_workstation : option string;
  rl_ip_address : option string;
  rl_elevated_token : option string;
  rl_status : option Z;
  rl_sub_status : option Z;
}.

Inductive LogonDecode :=
| Report (e : LogonEvent)
| Excluded
| Unusable
| BeforeEpoch.

Definition value_or_dash (value : option string) : string :=
  match value with
  | Some v => if is_empty v then NO_VALUE else v
  | None => NO_VALUE
  end.

Definition EXACT : list string := ["S-1-5-18"; "S-1-5-19"; "S-1-5-20"].
Definition PREFIXES : list string :=
  ["S-1-5-80-"; "S-1-5-82-"; "S-1-5-83-"; "S-1-5-84-"; "S-1-5-90-"; "S-1-5-96-"].

Definition dollar : Ascii.ascii := Ascii.ascii_of_N 36.
Definition percent : Ascii.ascii := Ascii.ascii_of_N 37.

Definition is_excluded_target (sid name : string) : bool :=
  bool_decide (sid ∈ EXACT) || existsb (λ p, starts_with p sid) PREFIXES
    || ends_with_char dollar name.

Definition failure_code (status sub_status : option Z) : Z :=
  match sub_status with
  | Some code => if code =? 0 then default 0 status else code
  | None => default 0 status
  end.

Definition name_is_kept (code : Z) : bool := bool_decide (code ∈ ACCOUNT_EXISTS_CODES).

Definition logon_type_id (logon_type : option Z) : Z :=
  match logon_type with
  | Some t =>
      if t =? 0 then 1
      else if ((2 <=? t) && (t <=? 5)) || ((7 <=? t) && (t <=? 13)) then t
      else 99
  | None => 99
  end.

Definition auth_protocol_id (package : string) : Z :=
  if decide (package = NO_VALUE) then 0
  else if eq_ignore_ascii_case package "NTLM" then 1
  else if eq_ignore_ascii_case package "Kerberos" then 2
  else 99.

Definition source (ip_address workstation : option string) : option LogonSource :=
  match ip_address with
  | None => None
  | Some text =>
      let text := default text (head (split_on percent text)) in
      match parse_ip text with
      | None => None
      | Some ip =>
          let ip := match ip with
                    | V6 v6 => match to_ipv4_mapped v6 with
                               | Some v4 => V4 v4
                               | None => V6 v6
                               end
                    | v4 => v4
                    end in
          let hostname := match workstation with
                          | Some w => if is_empty w || bool_decide (w = NO_VALUE)
                                      then None else Some w
                          | None => None
                          end in
          Some {| ls_ip := ip; ls_hostname := hostname |}
      end
  end.

Definition elevated (token : option string) : option bool :=
  match token with
  | Some t => if decide (t = "%%1842") then Some true
              else if decide (t = "%%1843") then Some false else None
  | None => None
  end.

Definition hex_code (code : Z) : string := "0x" +:+ hex code.

Definition ERROR_NO_MORE_ITEMS : Z := 259.
Definition ERROR_INVALID_OPERATION : Z := 4317.
Definition read_is_exhausted (code : Z) : bool :=
  (code =? ERROR_NO_MORE_ITEMS) || (code =? ERROR_INVALID_OPERATION).

(** [uuid] is the identifier drawn for the event. *)
Definition decode_logon (uuid : string) (raw : RawLogonRecord) : LogonDecode :=
  let decode (status : LogonStatus) :=
    match rl_target_user_sid raw with
    | None => Unusable
    | Some sid =>
        if is_empty sid then Unusable else
        let name := value_or_dash (rl_target_user_name raw) in
        if bool_decide (status = Success) && is_excluded_target sid name then Excluded else
        match filetime_to_unix_nanos (rl_filetime_100ns raw) with
        | None => BeforeEpoch
        | Some timestamp_nanos =>
            let domain := value_or_dash (rl_target_domain_name raw) in
            let '(user_name, domain, status_code, status_detail, elevated_token) :=
              match status with
              | Success => (name, domain, None, None, elevated (rl_elevated_token raw))
              | Failure =>
                  let kept := name_is_kept (failure_code (rl_status raw) (rl_sub_status raw)) in
                  (if kept then name else WITHHELD, if kept then domain else WITHHELD,
                   Some (default 0 (rl_status raw)), Some (default 0 (rl_sub_status raw)), None)
              end in
            let auth_protocol := value_or_dash (rl_auth_package raw) in
            Report {|
              le_event_id := uuid;
              le_status := status;
              le_user_uid := sid;
              le_user_name := user_name;
              le_user_domain := domain;
              le_logon_type_id := logon_type_id (rl_logon_type raw);
              le_auth_protocol := auth_protocol;
              le_auth_protocol_id := auth_protocol_id auth_protocol;
              le_src := source (rl_ip_address raw) (rl_workstation raw);
              le_status_code := status_code;
              le_status_detail := status_detail;
              le_elevated_token := elevated_token;
              le_timestamp_nanos := timestamp_nanos |}
        end
    end in
  if rl_event_id raw =? EVENT_LOGON_SUCCESS then decode Success
  else if rl_event_id raw =? EVENT_LOGON_FAILURE then decode Failure
  else Unusable.

(** ** Counting unusable records *)

Record UnusableSample := { us_event_id : option Z; us_win32_code : option Z }.

Record LogonCounters := { lc_count : Z; lc_first : option UnusableSample }.

Definition counters_new : LogonCounters := {| lc_count := 0; lc_first := None |}.

Definition record_unusable (c : LogonCounters) (s : UnusableSample) : LogonCounters :=
  {| lc_count := wrap_u 64 (lc_count c + 1);
     lc_first := Some (default s (lc_first c)) |}.

Definition unusable (c : LogonCounters) : Z := lc_count c.
Definition first_unusable (c : LogonCounters) : option UnusableSample := lc_first c.

Record UnusableMonitor := { logged_total : Z; last_log : option Instant }.

Definition monitor_new : UnusableMonitor := {| logged_total := 0; last_log := None |}.

Definition LOG_INTERVAL : Z := seconds 60.

(** [observe]: the increase logged, 0 when nothing is. *)
Definition unusable_observe (m : UnusableMonitor) (c : LogonCounters) (now : Instant)
  : Z * UnusableMonitor :=
  let total := unusable c in
  let delta := sat_sub total (logged_total m) in
  let due := match last_log m with
             | None => true
             | Some last => LOG_INTERVAL <=? sat_sub now last
             end in
  if (delta =? 0) || negb due then (0, m)
  else (delta, {| logged_total := total; last_log := Some now |}).

Definition dispatch_logon_record (uuid : string) (now : Instant) (raw : RawLogonRecord)
    (ring : EventRing) (counters : LogonCounters) : EventRing * LogonCounters :=
  match decode_logon uuid raw with
  | Report event => (enqueue_or_drop ring now (Logon event), counters)
  | Excluded => (ring, counters)
  | Unusable => (ring, record_unusable counters
                         {| us_event_id := Some (rl_event_id raw); us_win32_code := None |})
  | BeforeEpoch => (ring, counters)
  end.

(** ** Lemmas *)

(** The record with another name and domain. *)
Definition with_names (raw : RawLogonRecord) (name domain : option string) : RawLogonRecord :=
  {| rl_event_id := rl_event_id raw; rl_version := rl_version raw;
     rl_filetime_100ns := rl_filetime_100ns raw;
     rl_target_user_sid := rl_target_user_sid raw;
     rl_target_user_name := name; rl_target_domain_name := domain;
     rl_logon_type := rl_logon_type raw; rl_auth_package := rl_auth_package raw;
     rl_workstation := rl_workstation raw; rl_ip_address := rl_ip_address raw;
     rl_elevated_token := rl_elevated_token raw;
     rl_status := rl_status raw; rl_sub_status := rl_sub_status raw |}.

Lemma decode_logon_report uuid raw e :
  decode_logon uuid raw = Report e →
  le_event_id e = uuid ∧ le_user_uid e ≠ "" ∧
  rl_target_user_sid raw = Some (le_user_uid e) ∧
  filetime_to_unix_nanos (rl_filetime_100ns raw) = Some (le_timestamp_nanos e) ∧
  (le_status e = Success ↔ rl_event_id raw = EVENT_LOGON_SUCCESS) ∧
  (le_status e = Failure ↔ rl_event_id raw = EVENT_LOGON_FAILURE).
Proof.
  unfold decode_logon, EVENT_LOGON_SUCCESS, EVENT_LOGON_FAILURE. intros H.
  destruct (Z.eqb_spec (rl_event_id raw) 4624) as [E|E];
    [|destruct (Z.eqb_spec (rl_event_id raw) 4625); [|done]];
    (destruct (rl_target_user_sid raw) as [[|a sid]|]; [done| |done]); cbn [is_empty] in H;
    (destruct (bool_decide _ && _); [done|]);
    (destruct (filetime_to_unix_nanos _); [|done]); simplify_eq/=;
    split_and!; try done; split; intros; done || lia.
Qed.

(** The code that decides is the sub-status unless it is absent or zero. *)
Lemma failure_code_spec status sub :
  failure_code status sub =
    match sub with Some c => if decide (c = 0) then default 0 status else c
                 | None => default 0 status end.
Proof. unfold failure_code. destruct sub as [c|]; [|done]. by destruct (Z.eqb_spec c 0); case_decide. Qed.

Lemma source_wf ip w s : source ip w = Some s → ip_wf (ls_ip s).
Proof.
  unfold source. destruct ip as [text|]; [|done].
  destruct (parse_ip _) as [a|] eqn:E; [|done]. intros [= <-]; simpl.
  apply parse_ip_wf in E. by apply canonical_wf in E.
Qed.

(** C40 A failed logon whose code, the sub-status or, where that is zero or absent, the
    status, is not one [name_is_kept] lists as of an existing account reveals
    neither the name nor the domain the caller typed: replacing both in the
    record, by anything, changes nothing of what the agent makes of it, and
    what it reports has both withheld. *)
Theorem failed_logon_withholds_names (uuid : string) (raw : RawLogonRecord)
    (name domain : option string) :
  rl_event_id raw = EVENT_LOGON_FAILURE →
  name_is_kept (failure_code (rl_status raw) (rl_sub_status raw)) = false →
  decode_logon uuid (with_names raw name domain) = decode_logon uuid raw ∧
  ∀ e, decode_logon uuid raw = Report e → le_user_name e = WITHHELD ∧ le_user_domain e = WITHHELD.
Proof.
  intros Hid Hk. unfold decode_logon, with_names; cbn. rewrite Hid, Hk; cbn.
  destruct (rl_target_user_sid raw) as [sid|]; [|done].
  destruct (is_empty sid); [done|]. destruct (filetime_to_unix_nanos _); [|done].
  split; [done|]. by intros e [= <-].
Qed.

Definition sample_failure : RawLogonRecord :=
  {| rl_event_id := 4625; rl_version := 0; rl_filetime_100ns := 116444736000000001;
     rl_target_user_sid := Some "S-1-0-0"; rl_target_user_name := Some "hunter2";
     rl_target_domain_name := Some "CORP"; rl_logon_type := Some 3;
     rl_auth_package := Some "NTLM"; rl_workstation := Some "WS1";
     rl_ip_address := Some "fe80::1%4"; rl_elevated_token := None;
     rl_status := Some 0xC000006D; rl_sub_status := Some 0xC0000064 |}.

Lemma failed_logon_withholds_names_witness :
  decode_logon "u" (with_names sample_failure (Some "other") None) = decode_logon "u" sample_failure
  ∧ ∃ e, decode_logon "u" sample_failure = Report e ∧ le_user_name e = "<withheld>".
Proof.
  pose proof (failed_logon_withholds_names "u" sample_failure (Some "other") None
                ltac:(reflexivity) ltac:(vm_compute; reflexivity)) as [H1 H2].
  split; [exact H1|]. eexists. split; [vm_compute; reflexivity|]. reflexivity.
Defined.

(** A successful logon of an account that is not a person's is never
    reported and never counted: a 4624 whose target is SYSTEM, LocalService or
    NetworkService, a virtual account, or a computer account (a name ending in
    a dollar sign) leaves ring and counters as they are; every other 4624 with
    a SID and a timestamp from 1970 on is enqueued with its name and domain. *)
Theorem successful_logon_reported (uuid : string) (now t : Z) (raw : RawLogonRecord) (sid : string)
    (ring : EventRing) (counters : LogonCounters) :
  rl_event_id raw = EVENT_LOGON_SUCCESS → rl_target_user_sid raw = Some sid → sid ≠ "" →
  filetime_to_unix_nanos (rl_filetime_100ns raw) = Some t →
  let name := value_or_dash (rl_target_user_name raw) in
  let '(ring', counters') := dispatch_logon_record uuid now raw ring counters in
  counters' = counters ∧
  if is_excluded_target sid name then ring' = ring
  else ∃ e, ring' = enqueue_or_drop ring now (Logon e) ∧ le_event_id e = uuid ∧
         le_status e = Success ∧ le_user_uid e = sid ∧ le_user_name e = name ∧
         le_user_domain e = value_or_dash (rl_target_domain_name raw) ∧
         le_timestamp_nanos e = t ∧ le_status_code e = None.
Proof.
  intros Hid Hsid Hne Ht. unfold dispatch_logon_record, decode_logon.
  rewrite Hid, Hsid, Ht. destruct sid as [|a sid]; [done|]. cbn [is_empty Z.eqb].
  change (EVENT_LOGON_SUCCESS =? EVENT_LOGON_SUCCESS) with true. cbn iota zeta.
  rewrite bool_decide_eq_true_2 by done. cbn [andb].
  destruct (is_excluded_target _ _); [done|]. split; [done|]. eexists. split; [done|]. by simpl.
Qed.

Definition sample_success (sid name : string) : RawLogonRecord :=
  {| rl_event_id := 4624; rl_version := 2; rl_filetime_100ns := 116444736000000002;
     rl_target_user_sid := Some sid; rl_target_user_name := Some name;
     rl_target_domain_name := Some "CORP"; rl_logon_type := Some 2;
     rl_auth_package := Some "Negotiate"; rl_workstation := None;
     rl_ip_address := Some "-"; rl_elevated_token := Some "%%1842";
     rl_status := None; rl_sub_status := None |}.

Lemma successful_logon_reported_witness :
  let '(ring', counters') :=
    dispatch_logon_record "u" 7 (sample_success "S-1-5-90-0-1" "DWM-1") (new 4) counters_new in
  ring' = new 4 ∧ counters' = counters_new.
Proof.
  pose proof (successful_logon_reported "u" 7 200 (sample_success "S-1-5-90-0-1" "DWM-1")
                "S-1-5-90-0-1" (new 4) counters_new ltac:(reflexivity) ltac:(reflexivity)
                ltac:(discriminate) ltac:(vm_compute; reflexivity)) as H.
  destruct (dispatch_logon_record _ _ _ _ _) as [ring' counters'].
  destruct H as [H1 H2]. split; [exact H2|exact H1].
Defined.

(** ANONYMOUS LOGON is reported. *)
Example anonymous_logon_reported :
  is_excluded_target "S-1-5-7" "ANONYMOUS LOGON" = false.
Proof. by vm_compute. Qed.

(** The printed form of an address contains no zone separator. *)
Lemma show_v4_no_percent o :
  forallb_str (λ a, negb (bool_decide (a = percent))) (show_v4 o) = true.
Proof.
  assert (∀ b, forallb_str (λ a, negb (bool_decide (a = percent))) (dec (byte_Z b)) = true) as Hb.
  { intros b. destruct b; vm_compute; reflexivity. }
  unfold show_v4. induction o as [|b o IH]; [done|]. cbn [fmap list_fmap] in *.
  destruct o as [|b' o]; [apply Hb|]. cbn [join fmap list_fmap] in *.
  rewrite !forallb_str_app, Hb, IH. done.
Qed.

(** A logon's source reads back: the printed form of every IPv4 address,
    alone or with any zone suffix, is that address as the logon's source, with
    the workstation name when it is neither empty nor a dash. *)
Theorem source_reads_ipv4 (o : list Byte.byte) (zone : string) (w : option string) :
  length o = 4%nat →
  let expected := Some {| ls_ip := V4 o;
                          ls_hostname := match w with
                                         | Some h => if decide (h = "" ∨ h = "-") then None else Some h
                                         | None => None
                                         end |} in
  source (Some (show_v4 o)) w = expected ∧
  source (Some (show_v4 o +:+ String percent zone)) w = expected.
Proof.
  intros Ho expected. destruct (split_on_head percent (show_v4 o) zone (show_v4_no_percent o)) as [H1 H2].
  assert (∀ text, head (split_on percent text) = Some (show_v4 o) → source (Some text) w = expected)
    as Hs; [|auto].
  intros text Ht. unfold source. rewrite Ht.
  change (default text (Some (show_v4 o))) with (show_v4 o).
  rewrite parse_show_v4 by done. unfold expected. repeat f_equal.
  destruct w as [h|]; [|done]. unfold NO_VALUE. destruct h as [|a h]; [by rewrite decide_True by auto|].
  simpl is_empty. cbn [orb]. unfold bool_decide. repeat case_decide; try done; naive_solver.
Qed.

Lemma source_reads_ipv4_witness :
  source (Some "192.0.2.7%3") (Some "WS1") =
    Some {| ls_ip := V4 [Byte.xc0; Byte.x00; Byte.x02; Byte.x07]; ls_hostname := Some "WS1" |}.
Proof.
  exact (proj2 (source_reads_ipv4 [Byte.xc0; Byte.x00; Byte.x02; Byte.x07] "3" (Some "WS1")
                  ltac:(reflexivity))).
Defined.

(** The identifiers of the wire stay within OCSF's. *)
Lemma logon_type_id_range t : 1 ≤ logon_type_id t ≤ 99.
Proof.
  unfold logon_type_id. destruct t as [t|]; [|lia]. destruct (t =? 0); [lia|].
  destruct (_ || _) eqn:E; [|lia].
  apply orb_true_iff in E as [E|E]; apply andb_true_iff in E as [E1 E2];
    apply Z.leb_le in E1, E2; lia.
Qed.
