(* ===== verification/Paths.v ===== *)
(** * Kernel device path to Win32 path translation ([paths.rs])

    The drive map is built once from (device, drive) pairs and applied when an
    event is rendered. [longest_match] is the reference: scan the pairs in
    their given order and keep the longest prefix that ends at a separator,
    the first of equals. *)

From S2P Require Import Prelude.

Definition UNC_PREFIXES : list string := ["\Device\Mup\"; "\??\UNC\"].

Definition DevicePathMap := list (string * string).

Definition empty_map : DevicePathMap := [].

(** [sort_by_key(Reverse(len))]: a stable sort, longest device first. *)
Fixpoint insert_longest (x : string * string) (l : DevicePathMap) : DevicePathMap :=
  match l with
  | [] => [x]
  | y :: l' =>
      if decide (String.length y.1 ≤ String.length x.1) then x :: y :: l'
      else y :: insert_longest x l'
  end.

Definition sort_longest (l : DevicePathMap) : DevicePathMap := foldr insert_longest [] l.

(** The pairs kept: trailing separators ignored, empty devices dropped. *)
Definition cleaned (pairs : list (string * string)) : list (string * string) :=
  filter (λ e, e.1 ≠ "") ((λ e, (trim_end_char backslash e.1, e.2)) <$> pairs).

Definition from_pairs (pairs : list (string * string)) : DevicePathMap :=
  sort_longest (cleaned pairs).

Definition strip_prefix_ignore_ascii_case (path prefix : string) : option string :=
  match split_at (String.length prefix) path with
  | Some (head, rest) => if eq_ignore_ascii_case head prefix then Some rest else None
  | None => None
  end.

Definition ends_at_separator (rest : string) : bool :=
  is_empty rest || starts_with (String backslash "") rest.

(** The drive form of [path] under one entry, if the entry applies. *)
Definition entry_match (path : string) (e : string * string) : option string :=
  match strip_prefix_ignore_ascii_case path e.1 with
  | Some rest => if ends_at_separator rest then Some (e.2 +:+ rest) else None
  | None => None
  end.

Fixpoint translate_unc (path : string) (prefixes : list string) : option string :=
  match prefixes with
  | [] => None
  | unc :: prefixes' =>
      match strip_prefix_ignore_ascii_case path unc with
      | Some rest => Some (String backslash (String backslash rest))
      | None => translate_unc path prefixes'
      end
  end.

Fixpoint translate_entries (path : string) (entries : DevicePathMap) : option string :=
  match entries with
  | [] => None
  | e :: entries' =>
      match entry_match path e with
      | Some r => Some r
      | None => translate_entries path entries'
      end
  end.

Definition translate (m : DevicePathMap) (path : string) : string :=
  match translate_unc path UNC_PREFIXES with
  | Some r => r
  | None => default path (translate_entries path m)
  end.

(** ** Unresolved paths, logged once per device prefix *)

Definition UnresolvedPathLog := gset string.

Definition device_prefix (original : string) : string :=
  join (String backslash "") (take 3 (split_on backslash original)).

(** [note]: whether it logged. *)
Definition note (seen : gset string) (original rendered : string) : bool * gset string :=
  if bool_decide (original ≠ rendered) || negb (starts_with "\Device\" original)
  then (false, seen)
  else let prefix := device_prefix original in
       if decide (prefix ∈ seen) then (false, seen) else (true, {[prefix]} ∪ seen).

(** ** The reference *)

Fixpoint longest_match (path : string) (pairs : list (string * string)) : option (nat * string) :=
  match pairs with
  | [] => None
  | e :: pairs' =>
      match entry_match path e, longest_match path pairs' with
      | Some r, Some (n, r') =>
          if decide (n ≤ String.length e.1) then Some (String.length e.1, r) else Some (n, r')
      | Some r, None => Some (String.length e.1, r)
      | None, best => best
      end
  end.

(** ** Lemmas *)

Lemma insert_longest_perm x l : insert_longest x l ≡ₚ x :: l.
Proof.
  induction l as [|y l IH]; simpl; [done|]. case_decide; [done|].
  rewrite IH. by constructor.
Qed.

Lemma sort_longest_perm l : sort_longest l ≡ₚ l.
Proof. induction l as [|x l IH]; simpl; [done|]. by rewrite insert_longest_perm, IH. Qed.

(** Every device of a sorted tail is at most as long as the head's. *)
Inductive descending : DevicePathMap → Prop :=
| desc_nil : descending []
| desc_cons x l :
    Forall (λ y, String.length y.1 ≤ String.length x.1) l → descending l → descending (x :: l).

#[export] Hint Constructors descending : agent.

Lemma insert_longest_descending x l : descending l → descending (insert_longest x l).
Proof.
  induction 1 as [|y l Hy Hl IH]; simpl; [by repeat constructor|].
  case_decide as Hle.
  - constructor; [|by constructor]. constructor; [done|].
    eapply Forall_impl; [apply Hy|]. intros z Hz; simpl in *. lia.
  - constructor; [|done]. rewrite insert_longest_perm. constructor; [lia|done].
Qed.

Lemma sort_longest_descending l : descending (sort_longest l).
Proof. induction l; simpl; auto using insert_longest_descending with agent. Qed.

(** The first match of a list, with the length of its device. *)
Fixpoint first_match (path : string) (l : DevicePathMap) : option (nat * string) :=
  match l with
  | [] => None
  | e :: l' => match entry_match path e with
               | Some r => Some (String.length e.1, r)
               | None => first_match path l'
               end
  end.

Lemma first_match_translate path l : translate_entries path l = snd <$> first_match path l.
Proof. induction l as [|e l IH]; simpl; [done|]. by destruct (entry_match path e). Qed.

Lemma first_match_bound path l k n r :
  Forall (λ y, String.length y.1 ≤ k) l → first_match path l = Some (n, r) → n ≤ k.
Proof.
  induction 1 as [|e l He _ IH]; simpl; [done|].
  destruct (entry_match path e); [|auto]. intros; by simplify_eq.
Qed.

(** Inserting an entry is combining it with the first match of the rest. *)
Lemma first_match_insert path x l :
  descending l →
  first_match path (insert_longest x l) =
    match entry_match path x, first_match path l with
    | Some r, Some (n, r') =>
        if decide (n ≤ String.length x.1) then Some (String.length x.1, r) else Some (n, r')
    | Some r, None => Some (String.length x.1, r)
    | None, best => best
    end.
Proof.
  induction 1 as [|y l Hy Hl IH]; [done|]. cbn [insert_longest].
  case_decide as Hle.
  - change (first_match path (x :: y :: l)) with
      (match entry_match path x with
       | Some r => Some (String.length x.1, r) | None => first_match path (y :: l) end).
    destruct (entry_match path x) as [r|]; [|done].
    destruct (first_match path (y :: l)) as [[n r']|] eqn:E; [|done].
    rewrite decide_True; [done|].
    assert (n ≤ String.length y.1); [|lia].
    eapply first_match_bound; [|exact E]. by constructor.
  - cbn [first_match]. destruct (entry_match path y) as [ry|].
    + destruct (entry_match path x); [|done]. by rewrite decide_False by lia.
    + by rewrite IH.
Qed.

Lemma first_match_sorted path l : first_match path (sort_longest l) = longest_match path l.
Proof.
  induction l as [|x l IH]; [done|]. cbn [sort_longest foldr longest_match].
  change (foldr insert_longest [] l) with (sort_longest l).
  rewrite first_match_insert by apply sort_longest_descending. by rewrite IH.
Qed.

(** What an entry that applies says of the path. *)
Lemma entry_match_spec path e r :
  entry_match path e = Some r ↔
  ∃ head rest, split_at (String.length e.1) path = Some (head, rest) ∧
    lowercase head = lowercase e.1 ∧
    (rest = "" ∨ ∃ t, rest = String backslash t) ∧ r = e.2 +:+ rest.
Proof.
  unfold entry_match, strip_prefix_ignore_ascii_case, eq_ignore_ascii_case, ends_at_separator.
  destruct (split_at _ path) as [[h t]|]; [|naive_solver].
  destruct (decide (lowercase h = lowercase e.1)) as [Hc|Hc].
  - rewrite bool_decide_eq_true_2 by done.
    destruct (is_empty t || starts_with (String backslash "") t) eqn:Et; split.
    + intros [= <-]. exists h, t. split_and!; try done.
      apply orb_true_iff in Et as [Et|Et]; [left; by destruct t|right].
      apply starts_with_spec in Et as [u ->]. by exists u.
    + intros (? & ? & [= <- <-] & _ & _ & ->). done.
    + done.
    + intros (? & ? & [= <- <-] & _ & [->|[u ->]] & ->); [done|].
      apply orb_false_iff in Et as [_ Et].
      assert (starts_with (String backslash "") (String backslash u) = true) as Ht
        by (apply starts_with_spec; by exists u). congruence.
  - rewrite bool_decide_eq_false_2 by done. split; [done|]. naive_solver.
Qed.

(** Translation is the reference: a UNC prefix becomes two backslashes;
    otherwise the longest device prefix of the pairs (trailing separators
    ignored) that matches the path up to ASCII case and ends at a separator is
    replaced by its drive, the first pair winning a tie, whatever the order the
    pairs were given in; otherwise the path is returned as it is. *)
Theorem translate_longest_prefix (pairs : list (string * string)) (path : string) :
  translate (from_pairs pairs) path =
    match translate_unc path UNC_PREFIXES with
    | Some r => r
    | None => match longest_match path (cleaned pairs) with
              | Some (_, r) => r
              | None => path
              end
    end.
Proof.
  unfold translate, from_pairs. destruct (translate_unc path UNC_PREFIXES); [done|].
  rewrite first_match_translate, first_match_sorted.
  by destruct (longest_match path (cleaned pairs)) as [[n r]|].
Qed.

Lemma longest_match_some path l n r :
  longest_match path l = Some (n, r) →
  ∃ e, e ∈ l ∧ String.length e.1 = n ∧ entry_match path e = Some r.
Proof.
  revert n r; induction l as [|e l IH]; intros n r; cbn [longest_match]; [done|].
  destruct (entry_match path e) as [re|] eqn:Ee.
  - destruct (longest_match path l) as [[n' r']|].
    + case_decide; intros [= <- <-]; [set_solver|]. destruct (IH n' r') as (x & ? & ? & ?); [done|].
      set_solver.
    + intros [= <- <-]. set_solver.
  - intros H. destruct (IH n r H) as (x & ? & ? & ?). set_solver.
Qed.

Lemma longest_match_max path l n r e re :
  longest_match path l = Some (n, r) → e ∈ l → entry_match path e = Some re →
  String.length e.1 ≤ n.
Proof.
  revert n r; induction l as [|x l IH]; intros n r; cbn [longest_match]; [set_solver|].
  intros H Hin He. apply elem_of_cons in Hin as [->|Hin].
  - rewrite He in H. destruct (longest_match path l) as [[n' r']|]; [case_decide|]; simplify_eq; lia.
  - destruct (longest_match path l) as [[n' r']|] eqn:El.
    + specialize (IH n' r' eq_refl Hin He). destruct (entry_match path x); [case_decide|]; simplify_eq; lia.
    + exfalso. clear - El Hin He. induction l as [|y l IHl]; [set_solver|].
      cbn [longest_match] in El. apply elem_of_cons in Hin as [->|Hin].
      * rewrite He in El. by destruct (longest_match path l) as [[]|]; [case_decide|].
      * destruct (entry_match path y); [by destruct (longest_match path l) as [[]|]; [case_decide|]|].
        auto.
Qed.

(** Only the device prefix is rewritten, and only the longest: when no UNC
    prefix applies, the result is the path itself or a drive followed by the
    untouched rest of the path, taken from an entry no other applicable entry
    is longer than, the rest empty or starting at a separator (so
    [\Device\HarddiskVolume1] never captures [\Device\HarddiskVolume10]). *)
Theorem translate_rewrites_prefix_only (pairs : list (string * string)) (path : string) :
  translate_unc path UNC_PREFIXES = None →
  translate (from_pairs pairs) path = path ∨
  ∃ device drive head rest,
    (device, drive) ∈ cleaned pairs ∧ path = head +:+ rest ∧
    lowercase head = lowercase device ∧ (rest = "" ∨ ∃ t, rest = String backslash t) ∧
    translate (from_pairs pairs) path = drive +:+ rest ∧
    ∀ e r, e ∈ cleaned pairs → entry_match path e = Some r → String.length e.1 ≤ String.length device.
Proof.
  intros Hunc. unfold translate, from_pairs. rewrite Hunc, first_match_translate, first_match_sorted.
  destruct (longest_match path (cleaned pairs)) as [[n r]|] eqn:E; [|by left].
  right. destruct (longest_match_some _ _ _ _ E) as ([device drive] & Hin & Hlen & Hm).
  apply entry_match_spec in Hm as (head & rest & Hs & Hc & Hr & ->).
  apply split_at_spec in Hs as [-> _]. exists device, drive, head, rest.
  split_and!; try done. intros e re He Hre. simpl in Hlen. rewrite Hlen.
  by eapply longest_match_max.
Qed.

Lemma translate_rewrites_prefix_only_witness :
  let pairs := [("\Device\HarddiskVolume1", "D:"); ("\Device\HarddiskVolume10\", "E:")] in
  translate (from_pairs pairs) "\device\harddiskvolume10\x.exe" = "E:\x.exe" ∧
  (translate (from_pairs pairs) "\device\harddiskvolume10\x.exe" = "\device\harddiskvolume10\x.exe"
   ∨ ∃ device drive head rest,
       (device, drive) ∈ cleaned pairs ∧ "\device\harddiskvolume10\x.exe" = head +:+ rest ∧
       lowercase head = lowercase device).
Proof.
  intros pairs. split; [vm_compute; reflexivity|].
  destruct (translate_rewrites_prefix_only pairs "\device\harddiskvolume10\x.exe"
              ltac:(vm_compute; reflexivity)) as [H|(d & v & h & r & H1 & H2 & H3 & _)];
    [by left|right]. exists d, v, h, r. split_and!; assumption.
Defined.

(** An unresolved device prefix is logged once: over any sequence of notes
    from an empty log, no prefix is logged twice. *)
Fixpoint logged (seen : gset string) (l : list (string * string)) : list string :=
  match l with
  | [] => []
  | (o, r) :: l' =>
      let '(b, seen') := note seen o r in
      if b then device_prefix o :: logged seen' l' else logged seen' l'
  end.

Lemma logged_fresh seen l : NoDup (logged seen l) ∧ ∀ p, p ∈ logged seen l → p ∉ seen.
Proof.
  revert seen; induction l as [|[o r] l IH]; intros seen; cbn [logged]; [split; [constructor|set_solver]|].
  unfold note. destruct (_ || _); [apply IH|]. case_decide; [apply IH|].
  destruct (IH ({[device_prefix o]} ∪ seen)) as [H1 H2]. split.
  - constructor; [|done]. intros Hin. apply H2 in Hin. set_solver.
  - intros p [->|Hp]%elem_of_cons; [done|]. apply H2 in Hp. set_solver.
Qed.

Example unc_translated : translate [] "\Device\Mup\server\share\x" = "\\server\share\x".
Proof. reflexivity. Qed.

Example basename_verbatim : translate (from_pairs [("\Device\HarddiskVolume3", "C:")]) "cmd.exe" = "cmd.exe".
Proof. reflexivity. Qed.

Example device_prefix_of : device_prefix "\Device\HarddiskVolume9\a\b" = "\Device\HarddiskVolume9".
Proof. reflexivity. Qed.
