(* ===== verification/Emit.v ===== *)
(** * Rendering events to the CGES wire shape ([cges/emit.rs], [etw/uid.rs])

    Each captured event is rendered once, when its batch is formed, to one of
    three shapes. [Json] is the value serde makes of a rendered event: the
    members of the derive, in declaration order, those with
    [skip_serializing_if] absent when empty. *)

From S2P Require Import Prelude IpAddr Types Ring Dispatch Logon Paths.
Open Scope Z_scope.

(** ** [process.uid] *)

Definition format_process_uid (agent_id : string) (pid created_time_nanos : Z) : string :=
  agent_id +:+ ":" +:+ dec pid +:+ ":" +:+ dec created_time_nanos.

(** ** Wire shapes *)

Record CgesProcess := {
  cp_pid : Z;
  cp_uid : string;
  cp_name : string;
  cp_created_time : option string;
  cp_exit_code : option Z;
  cp_parent_pid : option Z;
  cp_command_line : string;
  cp_subject_user_sid : string;
  cp_image_file_name : string;
}.

Record CgesProcessActivity := {
  pa_event_id : string;
  pa_class_uid : Z;
  pa_activity_id : ActivityId;
  pa_process : CgesProcess;
  pa_time : string;
}.

Definition CGES_PROCESS_ACTIVITY_CLASS_UID : Z := 1007.

Record CgesNetworkEndpoint := { ep_ip : string; ep_port : Z }.
Record CgesConnectionInfo := { ci_protocol_name : string; ci_direction : Direction }.
Record CgesActorProcess := { ap_pid : Z; ap_uid : option string }.
Record CgesActor := { actor_process : CgesActorProcess }.

Record CgesNetworkActivity := {
  na_event_id : string;
  na_class_uid : Z;
  na_activity_id : Z;
  na_time : string;
  na_src_endpoint : CgesNetworkEndpoint;
  na_dst_endpoint : CgesNetworkEndpoint;
  na_connection_info : CgesConnectionInfo;
  na_actor : CgesActor;
}.

Definition CGES_NETWORK_ACTIVITY_CLASS_UID : Z := 4001.
Definition NETWORK_ACTIVITY_OPEN : Z := 1.

Record CgesLogonUser := { lu_uid : string; lu_name : string; lu_domain : string }.
Record CgesLogonSource := { cls_ip : string; cls_hostname : option string }.

Record CgesAuthentication := {
  au_event_id : string;
  au_class_uid : Z;
  au_category_uid : Z;
  au_activity_id : Z;
  au_time : string;
  au_status_id : Z;
  au_user : CgesLogonUser;
  au_logon_type_id : Z;
  au_auth_protocol : string;
  au_auth_protocol_id : Z;
  au_src_endpoint : option CgesLogonSource;
  au_status_code : option string;
  au_status_detail : option string;
  au_cg_elevated_token : option bool;
}.

Definition CGES_AUTHENTICATION_CLASS_UID : Z := 3002.
Definition CGES_IAM_CATEGORY_UID : Z := 3.
Definition AUTHENTICATION_LOGON : Z := 1.

Inductive CgesEvent :=
| CgesProcessEvent (e : CgesProcessActivity)
| CgesNetworkEvent (e : CgesNetworkActivity)
| CgesAuthenticationEvent (e : CgesAuthentication).

(** ** Rendering *)

Definition render_authentication (event : LogonEvent) : CgesAuthentication :=
  let failure := bool_decide (le_status event = Failure) in
  {| au_event_id := le_event_id event;
     au_class_uid := CGES_AUTHENTICATION_CLASS_UID;
     au_category_uid := CGES_IAM_CATEGORY_UID;
     au_activity_id := AUTHENTICATION_LOGON;
     au_time := dec (le_timestamp_nanos event);
     au_status_id := if failure then 2 else 1;
     au_user := {| lu_uid := le_user_uid event; lu_name := le_user_name event;
                   lu_domain := le_user_domain event |};
     au_logon_type_id := le_logon_type_id event;
     au_auth_protocol := le_auth_protocol event;
     au_auth_protocol_id := le_auth_protocol_id event;
     au_src_endpoint :=
       (λ src, {| cls_ip := show_ip (ls_ip src); cls_hostname := ls_hostname src |}) <$> le_src event;
     au_status_code := if failure then Some (hex_code (default 0 (le_status_code event))) else None;
     au_status_detail := if failure then Some (hex_code (default 0 (le_status_detail event))) else None;
     au_cg_elevated_token := if failure then None else le_elevated_token event |}.

Definition render_network_activity (event : NetworkEvent) (agent_id : string)
  : CgesNetworkActivity :=
  {| na_event_id := ne_event_id event;
     na_class_uid := CGES_NETWORK_ACTIVITY_CLASS_UID;
     na_activity_id := NETWORK_ACTIVITY_OPEN;
     na_time := dec (ne_etw_timestamp_nanos event);
     na_src_endpoint := {| ep_ip := show_ip (ip (ne_src event)); ep_port := IpAddr.port (ne_src event) |};
     na_dst_endpoint := {| ep_ip := show_ip (ip (ne_dst event)); ep_port := IpAddr.port (ne_dst event) |};
     na_connection_info := {| ci_protocol_name := "tcp"; ci_direction := ne_direction event |};
     na_actor := {| actor_process :=
       {| ap_pid := ne_pid event;
          ap_uid := format_process_uid agent_id (ne_pid event) <$> ne_created_time_nanos event |} |} |}.

Definition is_separator (a : Ascii.ascii) : bool :=
  bool_decide (a = backslash) || bool_decide (a = slash).

(** [rsplit(['\\', '/']).next()]: what follows the last separator. *)
Fixpoint last_segment (cur : string) (s : string) : string :=
  match s with
  | EmptyString => cur
  | String a s' => if is_separator a then last_segment s' s' else last_segment cur s'
  end.
Definition derive_process_name (image_file_name : string) : string :=
  last_segment image_file_name image_file_name.

Definition build (event : CapturedEvent) (cached_created_time : option Z)
    (image_file_name : string) (agent_id : string) : CgesProcessActivity :=
  let parent_pid := if ce_parent_pid event =? 0 then None else Some (ce_parent_pid event) in
  let process_name := derive_process_name image_file_name in
  let uid_nanos := default (ce_etw_timestamp_nanos event) cached_created_time in
  let process_uid := format_process_uid agent_id (ce_pid event) uid_nanos in
  {| pa_event_id := ce_event_id event;
     pa_class_uid := CGES_PROCESS_ACTIVITY_CLASS_UID;
     pa_activity_id := ce_activity_id event;
     pa_time := dec (ce_etw_timestamp_nanos event);
     pa_process :=
       {| cp_pid := ce_pid event;
          cp_uid := process_uid;
          cp_name := process_name;
          cp_created_time := dec <$> cached_created_time;
          cp_exit_code := ce_exit_status event;
          cp_parent_pid := parent_pid;
          cp_command_line := ce_command_line event;
          cp_subject_user_sid := ce_subject_user_sid event;
          cp_image_file_name := image_file_name |} |}.

Definition render_process_activity (event : CapturedEvent) (agent_id : string)
    (paths : DevicePathMap) : CgesProcessActivity :=
  build event (ce_created_time_nanos event) (translate paths (ce_image_file_name event)) agent_id.

Definition emit_process_activity (event : CapturedEvent) (agent_id : string) : CgesProcessActivity :=
  render_process_activity event agent_id empty_map.

Definition emit_process_activity_with_cache (event : CapturedEvent)
    (cached_created_time : option Z) (agent_id : string) : CgesProcessActivity :=
  build event cached_created_time (translate empty_map (ce_image_file_name event)) agent_id.

(** ** Serialization *)

Inductive Json :=
| JNull
| JBool (b : bool)
| JNumber (n : Z)
| JString (s : string)
| JArray (l : list Json)
| JObject (members : list (string * Json)).

(** A member always written, [null] when it has no value. *)
Definition member_or_null {A} (k : string) (f : A → Json) (o : option A) : list (string * Json) :=
  [(k, match o with Some a => f a | None => JNull end)].
(** [skip_serializing_if = Option::is_none]. *)
Definition member_if_some {A} (k : string) (f : A → Json) (o : option A) : list (string * Json) :=
  match o with Some a => [(k, f a)] | None => [] end.

Definition process_to_json (p : CgesProcess) : Json :=
  JObject ([("pid", JNumber (cp_pid p)); ("uid", JString (cp_uid p)); ("name", JString (cp_name p))]
    ++ member_or_null "created_time" JString (cp_created_time p)
    ++ member_if_some "exit_code" JNumber (cp_exit_code p)
    ++ member_or_null "parent_pid" JNumber (cp_parent_pid p)
    ++ [("command_line", JString (cp_command_line p));
        ("subject_user_sid", JString (cp_subject_user_sid p));
        ("image_file_name", JString (cp_image_file_name p))]).

Definition process_activity_to_json (a : CgesProcessActivity) : Json :=
  JObject [("event_id", JString (pa_event_id a)); ("class_uid", JNumber (pa_class_uid a));
           ("activity_id", JNumber (activity_to_u64 (pa_activity_id a)));
           ("process", process_to_json (pa_process a)); ("time", JString (pa_time a))].

Definition direction_to_json (d : Direction) : Json :=
  JString (match d with Outbound => "outbound" | Inbound => "inbound" end).

Definition endpoint_to_json (e : CgesNetworkEndpoint) : Json :=
  JObject [("ip", JString (ep_ip e)); ("port", JNumber (ep_port e))].

Definition network_activity_to_json (a : CgesNetworkActivity) : Json :=
  let p := actor_process (na_actor a) in
  JObject [("event_id", JString (na_event_id a)); ("class_uid", JNumber (na_class_uid a));
           ("activity_id", JNumber (na_activity_id a)); ("time", JString (na_time a));
           ("src_endpoint", endpoint_to_json (na_src_endpoint a));
           ("dst_endpoint", endpoint_to_json (na_dst_endpoint a));
           ("connection_info",
             JObject [("protocol_name", JString (ci_protocol_name (na_connection_info a)));
                      ("direction", direction_to_json (ci_direction (na_connection_info a)))]);
           ("actor", JObject [("process",
             JObject ([("pid", JNumber (ap_pid p))] ++ member_if_some "uid" JString (ap_uid p)))])].

Definition authentication_to_json (a : CgesAuthentication) : Json :=
  JObject ([("event_id", JString (au_event_id a)); ("class_uid", JNumber (au_class_uid a));
            ("category_uid", JNumber (au_category_uid a));
            ("activity_id", JNumber (au_activity_id a)); ("time", JString (au_time a));
            ("status_id", JNumber (au_status_id a));
            ("user", JObject [("uid", JString (lu_uid (au_user a)));
                              ("name", JString (lu_name (au_user a)));
                              ("domain", JString (lu_domain (au_user a)))]);
            ("logon_type_id", JNumber (au_logon_type_id a));
            ("auth_protocol", JString (au_auth_protocol a));
            ("auth_protocol_id", JNumber (au_auth_protocol_id a))]
    ++ member_if_some "src_endpoint" (λ s, JObject ([("ip", JString (cls_ip s))]
         ++ member_if_some "hostname" JString (cls_hostname s))) (au_src_endpoint a)
    ++ member_if_some "status_code" JString (au_status_code a)
    ++ member_if_some "status_detail" JString (au_status_detail a)
    ++ member_if_some "cg_elevated_token" JBool (au_cg_elevated_token a)).

(** Untagged: each variant is its own shape. *)
Definition event_to_json (e : CgesEvent) : Json :=
  match e with
  | CgesProcessEvent a => process_activity_to_json a
  | CgesNetworkEvent a => network_activity_to_json a
  | CgesAuthenticationEvent a => authentication_to_json a
  end.

Definition cges_event_id (e : CgesEvent) : string :=
  match e with
  | CgesProcessEvent a => pa_event_id a
  | CgesNetworkEvent a => na_event_id a
  | CgesAuthenticationEvent a => au_event_id a
  end.

(** ** Lemmas *)

(** What follows the last separator, characterised. *)
Lemma last_segment_spec s :
  (∃ p, s = p +:+ derive_process_name s ∧ (p = "" ∨ ∃ q a, p = q +:+ String a "" ∧ is_separator a = true)) ∧
  forallb_str (λ a, negb (is_separator a)) (derive_process_name s) = true.
Proof.
  unfold derive_process_name.
  (* [pre] ends at the last separator seen, [mid] has none, and [mid ++ s] is [cur]. *)
  assert (∀ s pre mid,
    (pre = "" ∨ ∃ q a, pre = q +:+ String a "" ∧ is_separator a = true) →
    forallb_str (λ a, negb (is_separator a)) mid = true →
    (∃ p, pre +:+ mid +:+ s = p +:+ last_segment (mid +:+ s) s ∧
       (p = "" ∨ ∃ q a, p = q +:+ String a "" ∧ is_separator a = true)) ∧
    forallb_str (λ a, negb (is_separator a)) (last_segment (mid +:+ s) s) = true) as H.
  { clear. intros s. induction s as [|a s IH]; intros pre mid Hpre Hmid; cbn [last_segment].
    - rewrite app_str_nil_r. split; [by exists pre|done].
    - destruct (is_separator a) eqn:Ea.
      + destruct (IH (pre +:+ mid +:+ String a "") "") as [(p & Hp & Hq) Hl]; [|done|].
        { right. exists (pre +:+ mid), a. by rewrite app_str_assoc. }
        change ("" +:+ s) with s in *. split; [|done]. exists p. split; [|done].
        rewrite <- Hp, !app_str_assoc. done.
      + destruct (IH pre (mid +:+ String a "") Hpre) as [(p & Hp & Hq) Hl].
        { rewrite forallb_str_app, Hmid; simpl. by rewrite Ea. }
        rewrite app_str_assoc in *. split; [exists p|]; done. }
  destruct (H s "" "" (or_introl eq_refl) eq_refl) as [H1 H2]. done.
Qed.

(** The process name on the wire is what follows the last separator of the
    rendered image path: it contains no separator, the path is a prefix that is
    empty or ends in a separator followed by the name, and it is empty exactly
    when the rendered path is empty or ends in a separator. *)
Theorem process_name_is_basename (event : CapturedEvent) (agent_id : string) (paths : DevicePathMap) :
  let p := pa_process (render_process_activity event agent_id paths) in
  (∃ dir, cp_image_file_name p = dir +:+ cp_name p ∧
     (dir = "" ∨ ∃ q a, dir = q +:+ String a "" ∧ is_separator a = true)) ∧
  forallb_str (λ a, negb (is_separator a)) (cp_name p) = true ∧
  (cp_name p = "" ↔ cp_image_file_name p = "" ∨
     ∃ q a, cp_image_file_name p = q +:+ String a "" ∧ is_separator a = true).
Proof.
  intros p. subst p. cbn. set (s := translate paths _).
  destruct (last_segment_spec s) as [(dir & Hs & Hd) Hn]. split_and!; [eauto|done|].
  split.
  - intros He. rewrite He, app_str_nil_r in Hs. subst dir. destruct Hd; auto.
  - intros [He|(q & a & He & Ha)].
    + rewrite He in *. done.
    + rewrite Hs in He. symmetry in He. apply app_last_char in He as [|[n' E]]; [done|].
      rewrite E, forallb_str_app in Hn. cbn [forallb_str] in Hn. rewrite Ha in Hn.
      by rewrite andb_false_r in Hn.
Qed.

(** The ring's filter does not keep every empty process name out: an image
    path that ends in a separator passes it and renders an empty name. *)
Theorem empty_process_name_reachable :
  ∃ (event : CapturedEvent),
    ring_len (enqueue_or_drop (new 8) 0 (Process event)) = 1%nat ∧
    cp_name (pa_process (render_process_activity event "agent" empty_map)) = "".
Proof. exists (sample_process 7 "\Device\HarddiskVolume3\"). split; reflexivity. Qed.

Lemma digit_not_colon : is_ascii_digit (Ascii.ascii_of_N 58) = false.
Proof. reflexivity. Qed.

(** One agent's process uids never collide: two uids of the same agent are
    equal only for the same PID and the same creation time. *)
Theorem process_uid_injective (agent_id : string) (pid t pid' t' : Z) :
  0 ≤ pid → 0 ≤ t → 0 ≤ pid' → 0 ≤ t' →
  format_process_uid agent_id pid t = format_process_uid agent_id pid' t' →
  pid = pid' ∧ t = t'.
Proof.
  intros Hp Ht Hp' Ht' H. unfold format_process_uid in H.
  apply app_str_inj_l, app_str_inj_l in H.
  apply (app_sep_inj is_ascii_digit) in H as [H1 H2]; auto using dec_digits, digit_not_colon.
  split; by apply dec_inj.
Qed.

Lemma process_uid_injective_witness :
  format_process_uid "a" 1 23 ≠ format_process_uid "a" 12 3.
Proof.
  intros H. destruct (process_uid_injective "a" 1 23 12 3) as [H1 _]; [lia..|exact H|]. lia.
Defined.

Lemma length_format_uid agent_id pid t :
  String.length (format_process_uid agent_id pid t) =
    (String.length agent_id + 2 + String.length (dec pid) + String.length (dec t))%nat.
Proof. unfold format_process_uid. rewrite !length_app_str. simpl. lia. Qed.

(** A uid is at most 68 characters for a 36-character agent id, and that
    length is reached: the bound of 67 the module states is exceeded by a
    10-digit PID with a 20-digit creation time. *)
Theorem process_uid_length_bound (agent_id : string) (pid t : Z) :
  in_u 32 pid → in_u 64 t →
  (String.length (format_process_uid agent_id pid t) ≤ String.length agent_id + 32)%nat ∧
  String.length (format_process_uid agent_id u32_max u64_max) = (String.length agent_id + 32)%nat.
Proof.
  unfold in_u. intros Hp Ht. rewrite !length_format_uid. split.
  - pose proof (dec_length 10 pid). pose proof (dec_length 20 t). lia.
  - change (String.length (dec u32_max)) with 10%nat. change (String.length (dec u64_max)) with 20%nat.
    lia.
Qed.

Lemma process_uid_length_bound_witness :
  in_u 32 4294967295 ∧
  String.length (format_process_uid "01934abc-def0-7000-89ab-0000000000bb" u32_max u64_max) = 68%nat.
Proof.
  split; [by vm_compute|].
  exact (proj2 (process_uid_length_bound "01934abc-def0-7000-89ab-0000000000bb" 0 0
                  ltac:(by vm_compute) ltac:(by vm_compute))).
Defined.

(** The uid of a rendered process event. *)
Definition uid_of (agent_id : string) (paths : DevicePathMap) (e : CapturedEvent) : string :=
  cp_uid (pa_process (render_process_activity e agent_id paths)).

(** Launch and Terminate of one process correlate: after any records in
    which the last Launch of [pid] without a Terminate behind it was at [t], a
    Terminate of [pid] is rendered with the uid that Launch was rendered with,
    and with its creation time. *)
Theorem launch_terminate_same_uid (raws : list (string * Instant * RawProcessRecord))
    (uuid uuid' : string) (now now' t t' : Z) (raw launch : RawProcessRecord) (cap : nat)
    (agent_id : string) (paths : DevicePathMap) :
  live_launch (rp_pid raw) None (raws.*2) = Some t →
  rp_activity_id raw = Terminate → filetime_to_unix_nanos (rp_filetime_100ns raw) = Some t' →
  rp_activity_id launch = Launch → rp_pid launch = rp_pid raw →
  filetime_to_unix_nanos (rp_filetime_100ns launch) = Some t →
  rp_image_file_name raw ≠ "" → rp_image_file_name launch ≠ "" →
  let '(c, r) := dispatch_all raws ∅ (new cap) in
  ∃ e_term e_launch,
    last (snapshot_events (dispatch_record uuid now raw c r).2) = Some (Process e_term) ∧
    last (snapshot_events (dispatch_record uuid' now' launch ∅ r).2) = Some (Process e_launch) ∧
    uid_of agent_id paths e_term = uid_of agent_id paths e_launch ∧
    cp_created_time (pa_process (render_process_activity e_term agent_id paths)) = Some (dec t).
Proof.
  intros Hlive Ha Ht La Lp Lt Hn Ln.
  pose proof (dispatch_all_cache raws ∅ (new cap) (rp_pid raw)) as Hc.
  destruct (dispatch_all raws ∅ (new cap)) as [c r]; simpl in Hc.
  rewrite lookup_empty, Hlive in Hc. unfold dispatch_record. rewrite Ht, Lt, Ha, La. simpl.
  rewrite Hc. do 2 eexists. split_and!.
  - apply enqueue_last. simpl. by destruct (rp_image_file_name raw).
  - apply enqueue_last. simpl. by destruct (rp_image_file_name launch).
  - unfold uid_of, render_process_activity, build; simpl. by rewrite Lp.
  - done.
Qed.

Lemma launch_terminate_same_uid_witness :
  let launch := sample_raw Launch 10 116444736000000005 in
  let raw := sample_raw Terminate 10 116444736000000009 in
  let '(c, r) := dispatch_all [("a", 1, launch); ("b", 2, sample_raw Launch 11 116444736000000006)]
                   ∅ (new 8) in
  ∃ e, last (snapshot_events (dispatch_record "d" 4 raw c r).2) = Some (Process e) ∧
       cp_created_time (pa_process (render_process_activity e "agent" empty_map)) = Some "500".
Proof.
  intros launch raw.
  pose proof (launch_terminate_same_uid
    [("a", 1, launch); ("b", 2, sample_raw Launch 11 116444736000000006)] "d" "a" 4 1 500 900
    raw launch 8 "agent" empty_map ltac:(vm_compute; reflexivity) ltac:(reflexivity)
    ltac:(vm_compute; reflexivity) ltac:(reflexivity) ltac:(reflexivity)
    ltac:(vm_compute; reflexivity) ltac:(discriminate) ltac:(discriminate)) as H.
  destruct (dispatch_all _ ∅ (new 8)) as [c r].
  destruct H as (e & _ & H1 & _ & _ & H2). exists e. split; [exact H1|]. exact H2.
Defined.
