(* ===== verification/Hygiene.v ===== *)
(** * Capture hygiene ([etw/hygiene.rs])

    Every 60 seconds the hygiene thread sweeps the cache, polls the session's
    [events_lost] counter and checks the network discards. The liveness probe
    and the counter come from Windows and are inputs. *)

From Stdlib Require Import Sorted.
From S2P Require Import Prelude IpAddr Types Ring Cache Network Dispatch.
Open Scope Z_scope.

Definition HYGIENE_INTERVAL : Z := seconds 60.

Inductive LostObservation :=
| Unchanged
| Increased (total delta : Z)
| Decreased (current previous : Z).

(** [EventsLostMonitor]: the previous poll. *)
Record EventsLostMonitor := { lost_previous : Z }.
Definition lost_new : EventsLostMonitor := {| lost_previous := 0 |}.

Definition lost_observe (m : EventsLostMonitor) (current : Z) : LostObservation * EventsLostMonitor :=
  let previous := lost_previous m in
  let m' := {| lost_previous := current |} in
  (if previous <? current then Increased current (current - previous)
   else if current <? previous then Decreased current previous
   else Unchanged, m').

Record DiscardMonitor := { discard_previous : Z }.
Definition discard_monitor_new : DiscardMonitor := {| discard_previous := 0 |}.

Definition discard_observe (m : DiscardMonitor) (d : NetworkDiscards) : Z * DiscardMonitor :=
  let total := discards_total d in
  (sat_sub total (discard_previous m), {| discard_previous := total |}).

(** One pass of the thread after a timeout: [events_lost] is [Err] when the
    query failed. [at_evict] is the cache when the sweep takes the lock again. *)
Definition hygiene_pass (is_alive : Z → bool) (at_snapshot at_evict : gmap Z Z)
    (events_lost : Result Z Z) (lost : EventsLostMonitor) (discarded : DiscardMonitor)
    (discards : NetworkDiscards)
  : gmap Z Z * EventsLostMonitor * DiscardMonitor :=
  let '(_, cache') := sweep_between is_alive at_snapshot at_evict in
  let lost' := match events_lost with
               | Ok current => (lost_observe lost current).2
               | Err _ => lost
               end in
  (cache', lost', (discard_observe discarded discards).2).

(** The observations of a sequence of polls. *)
Fixpoint lost_observations (m : EventsLostMonitor) (polls : list Z) : list LostObservation :=
  match polls with
  | [] => []
  | p :: polls' => let '(o, m') := lost_observe m p in o :: lost_observations m' polls'
  end.

Fixpoint lost_net (l : list LostObservation) : Z :=
  match l with
  | [] => 0
  | Increased _ d :: l' => d + lost_net l'
  | Decreased c p :: l' => c - p + lost_net l'
  | Unchanged :: l' => lost_net l'
  end.

(** The lost-events monitor reports every change and only changes: over any
    sequence of polls from zero, the reported increases less the reported
    decreases add up to the last poll, and while the counter only grows no
    decrease is reported and each increase is positive. *)
Theorem lost_monitor_accounts (polls : list Z) :
  lost_net (lost_observations lost_new polls) = default 0 (last polls) ∧
  (Sorted Z.le (0 :: polls) →
   ∀ o, o ∈ lost_observations lost_new polls →
     match o with Decreased _ _ => False | Increased _ d => 0 < d | Unchanged => True end).
Proof.
  assert (∀ m, lost_net (lost_observations m polls)
               = default (lost_previous m) (last polls) - lost_previous m ∧
    (Sorted Z.le (lost_previous m :: polls) →
     ∀ o, o ∈ lost_observations m polls →
       match o with Decreased _ _ => False | Increased _ d => 0 < d | Unchanged => True end)) as H.
  { induction polls as [|p polls IH]; intros m; cbn [lost_observations].
    { split; [simpl; lia|]. intros _ o Ho. by apply elem_of_nil in Ho. }
    unfold lost_observe. destruct (IH {| lost_previous := p |}) as [IH1 IH2]; simpl in *.
    assert (default p (last polls) = default (lost_previous m) (last (p :: polls))) as Hd
      by (by destruct polls; [|rewrite last_cons_cons; destruct (last (_ :: _)) eqn:E;
                               [|by apply last_None in E]]).
    rewrite Hd in IH1. split.
    - destruct (Z.ltb_spec (lost_previous m) p), (Z.ltb_spec p (lost_previous m)); simpl; lia.
    - intros Hs. inversion Hs as [|? ? Hs' Hh]; subst. inversion Hh; subst.
      intros o [->|Ho]%elem_of_cons; [|by apply IH2].
      destruct (Z.ltb_spec (lost_previous m) p), (Z.ltb_spec p (lost_previous m)); simpl; lia. }
  destruct (H lost_new) as [H1 H2]. simpl in *. split; [|done]. rewrite H1. lia.
Qed.
