(* ===== verification/Config.v ===== *)
(** * Agent configuration ([config.rs])

    The configuration record, its defaults and the validation that accepts or
    refuses a document. The TOML parser and the decoder serde derives are
    inputs: a document is given by the value the parser makes of it and the
    record the decoder makes of it. A [f64] is a [spec_float] of precision 53
    and exponent bound 1024, the IEEE 754 binary64 format. *)

From Stdlib Require Import Floats.SpecFloat.
From S2P Require Import Prelude IpAddr Types Errors.
Open Scope Z_scope.

(** ** [f64] *)

Definition f64 := spec_float.

(** [x as f64] of a [u64]: rounded to nearest, ties to even. *)
Definition f64_of_u64 (x : Z) : f64 := binary_normalize 53 1024 x 0 false.

Definition f64_mul (x y : f64) : f64 := SFmul 53 1024 x y.
Definition f64_lt (x y : f64) : bool := SFltb x y.
Definition f64_le (x y : f64) : bool := SFleb x y.

(** [x as u64]: toward zero, saturating, NaN to zero. *)
Definition u64_of_f64 (x : f64) : Z :=
  match x with
  | S754_zero _ | S754_nan => 0
  | S754_infinity s => if s then 0 else u64_max
  | S754_finite s m e =>
      if s then 0 else Z.min u64_max (if 0 <=? e then Zpos m * 2 ^ e else Zpos m / 2 ^ (- e))
  end.

(** ** The record and its defaults *)

Record HeartbeatConfig := {
  interval_seconds : Z;
  request_timeout_seconds : Z;
  max_retries : Z;
  backoff_initial_ms : Z;
  backoff_factor : f64;
  backoff_max_ms : Z;
}.

Record ServerConfig := {
  url : string;
  trust_anchor_path : option string;
  heartbeat_url : option string;
}.

Record AgentIdentity := { id : string; hostname : string }.
Record LogConfig := { level : string }.

Record EnrollmentConfig := {
  token : option string;
  cert_path : string;
  key_path : string;
  identity_path : string;
  timeout_seconds : Z;
  enroll_max_retries : Z;
  enroll_backoff_initial_ms : Z;
  enroll_backoff_factor : f64;
}.

Record TlsConfig := { minimum_version : string }.
Record EnvelopeConfig := { canonical_form : string }.

Record AgentConfig := {
  server : ServerConfig;
  agent : AgentIdentity;
  heartbeat : HeartbeatConfig;
  log : LogConfig;
  enrollment : option EnrollmentConfig;
  tls : option TlsConfig;
  envelope : option EnvelopeConfig;
}.

(** [impl Debug for EnrollmentConfig]: the fields written, the token's value
    replaced when there is one. *)
Inductive DebugField :=
| DebugText (s : string)
| DebugToken (t : option string)
| DebugNumber (n : Z)
| DebugFloat (x : f64).

Definition enrollment_debug (e : EnrollmentConfig) : list (string * DebugField) :=
  [("token", DebugToken ((λ _, "<redacted>") <$> token e));
   ("cert_path", DebugText (cert_path e));
   ("key_path", DebugText (key_path e));
   ("identity_path", DebugText (identity_path e));
   ("timeout_seconds", DebugNumber (timeout_seconds e));
   ("max_retries", DebugNumber (enroll_max_retries e));
   ("backoff_initial_ms", DebugNumber (enroll_backoff_initial_ms e));
   ("backoff_factor", DebugFloat (enroll_backoff_factor e))].

Definition f64_one : f64 := f64_of_u64 1.
Definition default_backoff_factor : f64 := f64_of_u64 2.

Definition heartbeat_default : HeartbeatConfig :=
  {| interval_seconds := 30; request_timeout_seconds := 10; max_retries := 3;
     backoff_initial_ms := 1000; backoff_factor := default_backoff_factor;
     backoff_max_ms := 60000 |}.

Definition log_default : LogConfig := {| level := "info" |}.
Definition tls_default : TlsConfig := {| minimum_version := "1.3" |}.
Definition envelope_default : EnvelopeConfig := {| canonical_form := "JCS" |}.
Definition default_enrollment_timeout_seconds : Z := 30.
Definition default_enrollment_max_retries : Z := 3.
Definition default_enrollment_backoff_initial_ms : Z := 1000.
Definition default_enrollment_backoff_factor : f64 := f64_of_u64 2.

Definition heartbeat_target (s : ServerConfig) : string := default (url s) (heartbeat_url s).

(** ** UUIDv7 text *)

Definition lower_hex_char (a : Ascii.ascii) : bool := is_ascii_hexdigit a && negb (is_ascii_upper a).

Definition dash : Ascii.ascii := Ascii.ascii_of_N 45.

(** [zip] of the parts with their lengths. *)
Fixpoint parts_ok (parts : list string) (lengths : list nat) : bool :=
  match parts, lengths with
  | p :: ps, n :: ns =>
      if decide (String.length p = n) then
        if forallb_str lower_hex_char p then parts_ok ps ns else false
      else false
  | _, _ => true
  end.

(** [matches!(variant, '8' | '9' | 'a' | 'b')]. *)
Definition is_variant (a : Ascii.ascii) : bool :=
  bool_decide (ascii_N a = 56%N) || bool_decide (ascii_N a = 57%N) ||
  bool_decide (ascii_N a = 97%N) || bool_decide (ascii_N a = 98%N).

Definition is_uuidv7 (s : string) : bool :=
  let parts := split_on dash s in
  if negb (bool_decide (length parts = 5%nat)) then false
  else if negb (parts_ok parts [8; 4; 4; 4; 12]%nat) then false
  else if negb (starts_with "7" (default "" (parts !! 2%nat))) then false
  else match default "" (parts !! 3%nat) with
       | String variant _ => is_variant variant
       | EmptyString => false (* the length was verified *)
       end.

(** ** Validation *)

Inductive Toml :=
| TString (s : string)
| TInteger (n : Z)
| TFloat (x : f64)
| TBoolean (b : bool)
| TDatetime (s : string)
| TArray (l : list Toml)
| TTable (members : list (string * Toml)).

Fixpoint member (k : string) (l : list (string * Toml)) : option Toml :=
  match l with
  | [] => None
  | (k', v) :: l' => if decide (k = k') then Some v else member k l'
  end.

(** [value.get(key)]: a table's member, nothing for any other value. *)
Definition toml_get (k : string) (v : Toml) : option Toml :=
  match v with TTable l => member k l | _ => None end.

Definition as_str (v : Toml) : option string :=
  match v with TString s => Some s | _ => None end.

(** [table.key], as [raw.get(table).and_then(|t| t.get(key))]. *)
Definition toml_path (table key : string) (v : Toml) : option Toml :=
  match toml_get table v with Some t => toml_get key t | None => None end.

(** A required string: absent, not a string, or its value. *)
Definition required_str (table key : string) (v : Toml) : Result string ConfigError :=
  let? x := ok_or (toml_path table key v) (MissingKey (table +:+ "." +:+ key)) in
  ok_or (as_str x) (Invalid (table +:+ "." +:+ key +:+ " must be a string")).

(** A parser error: its text and the byte offset of its span. *)
Record TomlError := { toml_text : string; toml_span : option nat }.

Definition newline : Ascii.ascii := Ascii.ascii_of_N 10.

Fixpoint count_char (c : Ascii.ascii) (s : string) : nat :=
  match s with
  | EmptyString => 0
  | String a s' => (if decide (a = c) then 1 else 0) + count_char c s'
  end.

(** [chars().count()]: the bytes that start a character. *)
Fixpoint chars_count (s : string) : nat :=
  match s with
  | EmptyString => 0
  | String a s' => (if is_continuation a then 0 else 1) + chars_count s'
  end.

Definition parse_error (content : string) (error : TomlError) : ConfigError :=
  let position := (λ start,
    let before := default content (fst <$> split_at start content) in
    let line := (count_char newline before + 1)%nat in
    let column := (match last (split_on newline before) with
                   | Some l => chars_count l | None => 0 end + 1)%nat in
    (line, column)) <$> toml_span error in
  ConfigParse (toml_text error) position.

(** The checks on the raw value, in the code's order. *)
Definition check_required (raw : Toml) : Result unit ConfigError :=
  let? server_url := required_str "server" "url" raw in
  if negb (starts_with "http://" server_url || starts_with "https://" server_url)
  then Err (Invalid "server.url not a valid URL")
  else
    let? agent_id := required_str "agent" "id" raw in
    if negb (is_uuidv7 agent_id) then Err (Invalid "agent.id not a UUIDv7")
    else
      let? agent_hostname := required_str "agent" "hostname" raw in
      if is_empty agent_hostname then Err (Invalid "agent.hostname must be non-empty")
      else Ok tt.

Definition https (s : string) : bool := starts_with "https://" s.

(** [opt == Some(s)], and [is_some] and [is_none]. *)
Definition is_some {A} (o : option A) : bool := match o with Some _ => true | None => false end.

(** [if guard { return Err(error) }] before the rest. *)
Definition guard_err {A E} (guard : bool) (error : E) (k : Result A E) : Result A E :=
  if guard then Err error else k.

(** The checks on the decoded record, in the code's order. *)
Definition check_config (c : AgentConfig) : Result AgentConfig ConfigError :=
  let h := heartbeat c in
  let s := server c in
  guard_err ((interval_seconds h =? 0) || (request_timeout_seconds h =? 0)
             || (backoff_initial_ms h =? 0) || (backoff_max_ms h =? 0))
    (Invalid "heartbeat numeric fields must be > 0")
  (guard_err (f64_lt (backoff_factor h) f64_one)
    (Invalid "heartbeat.backoff_factor must be >= 1.0")
  (guard_err (is_some (enrollment c) && negb (https (url s)))
    (Invalid "server.url must use https when [enrollment] is set")
  (guard_err (is_some (enrollment c) && negb (is_some (trust_anchor_path s)))
    (MissingKey "server.trust_anchor_path")
  (guard_err (bool_decide (trust_anchor_path s = Some ""))
    (Invalid "server.trust_anchor_path must be non-empty")
  (guard_err (is_some (trust_anchor_path s) && negb (is_some (heartbeat_url s)) && negb (https (url s)))
    (Invalid "server.url must use https when server.trust_anchor_path is set and server.heartbeat_url is absent")
  (guard_err (is_some (trust_anchor_path s)
              && match tls c with Some t => negb (bool_decide (minimum_version t = "1.3")) | None => false end)
    (Invalid ("tls.minimum_version must be " +:+ String (Ascii.ascii_of_N 34) "1.3" +:+ String (Ascii.ascii_of_N 34) ""))
  (guard_err (is_some (trust_anchor_path s)
              && match envelope c with Some e => negb (bool_decide (canonical_form e = "JCS")) | None => false end)
    (Invalid ("envelope.canonical_form must be " +:+ String (Ascii.ascii_of_N 34) "JCS" +:+ String (Ascii.ascii_of_N 34) ""))
  (guard_err (match heartbeat_url s with Some hb => negb (https hb) | None => false end)
    (Invalid "server.heartbeat_url must use https")
  (Ok c))))))))).

Section Load.
(** The [toml] crate: the value of a document, and the record serde decodes. *)
Context (toml_value : string → Result Toml TomlError).
Context (toml_config : string → Result AgentConfig TomlError).

Definition load_from_str (content : string) : Result AgentConfig ConfigError :=
  let? raw := map_err (parse_error content) (toml_value content) in
  try? check_required raw in
  let? config := map_err (parse_error content) (toml_config content) in
  check_config config.

(** [file] is [None] when the path does not exist, else the read's result. *)
Definition load_from_path (path : string) (file : option (Result string string))
  : Result AgentConfig ConfigError :=
  match file with
  | None => Err (ConfigNotFound path)
  | Some r => let? content := map_err ConfigIo r in load_from_str content
  end.
End Load.

(** ** The textual pattern of a UUIDv7 *)

Definition is_dash (a : Ascii.ascii) : bool := bool_decide (a = dash).
Definition is_seven (a : Ascii.ascii) : bool := bool_decide (a = Ascii.ascii_of_N 55).

(** [xxxxxxxx-xxxx-7xxx-[89ab]xxx-xxxxxxxxxxxx] in lowercase hexadecimal. *)
Definition uuidv7_pattern : list (Ascii.ascii → bool) :=
  replicate 8 lower_hex_char ++ [is_dash] ++ replicate 4 lower_hex_char ++ [is_dash]
  ++ is_seven :: replicate 3 lower_hex_char ++ [is_dash]
  ++ is_variant :: replicate 3 lower_hex_char ++ [is_dash] ++ replicate 12 lower_hex_char.

Lemma hex_not_dash p :
  forallb_str lower_hex_char p = true →
  forallb_str (λ a, negb (bool_decide (a = dash))) p = true.
Proof.
  apply forallb_str_impl. intros a H. apply negb_true_iff, bool_decide_eq_false.
  by intros ->.
Qed.

Lemma is_seven_hex a : is_seven a = true → lower_hex_char a = true.
Proof. unfold is_seven. intros E%bool_decide_eq_true. by subst. Qed.

Lemma is_variant_hex a : is_variant a = true → lower_hex_char a = true.
Proof.
  unfold is_variant. intros H. unfold lower_hex_char, is_ascii_hexdigit, is_ascii_digit,
    is_lower_hex_letter, is_ascii_upper.
  repeat (apply orb_true_iff in H as [H|H]); apply bool_decide_eq_true in H; rewrite H; done.
Qed.

Lemma parts_ok_cons p n ps ns :
  parts_ok (p :: ps) (n :: ns) = true ↔
  String.length p = n ∧ forallb_str lower_hex_char p = true ∧ parts_ok ps ns = true.
Proof. cbn [parts_ok]. case_decide; [|naive_solver]. case_match; naive_solver. Qed.

Lemma parts_ok_five p1 p2 p3 p4 p5 :
  parts_ok [p1; p2; p3; p4; p5] [8; 4; 4; 4; 12]%nat = true ↔
  String.length p1 = 8%nat ∧ forallb_str lower_hex_char p1 = true ∧
  String.length p2 = 4%nat ∧ forallb_str lower_hex_char p2 = true ∧
  String.length p3 = 4%nat ∧ forallb_str lower_hex_char p3 = true ∧
  String.length p4 = 4%nat ∧ forallb_str lower_hex_char p4 = true ∧
  String.length p5 = 12%nat ∧ forallb_str lower_hex_char p5 = true.
Proof. rewrite !parts_ok_cons. naive_solver. Qed.

Lemma matches_one P s : matches [P] s = true ↔ ∃ a, s = String a "" ∧ P a = true.
Proof.
  destruct s as [|a [|b s]]; cbn [matches]; try (split; [done|naive_solver]).
  - rewrite andb_true_r. naive_solver.
  - rewrite andb_false_r. naive_solver.
Qed.

Lemma matches_cons P pat s :
  matches (P :: pat) s = true ↔ ∃ a t, s = String a t ∧ P a = true ∧ matches pat t = true.
Proof. destruct s; cbn [matches]; [naive_solver|]. rewrite andb_true_iff. naive_solver. Qed.

(** One part followed by a dash. *)
Lemma matches_part n pat s :
  matches (replicate n lower_hex_char ++ [is_dash] ++ pat) s = true ↔
  ∃ p t, s = p +:+ String dash t ∧ String.length p = n ∧ forallb_str lower_hex_char p = true ∧
         matches pat t = true.
Proof.
  rewrite matches_app. split.
  - intros (p & r & -> & Hp & Hr). apply matches_replicate in Hp as [Hn Hp].
    cbn [app] in Hr. apply matches_cons in Hr as (a & t & -> & Ha & Ht).
    apply bool_decide_eq_true in Ha as ->. by exists p, t.
  - intros (p & t & -> & Hn & Hp & Ht). exists p, (String dash t). split_and!; [done| |done].
    by apply matches_replicate.
Qed.

Lemma matches_part_first P n pat s :
  (∀ a, P a = true → lower_hex_char a = true) →
  matches (P :: replicate n lower_hex_char ++ [is_dash] ++ pat) s = true ↔
  ∃ a p t, s = String a p +:+ String dash t ∧ P a = true ∧ String.length p = n ∧
           forallb_str lower_hex_char (String a p) = true ∧ matches pat t = true.
Proof.
  intros HP. rewrite matches_cons. split.
  - intros (a & t & -> & Ha & Ht). apply matches_part in Ht as (p & u & -> & Hn & Hp & Hu).
    exists a, p, u. cbn [forallb_str]. by rewrite HP, Hp.
  - intros (a & p & t & -> & Ha & Hn & Hp & Ht). rewrite app_str_cons. exists a, (p +:+ String dash t).
    cbn [forallb_str] in Hp. apply andb_true_iff in Hp as [_ Hp].
    split_and!; try done. apply matches_part. by exists p, t.
Qed.

Lemma uuid_pattern_parts s :
  matches uuidv7_pattern s = true ↔
  ∃ p1 p2 a3 p3 a4 p4 p5,
    s = p1 +:+ String dash (p2 +:+ String dash (String a3 p3 +:+ String dash
          (String a4 p4 +:+ String dash p5))) ∧
    String.length p1 = 8%nat ∧ String.length p2 = 4%nat ∧ String.length p3 = 3%nat ∧
    String.length p4 = 3%nat ∧ String.length p5 = 12%nat ∧
    forallb_str lower_hex_char p1 = true ∧ forallb_str lower_hex_char p2 = true ∧
    forallb_str lower_hex_char (String a3 p3) = true ∧
    forallb_str lower_hex_char (String a4 p4) = true ∧
    forallb_str lower_hex_char p5 = true ∧ is_seven a3 = true ∧ is_variant a4 = true.
Proof.
  unfold uuidv7_pattern. rewrite matches_part. setoid_rewrite matches_part.
  setoid_rewrite (matches_part_first is_seven); [|exact is_seven_hex].
  setoid_rewrite (matches_part_first is_variant); [|exact is_variant_hex].
  setoid_rewrite matches_replicate. split.
  - intros (p1 & t1 & -> & ? & ? & p2 & t2 & -> & ? & ? & a3 & p3 & t3 & -> & ? & ? & ? &
            a4 & p4 & t4 & -> & ? & ? & ? & ? & ?).
    exists p1, p2, a3, p3, a4, p4, t4. split_and!; done.
  - intros (p1 & p2 & a3 & p3 & a4 & p4 & p5 & -> & H). destruct H as (? & ? & ? & ? & ? & ? & ? & ? & ? & ? & ? & ?).
    exists p1, (p2 +:+ String dash (String a3 p3 +:+ String dash (String a4 p4 +:+ String dash p5))).
    split_and!; try done. exists p2, (String a3 p3 +:+ String dash (String a4 p4 +:+ String dash p5)).
    split_and!; try done. exists a3, p3, (String a4 p4 +:+ String dash p5).
    split_and!; try done. exists a4, p4, p5. split_and!; done.
Qed.

(** The split-and-check test of a UUIDv7 is the positional pattern
    [xxxxxxxx-xxxx-7xxx-[89ab]xxx-xxxxxxxxxxxx] over lowercase hexadecimal
    digits, for every string. *)
Theorem is_uuidv7_pattern (s : string) : is_uuidv7 s = matches uuidv7_pattern s.
Proof.
  apply eq_true_iff_eq. rewrite uuid_pattern_parts. unfold is_uuidv7. split.
  - intros H. pose proof (join_split_on dash s) as Hj.
    destruct (bool_decide_reflect (length (split_on dash s) = 5%nat)) as [Hl|]; [|done].
    destruct (split_on dash s) as [|p1 [|p2 [|p3 [|p4 [|p5 [|? ?]]]]]]; try done. clear Hl.
    destruct (parts_ok _ _) eqn:Hp; [|done].
    apply parts_ok_five in Hp as (L1 & H1 & L2 & H2 & L3 & H3 & L4 & H4 & L5 & H5).
    cbn [negb lookup list_lookup] in H.
    destruct p3 as [|a3 p3]; [done|]. destruct p4 as [|a4 p4]; [done|].
    change (default "" (Some (String a3 p3))) with (String a3 p3) in H.
    change (default "" (Some (String a4 p4))) with (String a4 p4) in H.
    destruct (starts_with "7" (String a3 p3)) eqn:H7; [|done]. cbn [negb] in H.
    apply starts_with_spec in H7 as [t Ht]. rewrite app_str_cons in Ht.
    assert (is_seven a3 = true) by (by injection Ht as -> ->). clear t Ht.
    exists p1, p2, a3, p3, a4, p4, p5. cbn [String.length] in *.
    split; [by rewrite <- Hj|]. split_and!; done || lia.
  - intros (p1 & p2 & a3 & p3 & a4 & p4 & p5 & -> & H). destruct H as (? & ? & ? & ? & ? & ? & ? & ? & ? & ? & ? & ?).
    rewrite !split_on_app, split_on_plain by auto using hex_not_dash.
    rewrite bool_decide_eq_true_2 by done.
    rewrite (proj2 (parts_ok_five _ _ _ _ _)) by (simpl in *; split_and!; done || lia).
    cbn [negb lookup list_lookup].
    change (default "" (Some (String a3 p3))) with (String a3 p3).
    change (default "" (Some (String a4 p4))) with (String a4 p4).
    match goal with H : is_seven a3 = true |- _ => apply bool_decide_eq_true in H as -> end.
    done.
Qed.

Example uuid_accepted : is_uuidv7 "01934abc-def0-7000-89ab-0000000000bb" = true.
Proof. reflexivity. Qed.
Example uuid_v4_refused : is_uuidv7 "01934abc-def0-4000-89ab-0000000000bb" = false.
Proof. reflexivity. Qed.

(** ** What validation accepts *)

(** The rules the specifications give: SPEC-001 for the required keys and the heartbeat's
    numbers, SPEC-003 and SPEC-023 for the secure path and enrollment. Of SPEC-001's rule
    that [server.url] parses as a URL this has the scheme alone. *)
Record documented (c : AgentConfig) : Prop := {
  doc_scheme : starts_with "http://" (url (server c)) = true ∨ https (url (server c)) = true;
  doc_id : is_uuidv7 (id (agent c)) = true;
  doc_hostname : hostname (agent c) ≠ "";
  doc_numbers : interval_seconds (heartbeat c) ≠ 0 ∧ request_timeout_seconds (heartbeat c) ≠ 0 ∧
                max_retries (heartbeat c) ≠ 0 ∧
                backoff_initial_ms (heartbeat c) ≠ 0 ∧ backoff_max_ms (heartbeat c) ≠ 0;
  doc_factor : f64_le f64_one (backoff_factor (heartbeat c)) = true;
  doc_enrollment : enrollment c ≠ None →
    https (url (server c)) = true ∧ trust_anchor_path (server c) ≠ None;
  doc_anchor : trust_anchor_path (server c) ≠ Some "";
  doc_heartbeat_url : ∀ u, heartbeat_url (server c) = Some u → https u = true;
  doc_secure : trust_anchor_path (server c) ≠ None →
    https (heartbeat_target (server c)) = true ∧
    (∀ t, tls c = Some t → minimum_version t = "1.3") ∧
    (∀ e, envelope c = Some e → canonical_form e = "JCS");
}.

(** The configuration with the two values the checks do not see put right: no retries, and
    a backoff factor that is not a number. *)
Definition mended_heartbeat (h : HeartbeatConfig) : HeartbeatConfig :=
  {| interval_seconds := interval_seconds h; request_timeout_seconds := request_timeout_seconds h;
     max_retries := if max_retries h =? 0 then 1 else max_retries h;
     backoff_initial_ms := backoff_initial_ms h;
     backoff_factor := match backoff_factor h with S754_nan => f64_one | f => f end;
     backoff_max_ms := backoff_max_ms h |}.
Definition mended (c : AgentConfig) : AgentConfig :=
  {| server := server c; agent := agent c; heartbeat := mended_heartbeat (heartbeat c); log := log c;
     enrollment := enrollment c; tls := tls c; envelope := envelope c |}.

(** At least a positive number is not below it, but for NaN. *)
Lemma at_least_not_below m1 e1 f :
  SFleb (S754_finite false m1 e1) f = true ↔ SFltb f (S754_finite false m1 e1) = false ∧ f ≠ S754_nan.
Proof.
  unfold SFleb, SFltb. destruct f as [s|s| |s m e]; cbv beta iota delta [SFcompare].
  - split; [done|by intros [? _]].
  - destruct s; [split; [done|by intros [? _]]|done].
  - split; [done|by intros [_ ?]].
  - destruct s; [split; [done|by intros [? _]]|].
    assert (S754_finite false m e ≠ S754_nan) as Hn by done. rewrite (Z.compare_antisym e1 e).
    destruct (e1 ?= e); cbn [CompOpp]; [|tauto|split; [done|by intros [? _]]].
    change (Pos.compare_cont Eq) with Pos.compare. rewrite (Pos.compare_antisym m).
    destruct (m ?= m1)%positive; cbn [CompOpp]; [tauto|split; [done|by intros [? _]]|tauto].
Qed.

Lemma factor_at_least_one f : f64_le f64_one f = true ↔ f64_lt f f64_one = false ∧ f ≠ S754_nan.
Proof.
  unfold f64_le, f64_lt. replace f64_one with (S754_finite false 4503599627370496 (-52)) by (vm_compute; reflexivity).
  apply at_least_not_below.
Qed.

Lemma documented_mended c :
  documented c ↔ documented (mended c) ∧ max_retries (heartbeat c) ≠ 0 ∧ backoff_factor (heartbeat c) ≠ S754_nan.
Proof.
  split.
  - intros H. destruct (doc_numbers _ H) as (? & ? & Hr & ?). pose proof (doc_factor _ H) as Hf.
    assert (backoff_factor (heartbeat c) ≠ S754_nan) as Hn by (by apply factor_at_least_one).
    split_and!; [|done..]. constructor; cbn; try apply H.
    + rewrite (proj2 (Z.eqb_neq _ _) Hr). by apply H.
    + by destruct (backoff_factor (heartbeat c)).
  - intros (H & Hr & Hn). constructor; try apply H.
    + pose proof (doc_numbers _ H) as Hd. cbn in Hd. naive_solver.
    + pose proof (doc_factor _ H) as Hf. cbn in Hf. by destruct (backoff_factor (heartbeat c)).
Qed.

(** What the mended configuration keeps of the rules is what the checks see. *)
Lemma mended_factor c :
  f64_le f64_one (backoff_factor (heartbeat (mended c))) = true ↔ f64_lt (backoff_factor (heartbeat c)) f64_one = false.
Proof.
  rewrite factor_at_least_one. cbn. destruct (backoff_factor (heartbeat c)) as [s|s| |s m e]; try naive_solver.
Qed.

(** The decoder reads the three required strings from the keys checked. *)
Definition decodes_required (raw : Toml) (c : AgentConfig) : Prop :=
  toml_path "server" "url" raw = Some (TString (url (server c))) ∧
  toml_path "agent" "id" raw = Some (TString (id (agent c))) ∧
  toml_path "agent" "hostname" raw = Some (TString (hostname (agent c))).

Lemma guard_err_ok {A E} g (e : E) (k : Result A E) a :
  guard_err g e k = Ok a ↔ g = false ∧ k = Ok a.
Proof. unfold guard_err. destruct g; naive_solver. Qed.

Lemma check_required_ok raw c :
  decodes_required raw c →
  check_required raw = Ok tt ↔
    (starts_with "http://" (url (server c)) = true ∨ https (url (server c)) = true) ∧
    is_uuidv7 (id (agent c)) = true ∧ hostname (agent c) ≠ "".
Proof.
  intros (Hu & Hi & Hh). unfold check_required, required_str, https.
  rewrite Hu, Hi, Hh. cbn [ok_or as_str].
  destruct (starts_with "http://" _), (starts_with "https://" _); cbn [orb negb];
    (destruct (is_uuidv7 _); cbn [negb];
     [destruct (hostname (agent c)); cbn [is_empty]; naive_solver|naive_solver]).
Qed.

Lemma is_some_true {A} (o : option A) : is_some o = true ↔ o ≠ None.
Proof. destruct o; naive_solver. Qed.

Lemma andb_guard (a b : bool) : a && b = false ↔ (a = true → b = false).
Proof. destruct a, b; naive_solver. Qed.

Lemma option_guard {A} (P : A → bool) (o : option A) :
  match o with Some a => negb (P a) | None => false end = false ↔ ∀ a, o = Some a → P a = true.
Proof. destruct o as [a|]; rewrite ?negb_false_iff; naive_solver. Qed.

Lemma heartbeat_target_guard (s : ServerConfig) :
  (negb (is_some (heartbeat_url s)) = true → https (url s) = true) ↔
  (heartbeat_url s = None → https (url s) = true).
Proof. destruct (heartbeat_url s), (https (url s)); naive_solver. Qed.

Lemma heartbeat_target_https (s : ServerConfig) :
  (heartbeat_url s = None → https (url s) = true) ∧ (∀ u, heartbeat_url s = Some u → https u = true)
  ↔ https (heartbeat_target s) = true ∧ ∀ u, heartbeat_url s = Some u → https u = true.
Proof. unfold heartbeat_target. destruct (heartbeat_url s); naive_solver. Qed.

Lemma check_config_ok c c' :
  check_config c = Ok c' ↔
  c' = c ∧
  (interval_seconds (heartbeat c) ≠ 0 ∧ request_timeout_seconds (heartbeat c) ≠ 0 ∧
   backoff_initial_ms (heartbeat c) ≠ 0 ∧ backoff_max_ms (heartbeat c) ≠ 0) ∧
  f64_lt (backoff_factor (heartbeat c)) f64_one = false ∧
  (enrollment c ≠ None → https (url (server c)) = true ∧ trust_anchor_path (server c) ≠ None) ∧
  trust_anchor_path (server c) ≠ Some "" ∧
  (∀ u, heartbeat_url (server c) = Some u → https u = true) ∧
  (trust_anchor_path (server c) ≠ None →
    https (heartbeat_target (server c)) = true ∧
    (∀ t, tls c = Some t → minimum_version t = "1.3") ∧
    (∀ e, envelope c = Some e → canonical_form e = "JCS")).
Proof.
  unfold check_config.
  rewrite !guard_err_ok, !orb_false_iff, !Z.eqb_neq, bool_decide_eq_false, <- andb_assoc, !andb_guard,
    !negb_false_iff, !is_some_true, heartbeat_target_guard,
    (option_guard (λ t, bool_decide (minimum_version t = "1.3"))),
    (option_guard (λ e, bool_decide (canonical_form e = "JCS"))), (option_guard https).
  setoid_rewrite bool_decide_eq_true.
  split.
  - intros H. destruct_and? H. assert (c' = c) as -> by congruence. split_and!; auto.
    intros Ha. pose proof (proj1 (heartbeat_target_https (server c))). split_and!; tauto.
  - intros (-> & ? & ? & H3 & ? & ? & H6). split_and!; try tauto.
    intros Ha. apply heartbeat_target_https; tauto.
Qed.

Section LoadProperties.
Context (toml_value : string → Result Toml TomlError).
Context (toml_config : string → Result AgentConfig TomlError).

End LoadProperties.

Definition sample_config : AgentConfig :=
  {| server := {| url := "https://cg.example:8080"; trust_anchor_path := Some "ca.pem";
                  heartbeat_url := Some "https://cg.example:8443" |};
     agent := {| id := "01934abc-def0-7000-89ab-0000000000bb"; hostname := "PC" |};
     heartbeat := heartbeat_default; log := log_default; enrollment := None;
     tls := Some tls_default; envelope := None |}.

Definition sample_toml : Toml :=
  TTable [("server", TTable [("url", TString "https://cg.example:8080")]);
          ("agent", TTable [("id", TString "01934abc-def0-7000-89ab-0000000000bb");
                            ("hostname", TString "PC")])].


(** The check [backoff_factor < 1.0] lets NaN through, and no check looks at
    [max_retries]: a configuration with a NaN factor and zero retries is
    accepted, although the specification asks for a factor of at least 1.0 and
    positive numeric fields. *)
Theorem nan_backoff_factor_accepted :
  let h := {| interval_seconds := 30; request_timeout_seconds := 10; max_retries := 0;
              backoff_initial_ms := 1000; backoff_factor := S754_nan; backoff_max_ms := 60000 |} in
  let c := {| server := server sample_config; agent := agent sample_config; heartbeat := h;
              log := log_default; enrollment := None; tls := None; envelope := None |} in
  load_from_str (λ _, Ok sample_toml) (λ _, Ok c) "doc" = Ok c.
Proof. vm_compute. reflexivity. Qed.

(** A parse error's position is its line and the column in characters. *)
Example parse_error_position :
  parse_error ("a = 1" +:+ String newline "bc = ") {| toml_text := "t"; toml_span := Some 9%nat |}
  = ConfigParse "t" (Some (2, 4)%nat).
Proof. reflexivity. Qed.
