(* ===== verification/Signing.v ===== *)
(** * The heartbeat envelope and its signed outer envelope
    ([envelope.rs], [signing.rs], [canonical.rs], [crypto.rs])

    The envelope types with the JSON serde makes of them, and [seal_envelope]:
    the signed region is the canonical form of the envelope without its
    signature. The canonicalizer, base64url and Ed25519 come from crates: they
    are the operations of the class [WireCrypto]; the laws a receiver relies on
    are in [WireCryptoLaws]. *)

From S2P Require Import Prelude IpAddr Types Errors Ring Dispatch Logon Paths Emit.
Open Scope Z_scope.

Definition bytes := list Byte.byte.

(** ** The heartbeat envelope *)

Inductive HeartbeatStatus := Online | GoingOffline.

#[export] Instance HeartbeatStatus_eq_dec : EqDecision HeartbeatStatus.
Proof. solve_decision. Defined.

Record AgentBlock := {
  ab_agent_id : string;
  ab_agent_version : string;
  ab_agent_platform : string;
  ab_agent_hostname : string;
}.

Record HeartbeatEnvelope := {
  he_envelope_version : string;
  he_agent : AgentBlock;
  he_sequence_number : Z;
  he_sent_at : string;
  he_status : HeartbeatStatus;
  he_uptime_seconds : Z;
  he_events : list CgesEvent;
}.

Definition ENVELOPE_VERSION : string := "0.1.0".

(** [elapsed] is [start_time.elapsed()] in nanoseconds, [now_wall] the wall
    clock's RFC 3339 text with milliseconds. *)
Definition build_envelope (agent : AgentBlock) (sequence_number elapsed : Z) (now_wall : string)
    (status : HeartbeatStatus) : HeartbeatEnvelope :=
  {| he_envelope_version := ENVELOPE_VERSION; he_agent := agent;
     he_sequence_number := sequence_number; he_sent_at := now_wall; he_status := status;
     he_uptime_seconds := elapsed / seconds 1; he_events := [] |}.

(** [inner.events = events]. *)
Definition with_events (e : HeartbeatEnvelope) (events : list CgesEvent) : HeartbeatEnvelope :=
  {| he_envelope_version := he_envelope_version e; he_agent := he_agent e;
     he_sequence_number := he_sequence_number e; he_sent_at := he_sent_at e;
     he_status := he_status e; he_uptime_seconds := he_uptime_seconds e; he_events := events |}.

(** [rename_all = "snake_case"]. *)
Definition status_to_json (s : HeartbeatStatus) : Json :=
  JString (match s with Online => "online" | GoingOffline => "going_offline" end).

Definition agent_block_to_json (a : AgentBlock) : Json :=
  JObject [("agent_id", JString (ab_agent_id a)); ("agent_version", JString (ab_agent_version a));
           ("agent_platform", JString (ab_agent_platform a));
           ("agent_hostname", JString (ab_agent_hostname a))].

(** The [events] member is absent when there are none. *)
Definition heartbeat_to_json (e : HeartbeatEnvelope) : Json :=
  JObject ([("envelope_version", JString (he_envelope_version e));
            ("agent", agent_block_to_json (he_agent e));
            ("sequence_number", JNumber (he_sequence_number e));
            ("sent_at", JString (he_sent_at e));
            ("status", status_to_json (he_status e));
            ("uptime_seconds", JNumber (he_uptime_seconds e))]
    ++ match he_events e with
       | [] => []
       | events => [("events", JArray (event_to_json <$> events))]
       end).

(** ** The crates' operations *)

Class WireCrypto := {
  SigningKey : Type;
  PublicKey : Type;
  verifying_key : SigningKey → PublicKey;
  sign : SigningKey → bytes → bytes;
  (** [serde_jcs::to_vec]. *)
  jcs_to_vec : Json → Result bytes string;
  (** [serde_json::to_vec]. *)
  json_to_vec : Json → Result bytes string;
  (** [URL_SAFE_NO_PAD.encode]. *)
  b64url : bytes → string;
  sha256 : bytes → bytes;
}.

(** What a receiver of the envelope relies on. *)
Class WireCryptoLaws (W : WireCrypto) := {
  verify : PublicKey → bytes → bytes → bool;
  b64url_decode : string → option bytes;
  verify_sign : ∀ k m, verify (verifying_key k) m (sign k m) = true;
  b64url_roundtrip : ∀ b, b64url_decode (b64url b) = Some b;
}.

Section Signing.
Context {W : WireCrypto}.

(** ** Key material *)

Record AgentKeypair := { signing_key : SigningKey; public_key : PublicKey }.

(** [from_secret_bytes], from the signing key of the seed. *)
Definition keypair_of (k : SigningKey) : AgentKeypair :=
  {| signing_key := k; public_key := verifying_key k |}.

Definition byte_hex (b : Byte.byte) : string := hex_padded 2 (byte_Z b).

(** Two lowercase hexadecimal digits per byte of the digest. *)
Definition pubkey_fingerprint (key : bytes) : string :=
  foldl (λ out b, out +:+ byte_hex b) "" (sha256 key).

Definition canonical_bytes (value : Json) : Result bytes SigningError :=
  map_err Canonical (jcs_to_vec value).

(** ** The outer envelope *)

Record OuterEnvelope := {
  oe_outer_envelope_version : string;
  oe_agent_id : string;
  oe_sequence_number : Z;
  oe_nonce : string;
  oe_sent_at : string;
  oe_body : HeartbeatEnvelope;
  oe_signature : string;
}.

Definition OUTER_ENVELOPE_VERSION : string := "0.1.0".

Definition outer_to_json (e : OuterEnvelope) : Json :=
  JObject [("outer_envelope_version", JString (oe_outer_envelope_version e));
           ("agent_id", JString (oe_agent_id e));
           ("sequence_number", JNumber (oe_sequence_number e));
           ("nonce", JString (oe_nonce e)); ("sent_at", JString (oe_sent_at e));
           ("body", heartbeat_to_json (oe_body e)); ("signature", JString (oe_signature e))].

(** [obj.remove(key)] of an object, nothing for another value. *)
Definition remove_member (k : string) (v : Json) : Json :=
  match v with
  | JObject l => JObject (filter (λ m, m.1 ≠ k) l)
  | _ => v
  end.

Definition with_signature (e : OuterEnvelope) (s : string) : OuterEnvelope :=
  {| oe_outer_envelope_version := oe_outer_envelope_version e; oe_agent_id := oe_agent_id e;
     oe_sequence_number := oe_sequence_number e; oe_nonce := oe_nonce e;
     oe_sent_at := oe_sent_at e; oe_body := oe_body e; oe_signature := s |}.

(** [nonce] is the result of [getrandom] on sixteen bytes. *)
Definition seal_envelope (nonce : Result bytes string) (body : HeartbeatEnvelope)
    (agent_id : string) (keypair : AgentKeypair) (sent_at : string)
  : Result OuterEnvelope SigningError :=
  let? nonce_bytes := map_err (λ e, Sign ("nonce generation failed: " +:+ e)) nonce in
  let envelope :=
    {| oe_outer_envelope_version := OUTER_ENVELOPE_VERSION; oe_agent_id := agent_id;
       oe_sequence_number := he_sequence_number body; oe_nonce := b64url nonce_bytes;
       oe_sent_at := sent_at; oe_body := body; oe_signature := "" |} in
  let value := remove_member "signature" (outer_to_json envelope) in
  let? canonical := canonical_bytes value in
  Ok (with_signature envelope (b64url (sign (signing_key keypair) canonical))).

(** ** The receiver: canonicalize what arrived less its signature, verify. *)

Definition receiver_accepts {L : WireCryptoLaws W} (key : PublicKey) (e : OuterEnvelope) : bool :=
  match jcs_to_vec (remove_member "signature" (outer_to_json e)), b64url_decode (oe_signature e) with
  | Ok canonical, Some signature => verify key canonical signature
  | _, _ => false
  end.

(** The signed region does not depend on the signature. *)
Lemma signed_region_fixed e s :
  remove_member "signature" (outer_to_json (with_signature e s)) =
  remove_member "signature" (outer_to_json e).
Proof. reflexivity. Qed.

(** C37 A sealed envelope verifies and is about its body: whenever sealing
    returns an envelope, a receiver holding the agent's public key, which
    canonicalizes the envelope's record without its signature, accepts it (the
    record as it was sent: its JSON text and the parse are not between them); the
    body is the heartbeat verbatim, and the outer sequence number, agent id and
    send time are those given. *)
Theorem sealed_envelope_verifies {L : WireCryptoLaws W} (nonce : Result bytes string)
    (body : HeartbeatEnvelope) (agent_id : string) (k : SigningKey) (sent_at : string)
    (e : OuterEnvelope) :
  seal_envelope nonce body agent_id (keypair_of k) sent_at = Ok e →
  receiver_accepts (public_key (keypair_of k)) e = true ∧
  oe_body e = body ∧ oe_sequence_number e = he_sequence_number body ∧
  oe_agent_id e = agent_id ∧ oe_sent_at e = sent_at ∧
  ∃ n, nonce = Ok n ∧ oe_nonce e = b64url n.
Proof.
  unfold seal_envelope, canonical_bytes. destruct nonce as [n|]; cbn [map_err]; [|done].
  set (env := {| oe_signature := "" |}). set (v := remove_member _ _).
  destruct (jcs_to_vec v) as [c|] eqn:Hc; cbn [map_err]; [|done]. intros [= <-].
  split_and!; try done; [|by exists n].
  unfold receiver_accepts. rewrite signed_region_fixed. fold v. rewrite Hc. simpl.
  by rewrite b64url_roundtrip, verify_sign.
Qed.

End Signing.

(** A toy instance: it shows the laws can hold together. *)
Module ToyCrypto.
Definition toy_encode (b : bytes) : string := String.string_of_list_byte b.

Instance toy : WireCrypto := {|
  SigningKey := unit; PublicKey := unit; verifying_key := id;
  sign := λ _ m, m;
  jcs_to_vec := λ v, match v with JObject l => Ok (replicate (length l) Byte.x61) | _ => Err "no" end;
  json_to_vec := λ _, Ok [];
  b64url := toy_encode; sha256 := id |}.

#[refine] Instance toy_laws : WireCryptoLaws toy := {|
  verify := λ _ m s, bool_decide (m = s);
  b64url_decode := λ s, Some (String.list_byte_of_string s) |}.
Proof.
  - intros k m. by apply bool_decide_eq_true.
  - intros b. apply f_equal, String.list_byte_of_string_of_list_byte.
Defined.
End ToyCrypto.

Definition sample_block : AgentBlock :=
  {| ab_agent_id := "a"; ab_agent_version := "1.0.0"; ab_agent_platform := "windows";
     ab_agent_hostname := "PC" |}.

Lemma sealed_envelope_verifies_witness :
  let body := build_envelope sample_block 7 (seconds 61) "2026-01-01T00:00:00.000Z" Online in
  match seal_envelope (W := ToyCrypto.toy) (Ok [Byte.x01]) body "a" (keypair_of (W := ToyCrypto.toy) tt) "t" with
  | Ok e => receiver_accepts (W := ToyCrypto.toy) (L := ToyCrypto.toy_laws) tt e = true ∧ oe_sequence_number e = 7
  | Err _ => False
  end.
Proof.
  intros body.
  destruct (seal_envelope (W := ToyCrypto.toy) (Ok [Byte.x01]) body "a" (keypair_of (W := ToyCrypto.toy) tt) "t")
    as [e|] eqn:E; [|vm_compute in E; discriminate].
  destruct (sealed_envelope_verifies (W := ToyCrypto.toy) (L := ToyCrypto.toy_laws) (Ok [Byte.x01]) body "a" tt "t" e E)
    as (H1 & _ & H2 & _). split; [exact H1|exact H2].
Defined.

(** The wire of an envelope without events has no [events] member. *)
Example empty_events_absent :
  heartbeat_to_json (build_envelope sample_block 1 0 "t" GoingOffline) =
  JObject [("envelope_version", JString "0.1.0"); ("agent", agent_block_to_json sample_block);
           ("sequence_number", JNumber 1); ("sent_at", JString "t");
           ("status", JString "going_offline"); ("uptime_seconds", JNumber 0)].
Proof. reflexivity. Qed.
