(* ===== verification/Tls.v ===== *)
(** * The secure sender ([tls.rs])

    The target of the secure path, the classification of a failed handshake,
    and the HTTP exchange over the authenticated stream. Sockets, the TLS
    handshake and certificates belong to tokio and rustls: the result of each
    of their calls is an input. A buffer of bytes is a [string]. *)

From S2P Require Import Prelude IpAddr Types Errors.
Open Scope Z_scope.

(** ** Numbers and words of a text *)

Definition plus_sign : Ascii.ascii := Ascii.ascii_of_N 43.

(** The digits' value while it fits: [checked_mul] and [checked_add]. *)
Fixpoint parse_digits (max acc : Z) (s : string) : option Z :=
  match s with
  | EmptyString => Some acc
  | String a s' =>
      if is_ascii_digit a then
        let acc' := acc * 10 + (Z.of_N (ascii_N a) - 48) in
        if acc' <=? max then parse_digits max acc' s' else None
      else None
  end.

(** [s.parse::<uN>()] with the type's maximum: a sign may lead. *)
Definition parse_unsigned (max : Z) (s : string) : option Z :=
  match s with
  | EmptyString => None
  | String a s' =>
      if decide (a = plus_sign)
      then (if is_empty s' then None else parse_digits max 0 s')
      else parse_digits max 0 s
  end.

Definition u16_max : Z := 65535.

(** The width of the whitespace character a text starts with: ASCII, or the
    UTF-8 of U+0085, U+00A0, U+1680, U+2000..U+200A, U+2028, U+2029, U+202F,
    U+205F and U+3000. A byte that leads none of them starts no whitespace
    even where the text is not UTF-8, as a replacement character is none. *)
Definition ws_width (s : string) : option nat :=
  match s with
  | EmptyString => None
  | String a s' =>
      let n := ascii_N a in
      if bool_decide (9 ≤ n ≤ 13)%N || bool_decide (n = 32%N) then Some 1%nat
      else match s' with
      | String b s'' =>
          let m := ascii_N b in
          if bool_decide (n = 194%N) && (bool_decide (m = 133%N) || bool_decide (m = 160%N))
          then Some 2%nat
          else match s'' with
          | String c _ =>
              let k := ascii_N c in
              if (bool_decide (n = 225%N) && bool_decide (m = 154%N) && bool_decide (k = 128%N))
                 || (bool_decide (n = 226%N) && bool_decide (m = 128%N)
                     && (bool_decide (128 ≤ k ≤ 138)%N || bool_decide (k = 168%N)
                         || bool_decide (k = 169%N) || bool_decide (k = 175%N)))
                 || (bool_decide (n = 226%N) && bool_decide (m = 129%N) && bool_decide (k = 159%N))
                 || (bool_decide (n = 227%N) && bool_decide (m = 128%N) && bool_decide (k = 128%N))
              then Some 3%nat else None
          | EmptyString => None
          end
      | EmptyString => None
      end
  end.

Definition flush (cur : string) (rest : list string) : list string :=
  if is_empty cur then rest else cur :: rest.

(** [split_whitespace]: [skip] bytes of a whitespace character are left. *)
Fixpoint words (skip : nat) (cur : string) (s : string) : list string :=
  match s with
  | EmptyString => flush cur []
  | String a s' =>
      match skip with
      | S k => words k cur s'
      | O =>
          match ws_width s with
          | Some n => flush cur (words (n - 1) "" s')
          | None => words 0 (cur +:+ String a "") s'
          end
      end
  end.
Definition split_whitespace (s : string) : list string := words 0 "" s.

Definition carriage_return : Ascii.ascii := Ascii.ascii_of_N 13.
Definition line_feed : Ascii.ascii := Ascii.ascii_of_N 10.

(** [lines().next()]: what precedes the first line feed, less a carriage
    return in front of it, or the whole of a text without line feed; none for
    an empty text. *)
Definition first_line (s : string) : option string :=
  if is_empty s then None
  else match split_on line_feed s with
       | [] => None
       | [line] => Some line
       | line :: _ => Some (default line (strip_suffix (String carriage_return "") line))
       end.

Definition parse_status (buf : string) : option Z :=
  match first_line buf with
  | None => None
  | Some line =>
      match split_whitespace line with
      | _http :: part :: _ => parse_unsigned u16_max part
      | _ => None
      end
  end.

(** ** Results of a send *)

Inductive SendResult :=
| Status (s : Z)
| ServerCertFatal (m : string)
| ClientCertFatal (m : string)
| SendTransient (m : string).

Inductive ExchangeFail := ExRefused (m : string) | ExTransient (m : string).

(** ** The target *)

Record SecureSender := { host : string; sender_port : Z; timeout : Z }.

(** [rsplit_once(':')]. *)
Fixpoint rsplit_once (c : Ascii.ascii) (s : string) : option (string * string) :=
  match s with
  | EmptyString => None
  | String a s' =>
      match rsplit_once c s' with
      | Some (h, t) => Some (String a h, t)
      | None => if decide (a = c) then Some (EmptyString, s') else None
      end
  end.

Definition colon : Ascii.ascii := Ascii.ascii_of_N 58.

(** [server_name] is rustls's check of a host name. *)
Definition sender_new (server_name : string → Result unit string) (server_url : string) (timeout : Z)
  : Result SecureSender TlsError :=
  let? after := ok_or (strip_prefix "https://" server_url)
                  (ClientConfig ("secure path requires an https:// URL, got " +:+ server_url)) in
  let authority := default "" (head (split_on slash after)) in
  let '(host, port) :=
    match rsplit_once colon authority with
    | Some (h, p) => (h, default 443 (parse_unsigned u16_max p))
    | None => (authority, 443)
    end in
  try? map_err (λ e, ClientConfig ("invalid server name " +:+ host +:+ ": " +:+ e)) (server_name host) in
  Ok {| host := host; sender_port := port; timeout := timeout |}.

(** ** The handshake *)

Inductive AlertDescription :=
| AdAccessDenied | AdBadCertificate | AdCertificateExpired | AdCertificateRevoked
| AdCertificateUnknown | AdUnknownCA | AdCertificateRequired | AdUnsupportedCertificate
| AdOther (code : Z).

Inductive RustlsError :=
| InvalidCertificate (text : string)
| AlertReceived (a : AlertDescription) (text : string)
| RustlsOther (text : string).

Definition rustls_text (e : RustlsError) : string :=
  match e with InvalidCertificate t | AlertReceived _ t | RustlsOther t => t end.

(** An error object: a [rustls::Error], an [io::Error] with its text and what
    it carries, or another error; each with its [source]. *)
Inductive ErrorObj :=
| ErrRustls (e : RustlsError) (source : option ErrorObj)
| ErrIo (text : string) (inner : option ErrorObj) (source : option ErrorObj)
| ErrOther (text : string) (source : option ErrorObj).

(** [e.get_ref()] of the handshake's [io::Error], downcast. *)
Definition classify_handshake_error (text : string) (inner : option ErrorObj) : SendResult :=
  match inner with
  | Some (ErrRustls e _) =>
      match e with
      | InvalidCertificate _ => ServerCertFatal (rustls_text e)
      | AlertReceived (AdAccessDenied | AdBadCertificate | AdCertificateExpired
          | AdCertificateRevoked | AdCertificateUnknown | AdUnknownCA | AdCertificateRequired
          | AdUnsupportedCertificate) _ => ClientCertFatal (rustls_text e)
      | other => SendTransient (rustls_text other)
      end
  | _ => SendTransient text
  end.

(** The rustls error an error is, or that it carries through [io::Error]s. *)
Fixpoint rustls_error_in (e : ErrorObj) : option RustlsError :=
  match e with
  | ErrRustls r _ => Some r
  | ErrIo _ (Some inner) _ => rustls_error_in inner
  | _ => None
  end.

Definition error_source (e : ErrorObj) : option ErrorObj :=
  match e with ErrRustls _ s | ErrIo _ _ s | ErrOther _ s => s end.

(** Along the source chain. *)
Fixpoint untrusted_server_cert (e : ErrorObj) : option string :=
  let next s := match s with Some e' => untrusted_server_cert e' | None => None end in
  match rustls_error_in e with
  | Some (InvalidCertificate t) => Some t
  | _ => match e with ErrRustls _ s | ErrIo _ _ s | ErrOther _ s => next s end
  end.

(** ** The exchange *)

Fixpoint has_crlf (s : string) : bool :=
  match s with
  | String a (String b _ as s') =>
      (bool_decide (a = carriage_return) && bool_decide (b = line_feed)) || has_crlf s'
  | _ => false
  end.

(** [write_all] of the chunks in order, then [flush]: the first failure. *)
Fixpoint write_chunks (writes : list (Result unit string)) (flushed : Result unit string)
  : Result unit ExchangeFail :=
  match writes with
  | [] => map_err (λ e, ExTransient ("flush: " +:+ e)) flushed
  | w :: ws => try? map_err (λ e, ExTransient ("write: " +:+ e)) w in write_chunks ws flushed
  end.

(** The read loop over the stream's reads, an empty one its end. [None] while
    it waits for a read that has not come. *)
Fixpoint read_response (buf : string) (reads : list (Result string string))
  : option (Result string ExchangeFail) :=
  match reads with
  | [] => None
  | Ok chunk :: reads' =>
      if is_empty chunk then Some (Ok buf)
      else
        let buf' := buf +:+ chunk in
        if has_crlf buf' then Some (Ok buf') else read_response buf' reads'
  | Err e :: _ =>
      if is_empty buf
      then Some (Err (ExRefused ("server refused the authenticated session: " +:+ e)))
      else Some (Err (ExTransient ("read: " +:+ e)))
  end.

Definition crlf : string := String carriage_return (String line_feed "").

Definition request_head (path host : string) (body_len : nat) : string :=
  "POST " +:+ path +:+ " HTTP/1.1" +:+ crlf +:+ "Host: " +:+ host +:+ crlf
  +:+ "Content-Type: application/json" +:+ crlf
  +:+ "Content-Length: " +:+ dec (Z.of_nat body_len) +:+ crlf
  +:+ "Connection: close" +:+ crlf +:+ crlf.

(** What tokio's stream does during one exchange: the writes of the head and
    of the body, the flush, the reads. *)
Record StreamIo := {
  wrote_head : Result unit string;
  wrote_body : Result unit string;
  flushed : Result unit string;
  reads : list (Result string string);
}.

Definition exchange (io : StreamIo) : option (Result Z ExchangeFail) :=
  match write_chunks [wrote_head io; wrote_body io] (flushed io) with
  | Err f => Some (Err f)
  | Ok _ =>
      match read_response "" (reads io) with
      | None => None
      | Some (Err f) => Some (Err f)
      | Some (Ok buf) =>
          if is_empty buf
          then Some (Err (ExRefused
                 "server closed the authenticated connection without an HTTP response"))
          else match parse_status buf with
               | Some status => Some (Ok status)
               | None => Some (Err (ExTransient "incomplete HTTP response"))
               end
      end
  end.

Inductive Connect :=
| ConnectTimeout
| ConnectFailed (e : string)
| HandshakeFailed (text : string) (inner : option ErrorObj)
| Connected (io : StreamIo).

(** One send; [None] while the exchange waits. *)
Definition send (c : Connect) : option SendResult :=
  match c with
  | ConnectTimeout => Some (SendTransient "connect timed out")
  | ConnectFailed e => Some (SendTransient ("connect: " +:+ e))
  | HandshakeFailed text inner => Some (classify_handshake_error text inner)
  | Connected io =>
      match exchange io with
      | None => None
      | Some (Ok status) => Some (Status status)
      | Some (Err (ExRefused m)) => Some (ClientCertFatal m)
      | Some (Err (ExTransient m)) => Some (SendTransient m)
      end
  end.

(** ** Lemmas *)

Lemma parse_digits_dec max x s :
  0 ≤ Z.of_N x ≤ max → parse_digits max 0 (pretty_N_go x s) = parse_digits max (Z.of_N x) s.
Proof.
  revert s. induction (N.lt_wf_0 x) as [x _ IH]; intros s Hx.
  assert (x = 0 ∨ 0 < x)%N as [->|Hpos] by lia; [by rewrite pretty_N_go_0|].
  rewrite pretty_N_go_step by done.
  pose proof (N.Div0.div_lt_upper_bound x 10 x ltac:(lia)).
  pose proof (N.div_mod' x 10) as Hdm. pose proof (N.mod_lt x 10 ltac:(done)) as Hm.
  rewrite IH by lia. cbn [parse_digits].
  set (d := (x `mod` 10)%N) in *. clearbody d.
  assert (is_ascii_digit (pretty_N_char d) = true ∧
          Z.of_N (ascii_N (pretty_N_char d)) - 48 = Z.of_N d) as [-> ->].
  { clear - Hm. destruct d as [|p]; [done|].
    do 4 (destruct p as [p|p|]; try done; try lia). }
  rewrite (proj2 (Z.leb_le _ _)) by lia. f_equal. lia.
Qed.

Lemma parse_unsigned_dec max x : 0 ≤ x ≤ max → parse_unsigned max (dec x) = Some x.
Proof.
  intros Hx. destruct x as [|p|p]; [destruct max; done || lia| |lia].
  assert (parse_digits max 0 (dec (Zpos p)) = Some (Zpos p)) as H.
  { unfold dec, pretty, pretty_Z, pretty, pretty_positive, pretty, pretty_N.
    rewrite decide_False by done. by rewrite parse_digits_dec by (simpl; lia). }
  pose proof (dec_digits (Zpos p) ltac:(lia)) as Hd.
  unfold parse_unsigned. destruct (dec (Zpos p)) as [|a s]; [done|].
  rewrite decide_False; [done|]. intros ->. done.
Qed.

(** A visible ASCII character. *)
Definition is_graphic (a : Ascii.ascii) : bool := bool_decide (33 ≤ ascii_N a < 128)%N.

Lemma graphic_not_ws a s : is_graphic a = true → ws_width (String a s) = None.
Proof.
  unfold is_graphic, ws_width. intros H%bool_decide_eq_true.
  repeat (rewrite bool_decide_eq_false_2 by lia; cbn [orb andb]).
  destruct s as [|b [|c s]]; [done| |];
    repeat (rewrite (bool_decide_eq_false_2 (ascii_N a = _)) by lia; cbn [orb andb]); done.
Qed.

Lemma digits_graphic p : forallb_str is_ascii_digit p = true → forallb_str is_graphic p = true.
Proof.
  apply forallb_str_impl. unfold is_ascii_digit, is_graphic. intros a.
  rewrite !bool_decide_eq_true. lia.
Qed.

Lemma words_graphic p cur t :
  forallb_str is_graphic p = true → words 0 cur (p +:+ t) = words 0 (cur +:+ p) t.
Proof.
  revert cur; induction p as [|a p IH]; intros cur; cbn [forallb_str].
  { by rewrite app_str_nil_r. }
  intros [Ha Hp]%andb_true_iff. rewrite app_str_cons. cbn [words].
  rewrite graphic_not_ws, IH by done. by rewrite app_str_assoc.
Qed.

(** A word and the space behind it. *)
Lemma words_word p t :
  forallb_str is_graphic p = true → p ≠ "" →
  split_whitespace (p +:+ " " +:+ t) = p :: split_whitespace t.
Proof.
  intros Hp Hne. unfold split_whitespace. rewrite words_graphic by done.
  change (" " +:+ t) with (String (Ascii.ascii_of_N 32) t).
  change ("" +:+ p) with p. cbn [words].
  change (ws_width (String (Ascii.ascii_of_N 32) t)) with (Some 1%nat). cbn [Nat.sub].
  unfold flush. by destruct p.
Qed.

Lemma dec_nonempty x : 0 ≤ x → dec x ≠ "".
Proof.
  intros Hx E. assert (parse_unsigned x (dec x) = Some x) as H by (apply parse_unsigned_dec; lia).
  by rewrite E in H.
Qed.

Definition no_lf (s : string) : bool := forallb_str (λ a, negb (bool_decide (a = line_feed))) s.

(** Bytes already read keep a later failure transient. *)
Lemma read_response_refused buf l m :
  read_response buf l = Some (Err (ExRefused m)) → buf = "" ∧ ∃ e, head l = Some (Err e).
Proof.
  revert buf; induction l as [|[chunk|e] l IH]; intros buf; cbn [read_response]; [done| |].
  - destruct chunk as [|a chunk]; cbn [is_empty]; [done|]. case_match; [done|].
    intros [E _]%IH. by destruct buf.
  - destruct buf; cbn [is_empty]; [|done]. intros _. split; [done|]. by exists e.
Qed.

Lemma read_response_empty buf l :
  read_response buf l = Some (Ok "") → buf = "" ∧ head l = Some (Ok "").
Proof.
  revert buf; induction l as [|[chunk|e] l IH]; intros buf; cbn [read_response]; [done| |].
  - destruct chunk as [|a chunk]; cbn [is_empty].
    { by intros [= ->]. }
    case_match; [intros [= E]|intros [E _]%IH]; by destruct buf.
  - by destruct buf.
Qed.

Lemma exchange_refused io :
  (∃ m, exchange io = Some (Err (ExRefused m))) ↔
  wrote_head io = Ok tt ∧ wrote_body io = Ok tt ∧ flushed io = Ok tt ∧
  (head (reads io) = Some (Ok "") ∨ ∃ e, head (reads io) = Some (Err e)).
Proof.
  unfold exchange. cbn [write_chunks].
  destruct (wrote_head io) as [[]|], (wrote_body io) as [[]|], (flushed io) as [[]|];
    cbn [map_err]; try naive_solver.
  split.
  - intros [m H]. split_and!; try done.
    destruct (read_response "" (reads io)) as [[buf|f]|] eqn:E; [| |done].
    + destruct buf; cbn [is_empty] in H; [|by case_match]. left.
      by apply read_response_empty in E as [_ E].
    + simplify_eq. apply read_response_refused in E as [_ E]. by right.
  - intros (_ & _ & _ & [H|[e H]]); destruct (reads io) as [|r rs]; try done;
      injection H as ->; cbn; eauto.
Qed.

(** ** Properties *)

(** Every status line is read back: a response starting with the HTTP/1.1
    status line of any 16-bit code parses to that code, whatever reason phrase
    follows on the line and whatever bytes follow the line. *)
Theorem status_line_parsed (code : Z) (reason rest : string) :
  in_u 16 code → no_lf reason = true →
  parse_status ("HTTP/1.1 " +:+ dec code +:+ " " +:+ reason +:+ crlf +:+ rest) = Some code.
Proof.
  unfold in_u. intros Hc Hr. unfold parse_status, first_line.
  set (line := "HTTP/1.1 " +:+ dec code +:+ " " +:+ reason).
  assert (("HTTP/1.1 " +:+ dec code +:+ " " +:+ reason +:+ crlf +:+ rest)
          = (line +:+ String carriage_return "") +:+ String line_feed rest) as ->
    by (unfold line; by rewrite !app_str_assoc).
  rewrite split_on_app; cycle 1.
  { unfold line. rewrite !forallb_str_app. unfold no_lf in Hr. rewrite Hr. cbn [forallb_str].
    rewrite !andb_true_r. eapply forallb_str_impl; [|apply dec_digits; lia]. intros a Ha.
    apply negb_true_iff, bool_decide_eq_false. by intros ->. }
  replace (is_empty _) with false by done.
  destruct (split_on line_feed rest) as [|l ls] eqn:E; [by apply split_on_not_nil in E|].
  rewrite strip_suffix_refl. change (default _ (Some line)) with line. unfold line.
  change ("HTTP/1.1 " +:+ dec code +:+ " " +:+ reason)
    with ("HTTP/1.1" +:+ " " +:+ (dec code +:+ " " +:+ reason)).
  rewrite words_word, words_word by
    (auto using digits_graphic, dec_digits, dec_nonempty with lia || done).
  apply parse_unsigned_dec. unfold u16_max. lia.
Qed.

Lemma status_line_parsed_witness :
  parse_status ("HTTP/1.1 " +:+ dec 204 +:+ " " +:+ "No Content" +:+ crlf +:+ "Date: x") = Some 204.
Proof. apply status_line_parsed; [by vm_compute|reflexivity]. Defined.

(** C39 Which failures end the agent: a send is fatal for the client
    certificate exactly when the handshake failed with one of the eight
    certificate alerts, or the request was written and flushed and the stream
    then ended or failed before its first byte; it is fatal for the server
    certificate exactly when the handshake failed with an invalid certificate.
    Every other failure, and any failure after a byte arrived, is transient. *)
Theorem send_fatal_exactly (c : Connect) :
  ((∃ m, send c = Some (ClientCertFatal m)) ↔
     (∃ text a t s, c = HandshakeFailed text (Some (ErrRustls (AlertReceived a t) s)) ∧
                    (∀ code, a ≠ AdOther code)) ∨
     (∃ io, c = Connected io ∧ wrote_head io = Ok tt ∧ wrote_body io = Ok tt ∧ flushed io = Ok tt ∧
            (head (reads io) = Some (Ok "") ∨ ∃ e, head (reads io) = Some (Err e)))) ∧
  ((∃ m, send c = Some (ServerCertFatal m)) ↔
     ∃ text t s, c = HandshakeFailed text (Some (ErrRustls (InvalidCertificate t) s))).
Proof.
  destruct c as [|e|text inner|io]; cbn [send];
    [split; naive_solver..| |].
  - split; (split; [intros [m H]|]).
    + destruct inner as [[[t|a t|t] s| |]|]; try done. left. exists text, a, t, s.
      split; [done|]. by destruct a.
    + intros [(text' & a & t & s & [= -> ->] & Ha)|(io & [=] & _)].
      exists t. destruct a; try done. by destruct (Ha code).
    + destruct inner as [[[t|a t|t] s| |]|]; try done; [eauto|by destruct a].
    + intros (text' & t & s & [= -> ->]). by exists t.
  - split; cycle 1.
    { split; [|naive_solver]. intros [m H]. by destruct (exchange io) as [[|[]]|]. }
    split.
    + intros [m H]. right. exists io. split; [done|]. apply exchange_refused.
      destruct (exchange io) as [[|[m'|]]|]; try done. by exists m'.
    + intros [(? & ? & ? & ? & [=] & _)|(io' & [= <-] & H)].
      apply exchange_refused in H as [m H]. exists m. by rewrite H.
Qed.

Example reset_before_any_byte_is_fatal :
  ∃ m, send (Connected {| wrote_head := Ok tt; wrote_body := Ok tt; flushed := Ok tt;
                          reads := [Err "reset"] |}) = Some (ClientCertFatal m).
Proof. eexists. reflexivity. Qed.

Example reset_after_a_byte_is_transient :
  send (Connected {| wrote_head := Ok tt; wrote_body := Ok tt; flushed := Ok tt;
                     reads := [Ok "H"; Err "reset"] |}) = Some (SendTransient "read: reset").
Proof. reflexivity. Qed.
