(* ===== verification/Delivery.v ===== *)
(** * The delivery loop ([delivery.rs])

    One POST is in flight at a time. An iteration of [run_until] is the
    function [iterate]: it reads the clock, forms a POST when one is due, makes
    one attempt and decides what becomes of the POST. Everything outside the
    loop is a [Round]: the instants read, what the capture threads enqueued
    before each time the loop takes the ring's lock, how the attempt ended, and
    whether the shutdown won a [select!]. The loop's effects run in a monad
    that threads [Delivery] and records each action; [PostSpec] is the abstract
    life cycle of a POST those actions follow. *)

From S2P Require Import Prelude IpAddr Types Errors Ring Dispatch Logon Paths Emit Config Signing Tls.
Open Scope Z_scope.

Definition MAX_BATCH_EVENTS : nat := 1024.
Definition MAX_BATCH_LATENCY : Z := millis 5000.
Definition POLL_INTERVAL : Z := millis 100.
Definition HEARTBEAT_PATH : string := "/v1/agents/heartbeat".

(** [Duration::MAX], where [saturating_mul] stops. *)
Definition DURATION_MAX : Z := seconds u64_max + 999999999.

Record Batch := { batch_sequence : Z; batch_events : list CgesEvent }.

Record Pending := {
  batch : Batch;
  transient_failures : Z;
  rejections : Z;
  backoff_ms : Z;
}.

Record Finished := { undelivered_count : nat; expired : bool }.

Inductive Attempt :=
| Delivered
| Transient (error : string)
| Rejected (status : Z).

(** The state the loop mutates. *)
Record Delivery := {
  ring : option EventRing;
  unresolved : UnresolvedPathLog;
  overflow : OverflowWarning;
  sequence : Z;
}.

Definition delivery_new (ring : option EventRing) : Delivery :=
  {| ring := ring; unresolved := ∅; overflow := overflow_new; sequence := 0 |}.

Definition set_ring (d : Delivery) (r : EventRing) : Delivery :=
  {| ring := Some r; unresolved := unresolved d; overflow := overflow d; sequence := sequence d |}.

(** ** Actions and the monad *)

Inductive Action :=
| OnRing (op : RingOp)
| Formed (b : Batch)
| Attempted (b : Batch) (a : Attempt)
| GaveUp (b : Batch)
| DroppedBatch (b : Batch) (status : Z)
| Backoff (ms : Z)
| Idle (wake : Instant).

Definition M (A : Type) : Type := Delivery → list Action * A * Delivery.

Definition ret {A} (a : A) : M A := λ d, ([], a, d).
Definition bind {A B} (m : M A) (f : A → M B) : M B :=
  λ d, let '(t1, a, d1) := m d in let '(t2, b, d2) := f a d1 in (t1 ++ t2, b, d2).
Definition emit (a : Action) : M unit := λ d, ([a], tt, d).

Declare Scope delivery_scope.
Notation "'do!' x ':=' m 'in' k" := (bind m (λ x, k))
  (at level 10, x pattern, m at level 100, k at level 200) : delivery_scope.
Notation "m ';;!' k" := (bind m (λ _, k)) (at level 100, right associativity) : delivery_scope.
Open Scope delivery_scope.

(** The capture threads enqueue; without a ring there are none. *)
Definition Captured := list (Instant * RingEvent).

Definition capture (l : Captured) : M unit := λ d,
  match ring d with
  | None => ([], tt, d)
  | Some r => ((λ p, OnRing (Enqueue p.1 p.2)) <$> l, tt,
               set_ring d (foldl (λ r p, enqueue_or_drop r p.1 p.2) r l))
  end.

(** [self.overflow.check(ring, now)]. *)
Definition check_overflow (now : Instant) : M unit := λ d,
  match ring d with
  | None => ([], tt, d)
  | Some r => ([], tt, {| ring := ring d; unresolved := unresolved d;
                          overflow := (overflow_check (overflow d) r now).2;
                          sequence := sequence d |})
  end.

Definition get_ring : M (option EventRing) := λ d, ([], ring d, d).

(** A batch trigger; the lock is taken for the length, then for the age. *)
Definition batch_due (now : Instant) (at_len at_oldest : Captured) : M bool :=
  capture at_len ;;!
  do! r := get_ring in
  match r with
  | None => ret false
  | Some r =>
      if decide (MAX_BATCH_EVENTS ≤ ring_len r)%nat then ret true
      else
        capture at_oldest ;;!
        do! r := get_ring in
        ret (match r with
             | Some r => match oldest_enqueued_at r with
                         | Some t => MAX_BATCH_LATENCY <=? sat_sub now t
                         | None => false
                         end
             | None => false
             end)
  end.

(** SPEC-001 backoff. *)
Definition next_backoff (current_ms : Z) (h : HeartbeatConfig) : Z :=
  Z.min (u64_of_f64 (f64_mul (f64_of_u64 current_ms) (backoff_factor h))) (backoff_max_ms h).

Section Loop.
Context {W : WireCrypto}.
Context (agent_block : AgentBlock) (agent_id : string) (keypair : AgentKeypair).
Context (heartbeat : HeartbeatConfig) (start_time : Instant) (paths : DevicePathMap).

(** ** Forming a POST *)

Definition render_event (e : RingEvent) : CgesEvent :=
  match e with
  | Process e => CgesProcessEvent (render_process_activity e agent_id paths)
  | Network e => CgesNetworkEvent (render_network_activity e agent_id)
  | Logon e => CgesAuthenticationEvent (render_authentication e)
  end.

(** The path log notes each process event's path beside its rendering. *)
Definition note_event (seen : UnresolvedPathLog) (e : RingEvent) : UnresolvedPathLog :=
  match e with
  | Process p =>
      (note seen (ce_image_file_name p)
         (cp_image_file_name (pa_process (render_process_activity p agent_id paths)))).2
  | _ => seen
  end.

Definition form_batch (at_drain : Captured) : M Batch :=
  capture at_drain ;;!
  λ d,
    let '(captured, ops, ring') :=
      match ring d with
      | None => ([], [], None)
      | Some r => let '(out, r') := drain_up_to r MAX_BATCH_EVENTS in
                  (out, [OnRing (Drain MAX_BATCH_EVENTS)], Some r')
      end in
    let seq := wrap_u 64 (sequence d + 1) in
    let b := {| batch_sequence := seq; batch_events := render_event <$> captured |} in
    (ops ++ [Formed b], b,
     {| ring := ring'; unresolved := foldl note_event (unresolved d) captured;
        overflow := overflow d; sequence := seq |}).

(** ** One attempt *)

(** What the attempt meets: the wall clock's text, the time since start, the
    nonce drawn, and the send's result, [None] when it timed out. *)
Record AttemptIo := {
  io_wall : string;
  io_elapsed : Z;
  io_nonce : Result bytes string;
  io_sent : option SendResult;
}.

Definition classify_send (r : SendResult) : Result Attempt AgentError :=
  match r with
  | Status s =>
      if (200 <=? s) && (s <? 300) then Ok Delivered
      else if (500 <=? s) && (s <? 600) then Ok (Transient ("server status " +:+ dec s))
      else Ok (Rejected s)
  | SendTransient m => Ok (Transient m)
  | ServerCertFatal m => Err (AgentTls (ServerCertUntrusted m))
  | ClientCertFatal m => Err (AgentTls (ClientCertRejected m))
  end.

(** The envelope an attempt posts: fresh around the same events. *)
Definition attempt_envelope (b : Batch) (status : HeartbeatStatus) (io : AttemptIo)
  : Result OuterEnvelope AgentError :=
  let inner := with_events
    (build_envelope agent_block (batch_sequence b) (io_elapsed io) (io_wall io) status)
    (batch_events b) in
  let sent_at := he_sent_at inner in
  map_err AgentSigning (seal_envelope (io_nonce io) inner agent_id keypair sent_at).

Definition attempt_within (b : Batch) (status : HeartbeatStatus) (io : AttemptIo)
  : Result Attempt AgentError :=
  let? outer := attempt_envelope b status io in
  try? map_err (λ e, AgentSigning (Canonical ("serialize outer envelope: " +:+ e)))
         (json_to_vec (outer_to_json outer)) in
  classify_send (default (SendTransient "request timed out") (io_sent io)).

Definition attempt (b : Batch) (status : HeartbeatStatus) (io : AttemptIo)
  : Result Attempt AgentError := attempt_within b status io.

(** The events join the ring's dropped total. *)
Definition drop_rejected (b : Batch) (status : Z) : M unit :=
  (λ d, match ring d with
        | None => ([], tt, d)
        | Some r => let n := Z.of_nat (length (batch_events b)) in
                    ([OnRing (AddDropped n)], tt, set_ring d (add_dropped r n))
        end) ;;!
  emit (DroppedBatch b status).

(** ** The timeline *)

Definition interval : Z := seconds (interval_seconds heartbeat).

Definition tick_at (k : Z) : Instant := start_time + Z.min DURATION_MAX (interval * k).

(** The [while] that collapses missed ticks: [None] when the fuel runs out. *)
Fixpoint catch_up (fuel : nat) (now : Instant) (next_tick : Z) : option Z :=
  match fuel with
  | O => None
  | S f => if tick_at next_tick <=? now
           then catch_up f now (sat_u 32 (next_tick + 1))
           else Some next_tick
  end.

(** One turn per tick up to [now], and the turn that stops. *)
Definition catch_up_fuel (now : Instant) : nat := Z.to_nat ((now - start_time) / interval + 2).

(** ** The loop *)

(** The variables of [run_until]. *)
Record LoopVars := {
  next_tick : Z;
  heartbeat_due : bool;
  batch_post_since_tick : bool;
  in_flight : option Pending;
}.

Definition vars_init : LoopVars :=
  {| next_tick := 0; heartbeat_due := false; batch_post_since_tick := false; in_flight := None |}.

Record Round := {
  now : Instant;
  now_idle : Instant;
  at_check : Captured;
  at_len : Captured;
  at_oldest : Captured;
  at_drain : Captured;
  at_attempt : Captured;
  attempt_io : option AttemptIo;
  stop : bool;
}.

Inductive Flow :=
| Continue (v : LoopVars)
| Stopped (in_flight : option Pending)
| Fatal (e : AgentError)
| Spins.

Definition tick_phase (v : LoopVars) (now : Instant) : option LoopVars :=
  if tick_at (next_tick v) <=? now then
    let due := if batch_post_since_tick v then heartbeat_due v else true in
    match catch_up (catch_up_fuel now) now (next_tick v) with
    | None => None
    | Some k => Some {| next_tick := k; heartbeat_due := due; batch_post_since_tick := false;
                        in_flight := in_flight v |}
    end
  else Some v.

Definition pending_new (b : Batch) : Pending :=
  {| batch := b; transient_failures := 0; rejections := 0; backoff_ms := backoff_initial_ms heartbeat |}.

Definition form_phase (v : LoopVars) (r : Round) : M LoopVars :=
  match in_flight v with
  | Some _ => ret v
  | None =>
      do! due := batch_due (now r) (at_len r) (at_oldest r) in
      if heartbeat_due v || due then
        do! b := form_batch (at_drain r) in
        ret {| next_tick := next_tick v; heartbeat_due := false;
               batch_post_since_tick := if heartbeat_due v then batch_post_since_tick v else true;
               in_flight := Some (pending_new b) |}
      else ret v
  end.

(** What an attempt makes of the POST: kept for a retry, or done with. *)
Definition resolve (p : Pending) (a : Attempt) : M (option Pending) :=
  match a with
  | Delivered => ret None
  | Transient error =>
      let p' := {| batch := batch p; transient_failures := wrap_u 32 (transient_failures p + 1);
                   rejections := rejections p; backoff_ms := backoff_ms p |} in
      match batch_events (batch p) with
      | [] => if max_retries heartbeat <=? transient_failures p'
              then emit (GaveUp (batch p)) ;;! ret None
              else ret (Some p')
      | _ => ret (Some p')
      end
  | Rejected status =>
      let p' := {| batch := batch p; transient_failures := transient_failures p;
                   rejections := wrap_u 32 (rejections p + 1); backoff_ms := backoff_ms p |} in
      if max_retries heartbeat <=? rejections p'
      then drop_rejected (batch p) status ;;! ret None
      else ret (Some p')
  end.

Definition set_flight (v : LoopVars) (p : option Pending) : LoopVars :=
  {| next_tick := next_tick v; heartbeat_due := heartbeat_due v;
     batch_post_since_tick := batch_post_since_tick v; in_flight := p |}.

Definition backed_off (p : Pending) : Pending :=
  {| batch := batch p; transient_failures := transient_failures p; rejections := rejections p;
     backoff_ms := next_backoff (backoff_ms p) heartbeat |}.

Definition send_phase (v : LoopVars) (r : Round) : M Flow :=
  match in_flight v with
  | None =>
      emit (Idle (Z.min (tick_at (next_tick v)) (now_idle r + POLL_INTERVAL))) ;;!
      ret (if stop r then Stopped None else Continue v)
  | Some p =>
      capture (at_attempt r) ;;!
      match attempt_io r with
      | None => ret (Stopped (in_flight v))
      | Some io =>
          match attempt (batch p) Online io with
          | Err e => ret (Fatal e)
          | Ok a =>
              emit (Attempted (batch p) a) ;;!
              do! kept := resolve p a in
              match kept with
              | None => ret (Continue (set_flight v None))
              | Some p' =>
                  emit (Backoff (backoff_ms p')) ;;!
                  ret (if stop r then Stopped (Some (backed_off p'))
                       else Continue (set_flight v (Some (backed_off p'))))
              end
          end
      end
  end.

Definition iterate (v : LoopVars) (r : Round) : M Flow :=
  match tick_phase v (now r) with
  | None => ret Spins
  | Some v1 =>
      capture (at_check r) ;;!
      check_overflow (now r) ;;!
      do! v2 := form_phase v1 r in
      send_phase v2 r
  end.

(** [run_until] over the rounds the environment gives it. *)
Fixpoint run_until (v : LoopVars) (rounds : list Round) : M Flow :=
  match rounds with
  | [] => ret (Continue v)
  | r :: rs =>
      do! f := iterate v r in
      match f with
      | Continue v' => run_until v' rs
      | other => ret other
      end
  end.

(** ** Shutdown *)

(** The final POST: the instants are those of the two clock reads. [sent] is
    the attempt under the timeout chosen. *)
Definition finish (in_flight : option Pending) (deadline : option Instant) (left_at done_at : Instant)
    (at_drain at_end : Captured) (io : Z → AttemptIo) : M Finished :=
  do! b := match in_flight with
           | Some p => ret (batch p)
           | None => form_batch at_drain
           end in
  let request_timeout := seconds (request_timeout_seconds heartbeat) in
  let '(timeout, bounded) :=
    match deadline with
    | Some dl => let left := sat_sub dl left_at in
                 (Z.min left request_timeout, left <? request_timeout)
    | None => (request_timeout, false)
    end in
  let result := attempt_within b GoingOffline (io timeout) in
  let delivered := match result with Ok Delivered => true | _ => false end in
  match result with Ok a => emit (Attempted b a) | Err _ => ret tt end ;;!
  let expired := negb delivered && bounded &&
    match deadline with Some dl => dl <=? done_at | None => false end in
  capture at_end ;;!
  do! r := get_ring in
  let left_in_ring := match r with Some r => ring_len r | None => 0%nat end in
  ret {| undelivered_count := left_in_ring + (if delivered then 0 else length (batch_events b));
         expired := expired |}.

Definition undelivered (d : Delivery) (in_flight : option Pending) : nat :=
  match ring d with Some r => ring_len r | None => 0 end +
  match in_flight with Some p => length (batch_events (batch p)) | None => 0 end.

End Loop.

(** ** Reading a trace *)

Definition ops (tr : list Action) : list RingOp :=
  omap (λ a, match a with OnRing op => Some op | _ => None end) tr.
Definition formed (tr : list Action) : list Batch :=
  omap (λ a, match a with Formed b => Some b | _ => None end) tr.
(** The batches done with, delivered or not. *)
Definition resolved (tr : list Action) : list Batch :=
  omap (λ a, match a with
             | Attempted b Delivered | GaveUp b | DroppedBatch b _ => Some b | _ => None end) tr.
Definition delivered (tr : list Action) : list Batch :=
  omap (λ a, match a with Attempted b Delivered => Some b | _ => None end) tr.
Definition given_up (tr : list Action) : list Batch :=
  omap (λ a, match a with GaveUp b => Some b | _ => None end) tr.
Definition dropped (tr : list Action) : list Batch :=
  omap (λ a, match a with DroppedBatch b _ => Some b | _ => None end) tr.

Definition events_of (l : list Batch) : list CgesEvent := l ≫= batch_events.
Definition flight_list (o : option Pending) : list Batch :=
  match o with Some p => [batch p] | None => [] end.

(** ** The life cycle of a POST *)

Module PostSpec.
(** No POST; one being sent, with its failures so far; one whose last
    attempt failed, transiently or not, and whose fate is open. *)
Inductive phase :=
| Ready
| Sending (b : Batch) (transients rejections : Z)
| Failed (b : Batch) (transients rejections : Z) (transient : bool).

Record state := { last_sequence : Z; current : phase }.

Inductive step (max_retries : Z) : state → Action → state → Prop :=
| on_ring s op : step max_retries s (OnRing op) s
| idle n wake : step max_retries {| last_sequence := n; current := Ready |} (Idle wake)
                     {| last_sequence := n; current := Ready |}
| form n b :
    batch_sequence b = wrap_u 64 (n + 1) → (length (batch_events b) ≤ MAX_BATCH_EVENTS)%nat →
    step max_retries {| last_sequence := n; current := Ready |} (Formed b)
         {| last_sequence := batch_sequence b; current := Sending b 0 0 |}
| deliver n b t r :
    step max_retries {| last_sequence := n; current := Sending b t r |} (Attempted b Delivered)
         {| last_sequence := n; current := Ready |}
| transient n b t r m :
    step max_retries {| last_sequence := n; current := Sending b t r |} (Attempted b (Transient m))
         {| last_sequence := n; current := Failed b (wrap_u 32 (t + 1)) r true |}
| reject n b t r st :
    step max_retries {| last_sequence := n; current := Sending b t r |} (Attempted b (Rejected st))
         {| last_sequence := n; current := Failed b t (wrap_u 32 (r + 1)) false |}
| retry_transient n b t r ms :
    batch_events b ≠ [] ∨ t < max_retries →
    step max_retries {| last_sequence := n; current := Failed b t r true |} (Backoff ms)
         {| last_sequence := n; current := Sending b t r |}
| retry_rejected n b t r ms :
    r < max_retries →
    step max_retries {| last_sequence := n; current := Failed b t r false |} (Backoff ms)
         {| last_sequence := n; current := Sending b t r |}
| giving_up n b t r :
    batch_events b = [] → max_retries ≤ t →
    step max_retries {| last_sequence := n; current := Failed b t r true |} (GaveUp b)
         {| last_sequence := n; current := Ready |}
| drop_batch n b t r st :
    max_retries ≤ r →
    step max_retries {| last_sequence := n; current := Failed b t r false |} (DroppedBatch b st)
         {| last_sequence := n; current := Ready |}.

Inductive steps (max_retries : Z) : state → list Action → state → Prop :=
| steps_nil s : steps max_retries s [] s
| steps_cons s a s1 tr s2 :
    step max_retries s a s1 → steps max_retries s1 tr s2 → steps max_retries s (a :: tr) s2.

Lemma steps_app m s tr s1 tr' s2 :
  steps m s tr s1 → steps m s1 tr' s2 → steps m s (tr ++ tr') s2.
Proof. induction 1; simpl; [done|]. intros. econstructor; eauto. Qed.

Lemma steps_one m s a s1 : step m s a s1 → steps m s [a] s1.
Proof. intros. econstructor; [done|constructor]. Qed.

(** The POST not done with. *)
Definition open (s : state) : list Batch :=
  match current s with Ready => [] | Sending b _ _ | Failed b _ _ _ => [b] end.

(** Attempts rejected since the last POST was formed. *)
Definition count_rejected (c : Z) (a : Action) : Z :=
  match a with Formed _ => 0 | Attempted _ (Rejected _) => c + 1 | _ => c end.
Definition count_transient (c : Z) (a : Action) : Z :=
  match a with Formed _ => 0 | Attempted _ (Transient _) => c + 1 | _ => c end.

(** The counters are exact below the limit, as far as a retry needs them. *)
Definition rejections_exact (max_retries c : Z) (s : state) : Prop :=
  match current s with
  | Ready => True
  | Sending _ _ r | Failed _ _ r true => r = c ∧ (c = 0 ∨ 0 < c < max_retries)
  | Failed _ _ r false => r = c ∧ (c = 1 ∨ 0 < c ≤ max_retries)
  end.
Definition transients_exact (max_retries c : Z) (s : state) : Prop :=
  match current s with
  | Ready => True
  | Sending b t _ | Failed b t _ false => batch_events b = [] → t = c ∧ (c = 0 ∨ 0 < c < max_retries)
  | Failed b t _ true => batch_events b = [] → t = c ∧ (c = 1 ∨ 0 < c ≤ max_retries)
  end.

Lemma steps_ring m s (l : list RingOp) : steps m s (OnRing <$> l) s.
Proof. induction l; simpl; [constructor|]. econstructor; [constructor|done]. Qed.

Lemma steps_split m s tr a tr' s2 :
  steps m s (tr ++ a :: tr') s2 → ∃ s0 s1, steps m s tr s0 ∧ step m s0 a s1.
Proof.
  revert s; induction tr as [|x tr IH]; intros s H; inversion H; subst.
  - exists s, s1. split; [constructor|done].
  - destruct (IH s1) as (s0 & s3 & H1 & H2); [done|]. exists s0, s3. split; [|done].
    by econstructor.
Qed.

(** FIFO: what is done with, then what is open, is what was open, then what
    was formed. *)
Lemma steps_fifo m s tr s' :
  steps m s tr s' → resolved tr ++ open s' = open s ++ formed tr.
Proof.
  induction 1 as [|s a s1 tr s2 Hstep Hsteps IH]; [by rewrite app_nil_r|].
  destruct Hstep; unfold resolved, formed in *; csimpl; rewrite ?IH; try done.
Qed.

Lemma steps_sequence m s tr s' i b :
  steps m s tr s' → formed tr !! i = Some b →
  batch_sequence b = wrap_u 64 (last_sequence s + Z.of_nat i + 1) ∧
  (length (batch_events b) ≤ MAX_BATCH_EVENTS)%nat.
Proof.
  intros H. revert i. induction H as [|s a s1 tr s2 Hstep Hsteps IH]; intros i Hi; [done|].
  destruct Hstep; unfold formed in *; simpl in *; try by apply IH.
  destruct i as [|i]; simpl in Hi.
  - simplify_eq. split; [|done]. by rewrite Z.add_0_r.
  - destruct (IH i Hi) as [E ?]. split; [|done]. rewrite E.
    match goal with Hb : batch_sequence _ = wrap_u _ _ |- _ => rewrite Hb end.
    replace (wrap_u 64 (n + 1) + Z.of_nat i + 1) with (wrap_u 64 (n + 1) + (Z.of_nat i + 1)) by lia.
    rewrite wrap_u_add_l by lia. f_equal. lia.
Qed.

Lemma steps_rejections m c s tr s' :
  in_u 32 m → steps m s tr s' → rejections_exact m c s →
  rejections_exact m (foldl count_rejected c tr) s'.
Proof.
  intros Hm H. revert c. induction H as [|s a s1 tr s2 Hstep Hsteps IH]; intros c Hc; [done|].
  cbn [foldl]. apply IH. unfold in_u in Hm.
  destruct Hstep; unfold rejections_exact in *; simpl in *; try done; try lia; try naive_solver lia.
  destruct Hc as [-> Hc]. rewrite wrap_u_small by (unfold in_u; lia). lia.
Qed.

Lemma steps_transients m c s tr s' :
  in_u 32 m → steps m s tr s' → transients_exact m c s →
  transients_exact m (foldl count_transient c tr) s'.
Proof.
  intros Hm H. revert c. induction H as [|s a s1 tr s2 Hstep Hsteps IH]; intros c Hc; [done|].
  cbn [foldl]. apply IH. unfold in_u in Hm.
  destruct Hstep; unfold transients_exact in *; simpl in *; try done; try lia; try naive_solver lia.
  intros He. destruct (Hc He) as [-> Hc']. rewrite wrap_u_small by (unfold in_u; lia). lia.
Qed.
End PostSpec.

(** A batch done with was delivered, given up or dropped. *)
Lemma resolved_events tr :
  length (events_of (resolved tr)) =
    (length (events_of (delivered tr)) + length (events_of (given_up tr))
     + length (events_of (dropped tr)))%nat.
Proof.
  unfold events_of, resolved, delivered, given_up, dropped.
  induction tr as [|[op|b|b []|b|b st|ms|w] tr IH]; csimpl; rewrite ?length_app; lia.
Qed.

Lemma resolved_perm tr :
  events_of (resolved tr) ≡ₚ events_of (delivered tr) ++ events_of (given_up tr) ++ events_of (dropped tr).
Proof.
  unfold events_of, resolved, delivered, given_up, dropped.
  induction tr as [|[op|b|b []|b|b st|ms|w] tr IH]; csimpl; try done; rewrite IH; solve_Permutation.
Qed.

(** A POST is given up on only when it carries no events. *)
Lemma steps_given_up m s tr s' : PostSpec.steps m s tr s' → events_of (given_up tr) = [].
Proof.
  induction 1 as [|s a s1 tr s2 Hstep _ IH]; [done|].
  destruct Hstep; unfold events_of, given_up in *; csimpl; try done.
  match goal with H : batch_events _ = [] |- _ => by rewrite H end.
Qed.

(** The abstract state of a loop between two iterations. *)
Definition phase_of (o : option Pending) : PostSpec.phase :=
  match o with
  | None => PostSpec.Ready
  | Some p => PostSpec.Sending (batch p) (transient_failures p) (rejections p)
  end.
Definition spec_of (d : Delivery) (o : option Pending) : PostSpec.state :=
  {| PostSpec.last_sequence := sequence d; PostSpec.current := phase_of o |}.

#[export] Hint Constructors PostSpec.step PostSpec.steps : agent.
#[export] Hint Resolve PostSpec.steps_one PostSpec.steps_app PostSpec.steps_ring : agent.

(** ** Lemmas *)

Lemma events_of_app a b : events_of (a ++ b) = events_of a ++ events_of b.
Proof. apply bind_app. Qed.

Lemma bind_run {A B} (m : M A) (f : A → M B) d :
  bind m f d = ((m d).1.1 ++ (f (m d).1.2 (m d).2).1.1, (f (m d).1.2 (m d).2).1.2,
                (f (m d).1.2 (m d).2).2).
Proof. unfold bind. destruct (m d) as [[t a] d1]; simpl. by destruct (f a d1) as [[t2 b] d2]. Qed.

Lemma capture_run l d r :
  ring d = Some r →
  capture l d = (OnRing <$> ((λ p, Enqueue p.1 p.2) <$> l), tt,
                 set_ring d (ring_run r ((λ p, Enqueue p.1 p.2) <$> l)).2).
Proof.
  intros Hr. unfold capture. rewrite Hr. f_equal; [f_equal|].
  - by rewrite <- list_fmap_compose.
  - f_equal. clear Hr. revert r; induction l as [|p l IH]; intros r; [done|]. cbn.
    rewrite IH. by destruct (ring_run _ _).
Qed.

Lemma onring_trace (l : list RingOp) :
  ops (OnRing <$> l) = l ∧ formed (OnRing <$> l) = [] ∧ dropped (OnRing <$> l) = [] ∧
  delivered (OnRing <$> l) = [].
Proof.
  induction l as [|op l (H1 & H2 & H3 & H4)]; [done|].
  split_and!; [|done..]. unfold ops in *. csimpl. by rewrite H1.
Qed.

Lemma capture_none l d : ring d = None → capture l d = ([], tt, d).
Proof. intros Hr. unfold capture. by rewrite Hr. Qed.

Lemma enqueues_drain_nothing r (l : Captured) :
  (ring_run r ((λ p, Enqueue p.1 p.2) <$> l)).1 = [].
Proof.
  revert r; induction l as [|p l IH]; intros r; [done|]. cbn.
  specialize (IH (enqueue_or_drop r p.1 p.2)). by destruct (ring_run _ _).
Qed.

Section LoopLemmas.
Context {W : WireCrypto}.
Context (agent_block : AgentBlock) (agent_id : string) (keypair : AgentKeypair).
Context (heartbeat : HeartbeatConfig) (start_time : Instant) (paths : DevicePathMap).

Notation render_event := (render_event agent_id paths).
Notation form_batch := (form_batch agent_id paths).
Notation resolve := (resolve heartbeat).
Notation form_phase := (form_phase agent_id heartbeat paths).
Notation send_phase := (send_phase agent_block agent_id keypair heartbeat start_time).
Notation iterate := (iterate agent_block agent_id keypair heartbeat start_time paths).
Notation run_until := (run_until agent_block agent_id keypair heartbeat start_time paths).

(** *** The ring is what the recorded operations make of it *)

Definition tracks (d : Delivery) (tr : list Action) (d' : Delivery) : Prop :=
  match ring d with
  | None => ring d' = None
  | Some r =>
      ring d' = Some (ring_run r (ops tr)).2 ∧
      events_of (formed tr) = render_event <$> (ring_run r (ops tr)).1 ∧
      added (ops tr) = Z.of_nat (length (events_of (dropped tr)))
  end.

Definition good {A} (m : M A) : Prop := ∀ d, tracks d (m d).1.1 (m d).2.

Lemma tracks_trans d t1 d1 t2 d2 : tracks d t1 d1 → tracks d1 t2 d2 → tracks d (t1 ++ t2) d2.
Proof.
  unfold tracks, ops, formed, dropped. destruct (ring d) as [r|].
  - intros (H1 & H2 & H3). rewrite H1. intros (K1 & K2 & K3).
    rewrite !omap_app, ring_run_app, !events_of_app, added_app, K1, K2, K3, H2, H3; simpl.
    rewrite fmap_app, length_app. split_and!; [done|done|lia].
  - by intros ->.
Qed.

Lemma good_bind {A B} (m : M A) (f : A → M B) : good m → (∀ a, good (f a)) → good (bind m f).
Proof. intros Hm Hf d. rewrite bind_run. eapply tracks_trans; [apply Hm|apply Hf]. Qed.

Lemma tracks_refl d : tracks d [] d.
Proof. unfold tracks. by destruct (ring d). Qed.

Lemma good_ret {A} (a : A) : good (ret a).
Proof. intros d. apply tracks_refl. Qed.

Lemma good_get_ring : good get_ring.
Proof. intros d. apply tracks_refl. Qed.

Lemma good_emit a :
  match a with OnRing _ | Formed _ | DroppedBatch _ _ => False | _ => True end → good (emit a).
Proof.
  intros Ha d. unfold tracks. destruct (ring d) eqn:E; [|done]. simpl. rewrite E.
  by destruct a.
Qed.

Lemma good_capture l : good (capture l).
Proof.
  intros d. unfold tracks. destruct (ring d) as [r|] eqn:E; [|by rewrite capture_none].
  rewrite (capture_run _ _ r) by done; simpl.
  destruct (onring_trace ((λ p, Enqueue p.1 p.2) <$> l)) as (-> & -> & -> & _).
  rewrite enqueues_drain_nothing. split_and!; try done. clear. by induction l.
Qed.

Lemma good_overflow now : good (check_overflow now).
Proof.
  intros d. unfold tracks, check_overflow. destruct (ring d) as [r|] eqn:E; simpl; by rewrite ?E.
Qed.

Lemma good_form_batch l : good (form_batch l).
Proof.
  apply good_bind; [apply good_capture|]. intros _ d. unfold tracks.
  destruct (ring d) as [r|] eqn:E; simpl; [|by rewrite ?E].
  rewrite ?E. simpl. by rewrite !app_nil_r.
Qed.

Lemma good_drop_rejected b st : good (drop_rejected b st).
Proof.
  intros d. unfold tracks, drop_rejected. rewrite bind_run; simpl.
  destruct (ring d) as [r|] eqn:E; simpl; [|done]. rewrite app_nil_r, Z.add_0_r. done.
Qed.

Ltac good_tac :=
  repeat first
    [ progress cbv zeta | apply good_ret | apply good_capture | apply good_get_ring
    | apply good_overflow | apply good_form_batch | apply good_drop_rejected
    | apply good_emit; exact I | apply good_bind; intros | case_match | solve [auto with agent] ].

Lemma good_batch_due now l1 l2 : good (batch_due now l1 l2).
Proof. unfold batch_due. good_tac. Qed.
#[local] Hint Resolve good_batch_due : agent.

Lemma good_resolve p a : good (resolve p a).
Proof. unfold resolve. good_tac. Qed.
#[local] Hint Resolve good_resolve : agent.

Lemma good_iterate v r : good (iterate v r).
Proof. unfold iterate, form_phase, send_phase. good_tac. Qed.

Lemma good_run v rs : good (run_until v rs).
Proof.
  revert v; induction rs as [|r rs IH]; intros v; cbn [Delivery.run_until]; [apply good_ret|].
  apply good_bind; [apply good_iterate|]. intros []; auto using good_ret.
Qed.

(** *** Phases that touch the ring only *)

Definition quiet {A} (m : M A) : Prop :=
  ∀ d, sequence (m d).2 = sequence d ∧ ∃ l, (m d).1.1 = OnRing <$> l.

Lemma quiet_bind {A B} (m : M A) (f : A → M B) : quiet m → (∀ a, quiet (f a)) → quiet (bind m f).
Proof.
  intros Hm Hf d. rewrite bind_run; simpl. destruct (Hm d) as [H1 [l1 H2]].
  destruct (Hf (m d).1.2 (m d).2) as [K1 [l2 K2]]. rewrite K1, H1, H2, K2.
  split; [done|]. exists (l1 ++ l2). by rewrite fmap_app.
Qed.

Lemma quiet_ret {A} (a : A) : quiet (ret a).
Proof. intros d. split; [done|]. by exists []. Qed.

Lemma quiet_get_ring : quiet get_ring.
Proof. intros d. split; [done|]. by exists []. Qed.

Lemma quiet_capture l : quiet (capture l).
Proof.
  intros d. destruct (ring d) as [r|] eqn:E.
  - rewrite (capture_run _ _ r) by done. simpl. eauto.
  - rewrite capture_none by done. split; [done|]. by exists [].
Qed.

Lemma quiet_overflow now : quiet (check_overflow now).
Proof.
  intros d. unfold check_overflow. destruct (ring d); (split; [done|]; by exists []).
Qed.

#[local] Hint Resolve quiet_bind quiet_ret quiet_get_ring quiet_capture quiet_overflow : agent.

Lemma quiet_batch_due now l1 l2 : quiet (batch_due now l1 l2).
Proof.
  unfold batch_due. repeat first [apply quiet_bind; intros | progress auto with agent | case_match].
Qed.

Lemma quiet_steps {A} (m : M A) d mr o :
  quiet m → PostSpec.steps mr (spec_of d o) (m d).1.1 (spec_of (m d).2 o).
Proof.
  intros Hq. destruct (Hq d) as [H1 [l H2]]. unfold spec_of. rewrite H1, H2. auto with agent.
Qed.

(** *** The phases follow the life cycle *)

Lemma form_batch_steps mr l d :
  PostSpec.steps mr (spec_of d None) (form_batch l d).1.1
    (spec_of (form_batch l d).2 (Some (pending_new heartbeat (form_batch l d).1.2))).
Proof.
  unfold form_batch. rewrite bind_run. cbn [fst snd].
  eapply PostSpec.steps_app; [apply (quiet_steps (capture l)), quiet_capture|].
  set (d1 := (capture l d).2). clearbody d1.
  destruct (ring d1) as [r|] eqn:E; cbn -[MAX_BATCH_EVENTS]; rewrite ?E; cbn -[MAX_BATCH_EVENTS].
  - econstructor; [constructor|]. apply PostSpec.steps_one. constructor; [done|].
    cbn -[MAX_BATCH_EVENTS]. rewrite !length_fmap, length_take. lia.
  - apply PostSpec.steps_one. by constructor; cbn; [|lia].
Qed.

Lemma form_phase_steps mr v r d :
  PostSpec.steps mr (spec_of d (in_flight v)) (form_phase v r d).1.1
    (spec_of (form_phase v r d).2 (in_flight (form_phase v r d).1.2)).
Proof.
  unfold form_phase. destruct (in_flight v) as [p|] eqn:Hf.
  { simpl. rewrite Hf. constructor. }
  rewrite bind_run. cbn [fst snd].
  eapply PostSpec.steps_app; [apply quiet_steps, quiet_batch_due|].
  set (d1 := (batch_due _ _ _ d).2). set (due := (batch_due _ _ _ d).1.2).
  destruct (heartbeat_due v || due); [|simpl; rewrite Hf; constructor].
  rewrite bind_run. cbn [fst snd ret in_flight]. rewrite app_nil_r. apply form_batch_steps.
Qed.

(** The outcome of an iteration as an abstract state. *)
Definition flow_state (d : Delivery) (f : Flow) (s : PostSpec.state) : Prop :=
  match f with
  | Continue v => s = spec_of d (in_flight v)
  | Stopped o => s = spec_of d o
  | Fatal _ | Spins => PostSpec.last_sequence s = sequence d
  end.

Lemma resolve_steps p a d n :
  n = sequence d →
  PostSpec.steps (max_retries heartbeat)
    {| PostSpec.last_sequence := n;
       PostSpec.current := PostSpec.Sending (batch p) (transient_failures p) (rejections p) |}
    (Attempted (batch p) a :: (resolve p a d).1.1
       ++ match (resolve p a d).1.2 with Some p' => [Backoff (backoff_ms p')] | None => [] end)
    (spec_of (resolve p a d).2 (backed_off heartbeat <$> (resolve p a d).1.2)).
Proof.
  intros ->. destruct a as [|m|st]; unfold resolve.
  - cbn. econstructor; constructor.
  - econstructor; [constructor|].
    destruct (batch_events (batch p)) eqn:He.
    + cbn [transient_failures].
      destruct (Z.leb_spec (max_retries heartbeat) (wrap_u 32 (transient_failures p + 1))).
      * cbn. apply PostSpec.steps_one. by constructor.
      * cbn. apply PostSpec.steps_one. constructor. by right.
    + cbn. apply PostSpec.steps_one. constructor. left. by rewrite He.
  - econstructor; [constructor|]. cbn [rejections].
    destruct (Z.leb_spec (max_retries heartbeat) (wrap_u 32 (rejections p + 1))).
    + rewrite bind_run. unfold drop_rejected. rewrite bind_run. cbn [fst snd ret emit].
      destruct (ring d) as [r|]; cbn;
        repeat (econstructor; [by constructor|]); constructor.
    + cbn. apply PostSpec.steps_one. by constructor.
Qed.

Lemma send_phase_steps v r d :
  ∃ s, PostSpec.steps (max_retries heartbeat) (spec_of d (in_flight v)) (send_phase v r d).1.1 s ∧
       flow_state (send_phase v r d).2 (send_phase v r d).1.2 s.
Proof.
  unfold send_phase. destruct (in_flight v) as [p|] eqn:Hf.
  - rewrite bind_run. cbn [fst snd].
    pose proof (quiet_steps (capture (at_attempt r)) d (max_retries heartbeat) (Some p)
                  (quiet_capture _)) as Hc.
    set (d1 := (capture (at_attempt r) d).2) in *. clearbody d1.
    destruct (attempt_io r) as [io|].
    2: { exists (spec_of d1 (Some p)). cbn. rewrite app_nil_r. done. }
    destruct (attempt _ _ _ _ _ _) as [a|e].
    2: { exists (spec_of d1 (Some p)). cbn. rewrite app_nil_r. done. }
    rewrite bind_run. cbn [fst snd emit]. rewrite bind_run. cbn [fst snd].
    pose proof (resolve_steps p a d1 (sequence d1) eq_refl) as Hr.
    destruct (resolve p a d1) as [[tr kept] d2]; cbn [fst snd] in *.
    exists (spec_of d2 (backed_off heartbeat <$> kept)).
    split.
    + eapply PostSpec.steps_app; [exact Hc|]. by destruct kept.
    + destruct kept as [p'|]; [|done]. by destruct (stop r).
  - exists (spec_of d None). rewrite bind_run. cbn. split.
    + apply PostSpec.steps_one. constructor.
    + destruct (stop r); [done|]. cbn. by rewrite Hf.
Qed.

Lemma tick_phase_flight v n v' :
  tick_phase heartbeat start_time v n = Some v' → in_flight v' = in_flight v.
Proof. unfold tick_phase. repeat case_match; naive_solver. Qed.

Lemma iterate_steps v r d :
  ∃ s, PostSpec.steps (max_retries heartbeat) (spec_of d (in_flight v)) (iterate v r d).1.1 s ∧
       flow_state (iterate v r d).2 (iterate v r d).1.2 s.
Proof.
  unfold iterate. destruct (tick_phase _ _ v (now r)) as [v1|] eqn:Ht.
  2: { exists (spec_of d (in_flight v)). split; [constructor|done]. }
  rewrite <- (tick_phase_flight _ _ _ Ht).
  rewrite bind_run. cbn [fst snd]. rewrite bind_run. cbn [fst snd]. rewrite bind_run. cbn [fst snd].
  pose proof (quiet_steps (capture (at_check r)) d (max_retries heartbeat) (in_flight v1)
                (quiet_capture _)) as H1.
  set (d1 := (capture _ d).2) in *.
  pose proof (quiet_steps (check_overflow (now r)) d1 (max_retries heartbeat) (in_flight v1)
                (quiet_overflow _)) as H2.
  set (d2 := (check_overflow _ d1).2) in *.
  pose proof (form_phase_steps (max_retries heartbeat) v1 r d2) as H3.
  destruct (send_phase_steps (form_phase v1 r d2).1.2 r (form_phase v1 r d2).2) as (s & H4 & H5).
  exists s. split; [|done]. eauto 6 with agent.
Qed.

Lemma run_steps v rs d :
  ∃ s, PostSpec.steps (max_retries heartbeat) (spec_of d (in_flight v)) (run_until v rs d).1.1 s ∧
       flow_state (run_until v rs d).2 (run_until v rs d).1.2 s.
Proof.
  revert v d; induction rs as [|r rs IH]; intros v d; cbn [Delivery.run_until].
  { exists (spec_of d (in_flight v)). split; [constructor|done]. }
  rewrite bind_run. cbn [fst snd]. destruct (iterate_steps v r d) as (s & H1 & H2).
  destruct (iterate v r d) as [[tr f] d1]; cbn [fst snd] in *.
  destruct f as [v'| | |]; cbn [ret fst snd];
    [|exists s; rewrite app_nil_r; split; done..].
  cbn in H2. subst s. destruct (IH v' d1) as (s & H3 & H4). exists s. eauto with agent.
Qed.

Lemma good_finish o dl t1 t2 l1 l2 io :
  good (finish agent_block agent_id keypair heartbeat paths o dl t1 t2 l1 l2 io).
Proof. unfold finish. good_tac. Qed.

(** The events of the POSTs formed when the loop stops: delivered, dropped, or of
    the POST in flight. *)
Lemma stopped_formed rs d tr o d' :
  run_until vars_init rs d = (tr, Stopped o, d') →
  length (events_of (formed tr)) =
    (length (events_of (delivered tr)) + length (events_of (dropped tr))
     + length (events_of (flight_list o)))%nat.
Proof.
  intros E. destruct (run_steps vars_init rs d) as (s & Hs & Hf).
  rewrite E in Hs, Hf. cbn [fst snd flow_state] in *. subst s.
  pose proof (PostSpec.steps_fifo _ _ _ _ Hs) as Hfifo. cbn [PostSpec.open spec_of vars_init
    in_flight phase_of PostSpec.current app] in Hfifo.
  replace (PostSpec.open (spec_of d' o)) with (flight_list o) in Hfifo by (by destruct o).
  pose proof (steps_given_up _ _ _ _ Hs) as Hgu. pose proof (resolved_events tr) as Hres.
  rewrite <- Hfifo, events_of_app, length_app, Hres, Hgu. cbn. lia.
Qed.

Lemma stopped_formed_perm rs d tr o d' :
  run_until vars_init rs d = (tr, Stopped o, d') →
  events_of (formed tr) ≡ₚ events_of (delivered tr) ++ events_of (dropped tr) ++ events_of (flight_list o).
Proof.
  intros E. destruct (run_steps vars_init rs d) as (s & Hs & Hf).
  rewrite E in Hs, Hf. cbn [fst snd flow_state] in *. subst s.
  pose proof (PostSpec.steps_fifo _ _ _ _ Hs) as Hfifo. cbn [PostSpec.open spec_of vars_init
    in_flight phase_of PostSpec.current app] in Hfifo.
  replace (PostSpec.open (spec_of d' o)) with (flight_list o) in Hfifo by (by destruct o).
  pose proof (steps_given_up _ _ _ _ Hs) as Hgu. pose proof (resolved_perm tr) as Hres.
  rewrite <- Hfifo, events_of_app, Hres, Hgu. cbn. by rewrite app_assoc.
Qed.

Lemma capture_events l d :
  formed (capture l d).1.1 = [] ∧ dropped (capture l d).1.1 = [] ∧ delivered (capture l d).1.1 = [].
Proof.
  destruct (quiet_capture l d) as [_ [x ->]]. destruct (onring_trace x) as (_ & ? & ? & ?). done.
Qed.

Lemma form_batch_events l d :
  formed (form_batch l d).1.1 = [(form_batch l d).1.2] ∧ dropped (form_batch l d).1.1 = [] ∧
  delivered (form_batch l d).1.1 = [].
Proof.
  unfold form_batch. rewrite bind_run; cbn [fst snd].
  destruct (capture_events l d) as (H1 & H2 & H3). unfold formed, dropped, delivered in *.
  rewrite !omap_app, H1, H2, H3. set (d1 := (capture l d).2). by destruct (ring d1).
Qed.

(** The final POST: one batch, delivered or counted as undelivered. *)
Lemma finish_delivers o dl t1 t2 l1 l2 io d :
  let '(tr, fin, d') := finish agent_block agent_id keypair heartbeat paths o dl t1 t2 l1 l2 io d in
  ∃ b, flight_list o ++ formed tr = [b] ∧ dropped tr = [] ∧
    let left := match ring d' with Some r => ring_len r | None => 0%nat end in
    ((delivered tr = [b] ∧ undelivered_count fin = left) ∨
     (delivered tr = [] ∧ undelivered_count fin = (left + length (batch_events b))%nat)).
Proof.
  unfold finish. rewrite bind_run.
  set (m := match o with Some p => ret (batch p) | None => form_batch l1 end).
  assert (flight_list o ++ formed (m d).1.1 = [(m d).1.2] ∧ dropped (m d).1.1 = [] ∧
          delivered (m d).1.1 = []) as (H1 & H2 & H3).
  { subst m. destruct o as [p|]; [done|]. apply form_batch_events. }
  destruct (m d) as [[tr1 b] d1]; cbn [fst snd] in *. clear m.
  destruct (match dl with Some _ => _ | None => _ end) as [tmo bounded].
  set (res := attempt_within _ _ _ b GoingOffline (io tmo)). clearbody res.
  rewrite bind_run. set (m2 := match res with Ok a => emit (Attempted b a) | Err _ => ret tt end).
  rewrite bind_run. cbn [fst snd]. set (d2 := (m2 d1).2). rewrite bind_run. cbn [fst snd get_ring ret].
  destruct (capture_events l2 d2) as (K1 & K2 & K3).
  exists b. unfold formed, dropped, delivered in *.
  rewrite !omap_app, K1, K2, K3, H2, H3, !app_nil_r, app_assoc, H1.
  destruct res as [[]|]; cbn; rewrite ?app_nil_r, ?Nat.add_0_r; (split; [done|]; split; [done|]); auto.
Qed.

Lemma finish_accounts o dl t1 t2 l1 l2 io d :
  let '(tr, fin, d') := finish agent_block agent_id keypair heartbeat paths o dl t1 t2 l1 l2 io d in
  ∃ b, flight_list o ++ formed tr = [b] ∧ dropped tr = [] ∧
    (undelivered_count fin + length (events_of (delivered tr)))%nat =
      (match ring d' with Some r => ring_len r | None => 0 end + length (batch_events b))%nat.
Proof.
  pose proof (finish_delivers o dl t1 t2 l1 l2 io d) as H.
  destruct (finish _ _ _ _ _ _ _ _ _ _ _ _ d) as [[tr fin] d']. destruct H as (b & H1 & H2 & H3).
  exists b. split_and!; [done..|]. cbn in H3.
  destruct H3 as [[-> ->]|[-> ->]]; cbn; rewrite ?app_nil_r; lia.
Qed.

(** What a trace over a ring of non-zero capacity accounts for. *)
Lemma tracks_accounts cap d tr d' :
  (0 < cap)%nat → ring d = Some (new cap) → tracks d tr d' →
  ∃ r lost, ring d' = Some r ∧
    length (accepted (ops tr)) = (length (events_of (formed tr)) + ring_len r + lost)%nat ∧
    dropped_total r = wrap_u 64 (Z.of_nat lost + Z.of_nat (length (events_of (dropped tr)))) ∧
    (events_of (formed tr) ++ (render_event <$> snapshot_events r))
      `sublist_of` (render_event <$> accepted (ops tr)).
Proof.
  intros Hcap Hd Ht. unfold tracks in Ht. rewrite Hd in Ht. destruct Ht as (H1 & H2 & H3).
  destruct (rel_run cap 0 _ _ (ops tr) Hcap (rel_init cap)) as [Ho (Hc & Hs & Hf & Hdt)].
  pose proof (shape_run cap RingSpec.init (ops tr) ltac:(simpl; lia)) as (K1 & K2 & K3 & K4).
  destruct (ring_run (new cap) (ops tr)) as [out r],
    (RingSpec.run cap RingSpec.init (ops tr)) as [out' s']; cbn [fst snd] in *; subst out'.
  exists r, (RingSpec.lost s'). rewrite H2, H3 in *. rewrite <- snapshot_length, Hs, length_fmap.
  split_and!; [done| | |].
  - unfold RingSpec.retained. rewrite length_drop, K1. cbn in *. rewrite K1 in K3. lia.
  - rewrite Hdt. f_equal. lia.
  - rewrite <- fmap_app. by apply fmap_sublist.
Qed.

(** The same with the events themselves. *)
Lemma tracks_events cap d tr d' :
  (0 < cap)%nat → ring d = Some (new cap) → tracks d tr d' →
  ∃ r evicted, ring d' = Some r ∧
    (render_event <$> accepted (ops tr)) ≡ₚ
      events_of (formed tr) ++ (render_event <$> snapshot_events r) ++ evicted ∧
    dropped_total r = wrap_u 64 (Z.of_nat (length evicted) + Z.of_nat (length (events_of (dropped tr)))).
Proof.
  intros Hcap Hd Ht. destruct (tracks_accounts cap d tr d' Hcap Hd Ht) as (r & lost & Hr & Hlen & Hdt & Hsub).
  apply sublist_submseteq, submseteq_Permutation in Hsub as [evicted Hp].
  exists r, evicted. split; [done|]. rewrite app_assoc. split; [done|].
  apply Permutation_length in Hp. rewrite !length_app, !length_fmap, snapshot_length in Hp.
  rewrite Hdt. f_equal. lia.
Qed.
End LoopLemmas.

(** *** The timeline *)

Section Timeline.
Context (heartbeat : HeartbeatConfig) (start_time : Instant).
Notation interval := (interval heartbeat).
Notation tick_at := (tick_at heartbeat start_time).

(** The instants for which the tick index and the durations fit. *)
Definition timeline_ok (now : Instant) : Prop :=
  0 < interval_seconds heartbeat ∧
  (now - start_time) / interval + 1 ≤ u32_max ∧
  interval * ((now - start_time) / interval + 1) ≤ DURATION_MAX.

Lemma interval_pos now : timeline_ok now → 0 < interval.
Proof. unfold timeline_ok, Delivery.interval, seconds. lia. Qed.

Lemma tick_at_le now k :
  timeline_ok now → 0 ≤ k → start_time ≤ now →
  (tick_at k ≤ now ↔ k ≤ (now - start_time) / interval).
Proof.
  intros H Hk Hnow. pose proof (interval_pos _ H) as Hi. destruct H as (_ & _ & Hmax).
  unfold Delivery.tick_at. set (q := (now - start_time) / interval) in *.
  pose proof (Z.mul_div_le (now - start_time) interval Hi).
  pose proof (Z.mul_succ_div_gt (now - start_time) interval Hi). fold q in H, H0.
  split.
  - intros Ht. destruct (Z.le_gt_cases k q); [done|].
    assert (interval * (q + 1) ≤ interval * k) by (apply Z.mul_le_mono_nonneg_l; lia). lia.
  - intros Ht. assert (interval * k ≤ interval * q) by (apply Z.mul_le_mono_nonneg_l; lia). lia.
Qed.

Lemma catch_up_spec fuel now k :
  timeline_ok now → 0 ≤ k ≤ (now - start_time) / interval + 1 → start_time ≤ now →
  (now - start_time) / interval + 1 - k < Z.of_nat fuel →
  catch_up heartbeat start_time fuel now k = Some ((now - start_time) / interval + 1).
Proof.
  intros H. revert k; induction fuel as [|f IH]; intros k Hk Hnow Hf; [lia|]. cbn [catch_up].
  pose proof (tick_at_le now k H ltac:(lia) Hnow) as Ht.
  destruct (Z.leb_spec (tick_at k) now) as [Hle|Hgt].
  - apply Ht in Hle. destruct H as (H1 & H2 & H3). unfold u32_max in *.
    rewrite sat_u_small by (unfold in_u; lia). apply IH; lia.
  - f_equal. destruct (Z.le_gt_cases k ((now - start_time) / interval)) as [Hle|]; [|lia].
    apply Ht in Hle. lia.
Qed.

Lemma tick_phase_spec v now :
  timeline_ok now → 0 ≤ next_tick v →
  ∃ v', tick_phase heartbeat start_time v now = Some v' ∧
    now < tick_at (next_tick v') ∧ next_tick v ≤ next_tick v' ∧
    (∀ k, next_tick v ≤ k < next_tick v' → tick_at k ≤ now) ∧
    heartbeat_due v' = heartbeat_due v || ((tick_at (next_tick v) <=? now) && negb (batch_post_since_tick v)) ∧
    in_flight v' = in_flight v.
Proof.
  intros H Hk. pose proof (interval_pos _ H) as Hi. unfold tick_phase.
  destruct (Z.leb_spec (tick_at (next_tick v)) now) as [Hle|Hgt].
  - assert (start_time ≤ now) as Hnow.
    { unfold Delivery.tick_at, DURATION_MAX, seconds, u64_max in Hle. nia. }
    pose proof (proj1 (tick_at_le now (next_tick v) H Hk Hnow) Hle).
    rewrite catch_up_spec by (done || unfold catch_up_fuel; lia).
    eexists. split; [done|]. cbn. split_and!; try done; try lia.
    + apply Z.nle_gt. rewrite tick_at_le by (done || lia). lia.
    + intros k ?. apply tick_at_le; done || lia.
    + by destruct (batch_post_since_tick v), (heartbeat_due v).
  - exists v. split_and!; try done; try (intros; lia). by rewrite orb_false_r.
Qed.
End Timeline.

(** *** Predicates on the actions and the result of a computation *)

Definition emits {A} (P : Action → Prop) (Q : A → Prop) (m : M A) : Prop :=
  ∀ d, Forall P (m d).1.1 ∧ Q (m d).1.2.

Lemma emits_bind {A B} P (Q : A → Prop) (R : B → Prop) (m : M A) (f : A → M B) :
  emits P Q m → (∀ a, Q a → emits P R (f a)) → emits P R (bind m f).
Proof.
  intros Hm Hf d. rewrite bind_run; cbn [fst snd]. destruct (Hm d) as [H1 H2].
  destruct (Hf _ H2 (m d).2) as [H3 H4]. split; [|done]. by apply Forall_app.
Qed.

Lemma emits_ret {A} P (Q : A → Prop) a : Q a → emits P Q (ret a).
Proof. by intros ? d. Qed.

Lemma emits_emit P a : P a → emits P (λ _, True) (emit a).
Proof. intros ? d. split; [|done]. by constructor. Qed.

Lemma emits_quiet {A} (P : Action → Prop) (m : M A) :
  (∀ op, P (OnRing op)) → quiet m → emits P (λ _, True) m.
Proof.
  intros HP Hq d. split; [|done]. destruct (Hq d) as [_ [l ->]]. by apply Forall_fmap, Forall_true.
Qed.

Lemma emits_form_batch P agent_id paths l :
  (∀ op, P (OnRing op)) → (∀ b, P (Formed b)) → emits P (λ _, True) (form_batch agent_id paths l).
Proof.
  intros HP HF. eapply emits_bind; [apply emits_quiet, quiet_capture; done|].
  intros _ _ d. split; [|done]. cbn. destruct (ring d); cbn; repeat constructor; auto.
Qed.

(** Every backoff waited is within the configured bounds. *)
Definition backoff_le (h : HeartbeatConfig) (ms : Z) : Prop :=
  ms ≤ Z.max (backoff_initial_ms h) (backoff_max_ms h).
Definition action_backoff (h : HeartbeatConfig) (a : Action) : Prop :=
  match a with Backoff ms => backoff_le h ms | _ => True end.
Definition flight_backoff (h : HeartbeatConfig) (o : option Pending) : Prop :=
  match o with Some p => backoff_le h (backoff_ms p) | None => True end.
Definition flow_backoff (h : HeartbeatConfig) (f : Flow) : Prop :=
  match f with Continue v => flight_backoff h (in_flight v) | Stopped o => flight_backoff h o | _ => True end.

Lemma next_backoff_le h x : backoff_le h (next_backoff x h).
Proof. unfold backoff_le, next_backoff. lia. Qed.

Lemma emits_resolve h p a :
  backoff_le h (backoff_ms p) → emits (action_backoff h) (flight_backoff h) (resolve h p a).
Proof.
  intros Hp. unfold resolve. destruct a as [|e|st].
  - by apply emits_ret.
  - repeat case_match; try (by apply emits_ret).
    eapply emits_bind; [by apply emits_emit|]. intros _ _. by apply emits_ret.
  - case_match; [|by apply emits_ret]. apply (emits_bind _ (λ _, True)); [|intros _ _; by apply emits_ret].
    apply (emits_bind _ (λ _, True)); [|intros _ _; by apply emits_emit].
    intros d. split; [|done]. destruct (ring d); cbn; repeat constructor.
Qed.

Section BackoffRun.
Context {W : WireCrypto}.
Context (agent_block : AgentBlock) (agent_id : string) (keypair : AgentKeypair).
Context (heartbeat : HeartbeatConfig) (start_time : Instant) (paths : DevicePathMap).

Lemma emits_iterate v r :
  flight_backoff heartbeat (in_flight v) →
  emits (action_backoff heartbeat) (flow_backoff heartbeat)
    (iterate agent_block agent_id keypair heartbeat start_time paths v r).
Proof.
  intros Hv. unfold iterate. destruct (tick_phase _ _ v (now r)) as [v1|] eqn:Ht;
    [|by apply emits_ret]. rewrite <- (tick_phase_flight _ _ _ _ _ Ht) in Hv.
  eapply emits_bind; [apply emits_quiet, quiet_capture; done|]. intros _ _.
  eapply emits_bind; [apply emits_quiet, quiet_overflow; done|]. intros _ _.
  eapply (emits_bind _ (λ v, flight_backoff heartbeat (in_flight v))).
  - unfold form_phase. destruct (in_flight v1) eqn:Hf; [apply emits_ret; by rewrite Hf|].
    eapply emits_bind; [apply emits_quiet, quiet_batch_due; done|]. intros due _.
    destruct (_ || due); [|apply emits_ret; by rewrite Hf].
    eapply emits_bind; [by apply emits_form_batch|]. intros b _. apply emits_ret.
    unfold flight_backoff, backoff_le; cbn. lia.
  - intros v2 Hv2. unfold send_phase. destruct (in_flight v2) as [p|] eqn:Hf.
    + eapply emits_bind; [apply emits_quiet, quiet_capture; done|]. intros _ _.
      destruct (attempt_io r) as [io|]; [|by apply emits_ret].
      destruct (attempt _ _ _ _ _ _) as [a|]; [|by apply emits_ret].
      eapply emits_bind; [by apply emits_emit|]. intros _ _.
      eapply emits_bind; [by apply emits_resolve|]. intros [p'|] Hp; [|by apply emits_ret].
      eapply emits_bind; [by apply emits_emit|]. intros _ _. apply emits_ret.
      destruct (stop r); apply next_backoff_le.
    + eapply emits_bind; [by apply emits_emit|]. intros _ _. apply emits_ret.
      destruct (stop r); [done|]. cbn. by rewrite Hf.
Qed.
End BackoffRun.

(** *** A triggered batch carries events *)

Definition buffered (d : Delivery) : Prop := ∃ r, ring d = Some r ∧ (0 < ring_len r)%nat.

Lemma capture_buffered l d : buffered d → buffered (capture l d).2.
Proof.
  intros (r & Hr & Hlen). unfold capture. rewrite Hr. cbn. eexists; split; [done|].
  clear Hr. revert r Hlen; induction l as [|p l IH]; intros r Hlen; [done|]. cbn.
  by apply IH, enqueue_nonempty.
Qed.

Lemma batch_due_buffered now l1 l2 d :
  (batch_due now l1 l2 d).1.2 = true → buffered (batch_due now l1 l2 d).2.
Proof.
  unfold batch_due. rewrite bind_run; cbn [fst snd]. set (d1 := (capture l1 d).2).
  rewrite bind_run; cbn [fst snd get_ring]. destruct (ring d1) as [r|] eqn:Hr; [|done].
  case_decide as Hlen.
  - intros _. exists r. split; [done|]. unfold MAX_BATCH_EVENTS in Hlen. lia.
  - rewrite bind_run; cbn [fst snd]. rewrite bind_run; cbn [fst snd get_ring ret].
    destruct (ring (capture l2 d1).2) as [r2|] eqn:Hr2; [|done].
    unfold oldest_enqueued_at. destruct (events r2) as [|x l] eqn:He; [done|]. intros _.
    exists r2. split; [done|]. unfold ring_len. rewrite He. cbn; lia.
Qed.

Lemma form_batch_buffered agent_id paths l d :
  buffered d → batch_events (form_batch agent_id paths l d).1.2 ≠ [].
Proof.
  intros Hb. apply (capture_buffered l) in Hb as (r & Hr & Hlen).
  unfold form_batch. rewrite bind_run; cbn [fst snd]. rewrite Hr. cbn -[MAX_BATCH_EVENTS].
  unfold ring_len in Hlen. intros E%(f_equal length). rewrite !length_fmap, length_take in E.
  change (length (@nil CgesEvent)) with 0%nat in E. unfold MAX_BATCH_EVENTS in E. lia.
Qed.

(** An empty POST formed only when [due]. *)
Definition formed_ok (due : bool) (a : Action) : Prop :=
  match a with Formed b => batch_events b = [] → due = true | _ => True end.

Lemma emits_resolve_any due h p a : emits (formed_ok due) (λ _, True) (resolve h p a).
Proof.
  unfold resolve. destruct a as [|e|st]; [by apply emits_ret|..].
  - repeat case_match; try (by apply emits_ret).
    eapply emits_bind; [by apply emits_emit|]. intros _ _. by apply emits_ret.
  - case_match; [|by apply emits_ret].
    apply (emits_bind _ (λ _, True)); [|intros _ _; by apply emits_ret].
    apply (emits_bind _ (λ _, True)); [|intros _ _; by apply emits_emit].
    intros d. split; [|done]. destruct (ring d); cbn; repeat constructor.
Qed.

Section FormedRun.
Context {W : WireCrypto}.
Context (agent_block : AgentBlock) (agent_id : string) (keypair : AgentKeypair).
Context (heartbeat : HeartbeatConfig) (start_time : Instant) (paths : DevicePathMap).

Lemma emits_send_phase due v r :
  emits (formed_ok due) (λ _, True)
    (send_phase agent_block agent_id keypair heartbeat start_time v r).
Proof.
  unfold send_phase. destruct (in_flight v) as [p|].
  - apply (emits_bind _ (λ _, True)); [apply emits_quiet, quiet_capture; done|]. intros _ _.
    destruct (attempt_io r) as [io|]; [|by apply emits_ret].
    destruct (attempt _ _ _ _ _ _) as [a|]; [|by apply emits_ret].
    apply (emits_bind _ (λ _, True)); [by apply emits_emit|]. intros _ _.
    apply (emits_bind _ (λ _, True)); [apply emits_resolve_any|].
    intros [p'|] _; [|by apply emits_ret].
    apply (emits_bind _ (λ _, True)); [by apply emits_emit|]. intros _ _. by apply emits_ret.
  - apply (emits_bind _ (λ _, True)); [by apply emits_emit|]. intros _ _. by apply emits_ret.
Qed.

Lemma form_batch_formed_ok l d due :
  (buffered d ∨ due = true) →
  Forall (formed_ok due) (form_batch agent_id paths l d).1.1.
Proof.
  intros Hd. destruct (form_batch_events agent_id paths l d) as (Hf & _).
  apply Forall_forall. intros a Ha. destruct a as [| b' | | | | |]; try done.
  assert (b' ∈ formed (form_batch agent_id paths l d).1.1) as Hb
    by (apply list_elem_of_omap; by exists (Formed b')).
  rewrite Hf in Hb. apply list_elem_of_singleton in Hb as ->. intros E.
  destruct Hd as [Hd|]; [|done]. by destruct (form_batch_buffered agent_id paths l d Hd).
Qed.

Lemma emits_form_phase v r :
  emits (formed_ok (heartbeat_due v)) (λ _, True) (form_phase agent_id heartbeat paths v r).
Proof.
  unfold form_phase. destruct (in_flight v); [by apply emits_ret|]. intros d. split; [|done].
  rewrite bind_run; cbn [fst snd]. apply Forall_app. split.
  { destruct (quiet_batch_due (now r) (at_len r) (at_oldest r) d) as [_ [l ->]].
    by apply Forall_fmap, Forall_true. }
  pose proof (batch_due_buffered (now r) (at_len r) (at_oldest r) d) as Hdue.
  destruct (batch_due (now r) (at_len r) (at_oldest r) d) as [[t due] d1]; cbn [fst snd] in *.
  destruct (heartbeat_due v || due) eqn:Ho; [|constructor].
  rewrite bind_run; cbn [fst snd ret]. rewrite app_nil_r. apply form_batch_formed_ok.
  apply orb_true_iff in Ho as [->| ->]; auto.
Qed.
End FormedRun.

(** ** Properties *)

Section Properties.
Context {W : WireCrypto}.
Context (agent_block : AgentBlock) (agent_id : string) (keypair : AgentKeypair).
Context (heartbeat : HeartbeatConfig) (start_time : Instant) (paths : DevicePathMap).

Notation run_until := (run_until agent_block agent_id keypair heartbeat start_time paths).
Notation finish := (finish agent_block agent_id keypair heartbeat paths).

(** C1 The delivery loop implements the life cycle of a POST: whatever the
    environment does, the actions of any run from the start follow [PostSpec]
    (one POST at a time, retries of the same POST, given up without events
    after [max_retries] transient failures, dropped after [max_retries]
    rejections, otherwise delivered), and the POST in flight when the loop is
    between iterations or stopped is the one the life cycle has open. *)
Theorem delivery_follows_lifecycle (rounds : list Round) (ring : option EventRing) :
  let '(tr, f, d) := run_until vars_init rounds (delivery_new ring) in
  ∃ s, PostSpec.steps (max_retries heartbeat)
         {| PostSpec.last_sequence := 0; PostSpec.current := PostSpec.Ready |} tr s ∧
       flow_state d f s.
Proof.
  pose proof (run_steps agent_block agent_id keypair heartbeat start_time paths
                vars_init rounds (delivery_new ring)) as H.
  by destruct (run_until vars_init rounds (delivery_new ring)) as [[tr f] d].
Qed.

(** C25 No captured event is lost unaccounted: after any run over a ring of
    non-zero capacity, the events accepted are those delivered, those of
    batches dropped after rejections, those of the at most one POST still open,
    those buffered, and those the ring evicted; the ring's counter is the
    evictions and the dropped batches' events (modulo [2 ^ 64]); and the POSTs'
    events followed by those buffered are the accepted ones, each rendered
    once, in order. *)
Theorem delivery_conserves_events (cap : nat) (rounds : list Round) :
  (0 < cap)%nat →
  let '(tr, f, d) := run_until vars_init rounds (delivery_new (Some (new cap))) in
  ∃ r lost opened,
    ring d = Some r ∧ formed tr = resolved tr ++ opened ∧ (length opened ≤ 1)%nat ∧
    (∀ v, f = Continue v → opened = flight_list (in_flight v)) ∧
    (∀ o, f = Stopped o → opened = flight_list o) ∧
    length (accepted (ops tr)) =
      (length (events_of (delivered tr)) + length (events_of (dropped tr))
       + length (events_of opened) + ring_len r + lost)%nat ∧
    dropped_total r = wrap_u 64 (Z.of_nat lost + Z.of_nat (length (events_of (dropped tr)))) ∧
    (events_of (formed tr) ++ (render_event agent_id paths <$> snapshot_events r))
      `sublist_of` (render_event agent_id paths <$> accepted (ops tr)).
Proof.
  intros Hcap.
  pose proof (good_run agent_block agent_id keypair heartbeat start_time paths vars_init rounds
                (delivery_new (Some (new cap)))) as Hg.
  destruct (run_steps agent_block agent_id keypair heartbeat start_time paths
              vars_init rounds (delivery_new (Some (new cap)))) as (s & Hs & Hf).
  destruct (run_until vars_init rounds (delivery_new (Some (new cap)))) as [[tr f] d]; cbn [fst snd] in *.
  destruct (tracks_accounts agent_id paths cap (delivery_new (Some (new cap))) tr d Hcap eq_refl Hg)
    as (r & lost & Hr & Hlen & Hdt & Hsub).
  pose proof (PostSpec.steps_fifo _ _ _ _ Hs) as Hfifo. cbn in Hfifo.
  pose proof (steps_given_up _ _ _ _ Hs) as Hgu.
  exists r, lost, (PostSpec.open s). split_and!; try done.
  - unfold PostSpec.open. destruct (PostSpec.current s); simpl; lia.
  - intros v ->. cbn in Hf. subst s. by destruct (in_flight v).
  - intros o ->. cbn in Hf. subst s. by destruct o.
  - rewrite Hlen, <- Hfifo, events_of_app, length_app, resolved_events, Hgu. simpl. lia.
Qed.

(** C27 POSTs go out in order under consecutive sequence numbers: over any run
    the [i]-th POST formed has sequence number [i + 1] (modulo [2 ^ 64]) and at
    most 1024 events, POSTs are done with in the order they were formed, and
    every attempt is of the last POST formed. *)
Theorem posts_in_order (rounds : list Round) (ring : option EventRing) :
  let '(tr, f, d) := run_until vars_init rounds (delivery_new ring) in
  (∀ i b, formed tr !! i = Some b →
     batch_sequence b = wrap_u 64 (Z.of_nat i + 1) ∧
     (length (batch_events b) ≤ MAX_BATCH_EVENTS)%nat) ∧
  resolved tr `prefix_of` formed tr ∧
  (∀ tr1 b a tr2, tr = tr1 ++ Attempted b a :: tr2 → last (formed tr1) = Some b).
Proof.
  destruct (run_steps agent_block agent_id keypair heartbeat start_time paths
              vars_init rounds (delivery_new ring)) as (s & Hs & Hf).
  destruct (run_until vars_init rounds (delivery_new ring)) as [[tr f] d]; cbn [fst snd] in *.
  split_and!.
  - intros i b Hi. destruct (PostSpec.steps_sequence _ _ _ _ i b Hs Hi) as [H1 H2]. done.
  - exists (PostSpec.open s). by rewrite (PostSpec.steps_fifo _ _ _ _ Hs).
  - intros tr1 b a tr2 ->. destruct (PostSpec.steps_split _ _ _ _ _ _ Hs) as (s0 & s1 & H1 & H2).
    pose proof (PostSpec.steps_fifo _ _ _ _ H1) as Hfifo. cbn in Hfifo. rewrite <- Hfifo.
    inversion H2; subst; unfold PostSpec.open; cbn; by rewrite last_snoc.
Qed.

(** A batch is dropped for rejections after exactly [max_retries] of them
    (one when [max_retries] is 0), and an empty heartbeat is given up on after
    exactly [max_retries] transient failures (likewise); a POST with events is
    never given up on, however often it fails transiently. *)
Theorem abandoned_after_max_retries (rounds : list Round) (ring : option EventRing) :
  in_u 32 (max_retries heartbeat) →
  let '(tr, f, d) := run_until vars_init rounds (delivery_new ring) in
  (∀ tr1 b st tr2, tr = tr1 ++ DroppedBatch b st :: tr2 →
     last (formed tr1) = Some b ∧
     foldl PostSpec.count_rejected 0 tr1 = Z.max 1 (max_retries heartbeat)) ∧
  (∀ tr1 b tr2, tr = tr1 ++ GaveUp b :: tr2 →
     last (formed tr1) = Some b ∧ batch_events b = [] ∧
     foldl PostSpec.count_transient 0 tr1 = Z.max 1 (max_retries heartbeat)).
Proof.
  intros Hm.
  destruct (run_steps agent_block agent_id keypair heartbeat start_time paths
              vars_init rounds (delivery_new ring)) as (s & Hs & Hf).
  destruct (run_until vars_init rounds (delivery_new ring)) as [[tr f] d]; cbn [fst snd] in *.
  unfold in_u in Hm. split.
  - intros tr1 b st tr2 ->. destruct (PostSpec.steps_split _ _ _ _ _ _ Hs) as (s0 & s1 & H1 & H2).
    pose proof (PostSpec.steps_rejections _ 0 _ _ _ Hm H1 I) as Hc.
    pose proof (PostSpec.steps_fifo _ _ _ _ H1) as Hfifo. cbn in Hfifo. rewrite <- Hfifo.
    inversion H2; subst; unfold PostSpec.open, PostSpec.rejections_exact in *; cbn in *.
    split; [by rewrite last_snoc|]. lia.
  - intros tr1 b tr2 ->. destruct (PostSpec.steps_split _ _ _ _ _ _ Hs) as (s0 & s1 & H1 & H2).
    pose proof (PostSpec.steps_transients _ 0 _ _ _ Hm H1 I) as Hc.
    pose proof (PostSpec.steps_fifo _ _ _ _ H1) as Hfifo. cbn in Hfifo. rewrite <- Hfifo.
    inversion H2; subst; unfold PostSpec.open, PostSpec.transients_exact in *; cbn in *.
    split_and!; [by rewrite last_snoc|done|]. destruct Hc; [done|]. lia.
Qed.

(** The shutdown accounts for every event: after any run that stopped and
    the final POST that follows it, each event accepted since the start was
    delivered, was in a batch dropped after rejections, was evicted by the
    ring, or is in the count of undelivered events reported. *)
Theorem shutdown_accounts_for_every_event (cap : nat) (rounds : list Round) (o : option Pending)
    (deadline : option Instant) (left_at done_at : Instant) (at_drain at_end : Captured)
    (io : Z → AttemptIo) :
  (0 < cap)%nat →
  (run_until vars_init rounds (delivery_new (Some (new cap)))).1.2 = Stopped o →
  let '(tr1, _, d1) := run_until vars_init rounds (delivery_new (Some (new cap))) in
  let '(tr2, fin, d2) := finish o deadline left_at done_at at_drain at_end io d1 in
  let tr := tr1 ++ tr2 in
  ∃ r lost,
    ring d2 = Some r ∧
    length (accepted (ops tr)) =
      (length (events_of (delivered tr)) + length (events_of (dropped tr))
       + lost + undelivered_count fin)%nat ∧
    dropped_total r = wrap_u 64 (Z.of_nat lost + Z.of_nat (length (events_of (dropped tr)))).
Proof.
  intros Hcap.
  pose proof (good_run agent_block agent_id keypair heartbeat start_time paths vars_init rounds
                (delivery_new (Some (new cap)))) as Hg.
  destruct (run_until vars_init rounds (delivery_new (Some (new cap)))) as [[tr1 f] d1] eqn:Erun;
    cbn [fst snd] in *. intros ->. apply stopped_formed in Erun.
  pose proof (good_finish agent_block agent_id keypair heartbeat paths o deadline left_at done_at
                at_drain at_end io d1) as Hg2.
  pose proof (finish_accounts agent_block agent_id keypair heartbeat paths o deadline left_at done_at
                at_drain at_end io d1) as Hfin.
  destruct (finish _ _ _ _ _ _ _ d1) as [[tr2 fin] d2]; cbn [fst snd] in *.
  destruct Hfin as (b & Hb & Hd & Hu).
  destruct (tracks_accounts agent_id paths cap (delivery_new (Some (new cap))) (tr1 ++ tr2) d2 Hcap eq_refl
              (tracks_trans _ _ _ _ _ _ _ Hg Hg2)) as (r & lost & Hr & Hlen & Hdt & _).
  exists r, lost. split_and!; [done| |done]. rewrite Hr in Hu. rewrite Hlen.
  apply (f_equal (λ l, length (events_of l))) in Hb. unfold formed, delivered, dropped in *.
  rewrite !omap_app, Hd, app_nil_r, !events_of_app, !length_app in *. cbn in Hb.
  rewrite app_nil_r in Hb. lia.
Qed.

(** Heartbeats stay on the absolute timeline: at any instant for which the
    tick index and the durations fit, the catch-up loop ends; the next tick is
    then the first one after now (every tick skipped was due), and a heartbeat
    falls due exactly when one was already due or a tick was reached with no
    batch POST formed since the previous one. *)
Theorem ticks_on_absolute_timeline (v : LoopVars) (now : Instant) :
  timeline_ok heartbeat start_time now → 0 ≤ next_tick v →
  ∃ v', tick_phase heartbeat start_time v now = Some v' ∧
    now < tick_at heartbeat start_time (next_tick v') ∧ next_tick v ≤ next_tick v' ∧
    (∀ k, next_tick v ≤ k < next_tick v' → tick_at heartbeat start_time k ≤ now) ∧
    heartbeat_due v' = heartbeat_due v
      || ((tick_at heartbeat start_time (next_tick v) <=? now) && negb (batch_post_since_tick v)) ∧
    in_flight v' = in_flight v.
Proof. apply tick_phase_spec. Qed.

(** The wait between two attempts is bounded: over any run, every backoff
    waited is at most the larger of [backoff_initial_ms] and
    [backoff_max_ms], whatever the backoff factor. *)
Theorem backoff_bounded (rounds : list Round) (ring : option EventRing) (ms : Z) :
  Backoff ms ∈ (run_until vars_init rounds (delivery_new ring)).1.1 →
  ms ≤ Z.max (backoff_initial_ms heartbeat) (backoff_max_ms heartbeat).
Proof.
  assert (∀ rs v, flight_backoff heartbeat (in_flight v) →
    emits (action_backoff heartbeat) (λ _, True) (run_until v rs)) as H.
  { induction rs as [|r rs IH]; intros v Hv; cbn [Delivery.run_until]; [by apply emits_ret|].
    eapply emits_bind; [by apply emits_iterate|]. intros [v'| | |] Hf; try (by apply emits_ret).
    by apply IH. }
  destruct (H rounds vars_init I (delivery_new ring)) as [Hall _].
  rewrite Forall_forall in Hall. intros Hin. apply (Hall _ Hin).
Qed.

(** A POST without events is a heartbeat: an iteration forms one only when
    a heartbeat is due after its tick check; a POST a batch trigger asked for
    carries at least one event, whatever the capture threads do in between. *)
Theorem empty_post_only_on_heartbeat (v : LoopVars) (r : Round) (d : Delivery) (b : Batch) :
  Formed b ∈ (iterate agent_block agent_id keypair heartbeat start_time paths v r d).1.1 →
  batch_events b = [] →
  ∃ v1, tick_phase heartbeat start_time v (now r) = Some v1 ∧ heartbeat_due v1 = true.
Proof.
  unfold iterate. destruct (tick_phase _ _ v (now r)) as [v1|]; [|by intros ?%elem_of_nil].
  intros Hin He. exists v1. split; [done|].
  assert (emits (formed_ok (heartbeat_due v1)) (λ _, True)
    (bind (capture (at_check r)) (λ _, bind (check_overflow (now r)) (λ _,
            bind (form_phase agent_id heartbeat paths v1 r)
              (λ v2, send_phase agent_block agent_id keypair heartbeat start_time v2 r))))) as H.
  { apply (emits_bind _ (λ _, True)); [apply emits_quiet, quiet_capture; done|]. intros _ _.
    apply (emits_bind _ (λ _, True)); [apply emits_quiet, quiet_overflow; done|]. intros _ _.
    apply (emits_bind _ (λ _, True)); [apply emits_form_phase|]. intros. apply emits_send_phase. }
  destruct (H d) as [Hall _]. rewrite Forall_forall in Hall. exact (Hall _ Hin He).
Qed.
End Properties.

(** ** Concrete runs *)

Definition sample_io (sent : option SendResult) : AttemptIo :=
  {| io_wall := "2026-01-01T00:00:00.000Z"; io_elapsed := 0; io_nonce := Ok []; io_sent := sent |}.

Definition sample_round (now : Instant) (captured : Captured) (io : option AttemptIo) : Round :=
  {| now := now; now_idle := now; at_check := captured; at_len := []; at_oldest := [];
     at_drain := []; at_attempt := []; attempt_io := io; stop := false |}.

(** A heartbeat with one event is refused three times, the next one is
    interrupted by the shutdown. *)
Definition sample_rounds : list Round :=
  [sample_round 0 [(0, Network (sample_network 1))] (Some (sample_io (Some (Status 409))));
   sample_round 1 [] (Some (sample_io (Some (Status 409))));
   sample_round 2 [(2, Network (sample_network 2))] (Some (sample_io (Some (Status 409))));
   sample_round (seconds 30) [] (Some (sample_io None));
   sample_round (seconds 31) [] None].

Notation sample_run :=
  (run_until (W := ToyCrypto.toy) sample_block "agent" (keypair_of (W := ToyCrypto.toy) tt)
    heartbeat_default 0 empty_map vars_init sample_rounds (delivery_new (Some (new 8)))).

Lemma delivery_conserves_events_witness :
  ∃ (r : EventRing) (lost : nat) opened,
    length (accepted (ops sample_run.1.1)) =
      (length (events_of (delivered sample_run.1.1)) + length (events_of (dropped sample_run.1.1))
       + length (events_of opened) + ring_len r + lost)%nat ∧
    length (events_of (dropped sample_run.1.1)) = 1%nat.
Proof.
  pose proof (delivery_conserves_events (W := ToyCrypto.toy) sample_block "agent"
    (keypair_of (W := ToyCrypto.toy) tt) heartbeat_default 0 empty_map 8 sample_rounds
    ltac:(lia)) as H.
  destruct (run_until _ _ _ _ _ _ _ _ _) as [[tr f] d] eqn:E.
  destruct H as (r & lost & opened & _ & _ & _ & _ & _ & H & _).
  exists r, lost, opened. split; [exact H|].
  cbn [fst]. apply (f_equal (λ x, x.1.1)) in E. cbn [fst] in E. rewrite <- E. vm_compute. reflexivity.
Defined.

Lemma abandoned_after_max_retries_witness :
  in_u 32 (max_retries heartbeat_default) ∧
  ∀ tr1 b st tr2, sample_run.1.1 = tr1 ++ DroppedBatch b st :: tr2 →
    foldl PostSpec.count_rejected 0 tr1 = 3.
Proof.
  split; [by vm_compute|].
  pose proof (abandoned_after_max_retries (W := ToyCrypto.toy) sample_block "agent"
    (keypair_of (W := ToyCrypto.toy) tt) heartbeat_default 0 empty_map sample_rounds (Some (new 8))
    ltac:(by vm_compute)) as H.
  destruct (run_until _ _ _ _ _ _ _ _ _) as [[tr f] d].
  intros tr1 b st tr2 E. exact (proj2 (proj1 H tr1 b st tr2 E)).
Defined.

(** The second event is in flight when the loop stops, and the final POST is
    refused: it is counted. *)
Definition sample_left : option Pending :=
  match sample_run.1.2 with Stopped o => o | _ => None end.

Definition sample_finish (d : Delivery) :=
  finish (W := ToyCrypto.toy) sample_block "agent" (keypair_of (W := ToyCrypto.toy) tt)
    heartbeat_default empty_map sample_left None (seconds 31) (seconds 32) [] []
    (λ _, sample_io (Some (Status 409))) d.

Lemma sample_stopped : sample_run.1.2 = Stopped sample_left.
Proof. vm_compute. reflexivity. Qed.

Lemma sample_undelivered : undelivered_count (sample_finish sample_run.2).1.2 = 1%nat.
Proof. vm_compute. reflexivity. Qed.

Lemma shutdown_accounts_for_every_event_witness :
  ∃ (lost : nat),
    length (accepted (ops (sample_run.1.1 ++ (sample_finish sample_run.2).1.1))) =
      (length (events_of (delivered (sample_run.1.1 ++ (sample_finish sample_run.2).1.1)))
       + length (events_of (dropped (sample_run.1.1 ++ (sample_finish sample_run.2).1.1)))
       + lost + 1)%nat.
Proof.
  rewrite <- sample_undelivered.
  pose proof (shutdown_accounts_for_every_event (W := ToyCrypto.toy) sample_block "agent"
    (keypair_of (W := ToyCrypto.toy) tt) heartbeat_default 0 empty_map 8 sample_rounds sample_left
    None (seconds 31) (seconds 32) [] [] (λ _, sample_io (Some (Status 409)))
    ltac:(lia) sample_stopped) as H.
  unfold sample_finish in *. destruct (run_until _ _ _ _ _ _ _ _ _) as [[tr f] d].
  cbn [fst snd] in *.
  destruct (finish _ _ _ _ _ _ _ _ _ _ _ _ d) as [[tr2 fin] d2]. cbn [fst snd] in *.
  destruct H as (r & lost & _ & H2 & _). exists lost. exact H2.
Defined.

Lemma ticks_on_absolute_timeline_witness :
  timeline_ok heartbeat_default 0 (seconds 95) ∧
  ∃ v', tick_phase heartbeat_default 0 vars_init (seconds 95) = Some v' ∧
        seconds 95 < tick_at heartbeat_default 0 (next_tick v').
Proof.
  assert (timeline_ok heartbeat_default 0 (seconds 95)) as Hok
    by (vm_compute; repeat split; discriminate).
  split; [exact Hok|].
  destruct (ticks_on_absolute_timeline heartbeat_default 0 vars_init (seconds 95) Hok ltac:(vm_compute; discriminate))
    as (v' & H1 & H2 & _). exists v'. split; [exact H1|exact H2].
Defined.

Lemma backoff_bounded_witness :
  Backoff 1000 ∈ sample_run.1.1 ∧ 1000 ≤ Z.max 1000 60000.
Proof.
  assert (Backoff 1000 ∈ sample_run.1.1) as Hin.
  { apply (list_elem_of_lookup_2 _ 4). vm_compute. reflexivity. }
  split; [exact Hin|].
  exact (backoff_bounded (W := ToyCrypto.toy) sample_block "agent"
    (keypair_of (W := ToyCrypto.toy) tt) heartbeat_default 0 empty_map sample_rounds (Some (new 8)) 1000 Hin).
Defined.

Lemma empty_post_only_on_heartbeat_witness :
  ∃ v1, tick_phase heartbeat_default 0 vars_init 5 = Some v1 ∧ heartbeat_due v1 = true.
Proof.
  apply (empty_post_only_on_heartbeat (W := ToyCrypto.toy) sample_block "agent"
    (keypair_of (W := ToyCrypto.toy) tt) heartbeat_default 0 empty_map vars_init
    (sample_round 5 [] None) (delivery_new None) {| batch_sequence := 1; batch_events := [] |});
    [|reflexivity].
  vm_compute. apply list_elem_of_here.
Defined.

(** The default backoff doubles up to its cap. *)
Example default_backoffs :
  (λ x, next_backoff x heartbeat_default) <$> [1000; 2000; 32000; 60000] = [2000; 4000; 60000; 60000].
Proof. vm_compute. reflexivity. Qed.

(** A NaN factor makes every wait but the first zero. *)
Example nan_backoff_is_zero :
  next_backoff 1000
    {| interval_seconds := 30; request_timeout_seconds := 10; max_retries := 3; backoff_initial_ms := 1000;
       backoff_factor := SpecFloat.S754_nan; backoff_max_ms := 60000 |} = 0.
Proof. vm_compute. reflexivity. Qed.
