(* ===== verification/Rotation.v ===== *)
(** * The service's rotating log ([service/rotation.rs])

    One active file, five archives, and the name the active file has while it
    rotates. The directory is a map from names to contents; every file
    operation may fail, as the list of faults the environment holds says, a
    write after part of it, and a test of a file's existence by answering that
    there is none. A failed operation leaves what was done before it,
    so the states a fault leaves are also those a crash leaves. *)

From S2P Require Import Prelude IpAddr Types Ring Dispatch Logon Paths Emit.
Open Scope Z_scope.

Definition MAX_FILE_BYTES : Z := 10 * 1024 * 1024.
Definition ARCHIVES : nat := 5.
Definition MAX_RECORD_BYTES : Z := 64 * 1024.
Definition ACTIVE : string := "agent.jsonl".
Definition ROTATING : string := "agent.rotating.jsonl".
Definition ROTATION_RETRY_LIMIT : Z := seconds 60.
Definition ROTATION_RETRY_EVERY : Z := seconds 1.

Definition archive_name (n : nat) : string := "agent." +:+ dec (Z.of_nat n) +:+ ".jsonl".

Definition len (s : string) : Z := Z.of_nat (String.length s).

(** ** The log and its world *)

Record RotatingLog := {
  active : bool;
  size : Z;
  pending : string;
  discarding : bool;
  line_len : Z;
  failed : bool;
  (** The callback, still to be called, and the reasons it was called with. *)
  on_failure : bool;
  reported : list string;
  rotation_failing : option (Instant * Instant);
  rotation_retry_limit : Z;
  unfinished : bool;
}.

(** A fault of the next operation: its text, and for a write how many bytes
    it wrote first. *)
Record Fault := { partial : nat; reason : string }.

(** The directory, the faults to come, the log, and (for the statements) the names whose
    test of existence met a fault, the oldest first. *)
Record World := { fs : gmap string string; faults : list (option Fault); log : RotatingLog; doubted : list string }.

(** State and error: an error keeps what was done. *)
Definition RM (A : Type) : Type := World → Result A string * World.
Definition rret {A} (a : A) : RM A := λ w, (Ok a, w).
Definition rerr {A} (e : string) : RM A := λ w, (Err e, w).
Definition rbind {A B} (m : RM A) (f : A → RM B) : RM B :=
  λ w, match m w with (Ok a, w') => f a w' | (Err e, w') => (Err e, w') end.
(** The result as a value: [let r = m;]. *)
Definition rtry {A} (m : RM A) : RM (Result A string) := λ w, let '(r, w') := m w in (Ok r, w').
Definition rget : RM RotatingLog := λ w, (Ok (log w), w).
Definition rput (l : RotatingLog) : RM unit := λ w, (Ok tt, {| fs := fs w; faults := faults w; log := l; doubted := doubted w |}).
Definition rmodify (f : RotatingLog → RotatingLog) : RM unit :=
  λ w, (Ok tt, {| fs := fs w; faults := faults w; log := f (log w); doubted := doubted w |}).

Declare Scope rotation_scope.
Notation "'do?' x ':=' m 'in' k" := (rbind m (λ x, k))
  (at level 10, x pattern, m at level 100, k at level 200) : rotation_scope.
Notation "m ';;?' k" := (rbind m (λ _, k)) (at level 100, right associativity) : rotation_scope.
Open Scope rotation_scope.

(** The next operation's fault, if any. *)
Definition next_fault : RM (option Fault) := λ w,
  (Ok (match faults w with Some f :: _ => Some f | _ => None end),
   {| fs := fs w; faults := tail (faults w); log := log w; doubted := doubted w |}).

(** An operation on the directory that does not fault. *)
Definition on_fs {A} (op : gmap string string → Result (A * gmap string string) string) : RM A := λ w,
  match op (fs w) with
  | Ok (a, fs') => (Ok a, {| fs := fs'; faults := faults w; log := log w; doubted := doubted w |})
  | Err e => (Err e, w)
  end.

Definition faulty {A} (m : RM A) : RM A :=
  do? f := next_fault in
  match f with Some f => rerr (reason f) | None => m end.

(** [Path::exists]: false also when the file's metadata cannot be read. *)
Definition exists_file (name : string) : RM bool := λ w,
  match faults w with
  | Some _ :: faults' => (Ok false, {| fs := fs w; faults := faults'; log := log w; doubted := doubted w ++ [name] |})
  | _ => (Ok (match fs w !! name with Some _ => true | None => false end),
          {| fs := fs w; faults := tail (faults w); log := log w; doubted := doubted w |})
  end.

(** [std::fs::rename]: the target is replaced. *)
Definition rename_file (from to : string) : RM unit :=
  faulty (on_fs (λ fs, match fs !! from with
                       | Some c => Ok (tt, <[to := c]> (delete from fs))
                       | None => Err "not found"
                       end)).

Definition remove_file (name : string) : RM unit :=
  faulty (on_fs (λ fs, match fs !! name with
                       | Some _ => Ok (tt, delete name fs)
                       | None => Err "not found"
                       end)).

(** The opener on the active file: created when absent; its size. *)
Definition opener : RM Z :=
  faulty (on_fs (λ fs, let c := default "" (fs !! ACTIVE) in Ok (len c, <[ACTIVE := c]> fs))).

Fixpoint take_str (n : nat) (s : string) : string :=
  match n, s with
  | S n', String a s' => String a (take_str n' s')
  | _, _ => EmptyString
  end.

(** [write_all] and [flush] on the active file's handle. *)
Definition write_active (b : string) : RM unit :=
  do? f := next_fault in
  let put text := on_fs (λ fs, Ok (tt, <[ACTIVE := default "" (fs !! ACTIVE) +:+ text]> fs)) in
  match f with
  | Some f => put (take_str (partial f) b) ;;? rerr (reason f)
  | None => put b
  end.

(** ** Operations of the log *)

Definition set_active (l : RotatingLog) (a : bool) (sz : Z) : RotatingLog :=
  {| active := a; size := sz; pending := pending l; discarding := discarding l; line_len := line_len l;
     failed := failed l; on_failure := on_failure l; reported := reported l;
     rotation_failing := rotation_failing l; rotation_retry_limit := rotation_retry_limit l;
     unfinished := unfinished l |}.
Definition set_unfinished (l : RotatingLog) (u : bool) : RotatingLog :=
  {| active := active l; size := size l; pending := pending l; discarding := discarding l;
     line_len := line_len l; failed := failed l; on_failure := on_failure l; reported := reported l;
     rotation_failing := rotation_failing l; rotation_retry_limit := rotation_retry_limit l;
     unfinished := u |}.
Definition set_failing (l : RotatingLog) (f : option (Instant * Instant)) : RotatingLog :=
  {| active := active l; size := size l; pending := pending l; discarding := discarding l;
     line_len := line_len l; failed := failed l; on_failure := on_failure l; reported := reported l;
     rotation_failing := f; rotation_retry_limit := rotation_retry_limit l; unfinished := unfinished l |}.
Definition set_line (l : RotatingLog) (p : string) (d : bool) (n : Z) : RotatingLog :=
  {| active := active l; size := size l; pending := p; discarding := d; line_len := n;
     failed := failed l; on_failure := on_failure l; reported := reported l;
     rotation_failing := rotation_failing l; rotation_retry_limit := rotation_retry_limit l;
     unfinished := unfinished l |}.

Definition reopen : RM unit :=
  rmodify (λ l, set_active l false (size l)) ;;?
  do? sz := opener in
  rmodify (λ l, set_active l true sz).

(** The first archive place without a file. *)
Fixpoint first_free (n left : nat) : RM (option nat) :=
  match left with
  | O => rret None
  | S left' => do? e := exists_file (archive_name n) in
               if e then first_free (S n) left' else rret (Some n)
  end.

(** [for n in (1..free).rev()]: archive [n] to [n + 1], from [k] down. *)
Fixpoint shift (k : nat) : RM unit :=
  match k with
  | O => rret tt
  | S k' => rename_file (archive_name k) (archive_name (S k)) ;;? shift k'
  end.

(** The active file to [ROTATING], unless a rotation is to be finished; written
    on in an active file whether or not it moved. *)
Definition set_aside : RM unit :=
  do? e := exists_file ROTATING in
  if e then rret tt
  else
    rmodify (λ l, set_active l false (size l)) ;;?
    do? renamed := rtry (rename_file ACTIVE ROTATING) in
    reopen ;;?
    match renamed with
    | Err e => rerr e
    | Ok _ => rmodify (λ l, set_unfinished l true)
    end.

(** The first free archive place, making one if all five are taken. *)
Definition free_place : RM nat :=
  do? free := first_free 1 ARCHIVES in
  match free with
  | Some n => rret n
  | None => remove_file (archive_name ARCHIVES) ;;? rret ARCHIVES
  end.

Definition rotate : RM unit :=
  set_aside ;;?
  do? free := free_place in
  shift (free - 1) ;;?
  rename_file ROTATING (archive_name 1) ;;?
  rmodify (λ l, set_unfinished l false).

Definition rotate_if_due (now : Instant) (n : Z) : RM unit :=
  do? l := rget in
  let full := (0 <? size l) && (MAX_FILE_BYTES <? size l + n) in
  if negb (unfinished l) && negb full then rret tt
  else if match rotation_failing l with
          | Some (_, tried) => sat_sub now tried <? ROTATION_RETRY_EVERY
          | None => false
          end then rret tt
  else
    do? r := rtry rotate in
    match r with
    | Ok _ => rmodify (λ l, set_failing l None)
    | Err e =>
        do? l := rget in
        let since := match rotation_failing l with Some (since, _) => since | None => now end in
        rmodify (λ l, set_failing l (Some (since, now))) ;;?
        if rotation_retry_limit l <=? sat_sub now since
        then rerr ("rotate: " +:+ e +:+ " (failing for " +:+ dec (sat_sub now since / seconds 1) +:+ " s)")
        else if active l then rret tt
        else
          do? r := rtry reopen in
          match r with
          | Ok _ => rret tt
          | Err e => rerr ("reopen after a failed rotation: " +:+ e)
          end
    end.

Definition newline : string := String (Ascii.ascii_of_N 10) "".

Definition append_raw (b : string) : RM unit :=
  do? l := rget in
  if active l then write_active b else rerr "no active log file".

Definition append (record : string) : RM unit := append_raw (record +:+ newline).

(** The failure is reported once. *)
Definition fail (why : string) : RM unit :=
  rmodify (λ l,
    {| active := false; size := size l; pending := pending l; discarding := discarding l;
       line_len := line_len l; failed := true; on_failure := false;
       reported := if on_failure l then reported l ++ [why] else reported l;
       rotation_failing := rotation_failing l; rotation_retry_limit := rotation_retry_limit l;
       unfinished := unfinished l |}).

Section Records.
(** [serde_json]'s text of a value, and the wall clock's text. *)
Context (json_to_string : Json → string) (timestamp : string).

Definition oversized_record (n : Z) : string :=
  json_to_string (JObject
    [("timestamp", JString timestamp); ("level", JString "WARN");
     ("fields", JObject
        [("message", JString "a log record was replaced: it exceeded the bound of one record");
         ("record_bytes", JNumber n); ("bound_bytes", JNumber MAX_RECORD_BYTES)]);
     ("target", JString "cg_agent::service::rotation")]).

(** What is written of a record. *)
Definition bounded_record (record : string) : string :=
  if MAX_RECORD_BYTES <? len record + 1 then oversized_record (len record) else record.

(** The retry: a newline ends the part the failed write left. *)
Definition retry_append (record : string) : RM unit :=
  do? l := rget in
  let before := size l in
  reopen ;;?
  do? l := rget in
  (if before <? size l
   then append_raw newline ;;? rmodify (λ l, set_active l (active l) (size l + 1))
   else rret tt) ;;?
  append record.

Definition write_record (now : Instant) (record : string) : RM unit :=
  do? l := rget in
  if failed l then rret tt
  else
    let record := bounded_record record in
    let n := len record + 1 in
    do? r := rtry (rotate_if_due now n) in
    match r with
    | Err why => fail why
    | Ok _ =>
        do? first := rtry (append record) in
        match first with
        | Ok _ => rmodify (λ l, set_active l (active l) (size l + n))
        | Err first =>
            do? second := rtry (retry_append record) in
            match second with
            | Err second => fail ("write: " +:+ first +:+ "; after reopening: " +:+ second)
            | Ok _ => rmodify (λ l, set_active l (active l) (size l + n))
            end
        end
    end.

(** ** Lines out of the bytes received *)

Definition take_bytes (b : string) : RM unit :=
  rmodify (λ l,
    let n := line_len l + len b in
    if discarding l then set_line l (pending l) true n
    else if MAX_RECORD_BYTES <? len (pending l) + len b + 1 then set_line l "" true n
    else set_line l (pending l +:+ b) false n).

Definition end_line (now : Instant) : RM unit :=
  do? l := rget in
  (if discarding l then write_record now (oversized_record (line_len l))
   else rmodify (λ l, set_line l "" (discarding l) (line_len l)) ;;? write_record now (pending l)) ;;?
  rmodify (λ l, set_line l "" false 0).

(** The pieces between newlines: each but the last ends a line. *)
Fixpoint take_pieces (now : Instant) (pieces : list string) : RM unit :=
  match pieces with
  | [] => rret tt
  | [rest] => take_bytes rest
  | p :: ps => take_bytes p ;;? end_line now ;;? take_pieces now ps
  end.

(** [Write::write]: all of the buffer is taken. *)
Definition log_write (now : Instant) (buf : string) : RM Z :=
  take_pieces now (split_on (Ascii.ascii_of_N 10) buf) ;;? rret (len buf).

(** Opening the log of a directory. *)
Definition log_new (rotating_exists : bool) : RotatingLog :=
  {| active := false; size := 0; pending := ""; discarding := false; line_len := 0; failed := false;
     on_failure := false; reported := []; rotation_failing := None;
     rotation_retry_limit := ROTATION_RETRY_LIMIT; unfinished := rotating_exists |}.

Definition log_open : RM unit :=
  do? e := exists_file ROTATING in
  rput (log_new e) ;;?
  reopen ;;?
  do? l := rget in
  if (MAX_FILE_BYTES <=? size l) || unfinished l then rotate else rret tt.
End Records.

(** ** The text the directory holds, oldest first *)

Definition log_order : list string :=
  [archive_name 5; archive_name 4; archive_name 3; archive_name 2; archive_name 1; ROTATING; ACTIVE].

Fixpoint text_of (order : list string) (fs : gmap string string) : string :=
  match order with
  | [] => ""
  | n :: order' => default "" (fs !! n) +:+ text_of order' fs
  end.

Definition log_text (fs : gmap string string) : string := text_of log_order fs.

(** All five archive places are taken. *)
Definition archives_full (fs : gmap string string) : Prop :=
  ∀ n, (1 ≤ n ≤ ARCHIVES)%nat → is_Some (fs !! archive_name n).

(** ** Lemmas *)

Lemma log_order_nodup : NoDup log_order.
Proof. apply (bool_decide_unpack _). vm_compute. exact I. Qed.

Lemma text_of_app a b fs : text_of (a ++ b) fs = text_of a fs +:+ text_of b fs.
Proof. induction a as [|n a IH]; cbn [text_of app]; [done|]. by rewrite IH, app_str_assoc. Qed.

Lemma text_of_ext order fs fs' :
  (∀ n, n ∈ order → default "" (fs !! n) = default "" (fs' !! n)) → text_of order fs = text_of order fs'.
Proof.
  induction order as [|n order IH]; intros H; [done|]. cbn [text_of].
  rewrite (H n) by apply list_elem_of_here. f_equal. apply IH. intros m Hm. apply H. by right.
Qed.

(** Moving a file to the free place in front of it changes no text. *)
Lemma text_of_move pre a b post fs c :
  NoDup (pre ++ b :: a :: post) → fs !! b = None → fs !! a = Some c →
  text_of (pre ++ b :: a :: post) (<[b := c]> (delete a fs)) = text_of (pre ++ b :: a :: post) fs.
Proof.
  intros Hnd Hb Ha. rewrite !text_of_app. cbn [text_of].
  apply NoDup_app in Hnd as (_ & Hpre & Hnd). apply NoDup_cons in Hnd as [Hba Hnd].
  apply NoDup_cons in Hnd as [Hap _].
  assert (a ≠ b) by (intros ->; apply Hba, list_elem_of_here).
  rewrite lookup_insert_eq, lookup_insert_ne, lookup_delete_eq, Hb, Ha by done.
  rewrite (text_of_ext pre _ fs), (text_of_ext post _ fs); [reflexivity| |].
  - intros n Hn. rewrite lookup_insert_ne, lookup_delete_ne; try done.
    + intros ->. done.
    + intros ->. apply Hba. by right.
  - intros n Hn. rewrite lookup_insert_ne, lookup_delete_ne; try done.
    + intros ->. apply (Hpre _ Hn). right. apply list_elem_of_here.
    + intros ->. apply (Hpre _ Hn). apply list_elem_of_here.
Qed.

(** What a step on the files keeps beside them. *)
Definition same_rest (w w' : World) : Prop := log w' = log w ∧ doubted w' = doubted w.

(** An operation under faults fails where it is, or runs. *)
Lemma faulty_run {A} (m : RM A) w :
  (∃ e w', faulty m w = (Err e, w') ∧ fs w' = fs w ∧ same_rest w w') ∨
  (∃ w', faulty m w = m w' ∧ fs w' = fs w ∧ same_rest w w').
Proof.
  unfold faulty, rbind, next_fault, same_rest. destruct (faults w) as [|[f|] l]; cbn; eauto 10.
Qed.

(** A rename succeeds with the move done, or leaves the directory as it was. *)
Lemma rename_run a b w :
  (∃ e w', rename_file a b w = (Err e, w') ∧ fs w' = fs w ∧ same_rest w w') ∨
  (∃ c w', rename_file a b w = (Ok tt, w') ∧ fs w !! a = Some c ∧
           fs w' = <[b := c]> (delete a (fs w)) ∧ same_rest w w').
Proof.
  unfold rename_file. match goal with |- context [faulty ?m w] => destruct (faulty_run m w)
    as [(e & w' & -> & H1 & H2)|(w' & -> & H1 & H2)] end; [eauto 10|].
  unfold on_fs. rewrite H1. destruct (fs w !! a) as [c|] eqn:E; [right|left]; eauto 10.
Qed.

Lemma remove_run a w :
  (∃ e w', remove_file a w = (Err e, w') ∧ fs w' = fs w ∧ same_rest w w') ∨
  (∃ w', remove_file a w = (Ok tt, w') ∧ is_Some (fs w !! a) ∧
         fs w' = delete a (fs w) ∧ same_rest w w').
Proof.
  unfold remove_file. match goal with |- context [faulty ?m w] => destruct (faulty_run m w)
    as [(e & w' & -> & H1 & H2)|(w' & -> & H1 & H2)] end; [eauto 10|].
  unfold on_fs. rewrite H1. destruct (fs w !! a) as [c|] eqn:E; [right|left]; eauto 10.
Qed.

Lemma opener_run w :
  (∃ e w', opener w = (Err e, w') ∧ fs w' = fs w ∧ same_rest w w') ∨
  (∃ w', opener w = (Ok (len (default "" (fs w !! ACTIVE))), w') ∧
         fs w' = <[ACTIVE := default "" (fs w !! ACTIVE)]> (fs w) ∧ same_rest w w').
Proof.
  unfold opener. match goal with |- context [faulty ?m w] => destruct (faulty_run m w)
    as [(e & w' & -> & H1 & H2)|(w' & -> & H1 & H2)] end; [eauto 10|].
  unfold on_fs. rewrite H1. right. eauto 10.
Qed.

(** A test of existence: right, or doubted. *)
Lemma exists_run name w : ∃ b w' d, exists_file name w = (Ok b, w') ∧ fs w' = fs w ∧ log w' = log w ∧
  doubted w' = doubted w ++ d ∧
  (if b then is_Some (fs w !! name) ∧ d = [] else (fs w !! name = None ∧ d = []) ∨ d = [name]).
Proof.
  unfold exists_file. destruct (faults w) as [|[f|] l].
  - destruct (fs w !! name); do 2 eexists; exists []; rewrite app_nil_r; split_and!; try done. by left.
  - do 2 eexists; exists [name]. split_and!; try done. by right.
  - destruct (fs w !! name); do 2 eexists; exists []; rewrite app_nil_r; split_and!; try done. by left.
Qed.

Lemma active_not_archive n : (1 ≤ n ≤ 6)%nat → archive_name n ≠ ACTIVE ∧ archive_name n ≠ ROTATING.
Proof. intros H. destruct n as [|[|[|[|[|[|[|n]]]]]]]; try lia; by vm_compute. Qed.

(** Reopening loses nothing and creates at most the active file. *)
Lemma reopen_run w :
  (∀ n, default "" (fs (reopen w).2 !! n) = default "" (fs w !! n)) ∧
  (∀ n, n ≠ ACTIVE → fs (reopen w).2 !! n = fs w !! n) ∧ doubted (reopen w).2 = doubted w.
Proof.
  unfold reopen, rbind, rmodify.
  match goal with |- context [opener ?x] => destruct (opener_run x)
    as [(e & w' & -> & H1 & _ & H2)|(w' & -> & H1 & _ & H2)] end; cbn [fs doubted snd] in *; rewrite H1, H2; [done|].
  split_and!; [|intros n Hn; by rewrite lookup_insert_ne|done]. intros n. destruct (decide (n = ACTIVE)) as [->|].
  - by rewrite lookup_insert_eq.
  - by rewrite lookup_insert_ne.
Qed.

Lemma archive_move_text k fs c :
  (1 ≤ k ≤ 4)%nat → fs !! archive_name (S k) = None → fs !! archive_name k = Some c →
  log_text (<[archive_name (S k) := c]> (delete (archive_name k) fs)) = log_text fs.
Proof.
  intros Hk Hb Ha. pose proof log_order_nodup as Hnd. unfold log_text.
  destruct k as [|[|[|[|[|k]]]]];
    [lia|apply (text_of_move [archive_name 5; archive_name 4; archive_name 3] _ _ [ROTATING; ACTIVE])
    |apply (text_of_move [archive_name 5; archive_name 4] _ _ [archive_name 1; ROTATING; ACTIVE])
    |apply (text_of_move [archive_name 5] _ _ [archive_name 2; archive_name 1; ROTATING; ACTIVE])
    |apply (text_of_move [] _ _ [archive_name 3; archive_name 2; archive_name 1; ROTATING; ACTIVE])
    |lia]; done.
Qed.

Lemma archive_name_inj n m :
  (1 ≤ n ≤ 5)%nat → (1 ≤ m ≤ 5)%nat → archive_name n = archive_name m → n = m.
Proof.
  unfold archive_name. intros _ _ H. apply app_str_inj_l in H.
  apply (app_sep_inj is_ascii_digit (Ascii.ascii_of_N 46)) in H as [H _];
    [|apply dec_digits; lia|apply dec_digits; lia|done].
  apply dec_inj in H. lia.
Qed.

(** The shift keeps the text wherever it stops, and frees the first place. *)
Lemma shift_run k w :
  (k ≤ 4)%nat → fs w !! archive_name (S k) = None →
  log_text (fs (shift k w).2) = log_text (fs w) ∧
  fs (shift k w).2 !! ROTATING = fs w !! ROTATING ∧ doubted (shift k w).2 = doubted w ∧
  ((shift k w).1 = Ok tt → fs (shift k w).2 !! archive_name 1 = None).
Proof.
  revert w; induction k as [|k IH]; intros w Hk Hfree; [done|]. cbn [shift]. unfold rbind.
  destruct (rename_run (archive_name (S k)) (archive_name (S (S k))) w)
    as [(e & w' & -> & H1 & _ & D1)|(c & w' & -> & Hc & H1 & _ & D1)]; cbn [fst snd].
  { rewrite H1. done. }
  destruct (active_not_archive (S k) ltac:(lia)) as [Ha Hr].
  destruct (active_not_archive (S (S k)) ltac:(lia)) as [Ha' Hr'].
  destruct (IH w') as (K1 & K2 & KD & K3); [lia| |].
  { rewrite H1, lookup_insert_ne, lookup_delete_eq; [done|].
    intros E%archive_name_inj; lia. }
  split_and!; [|by rewrite K2, H1, lookup_insert_ne, lookup_delete_ne|congruence|done].
  rewrite K1, H1. apply archive_move_text; [lia|done|done].
Qed.

Definition with_fs (w : World) (f : gmap string string) : World :=
  {| fs := f; faults := faults w; log := log w; doubted := doubted w |}.

(** A file moved onto a taken name is one moved there after the name was freed. *)
Lemma rename_onto a b w : a ≠ b →
  (∃ e w', rename_file a b w = (Err e, w') ∧ fs w' = fs w ∧ same_rest w w') ∨
  rename_file a b w = rename_file a b (with_fs w (delete b (fs w))).
Proof.
  intros Hne. unfold rename_file, faulty, rbind, next_fault, on_fs. cbn.
  unfold same_rest.
  destruct (faults w) as [|[f|] l]; cbn; [|left; do 2 eexists; by split_and!|];
    (destruct (fs w !! a) as [c|] eqn:E; [right|left; do 2 eexists; by split_and!]);
    rewrite lookup_delete_ne, E by done; by rewrite <- (insert_delete_eq (delete a (fs w)) b c), (delete_delete (fs w) b a).
Qed.

(** The moves into place [k], which may be taken: the text is kept, or lost from that
    place alone. *)
Lemma moves_run k w : (1 ≤ k ≤ 5)%nat →
  let '(r, w') := (shift (k - 1) ;;? rename_file ROTATING (archive_name 1)) w in
  doubted w' = doubted w ∧
  (log_text (fs w') = log_text (fs w) ∨ log_text (fs w') = log_text (delete (archive_name k) (fs w))) ∧
  (r = Ok tt → fs w' !! ROTATING = None).
Proof.
  intros Hk. pose proof log_order_nodup as Hnd. destruct (active_not_archive 1 ltac:(lia)) as [_ Hr1].
  assert (∀ w, fs w !! archive_name k = None →
    let '(r, w') := (shift (k - 1) ;;? rename_file ROTATING (archive_name 1)) w in
    doubted w' = doubted w ∧ log_text (fs w') = log_text (fs w) ∧ (r = Ok tt → fs w' !! ROTATING = None)) as Hfree.
  { clear w. intros w Hf. replace k with (S (k - 1)) in Hf by lia. unfold rbind.
    destruct (shift_run (k - 1) w ltac:(lia) Hf) as (T & _ & D & F). rewrite <- T, <- D. clear T D.
    destruct (shift (k - 1) w) as [[[]|e] w1]; cbn [fst snd] in *; [|done].
    destruct (rename_run ROTATING (archive_name 1) w1) as [(e & w2 & -> & H1 & _ & H2)|(c & w2 & -> & Hc & H1 & _ & H2)];
      rewrite H1, H2; [done|]. split_and!; [done| |intros _; by rewrite lookup_insert_ne, lookup_delete_eq].
    apply (text_of_move [archive_name 5; archive_name 4; archive_name 3; archive_name 2] _ _ [ACTIVE]); auto. }
  specialize (Hfree (with_fs w (delete (archive_name k) (fs w))) (lookup_delete_eq _ _)).
  cbn [fs doubted with_fs] in Hfree. destruct k as [|[|k]]; [lia| |].
  - cbn [Nat.sub shift] in *. unfold rbind, rret in *.
    destruct (rename_onto ROTATING (archive_name 1) w) as [(e & w' & -> & H1 & _ & H2)|Eq]; [done| |].
    + rewrite H1, H2. split_and!; [done|by left|done].
    + rewrite Eq. destruct (rename_file _ _ _) as [r w']. destruct Hfree as (A & B & C). split_and!; [done|by right|done].
  - replace (S (S k) - 1)%nat with (S k) in * by lia. cbn [shift] in *. unfold rbind in *.
    destruct (rename_onto (archive_name (S k)) (archive_name (S (S k))) w) as [(e & w' & -> & H1 & _ & H2)|Eq].
    + intros E%archive_name_inj; lia.
    + rewrite H1, H2. split_and!; [done|by left|done].
    + rewrite Eq. destruct (rename_file (archive_name (S k)) _ _) as [[[]|e] w']; cbn [fst snd] in *.
      * destruct (shift k w') as [[[]|e] w1]; cbn [fst snd] in *.
        -- destruct (rename_file _ _ _) as [r w2]. destruct Hfree as (A & B & C). split_and!; [done|by right|done].
        -- destruct Hfree as (A & B & C). split_and!; [done|by right|done].
      * destruct Hfree as (A & B & C). split_and!; [done|by right|done].
Qed.

(** The first place a test calls free: free, or doubted. *)
Lemma first_free_run n left w :
  ∃ o w' d, first_free n left w = (Ok o, w') ∧ fs w' = fs w ∧ log w' = log w ∧ doubted w' = doubted w ++ d ∧
    match o with
    | Some k => (n ≤ k < n + left)%nat ∧ (fs w !! archive_name k = None ∧ d = [] ∨ d = [archive_name k]) ∧
                ∀ j, (n ≤ j < k)%nat → is_Some (fs w !! archive_name j)
    | None => d = [] ∧ ∀ k, (n ≤ k < n + left)%nat → is_Some (fs w !! archive_name k)
    end.
Proof.
  revert n w; induction left as [|left IH]; intros n w; cbn [first_free].
  { exists None, w, []. rewrite app_nil_r. split_and!; try done. intros; lia. }
  unfold rbind. destruct (exists_run (archive_name n) w) as (b & w1 & d & -> & F1 & L1 & D1 & Hb).
  destruct b; cbn [rret].
  - destruct Hb as [E ->]. rewrite app_nil_r in D1. destruct (IH (S n) w1) as (o & w2 & d & -> & F2 & L2 & D2 & Ho).
    exists o, w2, d. rewrite F1 in *. split_and!; [done|congruence|congruence|congruence|]. destruct o as [k|].
    + destruct Ho as (? & ? & Ho). split_and!; [lia..|done|]. intros j Hj.
      destruct (decide (j = n)) as [->|]; [done|]. apply Ho. lia.
    + destruct Ho as [-> Ho]. split; [done|]. intros k Hk. destruct (decide (k = n)) as [->|]; [done|]. apply Ho. lia.
  - exists (Some n), w1, d. split_and!; try done; [lia..|]. intros; lia.
Qed.

(** *** Deleted names *)

Definition archive_order : list string :=
  [archive_name 5; archive_name 4; archive_name 3; archive_name 2; archive_name 1].

(** The directory without some of its names. *)
Definition without (gone : list string) (f : gmap string string) : gmap string string := foldr delete f gone.

Lemma log_text_split f : log_text f = text_of archive_order f +:+ text_of [ROTATING; ACTIVE] f.
Proof. apply (text_of_app archive_order [ROTATING; ACTIVE]). Qed.

Lemma archive_order_elem n : n ∈ archive_order → ∃ k, (1 ≤ k ≤ 5)%nat ∧ n = archive_name k.
Proof.
  unfold archive_order. rewrite !elem_of_cons, elem_of_nil.
  intros [->|[->|[->|[->|[->|[]]]]]]; [exists 5%nat|exists 4%nat|exists 3%nat|exists 2%nat|exists 1%nat]; split; done || lia.
Qed.

(** Directories with the same archives and the same text beside them have the same text,
    without any of the archives too. *)
Lemma log_text_ext gone f f' :
  Forall (λ n, n ∈ archive_order) gone → (∀ n, n ∈ archive_order → f !! n = f' !! n) →
  text_of [ROTATING; ACTIVE] f = text_of [ROTATING; ACTIVE] f' → log_text (without gone f) = log_text (without gone f').
Proof.
  intros Hg Ha Ht. revert f f' Ha Ht. induction Hg as [|g gone Hin Hg IH]; intros f f' Ha Ht.
  - cbn [without foldr]. rewrite !log_text_split, Ht. f_equal. apply text_of_ext. intros n Hn. by rewrite Ha.
  - assert (∀ f : gmap string string, without (g :: gone) f = without gone (delete g f)) as Hd.
    { clear. intros f. induction gone as [|x gone IH]; [done|]. unfold without in *. cbn in *. rewrite <- IH. apply delete_delete. }
    rewrite !Hd. apply IH.
    + intros n Hn. destruct (decide (n = g)) as [->|]; [by rewrite !lookup_delete_eq|]. by rewrite !lookup_delete_ne, Ha.
    + rewrite (text_of_ext _ (delete g f) f), (text_of_ext _ (delete g f') f'); [done|..];
        intros n Hn; rewrite lookup_delete_ne; try done; intros <-;
        apply archive_order_elem in Hin as (k & Hk & ->); destruct (active_not_archive k ltac:(lia));
        rewrite !elem_of_cons, elem_of_nil in Hn; naive_solver.
Qed.

Lemma set_aside_run w :
  ∃ d gone, doubted (set_aside w).2 = doubted w ++ d ∧
    (gone = [] ∨ gone = [ROTATING] ∧ ROTATING ∈ d ∧ is_Some (fs w !! ROTATING)) ∧
    (∀ n, n ∈ archive_order → fs (set_aside w).2 !! n = without gone (fs w) !! n) ∧
    text_of [ROTATING; ACTIVE] (fs (set_aside w).2) = text_of [ROTATING; ACTIVE] (without gone (fs w)).
Proof.
  unfold set_aside, rbind. destruct (exists_run ROTATING w) as (b & w0 & d & -> & F0 & _ & D0 & Hb).
  destruct b; [exists d, []; cbn; rewrite F0; split_and!; [done|by left|done|done]|].
  unfold rmodify, rtry.
  assert (∀ w1, let w2 := (reopen w1).2 in (∀ n, n ∈ archive_order → fs w2 !! n = fs w1 !! n) ∧
    text_of [ROTATING; ACTIVE] (fs w2) = text_of [ROTATING; ACTIVE] (fs w1) ∧ doubted w2 = doubted w1) as Hre.
  { intros w1. destruct (reopen_run w1) as (K1 & K2 & K3). split_and!; [|by apply text_of_ext|done].
    intros n (k & Hk & ->)%archive_order_elem. destruct (active_not_archive k ltac:(lia)). by apply K2. }
  match goal with |- context [rename_file _ _ ?x] => destruct (rename_run ACTIVE ROTATING x)
    as [(e & w' & -> & H1 & _ & D1)|(c & w' & -> & Hc & H1 & _ & D1)] end; cbn [fs doubted] in *; rewrite F0 in *;
    destruct (Hre w') as (K1 & K2 & K3).
  - exists d, []. cbn [without foldr]. destruct (reopen w') as [[] w2]; cbn [snd rerr fs doubted] in *;
      (split_and!; [congruence|by left|intros n Hn; by rewrite K1, H1|by rewrite K2, H1]).
  - exists d, (if decide (fs w !! ROTATING = None) then [] else [ROTATING]).
    assert (∀ n, n ∈ archive_order → n ≠ ACTIVE ∧ n ≠ ROTATING) as Hne.
    { intros n (k & Hk & ->)%archive_order_elem. apply active_not_archive. lia. }
    assert (ACTIVE ≠ ROTATING) as Har by (by vm_compute).
    assert (doubted w' = doubted w ++ d) as Dw by congruence.
    assert (∀ n, n ∈ archive_order → fs w' !! n = fs w !! n) as HA.
    { intros n Hn. destruct (Hne n Hn). by rewrite H1, lookup_insert_ne, lookup_delete_ne. }
    assert (text_of [ROTATING; ACTIVE] (fs w') = c +:+ "") as HT.
    { rewrite H1. cbn [text_of]. rewrite lookup_insert_eq, lookup_insert_ne, lookup_delete_eq by done. done. }
    assert (doubted (reopen w').2 = doubted w ++ d ∧
      ((if decide (fs w !! ROTATING = None) then [] else [ROTATING]) = [] ∨
       (if decide (fs w !! ROTATING = None) then [] else [ROTATING]) = [ROTATING] ∧ ROTATING ∈ d ∧
       is_Some (fs w !! ROTATING)) ∧
      (∀ n, n ∈ archive_order → fs (reopen w').2 !! n
         = without (if decide (fs w !! ROTATING = None) then [] else [ROTATING]) (fs w) !! n) ∧
      text_of [ROTATING; ACTIVE] (fs (reopen w').2)
        = text_of [ROTATING; ACTIVE] (without (if decide (fs w !! ROTATING = None) then [] else [ROTATING]) (fs w)))
      as Hall.
    { rewrite K2, K3, HT, Dw. case_decide as Hd; cbn [without foldr]; (split; [done|]).
      - split; [by left|]. split; [intros n Hn; by rewrite K1, HA|]. cbn [text_of]. rewrite Hd, Hc. done.
      - split.
        { right. split; [done|]. destruct Hb as [[Hb _]| ->]; [done|]. split; [left|]. by destruct (fs w !! ROTATING); [eexists|]. }
        split; [intros n Hn; destruct (Hne n Hn); by rewrite K1, HA, lookup_delete_ne|].
        cbn [text_of]. rewrite lookup_delete_eq, lookup_delete_ne, Hc by done. done. }
    destruct (reopen w') as [[] w2]; cbn [snd rerr fs doubted] in *; exact Hall.
Qed.

(** Making room: at most the oldest archive goes, and only when all are taken; the place is
    then free, unless its test is doubted. *)
Lemma free_place_run w :
  ∃ d gone, doubted (free_place w).2 = doubted w ++ d ∧ fs (free_place w).2 = without gone (fs w) ∧
    (gone = [] ∨ gone = [archive_name 5] ∧ archives_full (fs w) ∧ d = []) ∧
    (∀ k, (free_place w).1 = Ok k → (1 ≤ k ≤ 5)%nat ∧
       (fs (free_place w).2 !! archive_name k = None ∨ gone = [] ∧ archive_name k ∈ d)).
Proof.
  unfold free_place, rbind. destruct (first_free_run 1 ARCHIVES w) as (o & w1 & d & -> & F1 & _ & D1 & Ho).
  unfold ARCHIVES in *. destruct o as [k|].
  { exists d, []. cbn. split_and!; [done|done|by left|]. intros k' [= <-]. split; [lia|]. rewrite F1.
    destruct Ho as (_ & [[Ho _]| ->] & _); [by left|right]. split; [done|left]. }
  destruct Ho as [-> Ho]. rewrite app_nil_r in D1. cbv beta iota.
  destruct (remove_run (archive_name 5) w1) as [(e & w' & -> & H1 & _ & H2)|(w' & -> & _ & H1 & _ & H2)];
    cbn [fst snd rret].
  - exists [], []. rewrite app_nil_r. split_and!; [congruence|by rewrite H1|by left|done].
  - exists [], [archive_name 5]. rewrite app_nil_r, H1, F1. split_and!; [congruence|done| |].
    + right. split_and!; [done| |done]. intros k Hk. apply Ho. unfold ARCHIVES in Hk. lia.
    + intros k [= <-]. split; [lia|]. left. apply lookup_delete_eq.
Qed.

(** What a rotation may lose of a directory, the tests of [d] being doubted. *)
Definition may_lose (f : gmap string string) (d : list string) (n : string) : Prop :=
  is_Some (f !! n) ∧ (n ∈ d ∨ n = archive_name 5 ∧ archives_full f).

Lemma archive_in_order k : (1 ≤ k ≤ 5)%nat → archive_name k ∈ archive_order.
Proof.
  intros Hk. unfold archive_order. rewrite !elem_of_cons.
  destruct k as [|[|[|[|[|[|k]]]]]]; [lia|tauto..|lia].
Qed.

Lemma lose_oldest f d : archives_full f → Forall (may_lose f d) [archive_name 5].
Proof. intros Hf. apply Forall_singleton. split; [apply Hf; unfold ARCHIVES; lia|by right]. Qed.
Lemma lose_doubted f d n : is_Some (f !! n) → n ∈ d → Forall (may_lose f d) [n].
Proof. intros Hs Hd. apply Forall_singleton. by split; [|left]. Qed.
Lemma one_archive k : (1 ≤ k ≤ 5)%nat → Forall (λ n, n ∈ archive_order) [archive_name k].
Proof. intros Hk. apply Forall_singleton. by apply archive_in_order. Qed.

(** After the room was made: what the moves lose beside it. *)
Lemma rest_run w1 :
  let m := do? free := free_place in shift (free - 1) ;;? rename_file ROTATING (archive_name 1) ;;?
           rmodify (λ l, set_unfinished l false) in
  let '(r, w') := m w1 in
  ∃ d gone, doubted w' = doubted w1 ++ d ∧ (length gone ≤ 1)%nat ∧ Forall (λ n, n ∈ archive_order) gone ∧
    Forall (may_lose (fs w1) d) gone ∧ log_text (fs w') = log_text (without gone (fs w1)) ∧
    (r = Ok tt → fs w' !! ROTATING = None).
Proof.
  cbn zeta. unfold rbind at 1. destruct (free_place_run w1) as (d & gone & D2 & F2 & Hg & Hk).
  destruct (free_place w1) as [[k|e] w2]; cbn [fst snd] in *.
  2: { exists d, gone. split_and!; try done; [by destruct Hg as [->|[-> _]]; cbn; lia| | |by rewrite F2].
       - destruct Hg as [->|(-> & Hf & _)]; [done|apply (one_archive 5); lia].
       - destruct Hg as [->|(-> & Hf & _)]; [done|by apply lose_oldest]. }
  destruct (Hk k eq_refl) as [Hk1 Hk2]. pose proof (moves_run k w2 Hk1) as Hm.
  assert (∀ r w', (shift (k - 1) ;;? rename_file ROTATING (archive_name 1)) w2 = (r, w') →
    ∃ d gone, doubted w' = doubted w1 ++ d ∧ (length gone ≤ 1)%nat ∧ Forall (λ n, n ∈ archive_order) gone ∧
      Forall (may_lose (fs w1) d) gone ∧ log_text (fs w') = log_text (without gone (fs w1)) ∧
      (r = Ok tt → fs w' !! ROTATING = None)) as Hfin.
  { intros r w' E. rewrite E in Hm. destruct Hm as (D3 & T3 & R3). exists d.
    destruct Hg as [->|(-> & Hf & ->)].
    - cbn [without foldr] in F2. rewrite F2 in *.
      destruct (fs w1 !! archive_name k) as [x|] eqn:Ek; [|exists []; split_and!; try done; try congruence; try (cbn; lia)].
      + destruct T3 as [T3|T3]; [exists []|exists [archive_name k]].
        * split_and!; try done; try congruence; cbn; lia.
        * destruct Hk2 as [Hk2|[_ Hk2]]; [done|]. split_and!; try done; try congruence; try (cbn; lia).
          -- by apply one_archive.
          -- apply lose_doubted; [by rewrite Ek|done].
      + destruct T3 as [T3|T3]; [done|]. rewrite T3. cbn [without foldr]. f_equal. by apply delete_id.
    - exists [archive_name 5]. split_and!; try done; try congruence; try (cbn; lia).
      + apply (one_archive 5). lia.
      + by apply lose_oldest.
      + rewrite F2 in *. destruct Hk2 as [Hk2|[[=] _]]. destruct T3 as [T3|T3]; [done|]. rewrite T3. f_equal.
        by apply delete_id. }
  unfold rbind in *. destruct (shift (k - 1) w2) as [[[]|e] w3]; [|by apply (Hfin (Err e) w3)].
  destruct (rename_file ROTATING (archive_name 1) w3) as [[[]|e] w4].
  - destruct (Hfin (Ok tt) w4 eq_refl) as (d' & gone' & H). exists d', gone'. exact H.
  - by apply (Hfin (Err e) w4).
Qed.

(** Rotation keeps the text, less what it may lose. *)
Lemma rotate_run w r w' :
  rotate w = (r, w') →
  ∃ d gone, doubted w' = doubted w ++ d ∧ (length gone ≤ 2)%nat ∧ Forall (may_lose (fs w) d) gone ∧
    log_text (fs w') = log_text (without gone (fs w)) ∧ (r = Ok tt → fs w' !! ROTATING = None).
Proof.
  intros E. unfold rotate in E. unfold rbind at 1 in E.
  destruct (set_aside_run w) as (d1 & g1 & D1 & Hg1 & A1 & T1).
  assert (∀ n, n ∈ archive_order → without g1 (fs w) !! n = fs w !! n) as Hw.
  { intros n (k & Hk & ->)%archive_order_elem. destruct (active_not_archive k ltac:(lia)).
    destruct Hg1 as [->|(-> & _)]; [done|]. cbn. by rewrite lookup_delete_ne. }
  assert (∀ d, Forall (may_lose (fs w) (d1 ++ d)) g1) as L1.
  { intros d. destruct Hg1 as [->|(-> & Hd & Hs)]; [done|]. apply lose_doubted; [done|]. apply elem_of_app. by left. }
  assert (length g1 ≤ 1)%nat as Hl1 by (destruct Hg1 as [->|(-> & _)]; cbn; lia).
  destruct (set_aside w) as [[u|e] w1]; cbn [fst snd] in *.
  2: { simplify_eq. exists d1, g1. split_and!; [done|lia| | |done].
       - specialize (L1 []). by rewrite app_nil_r in L1.
       - by apply (log_text_ext []). }
  pose proof (rest_run w1) as Hrest. cbn zeta in Hrest. rewrite E in Hrest.
  destruct Hrest as (d2 & g2 & D2 & Hl2 & Hin & L2 & T2 & R2).
  assert (archives_full (fs w1) → archives_full (fs w)) as Hfull.
  { intros H n Hn. rewrite <- Hw, <- A1 by (apply archive_in_order; unfold ARCHIVES in Hn; lia). by apply H. }
  exists (d1 ++ d2), (g2 ++ g1). split_and!; [rewrite D2, D1; by rewrite app_assoc|rewrite length_app; lia| | |done].
  - apply Forall_app. split; [|by apply L1]. rewrite Forall_forall in *. intros n Hn. destruct (L2 n Hn) as [Hs Hd].
    split; [by rewrite <- Hw, <- A1 by (by apply Hin)|].
    destruct Hd as [Hd|[-> Hd]]; [left; apply elem_of_app; by right|right; auto].
  - rewrite T2. unfold without at 2. rewrite foldr_app. fold (without g1 (fs w)). by apply log_text_ext.
Qed.

(** Without a doubt, that is the oldest archive at most. *)
Lemma undoubted_loss f gone : Forall (may_lose f []) gone →
  ∃ p, log_text f = p +:+ log_text (without gone f) ∧
    (p = "" ∨ archives_full f ∧ p = default "" (f !! archive_name 5)).
Proof.
  intros Hg. assert (without gone f = f ∨ archives_full f ∧ without gone f = delete (archive_name 5) f) as Hw.
  { induction Hg as [|g gone [_ Hg] _ IH]; [by left|]. destruct Hg as [Hg|[-> Hf]]; [by apply elem_of_nil in Hg|].
    right. split; [done|]. cbn [without foldr]. fold (without gone f).
    destruct IH as [->|[_ ->]]; [done|]. apply delete_delete_eq || by rewrite delete_idemp. }
  destruct Hw as [->|[Hf ->]]; [exists ""; split; [done|by left]|].
  exists (default "" (f !! archive_name 5)). split; [|by right].
  pose proof log_order_nodup as Hnd. unfold log_text. change log_order with (archive_name 5 :: tail log_order) in *.
  set (rest := tail log_order) in *. cbn [text_of]. rewrite lookup_delete_eq.
  rewrite (text_of_ext rest (delete (archive_name 5) f) f); [reflexivity|].
  intros n Hn. rewrite lookup_delete_ne; [done|]. intros <-. by apply NoDup_cons in Hnd as [Hnd _].
Qed.

(** *** Without faults *)

(** Every content is one the directory had. *)
Definition contents_from (fs fs' : gmap string string) : Prop :=
  ∀ n x, fs' !! n = Some x → ∃ m, fs !! m = Some x.

Lemma contents_from_trans fs fs1 fs2 :
  contents_from fs fs1 → contents_from fs1 fs2 → contents_from fs fs2.
Proof. intros H1 H2 n x Hx. destruct (H2 _ _ Hx) as [m Hm]. by apply (H1 m). Qed.

Lemma contents_from_rename fs a b c :
  fs !! a = Some c → contents_from fs (<[b := c]> (delete a fs)).
Proof.
  intros Ha n x. destruct (decide (n = b)) as [->|].
  - rewrite lookup_insert_eq. intros [= <-]. by exists a.
  - rewrite lookup_insert_ne by done. intros [? Hx]%lookup_delete_Some. by exists n.
Qed.

Lemma contents_from_delete fs a : contents_from fs (delete a fs).
Proof. intros n x [_ Hx]%lookup_delete_Some. by exists n. Qed.

Lemma rename_clean a b w c :
  faults w = [] → fs w !! a = Some c →
  rename_file a b w = (Ok tt, {| fs := <[b := c]> (delete a (fs w)); faults := []; log := log w; doubted := doubted w |}).
Proof.
  intros Hf Ha. unfold rename_file, faulty, rbind, next_fault. rewrite Hf. cbn. unfold on_fs; cbn.
  by rewrite Ha.
Qed.

Lemma shift_clean k w :
  (k ≤ 4)%nat → faults w = [] → (∀ j, (1 ≤ j ≤ k)%nat → is_Some (fs w !! archive_name j)) →
  ∃ fs', shift k w = (Ok tt, {| fs := fs'; faults := []; log := log w; doubted := doubted w |}) ∧
    contents_from (fs w) fs' ∧ fs' !! ACTIVE = fs w !! ACTIVE ∧ fs' !! ROTATING = fs w !! ROTATING.
Proof.
  revert w; induction k as [|k IH]; intros w Hk Hf Hex; cbn [shift].
  { exists (fs w). destruct w; cbn in *; subst. split_and!; try done. intros n x Hx. by exists n. }
  destruct (Hex (S k) ltac:(lia)) as [c Hc]. unfold rbind. rewrite (rename_clean _ _ _ c) by done.
  set (w1 := {| faults := [] |}). destruct (IH w1) as (fs' & -> & H1 & H2 & H3); [lia|done| |].
  { intros j Hj. subst w1. cbn [fs].
    rewrite lookup_insert_ne, lookup_delete_ne; [apply Hex; lia|..];
      intros E; apply archive_name_inj in E; lia. }
  exists fs'. subst w1. cbn [fs log] in *.
  destruct (active_not_archive (S k) ltac:(lia)), (active_not_archive (S (S k)) ltac:(lia)).
  split_and!; [done| | |].
  - eapply contents_from_trans; [by apply contents_from_rename|done].
  - by rewrite H2, lookup_insert_ne, lookup_delete_ne.
  - by rewrite H3, lookup_insert_ne, lookup_delete_ne.
Qed.

Lemma exists_clean name w : faults w = [] →
  exists_file name w = (Ok (match fs w !! name with Some _ => true | None => false end), w).
Proof. intros Hf. unfold exists_file. rewrite Hf. destruct w; cbn in *. by subst. Qed.

Lemma first_free_clean n left w : faults w = [] → ∃ o, first_free n left w = (Ok o, w) ∧
  match o with
  | Some k => (n ≤ k < n + left)%nat ∧ ∀ j, (n ≤ j < k)%nat → is_Some (fs w !! archive_name j)
  | None => ∀ k, (n ≤ k < n + left)%nat → is_Some (fs w !! archive_name k)
  end.
Proof.
  intros Hf. revert n; induction left as [|left IH]; intros n; cbn [first_free].
  { exists None. split; [done|]. intros; lia. }
  unfold rbind. rewrite exists_clean by done. destruct (fs w !! archive_name n) as [c|] eqn:E.
  - destruct (IH (S n)) as (o & -> & Ho). exists o. split; [done|]. destruct o as [k|].
    + destruct Ho as (? & Ho). split; [lia|]. intros j Hj.
      destruct (decide (j = n)) as [->|]; [by rewrite E|]. apply Ho. lia.
    + intros k Hk. destruct (decide (k = n)) as [->|]; [by rewrite E|]. apply Ho. lia.
  - exists (Some n). split; [done|]. split; [lia|]. intros; lia.
Qed.

Lemma free_place_clean w :
  faults w = [] →
  ∃ k fs', free_place w = (Ok k, {| fs := fs'; faults := []; log := log w; doubted := doubted w |}) ∧ (1 ≤ k ≤ 5)%nat ∧
    (∀ j, (1 ≤ j < k)%nat → is_Some (fs' !! archive_name j)) ∧
    contents_from (fs w) fs' ∧ fs' !! ACTIVE = fs w !! ACTIVE ∧ fs' !! ROTATING = fs w !! ROTATING.
Proof.
  intros Hf. unfold free_place, rbind. destruct (first_free_clean 1 ARCHIVES w Hf) as (o & -> & Ho).
  unfold ARCHIVES in *. destruct o as [k|].
  - exists k, (fs w). destruct w; cbn in *; subst. split_and!; try done; try lia.
    + intros j Hj. apply Ho. lia.
    + intros n x Hx. by exists n.
  - destruct (Ho 5%nat ltac:(lia)) as [c Hc]. exists 5%nat, (delete (archive_name 5) (fs w)).
    unfold remove_file, faulty, rbind, next_fault, on_fs. rewrite Hf. cbn. rewrite Hc.
    destruct (active_not_archive 5 ltac:(lia)). split_and!; try done; try lia.
    + intros j Hj. rewrite lookup_delete_ne; [apply Ho; lia|]. intros E%archive_name_inj; lia.
    + apply contents_from_delete.
    + by rewrite lookup_delete_ne.
    + by rewrite lookup_delete_ne.
Qed.

Lemma rename_active_ne : ACTIVE ≠ ROTATING.
Proof. by vm_compute. Qed.

Lemma set_aside_clean w c :
  faults w = [] → fs w !! ROTATING = None → fs w !! ACTIVE = Some c →
  set_aside w = (Ok tt, {| fs := <[ACTIVE := ""]> (<[ROTATING := c]> (delete ACTIVE (fs w)));
                           faults := []; log := set_unfinished (set_active (log w) true 0) true; doubted := doubted w |}).
Proof.
  intros Hf Hr Ha. unfold set_aside, rbind. rewrite exists_clean, Hr by done. unfold rtry, rmodify.
  rewrite (rename_clean _ _ _ c) by done. cbn [fs log].
  unfold reopen, rbind, rmodify, opener, faulty, rbind, next_fault, on_fs. cbn.
  rewrite lookup_insert_ne, lookup_delete_eq by done. done.
Qed.

(** A rotation without faults leaves an empty active file. *)
Lemma rotate_clean w c :
  faults w = [] → fs w !! ROTATING = None → fs w !! ACTIVE = Some c →
  ∃ fs', rotate w = (Ok tt, {| fs := fs'; faults := [];
                               log := set_unfinished (set_active (log w) true 0) false; doubted := doubted w |}) ∧
    fs' !! ACTIVE = Some "" ∧ fs' !! ROTATING = None ∧
    (∀ n x, fs' !! n = Some x → x = "" ∨ ∃ m, fs w !! m = Some x).
Proof.
  intros Hf Hr Ha. pose proof rename_active_ne as Hne.
  unfold rotate, rbind. rewrite (set_aside_clean w c) by done.
  set (w1 := {| faults := [] |}). destruct (free_place_clean w1 eq_refl) as (k & fs2 & -> & Hk & Hex & C2 & A2 & R2).
  set (w2 := {| faults := [] |}).
  destruct (shift_clean (k - 1) w2) as (fs3 & -> & C3 & A3 & R3); [lia|done| |].
  { intros j Hj. apply Hex. lia. }
  subst w1 w2. cbn [fs log] in *. rewrite lookup_insert_eq in A2.
  rewrite lookup_insert_ne, lookup_insert_eq in R2 by done.
  rewrite (rename_clean _ _ _ c) by (cbn [fs faults]; congruence). cbn [rmodify fs faults log].
  destruct (active_not_archive 1 ltac:(lia)) as [Hna Hnr].
  exists (<[archive_name 1 := c]> (delete ROTATING fs3)). split; [reflexivity|]. split_and!.
  - rewrite lookup_insert_ne, lookup_delete_ne by done. congruence.
  - by rewrite lookup_insert_ne, lookup_delete_eq.
  - intros n x Hx.
    destruct (contents_from_rename fs3 ROTATING (archive_name 1) c ltac:(congruence) n x Hx) as [m1 H1].
    destruct (C3 m1 x H1) as [m2 H2]. destruct (C2 m2 x H2) as [m3 H3].
    destruct (decide (m3 = ACTIVE)) as [->|].
    { rewrite lookup_insert_eq in H3. left. congruence. }
    rewrite lookup_insert_ne in H3 by done. right.
    exact (contents_from_rename (fs w) ACTIVE ROTATING c Ha m3 x H3).
Qed.

(** The state between records when nothing failed. *)
Record log_ready (w : World) : Prop := {
  ready_faults : faults w = [];
  ready_ok : failed (log w) = false ∧ active (log w) = true ∧ unfinished (log w) = false ∧
             rotation_failing (log w) = None;
  ready_rotating : fs w !! ROTATING = None;
  ready_size : ∃ c, fs w !! ACTIVE = Some c ∧ size (log w) = len c;
  ready_bounded : ∀ n x, fs w !! n = Some x → len x ≤ MAX_FILE_BYTES;
}.

Lemma rotate_if_due_clean w now n :
  log_ready w →
  ∃ w' c, rotate_if_due now n w = (Ok tt, w') ∧ log_ready w' ∧ fs w' !! ACTIVE = Some c ∧
    (len c = 0 ∨ len c + n ≤ MAX_FILE_BYTES).
Proof.
  intros [Hf (H1 & H2 & H3 & H4) Hr (c & Hc & Hs) Hb].
  unfold rotate_if_due, rbind, rget. rewrite H3, H4. cbn [negb andb].
  destruct ((0 <? size (log w)) && (MAX_FILE_BYTES <? size (log w) + n)) eqn:Hfull; cbn [negb].
  - unfold rtry. destruct (rotate_clean w c Hf Hr Hc) as (fs' & -> & A & R & C). cbn [rmodify].
    eexists _, "". split; [reflexivity|]. split_and!; [|done|by left].
    constructor; cbn; try done.
    + exists "". done.
    + intros m x Hx. destruct (C m x Hx) as [->|[m' Hm]]; [done|]. by apply (Hb m').
  - exists w, c. split; [done|]. split_and!; [|done|].
    + constructor; try done. exists c. done.
    + rewrite andb_false_iff, Z.ltb_ge, Z.ltb_ge in Hfull. rewrite Hs in Hfull. unfold len in *. lia.
Qed.

Lemma len_app s t : len (s +:+ t) = len s + len t.
Proof. unfold len. rewrite length_app_str. lia. Qed.

Section RecordLemmas.
Context (json_to_string : Json → string) (timestamp : string).
Notation write_record := (write_record json_to_string timestamp).
Notation bounded_record := (bounded_record json_to_string timestamp).
Notation end_line := (end_line json_to_string timestamp).
Notation take_pieces := (take_pieces json_to_string timestamp).
Notation log_write := (log_write json_to_string timestamp).

(** Writing a record never reports an error to its caller. *)
Lemma write_record_ok now record w : ∃ w', write_record now record w = (Ok tt, w').
Proof.
  unfold Rotation.write_record, rbind, rget. destruct (failed (log w)); [by eexists|].
  unfold rtry. destruct (rotate_if_due _ _ w) as [[]w1]; [|unfold fail, rmodify; eauto].
  destruct (append _ w1) as [[] w2]; [by eexists|].
  destruct (retry_append _ w2) as [[] w3]; [by eexists|]. by eexists.
Qed.

Lemma end_line_ok now w : ∃ w', end_line now w = (Ok tt, w').
Proof.
  unfold Rotation.end_line, rbind, rget, rmodify. destruct (discarding (log w)).
  - match goal with |- context [write_record now ?r w] => destruct (write_record_ok now r w) as [w' ->] end.
    by eexists.
  - match goal with |- context [write_record now ?r ?x] => destruct (write_record_ok now r x) as [w' ->] end.
    by eexists.
Qed.

(** Running one after the other. *)
Lemma rbind_ok {A B} (m : RM A) (f : A → RM B) w a w' :
  m w = (Ok a, w') → rbind m f w = f a w'.
Proof. unfold rbind. by intros ->. Qed.

Lemma take_bytes_app x y w :
  take_bytes (x +:+ y) w = rbind (take_bytes x) (λ _, take_bytes y) w.
Proof.
  unfold take_bytes, rmodify, rbind. cbn. f_equal. f_equal.
  unfold set_line; cbn. destruct (discarding (log w)) eqn:Hd; cbn.
  { rewrite len_app. f_equal. lia. }
  rewrite len_app. pose proof (len_app (pending (log w)) x) as Hl.
  destruct (Z.ltb_spec MAX_RECORD_BYTES (len (pending (log w)) + len x + 1)) as [H1|H1]; cbn.
  - destruct (Z.ltb_spec MAX_RECORD_BYTES (len (pending (log w)) + (len x + len y) + 1)) as [|H2];
      cbn; [f_equal; lia|]. assert (0 ≤ len y) by (unfold len; lia). lia.
  - rewrite Hl, Z.add_assoc.
    destruct (Z.ltb_spec MAX_RECORD_BYTES (len (pending (log w)) + len x + len y + 1)); cbn;
      f_equal; try lia. by rewrite app_str_assoc.
Qed.

Lemma split_on_app_last c a b :
  ∃ l x y m, split_on c a = l ++ [x] ∧ split_on c b = y :: m ∧
    split_on c (a +:+ b) = l ++ (x +:+ y) :: m.
Proof.
  destruct (split_on c b) as [|y m] eqn:Eb; [by apply split_on_not_nil in Eb|].
  induction a as [|d a (l & x & y' & m' & H1 & [= <- <-] & H3)].
  - exists [], "", y, m. split_and!; [done|done|].
    change ("" +:+ b) with b. by rewrite Eb.
  - rewrite app_str_cons. cbn [split_on]. rewrite H1, H3. case_decide.
    + exists ("" :: l), x, y, m. done.
    + destruct l as [|p l]; cbn.
      * exists [], (String d x), y, m. done.
      * exists (String d p :: l), x, y, m. done.
Qed.

Lemma take_pieces_cons now p q l w :
  take_pieces now (p :: q :: l) w = take_pieces now (q :: l) (end_line now (take_bytes p w).2).2.
Proof.
  change (take_pieces now (p :: q :: l)) with
    (rbind (take_bytes p) (λ _, rbind (end_line now) (λ _, take_pieces now (q :: l)))).
  rewrite (rbind_ok _ _ w tt (take_bytes p w).2) by done.
  destruct (end_line_ok now (take_bytes p w).2) as [w1 E].
  by rewrite (rbind_ok _ _ _ tt w1 E), E.
Qed.

Lemma take_pieces_ok now l w : ∃ w', take_pieces now l w = (Ok tt, w').
Proof.
  revert w; induction l as [|p [|q l] IH]; intros w; [by eexists|by eexists|].
  rewrite take_pieces_cons. apply IH.
Qed.

Lemma take_pieces_app now l x y m w :
  take_pieces now (l ++ (x +:+ y) :: m) w =
  take_pieces now (y :: m) (take_pieces now (l ++ [x]) w).2.
Proof.
  assert (∀ w, (take_bytes (x +:+ y) w).2 = (take_bytes y (take_bytes x w).2).2) as Happ.
  { intros w'. by rewrite take_bytes_app. }
  revert w; induction l as [|p l IH]; intros w; cbn [app].
  - destruct m as [|q m]; [apply take_bytes_app|]. rewrite !take_pieces_cons, Happ. done.
  - destruct (l ++ (x +:+ y) :: m) as [|u us] eqn:Eu; [by destruct l|].
    destruct (l ++ [x]) as [|v vs] eqn:Ev; [by destruct l|].
    rewrite !take_pieces_cons. apply IH.
Qed.

(** A record taken while nothing fails is the last line of the active file. *)
Lemma write_record_clean now record w :
  log_ready w → len (bounded_record record) + 1 ≤ MAX_RECORD_BYTES →
  ∃ w' c, write_record now record w = (Ok tt, w') ∧ log_ready w' ∧
    fs w' !! ACTIVE = Some (c +:+ bounded_record record +:+ newline).
Proof.
  intros Hw Hlen. unfold Rotation.write_record, rbind, rget.
  destruct (ready_ok _ Hw) as (-> & _). set (rec := bounded_record record) in *. unfold rtry.
  destruct (rotate_if_due_clean w now (len rec + 1) Hw) as (w1 & c & -> & Hw1 & Hc & Hfit).
  destruct Hw1 as [Hf (H1 & H2 & H3 & H4) Hr (c' & Hc' & Hs) Hb].
  assert (c' = c) as -> by congruence.
  unfold append, append_raw, rbind, rget. rewrite H2.
  unfold write_active, rbind, next_fault, on_fs. rewrite Hf. cbn. rewrite Hc. cbn.
  eexists _, c. split; [reflexivity|]. cbn. split; [|by rewrite lookup_insert_eq].
  assert (len (c +:+ rec +:+ newline) = len c + (len rec + 1)) as Hl
    by (rewrite !len_app; unfold newline; unfold len at 3; cbn; lia).
  constructor; cbn; try done.
  - by rewrite lookup_insert_ne.
  - exists (c +:+ rec +:+ newline). rewrite lookup_insert_eq, Hl, Hs. done.
  - intros n x. destruct (decide (n = ACTIVE)) as [->|].
    + rewrite lookup_insert_eq. intros [= <-]. rewrite Hl.
      unfold MAX_RECORD_BYTES, MAX_FILE_BYTES in *. lia.
    + rewrite lookup_insert_ne by done. apply Hb.
Qed.
End RecordLemmas.

(** *** The failure callback *)

(** What a computation leaves alone. *)
Definition report_of (l : RotatingLog) := (failed l, on_failure l, reported l).
Definition keeps_report {A} (m : RM A) : Prop := ∀ w, report_of (log (m w).2) = report_of (log w).

Lemma keeps_bind {A B} (m : RM A) (f : A → RM B) :
  keeps_report m → (∀ a, keeps_report (f a)) → keeps_report (rbind m f).
Proof.
  intros Hm Hf w. unfold rbind. specialize (Hm w). destruct (m w) as [[a|e] w']; cbn in *; [|done].
  by rewrite Hf.
Qed.

Lemma keeps_try {A} (m : RM A) : keeps_report m → keeps_report (rtry m).
Proof. intros Hm w. unfold rtry. specialize (Hm w). by destruct (m w). Qed.

Lemma keeps_modify f : (∀ l, report_of (f l) = report_of l) → keeps_report (rmodify f).
Proof. intros Hf w. apply Hf. Qed.

Lemma keeps_fault : keeps_report next_fault.
Proof. by intros w. Qed.

Lemma keeps_on_fs {A} (op : gmap string string → Result (A * gmap string string) string) :
  keeps_report (on_fs op).
Proof. intros w. unfold on_fs. by destruct (op (fs w)) as [[]|]. Qed.

Lemma keeps_ret {A} (a : A) : keeps_report (rret a).
Proof. by intros w. Qed.
Lemma keeps_err {A} e : keeps_report (rerr (A := A) e).
Proof. by intros w. Qed.
Lemma keeps_get : keeps_report rget.
Proof. by intros w. Qed.
Lemma keeps_exists n : keeps_report (exists_file n).
Proof. intros w. unfold exists_file. by destruct (faults w) as [|[]]. Qed.

Ltac keeps :=
  repeat first
    [ apply keeps_bind; intros | apply keeps_try | apply keeps_ret | apply keeps_err | apply keeps_get
    | apply keeps_fault | apply keeps_on_fs | apply keeps_exists
    | apply keeps_modify; reflexivity | progress cbv zeta | case_match | solve [auto with agent] ].

Lemma keeps_reopen : keeps_report reopen.
Proof. unfold reopen, opener, faulty. keeps. Qed.
#[local] Hint Resolve keeps_reopen : agent.

Lemma keeps_first_free n left : keeps_report (first_free n left).
Proof. revert n; induction left as [|left IH]; intros n; cbn [first_free]; keeps. Qed.
#[local] Hint Resolve keeps_first_free : agent.

Lemma keeps_rename a b : keeps_report (rename_file a b).
Proof. unfold rename_file, faulty. keeps. Qed.
#[local] Hint Resolve keeps_rename : agent.

Lemma keeps_shift k : keeps_report (shift k).
Proof. induction k as [|k IH]; cbn [shift]; keeps. Qed.
#[local] Hint Resolve keeps_shift : agent.

Lemma keeps_rotate_if_due now n : keeps_report (rotate_if_due now n).
Proof. unfold rotate_if_due, rotate, set_aside, free_place, remove_file, faulty. keeps. Qed.

Lemma keeps_append r : keeps_report (append r).
Proof. unfold append, append_raw, write_active. keeps. Qed.
#[local] Hint Resolve keeps_append : agent.

Lemma keeps_retry_append r : keeps_report (retry_append r).
Proof. unfold retry_append, append_raw, write_active. keeps. Qed.

(** A record reports nothing, or ends in [fail]. *)
Lemma write_record_report json_to_string timestamp now record w :
  report_of (log (write_record json_to_string timestamp now record w).2) = report_of (log w) ∨
  ∃ why w1, report_of (log w1) = report_of (log w) ∧
    (write_record json_to_string timestamp now record w).2 = (fail why w1).2.
Proof.
  unfold write_record, rbind, rget. destruct (failed (log w)); [by left|]. unfold rtry.
  match goal with |- context [rotate_if_due ?a ?b w] => pose proof (keeps_rotate_if_due a b w) as H1;
    destruct (rotate_if_due a b w) as [[]w1]; cbn [snd] in H1; [|right; by exists e, w1] end.
  match goal with |- context [append ?r w1] => pose proof (keeps_append r w1) as H2;
    destruct (append r w1) as [[]w2]; cbn [snd] in H2; [left; cbn; unfold report_of in *; cbn; congruence|];
    pose proof (keeps_retry_append r w2) as H3; destruct (retry_append r w2) as [[]w3]; cbn [snd] in H3 end.
  - left. cbn. unfold report_of in *; cbn. congruence.
  - right. eexists _, w3. split; [congruence|]. reflexivity.
Qed.

(** ** Properties *)

(** C28 Rotation loses no log text but where it must, or where a test of a file's existence
    misleads it. From any directory and under any faults of its calls, wherever the
    rotation stops, the text of the archives, the file being rotated and the active file,
    oldest first, is what it was less the text of at most two names: the oldest archive's,
    when all five places were taken, or that of a file which is there but whose test of
    existence met a fault during this rotation, which the code takes for an absent file and
    renames over. So if no test of existence meets a fault, it is what it was, less
    exactly the oldest archive when all five places were taken. A rotation that succeeds
    leaves nothing to finish. *)
Theorem rotation_loses_only_oldest (w : World) :
  let '(r, w') := rotate w in
  (∃ d gone, doubted w' = doubted w ++ d ∧ (length gone ≤ 2)%nat ∧
     log_text (fs w') = log_text (without gone (fs w)) ∧
     Forall (λ n, is_Some (fs w !! n) ∧ (n ∈ d ∨ n = archive_name 5 ∧ archives_full (fs w))) gone) ∧
  (doubted w' = doubted w →
   ∃ p, log_text (fs w) = p +:+ log_text (fs w') ∧
     (p = "" ∨ archives_full (fs w) ∧ p = default "" (fs w !! archive_name 5))) ∧
  (r = Ok tt → fs w' !! ROTATING = None).
Proof.
  destruct (rotate w) as [r w'] eqn:E. destruct (rotate_run w r w' E) as (d & gone & D & Hl & Hg & T & R).
  split_and!; [by exists d, gone| |done]. intros Hd. rewrite T. apply undoubted_loss.
  assert (d = []) as ->; [|done]. rewrite Hd in D. apply (f_equal length) in D. rewrite length_app in D.
  destruct d; [done|cbn in D; lia].
Qed.

Section Properties.
Context (json_to_string : Json → string) (timestamp : string).

(** How the bytes are cut into writes does not matter: writing two buffers
    one after the other leaves the log, the files and the faults exactly as
    writing their concatenation does, and every write takes its whole buffer. *)
Theorem write_chunking_irrelevant (now : Instant) (a b : string) (w : World) :
  (log_write json_to_string timestamp now (a +:+ b) w).2 =
    (log_write json_to_string timestamp now b (log_write json_to_string timestamp now a w).2).2 ∧
  (log_write json_to_string timestamp now a w).1 = Ok (len a).
Proof.
  unfold log_write. destruct (split_on_app_last (Ascii.ascii_of_N 10) a b)
    as (l & x & y & m & H1 & H2 & H3). rewrite H1, H2, H3.
  destruct (take_pieces_ok json_to_string timestamp now (l ++ [x]) w) as [w1 E1].
  destruct (take_pieces_ok json_to_string timestamp now (y :: m) w1) as [w2 E2].
  rewrite (rbind_ok _ _ _ tt w1 E1). cbn [rret snd fst].
  rewrite (rbind_ok _ _ _ tt w2 E2). split; [|done].
  rewrite (rbind_ok _ _ w tt w2); [done|]. by rewrite take_pieces_app, E1.
Qed.

(** Bounded files: while no file operation fails and the replacement line
    fits, every record written ends the active file as one line (a record that
    with its newline exceeds 65536 bytes is replaced by the diagnostic), and no
    file of the log exceeds 10 MiB afterwards. *)
Theorem records_bounded (now : Instant) (record : string) (w : World) :
  log_ready w → len (bounded_record json_to_string timestamp record) + 1 ≤ MAX_RECORD_BYTES →
  ∃ w' c, write_record json_to_string timestamp now record w = (Ok tt, w') ∧ log_ready w' ∧
    fs w' !! ACTIVE = Some (c +:+ bounded_record json_to_string timestamp record +:+ newline) ∧
    ∀ n x, fs w' !! n = Some x → len x ≤ MAX_FILE_BYTES.
Proof.
  intros Hw Hlen.
  destruct (write_record_clean json_to_string timestamp now record w Hw Hlen) as (w' & c & H1 & H2 & H3).
  exists w', c. split_and!; [done..|]. apply H2.
Qed.

(** Records one after the other. *)
Fixpoint write_records (l : list (Instant * string)) : RM unit :=
  match l with
  | [] => rret tt
  | (now, r) :: l' => write_record json_to_string timestamp now r ;;? write_records l'
  end.

(** A failure is reported once and stops the log: over any sequence of
    records and any faults, a log that has reported nothing calls its failure
    callback at most once and only when it has failed, and once it has failed
    it and the directory do not change any more. *)
Theorem failure_reported_once (records : list (Instant * string)) (w : World) :
  reported (log w) = [] →
  let w' := (write_records records w).2 in
  (length (reported (log w')) ≤ 1)%nat ∧
  (reported (log w') ≠ [] → failed (log w') = true) ∧
  (failed (log w') = true → ∀ more, (write_records more w').2 = w').
Proof.
  intros Hw.
  assert (∀ w, failed (log w) = true → ∀ more, (write_records more w).2 = w) as Hstop.
  { intros w0 Hf more. induction more as [|[now r] more IH]; [done|]. cbn [write_records].
    rewrite (rbind_ok _ _ _ tt w0); [done|]. unfold write_record, rbind, rget. by rewrite Hf. }
  assert (∀ w, (reported (log w) = [] ∨
                length (reported (log w)) = 1%nat ∧ failed (log w) = true ∧ on_failure (log w) = false) →
    let w' := (write_records records w).2 in
    reported (log w') = [] ∨
      length (reported (log w')) = 1%nat ∧ failed (log w') = true ∧ on_failure (log w') = false) as H.
  { clear w Hw. induction records as [|[now r] records IH]; intros w Hw; [done|]. cbn [write_records].
    destruct (write_record_ok json_to_string timestamp now r w) as [w1 E1].
    rewrite (rbind_ok _ _ _ tt w1 E1). apply IH.
    destruct (write_record_report json_to_string timestamp now r w) as [Hr|(why & w2 & Hr & E2)];
      rewrite E1 in *; cbn [snd] in *; unfold report_of in Hr; simplify_eq.
    - destruct Hw as [Hw|(?&?&?)]; [left; congruence|right; split_and!; congruence].
    - cbn. destruct (on_failure (log w2)) eqn:Ho.
      + right. destruct Hw as [Hw|(?&?&?)]; [|congruence].
        assert (reported (log w2) = []) as -> by congruence. done.
      + destruct Hw as [Hw|(?&?&?)]; [left; congruence|right; split_and!; congruence]. }
  destruct (H w (or_introl Hw)) as [H1|(H1 & H2 & H3)]; cbn zeta; split_and!.
  - rewrite H1. cbn. lia.
  - done.
  - apply Hstop.
  - lia.
  - done.
  - apply Hstop.
Qed.
End Properties.

(** A record that is 65536 bytes with its newline is kept as it is. *)
Lemma record_at_bound_kept json_to_string timestamp record :
  len record + 1 = MAX_RECORD_BYTES → bounded_record json_to_string timestamp record = record.
Proof. intros H. unfold bounded_record. rewrite H. by rewrite Z.ltb_irrefl. Qed.

Definition sample_log : RotatingLog :=
  {| active := true; size := 0; pending := ""; discarding := false; line_len := 0; failed := false;
     on_failure := true; reported := []; rotation_failing := None;
     rotation_retry_limit := ROTATION_RETRY_LIMIT; unfinished := false |}.
Definition sample_world (faults : list (option Fault)) : World :=
  {| fs := {[ACTIVE := ""]}; faults := faults; log := sample_log; doubted := [] |}.

Lemma records_bounded_witness :
  ∃ w' c, write_record (λ _, "{}") "t" 0 "hello" (sample_world []) = (Ok tt, w') ∧
    fs w' !! ACTIVE = Some (c +:+ "hello" +:+ newline).
Proof.
  destruct (records_bounded (λ _, "{}") "t" 0 "hello" (sample_world [])) as (w' & c & H1 & _ & H2 & _).
  - constructor; [done|done|done|by exists ""|].
    intros n x Hx. cbn [fs sample_world] in Hx. apply lookup_singleton_Some in Hx as [_ <-]. vm_compute. discriminate.
  - vm_compute. discriminate.
  - exists w', c. split; [exact H1|exact H2].
Defined.

(** A write that fails twice is reported. *)
Lemma failure_reported_once_witness :
  let w := sample_world [Some {| partial := 2; reason := "disk full" |};
                         Some {| partial := 0; reason := "disk full" |}] in
  let w' := (write_records (λ _, "{}") "t" [(0, "hello"); (1, "again")] w).2 in
  reported (log w') = ["write: disk full; after reopening: disk full"] ∧
  (length (reported (log w')) ≤ 1)%nat.
Proof.
  intros w w'. split; [vm_compute; reflexivity|].
  exact (proj1 (failure_reported_once (λ _, "{}") "t" [(0, "hello"); (1, "again")] w eq_refl)).
Defined.

(** A failed write is ended by a newline before the record is written again. *)
Example partial_write_is_terminated :
  fs (write_record (λ _, "{}") "t" 0 "hello"
        (sample_world [Some {| partial := 2; reason := "x" |}])).2 !! ACTIVE
  = Some ("he" +:+ newline +:+ "hello" +:+ newline).
Proof. vm_compute. reflexivity. Qed.

(** Two rotations in a row fill two archives. *)
Example rotations_shift :
  let w := {| fs := {[ACTIVE := "b"; archive_name 1 := "a"]}; faults := []; log := sample_log; doubted := [] |} in
  let fs' := fs (rotate w).2 in
  (fs' !! archive_name 2, fs' !! archive_name 1, fs' !! ACTIVE) = (Some "a", Some "b", Some "").
Proof. vm_compute. reflexivity. Qed.

(** A test that cannot read the metadata of the file being rotated, and one of an archive:
    each file is renamed over. *)
Example doubted_files_are_replaced :
  let refused := Some {| partial := 0; reason := "access denied" |} in
  let w faults := {| fs := {[ACTIVE := "c"; ROTATING := "b"; archive_name 1 := "a"]}; faults := faults;
                     log := sample_log; doubted := [] |} in
  log_text (fs (w [])) = "abc" ∧ log_text (fs (rotate (w [])).2) = "abc" ∧
  log_text (fs (rotate (w [refused])).2) = "ac" ∧ log_text (fs (rotate (w [None; refused])).2) = "bc".
Proof. by vm_compute. Qed.
