(* ===== verification/SharedLog.v ===== *)
(** * Several threads on one log ([lib.rs], [init_logger_with_writer] and [SharedWriter])

    Every thread of the agent logs through a clone of one [SharedWriter]: the writer behind
    a mutex. A line is one [write_all], which calls [write] until the line is written; each
    [write] takes the lock for itself. Between taking the lock and giving it back a thread
    works on the writer as it found it, so that what the lock prevents, one thread's write
    undone by another's, is expressible. The writer is any that has [write]; what makes
    lines whole is that the service's writer takes a buffer whole. *)

From S2P Require Import Prelude IpAddr Types Ring Dispatch Logon Paths Emit Config Rotation.
Open Scope Z_scope.

(** ** The writer behind the lock *)

(** [std::io::Error], as far as [write_all] looks. *)
Inductive IoError := Interrupted | OtherError (reason : string).

(** [Write]: what a [write] at a time answers and leaves. *)
Class InnerWriter (W : Type) := {
  inner_write : Instant → string → W → Result Z IoError * W;
  inner_flush : W → Result unit IoError * W;
}.

(** A writer that takes every buffer whole. *)
Class TakesWhole (W : Type) `{InnerWriter W} :=
  takes_whole : ∀ now buf w, (inner_write now buf w).1 = Ok (len buf).

(** The bytes after the first [n]. *)
Fixpoint drop_str (n : nat) (s : string) : string :=
  match n, s with S n, String _ s => drop_str n s | _, _ => s end.

(** What [write_all] does with an answer: go on with the rest, or end. *)
Inductive After := GoOn (rest : string) | Ends (failed : bool).
Definition write_all_turn (buf : string) (answer : Result Z IoError) : After :=
  match answer with
  | Ok n => if n =? 0 then Ends true
            else match drop_str (Z.to_nat n) buf with EmptyString => Ends false | rest => GoOn rest end
  | Err Interrupted => GoOn buf
  | Err (OtherError _) => Ends true
  end.

(** ** The threads *)

(** A thread: the lines it has still to log, and where it is: between lines, about to take
    the lock for what is left of a line, or holding it, with the writer as it found it. *)
Inductive ThreadPc (W : Type) := Between | Wants (buf : string) | Holds (buf : string) (found : W).
Arguments Between {W}.
Arguments Wants {W} buf.
Arguments Holds {W} buf found.

Record Thread (W : Type) := { todo : list string; at_ : ThreadPc W }.
Arguments todo {W} _.
Arguments at_ {W} _.

(** [SharedWriter]: the writer, who holds the lock, the threads with their clones; and the
    writes made so far, by thread. *)
Record SharedWriter (W : Type) := {
  inner : W;
  holder : option nat;
  threads : gmap nat (Thread W);
  order : list (nat * (Instant * string));
}.
Arguments inner {W} _.
Arguments holder {W} _.
Arguments threads {W} _.
Arguments order {W} _.

Section Shared.
Context {W : Type} `{InnerWriter W}.

Definition set_thread (i : nat) (t : Thread W) (s : SharedWriter W) : SharedWriter W :=
  {| inner := inner s; holder := holder s; threads := <[i := t]> (threads s); order := order s |}.

(** A line begins: [make_writer] clones, [write_all] of an empty line writes nothing. *)
Definition begin_line (i : nat) (line : string) (todo : list string) (s : SharedWriter W) : SharedWriter W :=
  set_thread i {| todo := todo; at_ := match line with EmptyString => Between | _ => Wants line end |} s.

(** [self.0.lock()]. *)
Definition lock (i : nat) (buf : string) (todo : list string) (s : SharedWriter W) : SharedWriter W :=
  {| inner := inner s; holder := Some i;
     threads := <[i := {| todo := todo; at_ := Holds buf (inner s) |}]> (threads s); order := order s |}.

(** [.write(buf)] and the end of the guard. *)
Definition write_and_unlock (now : Instant) (i : nat) (buf : string) (found : W) (todo : list string)
    (s : SharedWriter W) : SharedWriter W :=
  let '(answer, left_behind) := inner_write now buf found in
  {| inner := left_behind; holder := None;
     threads := <[i := {| todo := todo;
                          at_ := match write_all_turn buf answer with GoOn rest => Wants rest | Ends _ => Between end |}]>
                  (threads s);
     order := order s ++ [(i, (now, buf))] |}.

Inductive shared_step : SharedWriter W → SharedWriter W → Prop :=
| begins i line todo s :
    threads s !! i = Some {| todo := line :: todo; at_ := Between |} →
    shared_step s (begin_line i line todo s)
| locks i buf todo s :
    threads s !! i = Some {| todo := todo; at_ := Wants buf |} → holder s = None →
    shared_step s (lock i buf todo s)
| unlocks now i buf found todo s :
    threads s !! i = Some {| todo := todo; at_ := Holds buf found |} →
    shared_step s (write_and_unlock now i buf found todo s).

(** The threads before any of them logs. *)
Definition shared_start (w : W) (lines : gmap nat (list string)) : SharedWriter W :=
  {| inner := w; holder := None; threads := (λ l, {| todo := l; at_ := Between |}) <$> lines; order := [] |}.

(** The writes one after the other. *)
Fixpoint write_each (writes : list (Instant * string)) (w : W) : W :=
  match writes with [] => w | (now, buf) :: writes => write_each writes (inner_write now buf w).2 end.

(** What a thread wrote, of the writes of all. *)
Definition written_by (i : nat) (writes : list (nat * (Instant * string))) : list string :=
  (λ x, x.2.2) <$> filter (λ x, x.1 = i) writes.

(** What a thread has still to write. *)
Definition left_of (t : Thread W) : list string :=
  match at_ t with Between => [] | Wants buf | Holds buf _ => [buf] end ++ todo t.

(** ** Lines are whole *)

Context `{!TakesWhole W}.

Lemma drop_str_all s : drop_str (String.length s) s = "".
Proof. by induction s. Qed.

Lemma whole_turn now buf w :
  buf ≠ "" → write_all_turn buf (inner_write now buf w).1 = Ends false.
Proof.
  intros Hb. rewrite takes_whole. unfold write_all_turn, len. rewrite Nat2Z.id, drop_str_all.
  destruct (Z.eqb_spec (Z.of_nat (String.length buf)) 0) as [E|]; [|done]. by destruct buf.
Qed.

Lemma write_each_app a b w : write_each (a ++ b) w = write_each b (write_each a w).
Proof. revert w. induction a as [|[now buf] a IH]; intros w; cbn; [done|apply IH]. Qed.

Lemma written_by_snoc i j now buf writes :
  written_by i (writes ++ [(j, (now, buf))]) = written_by i writes ++ (if decide (j = i) then [buf] else []).
Proof. unfold written_by. rewrite filter_app, fmap_app. f_equal. cbn. by case_decide. Qed.

(** The invariant: the writer is what the writes left; the holder of the lock, and no one
    else, has it; each thread's lines are those written and those left. *)
Record shared_ok (w : W) (lines : gmap nat (list string)) (s : SharedWriter W) : Prop := {
  ok_inner : inner s = write_each (snd <$> order s) w;
  ok_holder : ∀ i t buf found, threads s !! i = Some t → at_ t = Holds buf found → holder s = Some i ∧ found = inner s;
  ok_held : ∀ i, holder s = Some i → ∃ t buf found, threads s !! i = Some t ∧ at_ t = Holds buf found;
  ok_lines : ∀ i t, threads s !! i = Some t → lines !! i = Some (written_by i (order s) ++ left_of t);
  ok_threads : dom (threads s) = dom lines;
  ok_order : Forall (λ x, x.1 ∈ dom lines) (order s);
}.

Lemma shared_start_ok w lines : shared_ok w lines (shared_start w lines).
Proof.
  split; cbn; [done| |done| |by rewrite dom_fmap_L|constructor].
  - intros i t buf found Ht. rewrite lookup_fmap, fmap_Some in Ht. by destruct Ht as (l & _ & ->).
  - intros i t Ht. rewrite lookup_fmap, fmap_Some in Ht. by destruct Ht as (l & -> & ->).
Qed.

(** A thread moved; the others are as they were. *)
Lemma insert_cases (i j : nat) (t t' : Thread W) (m : gmap nat (Thread W)) :
  <[i := t]> m !! j = Some t' → (i = j ∧ t' = t) ∨ (i ≠ j ∧ m !! j = Some t').
Proof.
  destruct (decide (i = j)) as [->|]; [rewrite lookup_insert_eq|rewrite lookup_insert_ne by done]; [|by right].
  intros [= ->]. by left.
Qed.

Lemma dom_insert_known (i : nat) (t t' : Thread W) (m : gmap nat (Thread W)) : m !! i = Some t → dom (<[i := t']> m) = dom m.
Proof. intros Ht. rewrite dom_insert_L. apply elem_of_dom_2 in Ht. set_solver. Qed.

Lemma left_nonempty w lines s i t :
  shared_ok w lines s → map_Forall (λ _ l, Forall (.≠ "") l) lines → threads s !! i = Some t →
  Forall (.≠ "") (left_of t).
Proof. intros Hok Hl Ht. pose proof (Hl i _ (ok_lines _ _ _ Hok i t Ht)) as H0. by apply Forall_app in H0 as [_ ?]. Qed.

(** A step of thread [i] to [t'], where nothing else it looks at changes. *)
Lemma shared_ok_moves w lines s i t t' :
  shared_ok w lines s → threads s !! i = Some t → left_of t' = left_of t →
  at_ t = Between → (∀ buf found, at_ t' ≠ Holds buf found) →
  shared_ok w lines (set_thread i t' s).
Proof.
  intros [O1 O2 O5 O3 O4 O6] Ht Hl Hb Hh. split; cbn.
  - done.
  - intros j x buf found [[<- ->]|[Hne Hx]]%insert_cases Hat; [by apply Hh in Hat|by eapply O2].
  - intros j Hj. destruct (O5 j Hj) as (x & buf & found & Hx & Hat). exists x, buf, found. split; [|done].
    destruct (decide (i = j)) as [->|]; [congruence|by rewrite lookup_insert_ne].
  - intros j x [[<- ->]|[Hne Hx]]%insert_cases; [rewrite Hl|]; by apply O3.
  - by rewrite (dom_insert_known i t).
  - done.
Qed.

Lemma shared_ok_step w lines s s' :
  map_Forall (λ _ l, Forall (.≠ "") l) lines → shared_step s s' → shared_ok w lines s → shared_ok w lines s'.
Proof.
  intros Hne Hst Hok. pose proof Hok as [O1 O2 O5 O3 O4 O6].
  destruct Hst as [i line todo s Ht|i buf todo s Ht Hh|now i buf found todo s Ht].
  - pose proof (left_nonempty _ _ _ _ _ Hok Hne Ht) as Hf. cbn in Hf. apply Forall_cons in Hf as [Hline _].
    eapply shared_ok_moves; [done|done|by destruct line|done|by destruct line].
  - split; cbn; [done| | | |by rewrite (dom_insert_known i _ _ _ Ht)|done].
    + intros j x b f [[<- ->]|[Hij Hx]]%insert_cases Hat; cbn in Hat; [by simplify_eq|].
      destruct (O2 j x b f Hx Hat) as [Hj _]. congruence.
    + intros j [= <-]. eexists _, buf, (inner s). by rewrite lookup_insert_eq.
    + intros j x [[<- ->]|[Hij Hx]]%insert_cases; [|by apply O3]. by rewrite (O3 i _ Ht).
  - destruct (O2 i _ buf found Ht eq_refl) as [Hh ->].
    pose proof (left_nonempty _ _ _ _ _ Hok Hne Ht) as Hf. cbn in Hf. apply Forall_cons in Hf as [Hbuf _].
    unfold write_and_unlock. pose proof (whole_turn now buf (inner s) Hbuf) as Hturn.
    destruct (inner_write now buf (inner s)) as [answer left_behind] eqn:E. cbn [fst] in Hturn. rewrite Hturn.
    split; cbn [inner holder threads order].
    + rewrite fmap_app, write_each_app, <- O1. cbn. by rewrite E.
    + intros j x b f [[<- ->]|[Hij Hx]]%insert_cases Hat; cbn in Hat; [done|].
      destruct (O2 j x b f Hx Hat) as [Hj _]. congruence.
    + done.
    + intros j x [[<- ->]|[Hij Hx]]%insert_cases; rewrite written_by_snoc; case_decide; try congruence.
      * rewrite (O3 i _ Ht). cbn. by rewrite <- app_assoc.
      * rewrite app_nil_r. by apply O3.
    + by rewrite (dom_insert_known i _ _ _ Ht).
    + apply Forall_app. split; [done|]. apply Forall_singleton. cbn. rewrite <- O4. by apply elem_of_dom_2 in Ht.
Qed.

(** Every thread's lines are written whole, in its order, and the writer is what the writes
    leave one after the other; no one's lock is lost. *)
Lemma shared_writes_serial w lines s :
  map_Forall (λ _ l, Forall (.≠ "") l) lines → rtc shared_step (shared_start w lines) s → shared_ok w lines s.
Proof.
  intros Hne Hs. refine (rtc_ind_r (shared_ok w lines) _ _ _ _ Hs); [apply shared_start_ok|].
  intros x y _ Hxy IH. by eapply shared_ok_step.
Qed.

(** Nothing begun, nothing left. *)
Definition idle (t : Thread W) : bool := match at_ t, todo t with Between, [] => true | _, _ => false end.
Definition finished (s : SharedWriter W) : Prop := map_Forall (λ _ t, idle t = true) (threads s).

(** Whoever holds the lock gives it back, so some thread can go on until all have finished. *)
Lemma shared_goes_on w lines s : shared_ok w lines s → finished s ∨ ∃ s', shared_step s s'.
Proof.
  intros [O1 O2 O5 O3 O4 O6]. destruct (holder s) as [i|] eqn:Hh.
  { right. destruct (O5 i eq_refl) as ([td pc] & buf & found & Ht & Hat). cbn in Hat. subst pc.
    eexists. by apply (unlocks 0 i buf found td). }
  destruct (decide (map_Forall (λ _ t, idle t = true) (threads s))) as [|Hn]; [by left|right].
  apply map_not_Forall in Hn as (i & [td pc] & Ht & Hi); [|apply _]. unfold idle in Hi. cbn in Hi.
  destruct pc as [|buf|buf found].
  - destruct td as [|line td]; [done|]. eexists. by apply (begins i line td).
  - eexists. by apply (locks i buf td).
  - by destruct (O2 i _ buf found Ht eq_refl).
Qed.

Lemma finished_written w lines s i l :
  shared_ok w lines s → finished s → lines !! i = Some l → written_by i (order s) = l.
Proof.
  intros [O1 O2 O5 O3 O4 O6] Hf Hl. assert (i ∈ dom (threads s)) as [t Ht]%elem_of_dom.
  { rewrite O4. by apply elem_of_dom_2 in Hl. }
  specialize (O3 i t Ht). rewrite Hl in O3. specialize (Hf i t Ht). unfold idle in Hf. unfold left_of in O3.
  destruct (at_ t), (todo t); try done. rewrite app_nil_r in O3. congruence.
Qed.
End Shared.

(** ** A whole line is one record *)

(** The line being received, replaced. *)
Definition reline (p : string) (d : bool) (n : Z) (w : World) : World :=
  {| fs := fs w; faults := faults w; log := set_line (log w) p d n; doubted := doubted w |}.

(** A computation that neither looks at the line being received nor changes it. *)
Definition line_blind {A} (m : RM A) : Prop :=
  ∀ p d n w, m (reline p d n w) = let '(r, w') := m w in (r, reline p d n w').

Create HintDb blind.

Lemma blind_ret {A} (a : A) : line_blind (rret a).
Proof. done. Qed.
Lemma blind_err {A} e : line_blind (rerr (A := A) e).
Proof. done. Qed.
Lemma blind_bind {A B} (m : RM A) (f : A → RM B) :
  line_blind m → (∀ a, line_blind (f a)) → line_blind (rbind m f).
Proof.
  intros Hm Hf p d n w. unfold rbind. rewrite Hm. destruct (m w) as [[a|e] w']; [apply Hf|done].
Qed.
Lemma blind_try {A} (m : RM A) : line_blind m → line_blind (rtry m).
Proof. intros Hm p d n w. unfold rtry. rewrite Hm. by destruct (m w). Qed.
Lemma blind_modify f : (∀ l p d n, f (set_line l p d n) = set_line (f l) p d n) → line_blind (rmodify f).
Proof. intros Hf p d n w. unfold rmodify, reline. cbn. by rewrite Hf. Qed.
(** The log is looked at for its other fields. *)
Lemma blind_get {A} (f : RotatingLog → RM A) :
  (∀ l p d n, f (set_line l p d n) = f l) → (∀ l, line_blind (f l)) → line_blind (rbind rget f).
Proof. intros Hf Hb p d n w. unfold rbind, rget. cbn. rewrite Hf. apply Hb. Qed.
Lemma blind_fault : line_blind next_fault.
Proof. done. Qed.
Lemma blind_on_fs {A} (op : gmap string string → Result (A * gmap string string) string) : line_blind (on_fs op).
Proof. intros p d n w. unfold on_fs. cbn. by destruct (op (fs w)) as [[]|]. Qed.
Lemma blind_exists name : line_blind (exists_file name).
Proof. intros p d n w. unfold exists_file. cbn. by destruct (faults w) as [|[]]. Qed.
#[export] Hint Resolve blind_ret blind_err blind_bind blind_try blind_fault blind_on_fs blind_exists : blind.
#[export] Hint Extern 1 (line_blind (rmodify _)) => by apply blind_modify : blind.
#[export] Hint Extern 1 (line_blind (match ?x with _ => _ end)) => destruct x : blind.

Ltac blind := repeat first [apply blind_get; [done|intros ?] | progress (intros; eauto 2 with blind) | apply blind_bind | case_match].

Lemma blind_faulty {A} (m : RM A) : line_blind m → line_blind (faulty m).
Proof. intros. unfold faulty. blind. Qed.
#[export] Hint Resolve blind_faulty : blind.
Lemma blind_rename a b : line_blind (rename_file a b).
Proof. unfold rename_file. blind. Qed.
Lemma blind_remove a : line_blind (remove_file a).
Proof. unfold remove_file. blind. Qed.
Lemma blind_opener : line_blind opener.
Proof. unfold opener. blind. Qed.
Lemma blind_write_active b : line_blind (write_active b).
Proof. unfold write_active. blind. Qed.
#[export] Hint Resolve blind_rename blind_remove blind_opener blind_write_active : blind.
Lemma blind_reopen : line_blind reopen.
Proof. unfold reopen. blind. Qed.
Lemma blind_first_free n left : line_blind (first_free n left).
Proof. revert n. induction left; intros n; cbn [first_free]; blind. Qed.
Lemma blind_shift k : line_blind (shift k).
Proof. induction k; cbn [shift]; blind. Qed.
#[export] Hint Resolve blind_reopen blind_first_free blind_shift : blind.
Lemma blind_rotate : line_blind rotate.
Proof. unfold rotate, set_aside, free_place. blind. Qed.
#[export] Hint Resolve blind_rotate : blind.
Lemma blind_rotate_if_due now n : line_blind (rotate_if_due now n).
Proof. unfold rotate_if_due. blind. Qed.
Lemma blind_append r : line_blind (append r).
Proof. unfold append, append_raw. blind. Qed.
#[export] Hint Resolve blind_rotate_if_due blind_append : blind.
Lemma blind_append_raw b : line_blind (append_raw b).
Proof. unfold append_raw. blind. Qed.
#[export] Hint Resolve blind_append_raw : blind.
Lemma blind_retry_append r : line_blind (retry_append r).
Proof. unfold retry_append. blind. Qed.
Lemma blind_fail why : line_blind (fail why).
Proof. unfold fail. blind. Qed.
#[export] Hint Resolve blind_retry_append blind_fail : blind.
Lemma blind_write_record json_to_string timestamp now r : line_blind (write_record json_to_string timestamp now r).
Proof. unfold write_record. blind. Qed.

Lemma split_line line : forallb_str (λ a, negb (bool_decide (a = Ascii.ascii_of_N 10))) line = true →
  split_on (Ascii.ascii_of_N 10) (line +:+ newline) = [line; ""].
Proof.
  induction line as [|a line IH]; [done|]. cbn [forallb_str]. intros [Ha Hl]%andb_true_iff.
  rewrite app_str_cons. cbn [split_on]. rewrite IH by done.
  apply negb_true_iff, bool_decide_eq_false in Ha. by rewrite decide_False.
Qed.

(** ** The service's log behind the lock *)

Section ServiceLog.
Context (json_to_string : Json → string) (timestamp : string).

#[export] Instance rotating_writer : InnerWriter World := {|
  inner_write now buf w := let '(r, w') := log_write json_to_string timestamp now buf w in (map_err OtherError r, w');
  inner_flush w := (Ok tt, w);
|}.

Lemma log_write_takes now buf w :
  log_write json_to_string timestamp now buf w =
    (Ok (len buf), (take_pieces json_to_string timestamp now (split_on (Ascii.ascii_of_N 10) buf) w).2).
Proof.
  unfold log_write. destruct (take_pieces_ok json_to_string timestamp now (split_on (Ascii.ascii_of_N 10) buf) w) as [w' E].
  by rewrite (rbind_ok _ _ _ tt w' E), E.
Qed.

#[export] Instance rotating_takes_whole : TakesWhole World.
Proof. intros now buf w. cbn. by rewrite log_write_takes. Qed.

(** Between lines. *)
Definition line_start (w : World) : Prop := log w = set_line (log w) "" false 0.

Definition one_line (line : string) : Prop :=
  forallb_str (λ a, negb (bool_decide (a = Ascii.ascii_of_N 10))) line = true.

Lemma reline_id w : line_start w → reline "" false 0 w = w.
Proof. intros Hw. unfold reline. rewrite <- Hw. by destruct w. Qed.

Lemma reline_reline p d n p' d' n' w : reline p d n (reline p' d' n' w) = reline p d n w.
Proof. done. Qed.

Lemma blind_ends_at_start {A} (m : RM A) w : line_blind m → line_start w → reline "" false 0 (m w).2 = (m w).2.
Proof. intros Hm Hw. rewrite <- (reline_id w Hw) at 2. rewrite Hm. by destruct (m w). Qed.

Lemma take_bytes_start line w :
  line_start w →
  take_bytes line w = (Ok tt, if MAX_RECORD_BYTES <? len line + 1 then reline "" true (len line) w
                              else reline line false (len line) w).
Proof.
  intros Hw. unfold take_bytes, rmodify. rewrite Hw. cbn. rewrite Z.add_0_l. unfold reline.
  destruct (MAX_RECORD_BYTES <? len line + 1); cbn; by rewrite Hw.
Qed.

Lemma end_line_whole now line w :
  line_start w →
  (end_line json_to_string timestamp now (take_bytes line w).2).2 =
    (write_record json_to_string timestamp now (bounded_record json_to_string timestamp line) w).2.
Proof.
  intros Hw. rewrite take_bytes_start by done. cbn [snd].
  pose proof (λ r, blind_write_record json_to_string timestamp now r) as Hb. unfold bounded_record.
  destruct (MAX_RECORD_BYTES <? len line + 1); unfold end_line, rbind at 1, rget.
  - cbn [log reline set_line discarding line_len]. unfold rbind. rewrite Hb.
    destruct (write_record_ok json_to_string timestamp now (oversized_record json_to_string timestamp (len line)) w)
      as [w' E]. pose proof (blind_ends_at_start _ w (Hb (oversized_record json_to_string timestamp (len line))) Hw) as Hs.
    rewrite E in *. exact Hs.
  - cbn [log reline set_line discarding line_len pending]. unfold rbind, rmodify at 1.
    change {| fs := _; faults := _; log := _; doubted := _ |} with (reline "" false (len line) w). rewrite Hb.
    destruct (write_record_ok json_to_string timestamp now line w) as [w' E].
    pose proof (blind_ends_at_start _ w (Hb line) Hw) as Hs. rewrite E in *. exact Hs.
Qed.

(** A whole line written between lines is one record, and the next line can begin. *)
Lemma log_write_line now line w :
  line_start w → one_line line →
  (log_write json_to_string timestamp now (line +:+ newline) w).2 =
    (write_record json_to_string timestamp now (bounded_record json_to_string timestamp line) w).2 ∧
  line_start (write_record json_to_string timestamp now (bounded_record json_to_string timestamp line) w).2.
Proof.
  intros Hw Hl. rewrite log_write_takes. cbn [snd]. rewrite split_line by done. rewrite take_pieces_cons.
  rewrite end_line_whole by done.
  pose proof (blind_write_record json_to_string timestamp now (bounded_record json_to_string timestamp line)) as Hb.
  assert (line_start (write_record json_to_string timestamp now (bounded_record json_to_string timestamp line) w).2) as Hs.
  { unfold line_start. rewrite <- (blind_ends_at_start _ w Hb Hw). done. }
  split; [|done]. cbn [take_pieces]. rewrite take_bytes_start by done. cbn. by apply reline_id.
Qed.

(** A line's text, of what is written of it. *)
Definition text_of_write (buf : string) : string := take_str (String.length buf - 1) buf.

Lemma text_of_line line : text_of_write (line +:+ newline) = line.
Proof.
  unfold text_of_write. rewrite length_app_str. change (String.length newline) with 1%nat. rewrite Nat.add_sub.
  induction line as [|a line IH]; [done|]. rewrite app_str_cons. cbn [String.length take_str]. by rewrite IH.
Qed.

(** The records of some writes, in their order. *)
Definition records_of (writes : list (nat * (Instant * string))) : list (Instant * string) :=
  (λ x, (x.2.1, bounded_record json_to_string timestamp (text_of_write x.2.2))) <$> writes.

Definition is_line (buf : string) : Prop := ∃ line, one_line line ∧ buf = line +:+ newline.

Lemma write_each_records writes w :
  line_start w → Forall (λ x, is_line x.2.2) writes →
  write_each (W := World) (snd <$> writes) w = (write_records json_to_string timestamp (records_of writes) w).2.
Proof.
  revert w. induction writes as [|[i [now buf]] writes IH]; intros w Hw Hl; [done|].
  apply Forall_cons in Hl as [(line & Hone & Hbuf) Hl]. cbn in Hbuf. subst buf.
  destruct (log_write_line now line w Hw Hone) as [E Hs].
  cbn [fmap list_fmap write_each snd fst]. cbn [inner_write rotating_writer].
  destruct (log_write json_to_string timestamp now (line +:+ newline) w) as [r w1] eqn:Ew. cbn [snd] in *. subst w1.
  rewrite IH by done. cbn [records_of fmap list_fmap write_records fst snd]. rewrite text_of_line.
  destruct (write_record_ok json_to_string timestamp now (bounded_record json_to_string timestamp line) w) as [w2 E2].
  rewrite (rbind_ok _ _ _ tt w2 E2). by rewrite E2.
Qed.

(** The threads, each with its lines. *)
Definition logging_threads (lines : gmap nat (list string)) : gmap nat (list string) :=
  (λ l : list string, (λ line, line +:+ newline) <$> l) <$> lines.

Lemma order_is_lines w lines s :
  map_Forall (λ _ l, Forall one_line l) lines → shared_ok (W := World) w (logging_threads lines) s →
  Forall (λ x, is_line x.2.2) (order s).
Proof.
  intros Hl [O1 O2 O5 O3 O4 O6]. apply Forall_forall. intros [i [now buf]] Hx. cbn.
  rewrite Forall_forall in O6. specialize (O6 _ Hx). cbn in O6. rewrite <- O4 in O6. apply elem_of_dom in O6 as [t Ht].
  specialize (O3 i t Ht). unfold logging_threads in O3. rewrite lookup_fmap, fmap_Some in O3. destruct O3 as (l & Hi & E).
  assert (buf ∈ (λ line, line +:+ newline) <$> l) as (line & -> & Hline)%list_elem_of_fmap.
  { rewrite <- E. apply elem_of_app. left. unfold written_by. apply list_elem_of_fmap. exists (i, (now, buf)).
    split; [done|]. by apply list_elem_of_filter. }
  exists line. split; [|done]. specialize (Hl i l Hi). rewrite Forall_forall in Hl. by apply Hl.
Qed.

(** C29 The log's lines are whole, whoever writes them: in every interleaving of the agent's
    threads, the service's log is at each point what writing whole records one after the
    other leaves, rotation and faults included, each thread's lines in its own order and
    each line once. Each thread has finitely many lines: until all have been written some
    thread can go on, none waiting for a lock that is not given back, and when all have
    finished every line has been written. *)
Theorem service_log_serial (lines : gmap nat (list string)) (w : World) s :
  line_start w → map_Forall (λ _ l, Forall one_line l) lines →
  rtc (shared_step (W := World)) (shared_start w (logging_threads lines)) s →
  (finished s ∨ ∃ s', shared_step s s') ∧
  inner s = (write_records json_to_string timestamp (records_of (order s)) w).2 ∧
  ∀ i l, lines !! i = Some l →
    (text_of_write <$> written_by i (order s)) `prefix_of` l ∧
    (finished s → text_of_write <$> written_by i (order s) = l).
Proof.
  intros Hw Hl Hs. assert (shared_ok w (logging_threads lines) s) as Hok.
  { apply shared_writes_serial; [|done]. intros i l'. unfold logging_threads. rewrite lookup_fmap, fmap_Some.
    intros (l & _ & ->). apply Forall_fmap, Forall_true. intros [|a x]; cbn; by try rewrite app_str_cons. }
  pose proof (order_is_lines w lines s Hl Hok) as Hlines.
  split; [by eapply shared_goes_on|]. split.
  { rewrite (ok_inner _ _ _ Hok). by apply write_each_records. }
  intros i l Hi. assert (logging_threads lines !! i = Some ((λ line, line +:+ newline) <$> l)) as Hi'.
  { unfold logging_threads. by rewrite lookup_fmap, Hi. }
  assert (text_of_write <$> ((λ line, line +:+ newline) <$> l) = l) as Hback.
  { rewrite <- list_fmap_compose. rewrite <- (list_fmap_id l) at 2. apply list_fmap_ext. intros j x _. apply text_of_line. }
  split.
  - assert (i ∈ dom (threads s)) as [t Ht]%elem_of_dom.
    { rewrite (ok_threads _ _ _ Hok). by apply elem_of_dom_2 in Hi'. }
    pose proof (ok_lines _ _ _ Hok i t Ht) as E. rewrite Hi' in E. injection E as E. rewrite <- Hback, E, fmap_app.
    by eexists.
  - intros Hf. by rewrite (finished_written _ _ _ _ _ Hok Hf Hi').
Qed.
End ServiceLog.

(** ** The logger's set-up and the lifecycle lines *)

(** A subscriber: what it lets through, and the writer it writes to. *)
Record Subscriber (F W : Type) := { env_filter : F; with_writer : SharedWriter W }.
Arguments env_filter {F W} _.
Arguments with_writer {F W} _.

Section Init.
Context {F W : Type} (try_new : string → option F) (new_filter : string → F).

(** A level that does not parse is [info]; a process that has a subscriber keeps it. *)
Definition init_logger_with_writer (level : string) (writer : W) (global : option (Subscriber F W))
  : Result unit string * option (Subscriber F W) :=
  let subscriber :=
    {| env_filter := default (new_filter "info") (try_new level);
       with_writer := {| inner := writer; holder := None; threads := ∅; order := [] |} |} in
  (Ok tt, match global with Some first => Some first | None => Some subscriber end).

(** The first writer is the process's for good: a later set-up neither fails nor replaces it. *)
Lemma logger_set_once level level' w w' :
  let first := (init_logger_with_writer level w None).2 in
  init_logger_with_writer level' w' first = (Ok tt, first) ∧
  (with_writer <$> first) = Some (shared_start w ∅).
Proof. split; [done|]. cbn. unfold shared_start. by rewrite fmap_empty. Qed.
End Init.

(** A line of the log: its component, its other fields and its message. *)
Record LogLine := { component : string; fields : list (string * Json); message : string }.

Definition log_lifecycle_event (message component : string) : LogLine :=
  {| component := component; fields := []; message := message |}.

(** Before the identity step: the configured id, which is said to be that. *)
Definition log_agent_starting (version platform : string) (config : AgentConfig) : LogLine :=
  {| component := "main";
     fields :=
       [("agent.version", JString version); ("agent.id", JString (id (agent config)));
        ("agent.id_source", JString "configuration"); ("agent.platform", JString platform);
        ("agent.hostname", JString (hostname (agent config))); ("server.url", JString (url (server config)));
        ("heartbeat.interval_seconds", JNumber (interval_seconds (heartbeat config)))];
     message := "agent starting" |}.

(** After it: the server-issued id. *)
Definition log_identity_ready (agent_id : string) : LogLine :=
  {| component := "main";
     fields := [("agent.id", JString agent_id); ("agent.id_source", JString "identity")];
     message := "agent identity ready" |}.

(** ** Two threads *)

Definition sample_lines : gmap nat (list string) := {[0%nat := ["a"]; 1%nat := ["b"]]}.
Definition nl (s : string) : string := s +:+ newline.
Notation toy := (λ _ : Json, "{}").

(** The second thread wants the lock while the first holds it. *)
Definition both_begun : SharedWriter World :=
  begin_line 1 (nl "b") [] (begin_line 0 (nl "a") [] (shared_start (sample_world []) (logging_threads sample_lines))).
Definition first_holds : SharedWriter World := lock 0 (nl "a") [] both_begun.
Definition first_wrote : SharedWriter World :=
  write_and_unlock (H := rotating_writer toy "t") 5 0 (nl "a") (inner first_holds) [] first_holds.
Definition second_holds : SharedWriter World := lock 1 (nl "b") [] first_wrote.
Definition both_wrote : SharedWriter World :=
  write_and_unlock (H := rotating_writer toy "t") 6 1 (nl "b") (inner second_holds) [] second_holds.

Lemma both_write :
  rtc (shared_step (H := rotating_writer toy "t"))
    (shared_start (sample_world []) (logging_threads sample_lines)) both_wrote.
Proof.
  eapply rtc_l; [apply (begins 0 (nl "a") []); by vm_compute|].
  eapply rtc_l; [apply (begins 1 (nl "b") []); by vm_compute|].
  eapply rtc_l; [apply (locks 0 (nl "a") []); by vm_compute|].
  eapply rtc_l; [apply (unlocks 5 0 (nl "a") (inner first_holds) []); by vm_compute|].
  eapply rtc_l; [apply (locks 1 (nl "b") []); by vm_compute|].
  apply rtc_once, (unlocks 6 1 (nl "b") (inner second_holds) []). by vm_compute.
Qed.

Lemma service_log_serial_witness :
  inner both_wrote = (write_records toy "t" [(5, "a"); (6, "b")] (sample_world [])).2 ∧
  fs (inner both_wrote) !! ACTIVE = Some ("a" +:+ newline +:+ "b" +:+ newline).
Proof.
  split; [|by vm_compute].
  destruct (service_log_serial toy "t" sample_lines (sample_world []) both_wrote) as (_ & E & _); [done| |apply both_write|].
  - apply (bool_decide_unpack _). by vm_compute.
  - exact E.
Defined.

(** A writer that takes one byte at a time would mix the lines of two threads. *)
Module ShortWriter.
#[export] Instance one_byte : InnerWriter string := {|
  inner_write _ buf w := (Ok 1, w +:+ take_str 1 buf); inner_flush w := (Ok tt, w) |}.

Definition one_write (i : nat) (buf : string) (s : SharedWriter string) : SharedWriter string :=
  let held := lock i buf [] s in write_and_unlock 0 i buf (inner held) [] held.

Example lines_mixed :
  inner (one_write 1 "d" (one_write 0 "b" (one_write 1 "cd" (one_write 0 "ab"
    (begin_line 1 "cd" [] (begin_line 0 "ab" []
      (shared_start "" {[0%nat := ["ab"]; 1%nat := ["cd"]]}))))))) = "acbd".
Proof. by vm_compute. Qed.
End ShortWriter.
