(* ===== verification/Version.v ===== *)
(** * The product version ([version.rs])

    The build's check of [CG_RELEASE_VERSION], a byte loop over counters, and
    the grammar it decides. The package version and the build input are inputs. *)

From S2P Require Import Prelude.

Definition dot_char : Ascii.ascii := Ascii.ascii_of_N 46.
Definition zero_char : Ascii.ascii := Ascii.ascii_of_N 48.

(** The [while] over the bytes, with its variables. *)
Fixpoint release_loop (b : string) (dots digits : nat) (leading_zero : bool) : bool :=
  match b with
  | EmptyString => bool_decide (dots = 2) && bool_decide (0 < digits)
  | String c b' =>
      if decide (c = dot_char) then
        if bool_decide (digits = 0) || bool_decide (dots = 2) then false
        else release_loop b' (S dots) 0 false
      else if is_ascii_digit c then
        if leading_zero then false
        else release_loop b' dots (S digits) (bool_decide (digits = 0) && bool_decide (c = zero_char))
      else false
  end.

Definition is_release_version (s : string) : bool := release_loop s 0 0 false.

(** [None] when the build fails its assertion. *)
Definition agent_version (release_input : option string) (package_version : string) : option string :=
  match release_input with
  | Some v => if is_release_version v then Some v else None
  | None => Some (package_version +:+ "-dev")
  end.

(** ** The grammar *)

(** A SemVer numeric identifier: digits, [0] or no leading zero. *)
Definition numeric_identifier (s : string) : bool :=
  match s with
  | EmptyString => false
  | String c s' =>
      if decide (c = zero_char) then is_empty s' else forallb_str is_ascii_digit s
  end.

(** What may follow [digits] digits of an identifier. *)
Definition identifier_rest (digits : nat) (leading_zero : bool) (p : string) : bool :=
  match digits with
  | O => numeric_identifier p
  | S _ => if leading_zero then is_empty p else forallb_str is_ascii_digit p
  end.

Lemma zero_is_digit : is_ascii_digit zero_char = true.
Proof. done. Qed.

Lemma identifier_rest_digit digits c p :
  is_ascii_digit c = true →
  identifier_rest digits false (String c p) =
  identifier_rest (S digits) (bool_decide (digits = 0) && bool_decide (c = zero_char)) p.
Proof.
  intros Hc. destruct digits as [|n]; cbn [identifier_rest numeric_identifier forallb_str].
  - rewrite (bool_decide_eq_true_2 (0 = 0)) by done. cbn [andb]. rewrite Hc.
    case_decide; [by rewrite bool_decide_eq_true_2|by rewrite bool_decide_eq_false_2].
  - by rewrite Hc, bool_decide_eq_false_2.
Qed.

(** The loop decides the rest of the identifier it is in, then the others. *)
Lemma release_loop_spec s dots digits lz :
  (lz = true → 0 < digits) →
  release_loop s dots digits lz =
  match split_on dot_char s with
  | p :: ps => identifier_rest digits lz p && bool_decide (dots + length ps = 2)
               && forallb numeric_identifier ps
  | [] => false
  end.
Proof.
  revert dots digits lz; induction s as [|c s IH]; intros dots digits lz Hlz.
  - cbn. rewrite Nat.add_0_r, andb_true_r, andb_comm. f_equal.
    destruct digits; [done|]. by destruct lz.
  - cbn [release_loop split_on]. pose proof (split_on_not_nil dot_char s) as Hne.
    destruct (decide (c = dot_char)) as [->|Hdot].
    + assert (identifier_rest digits lz "" = negb (bool_decide (digits = 0))) as ->.
      { destruct digits; [done|]. by destruct lz. }
      destruct (decide (digits = 0)) as [->|Hd]; [done|].
      rewrite (bool_decide_eq_false_2 (digits = 0)) by done. cbn [orb negb andb].
      destruct (decide (dots = 2)) as [->|Hd2].
      { rewrite bool_decide_eq_true_2 by done.
        destruct (split_on dot_char s); [done|]. by rewrite bool_decide_eq_false_2 by (cbn; lia). }
      rewrite bool_decide_eq_false_2 by done. rewrite IH by done.
      destruct (split_on dot_char s) as [|p ps]; [done|]. cbn [forallb identifier_rest length].
      rewrite (bool_decide_ext (dots + S (length ps) = 2) (S dots + length ps = 2)) by lia.
      destruct (numeric_identifier p), (bool_decide _); done.
    + destruct (split_on dot_char s) as [|p ps] eqn:E; [done|].
      destruct (is_ascii_digit c) eqn:Hc.
      * destruct lz.
        { destruct digits as [|n]; [by pose proof (Hlz eq_refl); lia|]. done. }
        rewrite identifier_rest_digit by done. apply IH. intros _. lia.
      * destruct digits as [|n]; cbn [identifier_rest numeric_identifier forallb_str].
        { case_decide as Hz; [by rewrite Hz, zero_is_digit in Hc|]. by rewrite Hc. }
        destruct lz; cbn [is_empty]; by rewrite ?Hc.
Qed.

(** The byte loop decides the grammar: a string is a release version exactly
    when it is three numeric identifiers (digits, no leading zero but [0]
    itself) joined by dots, with nothing before or after. *)
Theorem is_release_version_grammar (s : string) :
  is_release_version s = true ↔
  ∃ x y z, s = x +:+ "." +:+ y +:+ "." +:+ z ∧
    numeric_identifier x = true ∧ numeric_identifier y = true ∧ numeric_identifier z = true.
Proof.
  unfold is_release_version. rewrite release_loop_spec by done. split.
  - pose proof (join_split_on dot_char s) as Hj.
    destruct (split_on dot_char s) as [|x ps]; [done|].
    rewrite !andb_true_iff, bool_decide_eq_true. intros [[Hx Hl] Hps].
    destruct ps as [|y [|z [|? ?]]]; try (cbn in Hl; lia). cbn [forallb] in Hps.
    apply andb_true_iff in Hps as [Hy Hz]. rewrite andb_true_r in Hz. by exists x, y, z.
  - intros (x & y & z & -> & Hx & Hy & Hz).
    assert (∀ p, numeric_identifier p = true →
      forallb_str (λ a, negb (bool_decide (a = dot_char))) p = true) as Hplain.
    { intros p Hp. eapply (forallb_str_impl is_ascii_digit).
      - intros a Ha. apply negb_true_iff, bool_decide_eq_false. by intros ->.
      - destruct p as [|c p]; [done|]. cbn in Hp. case_decide; [|done]. subst. by destruct p. }
    change (x +:+ "." +:+ y +:+ "." +:+ z) with (x +:+ String dot_char (y +:+ String dot_char z)).
    rewrite !split_on_app, split_on_plain by auto. cbn [identifier_rest forallb length].
    by rewrite Hx, Hy, Hz.
Qed.

Example release_accepts : is_release_version "10.20.30" = true.
Proof. reflexivity. Qed.
Example release_refuses : is_release_version "1.02.3" = false ∧ is_release_version "1.2.3-rc.1" = false.
Proof. split; reflexivity. Qed.
