(* ===== verification/Resource.v ===== *)
(** * The executable's version resource ([build.rs])

    The build script's reading of the version (which must accept what
    [version.rs] accepts) and the resource file it writes for the linker. The
    texts of the resource are ASCII: a UTF-16 unit is a byte's value. *)

From S2P Require Import Prelude IpAddr Types Network Version Tls.
Open Scope Z_scope.

Definition LANGUAGE : Z := 0x0409.
Definition CODE_PAGE : Z := 1200.
Definition RT_VERSION : Z := 16.

(** ** The version of the build *)

Definition release_component (c : string) : bool :=
  negb (is_empty c) && forallb_str is_ascii_digit c
  && (bool_decide (c = "0") || negb (starts_with "0" c)).

Definition release_components (s : string) : option (string * string * string) :=
  match split_on dot_char s with
  | [x; y; z] =>
      if release_component x && release_component y && release_component z
      then Some (x, y, z) else None
  | _ => None
  end.

(** What [main] ends in on a Windows MSVC target. *)
Inductive BuildOutcome :=
| Nothing
| Panic
| WriteResource (numbers : Z * Z * Z) (text : string).

(** [split(['-', '+']).next()]. *)
Fixpoint before_suffix (s : string) : string :=
  match s with
  | EmptyString => EmptyString
  | String a s' =>
      if bool_decide (ascii_N a = 45%N) || bool_decide (ascii_N a = 43%N) then EmptyString
      else String a (before_suffix s')
  end.

Definition component_numbers (c : string * string * string) : option (Z * Z * Z) :=
  let '(x, y, z) := c in
  match parse_unsigned u16_max x, parse_unsigned u16_max y, parse_unsigned u16_max z with
  | Some x, Some y, Some z => Some (x, y, z)
  | _, _, _ => None
  end.

Definition build_main (release : option string) (cargo_version : string) : BuildOutcome :=
  match release with
  | Some r =>
      match release_components r with
      | None => Nothing
      | Some c => match component_numbers c with Some n => WriteResource n r | None => Panic end
      end
  | None =>
      match release_components (before_suffix cargo_version) with
      | None => Panic
      | Some c => match component_numbers c with
                  | Some n => WriteResource n (cargo_version +:+ "-dev")
                  | None => Panic
                  end
      end
  end.

(** ** The resource file *)

Notation bytes := (list Byte.byte).

Definition pad4 (out : bytes) : bytes :=
  out ++ replicate (Z.to_nat ((4 - Z.of_nat (length out) mod 4) mod 4)) Byte.x00.

Definition resource_header (data_size type_id name_id memory_flags language : Z) : bytes :=
  le_bytes 4 data_size ++ le_bytes 4 32 ++ le_bytes 2 0xFFFF ++ le_bytes 2 type_id
  ++ le_bytes 2 0xFFFF ++ le_bytes 2 name_id ++ le_bytes 4 0 ++ le_bytes 2 memory_flags
  ++ le_bytes 2 language ++ le_bytes 4 0 ++ le_bytes 4 0.

Fixpoint utf16 (s : string) : list Z :=
  match s with EmptyString => [] | String a s' => Z.of_N (ascii_N a) :: utf16 s' end.

(** The units of a text and its terminator. *)
Definition utf16_z (s : string) : bytes := (utf16 s ++ [0]) ≫= le_bytes 2.

Inductive Value :=
| NoValue
| Binary (b : bytes)
| Text (s : string).

Definition block (key : string) (value : Value) (children : list bytes) : bytes :=
  let out := pad4 (replicate 6 Byte.x00 ++ utf16_z key) in
  let '(out, value_length, kind) :=
    match value with
    | NoValue => (out, 0, 1)
    | Binary b => (out ++ b, wrap_u 16 (Z.of_nat (length b)), 0)
    | Text s => (out ++ utf16_z s, wrap_u 16 (Z.of_nat (length (utf16 s ++ [0]))), 1)
    end in
  let out := foldl (λ out child, pad4 out ++ child) out children in
  le_bytes 2 (wrap_u 16 (Z.of_nat (length out))) ++ le_bytes 2 value_length ++ le_bytes 2 kind
  ++ drop 6 out.

Definition fixed_info (x y z : Z) : bytes :=
  let ms := Z.lor (Z.shiftl x 16) y in
  let ls := Z.shiftl z 16 in
  [0xFEEF04BD; 0x00010000; ms; ls; ms; ls; 0x0000003F; 0; 0x00040004; 1; 0; 0; 0] ≫= le_bytes 4.

Definition version_info (numbers : Z * Z * Z) (text : string) : bytes :=
  let '(x, y, z) := numbers in
  let strings := (λ kv, block kv.1 (Text kv.2) []) <$>
    [("FileDescription", "CyberGuard endpoint agent"); ("FileVersion", text);
     ("OriginalFilename", "cg-agent.exe"); ("ProductName", "CyberGuard Agent");
     ("ProductVersion", text)] in
  let table := block "040904B0" NoValue strings in
  let string_file_info := block "StringFileInfo" NoValue [table] in
  let translation := le_bytes 2 LANGUAGE ++ le_bytes 2 CODE_PAGE in
  let var := block "Translation" (Binary translation) [] in
  let var_file_info := block "VarFileInfo" NoValue [var] in
  block "VS_VERSION_INFO" (Binary (fixed_info x y z)) [string_file_info; var_file_info].

Definition resource_file (numbers : Z * Z * Z) (text : string) : bytes :=
  let data := version_info numbers text in
  pad4 (resource_header 0 0 0 0 0
        ++ resource_header (wrap_u 32 (Z.of_nat (length data))) RT_VERSION 1 0x0030 LANGUAGE ++ data).

(** ** Lemmas *)

Lemma release_component_identifier c : release_component c = numeric_identifier c.
Proof.
  unfold release_component. destruct c as [|a c]; [done|]. cbn [is_empty negb andb numeric_identifier].
  case_decide as Ha.
  - subst a. cbn [forallb_str]. rewrite zero_is_digit. cbn [andb].
    assert (starts_with "0" (String zero_char c) = true) as ->
      by (apply starts_with_spec; by exists c).
    rewrite orb_false_r. destruct c as [|b c]; [done|].
    rewrite bool_decide_eq_false_2 by done. by rewrite andb_false_r.
  - assert (starts_with "0" (String a c) = false) as ->.
    { destruct (starts_with "0" (String a c)) eqn:E; [|done].
      apply starts_with_spec in E as [t E]. rewrite app_str_cons in E. by injection E as -> _. }
    by rewrite orb_true_r, andb_true_r.
Qed.

Lemma pad4_length out : Z.of_nat (length (pad4 out)) mod 4 = 0.
Proof.
  unfold pad4. rewrite length_app, length_replicate, Nat2Z.inj_add.
  pose proof (Z.mod_pos_bound (4 - Z.of_nat (length out) mod 4) 4 ltac:(lia)).
  rewrite Z2Nat.id by lia. rewrite Zplus_mod_idemp_r.
  rewrite (Z.div_mod (Z.of_nat (length out)) 4) at 1 by lia.
  replace (4 * (Z.of_nat (length out) / 4) + Z.of_nat (length out) mod 4
           + (4 - Z.of_nat (length out) mod 4))
    with ((Z.of_nat (length out) / 4 + 1) * 4) by lia.
  apply Z.mod_mul. lia.
Qed.

Lemma pad4_prefix out : out `prefix_of` pad4 out.
Proof. by eexists. Qed.

Lemma children_prefix (children : list bytes) out :
  out `prefix_of` foldl (λ out child, pad4 out ++ child) out children.
Proof.
  revert out; induction children as [|c children IH]; intros out; cbn [foldl]; [done|].
  etrans; [|apply IH]. apply prefix_app_r, pad4_prefix.
Qed.

(** A block's first field is its length. *)
Lemma block_length_field key value children :
  from_le_bytes (take 2 (block key value children)) =
    wrap_u 16 (Z.of_nat (length (block key value children))).
Proof.
  unfold block. set (base := pad4 (replicate 6 Byte.x00 ++ utf16_z key)).
  assert (6 ≤ length base)%nat as Hbase.
  { etrans; [|apply prefix_length, pad4_prefix]. rewrite length_app, length_replicate. lia. }
  clearbody base.
  destruct (match value with NoValue => _ | Binary _ => _ | Text _ => _ end) as [[out vl] kind] eqn:E.
  assert (6 ≤ length out)%nat as Hout
    by (destruct value; injection E as <- _ _; rewrite ?length_app; lia).
  pose proof (prefix_length _ _ (children_prefix children out)) as Hlen.
  set (all := foldl _ out children) in *.
  rewrite take_app_le by (by rewrite length_le_bytes).
  rewrite take_ge by (by rewrite length_le_bytes). rewrite from_le_le_bytes by (apply wrap_u_range; lia).
  rewrite !length_app, !length_le_bytes, length_drop. do 2 f_equal. lia.
Qed.

(** The value of the root block starts at offset 40. *)
Lemma version_info_split x y z text :
  ∃ head rest, version_info (x, y, z) text = head ++ fixed_info x y z ++ rest ∧ length head = 40%nat.
Proof.
  unfold version_info, block at 1. set (children := [_; _]). clearbody children.
  destruct (children_prefix children (pad4 (replicate 6 Byte.x00 ++ utf16_z "VS_VERSION_INFO")
              ++ fixed_info x y z)) as [rest Hr]. rewrite Hr. clear Hr.
  set (base := pad4 _). assert (length base = 40%nat) as Hb by (subst base; vm_compute; reflexivity).
  clearbody base.
  match goal with |- context [le_bytes 2 ?a ++ le_bytes 2 ?b ++ le_bytes 2 0 ++ _] =>
    exists (le_bytes 2 a ++ le_bytes 2 b ++ le_bytes 2 0 ++ drop 6 base), rest end.
  rewrite <- !app_assoc, drop_app_le by lia. split; [done|].
  rewrite !length_app, !length_le_bytes, length_drop. lia.
Qed.

(** ** Properties *)

(** The build script and the agent read the same version: the components
    the script takes of a release input exist exactly when the agent's check
    accepts it, and they are the three parts of it. *)
Theorem build_agrees_with_agent (s x y z : string) :
  release_components s = Some (x, y, z) ↔
  is_release_version s = true ∧ split_on dot_char s = [x; y; z].
Proof.
  unfold release_components, is_release_version. rewrite release_loop_spec by done.
  destruct (split_on dot_char s) as [|a [|b [|c [|? ?]]]];
    try (rewrite bool_decide_eq_false_2 by (cbn; lia); rewrite andb_false_r, andb_false_l);
    try naive_solver.
  rewrite !release_component_identifier. cbn [identifier_rest length forallb].
  rewrite bool_decide_eq_true_2, !andb_true_r by done.
  destruct (numeric_identifier a), (numeric_identifier b), (numeric_identifier c); naive_solver.
Qed.

(** The version resource carries the version: for numbers that fit a PE
    field the file is whole 32-bit words, the data's first field is its own
    length, and the file and product version numbers at their offsets in the
    fixed block read back as [X.Y.Z.0]. *)
Theorem version_resource_numbers (x y z : Z) (text : string) :
  in_u 16 x → in_u 16 y → in_u 16 z →
  let data := version_info (x, y, z) text in
  let field o := from_le_bytes (take 4 (drop o data)) in
  Z.of_nat (length (resource_file (x, y, z) text)) mod 4 = 0 ∧
  from_le_bytes (take 2 data) = wrap_u 16 (Z.of_nat (length data)) ∧
  field 48%nat = x * 65536 + y ∧ field 52%nat = z * 65536 ∧
  field 56%nat = x * 65536 + y ∧ field 60%nat = z * 65536.
Proof.
  intros Hx Hy Hz data field. split; [apply pad4_length|].
  split; [unfold data, version_info; apply block_length_field|].
  destruct (version_info_split x y z text) as (head & rest & E & Hh).
  assert (∀ o n v before after, fixed_info x y z = before ++ le_bytes 4 v ++ after →
            length before = o → in_u 32 v → n = (40 + o)%nat → field n = v) as Hfield.
  { intros o n v before after Ef Ho Hv ->. unfold field, data. rewrite E, Ef.
    rewrite !app_assoc, <- (app_assoc (head ++ before)), <- app_assoc.
    rewrite drop_app_length' by (rewrite length_app; lia).
    rewrite <- app_assoc, take_app_length' by (by rewrite length_le_bytes).
    by rewrite from_le_le_bytes. }
  pose proof (lor_shiftl_add 16 x y ltac:(lia) Hy) as Hms. unfold in_u in *.
  change (2 ^ 16) with 65536 in Hms.
  assert (Z.shiftl z 16 = z * 65536) as Hls by (rewrite Z.shiftl_mul_pow2 by lia; done).
  unfold fixed_info in Hfield. rewrite Hms, Hls in Hfield. cbn [mbind list_bind] in Hfield.
  split_and!.
  - eapply (Hfield 8%nat _ _ (le_bytes 4 0xFEEF04BD ++ le_bytes 4 0x00010000));
      [by rewrite <- !app_assoc|by rewrite length_app, !length_le_bytes|unfold in_u; lia|done].
  - eapply (Hfield 12%nat _ _ (le_bytes 4 0xFEEF04BD ++ le_bytes 4 0x00010000 ++ le_bytes 4 _));
      [by rewrite <- !app_assoc|by rewrite !length_app, !length_le_bytes|unfold in_u; lia|done].
  - eapply (Hfield 16%nat _ _ (le_bytes 4 0xFEEF04BD ++ le_bytes 4 0x00010000 ++ le_bytes 4 _
        ++ le_bytes 4 _));
      [by rewrite <- !app_assoc|by rewrite !length_app, !length_le_bytes|unfold in_u; lia|done].
  - eapply (Hfield 20%nat _ _ (le_bytes 4 0xFEEF04BD ++ le_bytes 4 0x00010000 ++ le_bytes 4 _
        ++ le_bytes 4 _ ++ le_bytes 4 _));
      [by rewrite <- !app_assoc|by rewrite !length_app, !length_le_bytes|unfold in_u; lia|done].
Qed.

Lemma version_resource_numbers_witness :
  in_u 16 1 ∧ from_le_bytes (take 4 (drop 48 (version_info (1, 2, 3) "1.2.3"))) = 65538.
Proof.
  split; [by vm_compute|].
  exact (proj1 (proj2 (proj2 (version_resource_numbers 1 2 3 "1.2.3" ltac:(by vm_compute)
    ltac:(by vm_compute) ltac:(by vm_compute))))).
Defined.

Example large_component_panics : build_main (Some "1.65536.0") "0.1.0" = Panic.
Proof. reflexivity. Qed.
Example dev_build : build_main None "0.1.0" = WriteResource (0, 1, 0) "0.1.0-dev".
Proof. reflexivity. Qed.
