(* ===== verification/X509.v ===== *)
(** * The certificate's key and name ([x509.rs])

    A DER reader over the client certificate: it walks to the subject and the
    public key. [next] reads one element; the loops over the names carry fuel,
    the length of what is left, which is enough as every element takes at least
    two bytes. Reading the PEM document belongs to rustls. *)

From S2P Require Import Prelude IpAddr Types Network.
Open Scope Z_scope.

Notation bytes := (list Byte.byte).

Record CertificateIdentity := { ed25519_public_key : bytes; common_name_text : string }.

Definition SEQUENCE : Byte.byte := Byte.x30.
Definition SET : Byte.byte := Byte.x31.
Definition INTEGER : Byte.byte := Byte.x02.
Definition BIT_STRING : Byte.byte := Byte.x03.
Definition OID : Byte.byte := Byte.x06.
Definition UTF8_STRING : Byte.byte := Byte.x0c.
Definition PRINTABLE_STRING : Byte.byte := Byte.x13.
Definition VERSION : Byte.byte := Byte.xa0.
Definition COMMON_NAME : bytes := [Byte.x55; Byte.x04; Byte.x03].
Definition ED25519 : bytes := [Byte.x2b; Byte.x65; Byte.x70].

(** ** The reader *)

Definition peek (bs : bytes) : option Byte.byte := head bs.

(** [fold(0, |n, &b| (n << 8) | b)]. *)
Definition be_value (bs : bytes) : Z :=
  foldl (λ n b, Z.lor (Z.shiftl n 8) (byte_Z b)) 0 bs.

(** The length that follows a tag, and what is left. *)
Definition read_length (what : string) (bs : bytes) : Result (Z * bytes) string :=
  match bs with
  | [] => Err (what +:+ ": truncated")
  | first :: rest =>
      if byte_Z first <? 0x80 then Ok (byte_Z first, rest)
      else
        let count := Z.land (byte_Z first) 0x7f in
        if (count =? 0) || (4 <? count) || (Z.of_nat (length rest) <? count)
        then Err (what +:+ ": bad length")
        else
          let lb := take (Z.to_nat count) rest in
          let after := drop (Z.to_nat count) rest in
          let n := be_value lb in
          if bool_decide (head lb = Some Byte.x00) || (n <? 0x80)
          then Err (what +:+ ": length not in its shortest form")
          else Ok (n, after)
  end.

(** One element: its tag, its value and what is left. *)
Definition next (what : string) (bs : bytes) : Result (Byte.byte * bytes * bytes) string :=
  match bs with
  | [] => Err (what +:+ ": truncated")
  | tag :: rest =>
      if Z.land (byte_Z tag) 0x1f =? 0x1f then Err (what +:+ ": multi-byte tag")
      else
        let? (n, rest) := read_length what rest in
        if Z.of_nat (length rest) <? n then Err (what +:+ ": truncated")
        else Ok (tag, take (Z.to_nat n) rest, drop (Z.to_nat n) rest)
  end.

(** [{:#04x}]. *)
Definition tag_text (t : Byte.byte) : string := "0x" +:+ hex_padded 2 (byte_Z t).

Definition expect (tag : Byte.byte) (what : string) (bs : bytes) : Result (bytes * bytes) string :=
  let? (found, value, rest) := next what bs in
  if decide (found = tag) then Ok (value, rest)
  else Err (what +:+ ": tag " +:+ tag_text found +:+ ", expected " +:+ tag_text tag).

(** ** UTF-8, as [std::str::from_utf8] validates it *)

Definition in_range (lo hi : Z) (b : Byte.byte) : bool := (lo <=? byte_Z b) && (byte_Z b <=? hi).

Fixpoint valid_utf8 (bs : bytes) : bool :=
  match bs with
  | [] => true
  | a :: r1 =>
      if in_range 0x00 0x7f a then valid_utf8 r1
      else match r1 with
      | [] => false
      | b :: r2 =>
          if in_range 0xc2 0xdf a then in_range 0x80 0xbf b && valid_utf8 r2
          else match r2 with
          | [] => false
          | c :: r3 =>
              if in_range 0xe0 0xef a then
                (if in_range 0xe0 0xe0 a then in_range 0xa0 0xbf b
                 else if in_range 0xed 0xed a then in_range 0x80 0x9f b
                 else in_range 0x80 0xbf b)
                && in_range 0x80 0xbf c && valid_utf8 r3
              else match r3 with
              | [] => false
              | d :: r4 =>
                  in_range 0xf0 0xf4 a
                  && (if in_range 0xf0 0xf0 a then in_range 0x90 0xbf b
                      else if in_range 0xf4 0xf4 a then in_range 0x80 0x8f b
                      else in_range 0x80 0xbf b)
                  && in_range 0x80 0xbf c && in_range 0x80 0xbf d && valid_utf8 r4
              end
          end
      end
  end.

(** The text of bytes. *)
Definition text_of_bytes (bs : bytes) : string := String.string_of_list_byte bs.

(** ** The fields *)

(** One attribute's effect on the name found so far. *)
Definition note_attribute (kind : bytes) (tag : Byte.byte) (value : bytes) (found : option string)
  : Result (option string) string :=
  if decide (kind = COMMON_NAME) then
    if negb (bool_decide (tag = UTF8_STRING)) && negb (bool_decide (tag = PRINTABLE_STRING))
    then Err ("common name of tag " +:+ tag_text tag)
    else if valid_utf8 value then
      match found with
      | Some _ => Err "more than one common name"
      | None => Ok (Some (text_of_bytes value))
      end
    else Err "common name is not UTF-8"
  else Ok found.

Fixpoint attributes (fuel : nat) (bs : bytes) (found : option string) : Result (option string) string :=
  match bs with
  | [] => Ok found
  | _ =>
      match fuel with
      | O => Err "out of fuel"
      | S f =>
          let? (attribute, rest) := expect SEQUENCE "AttributeTypeAndValue" bs in
          let? (kind, attribute) := expect OID "AttributeType" attribute in
          let? (tag, value, _) := next "AttributeValue" attribute in
          let? found := note_attribute kind tag value found in
          attributes f rest found
      end
  end.

Fixpoint rdns (fuel : nat) (bs : bytes) (found : option string) : Result (option string) string :=
  match bs with
  | [] => Ok found
  | _ =>
      match fuel with
      | O => Err "out of fuel"
      | S f =>
          let? (set, rest) := expect SET "RelativeDistinguishedName" bs in
          let? found := attributes (length set) set found in
          rdns f rest found
      end
  end.

Definition common_name (name : bytes) : Result string string :=
  let? found := rdns (length name) name None in
  ok_or found "no common name".

Definition ed25519_key (spki : bytes) : Result bytes string :=
  let? (algorithm, spki) := expect SEQUENCE "AlgorithmIdentifier" spki in
  let? (oid, algorithm) := expect OID "algorithm" algorithm in
  if negb (bool_decide (oid = ED25519)) || negb (bool_decide (algorithm = []))
  then Err "the public key is not Ed25519"
  else
    let? (bits, spki) := expect BIT_STRING "subjectPublicKey" spki in
    if negb (bool_decide (spki = [])) then Err "bytes after the subjectPublicKey"
    else match bits with
         | Byte.x00 :: key =>
             if decide (length key = 32%nat) then Ok key
             else Err "the Ed25519 public key is not 32 bytes"
         | _ => Err "the Ed25519 public key is not 32 bytes"
         end.

Definition certificate_identity_der (der : bytes) : Result CertificateIdentity string :=
  let? (certificate, outer) := expect SEQUENCE "Certificate" der in
  if negb (bool_decide (outer = [])) then Err "bytes after the Certificate"
  else
    let? (tbs, _) := expect SEQUENCE "tbsCertificate" certificate in
    let? tbs := (if decide (peek tbs = Some VERSION)
                 then let? (_, _, rest) := next "version" tbs in Ok rest
                 else Ok tbs) in
    let? (_, tbs) := expect INTEGER "serialNumber" tbs in
    let? (_, tbs) := expect SEQUENCE "signature" tbs in
    let? (_, tbs) := expect SEQUENCE "issuer" tbs in
    let? (_, tbs) := expect SEQUENCE "validity" tbs in
    let? (subject, tbs) := expect SEQUENCE "subject" tbs in
    let? (spki, _) := expect SEQUENCE "subjectPublicKeyInfo" tbs in
    let? cn := common_name subject in
    let? key := ed25519_key spki in
    Ok {| ed25519_public_key := key; common_name_text := cn |}.

(** [certificates] are those of the PEM document, or why it was refused. *)
Definition certificate_identity (certificates : Result (list bytes) string)
  : Result CertificateIdentity string :=
  let? certs := certificates in
  let? first := ok_or (head certs) "no CERTIFICATE block" in
  certificate_identity_der first.

(** ** The encoding *)

(** DER's shortest length. *)
Definition der_length (n : Z) : bytes :=
  if n <? 0x80 then [byte_of_Z n]
  else if n <? 2 ^ 8 then Byte.x81 :: be_bytes 1 n
  else if n <? 2 ^ 16 then Byte.x82 :: be_bytes 2 n
  else if n <? 2 ^ 24 then Byte.x83 :: be_bytes 3 n
  else Byte.x84 :: be_bytes 4 n.

Definition der (tag : Byte.byte) (value : bytes) : bytes :=
  tag :: der_length (Z.of_nat (length value)) ++ value.

(** A value whose length four bytes hold. *)
Definition small (value : bytes) : Prop := Z.of_nat (length value) < 2 ^ 32.

(** ** Lemmas *)

Lemma byte_of_Z_byte_Z b : byte_of_Z (byte_Z b) = b.
Proof. by destruct b. Qed.

Lemma byte_Z_inj a b : byte_Z a = byte_Z b → a = b.
Proof. intros H. by rewrite <- (byte_of_Z_byte_Z a), H, byte_of_Z_byte_Z. Qed.

Lemma le_bytes_from_le bs : le_bytes (length bs) (from_le_bytes bs) = bs.
Proof.
  induction bs as [|b bs IH]; [done|]. cbn [length from_le_bytes le_bytes].
  pose proof (byte_Z_range b) as Hb. unfold in_u in Hb. change (2 ^ 8) with 256 in Hb.
  rewrite (Z.mul_comm 256), Z.mod_add, Z.div_add, Z.mod_small, Z.div_small by lia.
  by rewrite byte_of_Z_byte_Z, Z.add_0_l, IH.
Qed.

Lemma be_value_from_be bs : be_value bs = from_be_bytes bs.
Proof.
  unfold be_value, from_be_bytes. induction bs as [|b bs IH] using rev_ind; [done|].
  rewrite foldl_snoc, reverse_app, IH. cbn [from_le_bytes app reverse rev_append].
  pose proof (byte_Z_range b) as Hb. rewrite lor_shiftl_add by (done || lia).
  change (2 ^ 8) with 256. lia.
Qed.

Lemma be_bytes_be_value bs : be_bytes (length bs) (be_value bs) = bs.
Proof.
  rewrite be_value_from_be. unfold be_bytes, from_be_bytes.
  rewrite <- (length_reverse bs), le_bytes_from_le. apply reverse_involutive.
Qed.

Lemma be_value_be_bytes k n : in_u (8 * Z.of_nat k) n → be_value (be_bytes k n) = n.
Proof.
  intros H. rewrite be_value_from_be. unfold from_be_bytes, be_bytes.
  by rewrite reverse_involutive, from_le_le_bytes.
Qed.

Lemma length_be_bytes k n : length (be_bytes k n) = k.
Proof. unfold be_bytes. by rewrite length_reverse, length_le_bytes. Qed.

Lemma be_value_range bs : in_u (8 * Z.of_nat (length bs)) (be_value bs).
Proof.
  rewrite be_value_from_be. unfold from_be_bytes. rewrite <- (length_reverse bs).
  apply from_le_bytes_range.
Qed.

Lemma from_le_snoc bs b :
  from_le_bytes (bs ++ [b]) = from_le_bytes bs + byte_Z b * 2 ^ (8 * Z.of_nat (length bs)).
Proof.
  induction bs as [|a bs IH]; cbn [from_le_bytes app length]; [cbn; lia|].
  rewrite IH. replace (8 * Z.of_nat (S (length bs))) with (8 * Z.of_nat (length bs) + 8) by lia.
  rewrite Z.pow_add_r by lia. change (2 ^ 8) with 256. lia.
Qed.

Lemma be_value_cons b bs :
  be_value (b :: bs) = byte_Z b * 2 ^ (8 * Z.of_nat (length bs)) + be_value bs.
Proof.
  rewrite !be_value_from_be. unfold from_be_bytes. rewrite reverse_cons, from_le_snoc, length_reverse. lia.
Qed.

(** The first byte is zero exactly when one byte less is enough. *)
Lemma be_value_head b bs :
  b = Byte.x00 ↔ be_value (b :: bs) < 2 ^ (8 * Z.of_nat (length bs)).
Proof.
  rewrite be_value_cons. pose proof (be_value_range bs) as Hr. unfold in_u in Hr. split.
  - intros ->. change (byte_Z Byte.x00) with 0. lia.
  - intros H. pose proof (byte_Z_range b) as Hb. unfold in_u in Hb.
    assert (byte_Z b = 0) by nia. by apply byte_Z_inj.
Qed.

(** The long form with [k] length bytes. *)
Lemma der_length_long k n :
  (1 ≤ k ≤ 4)%nat → 0x80 ≤ n → 2 ^ (8 * Z.of_nat (k - 1)) ≤ n < 2 ^ (8 * Z.of_nat k) →
  der_length n = byte_of_Z (0x80 + Z.of_nat k) :: be_bytes k n.
Proof.
  intros Hk H80 Hn. unfold der_length.
  destruct k as [|[|[|[|[|k]]]]]; try lia;
    repeat match type of Hn with context [2 ^ ?e] =>
      let v := eval vm_compute in (2 ^ e) in change (2 ^ e) with v in Hn end;
    repeat match goal with |- context [n <? ?v] =>
      destruct (Z.ltb_spec n v); [try lia|try lia] end; reflexivity.
Qed.

Lemma der_length_cases n :
  0 ≤ n < 2 ^ 32 →
  (n < 0x80 ∧ der_length n = [byte_of_Z n]) ∨
  ∃ k, (1 ≤ k ≤ 4)%nat ∧ 0x80 ≤ n ∧ 2 ^ (8 * Z.of_nat (k - 1)) ≤ n < 2 ^ (8 * Z.of_nat k) ∧
       der_length n = byte_of_Z (0x80 + Z.of_nat k) :: be_bytes k n.
Proof.
  intros Hn. destruct (Z.lt_ge_cases n 0x80).
  { left. split; [done|]. unfold der_length. by rewrite (proj2 (Z.ltb_lt _ _)). }
  right.
  assert (∃ k, (1 ≤ k ≤ 4)%nat ∧ 2 ^ (8 * Z.of_nat (k - 1)) ≤ n < 2 ^ (8 * Z.of_nat k)) as (k & Hk & Hr).
  { destruct (Z.lt_ge_cases n (2 ^ 8)); [exists 1%nat; simpl; lia|].
    destruct (Z.lt_ge_cases n (2 ^ 16)); [exists 2%nat; simpl; lia|].
    destruct (Z.lt_ge_cases n (2 ^ 24)); [exists 3%nat; simpl; lia|exists 4%nat; simpl; lia]. }
  exists k. split_and!; try lia. by apply der_length_long.
Qed.

(** [first & 0x7f] of a long form's first byte. *)
Lemma long_form_count first :
  0x80 ≤ byte_Z first → Z.land (byte_Z first) 0x7f = byte_Z first - 0x80.
Proof.
  intros Hl. pose proof (byte_Z_range first) as Hf. unfold in_u in Hf.
  change 0x7f with (Z.ones 7). rewrite Z.land_ones by lia. change (2 ^ 7) with 128.
  rewrite (Z.mod_eq _ 128) by lia.
  replace (byte_Z first / 128) with 1 by (apply Z.div_unique with (byte_Z first - 128); lia). lia.
Qed.

Lemma read_length_sound what bs n rest :
  read_length what bs = Ok (n, rest) → 0 ≤ n < 2 ^ 32 ∧ bs = der_length n ++ rest.
Proof.
  unfold read_length. destruct bs as [|first bs]; [done|].
  pose proof (byte_Z_range first) as Hf. unfold in_u in Hf.
  destruct (Z.ltb_spec (byte_Z first) 0x80) as [Hs|Hl].
  { intros [= <- <-]. split; [lia|]. unfold der_length. rewrite (proj2 (Z.ltb_lt _ _)) by done.
    by rewrite byte_of_Z_byte_Z. }
  rewrite long_form_count by done.
  set (count := byte_Z first - 0x80). destruct (orb _ _) eqn:Hc; [done|].
  rewrite !orb_false_iff, Z.eqb_neq, !Z.ltb_ge in Hc. destruct Hc as [[Hc0 Hc4] Hcl].
  set (lb := take (Z.to_nat count) bs).
  assert (length lb = Z.to_nat count) as Hlen by (subst lb; rewrite length_take; lia).
  destruct (orb _ _) eqn:Hsh; [done|]. rewrite orb_false_iff, bool_decide_eq_false, Z.ltb_ge in Hsh.
  destruct Hsh as [Hh H80]. intros [= <- <-].
  pose proof (be_value_range lb) as Hr. unfold in_u in Hr.
  destruct lb as [|b lb'] eqn:Elb; [cbn in Hlen; lia|].
  assert (2 ^ (8 * Z.of_nat (length lb')) ≤ be_value (b :: lb')).
  { destruct (Z.lt_ge_cases (be_value (b :: lb')) (2 ^ (8 * Z.of_nat (length lb')))) as [Hlt|]; [|done].
    apply be_value_head in Hlt as ->. done. }
  split.
  { assert (2 ^ (8 * Z.of_nat (length (b :: lb'))) ≤ 2 ^ 32) by (apply Z.pow_le_mono_r; lia). lia. }
  rewrite (der_length_long (length (b :: lb'))); [|lia|done|].
  + rewrite be_bytes_be_value. cbn [app]. f_equal.
    * rewrite Hlen, Z2Nat.id by lia. subst count.
      replace (0x80 + (byte_Z first - 0x80)) with (byte_Z first) by lia. by rewrite byte_of_Z_byte_Z.
    * rewrite app_comm_cons, <- Elb. subst lb. by rewrite take_drop.
  + cbn [length Nat.sub] in *. rewrite Nat.sub_0_r. lia.
Qed.

Lemma read_length_complete what n rest :
  0 ≤ n < 2 ^ 32 → read_length what (der_length n ++ rest) = Ok (n, rest).
Proof.
  intros Hn. destruct (der_length_cases n Hn) as [[Hs ->]|(k & Hk & H80 & Hr & ->)].
  + cbn [app read_length]. rewrite byte_Z_of_Z by (unfold in_u; lia).
    by rewrite (proj2 (Z.ltb_lt _ _)).
  + cbn [app read_length]. rewrite byte_Z_of_Z by (unfold in_u; lia).
    rewrite (proj2 (Z.ltb_ge _ _)) by lia.
    assert (Z.land (0x80 + Z.of_nat k) 0x7f = Z.of_nat k) as ->
      by (destruct k as [|[|[|[|[|k]]]]]; try lia; reflexivity).
    rewrite length_app, length_be_bytes, Nat2Z.id.
    rewrite (proj2 (Z.eqb_neq _ _)), (proj2 (Z.ltb_ge 4 _)), (proj2 (Z.ltb_ge _ (Z.of_nat k))) by lia.
    cbn [orb]. rewrite take_app_length', drop_app_length' by (by rewrite length_be_bytes).
    rewrite be_value_be_bytes by (unfold in_u; lia).
    rewrite bool_decide_eq_false_2; [|].
    * by rewrite (proj2 (Z.ltb_ge n _)).
    * intros Hh. destruct (be_bytes k n) as [|b lb] eqn:E; [done|]. injection Hh as ->.
      pose proof (be_value_be_bytes k n ltac:(unfold in_u; lia)) as Hv. rewrite E in Hv.
      pose proof (proj1 (be_value_head Byte.x00 lb) eq_refl) as Hlt. rewrite Hv in Hlt.
      pose proof (length_be_bytes k n) as Hl. rewrite E in Hl. cbn in Hl.
      replace (k - 1)%nat with (length lb) in Hr by lia. lia.
Qed.

(** The reader takes a length exactly in its shortest form. *)
Lemma read_length_iff what bs n rest :
  read_length what bs = Ok (n, rest) ↔ 0 ≤ n < 2 ^ 32 ∧ bs = der_length n ++ rest.
Proof.
  split; [apply read_length_sound|]. intros [Hn ->]. by apply read_length_complete.
Qed.

Lemma next_iff what bs tag value rest :
  next what bs = Ok (tag, value, rest) ↔
  Z.land (byte_Z tag) 0x1f ≠ 0x1f ∧ small value ∧ bs = der tag value ++ rest.
Proof.
  unfold small, der. split.
  - unfold next. destruct bs as [|t bs]; [done|].
    destruct (Z.eqb_spec (Z.land (byte_Z t) 0x1f) 0x1f) as [|Ht]; [done|].
    destruct (read_length what bs) as [[n after]|] eqn:E; [|done].
    apply read_length_iff in E as [Hn ->].
    destruct (Z.ltb_spec (Z.of_nat (length after)) n); [done|]. intros [= <- <- <-].
    assert (Z.of_nat (length (take (Z.to_nat n) after)) = n) as Hl by (rewrite length_take; lia).
    rewrite Hl. split_and!; [done|lia|]. cbn [app]. by rewrite <- app_assoc, take_drop.
  - intros (Ht & Hs & ->). cbn [app next]. rewrite (proj2 (Z.eqb_neq _ _)) by done.
    rewrite <- app_assoc. rewrite (proj2 (read_length_iff what _ (Z.of_nat (length value)) (value ++ rest)))
      by (split; [lia|done]).
    rewrite (proj2 (Z.ltb_ge _ _)) by (rewrite length_app; lia).
    rewrite Nat2Z.id, take_app_length, drop_app_length. done.
Qed.

(** ** The certificates the reader takes *)

Record Attribute := {
  att_kind : bytes;
  att_tag : Byte.byte;
  att_value : bytes;
  att_rest : bytes;
}.

(** A certificate, as far as the reader looks into it: the fields it skips are
    bytes, and [tbs_rest] and [cert_rest] are the extensions and the signature. *)
Record Certificate := {
  version_field : option bytes;
  serial : bytes;
  signature_field : bytes;
  issuer : bytes;
  validity : bytes;
  subject : list (list Attribute);
  public_key : bytes;
  tbs_rest : bytes;
  cert_rest : bytes;
}.

Definition attribute_der_body (a : Attribute) : bytes :=
  der OID (att_kind a) ++ der (att_tag a) (att_value a) ++ att_rest a.
Definition attribute_der (a : Attribute) : bytes := der SEQUENCE (attribute_der_body a).
Definition rdn_body (atts : list Attribute) : bytes := concat (attribute_der <$> atts).
Definition rdn_der (atts : list Attribute) : bytes := der SET (rdn_body atts).
Definition name_body (name : list (list Attribute)) : bytes := concat (rdn_der <$> name).
Definition spki_body (key : bytes) : bytes :=
  der SEQUENCE (der OID ED25519) ++ der BIT_STRING (Byte.x00 :: key).

Definition tbs_body (c : Certificate) : bytes :=
  match version_field c with Some v => der VERSION v | None => [] end
  ++ der INTEGER (serial c) ++ der SEQUENCE (signature_field c) ++ der SEQUENCE (issuer c)
  ++ der SEQUENCE (validity c) ++ der SEQUENCE (name_body (subject c))
  ++ der SEQUENCE (spki_body (public_key c)) ++ tbs_rest c.

Definition certificate_body (c : Certificate) : bytes := der SEQUENCE (tbs_body c) ++ cert_rest c.
Definition certificate_der (c : Certificate) : bytes := der SEQUENCE (certificate_body c).

Definition single_byte_tag (t : Byte.byte) : Prop := Z.land (byte_Z t) 0x1f ≠ 0x1f.

Definition attribute_ok (a : Attribute) : Prop :=
  small (att_kind a) ∧ small (att_value a) ∧ single_byte_tag (att_tag a) ∧ small (attribute_der_body a).
Definition rdn_ok (atts : list Attribute) : Prop := Forall attribute_ok atts ∧ small (rdn_body atts).

Definition certificate_ok (c : Certificate) : Prop :=
  from_option small True (version_field c) ∧
  small (serial c) ∧ small (signature_field c) ∧ small (issuer c) ∧ small (validity c) ∧
  Forall rdn_ok (subject c) ∧ small (name_body (subject c)) ∧
  length (public_key c) = 32%nat ∧ small (tbs_body c) ∧ small (certificate_body c).

Definition common_names (name : list (list Attribute)) : list Attribute :=
  filter (λ a, att_kind a = COMMON_NAME) (concat name).

Definition readable_name (a : Attribute) : Prop :=
  (att_tag a = UTF8_STRING ∨ att_tag a = PRINTABLE_STRING) ∧ valid_utf8 (att_value a) = true.

Lemma expect_iff tag what bs value rest :
  single_byte_tag tag →
  expect tag what bs = Ok (value, rest) ↔ small value ∧ bs = der tag value ++ rest.
Proof.
  intros Ht. unfold expect. split.
  - destruct (next what bs) as [[[t v] r]|] eqn:E; [|done]. apply next_iff in E as (_ & Hs & ->).
    case_decide; [|done]. by intros [= <- <-]; subst t.
  - intros [Hs ->]. rewrite (proj2 (next_iff what _ tag value rest)) by done. by rewrite decide_True.
Qed.

Lemma next_der what tag value rest :
  single_byte_tag tag → small value → next what (der tag value ++ rest) = Ok (tag, value, rest).
Proof. intros. by apply next_iff. Qed.

Lemma expect_der what tag value rest :
  single_byte_tag tag → small value → expect tag what (der tag value ++ rest) = Ok (value, rest).
Proof. intros. by apply expect_iff. Qed.

Lemma der_nonempty tag value rest : ∃ b bs, der tag value ++ rest = b :: bs.
Proof. unfold der. cbn. eauto. Qed.

Lemma length_der tag value : (length value < length (der tag value))%nat.
Proof. unfold der. cbn. rewrite length_app. lia. Qed.

Ltac tag_ok := by (unfold single_byte_tag; vm_compute).
(** Read one field of an accepted document. *)
Ltac read_field H v r Hs :=
  match type of H with
  | match expect ?t ?w ?bs with _ => _ end = _ =>
      let E := fresh "E" in
      destruct (expect t w bs) as [[v r]|] eqn:E; [|done];
      apply expect_iff in E as [Hs E]; [|tag_ok]
  end.

(** The names found in a list of attributes, in their order. *)
Fixpoint note_all (atts : list Attribute) (found : option string) : Result (option string) string :=
  match atts with
  | [] => Ok found
  | a :: atts =>
      let? found := note_attribute (att_kind a) (att_tag a) (att_value a) found in note_all atts found
  end.

Lemma attributes_iff fuel bs found out :
  (length bs ≤ fuel)%nat →
  attributes fuel bs found = Ok out ↔
  ∃ atts, Forall attribute_ok atts ∧ bs = rdn_body atts ∧ note_all atts found = Ok out.
Proof.
  revert bs found. induction fuel as [|f IH]; intros bs found Hf.
  - destruct bs; [|cbn in Hf; lia]. cbn. split; [intros H; by exists []|].
    intros ([|a atts] & _ & E & H); [done|]. unfold rdn_body, attribute_der in E. done.
  - destruct bs as [|b bs].
    { cbn. split; [intros H; by exists []|]. intros ([|a atts] & _ & E & H); done. }
    cbn [attributes]. split.
    + intros H. read_field H body rest Hb. read_field H kind arest Hk.
      destruct (next _ arest) as [[[tag value] after]|] eqn:En; [|done].
      apply next_iff in En as (Htag & Hv & ->). subst body.
      destruct (note_attribute kind tag value found) as [found'|] eqn:Enote; [|done].
      assert (length rest ≤ f)%nat as Hr.
      { pose proof (f_equal length E) as Hl. rewrite length_app in Hl.
        unfold der in Hl. cbn in Hl, Hf. lia. }
      apply (IH rest found' Hr) in H as (atts & Hatts & -> & Hnote).
      exists ({| att_kind := kind; att_tag := tag; att_value := value; att_rest := after |} :: atts).
      split_and!; [constructor; done|done|]. cbn. by rewrite Enote.
    + intros ([|a atts] & Hatts & E & Hnote); [done|].
      apply Forall_cons in Hatts as [(Hk & Hv & Ht & Hb) Hatts].
      change (rdn_body (a :: atts)) with (attribute_der a ++ rdn_body atts) in E. rewrite E.
      unfold attribute_der. rewrite expect_der; [|tag_ok|done]. unfold attribute_der_body.
      rewrite expect_der; [|tag_ok|done]. rewrite next_der by done. cbn [note_all] in Hnote.
      destruct (note_attribute _ _ _ found) as [found'|] eqn:Enote; [|done].
      apply IH; [|by exists atts].
      pose proof (f_equal length E) as Hl. rewrite length_app in Hl. unfold attribute_der, der in Hl.
      cbn in Hl, Hf. lia.
Qed.

Lemma note_all_app a1 a2 found :
  note_all (a1 ++ a2) found = (let? found := note_all a1 found in note_all a2 found).
Proof.
  revert found. induction a1 as [|a a1 IH]; intros found; [done|]. cbn [app note_all].
  destruct (note_attribute _ _ _ found); [apply IH|done].
Qed.

Lemma rdns_iff fuel bs found out :
  (length bs ≤ fuel)%nat →
  rdns fuel bs found = Ok out ↔
  ∃ name, Forall rdn_ok name ∧ bs = name_body name ∧ note_all (concat name) found = Ok out.
Proof.
  revert bs found. induction fuel as [|f IH]; intros bs found Hf.
  - destruct bs; [|cbn in Hf; lia]. cbn. split; [intros H; by exists []|].
    intros ([|a atts] & _ & E & H); done.
  - destruct bs as [|b bs].
    { cbn. split; [intros H; by exists []|]. intros ([|a atts] & _ & E & H); done. }
    cbn [rdns]. split.
    + intros H. read_field H body rest Hb.
      destruct (attributes (length body) body found) as [found'|] eqn:Ea; [|done].
      apply attributes_iff in Ea as (atts & Hatts & -> & Hn); [|done].
      assert (length rest ≤ f)%nat as Hr.
      { pose proof (f_equal length E) as Hl. rewrite length_app in Hl.
        unfold der in Hl. cbn in Hl, Hf. lia. }
      apply (IH rest found' Hr) in H as (name & Hname & -> & Hnote).
      exists (atts :: name). split_and!; [by constructor|done|].
      cbn [concat]. by rewrite note_all_app, Hn.
    + intros ([|atts name] & Hname & E & Hnote); [done|].
      apply Forall_cons in Hname as [[Hatts Hb] Hname].
      change (name_body (atts :: name)) with (rdn_der atts ++ name_body name) in E. rewrite E.
      unfold rdn_der. rewrite expect_der; [|tag_ok|done].
      cbn [concat] in Hnote. rewrite note_all_app in Hnote.
      destruct (note_all atts found) as [found'|] eqn:En; [|done].
      rewrite (proj2 (attributes_iff (length (rdn_body atts)) (rdn_body atts) found found' (le_n _)))
        by by exists atts.
      apply IH; [|by exists name].
      pose proof (f_equal length E) as Hl. rewrite length_app in Hl. unfold rdn_der, der in Hl.
      cbn in Hl, Hf. lia.
Qed.

Lemma note_attribute_cn a found :
  att_kind a = COMMON_NAME →
  (readable_name a ∧
   note_attribute (att_kind a) (att_tag a) (att_value a) found =
   match found with
   | Some _ => Err "more than one common name"
   | None => Ok (Some (text_of_bytes (att_value a)))
   end) ∨
  (~ readable_name a ∧ ∃ e, note_attribute (att_kind a) (att_tag a) (att_value a) found = Err e).
Proof.
  intros Hk. unfold note_attribute, readable_name. rewrite decide_True by done.
  destruct (bool_decide_reflect (att_tag a = UTF8_STRING)) as [Hu|Hu];
    destruct (bool_decide_reflect (att_tag a = PRINTABLE_STRING)) as [Hp|Hp]; cbn [negb andb];
    destruct (valid_utf8 (att_value a)) eqn:Ev;
    first [left; split; [by (split; [tauto|]) | done] | right; split; [naive_solver | eauto]].
Qed.

(** A second common name is refused. *)
Lemma note_all_found atts s out :
  note_all atts (Some s) = Ok out ↔
  filter (λ a, att_kind a = COMMON_NAME) atts = [] ∧ out = Some s.
Proof.
  induction atts as [|a atts IH]; [naive_solver|]. cbn [note_all].
  rewrite filter_cons. destruct (decide (att_kind a = COMMON_NAME)) as [Hk|Hk].
  - destruct (note_attribute_cn a (Some s) Hk) as [[_ ->]|[_ [e ->]]]; naive_solver.
  - unfold note_attribute. by rewrite decide_False.
Qed.

Lemma note_all_unfound atts t :
  note_all atts None = Ok (Some t) ↔
  ∃ a, filter (λ a, att_kind a = COMMON_NAME) atts = [a] ∧ readable_name a ∧
       t = text_of_bytes (att_value a).
Proof.
  induction atts as [|a atts IH]; [naive_solver|]. cbn [note_all].
  rewrite filter_cons. destruct (decide (att_kind a = COMMON_NAME)) as [Hk|Hk].
  - destruct (note_attribute_cn a None Hk) as [[Hr ->]|[Hr [e ->]]].
    + rewrite note_all_found. split.
      * intros [-> [= ->]]. by exists a.
      * intros (a' & [= <- Hf] & _ & ->). done.
    + split; [done|]. intros (a' & [= <- _] & Hr' & _). done.
  - unfold note_attribute. by rewrite decide_False.
Qed.

Lemma common_name_iff bs t :
  common_name bs = Ok t ↔
  ∃ name a, Forall rdn_ok name ∧ bs = name_body name ∧ common_names name = [a] ∧
            readable_name a ∧ t = text_of_bytes (att_value a).
Proof.
  unfold common_name, common_names. split.
  - destruct (rdns _ bs None) as [[s|]|] eqn:E; [|done|done]. intros [= ->].
    apply rdns_iff in E as (name & Hn & -> & Hnote); [|done].
    apply note_all_unfound in Hnote as (a & Ha & Hr & ->). by exists name, a.
  - intros (name & a & Hn & -> & Hc & Hr & ->).
    rewrite (proj2 (rdns_iff _ (name_body name) None (Some (text_of_bytes (att_value a))) (le_n _))); [done|].
    exists name. split_and!; [done|done|]. apply note_all_unfound. eauto.
Qed.

Lemma ed25519_key_iff bs key :
  ed25519_key bs = Ok key ↔ length key = 32%nat ∧ bs = spki_body key.
Proof.
  split.
  - unfold ed25519_key. intros H. read_field H alg rest Ha. read_field H oid arest Ho.
    destruct (bool_decide_reflect (oid = ED25519)) as [->|]; [|done].
    destruct (bool_decide_reflect (arest = [])) as [->|]; [|done]. cbn [negb orb] in H.
    read_field H bits after Hb.
    destruct (bool_decide_reflect (after = [])) as [->|]; [|done]. cbn [negb] in H.
    destruct bits as [|b bits]; [done|]. destruct b; try done. case_decide; [|done].
    injection H as <-. split; [done|]. subst. unfold spki_body. by rewrite !app_nil_r.
  - intros [Hl ->]. unfold ed25519_key, spki_body.
    rewrite expect_der; [|tag_ok|by vm_compute].
    rewrite <- (app_nil_r (der OID ED25519)), expect_der; [|tag_ok|by vm_compute].
    rewrite !bool_decide_eq_true_2 by done. cbn [negb orb].
    rewrite <- (app_nil_r (der BIT_STRING _)), expect_der; [|tag_ok|unfold small; cbn [length]; lia].
    rewrite bool_decide_eq_true_2 by done. cbn [negb]. by rewrite decide_True.
Qed.

Lemma certificate_read bs id :
  certificate_identity_der bs = Ok id →
  ∃ c a, certificate_ok c ∧ bs = certificate_der c ∧
         common_names (subject c) = [a] ∧ readable_name a ∧
         id = {| ed25519_public_key := public_key c;
                 common_name_text := text_of_bytes (att_value a) |}.
Proof.
  unfold certificate_identity_der. intros H.
  read_field H cert outer Hc.
  destruct (bool_decide_reflect (outer = [])) as [->|]; [|done]. cbn [negb] in H.
  read_field H tbs crest Ht. subst.
  match type of H with match ?m with _ => _ end = _ => set (vres := m) in H end.
  assert (∃ v rest, from_option small True v ∧ vres = Ok rest ∧
          tbs = match v with Some v => der VERSION v | None => [] end ++ rest) as (v & rest & Hv & Ev & ->).
  { destruct vres as [rest|] eqn:Ev; [|done]. subst vres. case_decide.
    - destruct (next _ tbs) as [[[vt vv] vr]|] eqn:En; [|done]. injection Ev as ->.
      apply next_iff in En as (_ & Hs & ->). exists (Some vv), rest. split_and!; [done|done|].
      match goal with Hp : peek _ = _ |- _ => cbn in Hp; by injection Hp as -> end.
    - injection Ev as ->. by exists None, rest. }
  clearbody vres. subst vres. cbv beta iota in H.
  read_field H ser r1 H1. read_field H sgn r2 H2. read_field H iss r3 H3.
  read_field H val r4 H4. read_field H subj r5 H5. read_field H spki r6 H6.
  destruct (common_name subj) as [cn|] eqn:Ecn; [|done].
  destruct (ed25519_key spki) as [key|] eqn:Ekey; [|done]. injection H as <-.
  apply common_name_iff in Ecn as (name & a & Hn & -> & Hcn & Hr & ->).
  apply ed25519_key_iff in Ekey as [Hl ->]. subst.
  exists {| version_field := v; serial := ser; signature_field := sgn; issuer := iss;
            validity := val; subject := name; public_key := key; tbs_rest := r6;
            cert_rest := crest |}, a.
  split_and!; [|by rewrite app_nil_r|done|done|done].
  by unfold certificate_ok.
Qed.

Lemma certificate_written bs id :
  (∃ c a, certificate_ok c ∧ bs = certificate_der c ∧
         common_names (subject c) = [a] ∧ readable_name a ∧
         id = {| ed25519_public_key := public_key c;
                 common_name_text := text_of_bytes (att_value a) |}) →
  certificate_identity_der bs = Ok id.
Proof.
  intros (c & a & (Hv & H1 & H2 & H3 & H4 & Hn & H5 & Hl & H6 & H7) & -> & Hcn & Hr & ->).
  unfold certificate_identity_der, certificate_der.
  rewrite <- (app_nil_r (der SEQUENCE (certificate_body c))), expect_der; [|tag_ok|done].
  rewrite bool_decide_eq_true_2 by done. cbn [negb]. unfold certificate_body at 1.
  rewrite expect_der; [|tag_ok|done]. cbv beta iota.
  match goal with |- match ?m with _ => _ end = _ =>
    assert (m = Ok (drop (length (match version_field c with Some v => der VERSION v | None => [] end))
                         (tbs_body c))) as ->
  end.
  { unfold tbs_body. destruct (version_field c) as [v|]; [|done].
    rewrite drop_app_length. rewrite decide_True by done. by rewrite next_der; [|tag_ok|]. }
  unfold tbs_body. rewrite drop_app_length.
  do 5 (rewrite expect_der; [|tag_ok|done]).
  rewrite expect_der; [|tag_ok|].
  2: { unfold small, spki_body, der. rewrite !length_app. cbn [length]. rewrite !length_app. cbn [length].
       rewrite Hl. by vm_compute. }
  rewrite (proj2 (common_name_iff (name_body (subject c)) (text_of_bytes (att_value a)))) by eauto 10.
  by rewrite (proj2 (ed25519_key_iff (spki_body (public_key c)) (public_key c))).
Qed.

(** C31 The certificate reader accepts exactly the well-formed documents. It
    returns an identity when, and only when, the bytes are the DER encoding (every
    length in its shortest form of at most four bytes, nothing after the outer
    sequence) of a certificate whose subject has exactly one common name, a
    UTF8String or PrintableString of valid UTF-8, and whose key is an Ed25519 key of
    32 bytes; the identity is then that name and that key. *)
Theorem certificate_identity_exact bs id :
  certificate_identity_der bs = Ok id ↔
  ∃ c a, certificate_ok c ∧ bs = certificate_der c ∧
         common_names (subject c) = [a] ∧ readable_name a ∧
         id = {| ed25519_public_key := public_key c;
                 common_name_text := text_of_bytes (att_value a) |}.
Proof. split; [apply certificate_read|apply certificate_written]. Qed.
