(* ===== verification/Wide.v ===== *)
(** * Wide strings ([custody.rs], [logon/subscription.rs], [service/windows.rs], [paths.rs])

    Windows takes and gives texts as UTF-16: the encodings the standard library's
    conversions define, the NUL-terminated texts the agent passes and reads, and what it
    reads with them: the host's name, the program-data folder, the service's arguments and
    the drives' devices. A unit is a 16-bit integer, a character its scalar value, a
    text its UTF-8 bytes. *)

From S2P Require Import Prelude IpAddr Network Paths X509.
Open Scope Z_scope.

(** ** Characters *)

Definition is_surrogate (u : Z) : bool := (0xd800 <=? u) && (u <=? 0xdfff).
Definition is_scalar (c : Z) : bool := (0 <=? c) && (c <=? 0x10ffff) && negb (is_surrogate c).

(** [char::encode_utf8]. *)
Definition utf8_char (c : Z) : list Z :=
  if c <? 0x80 then [c]
  else if c <? 0x800 then [0xc0 + c / 64; 0x80 + c mod 64]
  else if c <? 0x10000 then [0xe0 + c / 4096; 0x80 + c / 64 mod 64; 0x80 + c mod 64]
  else [0xf0 + c / 262144; 0x80 + c / 4096 mod 64; 0x80 + c / 64 mod 64; 0x80 + c mod 64].

Definition utf8 (cs : list Z) : bytes := byte_of_Z <$> mjoin (utf8_char <$> cs).

(** The characters of a text's bytes. *)
Fixpoint chars (bs : bytes) : list Z :=
  match bs with
  | [] => []
  | a :: r1 =>
      if in_range 0x00 0x7f a then byte_Z a :: chars r1
      else match r1 with
      | [] => []
      | b :: r2 =>
          if in_range 0xc2 0xdf a then ((byte_Z a - 0xc0) * 64 + (byte_Z b - 0x80)) :: chars r2
          else match r2 with
          | [] => []
          | c :: r3 =>
              if in_range 0xe0 0xef a then
                ((byte_Z a - 0xe0) * 4096 + (byte_Z b - 0x80) * 64 + (byte_Z c - 0x80)) :: chars r3
              else match r3 with
              | [] => []
              | d :: r4 =>
                  ((byte_Z a - 0xf0) * 262144 + (byte_Z b - 0x80) * 4096 + (byte_Z c - 0x80) * 64 + (byte_Z d - 0x80))
                    :: chars r4
              end
          end
      end
  end.

Definition text_chars (s : string) : list Z := chars (String.list_byte_of_string s).
Definition chars_text (cs : list Z) : string := String.string_of_list_byte (utf8 cs).

(** ** UTF-16 *)

(** [encode_utf16]. *)
Definition utf16_char (c : Z) : list Z :=
  if c <? 0x10000 then [c]
  else [0xd800 + (c - 0x10000) / 1024; 0xdc00 + (c - 0x10000) mod 1024].

Definition encode_utf16 (s : string) : list Z := mjoin (utf16_char <$> text_chars s).

(** [char::decode_utf16]: a character, or an unpaired surrogate; the unit after one that
    should have been its pair is read again. *)
Fixpoint decode_utf16 (us : list Z) : list (Result Z Z) :=
  match us with
  | [] => []
  | u :: rest =>
      if negb (is_surrogate u) then Ok u :: decode_utf16 rest
      else if 0xdc00 <=? u then Err u :: decode_utf16 rest
      else match rest with
      | [] => [Err u]
      | u2 :: rest2 =>
          if (0xdc00 <=? u2) && (u2 <=? 0xdfff)
          then Ok ((u - 0xd800) * 1024 + (u2 - 0xdc00) + 0x10000) :: decode_utf16 rest2
          else Err u :: decode_utf16 rest
      end
  end.

Definition REPLACEMENT_CHARACTER : Z := 0xfffd.

Definition from_utf16_lossy (us : list Z) : string :=
  chars_text ((λ r, match r with Ok c => c | Err _ => REPLACEMENT_CHARACTER end) <$> decode_utf16 us).

Definition from_utf16 (us : list Z) : option string :=
  chars_text <$> mapM (M := option) (λ r, match r with Ok c => Some c | Err _ => None end) (decode_utf16 us).

(** ** NUL-terminated texts *)

Definition wide (text : string) : list Z := encode_utf16 text ++ [0].

(** The units before the first NUL. *)
Fixpoint up_to_nul (us : list Z) : list Z :=
  match us with
  | [] => []
  | u :: us => if u =? 0 then [] else u :: up_to_nul us
  end.

(** A pointer is null or leads to the units from it on. *)
Definition wide_to_string (ptr : option (list Z)) : option string :=
  us ← ptr; Some (from_utf16_lossy (up_to_nul us)).

Definition wide_argument (argument : option (list Z)) : string :=
  match argument with None => "" | Some us => from_utf16_lossy (up_to_nul us) end.

(** [service_main]'s arguments: the service's name first, as it is registered under, then the
    start arguments. *)
Definition service_name (argv : list (option (list Z))) : list Z :=
  match argv with Some first :: _ => up_to_nul first ++ [0] | _ => [0] end.

Definition start_arguments (argv : list (option (list Z))) : list string := wide_argument <$> tail argv.

Definition EVENT_SOURCE : string := "CyberGuardAgent".

(** [EventLog::open]: the source's handle, none if it cannot be opened. *)
Definition event_log_open (register_event_source : list Z → option Z) : option Z :=
  register_event_source (wide EVENT_SOURCE).

(** ** What is read with them *)

(** [{hr:#010x}] of an [i32]. *)
Definition hresult_text (hr : Z) : string := "0x" +:+ hex_padded 8 (wrap_u 32 hr).

(** [program_data]: the folder's path as Windows gives it, in its own units. *)
Definition program_data (hr : Z) (raw : option (list Z)) : Result (list Z) string :=
  match raw with
  | Some us => if hr <? 0 then Err ("resolve %ProgramData%: HRESULT " +:+ hresult_text hr) else Ok (up_to_nul us)
  | None => Err ("resolve %ProgramData%: HRESULT " +:+ hresult_text hr)
  end.

Definition ERROR_MORE_DATA : Z := 234.

(** [hostname]: the error of the size query, and the second call's error or the units it
    wrote. *)
Definition hostname (query_error : Z) (read : Result (list Z) Z) : Result string string :=
  if query_error =? ERROR_MORE_DATA then
    match read with
    | Err error => Err ("read the host name: Win32 error " +:+ dec error)
    | Ok us => ok_or (from_utf16 us) "the host name is not valid Unicode"
    end
  else Err ("read the host name: Win32 error " +:+ dec query_error).

Definition LETTERS : list string :=
  (λ i, String (Ascii.ascii_of_nat (65 + i)) "") <$> seq 0 26.

(** [DevicePathMap::from_system]: [query] is [QueryDosDeviceW] of a drive's wide name, the
    buffer it filled. *)
Definition drive_pair (query : list Z → option (list Z)) (letter : string) : option (string * string) :=
  let drive := letter +:+ ":" in
  match query (wide drive) with
  | None => None
  | Some buffer =>
      let target := from_utf16_lossy (up_to_nul buffer) in
      if starts_with "\Device\" target then Some (target, drive) else None
  end.

Definition from_system (query : list Z → option (list Z)) : DevicePathMap := from_pairs (omap (drive_pair query) LETTERS).

Example wide_sample : encode_utf16 (chars_text [0x41; 0xe9; 0x20ac; 0x1f600]) = [0x41; 0xe9; 0x20ac; 0xd83d; 0xde00].
Proof. by vm_compute. Qed.
Example lossy_sample : text_chars (from_utf16_lossy [0xd83d; 0x41; 0xde00]) = [0xfffd; 0x41; 0xfffd].
Proof. by vm_compute. Qed.

(** ** The encodings are inverse *)

#[local] Ltac Zify.zify_post_hook ::= Z.div_mod_to_equations.

Lemma in_range_spec lo hi b : in_range lo hi b = true ↔ lo ≤ byte_Z b ≤ hi.
Proof. unfold in_range. rewrite andb_true_iff, !Z.leb_le. lia. Qed.

Lemma in_range_false lo hi b : in_range lo hi b = false ↔ ¬ (lo ≤ byte_Z b ≤ hi).
Proof. rewrite <- in_range_spec. by destruct (in_range lo hi b). Qed.

Lemma is_scalar_spec c : is_scalar c = true ↔ 0 ≤ c ≤ 0x10ffff ∧ ¬ (0xd800 ≤ c ≤ 0xdfff).
Proof. unfold is_scalar, is_surrogate. rewrite !andb_true_iff, negb_true_iff, andb_false_iff, !Z.leb_le, !Z.leb_gt. lia. Qed.

Lemma is_surrogate_spec u : is_surrogate u = true ↔ 0xd800 ≤ u ≤ 0xdfff.
Proof. unfold is_surrogate. rewrite andb_true_iff, !Z.leb_le. done. Qed.

Lemma is_surrogate_false u : is_surrogate u = false ↔ ¬ (0xd800 ≤ u ≤ 0xdfff).
Proof. rewrite <- is_surrogate_spec. by destruct (is_surrogate u). Qed.

(** Turns the tests on bytes and units in the context into inequalities. *)
Ltac byte_ranges :=
  repeat match goal with
  | H : in_range _ _ _ = true |- _ => apply in_range_spec in H
  | H : in_range _ _ _ = false |- _ => apply in_range_false in H
  | H : _ && _ = true |- _ => apply andb_true_iff in H as [? ?]
  end.

Lemma byte_of_Z_range b x : byte_Z b = x → byte_of_Z x = b.
Proof. intros <-. apply byte_of_byte_Z. Qed.

(** The number of bytes of a character, by its size. *)
Ltac utf8_char :=
  unfold utf8_char; repeat match goal with
  | |- context [?x <? ?y] => destruct (Z.ltb_spec x y); try lia
  end.

(** Reads the first character of a valid text. *)
Lemma chars_step a bs : valid_utf8 (a :: bs) = true →
  ∃ c r, chars (a :: bs) = c :: chars r ∧ is_scalar c = true ∧ a :: bs = (byte_of_Z <$> utf8_char c) ++ r ∧
         valid_utf8 r = true ∧ (length r < length (a :: bs))%nat.
Proof.
  pose proof (byte_Z_range a) as Ha. unfold in_u in Ha. cbn [valid_utf8 chars].
  destruct (in_range 0 0x7f a) eqn:E1.
  { intros H. byte_ranges. exists (byte_Z a), bs. split; [done|]. split; [apply is_scalar_spec; lia|].
    split; [|split; [done|cbn; lia]]. utf8_char. cbn. by rewrite byte_of_byte_Z. }
  destruct bs as [|b r2]; [done|]. destruct (in_range 0xc2 0xdf a) eqn:E2.
  { intros H. byte_ranges. eexists _, r2. split; [done|]. split; [apply is_scalar_spec; lia|].
    split; [|split; [done|cbn; lia]]. utf8_char. cbn.
    rewrite (byte_of_Z_range a), (byte_of_Z_range b) by lia. done. }
  destruct r2 as [|c r3]; [done|]. destruct (in_range 0xe0 0xef a) eqn:E3.
  { intros H. eexists _, r3. split; [done|].
    destruct (in_range 0xe0 0xe0 a) eqn:?, (in_range 0xed 0xed a) eqn:?; byte_ranges; try lia.
    all: (split; [apply is_scalar_spec; lia|]); split; [|split; [done|cbn; lia]]; utf8_char; cbn;
      rewrite (byte_of_Z_range a), (byte_of_Z_range b), (byte_of_Z_range c) by lia; done. }
  destruct r3 as [|d r4]; [done|]. intros H. eexists _, r4. split; [done|].
  destruct (in_range 0xf0 0xf0 a) eqn:?, (in_range 0xf4 0xf4 a) eqn:?; byte_ranges; try lia.
  all: (split; [apply is_scalar_spec; lia|]); split; [|split; [done|cbn; lia]]; utf8_char; cbn;
    rewrite (byte_of_Z_range a), (byte_of_Z_range b), (byte_of_Z_range c), (byte_of_Z_range d) by lia; done.
Qed.

Lemma utf8_cons c cs : utf8 (c :: cs) = (byte_of_Z <$> utf8_char c) ++ utf8 cs.
Proof. apply fmap_app. Qed.

Lemma utf16_cons c cs : mjoin (utf16_char <$> c :: cs) = utf16_char c ++ mjoin (utf16_char <$> cs).
Proof. done. Qed.

Lemma chars_utf8 bs : valid_utf8 bs = true → utf8 (chars bs) = bs ∧ Forall (λ c, is_scalar c = true) (chars bs).
Proof.
  remember (length bs) as n eqn:En. revert bs En. induction n as [n IH] using lt_wf_ind. intros [|a bs] -> Hv; [done|].
  destruct (chars_step a bs Hv) as (c & r & Hc & Hs & Hb & Hr & Hl). destruct (IH _ Hl r eq_refl Hr) as [I1 I2].
  rewrite Hc. split; [|by constructor]. by rewrite utf8_cons, I1, <- Hb.
Qed.

(** A character's bytes are read as it. *)
Lemma utf8_char_chars c r : is_scalar c = true →
  chars ((byte_of_Z <$> utf8_char c) ++ r) = c :: chars r ∧
  valid_utf8 ((byte_of_Z <$> utf8_char c) ++ r) = valid_utf8 r.
Proof.
  intros Hs%is_scalar_spec.
  assert (∀ x, 0 ≤ x < 256 → byte_Z (byte_of_Z x) = x) as Hb by (intros x Hx; apply byte_Z_of_Z; unfold in_u; lia).
  assert (∀ lo hi x, 0 ≤ x < 256 → lo ≤ x ≤ hi → in_range lo hi (byte_of_Z x) = true) as Hin.
  { intros lo hi x Hx Hr. apply in_range_spec. by rewrite Hb. }
  assert (∀ lo hi x, 0 ≤ x < 256 → ¬ (lo ≤ x ≤ hi) → in_range lo hi (byte_of_Z x) = false) as Hout.
  { intros lo hi x Hx Hr. apply in_range_false. by rewrite Hb. }
  utf8_char; cbn [fmap list_fmap app chars valid_utf8].
  - rewrite Hin, Hb by lia. done.
  - rewrite Hout, Hin, Hin, !Hb by lia. split; [f_equal; lia|done].
  - rewrite (Hout 0), (Hout 0xc2), (Hin 0xe0 0xef), (Hin 0x80 0xbf (0x80 + c mod 64)), !Hb by lia.
    split; [f_equal; lia|].
    destruct (in_range 0xe0 0xe0 _) eqn:E1; [|destruct (in_range 0xed 0xed _) eqn:E2]; byte_ranges; rewrite Hb in * by lia;
      rewrite Hin by lia; done.
  - rewrite (Hout 0), (Hout 0xc2), (Hout 0xe0 0xef), (Hin 0xf0 0xf4), (Hin 0x80 0xbf (0x80 + c mod 64)),
      (Hin 0x80 0xbf (0x80 + c / 64 mod 64)), !Hb by lia.
    split; [f_equal; lia|].
    destruct (in_range 0xf0 0xf0 _) eqn:E1; [|destruct (in_range 0xf4 0xf4 _) eqn:E2]; byte_ranges; rewrite Hb in * by lia;
      rewrite Hin by lia; done.
Qed.

Lemma utf8_chars cs : Forall (λ c, is_scalar c = true) cs → chars (utf8 cs) = cs ∧ valid_utf8 (utf8 cs) = true.
Proof.
  induction 1 as [|c cs Hc _ [I1 I2]]; [done|]. rewrite utf8_cons.
  destruct (utf8_char_chars c (utf8 cs) Hc) as [-> ->]. by rewrite I1.
Qed.

Lemma decode_utf16_char c us : is_scalar c = true → decode_utf16 (utf16_char c ++ us) = Ok c :: decode_utf16 us.
Proof.
  intros Hs%is_scalar_spec. unfold utf16_char. destruct (Z.ltb_spec c 0x10000); cbn [app decode_utf16].
  - rewrite (proj2 (is_surrogate_false c)) by lia. done.
  - rewrite (proj2 (is_surrogate_spec _)) by lia. cbn [negb].
    destruct (Z.leb_spec 0xdc00 (0xd800 + (c - 0x10000) / 1024)); [lia|].
    rewrite (proj2 (Z.leb_le _ _)), (proj2 (Z.leb_le _ _)) by lia. cbn [andb]. repeat f_equal. lia.
Qed.

Lemma decode_encode cs :
  Forall (λ c, is_scalar c = true) cs → decode_utf16 (mjoin (utf16_char <$> cs)) = Ok <$> cs.
Proof.
  induction 1 as [|c cs Hc _ IH]; [done|]. by rewrite utf16_cons, decode_utf16_char, IH.
Qed.

(** A decoding without an unpaired surrogate comes from its characters. *)
Lemma encode_decode us cs : Forall (in_u 16) us → decode_utf16 us = Ok <$> cs →
  mjoin (utf16_char <$> cs) = us ∧ Forall (λ c, is_scalar c = true) cs.
Proof.
  remember (length us) as n eqn:En. revert us cs En. induction n as [n IH] using lt_wf_ind.
  intros [|u us] cs -> Hu H; [by destruct cs|]. inversion Hu as [|? ? Hu1 Hus]; subst. unfold in_u in Hu1.
  cbn [decode_utf16] in H. destruct (is_surrogate u) eqn:Es; cbn [negb] in H.
  - apply is_surrogate_spec in Es. destruct (Z.leb_spec 0xdc00 u); [by destruct cs|].
    destruct us as [|u2 us]; [by destruct cs|]. inversion Hus as [|? ? Hu2 Hus2]; subst.
    destruct ((0xdc00 <=? u2) && (u2 <=? 0xdfff)) eqn:E2; [|by destruct cs].
    apply andb_true_iff in E2 as [?%Z.leb_le ?%Z.leb_le].
    destruct cs as [|c cs]; [done|]. cbn in H. injection H as Hc Hr.
    destruct (IH (length us) ltac:(cbn; lia) us cs eq_refl Hus2 Hr) as [I1 I2].
    assert (is_scalar c = true) as Hs by (apply is_scalar_spec; lia). split; [|by constructor].
    rewrite utf16_cons, I1. unfold utf16_char. destruct (Z.ltb_spec c 0x10000); [lia|].
    cbn. f_equal; [lia|]. f_equal; lia.
  - apply is_surrogate_false in Es. destruct cs as [|c cs]; [done|]. cbn in H. injection H as <- Hr.
    destruct (IH (length us) ltac:(cbn; lia) us cs eq_refl Hus Hr) as [I1 I2].
    assert (is_scalar u = true) as Hs by (apply is_scalar_spec; lia). split; [|by constructor].
    rewrite utf16_cons, I1. unfold utf16_char. destruct (Z.ltb_spec u 0x10000); [done|lia].
Qed.

Lemma mapM_ok (rs : list (Result Z Z)) cs :
  mapM (M := option) (λ r, match r with Ok c => Some c | Err _ => None end) rs = Some cs ↔ rs = Ok <$> cs.
Proof.
  rewrite mapM_Some. split.
  - induction 1 as [|r c rs cs Hr _ IH]; [done|]. destruct r; [|done]. cbn. by simplify_eq.
  - intros ->. induction cs as [|c cs IH]; cbn; constructor; done.
Qed.

Lemma list_byte_string s : String.string_of_list_byte (String.list_byte_of_string s) = s.
Proof. apply String.string_of_list_byte_of_string. Qed.

Lemma text_scalars s : valid_utf8 (String.list_byte_of_string s) = true →
  chars_text (text_chars s) = s ∧ Forall (λ c, is_scalar c = true) (text_chars s).
Proof.
  intros Hv. destruct (chars_utf8 _ Hv) as [H1 H2]. split; [|done]. unfold chars_text, text_chars. rewrite H1.
  apply list_byte_string.
Qed.

Lemma lossy_exact us s : from_utf16 us = Some s → from_utf16_lossy us = s.
Proof.
  unfold from_utf16, from_utf16_lossy. intros (cs & H%mapM_ok & ->)%fmap_Some. f_equal. rewrite H, <- list_fmap_compose.
  by apply list_fmap_id.
Qed.

Lemma from_utf16_encode s : valid_utf8 (String.list_byte_of_string s) = true → from_utf16 (encode_utf16 s) = Some s.
Proof.
  intros Hv. destruct (text_scalars s Hv) as [H1 H2]. unfold from_utf16, encode_utf16. rewrite decode_encode by done.
  apply fmap_Some. exists (text_chars s). split; [by apply mapM_ok|done].
Qed.

Lemma up_to_nul_units us rest : 0 ∉ us → up_to_nul (us ++ 0 :: rest) = us.
Proof.
  induction us as [|u us IH]; [done|]. intros [Hu Hn]%not_elem_of_cons. cbn.
  destruct (Z.eqb_spec u 0); [lia|]. by rewrite IH.
Qed.

Lemma encode_no_nul s : valid_utf8 (String.list_byte_of_string s) = true → 0 ∉ text_chars s → 0 ∉ encode_utf16 s.
Proof.
  intros Hv Hn. destruct (text_scalars s Hv) as [_ Hs]. unfold encode_utf16.
  induction Hs as [|c cs Hc _ IH]; [by apply not_elem_of_nil|]. apply not_elem_of_cons in Hn as [Hc0 Hn].
  rewrite utf16_cons. apply is_scalar_spec in Hc. rewrite not_elem_of_app. split; [|by apply IH]. unfold utf16_char.
  destruct (Z.ltb_spec c 0x10000); rewrite !not_elem_of_cons; (split; [lia|]); rewrite ?not_elem_of_cons;
    repeat split; lia || apply not_elem_of_nil.
Qed.

(** A text Windows can hand back: valid, and without a NUL. *)
Definition wide_text (s : string) : Prop := valid_utf8 (String.list_byte_of_string s) = true ∧ 0 ∉ text_chars s.

#[export] Instance wide_text_dec s : Decision (wide_text s) := _.

Lemma wide_read_back s rest : wide_text s → from_utf16_lossy (up_to_nul (wide s ++ rest)) = s.
Proof.
  intros [Hv Hn]. unfold wide. rewrite <- app_assoc. cbn [app].
  rewrite up_to_nul_units by (by apply encode_no_nul). apply lossy_exact. by apply from_utf16_encode.
Qed.

(** The start arguments a service was given are the ones it reads. *)
Lemma start_arguments_read name args :
  Forall wide_text args → start_arguments (name :: ((λ s, Some (wide s)) <$> args)) = args.
Proof.
  intros H. unfold start_arguments. cbn [tail]. induction H as [|s args Hs _ IH]; [done|]. cbn [fmap list_fmap].
  rewrite IH. f_equal. cbn. rewrite <- (app_nil_r (wide s)). by apply wide_read_back.
Qed.

(** Texts cross to Windows and back unchanged: the strict reading of UTF-16 units accepts
    exactly the encodings of texts, each as its text; the lossy one agrees with it there,
    and gives a text for any units; and a text without a NUL, passed as a
    NUL-terminated wide string, is read back as itself wherever it lies, the service's
    arguments and the values of a logon record included. *)
Theorem wide_texts_roundtrip (s : string) (us rest : list Z) :
  Forall (in_u 16) us →
  (from_utf16 us = Some s ↔ valid_utf8 (String.list_byte_of_string s) = true ∧ encode_utf16 s = us) ∧
  (from_utf16 us = Some s → from_utf16_lossy us = s) ∧
  (wide_text s → wide_to_string (Some (wide s ++ rest)) = Some s ∧ wide_argument (Some (wide s ++ rest)) = s).
Proof.
  intros Hu. split; [|split; [apply lossy_exact|]].
  - split; [|intros [Hv <-]; by apply from_utf16_encode].
    unfold from_utf16. intros (cs & H%mapM_ok & ->)%fmap_Some. destruct (encode_decode us cs Hu H) as [He Hs].
    destruct (utf8_chars cs Hs) as [H1 H2]. unfold encode_utf16, text_chars, chars_text.
    rewrite String.list_byte_of_string_of_list_byte, H1. done.
  - intros Hs. cbn [wide_to_string wide_argument mbind option_bind]. by rewrite wide_read_back.
Qed.

Lemma wide_texts_roundtrip_witness :
  let s := chars_text [0x43; 0xe9; 0x1f600] in
  from_utf16 [0x43; 0xe9; 0xd83d; 0xde00] = Some s ∧ wide_to_string (Some (wide s ++ [7])) = Some s.
Proof.
  intros s. destruct (wide_texts_roundtrip s [0x43; 0xe9; 0xd83d; 0xde00] [7]
    ltac:(repeat constructor; by vm_compute)) as (H1 & _ & H3).
  split; [apply H1; by vm_compute|].
  apply H3. apply (bool_decide_unpack _). by vm_compute.
Defined.

(** A host with one volume behind C:, another behind D:, and a network drive. *)
Definition sample_query (name : list Z) : option (list Z) :=
  if decide (name = wide "C:") then Some (wide "\Device\HarddiskVolume3" ++ [0x78; 0])
  else if decide (name = wide "D:") then Some (wide "\Device\HarddiskVolume30")
  else if decide (name = wide "N:") then Some (wide "\??\UNC\server\share")
  else None.

Example drives_of_the_host :
  translate (from_system sample_query) "\Device\HarddiskVolume3\Windows\cmd.exe" = "C:\Windows\cmd.exe" ∧
  translate (from_system sample_query) "\Device\HarddiskVolume30\x.exe" = "D:\x.exe" ∧
  length (from_system sample_query) = 2%nat.
Proof. by vm_compute. Qed.

Example host_name_read :
  hostname 234 (Ok [0x50; 0x43; 0x31]) = Ok "PC1" ∧
  hostname 234 (Ok [0xd800]) = Err "the host name is not valid Unicode" ∧
  hostname 5 (Ok []) = Err "read the host name: Win32 error 5".
Proof. by vm_compute. Qed.

Example program_data_read :
  program_data (-2147024894) None = Err "resolve %ProgramData%: HRESULT 0x80070002" ∧
  program_data 0 (Some (wide "C:\ProgramData")) = Ok (encode_utf16 "C:\ProgramData").
Proof. by vm_compute. Qed.
