(* ===== verification/Subscription.v ===== *)
(** * The logon subscription ([logon/subscription.rs])

    The rendering of a record's values, the batches a read takes, and the logon thread as
    a step relation beside the writers of the Security log and whoever stops it. The log
    holds the records the query matches, from the subscription's opening on; each is what
    rendering it will answer. The host's part is what Windows documents of a pulled
    subscription: a new subscription starts at the records written from then on, a record
    written while one is open sets the signal, and a read says there are no more items
    only when there are none. Times are nanoseconds. *)

From stdpp Require Import sorting.
From S2P Require Import Prelude IpAddr Types Errors Ring Wide Logon.
Open Scope Z_scope.

(** ** Rendered values *)

Definition EVT_VARIANT_TYPE_MASK : Z := 0x7f.
Definition EvtVarTypeNull : Z := 0.
Definition EvtVarTypeString : Z := 1.
Definition EvtVarTypeByte : Z := 4.
Definition EvtVarTypeUInt16 : Z := 6.
Definition EvtVarTypeUInt32 : Z := 8.
Definition EvtVarTypeFileTime : Z := 17.
Definition EvtVarTypeSid : Z := 19.
Definition EvtVarTypeHexInt32 : Z := 20.

(** [EVT_VARIANT]: the type with its array flag, the union's 64 bits, and what its pointer
    leads to: the units of a text, null or not, and those of the SID's text, or that it
    cannot be converted. *)
Record Variant := { v_type : Z; v_bits : Z; v_string : option (list Z); v_sid : option (list Z) }.

Definition masked (v : Variant) : Z := Z.land (v_type v) EVT_VARIANT_TYPE_MASK.

Definition text_of (v : Variant) : option string :=
  if masked v =? EvtVarTypeString then wide_to_string (v_string v)
  else if masked v =? EvtVarTypeSid then wide_to_string (v_sid v)
  else None.

Definition u32_of (v : Variant) : option Z :=
  if (masked v =? EvtVarTypeUInt32) || (masked v =? EvtVarTypeHexInt32) then Some (wrap_u 32 (v_bits v))
  else if masked v =? EvtVarTypeUInt16 then Some (wrap_u 16 (v_bits v))
  else if masked v =? EvtVarTypeByte then Some (wrap_u 8 (v_bits v))
  else None.

Definition VALUE_PATHS : list string :=
  ["Event/System/EventID"; "Event/System/Version"; "Event/System/TimeCreated/@SystemTime";
   "Event/EventData/Data[@Name='TargetUserSid']"; "Event/EventData/Data[@Name='TargetUserName']";
   "Event/EventData/Data[@Name='TargetDomainName']"; "Event/EventData/Data[@Name='LogonType']";
   "Event/EventData/Data[@Name='AuthenticationPackageName']"; "Event/EventData/Data[@Name='WorkstationName']";
   "Event/EventData/Data[@Name='IpAddress']"; "Event/EventData/Data[@Name='ElevatedToken']";
   "Event/EventData/Data[@Name='Status']"; "Event/EventData/Data[@Name='SubStatus']"].

Definition ERROR_INSUFFICIENT_BUFFER : Z := 122.

(** [x as i64] of a [u64]. *)
Definition u64_as_i64 (x : Z) : Z := if x <? 2 ^ 63 then x else x - 2 ^ 64.

(** The record of the first thirteen values. *)
Definition record_of (v : nat → Variant) : Result RawLogonRecord (option Z) :=
  if masked (v 2%nat) =? EvtVarTypeFileTime then
    Ok {| rl_event_id := wrap_u 16 (default 0 (u32_of (v 0%nat)));
          rl_version := wrap_u 8 (default 0 (u32_of (v 1%nat)));
          rl_filetime_100ns := u64_as_i64 (wrap_u 64 (v_bits (v 2%nat)));
          rl_target_user_sid := if masked (v 3%nat) =? EvtVarTypeNull then None else text_of (v 3%nat);
          rl_target_user_name := text_of (v 4%nat);
          rl_target_domain_name := text_of (v 5%nat);
          rl_logon_type := u32_of (v 6%nat);
          rl_auth_package := text_of (v 7%nat);
          rl_workstation := text_of (v 8%nat);
          rl_ip_address := text_of (v 9%nat);
          rl_elevated_token := text_of (v 10%nat);
          rl_status := u32_of (v 11%nat);
          rl_sub_status := u32_of (v 12%nat) |}
  else Err None.

Definition no_variant : Variant := {| v_type := EvtVarTypeNull; v_bits := 0; v_string := None; v_sid := None |}.

(** A record of the log: what the size query and the rendering of it answer, a Win32 error
    or the values. *)
Record LogRecord := { size_query : option Z; rendered : Result (list Variant) Z }.

Definition render (r : LogRecord) : Result RawLogonRecord (option Z) :=
  if match size_query r with Some code => code =? ERROR_INSUFFICIENT_BUFFER | None => true end then
    match rendered r with
    | Err code => Err (Some code)
    | Ok values =>
        if (length values <? length VALUE_PATHS)%nat then Err None
        else record_of (λ i, nth i values no_variant)
    end
  else Err (size_query r).

(** ** One batch *)

Definition BATCH : nat := 32.
Definition POLL : Z := seconds 1.
Definition REOPEN_DELAY : Z := seconds 5.

(** Rendered and handed on, or counted; the identifier and the time are those drawn. *)
Definition handle_record (draw : string * Instant) (r : LogRecord) (out : EventRing * LogonCounters)
  : EventRing * LogonCounters :=
  match render r with
  | Ok raw => dispatch_logon_record draw.1 draw.2 raw out.1 out.2
  | Err code => (out.1, record_unusable out.2 {| us_event_id := None; us_win32_code := code |})
  end.

Fixpoint handle_batch (draws : list (string * Instant)) (batch : list LogRecord) (out : EventRing * LogonCounters)
  : EventRing * LogonCounters :=
  match batch with
  | [] => out
  | r :: batch => handle_batch (tail draws) batch (handle_record (default ("", 0) (head draws)) r out)
  end.

(** ** The thread *)

(** Where the logon thread is: at its wait, in [drain] before an [EvtNext], in the wait
    after a failed read, in the wait of a failed [reopen] (the check of the counters
    follows if it came from a read), or returned. *)
Inductive LogonPc := AtWait | Draining | AfterFailure | AfterReopen (observes : bool) | Ended.

#[export] Instance LogonPc_eq_dec : EqDecision LogonPc.
Proof. solve_decision. Defined.

Record LogonState := {
  now : Instant;
  (** The log, the subscription's signal and the stop event. *)
  written : list LogRecord;
  signal : bool;
  stop : bool;
  (** The thread: the open subscription with the number of records before what it
      reads next, and when a failure was logged last. *)
  pc : LogonPc;
  subscription : option nat;
  last_failure_log : option Instant;
  monitor : UnusableMonitor;
  sink : EventRing * LogonCounters;
  (** What has become of the records, by their place in the log: handed on in this
      order, or not read as no subscription was open for them; the reads that failed;
      when failures were logged, the newest first. *)
  passed : list nat;
  missed : list nat;
  failures : nat;
  warned : list Instant;
}.

Definition with_pc (s : LogonState) (p : LogonPc) : LogonState :=
  {| now := now s; written := written s; signal := signal s; stop := stop s; pc := p; subscription := subscription s;
     last_failure_log := last_failure_log s; monitor := monitor s; sink := sink s; passed := passed s;
     missed := missed s; failures := failures s; warned := warned s |}.
Definition with_subscription (s : LogonState) (o : option nat) : LogonState :=
  {| now := now s; written := written s; signal := signal s; stop := stop s; pc := pc s; subscription := o;
     last_failure_log := last_failure_log s; monitor := monitor s; sink := sink s; passed := passed s;
     missed := missed s; failures := failures s; warned := warned s |}.
Definition with_signal (s : LogonState) (b : bool) : LogonState :=
  {| now := now s; written := written s; signal := b; stop := stop s; pc := pc s; subscription := subscription s;
     last_failure_log := last_failure_log s; monitor := monitor s; sink := sink s; passed := passed s;
     missed := missed s; failures := failures s; warned := warned s |}.

Definition log_failure (s : LogonState) : LogonState :=
  if match last_failure_log s with None => true | Some last => LOG_INTERVAL <=? now s - last end
  then {| now := now s; written := written s; signal := signal s; stop := stop s; pc := pc s;
          subscription := subscription s; last_failure_log := Some (now s); monitor := monitor s; sink := sink s;
          passed := passed s; missed := missed s; failures := failures s; warned := now s :: warned s |}
  else s.

(** The subscription dropped, and closed with it: what it had not read it never will. *)
Definition close_subscription (s : LogonState) : LogonState :=
  match subscription s with
  | None => s
  | Some n =>
      {| now := now s; written := written s; signal := signal s; stop := stop s; pc := pc s; subscription := None;
         last_failure_log := last_failure_log s; monitor := monitor s; sink := sink s; passed := passed s;
         missed := missed s ++ seq n (length (written s) - n); failures := failures s; warned := warned s |}
  end.

(** [monitor.observe(counters, now)]. *)
Definition observe (s : LogonState) : LogonState :=
  {| now := now s; written := written s; signal := signal s; stop := stop s; pc := pc s; subscription := subscription s;
     last_failure_log := last_failure_log s; monitor := (unusable_observe (monitor s) (sink s).2 (now s)).2;
     sink := sink s; passed := passed s; missed := missed s; failures := failures s; warned := warned s |}.

(** Back to the wait, through the check of the counters if it is due. *)
Definition next_turn (observes : bool) (s : LogonState) : LogonState :=
  with_pc (if observes then observe s else s) AtWait.

Definition CHANNEL : string := "Security".
Definition QUERY : string := "*[System[(EventID=4624 or EventID=4625)]]".

(** The handle of a new subscription, or the Win32 code; [evt_subscribe] is the system's
    call, with the handle, 0 on failure, and the last error. *)
Definition subscribe (evt_subscribe : string → string → Z * Z) : Result Z Z :=
  let '(handle, last_error) := evt_subscribe CHANNEL QUERY in
  if handle =? 0 then Err last_error else Ok handle.

(** [subscribe] and what [reopen] makes of it; its wait is a place of its own. *)
Definition reopen (subscribed : Result Z Z) (observes : bool) (s : LogonState) : LogonState :=
  match subscribed with
  | Ok _ => next_turn observes (with_subscription s (Some (length (written s))))
  | Err code => with_pc (log_failure s) (AfterReopen observes)
  end.

(** The wait has returned: [woke == WAIT_OBJECT_0] is the stop event, which wins. *)
Definition wake (subscribed : Result Z Z) (s : LogonState) : LogonState :=
  if stop s then with_pc s Ended
  else match subscription s with
       | None => reopen subscribed false s
       | Some _ => with_pc (with_signal s false) Draining
       end.

(** [EvtNext]: a batch of this many records, or a failure with the number returned. *)
Inductive NextAnswer := NextRecords (count : nat) | NextFails (returned : Z) (code : Z).

(** One turn of [drain] and, when it is over, what the loop does with it. *)
Definition drain_turn (answer : NextAnswer) (draws : list (string * Instant)) (s : LogonState) : LogonState :=
  match answer with
  | NextFails returned code =>
      if (returned =? 0) && read_is_exhausted code then next_turn true s
      else
        let s := close_subscription (log_failure s) in
        {| now := now s; written := written s; signal := signal s; stop := stop s; pc := AfterFailure;
           subscription := subscription s; last_failure_log := last_failure_log s; monitor := monitor s; sink := sink s;
           passed := passed s; missed := missed s; failures := S (failures s); warned := warned s |}
  | NextRecords count =>
      let n := default 0%nat (subscription s) in
      {| now := now s; written := written s; signal := signal s; stop := stop s; pc := Draining;
         subscription := Some (n + count)%nat; last_failure_log := last_failure_log s; monitor := monitor s;
         sink := handle_batch draws (take count (drop n (written s))) (sink s);
         passed := passed s ++ seq n count; missed := missed s; failures := failures s; warned := warned s |}
  end.

(** The end of the wait after a failed read: the stop won, or the subscription is opened
    again. *)
Definition after_failure (stopped : bool) (subscribed : Result Z Z) (s : LogonState) : LogonState :=
  if stopped then with_pc s Ended else reopen subscribed true s.

(** ** Opening and stopping *)

(** The thread as it is started: the signal is set, so that it reads first. *)
Definition opened (at_ : Instant) (ring : EventRing) : LogonState :=
  {| now := at_; written := []; signal := true; stop := false; pc := AtWait; subscription := Some 0%nat;
     last_failure_log := None; monitor := monitor_new; sink := (ring, counters_new);
     passed := []; missed := []; failures := 0; warned := [] |}.

Section Open.
Context (system_message : Z → string).

(** A call that returns a handle, 0 on failure with the last error beside it. *)
Definition event_new (create : Z * Z) : Result Z LogonError :=
  if create.1 =? 0 then Err (logon_from_win32 system_message create.2) else Ok create.1.

(** [RenderContext::new]: the context is created for [VALUE_PATHS]. *)
Definition context_new (evt_create_render_context : list string → Z * Z) : Result Z LogonError :=
  let created := evt_create_render_context VALUE_PATHS in
  if created.1 =? 0 then Err (logon_from_win32 system_message created.2) else Ok created.1.

(** [LogonSubscription::open]: each step's Win32 error, or the thread's. *)
Definition open_subscription (evt_create_render_context : list string → Z * Z) (signal_event : Z * Z)
    (evt_subscribe : string → string → Z * Z) (stop_event : Z * Z) (spawned : Result unit string)
    (at_ : Instant) (ring : EventRing) : Result LogonState LogonError :=
  try? context_new evt_create_render_context in
  try? event_new signal_event in
  try? map_err (logon_from_win32 system_message) (subscribe evt_subscribe) in
  try? event_new stop_event in
  try? map_err (λ e, LogonFailed 0 ("spawn the logon thread: " +:+ e)) spawned in
  Ok (opened at_ ring).
End Open.

(** [stop]: the event set; the thread is then waited for and its subscription closed. *)
Definition set_stop (s : LogonState) : LogonState :=
  {| now := now s; written := written s; signal := signal s; stop := true; pc := pc s; subscription := subscription s;
     last_failure_log := last_failure_log s; monitor := monitor s; sink := sink s; passed := passed s;
     missed := missed s; failures := failures s; warned := warned s |}.

(** A record written: it sets the signal of an open subscription that [notifies]. *)
Definition write (notifies : bool) (r : LogRecord) (s : LogonState) : LogonState :=
  {| now := now s; written := written s ++ [r];
     signal := signal s || (notifies && bool_decide (is_Some (subscription s))); stop := stop s; pc := pc s;
     subscription := subscription s; last_failure_log := last_failure_log s; monitor := monitor s; sink := sink s;
     passed := passed s;
     missed := missed s ++ (match subscription s with Some _ => [] | None => [length (written s)] end);
     failures := failures s; warned := warned s |}.

(** The records the open subscription has still to read. *)
Definition unread (s : LogonState) : nat :=
  match subscription s with Some n => length (written s) - n | None => 0 end.

(** The thread's steps. The wait may return at any time: on the stop, on the signal, or
    after [POLL]. [ERROR_NO_MORE_ITEMS] says that nothing is unread. So does
    [ERROR_INVALID_OPERATION] of a subscription that [works]; one that stopped working may
    answer it whatever is unread (SPEC-020, Risks), and sets no signal. *)
Inductive thread_step (works : bool) : LogonState → LogonState → Prop :=
| wakes s subscribed : pc s = AtWait → thread_step works s (wake subscribed s)
| reads s count draws :
    pc s = Draining → (0 < count)%nat → (count ≤ BATCH)%nat → (count ≤ unread s)%nat →
    thread_step works s (drain_turn (NextRecords count) draws s)
| exhausts s code :
    pc s = Draining → read_is_exhausted code = true →
    (works = true ∨ code = ERROR_NO_MORE_ITEMS → unread s = 0%nat) →
    thread_step works s (drain_turn (NextFails 0 code) [] s)
| read_fails s returned code :
    pc s = Draining → returned ≠ 0 ∨ read_is_exhausted code = false →
    thread_step works s (drain_turn (NextFails returned code) [] s)
| failure_waited s subscribed :
    pc s = AfterFailure → thread_step works s (after_failure (stop s) subscribed s)
| reopen_waited s observes :
    pc s = AfterReopen observes → thread_step works s (next_turn observes s).

Definition at_time (s : LogonState) (t : Instant) : LogonState :=
  {| now := t; written := written s; signal := signal s; stop := stop s; pc := pc s; subscription := subscription s;
     last_failure_log := last_failure_log s; monitor := monitor s; sink := sink s; passed := passed s;
     missed := missed s; failures := failures s; warned := warned s |}.

Inductive logon_step (works : bool) : LogonState → LogonState → Prop :=
| threads s s' : thread_step works s s' → logon_step works s s'
| writes s notifies r : (works = true → notifies = true) → logon_step works s (write notifies r s)
| stops s : logon_step works s (set_stop s)
| time_passes s t : now s ≤ t → logon_step works s (at_time s t).

Definition logon_reachable (works : bool) (ring : EventRing) (s : LogonState) : Prop :=
  ∃ at_, rtc (logon_step works) (opened at_ ring) s.

(** ** What becomes of the records *)

Lemma handle_batch_app d1 d2 b1 b2 out :
  length d1 = length b1 → handle_batch (d1 ++ d2) (b1 ++ b2) out = handle_batch d2 b2 (handle_batch d1 b1 out).
Proof.
  revert d1 out. induction b1 as [|r b1 IH]; intros [|d d1] out; cbn [length]; try done. intros [= H]. by apply IH.
Qed.

Lemma handle_batch_pad d b out : ∃ d', length d' = length b ∧ handle_batch d b out = handle_batch d' b out.
Proof.
  revert d out. induction b as [|r b IH]; intros d out; [by exists []|]. cbn [handle_batch].
  destruct (IH (tail d) (handle_record (default ("", 0) (head d)) r out)) as (d' & Hl & E).
  exists (default ("", 0) (head d) :: d'). cbn. by rewrite Hl.
Qed.

(** The places still to be read. *)
Definition ahead (s : LogonState) : list nat :=
  match subscription s with Some n => seq n (length (written s) - n) | None => [] end.

(** The records handed on. *)
Definition handed (s : LogonState) : list LogRecord := omap (λ i, written s !! i) (passed s).

Record accounted (ring : EventRing) (s : LogonState) : Prop := {
  acc_position : ∀ n, subscription s = Some n → (n ≤ length (written s))%nat;
  acc_sorted : StronglySorted lt (passed s);
  acc_below : Forall (λ i, (i < default (length (written s)) (subscription s))%nat) (passed s);
  acc_all : passed s ++ missed s ++ ahead s ≡ₚ seq 0 (length (written s));
  acc_clean : failures s = 0%nat →
                ∃ n, subscription s = Some n ∧ passed s = seq 0 n ∧ missed s = [];
  acc_sink : ∃ draws, length draws = length (passed s) ∧
               sink s = handle_batch draws (handed s) (ring, counters_new);
}.

Lemma omap_lookup_app {X} (l k : list X) is_ :
  Forall (λ i, (i < length l)%nat) is_ → omap (λ i, (l ++ k) !! i) is_ = omap (λ i, l !! i) is_.
Proof.
  intros H. apply list_omap_ext, Forall_Forall2_diag. eapply Forall_impl; [exact H|]. intros i Hi. cbn.
  by rewrite lookup_app_l.
Qed.

Lemma omap_lookup_seq {X} (l : list X) n m :
  (n + m ≤ length l)%nat → omap (λ i, l !! i) (seq n m) = take m (drop n l).
Proof.
  revert n. induction m as [|m IH]; intros n H; [done|]. cbn [seq].
  destruct (lookup_lt_is_Some_2 l n) as [x Hx]; [lia|]. rewrite (drop_S l x n Hx). cbn. rewrite Hx.
  f_equal. apply IH. lia.
Qed.

Lemma omap_lookup_length {X} (l : list X) is_ :
  Forall (λ i, (i < length l)%nat) is_ → length (omap (λ i, l !! i) is_) = length is_.
Proof.
  induction 1 as [|i is_ Hi _ IH]; [done|]. cbn. destruct (lookup_lt_is_Some_2 l i Hi) as [x ->]. cbn. by rewrite IH.
Qed.

Lemma seq_sorted n m : StronglySorted lt (seq n m).
Proof.
  revert n. induction m as [|m IH]; intros n; [constructor|]. cbn. constructor; [apply IH|].
  apply Forall_forall. intros i Hi%elem_of_seq. lia.
Qed.

Lemma sorted_seq_after l n m :
  StronglySorted lt l → Forall (λ i, (i < n)%nat) l → StronglySorted lt (l ++ seq n m).
Proof.
  intros Hs. induction Hs as [|i l Hs IH Hi]; intros Hl; [apply seq_sorted|].
  apply Forall_cons in Hl as [Hin Hl]. cbn. constructor; [by apply IH|]. apply Forall_app. split; [done|].
  apply Forall_forall. intros j Hj%elem_of_seq. lia.
Qed.

(** What the thread relies on where it is: at its wait without a signal nothing is unread,
    if the subscription works. *)
Definition placed (works : bool) (s : LogonState) : Prop :=
  match pc s with
  | AtWait => works = true → signal s = false → unread s = 0%nat
  | Draining => is_Some (subscription s)
  | AfterFailure | AfterReopen _ => subscription s = None
  | Ended => True
  end.

(** Operations that leave the records and the subscription alone. *)
Definition same_records (s s' : LogonState) : Prop :=
  written s' = written s ∧ subscription s' = subscription s ∧ sink s' = sink s ∧ passed s' = passed s ∧
  missed s' = missed s ∧ failures s' = failures s.

Lemma accounted_same ring s s' : same_records s s' → accounted ring s → accounted ring s'.
Proof.
  intros (H1 & H2 & H3 & H4 & H5 & H6) [A1 A2 A3 A4 A5 A6].
  split; unfold ahead, handed in *; rewrite ?H1, ?H2, ?H3, ?H4, ?H5, ?H6; done.
Qed.

Lemma same_log_failure s : same_records s (log_failure s) ∧ signal (log_failure s) = signal s.
Proof. unfold log_failure. by destruct (last_failure_log s) as [t|]; repeat case_match. Qed.

Lemma accounted_write ring b r s : accounted ring s → accounted ring (write b r s).
Proof.
  intros [A1 A2 A3 A4 A5 (draws & Hl & Hs)].
  assert (Forall (λ i, (i < length (written s))%nat) (passed s)) as Hb.
  { eapply Forall_impl; [exact A3|]. intros i Hi. cbn in Hi. destruct (subscription s) as [n|] eqn:E; cbn in Hi; [|done].
    specialize (A1 n eq_refl). lia. }
  split; cbn.
  - intros n Hn. rewrite length_app. specialize (A1 n Hn). lia.
  - done.
  - destruct (subscription s); [done|]. eapply Forall_impl; [exact Hb|]. intros i Hi. cbn in *. rewrite length_app. lia.
  - unfold ahead in *. cbn. rewrite length_app. cbn. rewrite Nat.add_comm. cbn [Nat.add].
    rewrite seq_S. cbn [Nat.add]. rewrite <- A4. destruct (subscription s) as [n|] eqn:E.
    + specialize (A1 n eq_refl). replace (S (length (written s)) - n)%nat with (S (length (written s) - n)) by lia.
      rewrite seq_S. replace (n + (length (written s) - n))%nat with (length (written s)) by lia.
      by rewrite app_nil_r, !app_assoc.
    + by rewrite !app_nil_r, app_assoc.
  - intros H. destruct (A5 H) as (n & -> & -> & ->). by exists n.
  - exists draws. split; [done|]. unfold handed in *. cbn. by rewrite omap_lookup_app.
Qed.

Lemma accounted_reads ring count draws s n :
  accounted ring s → subscription s = Some n → (n + count ≤ length (written s))%nat →
  accounted ring (drain_turn (NextRecords count) draws s).
Proof.
  intros [A1 A2 A3 A4 A5 (dr & Hl & Hs)] En Hc. rewrite En in *. cbn in A3. unfold drain_turn. rewrite En.
  split; cbn.
  - by intros m [= <-].
  - by apply sorted_seq_after.
  - apply Forall_app. split; [eapply Forall_impl; [exact A3|]; intros i Hi; cbn in *; lia|].
    apply Forall_forall. intros i Hi%elem_of_seq. lia.
  - rewrite <- A4. unfold ahead. cbn. rewrite En.
    replace (length (written s) - n)%nat with (count + (length (written s) - (n + count)))%nat by lia.
    rewrite seq_app, <- app_assoc. apply Permutation_app_head. rewrite !app_assoc.
    by rewrite (Permutation_app_comm (seq n count)).
  - intros H. destruct (A5 H) as (m & [= <-] & Hp & Hm). exists (n + count)%nat. rewrite Hp, Hm, seq_app. done.
  - destruct (handle_batch_pad draws (take count (drop n (written s))) (sink s)) as (d' & Hd & E).
    exists (dr ++ d'). rewrite !length_app, Hl, length_seq. split.
    + rewrite Hd, length_take, length_drop. lia.
    + unfold handed in *. cbn. rewrite omap_app, omap_lookup_seq by done. rewrite E, Hs.
      rewrite handle_batch_app; [done|]. rewrite Hl, omap_lookup_length; [done|].
      eapply Forall_impl; [exact A3|]. intros i Hi. cbn in *. lia.
Qed.

Lemma accounted_fails ring returned code s n :
  accounted ring s → subscription s = Some n → returned ≠ 0 ∨ read_is_exhausted code = false →
  accounted ring (drain_turn (NextFails returned code) [] s).
Proof.
  intros Ha En Hf. destruct (same_log_failure s) as [Hsame _].
  pose proof (accounted_same ring _ _ Hsame Ha) as [A1 A2 A3 A4 A5 A6]. destruct Hsame as (_ & Hsub & _).
  unfold drain_turn. replace ((returned =? 0) && read_is_exhausted code) with false; cycle 1.
  { symmetry. apply andb_false_iff. destruct Hf as [Hf| ->]; [left; lia|by right]. }
  rewrite En in Hsub. unfold close_subscription. rewrite Hsub in *. split; cbn; try done.
  - eapply Forall_impl; [exact A3|]. intros i Hi. cbn in *. specialize (A1 n eq_refl). lia.
  - rewrite <- A4. unfold ahead. cbn. rewrite Hsub. by rewrite app_nil_r.
Qed.

Lemma accounted_reopened ring s :
  accounted ring s → subscription s = None → accounted ring (with_subscription s (Some (length (written s)))).
Proof.
  intros [A1 A2 A3 A4 A5 A6] En. rewrite En in *. split; cbn; try done.
  - by intros n [= <-].
  - rewrite <- A4. unfold ahead. cbn. by rewrite En, Nat.sub_diag.
  - intros H. destruct (A5 H) as (n & [=] & _).
Qed.

(** A state with the same records. *)
Ltac same_records := eapply accounted_same; [|eassumption]; done.

Lemma next_turn_records b s : same_records s (next_turn b s) ∧ signal (next_turn b s) = signal s.
Proof. by destruct b. Qed.

Lemma accounted_reopen works ring subscribed b s :
  accounted ring s → subscription s = None → accounted ring (reopen subscribed b s) ∧ placed works (reopen subscribed b s).
Proof.
  intros Ha Hn. destruct subscribed as [handle|code]; cbn.
  - split; [eapply accounted_same; [apply next_turn_records|by apply accounted_reopened]|].
    intros _ _. destruct (next_turn_records b (with_subscription s (Some (length (written s))))) as [(Hw & Hs & _) _].
    unfold unread. rewrite Hs, Hw. cbn. lia.
  - destruct (same_log_failure s) as [Hsame _]. split; [by eapply accounted_same|].
    destruct Hsame as (_ & Hs & _). cbn. by rewrite Hs.
Qed.

Lemma accounted_thread works ring s s' :
  thread_step works s s' → accounted ring s → placed works s → accounted ring s' ∧ placed works s'.
Proof.
  intros Hst Ha Hp. destruct Hst as [s subscribed E|s count draws E H0 H1 H2|s code E Hx Hu|s returned code E Hf
    |s subscribed E|s b E]; unfold placed in Hp; rewrite E in Hp.
  - unfold wake. destruct (stop s); [by split; [same_records|]|].
    destruct (subscription s) as [n|] eqn:En; [|by apply accounted_reopen].
    split; [same_records|]. unfold placed. cbn. by rewrite En.
  - destruct Hp as [n En]. unfold unread in H2. rewrite En in H2.
    split; [apply accounted_reads with n; [done|done|destruct Ha as [A1]; specialize (A1 n En); lia]|].
    unfold placed. cbn. by eexists.
  - unfold drain_turn. rewrite Hx. cbn. split; [same_records|]. intros Hw _. apply Hu. by left.
  - destruct Hp as [n En]. split; [by eapply accounted_fails|].
    unfold drain_turn. replace ((returned =? 0) && read_is_exhausted code) with false; cycle 1.
    { symmetry. apply andb_false_iff. destruct Hf as [Hf| ->]; [left; lia|by right]. }
    cbn. destruct (same_log_failure s) as [(_ & Hs & _) _]. unfold close_subscription. by rewrite Hs, En.
  - unfold after_failure. destruct (stop s); [by split; [same_records|]|]. by apply accounted_reopen.
  - split; [eapply accounted_same; [apply next_turn_records|done]|].
    destruct (next_turn_records b s) as [(Hw & Hs & _) Hg]. unfold placed. cbn. intros _ _. unfold unread. by rewrite Hs, Hp.
Qed.

Lemma accounted_step works ring s s' :
  logon_step works s s' → accounted ring s ∧ placed works s → accounted ring s' ∧ placed works s'.
Proof.
  intros [s0 s1 Hst|s0 b r Hb|s0|s0 t Ht] [Ha Hp].
  - by eapply accounted_thread.
  - split; [by apply accounted_write|]. unfold placed in *. cbn. destruct (pc s0); try done.
    intros Hw Hs. unfold unread in *. cbn. destruct (subscription s0) as [n|]; [|done].
    rewrite (Hb Hw) in Hs. by rewrite orb_true_r in Hs.
  - by split; [same_records|].
  - by split; [same_records|].
Qed.

Lemma reachable_accounted works ring s : logon_reachable works ring s → accounted ring s ∧ placed works s.
Proof.
  intros [at_ Hs]. refine (rtc_ind_r (λ x, accounted ring x ∧ placed works x) (opened at_ ring) _ _ s Hs).
  - split; [|done]. split; cbn; try done.
    + by intros n [= <-].
    + constructor.
    + by exists 0%nat.
    + by exists [].
  - intros x y _ Hxy IH. by eapply accounted_step.
Qed.

(** C20 Every logon record is accounted for and none is handed on twice: in every
    interleaving of the logon thread with the writers of the log and the stop, whatever the
    reads answer, the records are handed on in the order they were written, and each record
    written since the subscription opened is handed on, still to be read, or was written or
    unread while no subscription was open. Without a failed read there are none of the
    last: those handed on are the first ones. While the subscription works, when the thread
    waits without its signal there is none to read; the one that stopped working and
    answers [ERROR_INVALID_OPERATION] is the exception, as the code's header and SPEC-020
    say, since that ends a read whatever caused it ([dead_subscription_unseen]). The ring
    and the counters are what the decoder makes of the records handed on. *)
Theorem logon_records_accounted works ring s :
  logon_reachable works ring s →
  StronglySorted lt (passed s) ∧
  passed s ++ missed s ++ ahead s ≡ₚ seq 0 (length (written s)) ∧
  (failures s = 0%nat → passed s = seq 0 (length (written s) - unread s) ∧ missed s = []) ∧
  (works = true → pc s = AtWait → signal s = false → ahead s = []) ∧
  ∃ draws, length draws = length (passed s) ∧ sink s = handle_batch draws (handed s) (ring, counters_new).
Proof.
  intros Hr. destruct (reachable_accounted works ring s Hr) as [[A1 A2 A3 A4 A5 A6] Hp]. split_and!; try done.
  - intros H. destruct (A5 H) as (n & Hn & Hpass & Hm). split; [|done]. unfold unread. rewrite Hn, Hpass. f_equal.
    specialize (A1 n Hn). lia.
  - intros Hw Hpc Hs. unfold placed in Hp. rewrite Hpc in Hp. specialize (Hp Hw Hs). unfold ahead, unread in *.
    destruct (subscription s); [by rewrite Hp|done].
Qed.

(** ** The stop *)

(** An upper bound on the thread's steps once the stop is set. *)
Definition steps_left (s : LogonState) : nat :=
  match pc s with
  | Ended => 0
  | AtWait | AfterFailure => 1
  | AfterReopen _ => 2
  | Draining => 2 + unread s
  end.

Lemma log_failure_stop s : stop (log_failure s) = stop s.
Proof. unfold log_failure. by repeat case_match. Qed.

Lemma stopping_thread_step works s s' :
  thread_step works s s' → stop s = true → stop s' = true ∧ (steps_left s' < steps_left s)%nat.
Proof.
  intros Hst Hs. destruct Hst as [s subscribed E|s count draws E H0 H1 H2|s code E Hx Hu|s returned code E Hf
    |s subscribed E|s b E]; unfold steps_left; rewrite E.
  - unfold wake. rewrite Hs. cbn. split; [done|lia].
  - cbn. split; [done|]. unfold unread in *. cbn. destruct (subscription s); cbn; lia.
  - unfold drain_turn. rewrite Hx. cbn. split; [done|lia].
  - unfold drain_turn. replace ((returned =? 0) && read_is_exhausted code) with false; cycle 1.
    { symmetry. apply andb_false_iff. destruct Hf as [Hf| ->]; [left; lia|by right]. }
    cbn. split; [|lia]. unfold close_subscription.
    by destruct (subscription (log_failure s)); cbn; rewrite log_failure_stop.
  - unfold after_failure. rewrite Hs. cbn. split; [done|lia].
  - destruct b; cbn; (split; [done|lia]).
Qed.

Lemma thread_goes_on works s : pc s ≠ Ended → ∃ s', thread_step works s s'.
Proof.
  intros Hp. destruct (pc s) as [| | |b|] eqn:E; [| | | |done].
  - eexists. by apply (wakes works s (Ok 1)).
  - destruct (unread s) as [|u] eqn:Hu.
    + eexists. by apply (exhausts works s ERROR_NO_MORE_ITEMS).
    + eexists. apply (reads works s 1 []); [done|lia|unfold BATCH; lia|lia].
  - eexists. by apply (failure_waited works s (Ok 1)).
  - eexists. by apply (reopen_waited works s b).
Qed.

(** C23 A stop ends the logon thread: once the stop event is set, the thread takes at most
    two steps more than there are records to read, wherever it was and whatever its calls
    answer, and it is never stuck before it has returned. Records written meanwhile, which
    the bound does not count, can each add a step while it drains. *)
Theorem logon_thread_stops works s n s' :
  stop s = true → nsteps (thread_step works) n s s' →
  (n ≤ 2 + unread s)%nat ∧ (pc s' = Ended ∨ ∃ s'', thread_step works s' s'').
Proof.
  intros Hs Hn. split; cycle 1.
  { destruct (decide (pc s' = Ended)); [by left|right; by apply thread_goes_on]. }
  assert (n + steps_left s' ≤ steps_left s)%nat as H.
  { induction Hn as [|m x y z Hxy _ IH]; [lia|]. destruct (stopping_thread_step works x y Hxy Hs) as [Hy Hm].
    specialize (IH Hy). lia. }
  unfold steps_left in H. destruct (pc s); lia.
Qed.

(** ** The failures logged *)

(** Each at least [LOG_INTERVAL] after the one before it, the newest first. *)
Fixpoint spaced (l : list Instant) : Prop :=
  match l with
  | t :: (u :: _) as rest => u + LOG_INTERVAL ≤ t ∧ spaced rest
  | _ => True
  end.

Definition throttled (s : LogonState) : Prop := spaced (warned s) ∧ last_failure_log s = head (warned s).

Lemma throttled_same s s' :
  warned s' = warned s → last_failure_log s' = last_failure_log s → throttled s → throttled s'.
Proof. unfold throttled. by intros -> ->. Qed.

Lemma throttled_log_failure s : throttled s → throttled (log_failure s).
Proof.
  intros [H1 H2]. unfold log_failure. rewrite H2.
  destruct (warned s) as [|u l] eqn:E; cbn [head]; [by split|].
  destruct (Z.leb_spec LOG_INTERVAL (now s - u)); [|by split; rewrite ?E].
  split; [|done]. cbn. split; [lia|done].
Qed.

Lemma throttled_reopen subscribed b s : throttled s → throttled (reopen subscribed b s).
Proof.
  intros H. destruct subscribed; cbn.
  - eapply throttled_same; [..|exact H]; by destruct b.
  - by eapply throttled_same; [..|apply throttled_log_failure].
Qed.

Lemma throttled_thread works s s' : thread_step works s s' → throttled s → throttled s'.
Proof.
  intros Hst H. destruct Hst as [s subscribed E|s count draws E H0 H1 H2|s code E Hx Hu|s returned code E Hf
    |s subscribed E|s b E].
  - unfold wake. destruct (stop s); [done|]. destruct (subscription s); [done|by apply throttled_reopen].
  - done.
  - unfold drain_turn. by rewrite Hx.
  - unfold drain_turn. destruct (_ && _); [done|]. apply throttled_log_failure in H.
    unfold close_subscription. by destruct (subscription (log_failure s)).
  - unfold after_failure. destruct (stop s); [done|by apply throttled_reopen].
  - by destruct b.
Qed.

(** The thread logs its failures at most once per interval, however often the subscription
    fails. *)
Lemma failures_logged_rarely works ring s : logon_reachable works ring s → spaced (warned s).
Proof.
  intros [at_ Hs]. enough (throttled s) as [H _] by done.
  refine (rtc_ind_r throttled (opened at_ ring) _ _ s Hs); [done|].
  intros x y _ Hxy IH. destruct Hxy as [s0 s1 Hst|s0 b r Hb|s0|s0 t Ht]; try done. by eapply throttled_thread.
Qed.

(** ** Rendering *)

Definition text_variant (t : option string) : Variant :=
  match t with
  | None => no_variant
  | Some s => {| v_type := EvtVarTypeString; v_bits := 0; v_string := Some (wide s); v_sid := None |}
  end.
Definition sid_variant (t : option string) : Variant :=
  match t with
  | None => no_variant
  | Some s => {| v_type := EvtVarTypeSid; v_bits := 0; v_string := None; v_sid := Some (wide s) |}
  end.
Definition number_variant (type : Z) (n : option Z) : Variant :=
  match n with
  | None => no_variant
  | Some n => {| v_type := type; v_bits := n; v_string := None; v_sid := None |}
  end.

(** A record's values as Windows renders them. *)
Definition values_of (r : RawLogonRecord) : list Variant :=
  [number_variant EvtVarTypeUInt16 (Some (rl_event_id r)); number_variant EvtVarTypeByte (Some (rl_version r));
   number_variant EvtVarTypeFileTime (Some (wrap_u 64 (rl_filetime_100ns r)));
   sid_variant (rl_target_user_sid r); text_variant (rl_target_user_name r); text_variant (rl_target_domain_name r);
   number_variant EvtVarTypeUInt32 (rl_logon_type r); text_variant (rl_auth_package r);
   text_variant (rl_workstation r); text_variant (rl_ip_address r); text_variant (rl_elevated_token r);
   number_variant EvtVarTypeHexInt32 (rl_status r); number_variant EvtVarTypeHexInt32 (rl_sub_status r)].

Definition fits (bits : Z) (n : option Z) : Prop := ∀ x, n = Some x → 0 ≤ x < 2 ^ bits.

Definition readable (t : option string) : Prop := ∀ s, t = Some s → wide_text s.

Lemma text_of_text t : readable t → text_of (text_variant t) = t.
Proof.
  intros Ht. destruct t as [s|]; [|done]. unfold text_of. cbn. rewrite <- (app_nil_r (wide s)), wide_read_back; [done|by apply Ht].
Qed.
Lemma text_of_sid t : readable t →
  (if masked (sid_variant t) =? EvtVarTypeNull then None else text_of (sid_variant t)) = t.
Proof.
  intros Ht. destruct t as [s|]; [|done]. unfold text_of. cbn. rewrite <- (app_nil_r (wide s)), wide_read_back; [done|by apply Ht].
Qed.
Lemma u32_of_number type n :
  type = EvtVarTypeUInt32 ∨ type = EvtVarTypeHexInt32 → fits 32 n → u32_of (number_variant type n) = n.
Proof.
  intros Ht Hn. destruct n as [x|]; [|done]. specialize (Hn x eq_refl).
  assert (wrap_u 32 x = x) as Hx by (unfold wrap_u; by rewrite Z.mod_small).
  destruct Ht as [-> | ->]; unfold u32_of; cbn [masked number_variant v_type v_bits]; cbn -[wrap_u]; by rewrite Hx.
Qed.

Lemma i64_of_u64 x : - 2 ^ 63 ≤ x < 2 ^ 63 → u64_as_i64 (wrap_u 64 (wrap_u 64 x)) = x.
Proof.
  intros Hx. unfold u64_as_i64, wrap_u. rewrite Z.mod_mod by lia. destruct (Z.ltb_spec (x mod 2 ^ 64) (2 ^ 63)) as [H|H].
  - destruct (Z.lt_ge_cases x 0); [|by rewrite Z.mod_small by lia].
    exfalso. rewrite <- (Z.mod_add _ 1) in H by lia. rewrite Z.mod_small in H by lia. lia.
  - destruct (Z.lt_ge_cases x 0); [|rewrite Z.mod_small in H by lia; lia].
    rewrite <- (Z.mod_add _ 1) by lia. rewrite Z.mod_small by lia. lia.
Qed.

(** The texts of a record. *)
Definition texts_of (r : RawLogonRecord) : list (option string) :=
  [rl_target_user_sid r; rl_target_user_name r; rl_target_domain_name r; rl_auth_package r; rl_workstation r;
   rl_ip_address r; rl_elevated_token r].

(** Rendering reads a record back from its values: the thirteen values in the types
    Windows gives them, its texts as NUL-terminated UTF-16, yield the record, with its
    numbers at their widths and its timestamp signed. *)
Theorem render_roundtrip r :
  0 ≤ rl_event_id r < 2 ^ 16 → 0 ≤ rl_version r < 2 ^ 8 → - 2 ^ 63 ≤ rl_filetime_100ns r < 2 ^ 63 →
  fits 32 (rl_logon_type r) → fits 32 (rl_status r) → fits 32 (rl_sub_status r) → Forall readable (texts_of r) →
  render {| size_query := Some ERROR_INSUFFICIENT_BUFFER; rendered := Ok (values_of r) |} = Ok r.
Proof.
  intros He Hv Ht Hl Hs Hss Htexts. unfold render, record_of. cbn [size_query rendered]. rewrite Z.eqb_refl.
  unfold texts_of in Htexts. repeat (apply Forall_cons in Htexts as [? Htexts]).
  cbn [values_of length VALUE_PATHS Nat.ltb Nat.leb nth]. rewrite text_of_sid, !text_of_text by done.
  rewrite (u32_of_number EvtVarTypeUInt32), !(u32_of_number EvtVarTypeHexInt32) by first [done|by left|by right].
  assert (u32_of (number_variant EvtVarTypeUInt16 (Some (rl_event_id r))) = Some (wrap_u 16 (rl_event_id r))) as -> by done.
  assert (u32_of (number_variant EvtVarTypeByte (Some (rl_version r))) = Some (wrap_u 8 (rl_version r))) as -> by done.
  cbn [default]. assert (∀ b x, 0 ≤ x < 2 ^ b → wrap_u b x = x) as Hw by (intros b x Hx; unfold wrap_u; by rewrite Z.mod_small).
  cbn [number_variant v_bits from_option]. unfold id. rewrite !(Hw 16 (rl_event_id r)), !(Hw 8 (rl_version r)) by done.
  rewrite i64_of_u64 by done. by destruct r.
Qed.

(** ** A record written, read and handed on *)

Definition sample_raw : RawLogonRecord :=
  {| rl_event_id := EVENT_LOGON_SUCCESS; rl_version := 2; rl_filetime_100ns := 133000000000000000;
     rl_target_user_sid := Some "S-1-5-21-1-2-3-1001"; rl_target_user_name := Some "ada";
     rl_target_domain_name := Some "HOST"; rl_logon_type := Some 2; rl_auth_package := Some "Negotiate";
     rl_workstation := None; rl_ip_address := Some "-"; rl_elevated_token := Some "%%1842";
     rl_status := None; rl_sub_status := None |}.
Definition sample_record : LogRecord :=
  {| size_query := Some ERROR_INSUFFICIENT_BUFFER; rendered := Ok (values_of sample_raw) |}.

Definition sample_draining : LogonState := wake (Ok 1) (write true sample_record (opened 0 (Ring.new 8))).
Definition sample_read : LogonState :=
  drain_turn (NextFails 0 ERROR_NO_MORE_ITEMS) [] (drain_turn (NextRecords 1) [("e1", 5)] sample_draining).

Lemma sample_draining_reachable : logon_reachable true (Ring.new 8) sample_draining.
Proof.
  exists 0. eapply rtc_l; [by apply (writes _ _ true sample_record)|]. apply rtc_once, threads. by apply wakes.
Defined.

Lemma sample_read_reachable : logon_reachable true (Ring.new 8) sample_read.
Proof.
  destruct sample_draining_reachable as [at_ H]. exists at_. etrans; [exact H|].
  eapply rtc_l; [apply threads, (reads _ _ 1 [("e1", 5)]); [reflexivity|apply Nat.leb_le; reflexivity..]|].
  apply rtc_once, threads, exhausts; [reflexivity..|]. intros _. reflexivity.
Defined.

(** A subscription that stopped working and answers [ERROR_INVALID_OPERATION]: the record is
    never read, no read failed, and the thread waits without a signal. *)
Lemma dead_subscription_unseen :
  let s := drain_turn (NextFails 0 ERROR_INVALID_OPERATION) []
             (wake (Ok 1) (write false sample_record (opened 0 (Ring.new 8)))) in
  logon_reachable false (Ring.new 8) s ∧ pc s = AtWait ∧ signal s = false ∧ failures s = 0%nat ∧ ahead s = [0%nat].
Proof.
  intros s. split; [|by split_and!]. exists 0. eapply rtc_l; [by apply (writes _ _ false sample_record)|].
  eapply rtc_l; [by apply threads, (wakes _ _ (Ok 1))|]. apply rtc_once, threads, exhausts; [done..|].
  intros [H|H]; done.
Qed.

Lemma logon_records_accounted_witness : passed sample_read = [0%nat] ∧ missed sample_read = [] ∧ ahead sample_read = [].
Proof.
  destruct (logon_records_accounted true (Ring.new 8) sample_read sample_read_reachable) as (_ & _ & H & Hw & _).
  destruct (H eq_refl) as [Hp Hm]. split; [rewrite Hp; reflexivity|]. split; [exact Hm|]. apply Hw; reflexivity.
Defined.

Lemma logon_thread_stops_witness :
  let s := set_stop sample_draining in
  unread s = 1%nat ∧ ∀ n s', nsteps (thread_step true) n s s' → (n ≤ 3)%nat.
Proof.
  intros s. split; [reflexivity|]. intros n s' Hn. exact (proj1 (logon_thread_stops true s n s' eq_refl Hn)).
Defined.

Lemma render_roundtrip_witness : render sample_record = Ok sample_raw.
Proof.
  apply (render_roundtrip sample_raw); [vm_compute; by split..|intros x [= <-]; lia|by intros x|by intros x|].
  repeat (apply Forall_cons_2; [intros s Hs; simplify_eq/=; try (apply (bool_decide_unpack _); by vm_compute)|]).
  constructor.
Defined.
