(* ===== verification/LogonHandles.v ===== *)
(** * The handles of the logon subscription ([logon/subscription.rs])

    The render context, the two events, the subscription, the thread and the records'
    handles, over the calculus of [Handles]: opening them, the logon thread beside the
    stop, and the end. The loops take as many turns as they are given: [batches] is how many
    batches a read gets before there are no more, [turns] lists the turns of the thread
    before the stop ends its wait. What becomes of the records is in [Subscription]. *)

From S2P Require Import Prelude IpAddr Types Errors Ring Wide Logon Subscription Handles.
Open Scope Z_scope.

Definition WAIT_OBJECT_0 : Z := 0.

(** [Drop for Evt]: a null handle is not closed. *)
Definition evt_drop (h : Z) : hprog unit := if negb (h =? 0) then close h else HRet tt.

(** [Event::new], [RenderContext::new]: the handle or the last error. *)
Definition event_new : hprog (Result Z Z) :=
  let! handle := open_or 0 in
  if handle =? 0 then let! code := ask in HRet (Err code) else HRet (Ok handle).
Definition render_context_new : hprog (Result Z Z) :=
  let! handle := open_or 0 in
  if handle =? 0 then let! code := ask in HRet (Err code) else HRet (Ok handle).

Definition subscribe (signal : Z) : hprog (Result Z Z) :=
  then! use signal in
  let! handle := open_or 0 in
  if handle =? 0 then let! code := ask in HRet (Err code) else HRet (Ok handle).

(** ** One record *)

(** [text_of]: a SID's text is allocated, read and freed. *)
Definition text_of : hprog unit :=
  let! type := ask in
  if type =? EvtVarTypeSid then
    let! text := open_or 0 in
    if text =? 0 then HRet tt else then! use text in close text
  else HRet tt.

Fixpoint texts (n : nat) : hprog unit :=
  match n with O => HRet tt | S n => then! text_of in texts n end.

(** [EvtRender] of a record through the context. *)
Definition evt_render (context event : Z) : hprog Z := then! use context in use event.

(** [render]: whether the record could be used; it has seven texts. *)
Definition render (context event : Z) : hprog bool :=
  let! ok := evt_render context event in
  let! code := (if ok =? 0 then ask else HRet ERROR_INSUFFICIENT_BUFFER) in
  if negb (code =? ERROR_INSUFFICIENT_BUFFER) then HRet false
  else
    let! ok := evt_render context event in
    if ok =? 0 then then! ask in HRet false
    else
      let! count := ask in
      if count <? Z.of_nat (length VALUE_PATHS) then HRet false
      else
        let! type := ask in
        if negb (type =? EvtVarTypeFileTime) then HRet false else then! texts 7 in HRet true.

(** ** A read *)

(** The handles [EvtNext] returns. *)
Fixpoint open_batch (n : nat) : hprog (list Z) :=
  match n with
  | O => HRet []
  | S n => let! h := open_always in let! hs := open_batch n in HRet (h :: hs)
  end.

(** [for &handle in &handles[..returned]]: each is owned by an [Evt] of its turn. *)
Fixpoint render_batch (context : Z) (handles : list Z) : hprog unit :=
  match handles with
  | [] => HRet tt
  | handle :: handles => then! render context handle in then! evt_drop handle in render_batch context handles
  end.

(** A failed [EvtNext] hands out no handle: the end of the read, or its failure. *)
Definition read_ends : hprog (Result unit Z) :=
  let! code := ask in
  let! returned := ask in
  HRet (if (returned =? 0) && read_is_exhausted code then Ok tt else Err code).

Fixpoint drain (results context : Z) (batches : nat) : hprog (Result unit Z) :=
  let! ok := use results in
  match batches with
  | S batches =>
      if ok =? 0 then read_ends
      else
        let! returned := ask in
        let! handles := open_batch (Nat.min BATCH (Z.to_nat returned)) in
        then! render_batch context handles in
        drain results context batches
  | O => read_ends
  end.

(** ** The thread *)

Definition wait_or_stop (stop : Z) : hprog bool :=
  let! woke := use stop in HRet (woke =? WAIT_OBJECT_0).

Definition reopen (signal stop : Z) : hprog (option Z) :=
  let! subscribed := subscribe signal in
  match subscribed with
  | Ok subscription => HRet (Some subscription)
  | Err _ => then! wait_or_stop stop in HRet None
  end.

(** [WaitForMultipleObjects] on the stop and the signal. *)
Definition wait_both (stop signal : Z) : hprog Z := then! use stop in use signal.

Fixpoint run_loop (context signal stop : Z) (turns : list nat) (subscription : option Z) : hprog (option Z) :=
  match turns with
  | [] => then! wait_both stop signal in HRet subscription
  | batches :: turns =>
      let! woke := wait_both stop signal in
      if woke =? WAIT_OBJECT_0 then HRet subscription
      else
        match subscription with
        | None => let! subscription := reopen signal stop in run_loop context signal stop turns subscription
        | Some current =>
            then! use signal in
            let! read := drain current context batches in
            match read with
            | Ok _ => run_loop context signal stop turns subscription
            | Err _ =>
                then! evt_drop current in
                let! stopped := wait_or_stop stop in
                if stopped : bool then HRet None
                else let! subscription := reopen signal stop in run_loop context signal stop turns subscription
            end
        end
  end.

(** [run]: its parameters are dropped when it returns, the subscription is handed back. *)
Definition run (context signal stop : Z) (turns : list nat) (subscription : Z) : hprog (option Z) :=
  let! subscription := run_loop context signal stop turns (Some subscription) in
  then! close signal in
  then! evt_drop context in
  HRet subscription.

(** ** The subscription *)

(** What [LogonSubscription] and its thread own. *)
Record Opened := { o_context : Z; o_signal : Z; o_subscription : Z; o_stop : Z; o_thread : Z }.

(** [LogonSubscription::open]: a step that fails drops what the steps before it opened, the
    newest first; a thread that does not start drops what was moved into it, then the
    stop event. *)
Definition open_logons : hprog (Result Opened Z) :=
  let! context := render_context_new in
  match context with
  | Err code => HRet (Err code)
  | Ok context =>
      holding! context; signal := event_new in
      let! subscription := subscribe signal in
      match subscription with
      | Err code => then! close signal in then! evt_drop context in HRet (Err code)
      | Ok subscription =>
          let! stop := event_new in
          match stop with
          | Err code =>
              then! evt_drop subscription in then! close signal in then! evt_drop context in HRet (Err code)
          | Ok stop =>
              let! thread := open_or 0 in
              if thread =? 0 then
                then! evt_drop context in
                then! close signal in
                then! evt_drop subscription in
                then! close stop in
                HRet (Err 0)
              else HRet (Ok {| o_context := context; o_signal := signal; o_subscription := subscription;
                               o_stop := stop; o_thread := thread |})
          end
      end
  end.

(** [stop]: the event is set, then the thread joined and its subscription dropped. *)
Definition set_stop_event (o : Opened) : hprog unit := then! use (o_stop o) in HRet tt.
Definition stop_joined (o : Opened) (subscription : option Z) : hprog unit :=
  then! use (o_thread o) in
  then! close (o_thread o) in
  match subscription with Some h => evt_drop h | None => HRet tt end.

(** [Drop]: [stop] again, whose thread is taken by then, and the last reference to the
    event. *)
Definition subscription_drop (o : Opened) : hprog unit := close (o_stop o).

(** The life of a subscription: opened; the thread beside whoever stops it, the event
    shared; joined; dropped. *)
Inductive Life :=
| Opening (L : gset Z) (p : hprog (Result Opened Z))
| Running (o : Opened) (c : Pair unit (option Z))
| Ending (L : gset Z) (p : hprog unit)
| Over (L : gset Z).

Inductive life_step : Life → Life → Prop :=
| opens L p L' p' : hstep (L, p) (L', p') → life_step (Opening L p) (Opening L' p')
| open_failed L e : life_step (Opening L (HRet (Err e))) (Over L)
| open_succeeded L o turns :
    life_step (Opening L (HRet (Ok o)))
      (Running o {| live := L; left_ := set_stop_event o;
                    right_ := run (o_context o) (o_signal o) (o_stop o) turns (o_subscription o) |})
| runs o c c' : pair_step c c' → life_step (Running o c) (Running o c')
| joins o c subscription :
    left_ c = HRet tt → right_ c = HRet subscription →
    life_step (Running o c)
      (Ending (live c) (then! stop_joined o subscription in subscription_drop o))
| ends L p L' p' : hstep (L, p) (L', p') → life_step (Ending L p) (Ending L' p')
| over L : life_step (Ending L (HRet tt)) (Over L).

(** A call on something not open. *)
Definition life_misuses (l : Life) : Prop :=
  match l with
  | Opening L p => misuses L p
  | Running _ c => misuses (live c) (left_ c) ∨ misuses (live c) (right_ c)
  | Ending L p => misuses L p
  | Over _ => False
  end.

(** ** What each function owns *)

Lemma evt_drop_owns H h : owns H {[h]} (evt_drop h) (λ _, ∅).
Proof.
  apply owns_valid. intros Hv. destruct (Hv h) as [H0 _]; [set_solver|]. unfold evt_drop.
  destruct (Z.eqb_spec h 0); cbn [negb]; [done|own].
Qed.
#[export] Hint Resolve evt_drop_owns : owned.

Lemma event_new_owns H : owns H ∅ event_new (on_ok singleton).
Proof. unfold event_new. own. Qed.
Lemma render_context_new_owns H : owns H ∅ render_context_new (on_ok singleton).
Proof. unfold render_context_new. own. Qed.
Lemma subscribe_owns H signal : signal ∈ H → owns H ∅ (subscribe signal) (on_ok singleton).
Proof. intros. unfold subscribe. own. Qed.
#[export] Hint Resolve event_new_owns render_context_new_owns subscribe_owns : owned.

Lemma text_of_owns H : owns H ∅ text_of (λ _, ∅).
Proof. unfold text_of. own. Qed.
#[export] Hint Resolve text_of_owns : owned.
Lemma texts_own H n : owns H ∅ (texts n) (λ _, ∅).
Proof. revert H. induction n as [|n IH]; intros H; cbn [texts]; own. Qed.
Lemma evt_render_owns H context event : context ∈ H → event ∈ H → owns H ∅ (evt_render context event) (λ _, ∅).
Proof. intros. unfold evt_render. own. Qed.
#[export] Hint Resolve texts_own evt_render_owns : owned.
Lemma render_owns H context event : context ∈ H → event ∈ H → owns H ∅ (render context event) (λ _, ∅).
Proof. intros. unfold render. own. Qed.
#[export] Hint Resolve render_owns : owned.

(** The handles of a batch are all different. *)
Lemma open_batch_safe B S n :
  B ## S → safe B (open_batch n) S (λ hs S', NoDup hs ∧ Forall valid hs ∧
    S' = list_to_set hs ∪ S ∧ (list_to_set hs : gset Z) ## B ∪ S).
Proof.
  revert S. induction n as [|n IH]; intros S HB; cbn [open_batch].
  { cbn. split_and!; [constructor|constructor|set_solver|set_solver]. }
  split; [by intros v|]. intros h Hv Hh _. cbn [hbind]. apply safe_hbind. eapply safe_mono; [|apply IH; set_solver].
  intros hs S' (Hn & Hf & -> & Hd). cbn.
  assert (h ∉ hs) by (intros ?; assert (h ∈ (list_to_set hs : gset Z)) by set_solver; set_solver).
  split_and!; [by constructor|by constructor|set_solver|set_solver].
Qed.

Lemma render_batch_owns H context handles :
  context ∈ H → NoDup handles → owns H (list_to_set handles) (render_batch context handles) (λ _, ∅).
Proof.
  intros Hc. induction handles as [|h hs IH]; intros Hn; cbn [render_batch]; [by apply owns_ret|].
  apply NoDup_cons in Hn as [Hh Hn]. cbn [list_to_set].
  assert (h ∉ (list_to_set hs : gset Z)) as Hh' by set_solver.
  eapply owns_call; [apply render_owns; set_solver|apply empty_subseteq|]. intros ? _. cbv beta. own_sets.
  eapply owns_call; [apply evt_drop_owns|set_solver|]. intros ? _. eapply owns_eq; [|by apply IH]. set_solver.
Qed.

Lemma read_ends_owns H : owns H ∅ read_ends (λ _, ∅).
Proof. unfold read_ends. own. Qed.
#[export] Hint Resolve read_ends_owns : owned.

Lemma drain_owns H results context batches :
  results ∈ H → context ∈ H → owns H ∅ (drain results context batches) (λ _, ∅).
Proof.
  intros Hr Hc. induction batches as [|n IH]; cbn [drain]; [own|].
  own_call. own_branch; [own|]. own_call.
  intros B S HB HX HS _. apply safe_hbind. eapply safe_mono; [|apply open_batch_safe; set_solver].
  intros hs S' (Hn & Hv & -> & Hd). replace (list_to_set hs ∪ (∅ ∪ S)) with (list_to_set hs ∪ S : gset Z) by set_solver.
  apply (owns_bind H (list_to_set hs) _ (λ _, ∅) _ (λ _, ∅)); [by apply render_batch_owns|done|done|own_set|done|].
  intros h Hh. rewrite Forall_forall in Hv. apply Hv. set_solver.
Qed.
#[export] Hint Resolve drain_owns : owned.

Lemma wait_or_stop_owns H stop : stop ∈ H → owns H ∅ (wait_or_stop stop) (λ _, ∅).
Proof. intros. unfold wait_or_stop. own. Qed.
#[export] Hint Resolve wait_or_stop_owns : owned.
Lemma reopen_owns H signal stop : signal ∈ H → stop ∈ H → owns H ∅ (reopen signal stop) (from_option singleton ∅).
Proof. intros. unfold reopen. own. Qed.
Lemma wait_both_owns H stop signal : stop ∈ H → signal ∈ H → owns H ∅ (wait_both stop signal) (λ _, ∅).
Proof. intros. unfold wait_both. own. Qed.
#[export] Hint Resolve reopen_owns wait_both_owns : owned.

Lemma run_loop_owns H context signal stop turns subscription :
  context ∈ H → signal ∈ H → stop ∈ H →
  owns H (from_option singleton ∅ subscription) (run_loop context signal stop turns subscription)
    (from_option singleton ∅).
Proof.
  intros Hc Hs Ht. revert subscription. induction turns as [|n turns IH]; intros subscription; cbn [run_loop].
  { destruct subscription; cbn [from_option]; own. }
  own_call. own_branch; [own|].
  assert (∀ X, X = ∅ → owns H X (let! subscription := reopen signal stop in run_loop context signal stop turns subscription)
    (from_option singleton ∅)) as Hre.
  { intros X ->. eapply owns_bind; [by apply reopen_owns|]. exact IH. }
  destruct subscription as [current|]; cbn [from_option]; [|by apply Hre].
  own_call. own_call. destruct a1; [exact (IH (Some current))|]. own_call. own_call. own_branch; [own|]. by apply Hre.
Qed.
#[export] Hint Resolve run_loop_owns : owned.

Lemma run_owns H context signal stop turns subscription :
  stop ∈ H → context ≠ signal → context ≠ subscription → signal ≠ subscription →
  owns H {[context; signal; subscription]} (run context signal stop turns subscription) (from_option singleton ∅).
Proof.
  intros Ht H1 H2 H3. unfold run.
  eapply owns_call; [apply run_loop_owns with (subscription := Some subscription); own_set|cbn; own_set|].
  cbn [from_option]. intros r Hd. own.
Qed.

(** ** The life of a subscription *)

Definition owned_by_thread (o : Opened) : gset Z := {[o_context o; o_signal o; o_subscription o]}.
Definition all_different (o : Opened) : Prop :=
  NoDup [o_context o; o_signal o; o_subscription o; o_stop o; o_thread o] ∧
  all_valid ({[o_stop o; o_thread o]} ∪ owned_by_thread o).

(** What a finished opening leaves: five handles, or nothing. *)
Definition opened_post (S : gset Z) (r : Result Opened Z) (S' : gset Z) : Prop :=
  match r with
  | Ok o => all_different o ∧ S' = {[o_stop o; o_thread o]} ∪ owned_by_thread o ∪ S ∧
            S ## {[o_stop o; o_thread o]} ∪ owned_by_thread o
  | Err _ => S' = S
  end.

(** One call of an opening: what it hands out is new. *)
Ltac opens_next :=
  eapply safe_owns;
  [solve [eauto 3 with owned]|own_set|own_subset|first [apply all_valid_empty|done]
  |cbv beta; intros ? ? ?;
   repeat first [rewrite difference_empty_L in * | rewrite union_empty_r_L in * | rewrite union_empty_l_L in *]].

Ltac own_different :=
  repeat match goal with H : _ ∨ _ |- _ => destruct H as [H|H] end; subst; try done; own_set.

Lemma open_logons_safe B : safe B open_logons ∅ (opened_post ∅).
Proof.
  unfold open_logons. opens_next. destruct a as [context|]; cbn [on_ok] in *; [|cbn; own_set]. unfold holding.
  opens_next. destruct a as [signal|]; cbn [on_ok] in *; [|opens_next; cbn; own_set].
  opens_next. destruct a as [subscription|]; cbn [on_ok] in *; [|do 2 opens_next; cbn; own_set].
  opens_next. destruct a as [stop|]; cbn [on_ok] in *; [|do 3 opens_next; cbn; own_set].
  opens_next. unfold handed in *. destruct (a =? 0); [do 4 opens_next; cbn; own_set|].
  cbn. unfold all_different, owned_by_thread. cbn. split_and!; [| |own_set|own_set].
  - repeat (apply NoDup_cons; split; [intros Hin; rewrite ?elem_of_cons, ?elem_of_nil in Hin; own_different|]). constructor.
  - repeat apply all_valid_union; done.
Qed.

(** Beside what was open before, the handles of the subscription and no others. *)
Definition life_ok (before : gset Z) (l : Life) : Prop :=
  match l with
  | Opening L p => ∃ S, L = before ∪ S ∧ before ## S ∧ safe before p S (opened_post ∅)
  | Running o c =>
      all_different o ∧ before ## {[o_stop o; o_thread o]} ∪ owned_by_thread o ∧
      pair_safe (before ∪ {[o_stop o]}) (λ _ S, S = {[o_thread o]})
        (λ subscription T, T = from_option singleton ∅ subscription ∧ all_valid T) c
  | Ending L p => ∃ S, L = before ∪ S ∧ before ## S ∧ safe before p S (λ _ S', S' = ∅)
  | Over L => L = before
  end.

(** One thread over what was open before. *)
Lemma alone_step {A} (before S : gset Z) (p : hprog A) Q L p' :
  before ## S → safe before p S Q → hstep (before ∪ S, p) (L, p') →
  ∃ S', L = before ∪ S' ∧ before ## S' ∧ safe before p' S' Q.
Proof.
  intros HB Hp Hst. rewrite <- (union_empty_r_L (before ∪ S)) in Hst.
  destruct (safe_step before S ∅ p Q L p' Hp) as (S' & -> & _ & HB' & Hp'); [set_solver|done|done|].
  exists S'. by rewrite union_empty_r_L.
Qed.

Lemma running_ok before o turns :
  all_different o → before ## {[o_stop o; o_thread o]} ∪ owned_by_thread o →
  life_ok before (Running o {| live := before ∪ ({[o_stop o; o_thread o]} ∪ owned_by_thread o);
    left_ := set_stop_event o; right_ := run (o_context o) (o_signal o) (o_stop o) turns (o_subscription o) |}).
Proof.
  intros Hd HB. pose proof Hd as [Hn Hv]. do 2 (split; [done|]). repeat setoid_rewrite NoDup_cons in Hn.
  exists {[o_thread o]}, (owned_by_thread o). unfold owned_by_thread in *. cbn [live left_ right_].
  split_and!; [set_solver|set_solver|set_solver|cbn; set_solver|].
  eapply safe_mono; cycle 1.
  { rewrite <- (union_empty_r_L {[_; _; _]}). apply (run_owns {[o_stop o]}); [set_solver..|].
    eapply all_valid_subseteq; [exact Hv|set_solver]. }
  intros r T (-> & _ & Hr). by rewrite union_empty_r_L.
Qed.

Lemma ending_owns H o subscription :
  o_thread o ≠ o_stop o → {[o_thread o; o_stop o]} ## (from_option singleton ∅ subscription : gset Z) →
  owns H ({[o_stop o; o_thread o]} ∪ from_option singleton ∅ subscription)
    (then! stop_joined o subscription in subscription_drop o) (λ _, ∅).
Proof.
  intros Hne Hd. unfold stop_joined, subscription_drop. destruct subscription as [h|]; cbn [from_option] in *; own.
Qed.

Lemma life_ok_step before l l' : life_step l l' → life_ok before l → life_ok before l'.
Proof.
  intros Hst. destruct Hst as [L p L' p' Hst|L e|L o turns|o c c' Hst|o c sub El Er|L p L' p' Hst|L].
  - intros (S & -> & HB & Hp). by eapply alone_step.
  - intros (S & -> & HB & ->). cbn. by rewrite union_empty_r_L.
  - intros (S & -> & HB & Hd & -> & _). rewrite union_empty_r_L in *. by apply running_ok.
  - intros (Hd & HB & Hc). split_and!; [done..|]. by eapply pair_safe_step.
  - intros ([Hn Hv] & HB & S & T & HL & HST & HBS & HS & HT). rewrite El in HS. rewrite Er in HT.
    cbn in HS. destruct HT as [HT HvT]. subst S T. repeat setoid_rewrite NoDup_cons in Hn.
    exists ({[o_stop o; o_thread o]} ∪ from_option singleton ∅ sub). split_and!; [set_solver|set_solver|].
    eapply safe_mono; cycle 1.
    { rewrite <- (union_empty_r_L (_ ∪ from_option _ _ _)).
      apply (ending_owns ∅); [set_solver..|]. apply all_valid_union; [|done]. eapply all_valid_subseteq; [exact Hv|set_solver]. }
    intros [] S' (-> & _). set_solver.
  - intros (S & -> & HB & Hp). by eapply alone_step.
  - intros (S & -> & HB & ->). cbn. by rewrite union_empty_r_L.
Qed.

Lemma life_ok_no_misuse before l : life_ok before l → ¬ life_misuses l.
Proof.
  destruct l as [L p|o c|L p|L]; cbn; [| | |by intros _ []].
  - intros (S & -> & HB & Hp). rewrite <- (union_empty_r_L (before ∪ S)). by eapply safe_no_misuse.
  - intros (_ & _ & Hc). apply pair_safe_no_misuse in Hc. tauto.
  - intros (S & -> & HB & Hp). rewrite <- (union_empty_r_L (before ∪ S)). by eapply safe_no_misuse.
Qed.

(** C21 The logon subscription leaks no handle and uses none it has closed: from its opening,
    failed or not, through every interleaving of its thread with the stop, whatever reads
    fail and however often the subscription is opened again, to its drop, each call is on
    a handle that is open, and in the end what is open is what was open before. *)
Theorem logon_handles_closed_once before l :
  rtc life_step (Opening before open_logons) l →
  ¬ life_misuses l ∧ (∀ L, l = Over L → L = before).
Proof.
  intros Hl. assert (life_ok before l) as Hok.
  { refine (rtc_ind_r (life_ok before) _ _ _ _ Hl); [|by intros x y _ Hxy IH; eapply life_ok_step].
    exists ∅. split_and!; [set_solver|set_solver|apply open_logons_safe]. }
  split; [by eapply life_ok_no_misuse|]. by intros L ->.
Qed.

(** ** A subscription that reads one record *)

Lemma opening_runs L p L' p' : rtc hstep (L, p) (L', p') → rtc life_step (Opening L p) (Opening L' p').
Proof.
  intros H. apply (rtc_congruence (λ c, Opening c.1 c.2) life_step) in H; [done|].
  intros [L1 p1] [L2 p2] Hst. by apply opens.
Qed.
Lemma ending_runs L p L' p' : rtc hstep (L, p) (L', p') → rtc life_step (Ending L p) (Ending L' p').
Proof.
  intros H. apply (rtc_congruence (λ c, Ending c.1 c.2) life_step) in H; [done|].
  intros [L1 p1] [L2 p2] Hst. by apply ends.
Qed.
Lemma running_runs o c c' : rtc pair_step c c' → rtc life_step (Running o c) (Running o c').
Proof. apply rtc_congruence. intros x y. apply runs. Qed.

Definition sample_opened : Opened :=
  {| o_context := 11; o_signal := 12; o_subscription := 13; o_stop := 14; o_thread := 15 |}.
Definition open_answers : list Z := [11; 12; 0; 13; 14; 15].
(** Woken by the signal; a batch of one record, rendered; no more; then the stop. *)
Definition thread_answers : list Z :=
  [1; 1; 0; 1; 1; 21; 0; 0; 122; 0; 1; 13; 17] ++ repeat 0 7 ++ [0; 0; 259; 0; 0; 0; 0; 0].

Definition sample_thread : hprog (option Z) := run 11 12 14 [1%nat] 13.

Lemma logon_handles_closed_once_witness :
  ∃ L, rtc life_step (Opening {[3]} open_logons) (Over L) ∧ L = {[3]}.
Proof.
  assert (rtc life_step (Opening {[3]} open_logons) (Opening {[3; 11; 12; 13; 14; 15]} (HRet (Ok sample_opened)))) as H1.
  { apply opening_runs, (hrun_steps open_answers). by vm_compute. }
  assert (rtc hstep ({[3; 11; 12; 13; 14; 15]}, sample_thread) ({[3; 13; 14; 15]}, HRet (Some 13))) as H2.
  { apply (hrun_steps thread_answers). by vm_compute. }
  assert (rtc hstep ({[3; 13; 14; 15]}, set_stop_event sample_opened) ({[3; 13; 14; 15]}, HRet tt)) as H3.
  { apply (hrun_steps [0]). by vm_compute. }
  assert (rtc hstep ({[3; 13; 14; 15]}, then! stop_joined sample_opened (Some 13) in subscription_drop sample_opened)
    ({[3]}, HRet tt)) as H4.
  { apply (hrun_steps [0; 0; 0; 0]). by vm_compute. }
  exists {[3]}. assert (rtc life_step (Opening {[3]} open_logons) (Over {[3]})) as H.
  { etrans; [exact H1|]. eapply rtc_l; [apply (open_succeeded _ sample_opened [1%nat])|].
    etrans; [apply running_runs; etrans; [apply right_steps_rtc, H2|apply left_steps_rtc, H3]|].
    eapply rtc_l; [by apply joins|]. etrans; [apply ending_runs, H4|]. apply rtc_once, over. }
  split; [exact H|]. by apply (proj2 (logon_handles_closed_once {[3]} _ H)).
Defined.
