(* ===== verification/EtwSession.v ===== *)
(** * The capture session ([etw/session.rs], [etw/events_lost_impl.rs], the thread of [etw/hygiene.rs])

    The session of the agent's name as the system holds it, its start with and without the
    instance lock, its stop, the hygiene thread, and the two callbacks that read a record
    and dispatch it. What the tracing crate's start does is a parameter with the contract the
    code relies on; what other processes do to the session of the name between the calls
    is an input. Instants are nanoseconds. *)

From S2P Require Import Prelude IpAddr Types Ring Cache Network Dispatch Hygiene.
Open Scope Z_scope.

Definition SESSION_NAME : string := "CGAgent-KernelProcess".
Definition PUMP_JOIN_TIMEOUT : Z := seconds 5.
Definition JOIN_POLL : Z := millis 10.

(** ** The session of the name *)

(** The start whose session of the name runs, if any, and the sessions this process has
    stopped, by the start that created each. *)
Record Host := { owner : option nat; stopped : list nat }.

Definition with_owner (h : Host) (o : option nat) : Host := {| owner := o; stopped := stopped h |}.

Definition ERROR_ACCESS_DENIED : Z := 5.
Definition ERROR_WMI_INSTANCE_NOT_FOUND : Z := 4201.

(** This process: its start's number, and whether its token controls the sessions of
    others. *)
Record Token := { me : nat; controls : bool }.

(** [ControlTraceW(STOP)] by name; [refused] is any other failure of the call. *)
Definition control_trace_stop (p : Token) (refused : option Z) (h : Host) : Z * Host :=
  match refused with
  | Some code => (code, h)
  | None =>
      match owner h with
      | None => (ERROR_WMI_INSTANCE_NOT_FOUND, h)
      | Some o =>
          if controls p || bool_decide (o = me p)
          then (0, {| owner := None; stopped := stopped h ++ [o] |})
          else (ERROR_ACCESS_DENIED, h)
      end
  end.

Definition stop_session (p : Token) (refused : option Z) (h : Host) : Result bool Z * Host :=
  let '(status, h) := control_trace_stop p refused h in
  (if status =? 0 then Ok true
   else if status =? ERROR_WMI_INSTANCE_NOT_FOUND then Ok false
   else Err status, h).

Definition reclaim_zombie (p : Token) (refused : option Z) (h : Host) : Result bool Z * Host :=
  stop_session p refused h.

(** [ControlTraceW(QUERY)]: the status, and the counter it leaves in the properties. *)
Definition events_lost (query : Z * Z) : Result Z Z :=
  if query.1 =? 0 then Ok query.2 else Err query.1.

(** ** Start errors *)

(** [TraceError]: an [io::Error] with its raw code, if any, and its text. *)
Inductive TraceError :=
| IoError (raw_os_error : option Z) (text : string)
| AlreadyExist
| InvalidHandle
| InvalidTraceName.

Section Starts.
Context (system_message : Z → string).

Definition open_error (e : TraceError) : OpenError :=
  match e with
  | IoError (Some raw) _ => from_win32 system_message (win32_from_os_error raw)
  | IoError None text => OpenFailed 0 text
  | AlreadyExist => from_win32 system_message 183
  | InvalidHandle => from_win32 system_message 6
  | InvalidTraceName => OpenFailed 0 "invalid ETW session name"
  end.

(** ** The session *)

(** The hygiene thread's monitors, from its spawn on. *)
Record HygieneThread := { ht_lost : EventsLostMonitor; ht_discarded : DiscardMonitor }.

(** [pump] and [hygiene] are the threads not yet taken by a stop. *)
Record EtwSession := {
  es_ring : EventRing;
  es_cache : gmap Z Z;
  es_discards : NetworkDiscards;
  es_excluded_pid : option Z;
  es_pump : bool;
  es_hygiene : option HygieneThread;
}.

(** What a start meets: the refusals of the two stops by name, what others do to the
    session before [trace.start] and before the stop after a failure, the spawns of the
    two threads, and whether the pump thread died before it reported. *)
Record StartInput := {
  si_reclaim_refused : option Z;
  si_spawned : Result unit string;
  si_before_start : option nat → option nat;
  si_reported : bool;
  si_before_stop : option nat → option nat;
  si_stop_refused : option Z;
  si_hygiene_spawned : Result unit string;
}.

(** The session a start that succeeds returns: without the hygiene thread if it cannot be
    spawned. *)
Definition opened_session (ring_capacity : nat) (excluded_pid : option Z) (hygiene_spawned : Result unit string)
  : EtwSession :=
  {| es_ring := new ring_capacity;
     es_cache := cache_new;
     es_discards := discards_new;
     es_excluded_pid := excluded_pid;
     es_pump := true;
     es_hygiene := match hygiene_spawned with
                   | Ok _ => Some {| ht_lost := lost_new; ht_discarded := discard_monitor_new |}
                   | Err _ => None
                   end |}.

(** [trace.start()]: its result, and the session of the name after it. *)
Context (trace_start : option nat → Result unit TraceError * option nat).
Context (p : Token).

Definition stop_after_failed_start (i : StartInput) (h : Host) : Host :=
  (stop_session p (si_stop_refused i) (with_owner h (si_before_stop i (owner h)))).2.

Definition fail_start (i : StartInput) (mode : StartMode) (raw : OpenError) (h : Host)
  : Result EtwSession OpenError * Host :=
  (Err (with_lock_mode raw mode),
   if must_stop_after_failed_start raw mode then stop_after_failed_start i h else h).

Definition start (i : StartInput) (ring_capacity : nat) (excluded_pid : option Z) (mode : StartMode) (h : Host)
  : Result EtwSession OpenError * Host :=
  let h := match mode with
           | Locked => (reclaim_zombie p (si_reclaim_refused i) h).2
           | Unlocked => h
           end in
  match si_spawned i with
  | Err e => (Err (OpenFailed 0 ("could not spawn the ETW pump thread: " +:+ e)), h)
  | Ok _ =>
      let '(started, o) := trace_start (si_before_start i (owner h)) in
      let h := with_owner h o in
      if si_reported i then
        match started with
        | Ok _ =>
            (Ok (opened_session ring_capacity excluded_pid (si_hygiene_spawned i)), h)
        | Err e => fail_start i mode (open_error e) h
        end
      else fail_start i mode (OpenFailed 0 "the ETW pump thread ended before reporting the session start") h
  end.

Definition open (i : StartInput) (ring_capacity : nat) (mode : StartMode) (h : Host) :=
  start i ring_capacity None mode h.

Definition open_excluding (i : StartInput) (ring_capacity : nat) (excluded_pid : Z) (mode : StartMode) (h : Host) :=
  start i ring_capacity (Some excluded_pid) mode h.
End Starts.

Definition network_records_discarded (s : EtwSession) : Z := discards_total (es_discards s).
Definition first_network_discard (s : EtwSession) : option DiscardSample := discards_first (es_discards s).

(** ** The stop *)

(** What a stop meets: how long the hygiene thread takes to end, the refusal of the stop
    by name, when the pump thread is finished, and how late each sleep ends. *)
Record SessionStop := {
  sp_hygiene_joins : nat;
  sp_refused : option Z;
  sp_finished : Instant → bool;
  sp_late : nat → nat;
}.

(** The wait for the pump thread from the [k]-th sleep on: the instant it ends. A sleep
    lasts at least what it is asked. *)
Fixpoint wait_pump (fuel : nat) (i : SessionStop) (deadline : Instant) (k : nat) (now : Instant) : option Instant :=
  if negb (sp_finished i now) && (now <? deadline) then
    match fuel with
    | O => None
    | S fuel => wait_pump fuel i deadline (S k) (now + JOIN_POLL + Z.of_nat (sp_late i k))
    end
  else Some now.

(** The sleeps that fit before the deadline. *)
Definition PUMP_POLLS : nat := Z.to_nat (PUMP_JOIN_TIMEOUT / JOIN_POLL).

Definition take_threads (s : EtwSession) : EtwSession :=
  {| es_ring := es_ring s; es_cache := es_cache s; es_discards := es_discards s;
     es_excluded_pid := es_excluded_pid s; es_pump := false; es_hygiene := None |}.

(** The session after it, the host, when it returned, and whether it waited for the
    pump and the pump thread was joined. *)
Definition stop (p : Token) (i : SessionStop) (s : EtwSession) (h : Host) (now : Instant)
  : option (EtwSession * Host * Instant * option bool) :=
  let now := match es_hygiene s with Some _ => now + Z.of_nat (sp_hygiene_joins i) | None => now end in
  if es_pump s then
    let h := (stop_session p (sp_refused i) h).2 in
    let deadline := now + PUMP_JOIN_TIMEOUT in
    match wait_pump PUMP_POLLS i deadline 0 now with
    | Some t => Some (take_threads s, h, t, Some (sp_finished i t))
    | None => None
    end
  else Some (take_threads s, h, now, None).

(** [Drop]. *)
Definition drop_session (p : Token) (i : SessionStop) (s : EtwSession) (h : Host) (now : Instant) := stop p i s h now.

(** ** The hygiene thread *)

Definition ERROR_INVALID_PARAMETER : Z := 87.

(** Whether [OpenProcess] gave a handle, and the last error if it did not. *)
Definition process_is_alive (opens : Z → option Z) (pid : Z) : bool :=
  match opens pid with
  | None => true
  | Some last_error => negb (last_error =? ERROR_INVALID_PARAMETER)
  end.

(** What [recv_timeout] answers. *)
Inductive Recv := Timeout | Message | Disconnected.

(** What a pass of the thread meets after a timeout. *)
Record PassInput := {
  pi_opens : Z → option Z;
  pi_at_snapshot : gmap Z Z;
  pi_at_evict : gmap Z Z;
  pi_query : Z * Z;
  pi_discards : NetworkDiscards;
}.

(** The thread's loop over the answers of its channel: the caches it left, one per pass,
    its monitors, and whether it has returned. *)
Fixpoint hygiene_loop (t : HygieneThread) (turns : list (Recv * PassInput))
  : list (gmap Z Z) * HygieneThread * bool :=
  match turns with
  | [] => ([], t, false)
  | (Timeout, i) :: turns =>
      let '(cache, lost, discarded) :=
        hygiene_pass (process_is_alive (pi_opens i)) (pi_at_snapshot i) (pi_at_evict i)
          (events_lost (pi_query i)) (ht_lost t) (ht_discarded t) (pi_discards i) in
      let '(caches, t, ended) := hygiene_loop {| ht_lost := lost; ht_discarded := discarded |} turns in
      (cache :: caches, t, ended)
  | _ :: _ => ([], t, true)
  end.

(** ** The callbacks *)

(** A record with what the schema lookup and the parser make of its properties. *)
Record EventRecord := {
  er_event_id : Z;
  er_raw_timestamp : Z;
  er_schema : bool;
  er_u32 : string → option Z;
  er_i32 : string → option Z;
  er_string : string → option string;
  er_bytes : string → option (list Byte.byte);
}.

Definition raw_process (activity_id : ActivityId) (r : EventRecord) : RawProcessRecord :=
  {| rp_activity_id := activity_id;
     rp_pid := default 0 (er_u32 r "ProcessID");
     rp_parent_pid := default 0 (er_u32 r "ParentProcessID");
     rp_image_file_name := default "" (er_string r "ImageName");
     rp_command_line := default "" (er_string r "CommandLine");
     rp_subject_user_sid := default "" (er_string r "UserSID");
     rp_filetime_100ns := er_raw_timestamp r;
     rp_exit_status := match activity_id with Terminate => er_i32 r "ExitCode" | Launch => None end |}.

Definition dispatch_callback (uuid : string) (now : Instant) (r : EventRecord) (ring : EventRing) (cache : gmap Z Z)
  : gmap Z Z * EventRing :=
  match (if er_event_id r =? 1 then Some Launch else if er_event_id r =? 2 then Some Terminate else None) with
  | None => (cache, ring)
  | Some activity_id =>
      if er_schema r then dispatch_record uuid now (raw_process activity_id r) cache ring else (cache, ring)
  end.

Definition raw_network (r : EventRecord) : RawNetworkRecord :=
  let field name := default [] (er_bytes r name) in
  {| rn_event_id := er_event_id r;
     rn_pid := field "PID";
     rn_saddr := field "saddr";
     rn_daddr := field "daddr";
     rn_sport := field "sport";
     rn_dport := field "dport";
     rn_filetime_100ns := er_raw_timestamp r |}.

Definition network_callback (uuid : string) (now : Instant) (r : EventRecord) (excluded_pid : option Z)
    (ring : EventRing) (cache : gmap Z Z) (discards : NetworkDiscards) : EventRing * NetworkDiscards :=
  match connection_direction (er_event_id r) with
  | None => (ring, discards_record discards (er_event_id r) [0; 0; 0; 0; 0])
  | Some _ =>
      if er_schema r then dispatch_network_record uuid now (raw_network r) excluded_pid cache ring discards
      else (ring, discards_record discards (er_event_id r) [0; 0; 0; 0; 0])
  end.

(** The two providers' records, each with the identifier and the time of its event. *)
Inductive Delivered := FromProcess (r : EventRecord) | FromNetwork (r : EventRecord).

Definition deliver (s : EtwSession) (d : string * Instant * Delivered) : EtwSession :=
  let '(uuid, now, d) := d in
  match d with
  | FromProcess r =>
      let '(cache, ring) := dispatch_callback uuid now r (es_ring s) (es_cache s) in
      {| es_ring := ring; es_cache := cache; es_discards := es_discards s; es_excluded_pid := es_excluded_pid s;
         es_pump := es_pump s; es_hygiene := es_hygiene s |}
  | FromNetwork r =>
      let '(ring, discards) :=
        network_callback uuid now r (es_excluded_pid s) (es_ring s) (es_cache s) (es_discards s) in
      {| es_ring := ring; es_cache := es_cache s; es_discards := discards; es_excluded_pid := es_excluded_pid s;
         es_pump := es_pump s; es_hygiene := es_hygiene s |}
  end.

Definition deliver_all (s : EtwSession) (l : list (string * Instant * Delivered)) : EtwSession := fold_left deliver l s.

(** ** Without a capture backend *)

(** The session and the helpers of the builds for other systems. *)
Definition stub_open (ring_capacity : nat) (mode : StartMode) : Result EtwSession OpenError := Err Unsupported.
Definition stub_open_excluding (ring_capacity : nat) (excluded_pid : Z) (mode : StartMode) : Result EtwSession OpenError :=
  Err Unsupported.
Definition stub_records_discarded (s : EtwSession) : Z := 0.
Definition stub_first_discard (s : EtwSession) : option DiscardSample := None.
Definition stub_stop (s : EtwSession) : EtwSession := s.
Definition stub_stop_session (session_name : string) : Result bool Z := Ok false.
Definition stub_reclaim_zombie (session_name : string) : Result bool Z := Ok false.
Definition stub_events_lost (session_name : string) : Result Z Z := Err 0.

(** ** What the start relies on *)

(** What the tracing crate and [StartTraceW] document of a start: it succeeds only on a
    free name, and then the session is its own; while the name is taken it fails, leaves
    the session alone, and not for a missing privilege ([ERROR_ALREADY_EXISTS]); on a free
    name a failure leaves nothing or, if enabling a provider failed, the session it
    created. *)
Record trace_contract (system_message : Z → string) (p : Token)
    (trace_start : option nat → Result unit TraceError * option nat) : Prop := {
  tc_taken x : ∃ e, trace_start (Some x) = (Err e, Some x) ∧ is_privilege (open_error system_message e) = false;
  tc_started o : trace_start None = (Ok tt, o) → o = Some (me p);
  tc_failed e o : trace_start None = (Err e, o) → o = None ∨ o = Some (me p);
}.

Lemma control_stop_cases p refused h :
  stop_session p refused h = (Ok true, {| owner := None; stopped := stopped h ++ option_list (owner h) |}) ∨
  (stop_session p refused h).2 = h.
Proof.
  unfold stop_session, control_trace_stop. destruct refused as [code|]; [by right; destruct (_ =? _)|].
  destruct (owner h) as [o|]; [|by right]. destruct (controls p || _); [by left|by right].
Qed.

(** A stop that is not refused leaves no session of the name, for a token that controls
    them or whose own it is. *)
Lemma stop_clears p h : controls p = true ∨ owner h = Some (me p) → owner (stop_session p None h).2 = None.
Proof.
  intros Hc. unfold stop_session, control_trace_stop. destruct (owner h) as [o|] eqn:Eo; [|done].
  destruct Hc as [-> | [= ->]]; [done|]. rewrite bool_decide_eq_true_2 by done. by rewrite orb_true_r.
Qed.

(** A token that does not control sessions stops only its own. *)
Lemma stop_own p refused h :
  controls p = false ∨ owner h = None ∨ owner h = Some (me p) →
  Forall (λ o, o = me p) (stopped h) → Forall (λ o, o = me p) (stopped (stop_session p refused h).2).
Proof.
  intros Hc Hs. unfold stop_session, control_trace_stop. destruct refused; [done|].
  destruct (owner h) as [o|] eqn:E; [|done]. destruct (controls p) eqn:Ec; cbn.
  - apply Forall_app. split; [done|]. destruct Hc as [?|[?|[= ->]]]; [done..|]. by repeat constructor.
  - case_bool_decide; cbn; [|done]. apply Forall_app. split; [done|]. by repeat constructor.
Qed.

Section Contract.
Context (system_message : Z → string) (p : Token).
Context (trace_start : option nat → Result unit TraceError * option nat).
Hypothesis Htrace : trace_contract system_message p trace_start.

(** After a failed [trace.start] whose error is one of privilege, the session of the name
    is this start's or there is none. *)
Lemma privilege_failure_own o e o' :
  trace_start o = (Err e, o') → is_privilege (open_error system_message e) = true → o' = None ∨ o' = Some (me p).
Proof.
  destruct o as [x|]; intros E Hp; [|by apply (tc_failed _ _ _ Htrace e)].
  destruct (tc_taken _ _ _ Htrace x) as (e' & E' & Hf). rewrite E' in E. simplify_eq. congruence.
Qed.

(** C17 A start without the instance lock never stops a session it did not create: whatever
    the calls answer, from any session of the name, an unlocked start stops no session or
    its own. It holds for every token when nothing else touches the session between its
    calls, and for a token that controls no sessions (the only kind that goes on without
    the lock) whatever else happens meanwhile. A start refused because the name is
    taken reports a missing privilege and leaves the session running. *)
Theorem unlocked_start_stops_only_own (i : StartInput) (ring_capacity : nat) (excluded_pid : option Z) (h : Host) :
  controls p = false ∨ (∀ o, si_before_stop i o = o) →
  stopped h = [] →
  let '(r, h') := start system_message trace_start p i ring_capacity excluded_pid Unlocked h in
  Forall (λ o, o = me p) (stopped h') ∧
  (∀ x, si_spawned i = Ok tt → si_reported i = true → si_before_start i (owner h) = Some x →
    trace_start (Some x) = (Err AlreadyExist, Some x) →
    r = Err PrivilegeNotHeld ∧ h' = {| owner := Some x; stopped := [] |}).
Proof.
  intros Hquiet Hs. unfold start. destruct (si_spawned i) as [[]|e]; [|by rewrite Hs].
  destruct (trace_start (si_before_start i (owner h))) as [r o] eqn:E.
  destruct (si_reported i).
  2: { cbn. rewrite Hs. split; [done|]. intros x _ [=]. }
  destruct r as [[]|e]; cbn [fst snd].
  { cbn. rewrite Hs. split; [done|]. intros x _ _ Hx Hx'. rewrite Hx, Hx' in E. done. }
  unfold fail_start, must_stop_after_failed_start. split.
  - destruct (is_privilege _) eqn:Hp; [|by cbn; rewrite Hs].
    apply stop_own; [|by cbn; rewrite Hs]. destruct Hquiet as [Hc|Hq]; [by left|right]. cbn. rewrite Hq.
    by eapply privilege_failure_own.
  - intros x _ _ Hx Hx'. rewrite Hx, Hx' in E. simplify_eq. cbn. unfold with_owner. by rewrite Hs.
Qed.

(** What a start with the lock leaves behind. *)
Lemma locked_start_outcome (i : StartInput) (ring_capacity : nat) (excluded_pid : option Z) (h : Host) :
  controls p = true → si_reclaim_refused i = None → si_stop_refused i = None →
  (∀ o, si_before_start i o = o) → (∀ o, si_before_stop i o = o) →
  let '(r, h') := start system_message trace_start p i ring_capacity excluded_pid Locked h in
  match r with
  | Ok s => owner h' = Some (me p) ∧ es_pump s = true ∧ es_ring s = new ring_capacity ∧ es_cache s = ∅ ∧
            es_excluded_pid s = excluded_pid
  | Err _ => owner h' = None
  end ∧
  ((∃ s, r = Ok s) ↔ si_spawned i = Ok tt ∧ si_reported i = true ∧ ∃ o, trace_start None = (Ok tt, o)).
Proof.
  intros Hc Hr Hs Hi1 Hi2. unfold start, reclaim_zombie. rewrite Hr. pose proof (stop_clears p h (or_introl Hc)) as H0.
  destruct (si_spawned i) as [[]|e]; [|split; [done|]; naive_solver].
  rewrite Hi1, H0. destruct (trace_start None) as [r o] eqn:E.
  assert (∀ raw h1, owner (fail_start p i Locked raw h1).2 = None) as Hf.
  { intros raw h1. unfold fail_start, stop_after_failed_start. cbn. rewrite Hs. apply stop_clears. by left. }
  destruct (si_reported i).
  2: { specialize (Hf (OpenFailed 0 "the ETW pump thread ended before reporting the session start")
                      (with_owner (stop_session p None h).2 o)). cbn in *. split; [exact Hf|]. naive_solver. }
  destruct r as [[]|e].
  - cbn. apply (tc_started _ _ _ Htrace) in E. subst o. split; [done|]. naive_solver.
  - specialize (Hf (open_error system_message e) (with_owner (stop_session p None h).2 o)). cbn in *.
    split; [exact Hf|]. naive_solver.
Qed.
(** A start that holds the lock settles the session of its name: whatever session an
    earlier run left, if its token controls sessions, the stops by name are not
    refused and nothing else touches the session meanwhile, then a start that succeeds
    runs its own session, with its pump, an empty ring and cache; one that fails leaves
    no session of the name; and it fails only when a spawn, the report or [trace.start] on a
    free name fails, never for the session left behind. *)
Theorem locked_start_settles (i : StartInput) (ring_capacity : nat) (excluded_pid : option Z) (h : Host) :
  controls p = true → si_reclaim_refused i = None → si_stop_refused i = None →
  (∀ o, si_before_start i o = o) → (∀ o, si_before_stop i o = o) →
  let '(r, h') := start system_message trace_start p i ring_capacity excluded_pid Locked h in
  match r with
  | Ok s => owner h' = Some (me p) ∧ es_pump s = true ∧ es_ring s = new ring_capacity ∧ es_cache s = ∅ ∧
            es_excluded_pid s = excluded_pid
  | Err _ => owner h' = None
  end ∧
  ((∃ s, r = Ok s) ↔ si_spawned i = Ok tt ∧ si_reported i = true ∧ ∃ o, trace_start None = (Ok tt, o)).
Proof. apply locked_start_outcome. Qed.
End Contract.

(** ** The stop's end *)

(** The wait ends soon after any instant from which the pump is finished or the deadline
    has passed. *)
Lemma wait_pump_ends i deadline bound late : (∀ k, (sp_late i k ≤ late)%nat) →
  (∀ u, bound ≤ u → sp_finished i u = true ∨ deadline ≤ u) →
  ∀ fuel k now, deadline - now ≤ Z.of_nat fuel * JOIN_POLL →
  ∃ t, wait_pump fuel i deadline k now = Some t ∧ (sp_finished i t = true ∨ deadline ≤ t) ∧
       now ≤ t ≤ Z.max now (bound + JOIN_POLL + Z.of_nat late).
Proof.
  intros Hlate Hbound. induction fuel as [|fuel IH]; intros k now Hf; cbn [wait_pump];
    destruct (sp_finished i now) eqn:En; cbn [negb andb]; try (exists now; naive_solver lia);
    destruct (Z.ltb_spec now deadline); try (exists now; split; [done|]; split; [by right|lia]).
  - lia.
  - destruct (IH (S k) (now + JOIN_POLL + Z.of_nat (sp_late i k))) as (t & Ht & He & Hb); [lia|].
    exists t. split; [done|]. split; [done|]. specialize (Hlate k).
    assert (now < bound); [|unfold JOIN_POLL, millis in *; lia].
    destruct (Z.lt_ge_cases now bound) as [|Hge]; [done|]. destruct (Hbound now Hge); [congruence|lia].
Qed.

Lemma wait_pump_returns i deadline fuel k now :
  deadline - now ≤ Z.of_nat fuel * JOIN_POLL → is_Some (wait_pump fuel i deadline k now).
Proof.
  revert k now. induction fuel as [|fuel IH]; intros k now Hf; cbn [wait_pump];
    destruct (sp_finished i now); cbn [negb andb]; try done; destruct (Z.ltb_spec now deadline); try done; [lia|].
  apply IH. lia.
Qed.

(** Every stop returns; it has stopped the session of the name unless that was refused. *)
Lemma stop_returns p i s h now : ∃ s' h' t w, stop p i s h now = Some (s', h', t, w) ∧
  (es_pump s = true → sp_refused i = None → controls p = true ∨ owner h = Some (me p) → owner h' = None).
Proof.
  unfold stop. destruct (es_pump s); [|by do 4 eexists].
  edestruct wait_pump_returns as [t ->].
  { change (Z.of_nat PUMP_POLLS * JOIN_POLL) with PUMP_JOIN_TIMEOUT. lia. }
  do 4 eexists. split; [done|]. intros _ -> Hc. by apply stop_clears.
Qed.

(** C22 Stopping the capture always ends, in time and once: from any state, and also when
    the pump thread never ends ([ends] is [None]), the stop returns within the hygiene
    thread's join plus five seconds plus one sleep, the stop call's own time aside, and
    sooner if the pump thread ends sooner; it gives the pump up only after the five seconds,
    and always does if the pump never ends; its own session of the name no longer runs,
    unless the call was refused; the events in the ring are kept; and a later stop, the one
    of [Drop] included, returns at once and leaves the session of the name alone, whoever
    holds it by then. A sleep is at most [late] longer than asked for. *)
Theorem stop_ends_once (p : Token) (i : SessionStop) (s : EtwSession) (h : Host) (now : Instant)
    (ends : option Instant) (late : nat) :
  (∀ k, (sp_late i k ≤ late)%nat) →
  (∀ u, sp_finished i u = true ↔ ∃ e, ends = Some e ∧ e ≤ u) →
  let joined := now + match es_hygiene s with Some _ => Z.of_nat (sp_hygiene_joins i) | None => 0 end in
  let over := match ends with
              | Some e => Z.min e (joined + PUMP_JOIN_TIMEOUT) | None => joined + PUMP_JOIN_TIMEOUT end in
  ∃ s' h' t waited, stop p i s h now = Some (s', h', t, waited) ∧
    t ≤ Z.max joined (over + JOIN_POLL + Z.of_nat late) ∧
    (waited = Some false → joined + PUMP_JOIN_TIMEOUT ≤ t) ∧
    (es_pump s = true → ends = None → waited = Some false) ∧
    (es_pump s = true → sp_refused i = None → controls p = true ∨ owner h = Some (me p) → owner h' = None) ∧
    es_ring s' = es_ring s ∧ es_discards s' = es_discards s ∧
    (∀ i2 h2 now2, drop_session p i2 s' h2 now2 = Some (s', h2, now2, None)).
Proof.
  intros Hlate Hends joined over. unfold stop.
  replace (match es_hygiene s with Some _ => now + Z.of_nat (sp_hygiene_joins i) | None => now end)
    with joined by (unfold joined; destruct (es_hygiene s); lia).
  destruct (es_pump s).
  - destruct (wait_pump_ends i (joined + PUMP_JOIN_TIMEOUT) over late Hlate)
      with (fuel := PUMP_POLLS) (k := 0%nat) (now := joined) as (t & -> & He & Ht).
    { intros u Hu. unfold over in Hu. destruct ends as [e|]; [|by right].
      destruct (Z.le_gt_cases e u); [left; apply Hends; eauto|right; lia]. }
    { change (Z.of_nat PUMP_POLLS * JOIN_POLL) with PUMP_JOIN_TIMEOUT. lia. }
    do 4 eexists. split; [done|]. split; [lia|]. split.
    { intros [= Hfin]. destruct He; [congruence|done]. }
    split. { intros _ ->. f_equal. apply not_true_iff_false. intros (e & ? & _)%Hends. done. }
    split; [|done]. intros _ -> Hc. by apply stop_clears.
  - do 4 eexists. split; [done|]. split; [lia|]. done.
Qed.

(** ** What becomes of the records *)

(** What a network record amounts to, by its own fields: the connection it reports, one of
    the excluded process, one from before 1970, or not a usable connection. *)
Inductive Fate := Reports (c : DecodedConnection) (etw_timestamp_nanos : Z) | OfExcluded | Undated | NotUsable.

Definition network_fate (excluded_pid : option Z) (r : EventRecord) : Fate :=
  let raw := raw_network r in
  if negb (er_schema r) || bool_decide (er_event_id r ∉ CONNECTION_EVENT_IDS) then NotUsable
  else if bool_decide (is_Some excluded_pid ∧ decode_pid (rn_pid raw) = excluded_pid) then OfExcluded
  else match decode_connection (er_event_id r) (rn_pid raw) (rn_saddr raw) (rn_daddr raw) (rn_sport raw)
               (rn_dport raw), filetime_to_unix_nanos (er_raw_timestamp r) with
       | None, _ => NotUsable
       | Some _, None => Undated
       | Some c, Some t => Reports c t
       end.

(** The launch or termination a process record says, if it has a schema. *)
Definition process_said (r : EventRecord) : option RawProcessRecord :=
  if er_schema r then
    if er_event_id r =? 1 then Some (raw_process Launch r)
    else if er_event_id r =? 2 then Some (raw_process Terminate r) else None
  else None.

Definition said (d : string * Instant * Delivered) : option RawProcessRecord :=
  match d.2 with FromProcess r => process_said r | FromNetwork _ => None end.

(** The event of one record, given the process records before it. *)
Definition event_of (excluded_pid : option Z) (before : list RawProcessRecord) (d : string * Instant * Delivered)
  : option RingEvent :=
  match d.2 with
  | FromProcess r =>
      match process_said r with
      | None => None
      | Some raw =>
          match filetime_to_unix_nanos (rp_filetime_100ns raw) with
          | None => None
          | Some t => Some (Process {|
              ce_pid := rp_pid raw; ce_event_id := d.1.1; ce_activity_id := rp_activity_id raw;
              ce_image_file_name := rp_image_file_name raw; ce_parent_pid := rp_parent_pid raw;
              ce_command_line := rp_command_line raw; ce_subject_user_sid := rp_subject_user_sid raw;
              ce_etw_timestamp_nanos := t;
              ce_created_time_nanos :=
                match rp_activity_id raw with Launch => Some t | Terminate => live_launch (rp_pid raw) None before end;
              ce_exit_status := rp_exit_status raw |})
          end
      end
  | FromNetwork r =>
      match network_fate excluded_pid r with
      | Reports c t => Some (Network {|
          ne_event_id := d.1.1; ne_pid := dc_pid c; ne_direction := dc_direction c; ne_src := dc_src c;
          ne_dst := dc_dst c; ne_etw_timestamp_nanos := t;
          ne_created_time_nanos := live_launch (dc_pid c) None before |})
      | _ => None
      end
  end.

(** The events of the records, in order. *)
Fixpoint events_of (excluded_pid : option Z) (before : list RawProcessRecord) (l : list (string * Instant * Delivered))
  : list RingOp :=
  match l with
  | [] => []
  | d :: l => match event_of excluded_pid before d with Some e => [Enqueue d.1.2 e] | None => [] end ++
              events_of excluded_pid (before ++ option_list (said d)) l
  end.

Definition discarded (excluded_pid : option Z) (d : string * Instant * Delivered) : Prop :=
  match d.2 with FromNetwork r => network_fate excluded_pid r = NotUsable | FromProcess _ => False end.

#[export] Instance discarded_dec excluded_pid d : Decision (discarded excluded_pid d).
Proof.
  destruct d as [x [r|r]]; unfold discarded; cbn; [by right; intros []|].
  destruct (network_fate excluded_pid r); (by left) || (by right).
Defined.

Lemma live_launch_app pid o l1 l2 : live_launch pid o (l1 ++ l2) = live_launch pid (live_launch pid o l1) l2.
Proof. revert o. by induction l1 as [|r l1 IH]; intros o; cbn; [|rewrite IH]. Qed.

(** The cache holds what the process records so far say. *)
Definition cache_says (c : gmap Z Z) (before : list RawProcessRecord) : Prop :=
  ∀ pid, c !! pid = live_launch pid None before.

Lemma deliver_process s before uuid now r : cache_says (es_cache s) before →
  let d := (uuid, now, FromProcess r) in
  let s' := deliver s d in
  cache_says (es_cache s') (before ++ option_list (said d)) ∧ es_discards s' = es_discards s ∧
  es_excluded_pid s' = es_excluded_pid s ∧
  es_ring s' = match event_of (es_excluded_pid s) before d with
               | Some e => enqueue_or_drop (es_ring s) now e | None => es_ring s end.
Proof.
  intros Hc. unfold deliver, dispatch_callback, event_of, said, process_said. cbn.
  destruct (er_event_id r =? 1), (er_event_id r =? 2), (er_schema r); cbn [option_list]; rewrite ?app_nil_r; try done.
  all: match goal with |- context [dispatch_record ?u ?n ?raw ?c ?q] =>
    pose proof (λ pid, dispatch_record_cache u n raw c q pid) as Hd;
    destruct (dispatch_record u n raw c q) as [c' q'] eqn:Eq end; cbn in Hd |- *.
  all: split; [intros pid; rewrite live_launch_app, Hd, Hc; done|].
  all: unfold dispatch_record in Eq; cbn in Eq; rewrite <- ?Hc; destruct (filetime_to_unix_nanos _); by simplify_eq.
Qed.

Lemma network_callback_fate uuid now r excluded_pid ring cache discards :
  let '(ring', d') := network_callback uuid now r excluded_pid ring cache discards in
  match network_fate excluded_pid r with
  | Reports c t =>
      d' = discards ∧ ring' = enqueue_or_drop ring now (Network
        {| ne_event_id := uuid; ne_pid := dc_pid c; ne_direction := dc_direction c; ne_src := dc_src c;
           ne_dst := dc_dst c; ne_etw_timestamp_nanos := t; ne_created_time_nanos := cache !! dc_pid c |})
  | NotUsable => ring' = ring ∧ discards_total d' = wrap_u 64 (discards_total discards + 1)
  | _ => ring' = ring ∧ d' = discards
  end.
Proof.
  unfold network_callback, network_fate.
  pose proof (network_record_outcome uuid now (raw_network r) excluded_pid cache ring discards) as H.
  cbn [rn_event_id rn_filetime_100ns raw_network] in H.
  pose proof (connection_ids (er_event_id r)) as Hids.
  destruct (connection_direction (er_event_id r)) as [dir|] eqn:Ed.
  2: { rewrite (bool_decide_eq_true_2 (er_event_id r ∉ CONNECTION_EVENT_IDS)), orb_true_r by tauto. done. }
  assert (¬ (er_event_id r ∉ CONNECTION_EVENT_IDS)) as Hin by (intros Hn; apply Hids in Hn; done).
  rewrite (bool_decide_eq_false_2 _ Hin). destruct (er_schema r); cbn [negb orb]; [|done].
  destruct (dispatch_network_record _ _ _ _ _ _ _) as [ring' d']. rewrite decide_False in H by done.
  case_bool_decide as Hx; [by rewrite decide_True in H by done|rewrite decide_False in H by done].
  destruct (decode_connection _ _ _ _ _ _) as [c|]; [|by destruct H as [-> ->]].
  by destruct (filetime_to_unix_nanos _).
Qed.

Lemma deliver_network s before uuid now r : cache_says (es_cache s) before →
  let d := (uuid, now, FromNetwork r) in
  let s' := deliver s d in
  es_cache s' = es_cache s ∧ es_excluded_pid s' = es_excluded_pid s ∧
  discards_total (es_discards s') =
    (if decide (discarded (es_excluded_pid s) d) then wrap_u 64 (discards_total (es_discards s) + 1)
     else discards_total (es_discards s)) ∧
  es_ring s' = match event_of (es_excluded_pid s) before d with
               | Some e => enqueue_or_drop (es_ring s) now e | None => es_ring s end.
Proof.
  intros Hc d. unfold deliver, event_of. cbn [d fst snd].
  pose proof (network_callback_fate uuid now r (es_excluded_pid s) (es_ring s) (es_cache s) (es_discards s)) as H.
  destruct (network_callback _ _ _ _ _ _ _) as [ring' d'].
  assert (discarded (es_excluded_pid s) d ↔ network_fate (es_excluded_pid s) r = NotUsable) as Hu by done.
  destruct (network_fate _ _) eqn:Ef; [rewrite decide_False by (rewrite Hu; done)..|rewrite decide_True by (by rewrite Hu)];
    destruct H as [H1 H2]; cbn [es_cache es_excluded_pid es_discards es_ring]; rewrite H1, H2, <- ?Hc; done.
Qed.

Lemma ring_run_after r l1 l2 : (ring_run r (l1 ++ l2)).2 = (ring_run (ring_run r l1).2 l2).2.
Proof.
  revert r. induction l1 as [|op l1 IH]; intros r; [done|]. cbn [app ring_run]. destruct (ring_step r op) as [o r1].
  specialize (IH r1). destruct (ring_run r1 l1), (ring_run r1 (l1 ++ l2)). exact IH.
Qed.

Lemma deliver_all_accounts l excluded_pid s before n :
  es_excluded_pid s = excluded_pid → cache_says (es_cache s) before →
  network_records_discarded s = wrap_u 64 n →
  let s' := deliver_all s l in
  es_ring s' = (ring_run (es_ring s) (events_of excluded_pid before l)).2 ∧
  network_records_discarded s' = wrap_u 64 (n + Z.of_nat (length (filter (discarded excluded_pid) l))) ∧
  cache_says (es_cache s') (before ++ omap said l).
Proof.
  revert s before n. induction l as [|d l IH]; intros s before n Hx Hc Hn; cbn zeta.
  { cbn. rewrite app_nil_r, Z.add_0_r. done. }
  assert (∃ n', es_excluded_pid (deliver s d) = excluded_pid ∧
    cache_says (es_cache (deliver s d)) (before ++ option_list (said d)) ∧
    network_records_discarded (deliver s d) = wrap_u 64 n' ∧
    n' + Z.of_nat (length (filter (discarded excluded_pid) l)) =
      n + Z.of_nat (length (filter (discarded excluded_pid) (d :: l))) ∧
    es_ring (deliver s d) = match event_of excluded_pid before d with
                            | Some e => enqueue_or_drop (es_ring s) d.1.2 e | None => es_ring s end)
    as (n' & Hx' & Hc' & Hn' & Hl & Hr).
  { rewrite filter_cons. destruct d as [[uuid now] [r|r]]; unfold network_records_discarded.
    - destruct (deliver_process s before uuid now r Hc) as (A & B & C & D). rewrite Hx in *.
      exists n. rewrite B, C, decide_False by (intros []). done.
    - destruct (deliver_network s before uuid now r Hc) as (A & B & C & D). rewrite Hx in *.
      rewrite A, B, C. cbn [said snd option_list]. rewrite app_nil_r. unfold network_records_discarded in Hn.
      rewrite Hn. case_decide; [exists (n + 1)|exists n]; (split; [done|]); (split; [done|]);
        rewrite ?wrap_u_add_l by lia; cbn [length]; (split; [done|]); (split; [lia|done]). }
  destruct (IH _ _ _ Hx' Hc' Hn') as (I1 & I2 & I3). cbn [deliver_all fold_left events_of omap list_omap].
  unfold deliver_all in *. rewrite I1, I2, Hl, Hr, ring_run_after. split; [|split; [done|]].
  - by destruct (event_of excluded_pid before d).
  - revert I3. rewrite <- app_assoc. by destruct (said d).
Qed.

(** C18 Every record the session delivers is accounted for, once: from an opened session,
    over any interleaving of the two providers' records, the ring is what the events of the
    records make of it, in the order delivered, each with the creation time the process
    records before it say; every network record is reported, of the excluded process,
    from before 1970, or counted as discarded, and the count of discards is the number of
    the last. *)
Theorem capture_accounts (ring_capacity : nat) (excluded_pid : option Z) (hygiene_spawned : Result unit string)
    (l : list (string * Instant * Delivered)) :
  let s := deliver_all (opened_session ring_capacity excluded_pid hygiene_spawned) l in
  es_ring s = (ring_run (new ring_capacity) (events_of excluded_pid [] l)).2 ∧
  network_records_discarded s = wrap_u 64 (Z.of_nat (length (filter (discarded excluded_pid) l))) ∧
  (∀ pid, created_time (es_cache s) pid = live_launch pid None (omap said l)).
Proof.
  destruct (deliver_all_accounts l excluded_pid (opened_session ring_capacity excluded_pid hygiene_spawned) [] 0)
    as (H1 & H2 & H3); [done..|]. cbn zeta. by rewrite H1, H2.
Qed.

(** ** The hygiene thread's loop *)

(** The timeouts before the first message or the end of the channel. *)
Fixpoint timeouts (turns : list (Recv * PassInput)) : list PassInput :=
  match turns with (Timeout, i) :: turns => i :: timeouts turns | _ => [] end.

(** The hygiene thread makes one pass per timeout, none after it is told to stop or the
    session is gone, and a pass takes no creation time of a live process from the cache: what
    is live for the probe keeps its entry. *)
Lemma hygiene_passes t turns :
  let '(caches, _, ended) := hygiene_loop t turns in
  length caches = length (timeouts turns) ∧
  (ended = true ↔ ∃ a, a ∈ turns.*1 ∧ a ≠ Timeout) ∧
  Forall2 (λ c i, ∀ pid, process_is_alive (pi_opens i) pid = true → c !! pid = pi_at_evict i !! pid)
    caches (timeouts turns).
Proof.
  revert t. induction turns as [|[[] i] turns IH]; intros t; cbn [hygiene_loop timeouts].
  - split; [done|]. split; [|constructor]. split; [done|]. intros (a & H%elem_of_nil & _). done.
  - unfold hygiene_pass.
    pose proof (sweep_evicts_exactly (process_is_alive (pi_opens i)) (pi_at_snapshot i) (pi_at_evict i)) as Hsw.
    destruct (sweep_between _ _ _) as [n c].
    match goal with |- context [hygiene_loop ?t' turns] => specialize (IH t') end.
    destruct (hygiene_loop _ turns) as [[caches t'] ended]. destruct IH as (H1 & H2 & H3).
    split; [cbn; by rewrite H1|]. split.
    + rewrite H2. cbn. setoid_rewrite elem_of_cons. naive_solver.
    + constructor; [|done]. intros pid Hp. destruct Hsw as [Hsw _]. rewrite Hsw, decide_False; [done|].
      intros [Hd _]. congruence.
  - split; [done|]. split; [|constructor]. split; [|done]. intros _. exists Message. split; [left|done].
  - split; [done|]. split; [|constructor]. split; [|done]. intros _. exists Disconnected. split; [left|done].
Qed.

(** ** Witnesses *)

(** A system whose provider is refused to this start after its session was created, and
    one where the start succeeds. *)
Module ToyTrace.
Definition refusing (o : option nat) : Result unit TraceError * option nat :=
  match o with
  | Some x => (Err AlreadyExist, Some x)
  | None => (Err (IoError (Some (u32_as_i32 0x80070005)) "Access is denied."), Some 7%nat)
  end.
Definition granting (o : option nat) : Result unit TraceError * option nat :=
  match o with Some x => (Err AlreadyExist, Some x) | None => (Ok tt, Some 7%nat) end.

Definition no_message (_ : Z) : string := "".
Definition token (controls : bool) : Token := {| me := 7; controls := controls |}.

Lemma refusing_contract b : trace_contract no_message (token b) refusing.
Proof. split; [intros x; eexists; by split|done|]. intros e o [= <- <-]. by right. Qed.
Lemma granting_contract b : trace_contract no_message (token b) granting.
Proof. split; [intros x; eexists; by split| |done]. by intros o [= <-]. Qed.

Definition quiet : StartInput :=
  {| si_reclaim_refused := None; si_spawned := Ok tt; si_before_start := id; si_reported := true;
     si_before_stop := id; si_stop_refused := None; si_hygiene_spawned := Ok tt |}.
(** Another start takes the name before the stop. *)
Definition raced : StartInput :=
  {| si_reclaim_refused := None; si_spawned := Ok tt; si_before_start := id; si_reported := true;
     si_before_stop := λ _, Some 3%nat; si_stop_refused := None; si_hygiene_spawned := Ok tt |}.
Definition host (o : option nat) : Host := {| owner := o; stopped := [] |}.
End ToyTrace.

(** A start without the lock that fails otherwise than for a privilege leaves the session it
    created running. *)
Example unlocked_failure_leaves_session :
  let trace_start o := match o with
                       | Some x => (Err AlreadyExist, Some x)
                       | None => (Err (IoError (Some 1450) ""), Some 7%nat)
                       end in
  start ToyTrace.no_message trace_start (ToyTrace.token true) ToyTrace.quiet 8 None Unlocked (ToyTrace.host None)
    = (Err (OpenFailed 1450 ""), {| owner := Some 7%nat; stopped := [] |}).
Proof. by vm_compute. Qed.

(** A refused provider: its own session is stopped. Another's session survives a start
    that finds it, and a race with one that cannot control it. *)
Lemma unlocked_start_stops_only_own_witness :
  (start ToyTrace.no_message ToyTrace.refusing (ToyTrace.token true) ToyTrace.quiet 8 None Unlocked (ToyTrace.host None))
    = (Err AccessDenied, {| owner := None; stopped := [7%nat] |}) ∧
  Forall (λ o, o = 7%nat)
    (stopped (start ToyTrace.no_message ToyTrace.refusing (ToyTrace.token true) ToyTrace.quiet 8 None Unlocked
                (ToyTrace.host None)).2) ∧
  Forall (λ o, o = 7%nat)
    (stopped (start ToyTrace.no_message ToyTrace.refusing (ToyTrace.token false) ToyTrace.raced 8 None Unlocked
                (ToyTrace.host None)).2).
Proof.
  split; [by vm_compute|]. split.
  - exact (proj1 (unlocked_start_stops_only_own ToyTrace.no_message (ToyTrace.token true) ToyTrace.refusing
             (ToyTrace.refusing_contract true) ToyTrace.quiet 8 None (ToyTrace.host None)
             (or_intror (λ _, eq_refl)) eq_refl)).
  - exact (proj1 (unlocked_start_stops_only_own ToyTrace.no_message (ToyTrace.token false) ToyTrace.refusing
             (ToyTrace.refusing_contract false) ToyTrace.raced 8 None (ToyTrace.host None)
             (or_introl eq_refl) eq_refl)).
Defined.

(** A session an earlier run left is reclaimed. *)
Lemma locked_start_settles_witness :
  owner (start ToyTrace.no_message ToyTrace.granting (ToyTrace.token true) ToyTrace.quiet 8 (Some 7) Locked
           (ToyTrace.host (Some 3%nat))).2 = Some 7%nat.
Proof.
  pose proof (locked_start_settles ToyTrace.no_message (ToyTrace.token true) ToyTrace.granting
    (ToyTrace.granting_contract true) ToyTrace.quiet 8 (Some 7) (ToyTrace.host (Some 3%nat))
    eq_refl eq_refl eq_refl (λ _, eq_refl) (λ _, eq_refl)) as H.
  exact (proj1 (proj1 H)).
Defined.

Lemma stop_ends_once_witness :
  ∃ s h t, stop (ToyTrace.token true)
    {| sp_hygiene_joins := 0; sp_refused := None; sp_finished := λ u, millis 25 <=? u; sp_late := λ _, 0%nat |}
    (opened_session 8 None (Ok tt)) (ToyTrace.host (Some 7%nat)) 0 = Some (s, h, t, Some true) ∧ owner h = None ∧
    t ≤ millis 35.
Proof.
  set (i := {| sp_hygiene_joins := 0; sp_refused := None; sp_finished := λ u, millis 25 <=? u; sp_late := λ _, 0%nat |}).
  destruct (stop_ends_once (ToyTrace.token true) i (opened_session 8 None (Ok tt)) (ToyTrace.host (Some 7%nat)) 0
              (Some (millis 25)) 0 ltac:(done) ltac:(intros u; cbn; rewrite Z.leb_le; naive_solver))
    as (s & h & t & w & E & Ht & _ & _ & Ho & _).
  exists s, h, t. split; [|split; [exact (Ho eq_refl eq_refl (or_introl eq_refl))|exact Ht]].
  assert (w = Some true) as <- by (vm_compute in E; congruence). exact E.
Defined.
