(* ===== verification/TlsConfig.v ===== *)
(** * The TLS client configuration ([tls.rs], its first part)

    What the agent asks of rustls: TLS 1.3, the two cipher suites of ADR-0004, the
    roots of the trust anchor alone, and a client certificate on the heartbeat path
    only. rustls' PEM reader and its checks are fields of [Rustls]. *)

From S2P Require Import Prelude IpAddr Types Errors Signing.
Open Scope Z_scope.

Inductive CipherSuite :=
| TLS13_AES_256_GCM_SHA384
| TLS13_AES_128_GCM_SHA256
| TLS13_CHACHA20_POLY1305_SHA256
| OtherSuite (code : Z).

#[export] Instance CipherSuite_eq_dec : EqDecision CipherSuite.
Proof. solve_decision. Defined.

(** [rustls::pki_types::pem::Error]; [OtherPem] carries its [Display] text, and
    the two quoted fields the text [{:?}] prints. *)
Inductive PemError :=
| MissingSectionEnd (end_marker : string)
| IllegalSectionStart (line : string)
| Base64Decode (text : string)
| OtherPem (text : string).

(** What the agent uses of rustls and of the key's PKCS#8 encoding. *)
Class Rustls := {
  CertificateDer : Type;
  PrivateKeyDer : Type;
  (** [CertificateDer::pem_slice_iter]. *)
  pem_slice_iter : bytes → list (Result CertificateDer PemError);
  (** [RootCertStore::add]. *)
  root_add : CertificateDer → Result unit string;
  (** The suites of [ring::default_provider]. *)
  default_cipher_suites : list CipherSuite;
  (** [with_protocol_versions], of the suites and of TLS 1.3. *)
  with_tls13 : list CipherSuite → Result unit string;
  (** [with_client_auth_cert]. *)
  with_client_auth_cert : list CertificateDer → PrivateKeyDer → Result unit string;
  (** [String::from_utf8_lossy] printed with [{:?}]. *)
  debug_lossy : string → string;
}.

Section ClientConfig.
Context {R : Rustls}.

Record ClientConfig := {
  cipher_suites : list CipherSuite;
  root_certificates : list CertificateDer;
  client_auth : option (list CertificateDer * PrivateKeyDer);
}.

Definition is_adr0004_suite (s : CipherSuite) : bool :=
  match s with
  | TLS13_AES_256_GCM_SHA384 | TLS13_CHACHA20_POLY1305_SHA256 => true
  | _ => false
  end.

Definition restricted_provider : list CipherSuite :=
  filter (λ s, is_adr0004_suite s = true) default_cipher_suites.

Definition pem_error_text (e : PemError) : string :=
  match e with
  | MissingSectionEnd m => "section end " +:+ debug_lossy m +:+ " missing"
  | IllegalSectionStart l => "illegal section start: " +:+ debug_lossy l
  | Base64Decode t => t
  | OtherPem t => t
  end.

(** [collect::<Result<Vec<_>, _>>]: the first error, or every value. *)
Fixpoint collect {A E} (l : list (Result A E)) : Result (list A) E :=
  match l with
  | [] => Ok []
  | r :: l => let? a := r in let? rest := collect l in Ok (a :: rest)
  end.

Definition certificates_from_pem (pem : bytes) (what : string) : Result (list CertificateDer) TlsError :=
  map_err (λ e, Errors.ClientConfig (what +:+ " PEM: " +:+ pem_error_text e)) (collect (pem_slice_iter pem)).

(** The loop that adds each certificate to the store. *)
Fixpoint add_roots (roots certs : list CertificateDer) : Result (list CertificateDer) TlsError :=
  match certs with
  | [] => Ok roots
  | c :: certs =>
      try? map_err (λ e, Errors.ClientConfig ("add trust anchor: " +:+ e)) (root_add c) in
      add_roots (roots ++ [c]) certs
  end.

Definition anchor_roots (trust_anchor_pem : bytes) : Result (list CertificateDer) TlsError :=
  let? certs := certificates_from_pem trust_anchor_pem "trust anchor" in
  let? roots := add_roots [] certs in
  match roots with
  | [] => Err (Errors.ClientConfig "trust anchor contains no certificates")
  | _ => Ok roots
  end.

Definition build_enrollment_config (trust_anchor_pem : bytes) : Result ClientConfig TlsError :=
  let? roots := anchor_roots trust_anchor_pem in
  try? map_err (λ e, Errors.ClientConfig ("tls versions: " +:+ e)) (with_tls13 restricted_provider) in
  Ok {| cipher_suites := restricted_provider; root_certificates := roots; client_auth := None |}.

(** [client_certificate_pem] and [key_der] (the signing key through PKCS#8) are
    the identity's. *)
Definition build_client_config (trust_anchor_pem client_certificate_pem : bytes)
    (pkcs8 : Result bytes string) (key_try_from : bytes → Result PrivateKeyDer string)
  : Result ClientConfig TlsError :=
  let? roots := anchor_roots trust_anchor_pem in
  let? client_chain := certificates_from_pem client_certificate_pem "client cert" in
  match client_chain with
  | [] => Err (Errors.ClientConfig "client certificate PEM is empty")
  | _ =>
      let? pkcs8 := map_err (λ e, Errors.ClientConfig ("client key to pkcs8: " +:+ e)) pkcs8 in
      let? key_der := map_err (λ e, Errors.ClientConfig ("client key der: " +:+ e)) (key_try_from pkcs8) in
      try? map_err (λ e, Errors.ClientConfig ("tls versions: " +:+ e)) (with_tls13 restricted_provider) in
      try? map_err (λ e, Errors.ClientConfig ("client auth: " +:+ e))
             (with_client_auth_cert client_chain key_der) in
      Ok {| cipher_suites := restricted_provider; root_certificates := roots;
            client_auth := Some (client_chain, key_der) |}
  end.

(** ** Lemmas *)

Lemma collect_ok {A E} (l : list (Result A E)) out :
  collect l = Ok out ↔ l = Ok <$> out.
Proof.
  revert out. induction l as [|r l IH]; intros out; cbn [collect].
  - split; [by intros [= <-]|]. by destruct out.
  - destruct r as [a|e]; [|split; [done|by destruct out]]. destruct (collect l) as [rest|e].
    + pose proof (proj1 (IH rest) eq_refl) as ->. split; [by intros [= <-]|].
      destruct out as [|a' out]; [done|]. cbn. intros [= <- H].
      apply IH in H. by simplify_eq.
    + split; [done|]. destruct out as [|a' out]; [done|]. cbn. intros [= <- H].
      by apply IH in H.
Qed.

Lemma add_roots_ok roots certs out :
  add_roots roots certs = Ok out → out = roots ++ certs ∧ Forall (λ c, root_add c = Ok tt) certs.
Proof.
  revert roots. induction certs as [|c certs IH]; intros roots; cbn [add_roots].
  - intros [= <-]. by rewrite app_nil_r.
  - destruct (root_add c) as [[]|] eqn:E; [|done]. cbn [map_err]. intros H.
    apply IH in H as [-> Hf]. split; [by rewrite <- app_assoc|]. by constructor.
Qed.

Lemma anchor_roots_ok pem roots :
  anchor_roots pem = Ok roots →
  roots ≠ [] ∧ pem_slice_iter pem = Ok <$> roots ∧ Forall (λ c, root_add c = Ok tt) roots.
Proof.
  unfold anchor_roots, certificates_from_pem.
  destruct (collect _) as [certs|] eqn:Ec; [|done]. apply collect_ok in Ec. cbn [map_err].
  destruct (add_roots [] certs) as [out|] eqn:Ea; [|done]. apply add_roots_ok in Ea as [-> Hf].
  cbn [app]. destruct certs as [|c certs]; [done|]. intros [= <-]. done.
Qed.

Lemma restricted_suites s :
  s ∈ restricted_provider →
  s = TLS13_AES_256_GCM_SHA384 ∨ s = TLS13_CHACHA20_POLY1305_SHA256.
Proof.
  unfold restricted_provider. rewrite list_elem_of_filter. intros [H _].
  destruct s; cbn in H; auto; done.
Qed.

(** The configuration [cfg] trusts the anchor alone, over the ADR-0004 suites. *)
Definition pinned (trust_anchor_pem : bytes) (cfg : ClientConfig) : Prop :=
  pem_slice_iter trust_anchor_pem = Ok <$> root_certificates cfg ∧
  root_certificates cfg ≠ [] ∧
  (∀ s, s ∈ cipher_suites cfg → s = TLS13_AES_256_GCM_SHA384 ∨ s = TLS13_CHACHA20_POLY1305_SHA256).

(** Both TLS configurations are pinned: whatever the trust anchor and the
    identity are, a configuration that is built trusts exactly the certificates of
    the trust anchor's document, at least one, and offers no suite but the two of
    ADR-0004; enrollment's presents no client certificate, the heartbeat's presents
    the identity's non-empty chain with the identity's own key. *)
Theorem tls_configs_pinned (anchor cert : bytes) pkcs8 key_try_from :
  (∀ cfg, build_enrollment_config anchor = Ok cfg →
     pinned anchor cfg ∧ client_auth cfg = None) ∧
  (∀ cfg, build_client_config anchor cert pkcs8 key_try_from = Ok cfg →
     pinned anchor cfg ∧
     ∃ chain key der, client_auth cfg = Some (chain, key) ∧ chain ≠ [] ∧
       pem_slice_iter cert = Ok <$> chain ∧ pkcs8 = Ok der ∧ key_try_from der = Ok key).
Proof.
  split; intros cfg.
  - unfold build_enrollment_config. destruct (anchor_roots anchor) as [roots|] eqn:E; [|done].
    apply anchor_roots_ok in E as (Hne & Hpem & _).
    destruct (with_tls13 _) as [[]|]; [|done]. intros [= <-].
    split; [|done]. split_and!; [done|done|exact restricted_suites].
  - unfold build_client_config. destruct (anchor_roots anchor) as [roots|] eqn:E; [|done].
    apply anchor_roots_ok in E as (Hne & Hpem & _). unfold certificates_from_pem.
    destruct (collect _) as [chain|] eqn:Ec; [|done]. apply collect_ok in Ec. cbn [map_err].
    destruct chain as [|c chain]; [done|].
    destruct pkcs8 as [der|]; [|done]. cbn [map_err].
    destruct (key_try_from der) as [key|] eqn:Ek; [|done]. cbn [map_err].
    destruct (with_tls13 _) as [[]|]; [|done]. cbn [map_err].
    destruct (with_client_auth_cert _ _) as [[]|]; [|done]. cbn [map_err]. intros [= <-].
    split; [split_and!; [done|done|exact restricted_suites]|]. by exists (c :: chain), key, der.
Qed.

End ClientConfig.

(** A rustls whose PEM document is a list of one-byte certificates. *)
Module ToyRustls.
Instance toy : Rustls := {|
  CertificateDer := Byte.byte; PrivateKeyDer := bytes;
  pem_slice_iter := fmap Ok;
  root_add := λ _, Ok tt;
  default_cipher_suites :=
    [TLS13_AES_256_GCM_SHA384; TLS13_AES_128_GCM_SHA256; TLS13_CHACHA20_POLY1305_SHA256];
  with_tls13 := λ _, Ok tt;
  with_client_auth_cert := λ _ _, Ok tt;
  debug_lossy := id |}.
End ToyRustls.

Lemma tls_configs_pinned_witness :
  match build_client_config (R := ToyRustls.toy) [Byte.x01] [Byte.x02] (Ok [Byte.x03]) Ok with
  | Ok cfg => pinned (R := ToyRustls.toy) [Byte.x01] cfg ∧ length (cipher_suites cfg) = 2%nat
  | Err _ => False
  end.
Proof.
  destruct (build_client_config (R := ToyRustls.toy) [Byte.x01] [Byte.x02] (Ok [Byte.x03]) Ok)
    as [cfg|] eqn:E; [|vm_compute in E; discriminate].
  destruct (tls_configs_pinned (R := ToyRustls.toy) [Byte.x01] [Byte.x02] (Ok [Byte.x03]) Ok) as [_ H].
  destruct (H cfg E) as [Hp _]. split; [exact Hp|]. injection E as <-. reflexivity.
Defined.
