(* ===== verification/Transport.v ===== *)
(** * The plain heartbeat client ([transport.rs])

    [HeartbeatClient::send] and the retry loop it shares with enrollment: one POST
    per attempt, a sleep between two attempts. The network is a function from the
    attempt's number to what reqwest returned for it; a run gives the actions in
    their order with the result. *)

From S2P Require Import Prelude IpAddr Types Errors Config Tls.
Open Scope Z_scope.

(** ** What the HTTP client returns *)

Record Response := { status : Z; text : Result string string }.
Record HttpError := { display : string; object : ErrorObj }.
Notation Outcome := (Result Response HttpError).

(** [StatusCode::is_success]. *)
Definition is_success (code : Z) : bool := (200 <=? code) && (code <=? 299).

Inductive NetAction := Post | Sleep (ms : Z).

#[export] Instance NetAction_eq_dec : EqDecision NetAction.
Proof. solve_decision. Defined.

(** ** The retry loop *)

(** An attempt ends the call, or leaves the text of its failure. *)
Inductive Verdict (R : Type) := Return (r : R) | Retry (last_error : string).
Arguments Return {R} _.
Arguments Retry {R} _.

(** [while attempt < max]: [next] is the backoff after a sleep, [verdict n] the
    outcome of attempt [n]. The result is what an attempt returned, or the number
    of attempts and the last failure. *)
Fixpoint retry_loop {R} (max : Z) (next : Z → Z) (verdict : Z → Verdict R)
    (fuel : nat) (attempt backoff_ms : Z) (last_error : string)
  : option (list NetAction * (R + Z * string)) :=
  if attempt <? max then
    match fuel with
    | O => None
    | S f =>
        let attempt := attempt + 1 in
        match verdict attempt with
        | Return r => Some ([Post], inl r)
        | Retry e =>
            if max <=? attempt then Some ([Post], inr (attempt, e))
            else match retry_loop max next verdict f attempt (next backoff_ms) e with
                 | Some (actions, out) => Some (Post :: Sleep backoff_ms :: actions, out)
                 | None => None
                 end
        end
    end
  else Some ([], inr (attempt, last_error)).

(** ** The client *)

Record HeartbeatClient := { client_url : string; client_config : HeartbeatConfig }.

Definition client_new (server_url : string) (cfg : HeartbeatConfig) : HeartbeatClient :=
  {| client_url := trim_end_char slash server_url +:+ "/v1/agents/heartbeat"; client_config := cfg |}.

(** [(backoff_ms as f64 * factor) as u64]. *)
Definition scaled (backoff_ms : Z) (factor : f64) : Z :=
  u64_of_f64 (f64_mul (f64_of_u64 backoff_ms) factor).

Definition heartbeat_next (h : HeartbeatConfig) (backoff_ms : Z) : Z :=
  Z.min (scaled backoff_ms (backoff_factor h)) (backoff_max_ms h).

Definition heartbeat_verdict (o : Outcome) : Verdict unit :=
  match o with
  | Ok resp => if is_success (status resp) then Return tt else Retry ("status " +:+ dec (status resp))
  | Err e => Retry (display e)
  end.

(** [send], with [net n] the outcome of the [n]th POST. *)
Definition client_send (c : HeartbeatClient) (net : Z → Outcome)
  : option (list NetAction * Result unit TransportError) :=
  let h := client_config c in
  match retry_loop (max_retries h) (heartbeat_next h) (λ n, heartbeat_verdict (net n))
          (Z.to_nat (max_retries h)) 0 (backoff_initial_ms h) "no attempts made" with
  | Some (actions, inl tt) => Some (actions, Ok tt)
  | Some (actions, inr (attempts, last_error)) => Some (actions, Err (RetryExhausted attempts last_error))
  | None => None
  end.

Definition send_single_attempt (o : Outcome) : Result unit TransportError :=
  match o with
  | Ok resp => if is_success (status resp) then Ok tt else Err (BadStatus (status resp))
  | Err e => Err (TransportNetwork (display e))
  end.

(** ** What the loop does *)

(** [n] attempts with a sleep between two: the backoffs start at [b]. *)
Fixpoint attempts_from (next : Z → Z) (n : nat) (b : Z) : list NetAction :=
  match n with
  | O => []
  | S O => [Post]
  | S n' => Post :: Sleep b :: attempts_from next n' (next b)
  end.

Definition retried {R} (v : Verdict R) : Prop := match v with Retry _ => True | Return _ => False end.
Definition last_error_of {R} (v : Verdict R) (none : string) : string :=
  match v with Retry e => e | Return _ => none end.

Lemma retry_loop_returns {R} max next (verdict : Z → Verdict R) k fuel attempt b last r :
  attempt + Z.of_nat k < max → (Z.to_nat (max - attempt) ≤ fuel)%nat →
  (∀ i, attempt < i ≤ attempt + Z.of_nat k → retried (verdict i)) →
  verdict (attempt + Z.of_nat k + 1) = Return r →
  retry_loop max next verdict fuel attempt b last = Some (attempts_from next (S k) b, inl r).
Proof.
  revert fuel attempt b last. induction k as [|k IH]; intros fuel attempt b last Hk Hf Hbefore Hr.
  - destruct fuel as [|fuel]; [lia|]. cbn [retry_loop]. rewrite (proj2 (Z.ltb_lt _ _)) by lia.
    replace (attempt + Z.of_nat 0 + 1) with (attempt + 1) in Hr by lia. by rewrite Hr.
  - destruct fuel as [|fuel]; [lia|]. cbn [retry_loop]. rewrite (proj2 (Z.ltb_lt _ _)) by lia.
    pose proof (Hbefore (attempt + 1) ltac:(lia)) as H1.
    destruct (verdict (attempt + 1)) as [|e]; [done|].
    rewrite (proj2 (Z.leb_gt _ _)) by lia. rewrite IH; [done|lia|lia| |].
    + intros i Hi. apply Hbefore. lia.
    + rewrite <- Hr. f_equal. lia.
Qed.

Lemma retry_loop_exhausts {R} max next (verdict : Z → Verdict R) n fuel attempt b last :
  max = attempt + Z.of_nat n → (n ≤ fuel)%nat →
  (∀ i, attempt < i ≤ max → retried (verdict i)) →
  retry_loop max next verdict fuel attempt b last =
  Some (attempts_from next n b, inr (max, if decide (n = 0%nat) then last else last_error_of (verdict max) "")).
Proof.
  intros ->. revert fuel attempt b last. induction n as [|n IH]; intros fuel attempt b last Hf Hall.
  - destruct fuel; cbn [retry_loop]; rewrite (proj2 (Z.ltb_ge _ _)) by lia; rewrite Z.add_0_r; done.
  - destruct fuel as [|fuel]; [lia|]. cbn [retry_loop]. rewrite (proj2 (Z.ltb_lt _ _)) by lia.
    pose proof (Hall (attempt + 1) ltac:(lia)) as H1.
    destruct (verdict (attempt + 1)) as [|e] eqn:Ev; [done|].
    destruct n as [|n].
    + rewrite (proj2 (Z.leb_le _ _)) by lia. change (Z.of_nat 1) with 1. cbn. by rewrite Ev.
    + rewrite (proj2 (Z.leb_gt _ _)) by lia.
      replace (attempt + Z.of_nat (S (S n))) with (attempt + 1 + Z.of_nat (S n)) by lia.
      rewrite IH; [done|lia|]. intros i Hi. apply Hall. lia.
Qed.

(** Either an attempt within the budget returns and those before it do not, or
    none does. *)
Lemma retry_cases {R} (verdict : Z → Verdict R) (n : nat) :
  (∃ k r, (k < n)%nat ∧ (∀ i, 0 < i ≤ Z.of_nat k → retried (verdict i)) ∧
          verdict (Z.of_nat k + 1) = Return r) ∨
  (∀ i, 0 < i ≤ Z.of_nat n → retried (verdict i)).
Proof.
  induction n as [|n IH]; [right; lia|]. destruct IH as [(k & r & Hk & Hb & Hr)|Hall].
  - left. exists k, r. split_and!; [lia|done|done].
  - destruct (verdict (Z.of_nat n + 1)) as [r|e] eqn:E.
    + left. exists n, r. split_and!; [lia|done|done].
    + right. intros i Hi. destruct (decide (i = Z.of_nat n + 1)) as [->|]; [by rewrite E|].
      apply Hall. lia.
Qed.

Definition accepted (o : Outcome) : Prop := ∃ resp, o = Ok resp ∧ is_success (status resp) = true.

Lemma heartbeat_verdict_retried o : retried (heartbeat_verdict o) ↔ ~ accepted o.
Proof.
  unfold heartbeat_verdict, accepted. destruct o as [resp|e].
  - destruct (is_success (status resp)) eqn:E; cbn.
    + split; [done|]. intros H. apply H. eauto.
    + split; [|done]. intros _ (r & [= <-] & H). congruence.
  - cbn. split; [|done]. by intros _ (r & H & _).
Qed.

(** The heartbeat client's retry policy, for every behaviour of the server: if
    attempt [k + 1] is the first answered with a 2xx status and is within the budget,
    [send] posts exactly [k + 1] times, with the [k] capped exponential backoffs
    between them, and succeeds; if none of the [max_retries] attempts is, it posts
    exactly that often, sleeps between attempts only, and fails with the number of
    attempts and the last failure. It always returns. *)
Theorem heartbeat_send_outcome (c : HeartbeatClient) (net : Z → Outcome) :
  0 ≤ max_retries (client_config c) →
  let h := client_config c in
  let tries n := attempts_from (heartbeat_next h) n (backoff_initial_ms h) in
  (∀ k : nat, Z.of_nat k < max_retries h →
     (∀ i, 0 < i ≤ Z.of_nat k → ~ accepted (net i)) → accepted (net (Z.of_nat k + 1)) →
     client_send c net = Some (tries (S k), Ok tt)) ∧
  ((∀ i, 0 < i ≤ max_retries h → ~ accepted (net i)) →
   ∃ last_error,
     (max_retries h = 0 ∨ heartbeat_verdict (net (max_retries h)) = Retry last_error) ∧
     client_send c net =
       Some (tries (Z.to_nat (max_retries h)), Err (RetryExhausted (max_retries h) last_error))).
Proof.
  intros Hmax h tries. unfold client_send. fold h. split.
  - intros k Hk Hbefore (resp & Hnet & Hok).
    rewrite (retry_loop_returns _ _ _ k _ 0 _ _ tt); [done|lia|lia| |].
    + intros i Hi. apply heartbeat_verdict_retried, Hbefore. lia.
    + rewrite Z.add_0_l, Hnet. cbn. by rewrite Hok.
  - intros Hall. rewrite (retry_loop_exhausts _ _ _ (Z.to_nat (max_retries h))) by
      (fold h in Hmax; lia || (intros i Hi; apply heartbeat_verdict_retried, Hall; lia)).
    eexists. split; [|done]. case_decide; [left; fold h in Hmax; lia|right].
    assert (retried (heartbeat_verdict (net (max_retries h)))) as Hr
      by (apply heartbeat_verdict_retried, Hall; lia).
    by destruct (heartbeat_verdict _).
Qed.

(** Two refusals and a success, with the default policy: two sleeps. *)
Definition sample_net (n : Z) : Outcome :=
  if n <? 3 then Ok {| status := 503; text := Ok "" |} else Ok {| status := 200; text := Ok "" |}.

Lemma heartbeat_send_outcome_witness :
  client_send (client_new "https://a/" heartbeat_default) sample_net =
    Some ([Post; Sleep 1000; Post; Sleep 2000; Post], Ok tt).
Proof.
  destruct (heartbeat_send_outcome (client_new "https://a/" heartbeat_default) sample_net) as [H _];
    [vm_compute; discriminate|].
  rewrite (H 2%nat); [vm_compute; reflexivity|reflexivity| |].
  - intros i Hi (r & E & Hr). unfold sample_net in E.
    rewrite (proj2 (Z.ltb_lt _ _)) in E by lia. injection E as <-. discriminate Hr.
  - eexists. split; reflexivity.
Defined.
