(* ===== verification/Enrollment.v ===== *)
(** * Enrollment ([enrollment.rs], the key material of [crypto.rs])

    The exchange that turns a token into an identity. Entropy, the file of the
    trust anchor, the HTTP client and what the server answers are inputs; serde's
    decoder of the answer and the PEM parser are the fields of [AnswerReader]. *)

From S2P Require Import Prelude IpAddr Types Errors Config Signing Tls TlsConfig Transport.
Open Scope Z_scope.

Definition KEY_LEN : nat := 32.

(** Ed25519 keys as bytes: [SigningKey::from_bytes], [to_bytes] and the public
    key's bytes. *)
Class KeyBytes (W : WireCrypto) := {
  signing_key_of_seed : bytes → SigningKey;
  seed_of : SigningKey → bytes;
  public_bytes : PublicKey → bytes;
}.

Class KeyBytesLaws (W : WireCrypto) (K : KeyBytes W) := {
  seed_of_signing_key : ∀ s, length s = KEY_LEN → seed_of (signing_key_of_seed s) = s;
}.

Definition ENROLLMENT_ENVELOPE_VERSION : string := "0.1.0".

Record EnrollmentRequest := {
  req_envelope_version : string;
  req_enrollment_token : string;
  req_agent_pubkey : string;
  req_agent_hostname : string;
  req_agent_platform : string;
  req_agent_version : string;
}.

Record EnrollmentResponse := {
  res_envelope_version : string;
  res_agent_id : string;
  res_client_certificate : string;
  res_issued_at : string;
  res_expires_at : string;
}.

Record EnrolledIdentity := {
  en_agent_id : string;
  en_client_certificate_pem : string;
  en_issued_at : string;
  en_expires_at : string;
  en_secret_seed : bytes;
  en_public_key : bytes;
}.

Class AnswerReader := {
  (** [serde_json::from_str]. *)
  response_from_str : string → Result EnrollmentResponse string;
  (** [pem::parse], the contents of the block. *)
  pem_parse : string → Result bytes string;
}.

Section Enrollment.
Context {W : WireCrypto} {K : KeyBytes W} {R : Rustls} {A : AnswerReader}.

(** ** Key material *)

Definition from_secret_bytes (seed : bytes) : AgentKeypair := keypair_of (signing_key_of_seed seed).
Definition public_key_bytes (k : AgentKeypair) : bytes := public_bytes (public_key k).
Definition secret_seed (k : AgentKeypair) : bytes := seed_of (signing_key k).

(** [impl Debug for AgentKeypair]: the public key's fingerprint, and that there is more. *)
Definition keypair_debug (k : AgentKeypair) : string :=
  "AgentKeypair { public_key_fingerprint: " +:+ String (Ascii.ascii_of_N 34) (pubkey_fingerprint (public_key_bytes k))
    +:+ String (Ascii.ascii_of_N 34) ", .. }".

(** What is printed of a key pair depends on its public half alone. *)
Lemma keypair_debug_public (k k' : AgentKeypair) : public_key k = public_key k' → keypair_debug k = keypair_debug k'.
Proof. intros E. unfold keypair_debug, public_key_bytes. by rewrite E. Qed.

(** [generate]: [entropy] is what [getrandom] filled the seed with. *)
Definition generate (entropy : Result bytes string) : Result AgentKeypair string :=
  let? seed := entropy in Ok (from_secret_bytes seed).

(** ** The answer *)

Definition parse_and_validate (body : string) : Result EnrollmentResponse EnrollmentError :=
  let? resp := map_err (λ e, Refused ("malformed server response: " +:+ e)) (response_from_str body) in
  if negb (is_uuidv7 (res_agent_id resp))
  then Err (Refused "malformed server response (agent_id is not a UUIDv7)")
  else
    let? contents := map_err (λ e, Refused ("malformed server response (bad certificate PEM: " +:+ e +:+ ")"))
                       (pem_parse (res_client_certificate resp)) in
    match contents with
    | [] => Err (Refused "malformed server response (empty certificate)")
    | _ => Ok resp
    end.

(** One attempt: a 2xx answer and a 4xx refusal end the exchange, and so does an
    untrusted server certificate; anything else is retried. *)
Definition enroll_verdict (o : Outcome) : Verdict (Result EnrollmentResponse EnrollmentError) :=
  match o with
  | Ok resp =>
      let code := status resp in
      if is_success code then
        Return (let? body := map_err (λ e, Refused ("malformed server response: " +:+ e)) (text resp) in
                parse_and_validate body)
      else if (code =? 401) || (code =? 403) then Return (Err (Refused "token rejected by server"))
      else if code =? 409 then Return (Err (Refused "token already used"))
      else if (400 <=? code) && (code <=? 499) then
        Return (Err (Refused ("malformed server response (unexpected status " +:+ dec code +:+ ")")))
      else Retry ("status " +:+ dec code)
  | Err e =>
      match untrusted_server_cert (object e) with
      | Some reason => Return (Err (EnrollmentTls (ServerCertUntrusted reason)))
      | None => Retry (display e)
      end
  end.

Definition enroll_next (enr : EnrollmentConfig) (backoff_ms : Z) : Z :=
  scaled backoff_ms (enroll_backoff_factor enr).

Definition post_with_retry (net : Z → Outcome) (enr : EnrollmentConfig)
  : option (list NetAction * Result EnrollmentResponse EnrollmentError) :=
  let max := Z.max (enroll_max_retries enr) 1 in
  match retry_loop max (enroll_next enr) (λ n, enroll_verdict (net n)) (Z.to_nat max)
          0 (enroll_backoff_initial_ms enr) "no attempts made" with
  | Some (actions, inl r) => Some (actions, r)
  | Some (actions, inr (attempts, last_error)) => Some (actions, Err (Unreachable attempts last_error))
  | None => None
  end.

(** ** The exchange *)

(** What enrollment meets outside the agent. *)
Record EnrollEnv := {
  entropy : Result bytes string;
  read_file : string → Result bytes string;
  http_client : Result unit string;
  net_of : string → EnrollmentRequest → Z → Outcome;
  platform : string;
  version : string;
}.

(** A result before any POST. *)
Definition no_post {X} (r : Result X EnrollmentError) : option (list NetAction * Result X EnrollmentError) :=
  Some ([], r).

Definition enrollment_token (config : AgentConfig) : Result (EnrollmentConfig * string) EnrollmentError :=
  let? enr := ok_or (enrollment config) MissingToken in
  match token enr with
  | Some t => if is_empty t then Err MissingToken else Ok (enr, t)
  | None => Err MissingToken
  end.

(** What precedes the first POST: the keypair, the request and the TLS client. *)
Definition prepare (env : EnrollEnv) (config : AgentConfig) (t : string)
  : Result (AgentKeypair * EnrollmentRequest) EnrollmentError :=
  let? keypair := map_err (λ e, Persistence ("key generation failed: " +:+ e)) (generate (entropy env)) in
  let request :=
    {| req_envelope_version := ENROLLMENT_ENVELOPE_VERSION; req_enrollment_token := t;
       req_agent_pubkey := b64url (public_key_bytes keypair);
       req_agent_hostname := hostname (agent config);
       req_agent_platform := platform env; req_agent_version := version env |} in
  let? anchor_path :=
    ok_or (trust_anchor_path (Config.server config))
      (EnrollmentTls (Errors.ClientConfig "enrollment requires server.trust_anchor_path")) in
  let? anchor :=
    map_err (λ e, EnrollmentTls (Errors.ClientConfig ("read trust anchor " +:+ anchor_path +:+ ": " +:+ e)))
      (read_file env anchor_path) in
  try? map_err EnrollmentTls (build_enrollment_config anchor) in
  try? map_err (λ e, Persistence ("http client build failed: " +:+ e)) (http_client env) in
  Ok (keypair, request).

Definition enroll (env : EnrollEnv) (config : AgentConfig)
  : option (list NetAction * Result EnrolledIdentity EnrollmentError) :=
  match enrollment_token config with
  | Err e => no_post (Err e)
  | Ok (enr, t) =>
      match prepare env config t with
      | Err e => no_post (Err e)
      | Ok (keypair, request) =>
          let url := trim_end_char slash (url (Config.server config)) +:+ "/v1/agents/enroll" in
          match post_with_retry (net_of env url request) enr with
          | None => None
          | Some (actions, Err e) => Some (actions, Err e)
          | Some (actions, Ok response) =>
              Some (actions,
                Ok {| en_agent_id := res_agent_id response;
                      en_client_certificate_pem := res_client_certificate response;
                      en_issued_at := res_issued_at response;
                      en_expires_at := res_expires_at response;
                      en_secret_seed := secret_seed keypair;
                      en_public_key := public_key_bytes keypair |})
          end
      end
  end.

(** ** Lemmas *)

(** What enrollment retries: a status outside 2xx and 4xx, or a failure of the
    network that is not an untrusted certificate. *)
Definition transient (o : Outcome) : Prop :=
  match o with
  | Ok resp => is_success (status resp) = false ∧ ~ (400 ≤ status resp ≤ 499)
  | Err e => untrusted_server_cert (object e) = None
  end.

Lemma enroll_verdict_retried o : retried (enroll_verdict o) ↔ transient o.
Proof.
  unfold enroll_verdict, transient. destruct o as [resp|e].
  - destruct (is_success (status resp)); cbn [retried]; [naive_solver|].
    destruct (Z.eqb_spec (status resp) 401), (Z.eqb_spec (status resp) 403); cbn [orb retried]; try lia.
    destruct (Z.eqb_spec (status resp) 409); cbn [retried]; [lia|].
    destruct (Z.leb_spec 400 (status resp)), (Z.leb_spec (status resp) 499); cbn [andb retried];
      split; intros; first [done | lia | split; [done|lia]].
  - destruct (untrusted_server_cert (object e)); cbn; naive_solver.
Qed.

(** The attempts of [n] POSTs under [enr]. *)
Definition enroll_attempts (enr : EnrollmentConfig) (n : nat) : list NetAction :=
  attempts_from (enroll_next enr) n (enroll_backoff_initial_ms enr).

Lemma post_with_retry_cases net enr :
  (∃ k r, Z.of_nat k < Z.max (enroll_max_retries enr) 1 ∧
     (∀ i, 0 < i ≤ Z.of_nat k → transient (net i)) ∧ enroll_verdict (net (Z.of_nat k + 1)) = Return r ∧
     post_with_retry net enr = Some (enroll_attempts enr (S k), r)) ∨
  ((∀ i, 0 < i ≤ Z.max (enroll_max_retries enr) 1 → transient (net i)) ∧
   ∃ e, enroll_verdict (net (Z.max (enroll_max_retries enr) 1)) = Retry e ∧
     post_with_retry net enr =
       Some (enroll_attempts enr (Z.to_nat (Z.max (enroll_max_retries enr) 1)),
             Err (Unreachable (Z.max (enroll_max_retries enr) 1) e))).
Proof.
  unfold post_with_retry. set (max := Z.max (enroll_max_retries enr) 1).
  destruct (retry_cases (λ n, enroll_verdict (net n)) (Z.to_nat max)) as [(k & r & Hk & Hb & Hr)|Hall].
  - left. exists k, r. split_and!; [lia|intros; by apply enroll_verdict_retried, Hb|done|].
    by rewrite (retry_loop_returns _ _ _ k _ 0 _ _ r) by (done || lia).
  - right. rewrite Z2Nat.id in Hall by lia.
    split; [intros; by apply enroll_verdict_retried, Hall|].
    rewrite (retry_loop_exhausts _ _ _ (Z.to_nat max)) by (done || lia).
    pose proof (Hall max ltac:(lia)) as Hm. cbv beta in Hm.
    destruct (enroll_verdict (net max)) as [|e] eqn:E; [done|]. exists e. split; [done|].
    by rewrite decide_False by lia.
Qed.

Lemma parse_and_validate_ok body resp :
  parse_and_validate body = Ok resp →
  response_from_str body = Ok resp ∧ is_uuidv7 (res_agent_id resp) = true ∧
  ∃ b bs, pem_parse (res_client_certificate resp) = Ok (b :: bs).
Proof.
  unfold parse_and_validate. destruct (response_from_str body) as [r|]; [|done]. cbn [map_err].
  destruct (is_uuidv7 (res_agent_id r)) eqn:Eu; [|done]. cbn [negb].
  destruct (pem_parse (res_client_certificate r)) as [[|b bs]|] eqn:Ep; [done| |done].
  intros [= <-]. eauto.
Qed.

Lemma enroll_verdict_ok o resp :
  enroll_verdict o = Return (Ok resp) →
  ∃ ans body, o = Ok ans ∧ is_success (status ans) = true ∧ text ans = Ok body ∧
              parse_and_validate body = Ok resp.
Proof.
  unfold enroll_verdict. destruct o as [ans|e].
  - destruct (is_success (status ans)) eqn:E.
    + destruct (text ans) as [body|] eqn:Et; [|done]. cbn [map_err]. intros [= H]. eauto 10.
    + by repeat case_match.
  - by case_match.
Qed.

(** Enrollment's retry policy, for every server: the exchange always ends, after
    at most [max(max_retries, 1)] POSTs. Either some attempt within the budget is
    not transient (a 2xx or 4xx status, or an untrusted server certificate), and then
    the first such one decides the result with no POST after it and a growing backoff
    before each retry; or all are transient, and the result is [Unreachable] with the
    number of attempts and the last failure. *)
Theorem enrollment_retry_policy (net : Z → Outcome) (enr : EnrollmentConfig) :
  let max := Z.max (enroll_max_retries enr) 1 in
  (∃ k : nat, Z.of_nat k < max ∧ (∀ i, 0 < i ≤ Z.of_nat k → transient (net i)) ∧
     ~ transient (net (Z.of_nat k + 1)) ∧
     ∃ r, enroll_verdict (net (Z.of_nat k + 1)) = Return r ∧
          post_with_retry net enr = Some (enroll_attempts enr (S k), r)) ∨
  ((∀ i, 0 < i ≤ max → transient (net i)) ∧
   ∃ e, enroll_verdict (net max) = Retry e ∧
        post_with_retry net enr = Some (enroll_attempts enr (Z.to_nat max), Err (Unreachable max e))).
Proof.
  intros max. destruct (post_with_retry_cases net enr) as [(k & r & Hk & Hb & Hr & E)|H]; [|by right].
  left. exists k. split_and!; [done|done| |by exists r].
  rewrite <- enroll_verdict_retried, Hr. by intros [].
Qed.

Lemma enroll_returns env config : ∃ actions r, enroll env config = Some (actions, r).
Proof.
  unfold enroll, no_post. destruct (enrollment_token config) as [[enr t]|]; [|eauto].
  destruct (prepare env config t) as [[kp req]|]; [|eauto].
  match goal with |- context [post_with_retry ?n ?e] =>
    destruct (post_with_retry_cases n e) as [(k & r & _ & _ & _ & ->)|(_ & e' & _ & ->)] end;
    [destruct r|]; eauto.
Qed.

Lemma prepare_ok env config t kp req :
  prepare env config t = Ok (kp, req) →
  ∃ seed, entropy env = Ok seed ∧ kp = from_secret_bytes seed ∧
          req_enrollment_token req = t ∧ req_agent_pubkey req = b64url (public_key_bytes kp).
Proof.
  unfold prepare, generate. destruct (entropy env) as [seed|]; [|done]. cbn [map_err].
  destruct (trust_anchor_path _) as [p|]; [|done]. cbn [ok_or].
  destruct (read_file env p) as [anchor|]; [|done]. cbn [map_err].
  destruct (build_enrollment_config anchor) as [cfg|]; [|done]. cbn [map_err].
  destruct (http_client env) as [[]|]; [|done]. cbn [map_err]. intros [= <- <-]. by exists seed.
Qed.

(** A successful enrollment yields a usable identity: the agent id is a UUIDv7,
    the certificate is a PEM block with contents, the secret seed is the entropy drawn
    and the public key the one derived from it; and it took a non-empty token and
    between one and [max(max_retries, 1)] POSTs. *)
Theorem enrolled_identity_valid {L : KeyBytesLaws W K} env config seed actions id :
  entropy env = Ok seed → length seed = KEY_LEN →
  enroll env config = Some (actions, Ok id) →
  is_uuidv7 (en_agent_id id) = true ∧
  (∃ b bs, pem_parse (en_client_certificate_pem id) = Ok (b :: bs)) ∧
  en_secret_seed id = seed ∧
  en_public_key id = public_key_bytes (from_secret_bytes (en_secret_seed id)) ∧
  (∃ enr t n, enrollment config = Some enr ∧ token enr = Some t ∧ t ≠ "" ∧
              actions = enroll_attempts enr n ∧
              (1 ≤ Z.of_nat n ≤ Z.max (enroll_max_retries enr) 1)).
Proof.
  intros He Hl. unfold enroll, no_post, enrollment_token.
  destruct (enrollment config) as [enr|]; [|done]. cbn [ok_or].
  destruct (token enr) as [t|] eqn:Et; [|done].
  destruct (is_empty t) eqn:Eem; [done|].
  destruct (prepare env config t) as [[kp req]|] eqn:Ep; [|done].
  apply prepare_ok in Ep as (seed' & Hs & -> & _ & _). rewrite He in Hs. injection Hs as <-.
  match goal with |- context [post_with_retry ?n ?e] =>
    destruct (post_with_retry_cases n e) as [(k & r & Hk & _ & Hr & ->)|(_ & e' & _ & ->)] end; [|done].
  destruct r as [resp|]; [|done]. intros [= <- <-]. cbn.
  apply enroll_verdict_ok in Hr as (ans & body & _ & _ & _ & Hp).
  apply parse_and_validate_ok in Hp as (_ & Hu & Hpem).
  assert (secret_seed (from_secret_bytes seed) = seed) as Hseed by by apply seed_of_signing_key.
  rewrite Hseed. split_and!; try done.
  exists enr, t, (S k). split_and!; try done; [by destruct t|lia|lia].
Qed.

End Enrollment.

(** Keys that are their own seeds, an answer in a fixed form, and a server that
    refuses once and then accepts. *)
Module ToyEnrollment.
Instance wire : WireCrypto := {|
  SigningKey := bytes; PublicKey := bytes; verifying_key := λ k, k;
  sign := λ _ m, m; jcs_to_vec := λ _, Ok []; json_to_vec := λ _, Ok [];
  b64url := ToyCrypto.toy_encode; sha256 := λ b, b |}.
Instance keys : KeyBytes wire := 
  {| signing_key_of_seed := λ s, s; seed_of := λ k, k; public_bytes := λ k, k |}.
#[refine] Instance keys_laws : KeyBytesLaws wire keys := {| seed_of_signing_key := _ |}.
Proof. done. Defined.
Definition agent_uuid : string := "01890a5d-ac96-774b-bcce-b302099a8057".
Instance reader : AnswerReader := {|
  response_from_str := λ body,
    Ok {| res_envelope_version := "0.1.0"; res_agent_id := agent_uuid; res_client_certificate := body;
          res_issued_at := "2026"; res_expires_at := "2027" |};
  pem_parse := λ s, Ok (String.list_byte_of_string s) |}.
Definition seed : bytes := replicate 32 Byte.x07.
Definition net (n : Z) : Outcome :=
  if n <? 2 then Ok {| status := 503; text := Ok "" |} else Ok {| status := 200; text := Ok "cert" |}.
Definition env : EnrollEnv :=
  {| entropy := Ok seed; read_file := λ _, Ok [Byte.x01]; http_client := Ok tt;
     net_of := λ _ _, net; platform := "windows"; version := "0.1.0" |}.
Definition enrollment_config : EnrollmentConfig :=
  {| token := Some "t"; cert_path := "cert.pem"; key_path := "key.dat";
     identity_path := "identity.json"; timeout_seconds := 30; enroll_max_retries := 3;
     enroll_backoff_initial_ms := 500; enroll_backoff_factor := f64_of_u64 2 |}.
Definition config : AgentConfig :=
  {| Config.server := {| url := "https://s"; trust_anchor_path := Some "ca.pem"; heartbeat_url := None |};
     agent := {| id := agent_uuid; hostname := "h" |};
     heartbeat := heartbeat_default; log := log_default; enrollment := Some enrollment_config;
     tls := None; envelope := None |}.
Definition run := enroll (K := keys) (R := ToyRustls.toy) (A := reader) env config.
End ToyEnrollment.

Lemma enrolled_identity_valid_witness :
  match ToyEnrollment.run with
  | Some (actions, Ok id) =>
      actions = [Post; Sleep 500; Post] ∧
      is_uuidv7 (en_agent_id id) = true ∧ en_secret_seed id = ToyEnrollment.seed
  | _ => False
  end.
Proof.
  destruct ToyEnrollment.run as [[actions [id|e]]|] eqn:E; [|vm_compute in E; discriminate ..].
  destruct (enrolled_identity_valid (K := ToyEnrollment.keys) (L := ToyEnrollment.keys_laws) (R := ToyRustls.toy) (A := ToyEnrollment.reader)
    ToyEnrollment.env ToyEnrollment.config ToyEnrollment.seed actions id eq_refl eq_refl E)
    as (Hu & _ & Hs & _).
  split; [|split; [exact Hu|exact Hs]].
  vm_compute in E. injection E as <- _. reflexivity.
Defined.
