(* ===== verification/Identity.v ===== *)
(** * The agent's identity ([identity.rs], [secure_storage.rs])

    Load or enroll, and the three files an identity is: [cert.pem], the sealed key
    and [identity.json]. The file system is a map from paths to contents, and every
    operation on it may fail: the world carries a list of what the next operations
    meet. The platform's seal and serde's JSON are classes with the laws the agent
    relies on; the plaintext store of the non-Windows build is an instance. *)

From S2P Require Import Prelude IpAddr Types Errors Network Config Signing Tls TlsConfig X509.
From S2P Require Import Transport Enrollment.
Open Scope Z_scope.

Record PersistedIdentity := {
  pi_agent_id : string;
  pi_agent_pubkey_fingerprint : string;
  pi_issued_at : string;
  pi_expires_at : string;
}.

(** ** The secure store: what is sealed is a private key's seed. *)

Class SecureStore := {
  seal : bytes → Result bytes SecureStoreError;
  unseal : bytes → Result bytes SecureStoreError;
}.

Class SecureStoreLaws (S : SecureStore) := {
  unseal_seal : ∀ plain blob, length plain = KEY_LEN → seal plain = Ok blob → unseal blob = Ok plain;
}.

Definition dev_marker : bytes :=
  String.list_byte_of_string ("INSECURE-DEV-PLAINTEXT" +:+ String (Ascii.ascii_of_N 10) "").

Fixpoint strip_bytes (p s : bytes) : option bytes :=
  match p, s with
  | [], _ => Some s
  | a :: p', b :: s' => if decide (a = b) then strip_bytes p' s' else None
  | _ :: _, [] => None
  end.

Definition dev_seal (plaintext : bytes) : Result bytes SecureStoreError := Ok (dev_marker ++ plaintext).
Definition dev_unseal (blob : bytes) : Result bytes SecureStoreError :=
  ok_or (strip_bytes dev_marker blob) (UnsealError "missing dev-store marker").

#[export] Instance InsecureDevStore : SecureStore := {| seal := dev_seal; unseal := dev_unseal |}.

Lemma strip_bytes_app p s : strip_bytes p (p ++ s) = Some s.
Proof. induction p as [|a p IH]; [by destruct s|]. cbn. by rewrite decide_True. Qed.

#[export] Instance InsecureDevStore_laws : SecureStoreLaws InsecureDevStore.
Proof.
  split. intros plain blob _ H. change (Ok (dev_marker ++ plain) = Ok blob :> Result bytes SecureStoreError) in H.
  assert (blob = dev_marker ++ plain) as -> by congruence.
  change (ok_or (strip_bytes dev_marker (dev_marker ++ plain)) (UnsealError "missing dev-store marker") = Ok plain).
  by rewrite strip_bytes_app.
Qed.

(** serde's [to_string_pretty] and [from_str] of [identity.json]. *)
Class IdentityJson := {
  to_string_pretty : PersistedIdentity → Result string string;
  identity_from_str : string → Result PersistedIdentity string;
}.

Definition bytes_of_text (s : string) : bytes := String.list_byte_of_string s.

(** Text is UTF-8 in Rust. *)
Definition is_utf8 (s : string) : bool := valid_utf8 (bytes_of_text s).

Class IdentityJsonLaws (J : IdentityJson) := {
  json_roundtrip : ∀ p s, to_string_pretty p = Ok s → identity_from_str s = Ok p;
  json_utf8 : ∀ p s, to_string_pretty p = Ok s → is_utf8 s = true;
}.

(** ** The file system *)

(** A failed operation: what it says, and for a write how much was written. *)
Record IoFault := { written : nat; io_reason : string }.

(** The files, the faults to come, the POSTs made, and which file a path names: two paths
    may name one file (a path in another case, or another spelling of it). *)
Record IdWorld := {
  files : gmap string bytes;
  io_faults : list (option IoFault);
  posted : list NetAction;
  locate : string → string;
}.

(** What is at a path. *)
Definition file_at (w : IdWorld) (path : string) : option bytes := files w !! locate w path.

Definition IM (A : Type) : Type := IdWorld → Result A EnrollmentError * IdWorld.
Definition iret {A} (a : A) : IM A := λ w, (Ok a, w).
Definition ierr {A} (e : EnrollmentError) : IM A := λ w, (Err e, w).
Definition ibind {A B} (m : IM A) (f : A → IM B) : IM B :=
  λ w, let '(r, w') := m w in match r with Ok a => f a w' | Err e => (Err e, w') end.
Definition of_result {A} (r : Result A EnrollmentError) : IM A := λ w, (r, w).

Declare Scope identity_scope.
Notation "'io?' x ':=' m 'in' k" := (ibind m (λ x, k))
  (at level 10, x pattern, m at level 100, k at level 200) : identity_scope.
Notation "m ';;!' k" := (ibind m (λ _, k)) (at level 100, right associativity) : identity_scope.
Open Scope identity_scope.

Definition with_files (w : IdWorld) (fs : gmap string bytes) : IdWorld :=
  {| files := fs; io_faults := io_faults w; posted := posted w; locate := locate w |}.

(** What the next operation meets. *)
Definition io_fault : IM (option IoFault) := λ w,
  match io_faults w with
  | [] => (Ok None, w)
  | f :: fs => (Ok f, {| files := files w; io_faults := fs; posted := posted w; locate := locate w |})
  end.

Definition Io (A : Type) : Type := IM (Result A string).

(** [std::fs::read]. *)
Definition fs_read (path : string) : Io bytes :=
  io? f := io_fault in
  match f with
  | Some f => iret (Err (io_reason f))
  | None => λ w, (Ok (ok_or (file_at w path) "not found"), w)
  end.

(** [std::fs::read_to_string]. *)
Definition fs_read_to_string (path : string) : Io string :=
  io? r := fs_read path in
  iret (let? b := r in
        if valid_utf8 b then Ok (text_of_bytes b) else Err "stream did not contain valid UTF-8").

(** [std::fs::write]: a failure leaves a prefix of the contents, or the file as it
    was when it could not be opened. *)
Definition fs_write (path : string) (contents : bytes) : Io unit :=
  io? f := io_fault in
  match f with
  | Some f =>
      λ w, (Ok (Err (io_reason f)),
            if decide (written f = 0%nat) then w
            else with_files w (<[locate w path := take (pred (written f)) contents]> (files w)))
  | None => λ w, (Ok (Ok tt), with_files w (<[locate w path := contents]> (files w)))
  end.

(** [std::fs::rename]. *)
Definition fs_rename (from to : string) : Io unit :=
  io? f := io_fault in
  match f with
  | Some f => iret (Err (io_reason f))
  | None => λ w,
      match file_at w from with
      | Some b => (Ok (Ok tt), with_files w (<[locate w to := b]> (delete (locate w from) (files w))))
      | None => (Ok (Err "not found"), w)
      end
  end.

(** [try_exists], and [exists], which takes a failure as absence. *)
Definition fs_try_exists (path : string) : Io bool :=
  io? f := io_fault in
  match f with
  | Some f => iret (Err (io_reason f))
  | None => λ w, (Ok (Ok (bool_decide (is_Some (file_at w path)))), w)
  end.

Definition fs_exists (path : string) : IM bool :=
  io? r := fs_try_exists path in
  iret (match r with Ok b => b | Err _ => false end).

(** An operation that changes what the model does not hold: a directory made, a
    file's permissions set. *)
Definition fs_other : Io unit :=
  io? f := io_fault in
  iret (match f with Some f => Err (io_reason f) | None => Ok tt end).

Definition check_io {A} (f : string → EnrollmentError) (m : Io A) : IM A :=
  io? r := m in of_result (map_err f r).

Definition persistence_of (what : string) (e : string) : EnrollmentError := Persistence (what +:+ ": " +:+ e).

(** ** Load, persist, ensure *)

Section Identity.
Set Default Proof Using "Type".
Context {W : WireCrypto} {K : KeyBytes W} {R : Rustls} {A : AnswerReader}.
Context {S : SecureStore} {J : IdentityJson}.
(** [toml::Value]'s parser and printer, [Path::parent], and the DER of the
    certificates of a PEM document. *)
Context (toml_value : string → Result Toml TomlError) (toml_to_string : Toml → Result string string).
Context (path_parent : string → option string).
Context (pem_certificates : bytes → list (Result bytes PemError)).

Record Identity := {
  agent_id : string;
  keypair : AgentKeypair;
  client_certificate_pem : string;
}.

Definition is_enrolled (config : AgentConfig) : IM bool :=
  match enrollment config with
  | Some enr =>
      io? cert := fs_exists (cert_path enr) in
      if cert then fs_exists (key_path enr) else iret false
  | None => iret false
  end.

Definition identity_files (enr : EnrollmentConfig) : list (string * string) :=
  [("the certificate", cert_path enr); ("the key", key_path enr); ("identity.json", identity_path enr)].

(** The files of the set that are not there. *)
Fixpoint missing_files (l : list (string * string)) : IM (list string) :=
  match l with
  | [] => iret []
  | (name, path) :: l =>
      io? there := check_io (λ e, Persistence ("cannot inspect " +:+ name +:+ " at " +:+ path +:+ ": " +:+ e))
                     (fs_try_exists path) in
      io? missing := missing_files l in
      iret (if (there : bool) then missing else name :: missing)
  end.

Definition check_identity_set (config : AgentConfig) : IM unit :=
  match enrollment config with
  | None => iret tt
  | Some enr =>
      io? missing := missing_files (identity_files enr) in
      if (length missing =? 0)%nat || (length missing =? length (identity_files enr))%nat then iret tt
      else ierr (Persistence ("incomplete identity: " +:+ join " and " missing
             +:+ " missing; restore the identity, or remove all three files and enroll with a new token"))
  end.

Definition load_identity (config : AgentConfig) : IM Identity :=
  io? enr := of_result (ok_or (enrollment config) MissingToken) in
  io? pem := check_io (persistence_of "cannot read cert.pem") (fs_read_to_string (cert_path enr)) in
  io? there := fs_exists (identity_path enr) in
  if negb there then ierr (Persistence "identity.json missing") else
  io? identity_raw := check_io (persistence_of "cannot read identity.json")
                        (fs_read_to_string (identity_path enr)) in
  io? persisted := of_result (map_err (persistence_of "identity.json corrupted")
                     (identity_from_str identity_raw)) in
  io? sealed := check_io (persistence_of "cannot read key.dat") (fs_read (key_path enr)) in
  io? secret := of_result (map_err (λ e, persistence_of "cannot decrypt private key" (secure_store_error_text e))
                  (unseal sealed)) in
  if negb (length secret =? KEY_LEN)%nat
  then ierr (Persistence ("decrypted key has wrong length (" +:+ dec (Z.of_nat (length secret)) +:+ " bytes)"))
  else
    let kp := from_secret_bytes secret in
    let derived := pubkey_fingerprint (public_key_bytes kp) in
    if decide (derived = pi_agent_pubkey_fingerprint persisted)
    then iret {| agent_id := pi_agent_id persisted; keypair := kp; client_certificate_pem := pem |}
    else ierr (Persistence "pubkey fingerprint mismatch").

(** The directories of the three paths, made in their order. *)
Fixpoint create_parents (paths : list string) : IM unit :=
  match paths with
  | [] => iret tt
  | p :: paths =>
      match path_parent p with
      | Some parent => check_io (persistence_of ("cannot create " +:+ parent)) fs_other
      | None => iret tt
      end ;;!
      create_parents paths
  end.

Definition harden (path : string) : IM unit :=
  check_io (persistence_of ("cannot restrict " +:+ path)) fs_other.

Definition persisted_of (enrolled : EnrolledIdentity) : PersistedIdentity :=
  {| pi_agent_id := en_agent_id enrolled;
     pi_agent_pubkey_fingerprint := pubkey_fingerprint (en_public_key enrolled);
     pi_issued_at := en_issued_at enrolled; pi_expires_at := en_expires_at enrolled |}.

Definition persist_identity (config : AgentConfig) (enrolled : EnrolledIdentity) : IM unit :=
  io? enr := of_result (ok_or (enrollment config) MissingToken) in
  create_parents [cert_path enr; key_path enr; identity_path enr] ;;!
  io? sealed := of_result (map_err (λ e, persistence_of "cannot seal private key" (secure_store_error_text e))
                  (seal (en_secret_seed enrolled))) in
  check_io (persistence_of "cannot write cert.pem")
    (fs_write (cert_path enr) (bytes_of_text (en_client_certificate_pem enrolled))) ;;!
  check_io (persistence_of "cannot write key.dat") (fs_write (key_path enr) sealed) ;;!
  io? identity_json := of_result (map_err (persistence_of "cannot serialize identity.json")
                         (to_string_pretty (persisted_of enrolled))) in
  check_io (persistence_of "cannot write identity.json")
    (fs_write (identity_path enr) (bytes_of_text identity_json)) ;;!
  harden (cert_path enr) ;;!
  harden (key_path enr) ;;!
  harden (identity_path enr).

(** ** Token hygiene *)

(** [table.remove(key)]. *)
Definition remove_key (k : string) (l : list (string * Toml)) : list (string * Toml) :=
  filter (λ m, m.1 ≠ k) l.

Definition drop_token_in (v : Toml) : Toml :=
  match v with TTable l => TTable (remove_key "token" l) | other => other end.

(** [doc.get_mut("enrollment")], its table without its token. *)
Definition drop_token (doc : Toml) : Toml :=
  match doc with
  | TTable l => TTable ((λ m, if decide (m.1 = "enrollment") then (m.1, drop_token_in m.2) else m) <$> l)
  | other => other
  end.

Definition without_token (content : string) : Result string string :=
  let? doc := map_err toml_text (toml_value content) in
  toml_to_string (drop_token doc).

(** The sibling temporary of a path that names a file. *)
Definition hygiene_temporary (config_path : string) : string := config_path +:+ ".hygiene-tmp".

Definition rewrite_without_token (config_path : string) : Io unit :=
  io? content := fs_read_to_string config_path in
  match (let? c := content in without_token c) with
  | Err e => iret (Err e)
  | Ok rewritten =>
      io? r := fs_write (hygiene_temporary config_path) (bytes_of_text rewritten) in
      match r with
      | Err e => iret (Err e)
      | Ok _ => fs_rename (hygiene_temporary config_path) config_path
      end
  end.

(** A failure is logged and does not end the run. *)
Definition hygienize_token (config_path : string) : IM unit :=
  rewrite_without_token config_path ;;! iret tt.

(** ** The dispatcher *)

(** [enroll], its POSTs recorded in the world. *)
Definition run_enroll (env : EnrollEnv) (config : AgentConfig) : IM EnrolledIdentity := λ w,
  match enroll env config with
  | Some (actions, r) =>
      (r, {| files := files w; io_faults := io_faults w; posted := posted w ++ actions; locate := locate w |})
  | None => (Err (Persistence "out of fuel"), w)
  end.

Definition ensure_identity (env : EnrollEnv) (config : AgentConfig) (config_path : string) : IM Identity :=
  io? enr := of_result (ok_or (enrollment config) MissingToken) in
  io? enrolled := is_enrolled config in
  if enrolled : bool then load_identity config
  else
    io? enrolled := run_enroll env config in
    persist_identity config enrolled ;;!
    hygienize_token config_path ;;!
    iret {| agent_id := en_agent_id enrolled;
            keypair := from_secret_bytes (en_secret_seed enrolled);
            client_certificate_pem := en_client_certificate_pem enrolled |}.

(** ** Installed mode's consistency *)

Definition certificates_in (pem_text : string) : Result (list bytes) string :=
  map_err (λ _, "the certificate's PEM document cannot be read")
    (collect (pem_certificates (bytes_of_text pem_text))).

Definition check_consistency (cert_pem : string) (public_key : bytes) (agent_id : string)
  : Result unit string :=
  let? certificate := map_err (λ e, "the certificate cannot be read: " +:+ e)
                        (certificate_identity (certificates_in cert_pem)) in
  if negb (bool_decide (ed25519_public_key certificate = public_key))
  then Err "the certificate's public key is not the agent's key"
  else if negb (bool_decide (common_name_text certificate = agent_id))
  then Err "the certificate's common name is not the agent's id"
  else Ok tt.

Definition REPAIR : string :=
  "restore the identity, or remove the identity directory and enroll with a new token".

Definition check_issued (enrolled : EnrolledIdentity) : Result unit EnrollmentError :=
  map_err (λ e, Refused ("malformed response: " +:+ e))
    (check_consistency (en_client_certificate_pem enrolled) (en_public_key enrolled) (en_agent_id enrolled)).

Definition with_repair (e : EnrollmentError) : EnrollmentError :=
  match e with Persistence reason => Persistence (reason +:+ "; " +:+ REPAIR) | other => other end.

Definition installed_load (config : AgentConfig) : IM Identity := λ w,
  let '(r, w) := load_identity config w in
  (let? identity := map_err with_repair r in
   try? map_err (λ e, Persistence ("inconsistent identity: " +:+ e +:+ "; " +:+ REPAIR))
          (check_consistency (client_certificate_pem identity) (public_key_bytes (keypair identity))
             (agent_id identity)) in
   Ok identity, w).

(** ** Lemmas *)

Lemma ibind_ok {X Y} (m : IM X) (f : X → IM Y) w y w' :
  ibind m f w = (Ok y, w') → ∃ x w1, m w = (Ok x, w1) ∧ f x w1 = (Ok y, w').
Proof. unfold ibind. destruct (m w) as [[x|e] w1]; [|done]. eauto. Qed.

Lemma of_result_ok {X} (r : Result X EnrollmentError) w x w' :
  of_result r w = (Ok x, w') → r = Ok x ∧ w' = w.
Proof. unfold of_result. by intros [= -> ->]. Qed.

Lemma map_err_ok {X E F} (f : E → F) (r : Result X E) x : map_err f r = Ok x → r = Ok x.
Proof. destruct r; [|done]. by intros [= ->]. Qed.

Lemma ok_or_ok {X E} (o : option X) (e : E) x : ok_or o e = Ok x → o = Some x.
Proof. destruct o; [|done]. by intros [= ->]. Qed.

(** A successful write stores its contents. *)
Lemma write_ok f path contents w x w' :
  check_io f (fs_write path contents) w = (Ok x, w') →
  files w' = <[locate w path := contents]> (files w) ∧ locate w' = locate w.
Proof.
  unfold check_io, fs_write, ibind, io_fault, of_result, with_files.
  destruct (io_faults w) as [|[flt|] flts]; cbn; by intros [= ? <-].
Qed.

Lemma other_ok f w x w' : check_io f fs_other w = (Ok x, w') → files w' = files w ∧ locate w' = locate w.
Proof.
  unfold check_io, fs_other, ibind, io_fault, of_result, iret.
  destruct (io_faults w) as [|[flt|] flts]; cbn; by intros [= ? <-].
Qed.

Lemma create_parents_ok paths w x w' :
  create_parents paths w = (Ok x, w') → files w' = files w ∧ locate w' = locate w.
Proof.
  revert w. induction paths as [|p paths IH]; intros w; cbn [create_parents].
  - by intros [= _ <-].
  - intros H. apply ibind_ok in H as ([] & w1 & H1 & H2). destruct (IH _ H2) as [-> ->].
    destruct (path_parent p); [by eapply other_ok|]. by injection H1 as <-.
Qed.

(** The files a successful [persist_identity] leaves. *)
Lemma persist_ok config enrolled w x w' :
  persist_identity config enrolled w = (Ok x, w') →
  ∃ enr sealed json,
    enrollment config = Some enr ∧ seal (en_secret_seed enrolled) = Ok sealed ∧
    to_string_pretty (persisted_of enrolled) = Ok json ∧
    locate w' = locate w ∧
    files w' = <[locate w (identity_path enr) := bytes_of_text json]> (<[locate w (key_path enr) := sealed]>
                 (<[locate w (cert_path enr) := bytes_of_text (en_client_certificate_pem enrolled)]> (files w))).
Proof.
  unfold persist_identity. intros H.
  apply ibind_ok in H as (enr & w0 & H0 & H). apply of_result_ok in H0 as [He ->]. apply ok_or_ok in He.
  apply ibind_ok in H as (? & w1 & H1 & H). apply create_parents_ok in H1 as [H1 L1].
  apply ibind_ok in H as (sealed & w2 & H2 & H). apply of_result_ok in H2 as [Hs ->]. apply map_err_ok in Hs.
  apply ibind_ok in H as (? & w3 & H3 & H). apply write_ok in H3 as [H3 L3].
  apply ibind_ok in H as (? & w4 & H4 & H). apply write_ok in H4 as [H4 L4].
  apply ibind_ok in H as (json & w5 & H5 & H). apply of_result_ok in H5 as [Hj ->]. apply map_err_ok in Hj.
  apply ibind_ok in H as (? & w6 & H6 & H). apply write_ok in H6 as [H6 L6].
  apply ibind_ok in H as (? & w7 & H7 & H). apply other_ok in H7 as [H7 L7].
  apply ibind_ok in H as (? & w8 & H8 & H). apply other_ok in H8 as [H8 L8]. apply other_ok in H as [H9 L9].
  exists enr, sealed, json. split_and!; [done..|congruence|]. congruence.
Qed.

(** A world whose operations all succeed. *)
Definition calm (w : IdWorld) : Prop := io_faults w = [].

Lemma read_calm path w : calm w → fs_read path w = (Ok (ok_or (file_at w path) "not found"), w).
Proof. unfold calm, fs_read, ibind, io_fault. by intros ->. Qed.

Lemma try_exists_calm path w :
  calm w → fs_try_exists path w = (Ok (Ok (bool_decide (is_Some (file_at w path)))), w).
Proof. unfold calm, fs_try_exists, ibind, io_fault. by intros ->. Qed.

Lemma exists_calm path w : calm w → fs_exists path w = (Ok (bool_decide (is_Some (file_at w path))), w).
Proof. intros H. unfold fs_exists, ibind. by rewrite try_exists_calm. Qed.

Lemma text_of_bytes_of_text s : text_of_bytes (bytes_of_text s) = s.
Proof. apply String.string_of_list_byte_of_string. Qed.

Lemma read_to_string_calm path s w :
  calm w → file_at w path = Some (bytes_of_text s) → is_utf8 s = true →
  fs_read_to_string path w = (Ok (Ok s), w).
Proof.
  intros Hc Hp Hu. unfold fs_read_to_string, ibind. rewrite read_calm by done. rewrite Hp. cbn.
  unfold is_utf8 in Hu. by rewrite Hu, text_of_bytes_of_text.
Qed.

(** Loading a set that is there. *)
Lemma load_calm config enr w pem json p sealed secret :
  calm w → enrollment config = Some enr →
  file_at w (cert_path enr) = Some (bytes_of_text pem) → is_utf8 pem = true →
  file_at w (identity_path enr) = Some (bytes_of_text json) → is_utf8 json = true →
  identity_from_str json = Ok p →
  file_at w (key_path enr) = Some sealed → unseal sealed = Ok secret → length secret = KEY_LEN →
  pubkey_fingerprint (public_key_bytes (from_secret_bytes secret)) = pi_agent_pubkey_fingerprint p →
  load_identity config w =
    (Ok {| agent_id := pi_agent_id p; keypair := from_secret_bytes secret; client_certificate_pem := pem |}, w).
Proof.
  intros Hc He Hcert Hu1 Hid Hu2 Hp Hkey Hun Hlen Hfp.
  unfold load_identity. rewrite He. unfold ibind at 1. cbn [of_result ok_or].
  unfold check_io, of_result. unfold ibind. rewrite (read_to_string_calm _ pem) by done. cbn [map_err].
  rewrite exists_calm by done. rewrite bool_decide_eq_true_2 by (rewrite Hid; eauto). cbn [negb].
  rewrite (read_to_string_calm _ json) by done. cbn [map_err]. rewrite Hp. cbn [map_err].
  rewrite read_calm by done. rewrite Hkey. cbn [ok_or map_err]. rewrite Hun. cbn [map_err].
  rewrite (proj2 (Nat.eqb_eq _ _)) by done. cbn [negb]. by rewrite decide_True.
Qed.

(** An operation that neither writes nor posts. *)
Definition reads_only {X} (m : IM X) : Prop := ∀ w, files (m w).2 = files w ∧ posted (m w).2 = posted w ∧ locate (m w).2 = locate w.

Lemma reads_ret {X} (x : X) : reads_only (iret x).
Proof. done. Qed.
Lemma reads_err {X} e : reads_only (@ierr X e).
Proof. done. Qed.
Lemma reads_of_result {X} (r : Result X EnrollmentError) : reads_only (of_result r).
Proof. done. Qed.
Lemma reads_bind {X Y} (m : IM X) (f : X → IM Y) :
  reads_only m → (∀ x, reads_only (f x)) → reads_only (ibind m f).
Proof.
  intros Hm Hf w. unfold ibind. destruct (Hm w) as (H1 & H2 & H3). destruct (m w) as [[x|e] w1]; cbn in *; [|done].
  destruct (Hf x w1) as (H4 & H5 & H6). split_and!; congruence.
Qed.
Lemma reads_fault : reads_only io_fault.
Proof. intros w. unfold io_fault. by destruct (io_faults w). Qed.
Lemma reads_read path : reads_only (fs_read path).
Proof. apply reads_bind; [apply reads_fault|]. by intros [f|]. Qed.
Lemma reads_try_exists path : reads_only (fs_try_exists path).
Proof. apply reads_bind; [apply reads_fault|]. by intros [f|]. Qed.
#[local] Hint Resolve reads_ret reads_err reads_of_result reads_bind reads_read reads_try_exists : identity.

Lemma reads_check_io {X} f (m : Io X) : reads_only m → reads_only (check_io f m).
Proof. unfold check_io. eauto with identity. Qed.
Lemma reads_read_to_string path : reads_only (fs_read_to_string path).
Proof. unfold fs_read_to_string. eauto with identity. Qed.
Lemma reads_exists path : reads_only (fs_exists path).
Proof. unfold fs_exists. eauto with identity. Qed.
#[local] Hint Resolve reads_check_io reads_read_to_string reads_exists : identity.

Lemma load_reads_only config : reads_only (load_identity config).
Proof.
  unfold load_identity.
  repeat first [apply reads_bind; [solve [auto with identity]|intros ?] | case_match | auto with identity].
Qed.

Lemma missing_files_reads_only l : reads_only (missing_files l).
Proof.
  induction l as [|[name path] l IH]; cbn [missing_files]; auto with identity.
Qed.

Lemma read_ok f path w x w' : check_io f (fs_read path) w = (Ok x, w') → file_at w path = Some x.
Proof.
  unfold check_io, fs_read, ibind, io_fault, of_result, iret, file_at.
  destruct (io_faults w) as [|[flt|] flts]; cbn; [|done|];
    (destruct (files w !! locate w path); [|done]); cbn; by intros [= -> _].
Qed.

Lemma read_to_string_ok f path w x w' :
  check_io f (fs_read_to_string path) w = (Ok x, w') →
  ∃ b, file_at w path = Some b ∧ x = text_of_bytes b.
Proof.
  unfold check_io, fs_read_to_string, fs_read, ibind, io_fault, of_result, iret, file_at.
  destruct (io_faults w) as [|[flt|] flts]; cbn; [|done|];
    (destruct (files w !! locate w path) as [b|]; [|done]); cbn; (destruct (valid_utf8 b); [|done]);
    intros [= <- _]; by exists b.
Qed.

(** What a loaded identity comes from. *)
Lemma load_ok config w id w' :
  load_identity config w = (Ok id, w') →
  ∃ enr pem_raw json p sealed secret,
    enrollment config = Some enr ∧ file_at w (cert_path enr) = Some pem_raw ∧
    client_certificate_pem id = text_of_bytes pem_raw ∧
    file_at w (identity_path enr) = Some json ∧ identity_from_str (text_of_bytes json) = Ok p ∧
    agent_id id = pi_agent_id p ∧
    file_at w (key_path enr) = Some sealed ∧ unseal sealed = Ok secret ∧ length secret = KEY_LEN ∧
    keypair id = from_secret_bytes secret ∧
    pubkey_fingerprint (public_key_bytes (keypair id)) = pi_agent_pubkey_fingerprint p.
Proof.
  unfold load_identity. intros H.
  apply ibind_ok in H as (enr & w0 & H0 & H). apply of_result_ok in H0 as [He ->]. apply ok_or_ok in He.
  apply ibind_ok in H as (pem & w1 & H1 & H).
  pose proof (reads_check_io (persistence_of "cannot read cert.pem") _ (reads_read_to_string (cert_path enr)) w)
    as (F1 & _ & L1). rewrite H1 in F1, L1. apply read_to_string_ok in H1 as (pem_raw & Hpem & ->).
  apply ibind_ok in H as (there & w2 & H2 & H).
  pose proof (reads_exists (identity_path enr) w1) as (F2 & _ & L2). rewrite H2 in F2, L2.
  destruct there; [|done]. cbn [negb] in H.
  apply ibind_ok in H as (raw & w3 & H3 & H).
  pose proof (reads_check_io (persistence_of "cannot read identity.json") _
    (reads_read_to_string (identity_path enr)) w2) as (F3 & _ & L3). rewrite H3 in F3, L3.
  apply read_to_string_ok in H3 as (json & Hjson & ->).
  apply ibind_ok in H as (p & w4 & H4 & H). apply of_result_ok in H4 as [Hp ->]. apply map_err_ok in Hp.
  apply ibind_ok in H as (sealed & w5 & H5 & H). apply read_ok in H5.
  apply ibind_ok in H as (secret & w6 & H6 & H). apply of_result_ok in H6 as [Hun ->]. apply map_err_ok in Hun.
  destruct (Nat.eqb_spec (length secret) KEY_LEN) as [Hlen|]; [|done]. cbn [negb] in H.
  case_decide; [|done]. injection H as <- _. cbn in F1, F2, F3, L1, L2, L3. unfold file_at in *.
  exists enr, pem_raw, json, p, sealed, secret. split_and!; try done; congruence.
Qed.
(** ** Theorems *)

(** C33 Persist then load is the identity: whatever a successful [persist_identity] met, a
    later [load_identity] whose operations succeed returns the agent id, the certificate
    and the keypair that enrollment produced. It takes that the three configured paths name
    three different files, then and now, which the configuration's checks do not ask for
    (a certificate and a key at one file are persisted and do not read back,
    [shared_path_not_read_back]); that the enrolled identity is what enrollment makes, a seed
    of 32 bytes with its own public key and a certificate that is UTF-8 text; and a secure
    store and a JSON form that undo themselves. *)
Theorem identity_roundtrip {SL : SecureStoreLaws S} {JL : IdentityJsonLaws J} config enr enrolled w w' u :
  enrollment config = Some enr →
  NoDup (locate w <$> [cert_path enr; key_path enr; identity_path enr]) →
  length (en_secret_seed enrolled) = KEY_LEN →
  en_public_key enrolled = public_key_bytes (from_secret_bytes (en_secret_seed enrolled)) →
  is_utf8 (en_client_certificate_pem enrolled) = true →
  persist_identity config enrolled w = (Ok tt, w') →
  calm u → files u = files w' → locate u = locate w' →
  load_identity config u =
    (Ok {| agent_id := en_agent_id enrolled;
           keypair := from_secret_bytes (en_secret_seed enrolled);
           client_certificate_pem := en_client_certificate_pem enrolled |}, u).
Proof.
  clear toml_value toml_to_string pem_certificates.
  intros He Hnd Hlen Hpk Hutf Hper Hcalm Hfiles Hloc.
  apply persist_ok in Hper as (enr' & sealed & json & He' & Hseal & Hjson & Hl & Hw).
  rewrite He in He'. injection He' as <-. rewrite Hw in Hfiles. rewrite Hl in Hloc. cbn in Hnd.
  rewrite !NoDup_cons in Hnd. destruct Hnd as (Hc & Hk & _). set_unfold in Hc. set_unfold in Hk.
  apply (load_calm config enr u _ json (persisted_of enrolled) sealed (en_secret_seed enrolled));
    try done; unfold file_at; rewrite ?Hfiles, ?Hloc.
  - rewrite !lookup_insert_ne by (intros E; symmetry in E; tauto). by rewrite lookup_insert_eq.
  - by rewrite lookup_insert_eq.
  - by eapply json_utf8.
  - by eapply json_roundtrip.
  - rewrite lookup_insert_ne by (intros E; symmetry in E; tauto). by rewrite lookup_insert_eq.
  - by eapply unseal_seal.
  - cbn. by rewrite Hpk.
Qed.

(** C32 In installed mode a loaded identity is consistent, whatever the three files
    hold: the sealed key unseals to a 32-byte seed whose public key has the
    fingerprint of [identity.json], the certificate's Ed25519 key is that public key,
    and the certificate's one common name is the agent id. *)
Theorem installed_identity_consistent config w id w' :
  installed_load config w = (Ok id, w') →
  (∃ enr sealed secret json p,
     enrollment config = Some enr ∧
     file_at w (key_path enr) = Some sealed ∧ unseal sealed = Ok secret ∧ length secret = KEY_LEN ∧
     keypair id = from_secret_bytes secret ∧
     file_at w (identity_path enr) = Some json ∧ identity_from_str (text_of_bytes json) = Ok p ∧
     agent_id id = pi_agent_id p ∧
     pi_agent_pubkey_fingerprint p = pubkey_fingerprint (public_key_bytes (keypair id))) ∧
  certificate_identity (certificates_in (client_certificate_pem id)) =
    Ok {| ed25519_public_key := public_key_bytes (keypair id); common_name_text := agent_id id |}.
Proof.
  unfold installed_load. destruct (load_identity config w) as [[i|e] w1] eqn:E; [|done]. cbn [map_err].
  unfold check_consistency. destruct (certificate_identity _) as [[key cn]|] eqn:Ec; [|done]. cbn.
  destruct (bool_decide_reflect (key = public_key_bytes (keypair i))) as [->|]; [|done]. cbn.
  destruct (bool_decide_reflect (cn = agent_id i)) as [->|]; [|done]. cbn. intros [= <- <-].
  split; [|done]. apply load_ok in E as (enr & pem & json & p & sealed & secret & H). naive_solver.
Qed.

Lemma missing_files_calm l w :
  calm w →
  missing_files l w = (Ok (filter (λ f, file_at w f.2 = None) l).*1, w).
Proof.
  intros Hc. induction l as [|[name path] l IH]; [done|]. cbn [missing_files].
  unfold check_io, ibind, of_result in *. rewrite try_exists_calm by done. cbn [map_err].
  rewrite IH, filter_cons. cbn [snd]. destruct (file_at w path) as [b|] eqn:E.
  - rewrite bool_decide_eq_true_2 by eauto. by rewrite decide_False.
  - rewrite bool_decide_eq_false_2 by (by intros []). by rewrite decide_True.
Qed.

(** The identity-set check starts an enrollment only over nothing: it passes
    exactly when all three files are there or none is, it fails when one cannot be
    inspected, and it writes nothing. *)
Theorem identity_set_all_or_nothing config enr w :
  enrollment config = Some enr →
  reads_only (check_identity_set config) ∧
  (∀ f faults, io_faults w = Some f :: faults → ∃ e, (check_identity_set config w).1 = Err e) ∧
  (calm w →
   (check_identity_set config w).1 = Ok tt ↔
   Forall (λ path, is_Some (file_at w path)) [cert_path enr; key_path enr; identity_path enr] ∨
   Forall (λ path, file_at w path = None) [cert_path enr; key_path enr; identity_path enr]).
Proof.
  clear. intros He. unfold check_identity_set. rewrite He. split_and!.
  - apply reads_bind; [apply missing_files_reads_only|]. intros missing. case_match; auto with identity.
  - intros f faults Hf. unfold identity_files. cbn [missing_files].
    unfold check_io, fs_try_exists, ibind, io_fault. rewrite Hf. cbn. eauto.
  - intros Hc. unfold ibind. rewrite missing_files_calm by done. unfold identity_files.
    rewrite !filter_cons, filter_nil. cbn [snd].
    rewrite !Forall_cons, !Forall_nil.
    destruct (file_at w (cert_path enr)) as [c|], (file_at w (key_path enr)) as [k|],
      (file_at w (identity_path enr)) as [i|];
      repeat (rewrite decide_True by done || rewrite decide_False by done); cbn;
      split; intros H; try done; unfold is_Some in *; naive_solver.
Qed.

Definition posts_nothing {X} (m : IM X) : Prop := ∀ w, posted (m w).2 = posted w.

Lemma posts_reads {X} (m : IM X) : reads_only m → posts_nothing m.
Proof. intros H w. apply H. Qed.
Lemma posts_bind {X Y} (m : IM X) (f : X → IM Y) :
  posts_nothing m → (∀ x, posts_nothing (f x)) → posts_nothing (ibind m f).
Proof.
  intros Hm Hf w. unfold ibind. pose proof (Hm w) as H. destruct (m w) as [[x|e] w1]; cbn in *; [|done].
  by rewrite Hf.
Qed.
Lemma posts_write path contents : posts_nothing (fs_write path contents).
Proof.
  apply posts_bind; [apply posts_reads, reads_fault|]. intros [f|] w; [|done]. by case_decide.
Qed.
Lemma posts_rename from to : posts_nothing (fs_rename from to).
Proof.
  apply posts_bind; [apply posts_reads, reads_fault|]. intros [f|] w; [done|]. by case_match.
Qed.
Lemma posts_other : posts_nothing fs_other.
Proof. apply posts_bind; [apply posts_reads, reads_fault|]. by intros f w. Qed.
Lemma posts_check_io {X} f (m : Io X) : posts_nothing m → posts_nothing (check_io f m).
Proof. intros H. by apply posts_bind. Qed.
#[local] Hint Resolve posts_reads posts_write posts_rename posts_other posts_check_io : identity.

Lemma create_parents_posts paths : posts_nothing (create_parents paths).
Proof.
  induction paths as [|p paths IH]; cbn [create_parents]; [done|].
  apply posts_bind; [|done]. case_match; auto with identity.
Qed.
#[local] Hint Resolve create_parents_posts : identity.

Lemma persist_posts config enrolled : posts_nothing (persist_identity config enrolled).
Proof.
  unfold persist_identity, harden.
  repeat first [apply posts_bind; [solve [auto with identity]|intros ?] | auto with identity].
Qed.

Lemma hygienize_posts config_path : posts_nothing (hygienize_token config_path).
Proof.
  unfold hygienize_token, rewrite_without_token.
  repeat first [solve [auto with identity] | apply posts_bind; [|intros ?] | case_match].
Qed.

(** What follows a set that is not there. *)
Lemma enrolling_safe env config config_path w r w' :
  (io? enrolled := run_enroll env config in
   persist_identity config enrolled ;;!
   hygienize_token config_path ;;!
   iret {| agent_id := en_agent_id enrolled;
           keypair := from_secret_bytes (en_secret_seed enrolled);
           client_certificate_pem := en_client_certificate_pem enrolled |}) w = (r, w') →
  ∃ actions answer, enroll env config = Some (actions, answer) ∧ posted w' = posted w ++ actions ∧
    ∀ e, answer = Err e → r = Err e ∧ files w' = files w.
Proof.
  destruct (enroll_returns env config) as (actions & answer & Ee). intros H.
  exists actions, answer. split; [done|]. unfold ibind at 1, run_enroll in H. rewrite Ee in H.
  destruct answer as [enrolled|e].
  - split; [|done]. set (w1 := {| posted := _ |}) in H.
    match type of H with ?m w1 = _ => assert (posts_nothing m) as Hm end.
    { apply posts_bind; [apply persist_posts|]. intros _. apply posts_bind; [apply hygienize_posts|]. done. }
    specialize (Hm w1). rewrite H in Hm. done.
  - injection H as <- <-. split; [done|]. by intros e' [= <-].
Qed.

Lemma is_enrolled_calm config enr w :
  enrollment config = Some enr → calm w →
  is_enrolled config w =
    (Ok (bool_decide (is_Some (file_at w (cert_path enr))) && bool_decide (is_Some (file_at w (key_path enr)))), w).
Proof.
  intros He Hc. unfold is_enrolled. rewrite He. unfold ibind. rewrite exists_calm by done.
  case_bool_decide; cbn [andb]; [by rewrite exists_calm|done].
Qed.

(** C34 Startup never enrolls over an identity it can see, and never writes before
    enrollment has succeeded: with the certificate and the key there, it loads them,
    posts nothing and changes no file, whether or not the load succeeds; without them
    it runs the exchange, and when that fails no file has changed. *)
Theorem ensure_identity_safe env config enr config_path w :
  enrollment config = Some enr → calm w →
  let '(r, w') := ensure_identity env config config_path w in
  (is_Some (file_at w (cert_path enr)) ∧ is_Some (file_at w (key_path enr)) →
     (r, w') = load_identity config w ∧ files w' = files w ∧ posted w' = posted w) ∧
  (~ (is_Some (file_at w (cert_path enr)) ∧ is_Some (file_at w (key_path enr))) →
     ∃ actions answer, enroll env config = Some (actions, answer) ∧ posted w' = posted w ++ actions ∧
       ∀ e, answer = Err e → r = Err e ∧ files w' = files w).
Proof.
  intros He Hc. unfold ensure_identity. rewrite He. unfold ibind at 1. cbn [of_result ok_or].
  unfold ibind at 1. rewrite (is_enrolled_calm config enr) by done.
  destruct (bool_decide_reflect (is_Some (file_at w (cert_path enr)))) as [H1|H1];
    destruct (bool_decide_reflect (is_Some (file_at w (key_path enr)))) as [H2|H2]; cbn [andb];
    [|(destruct (ibind _ _ w) as [r w'] eqn:E; split; [tauto|]; intros _; by apply (enrolling_safe env config config_path)) ..].
  destruct (load_identity config w) as [r w'] eqn:E. destruct (load_reads_only config w) as (Hf & Hp & _).
  rewrite E in Hf, Hp. split; [done|]. tauto.
Qed.

Lemma member_map_other f k k' (l : list (string * Toml)) :
  k ≠ k' → member k ((λ m, if decide (m.1 = k') then (m.1, f m.2) else m) <$> l) = member k l.
Proof.
  intros Hk. induction l as [|[k0 v] l IH]; [done|]. rewrite fmap_cons. cbn [member fst snd].
  destruct (decide (k0 = k')) as [->|]; cbn [member].
  - by rewrite !decide_False.
  - by rewrite IH.
Qed.

Lemma member_map_same f k (l : list (string * Toml)) :
  member k ((λ m, if decide (m.1 = k) then (m.1, f m.2) else m) <$> l) = f <$> member k l.
Proof.
  induction l as [|[k0 v] l IH]; [done|]. rewrite fmap_cons. cbn [member fst snd].
  destruct (decide (k0 = k)) as [->|]; cbn [member].
  - by rewrite !decide_True.
  - by rewrite !decide_False.
Qed.

Lemma member_remove_same k l : member k (remove_key k l) = None.
Proof.
  unfold remove_key. induction l as [|[k0 v] l IH]; [done|]. rewrite filter_cons. cbn [fst].
  destruct (decide (k0 ≠ k)); [|done]. cbn [member]. by rewrite decide_False.
Qed.

Lemma member_remove_other k k' l : k ≠ k' → member k (remove_key k' l) = member k l.
Proof.
  intros Hk. unfold remove_key. induction l as [|[k0 v] l IH]; [done|]. rewrite filter_cons. cbn [fst].
  destruct (decide (k0 ≠ k')) as [|Hn]; cbn [member]; [by rewrite IH|].
  assert (k0 = k') as -> by (by apply dec_stable). by rewrite decide_False, IH.
Qed.

(** Token hygiene removes the token and nothing else. With a TOML printer that
    its parser undoes, the rewritten configuration parses, has no
    [enrollment.token], and every other key of every table has the value it had. *)
Theorem hygiene_removes_only_token content doc rewritten :
  (∀ d s, toml_to_string d = Ok s → toml_value s = Ok d) →
  toml_value content = Ok doc → without_token content = Ok rewritten →
  ∃ doc', toml_value rewritten = Ok doc' ∧
    toml_path "enrollment" "token" doc' = None ∧
    ∀ table key, table ≠ "enrollment" ∨ key ≠ "token" → toml_path table key doc' = toml_path table key doc.
Proof.
  clear path_parent pem_certificates. intros Hrt Hdoc. unfold without_token. rewrite Hdoc. cbn [map_err]. intros Hout.
  exists (drop_token doc). split; [by apply Hrt|]. unfold toml_path.
  destruct doc as [| | | | | |l]; try (split; [done|]; done). cbn [drop_token toml_get]. split.
  - rewrite member_map_same. destruct (member "enrollment" l) as [v|]; [|done]. cbn.
    destruct v; try done. cbn. apply member_remove_same.
  - intros table key Hne. destruct (decide (table = "enrollment")) as [->|Ht].
    + rewrite member_map_same. destruct (member "enrollment" l) as [v|]; [|done]. cbn.
      destruct v; try done. cbn. apply member_remove_other. naive_solver.
    + by rewrite member_map_other.
Qed.

End Identity.

(** A JSON form for one identity, and a certificate-free world. *)
Module ToyIdentity.
Import ToyEnrollment.
Definition sample : EnrolledIdentity :=
  {| en_agent_id := agent_uuid; en_client_certificate_pem := "cert"; en_issued_at := "2026";
     en_expires_at := "2027"; en_secret_seed := seed; en_public_key := seed |}.
Definition saved : PersistedIdentity := persisted_of (W := wire) sample.
#[export] Instance saved_eq_dec : EqDecision PersistedIdentity.
Proof. solve_decision. Defined.
Definition to_text (p : PersistedIdentity) : Result string string :=
  if decide (p = saved) then Ok "saved" else Err "another".
Definition of_text (s : string) : Result PersistedIdentity string :=
  if decide (s = "saved") then Ok saved else Err "another".
#[export] Instance json : IdentityJson := {| to_string_pretty := to_text; identity_from_str := of_text |}.
#[export] Instance json_laws : IdentityJsonLaws json.
Proof.
  split; cbn; unfold to_text, of_text; intros p s; case_decide; [|done|..|done]; intros [= <-].
  - by subst.
  - done.
Qed.
Definition empty_world : IdWorld := {| files := ∅; io_faults := []; posted := []; locate := λ p, p |}.
Definition parent (p : string) : option string := Some "dir".
(** A document with a token, and a printer that writes documents apart. *)
Definition doc : Toml :=
  TTable [("server", TTable [("url", TString "https://s")]);
          ("enrollment", TTable [("token", TString "t"); ("cert_path", TString "c")])].
Definition clean : Toml :=
  TTable [("server", TTable [("url", TString "https://s")]);
          ("enrollment", TTable [("cert_path", TString "c")])].
Definition parse (s : string) : Result Toml TomlError :=
  if decide (s = "doc") then Ok doc else if decide (s = "clean") then Ok clean
  else Err {| toml_text := "no"; toml_span := None |}.
Definition is_clean (d : Toml) : bool :=
  match d with
  | TTable [(a, TTable [(b, TString c)]); (e, TTable [(f, TString g)])] =>
      bool_decide ((a, b, c, e, f, g) = ("server", "url", "https://s", "enrollment", "cert_path", "c"))
  | _ => false
  end.
Definition print (d : Toml) : Result string string := if is_clean d then Ok "clean" else Err "no".
Lemma parse_print d s : print d = Ok s → parse s = Ok d.
Proof.
  unfold print. destruct (is_clean d) eqn:E; [|done]. intros [= <-]. revert E. unfold is_clean.
  repeat (case_match; try done); subst. rewrite bool_decide_eq_true. by intros [= -> -> -> -> -> ->].
Qed.
End ToyIdentity.

Lemma identity_roundtrip_witness :
  let persisted := persist_identity (W := ToyEnrollment.wire) (J := ToyIdentity.json) ToyIdentity.parent
                     ToyEnrollment.config ToyIdentity.sample ToyIdentity.empty_world in
  persisted.1 = Ok tt ∧
  (load_identity (K := ToyEnrollment.keys) (J := ToyIdentity.json) ToyEnrollment.config persisted.2).1 =
    Ok {| agent_id := ToyEnrollment.agent_uuid; keypair := from_secret_bytes (K := ToyEnrollment.keys) ToyEnrollment.seed;
          client_certificate_pem := "cert" |}.
Proof.
  intros persisted.
  assert (persisted = (Ok tt, persisted.2)) as E by (vm_compute; reflexivity).
  split; [by rewrite E|].
  rewrite (identity_roundtrip (K := ToyEnrollment.keys) (J := ToyIdentity.json) (JL := ToyIdentity.json_laws) ToyIdentity.parent
    ToyEnrollment.config ToyEnrollment.enrollment_config ToyIdentity.sample ToyIdentity.empty_world
    persisted.2 persisted.2); [reflexivity|reflexivity| |reflexivity|reflexivity|reflexivity|exact E
    |vm_compute; reflexivity|reflexivity|reflexivity].
  apply (bool_decide_unpack (NoDup _)). reflexivity.
Defined.

(** A certificate and a key at paths that name one file, as Windows resolves two spellings
    of it: both writes succeed, the key is over the certificate, and what loads has the sealed
    key's text for its certificate. *)
Definition folding_world : IdWorld :=
  {| files := ∅; io_faults := []; posted := []; locate := λ p, if decide (p = cert_path ToyEnrollment.enrollment_config)
                                                               then key_path ToyEnrollment.enrollment_config else p |}.
Example shared_path_not_read_back :
  let persisted := persist_identity (W := ToyEnrollment.wire) (J := ToyIdentity.json) ToyIdentity.parent
                     ToyEnrollment.config ToyIdentity.sample folding_world in
  persisted.1 = Ok tt ∧
  match (load_identity (K := ToyEnrollment.keys) (J := ToyIdentity.json) ToyEnrollment.config persisted.2).1 with
  | Ok i => client_certificate_pem i ≠ en_client_certificate_pem ToyIdentity.sample
  | Err _ => False
  end.
Proof. split; vm_compute; [reflexivity|]. done. Qed.

Lemma identity_set_all_or_nothing_witness :
  (check_identity_set ToyEnrollment.config ToyIdentity.empty_world).1 = Ok tt.
Proof.
  destruct (identity_set_all_or_nothing ToyEnrollment.config ToyEnrollment.enrollment_config
    ToyIdentity.empty_world eq_refl) as (_ & _ & H).
  apply H; [reflexivity|]. right. repeat constructor.
Defined.

Notation toy_ensure :=
  (ensure_identity (K := ToyEnrollment.keys) (R := ToyRustls.toy) (A := ToyEnrollment.reader)
     (J := ToyIdentity.json) ToyIdentity.parse ToyIdentity.print ToyIdentity.parent
     ToyEnrollment.env ToyEnrollment.config "agent.toml") (only parsing).

Lemma ensure_identity_safe_witness :
  posted (toy_ensure ToyIdentity.empty_world).2 = [Post; Sleep 500; Post].
Proof.
  pose proof (ensure_identity_safe (K := ToyEnrollment.keys) (R := ToyRustls.toy)
    (A := ToyEnrollment.reader) (J := ToyIdentity.json) ToyIdentity.parse ToyIdentity.print
    ToyIdentity.parent ToyEnrollment.env ToyEnrollment.config
    ToyEnrollment.enrollment_config "agent.toml" ToyIdentity.empty_world eq_refl eq_refl) as H.
  destruct (toy_ensure ToyIdentity.empty_world) as [r w'].
  destruct H as [_ H]. destruct H as (actions & answer & E & Hp & _).
  - intros [[x Hx] _]. discriminate Hx.
  - cbn [snd]. rewrite Hp. vm_compute in E. injection E as <- _. reflexivity.
Defined.

Lemma hygiene_removes_only_token_witness :
  without_token ToyIdentity.parse ToyIdentity.print "doc" = Ok "clean" ∧
  ∃ doc', ToyIdentity.parse "clean" = Ok doc' ∧ toml_path "enrollment" "token" doc' = None.
Proof.
  assert (without_token ToyIdentity.parse ToyIdentity.print "doc" = Ok "clean") as E by reflexivity.
  split; [exact E|].
  destruct (hygiene_removes_only_token ToyIdentity.parse ToyIdentity.print "doc" ToyIdentity.doc "clean"
    ToyIdentity.parse_print eq_refl E) as (d & Hd & Ht & _).
  exists d. split; [exact Hd|exact Ht].
Defined.

(** The certificate of the sample identity. *)
Definition sample_certificate : Certificate :=
  {| version_field := Some [Byte.x02; Byte.x01; Byte.x02]; serial := [Byte.x01]; signature_field := [];
     issuer := []; validity := [];
     subject := [[{| att_kind := COMMON_NAME; att_tag := UTF8_STRING;
                     att_value := bytes_of_text ToyEnrollment.agent_uuid; att_rest := [] |}]];
     public_key := ToyEnrollment.seed; tbs_rest := []; cert_rest := [] |}.

Notation toy_load :=
  (installed_load (K := ToyEnrollment.keys) (J := ToyIdentity.json)
     (λ _, [Ok (certificate_der sample_certificate)]) ToyEnrollment.config
     (persist_identity (W := ToyEnrollment.wire) (J := ToyIdentity.json) ToyIdentity.parent
        ToyEnrollment.config ToyIdentity.sample ToyIdentity.empty_world).2) (only parsing).

Lemma installed_identity_consistent_witness :
  ∃ id, toy_load.1 = Ok id ∧ agent_id id = ToyEnrollment.agent_uuid ∧
    certificate_identity (certificates_in (λ _, [Ok (certificate_der sample_certificate)])
      (client_certificate_pem id)) =
    Ok {| ed25519_public_key := ToyEnrollment.seed; common_name_text := agent_id id |}.
Proof.
  destruct toy_load as [[id|e] w'] eqn:E; [|vm_compute in E; discriminate].
  exists id. split; [reflexivity|].
  destruct (installed_identity_consistent (K := ToyEnrollment.keys) (J := ToyIdentity.json)
    (λ _, [Ok (certificate_der sample_certificate)]) _ _ _ _ E) as [_ H].
  vm_compute in E. injection E as <- _. split; [reflexivity|exact H].
Defined.
