(* ===== verification/Custody.v ===== *)
(** * Custody of the service's files ([custody.rs])

    The decisions of the custody check and the operations that write under it, over
    a store of objects: each has its attributes, its security and its contents. An
    opened handle is the object as it was when it was opened, so what is checked is
    what is read; nothing else changes the store during a start. Every call into
    Windows may fail, and every operation on a thread of its own may be given up:
    the world carries what the next ones meet. A run in which every call fails from
    some point on leaves what a process killed at that point leaves. Windows'
    comparison of SIDs and its SDDL parser are the fields of [Win32Security]. *)

From S2P Require Import Prelude FileTree IpAddr Types.
Open Scope Z_scope.

Notation bytes := (list Byte.byte).

(** ** Security descriptors *)

Inductive WellKnownSid := WinLocalSystemSid | WinBuiltinAdministratorsSid.

(** [ACE_HEADER]'s type and flags, then the mask and the SID. *)
Record Ace := { ace_type : Z; ace_flags : Z; ace_mask : Z; ace_sid : bytes }.

(** The owner may be null; [None] for an absent or null DACL. *)
Record Descriptor := { owner : option bytes; dacl : option (list Ace); dacl_protected : bool }.

#[export] Instance Ace_eq_dec : EqDecision Ace.
Proof. solve_decision. Defined.
#[export] Instance Descriptor_eq_dec : EqDecision Descriptor.
Proof. solve_decision. Defined.

Class Win32Security := {
  IsValidSid : bytes → bool;
  IsWellKnownSid : bytes → WellKnownSid → bool;
  EqualSid : bytes → bytes → bool;
  (** [ConvertStringSecurityDescriptorToSecurityDescriptorW], or the Win32 error. *)
  from_sddl_text : string → Result Descriptor Z;
  (** [ConvertSidToStringSidW], or the Win32 error. *)
  sid_to_string : bytes → Result string Z;
}.

Definition ACCESS_ALLOWED_ACE_TYPE : Z := 0.
Definition ACCESS_DENIED_ACE_TYPE : Z := 1.

Inductive Principal :=
| System
| Administrators
| Sid (b : bytes).

Record Policy := { owners : list Principal; allowed : list Principal; protected : bool }.

Definition shared : Policy :=
  {| owners := [System; Administrators]; allowed := [System; Administrators]; protected := false |}.
Definition configuration : Policy :=
  {| owners := [System]; allowed := [System; Administrators]; protected := true |}.
Definition system_only : Policy :=
  {| owners := [System]; allowed := [System]; protected := true |}.

Inductive Kind := Directory | File.

(** ** Objects and the world *)

(** [BY_HANDLE_FILE_INFORMATION]: [dwFileAttributes] as its two bits the checks read,
    [nNumberOfLinks], [dwVolumeSerialNumber] and [nFileIndexHigh] and [Low]. *)
Record FileInfo := {
  reparse_point : bool;
  is_directory : bool;
  links : Z;
  volume_serial : Z;
  index_high : Z;
  index_low : Z;
}.

(** [spelled] is the name its directory lists it under; [case_sensitive] is a
    directory's setting. *)
Record Object := {
  info : FileInfo;
  descriptor : Descriptor;
  contents : bytes;
  spelled : string;
  case_sensitive : bool;
}.

(** A call that fails: the Win32 error, its text, and how much a write wrote. *)
Record CallFault := { win32_error : Z; fault_text : string; wrote : nat }.

(** An operation on its own thread that does not end in time: the thread did not
    start, it panicked, or it was left behind, and then what it does may still
    happen. *)
Inductive WaitFault :=
| ThreadFailed (reason : string)
| OperationPanicked
| LeftBehind (happens : bool).

(** [new_ids] are the volume and index the next created objects get. *)
Record CustodyWorld := {
  objects : gmap Path Object;
  call_faults : list (option CallFault);
  wait_faults : list (option WaitFault);
  new_ids : list (Z * Z * Z);
}.

Definition with_objects (w : CustodyWorld) (m : gmap Path Object) : CustodyWorld :=
  {| objects := m; call_faults := call_faults w; wait_faults := wait_faults w; new_ids := new_ids w |}.

Definition CM (A E : Type) : Type := CustodyWorld → Result A E * CustodyWorld.
Definition cret {A E} (a : A) : CM A E := λ w, (Ok a, w).
Definition cerr {A E} (e : E) : CM A E := λ w, (Err e, w).
Definition cbind {A B E} (m : CM A E) (f : A → CM B E) : CM B E :=
  λ w, let '(r, w') := m w in match r with Ok a => f a w' | Err e => (Err e, w') end.
Definition cof {A E} (r : Result A E) : CM A E := λ w, (r, w).
Definition cmap_err {A E F} (f : E → F) (m : CM A E) : CM A F :=
  λ w, let '(r, w') := m w in (map_err f r, w').

Declare Scope custody_scope.
Notation "'call?' x ':=' m 'in' k" := (cbind m (λ x, k))
  (at level 10, x pattern, m at level 100, k at level 200) : custody_scope.
Notation "m ';;~' k" := (cbind m (λ _, k)) (at level 100, right associativity) : custody_scope.
Open Scope custody_scope.

(** What the next call meets. *)
Definition call_fault {E} : CM (option CallFault) E := λ w,
  match call_faults w with
  | [] => (Ok None, w)
  | f :: fs => (Ok f, {| objects := objects w; call_faults := fs; wait_faults := wait_faults w;
                         new_ids := new_ids w |})
  end.

(** What the next operation on its own thread meets. *)
Definition wait_fault {E} : CM (option WaitFault) E := λ w,
  match wait_faults w with
  | [] => (Ok None, w)
  | f :: fs => (Ok f, {| objects := objects w; call_faults := call_faults w; wait_faults := fs;
                         new_ids := new_ids w |})
  end.

(** A call that reads: its failure through [err], else [k]. *)
Definition win32 {A E} (err : CallFault → E) (k : CustodyWorld → Result A E * CustodyWorld) : CM A E :=
  call? f := call_fault in
  match f with Some f => cerr (err f) | None => k end.

Definition put_object (path : string) (o : Object) : CustodyWorld → CustodyWorld :=
  λ w, with_objects w (<[path_key path := o]> (objects w)).
Definition remove_object (path : string) : CustodyWorld → CustodyWorld :=
  λ w, with_objects w (delete (path_key path) (objects w)).

(** ** Failures *)

Definition ERROR_FILE_NOT_FOUND : Z := 2.
Definition ERROR_PATH_NOT_FOUND : Z := 3.
Definition ERROR_ACCESS_DENIED : Z := 5.
Definition ERROR_SHARING_VIOLATION : Z := 32.
Definition ERROR_LOCK_VIOLATION : Z := 33.
Definition ERROR_ALREADY_EXISTS : Z := 183.
Definition ERROR_OPERATION_ABORTED : Z := 995.
Definition ERROR_FILE_EXISTS : Z := 80.

Definition in_use (path : string) : string := path +:+ " is in use by another process".

Definition failure (verb path : string) (error : Z) : string :=
  if (error =? ERROR_SHARING_VIOLATION) || (error =? ERROR_LOCK_VIOLATION) || (error =? ERROR_OPERATION_ABORTED)
  then in_use path
  else if (6800 <=? error) && (error <=? 6899)
  then path +:+ " is held by another process's file transaction (Win32 error " +:+ dec error +:+ ")"
  else verb +:+ " " +:+ path +:+ ": Win32 error " +:+ dec error.

Definition unreadable (path : string) (f : CallFault) : string :=
  "read the security of " +:+ path +:+ ": Win32 error " +:+ dec (win32_error f).

(** [operation] on a thread of its own, given up after a bounded wait. *)
Definition bounded {A} (path : string) (operation : CM A string) : CM A string :=
  call? f := wait_fault in
  match f with
  | None => operation
  | Some (ThreadFailed reason) => cerr ("start a thread for " +:+ path +:+ ": " +:+ reason)
  | Some OperationPanicked => cerr ("the operation on " +:+ path +:+ " panicked")
  | Some (LeftBehind happens) => λ w,
      (Err (in_use path), if happens : bool then (operation w).2 else w)
  end.

(** How an operation may change the objects, whatever it meets and however it ends. *)
Definition changes {X E : Type} (R : relation (gmap Path Object)) (m : CM X E) : Prop :=
  ∀ w, R (objects w) (objects (m w).2).

(** Reads only: the objects do not change. *)
Notation inspects := (changes eq).

Section Custody.
Context {S : Win32Security}.

(** ** The checks *)

Definition sid_count (b : bytes) : Z := from_option byte_Z 0 (b !! 1%nat).

(** [sid] is null, or a SID Windows can read. *)
Definition matches (p : Principal) (sid : option bytes) : bool :=
  match sid with
  | None => false
  | Some sid =>
      if negb (IsValidSid sid) then false
      else match p with
           | System => IsWellKnownSid sid WinLocalSystemSid
           | Administrators => IsWellKnownSid sid WinBuiltinAdministratorsSid
           | Sid b =>
               (8 <=? Z.of_nat (length b)) && (Z.of_nat (length b) =? 8 + 4 * sid_count b)
               && IsValidSid b && EqualSid b sid
           end
  end.

Definition names (principals : list Principal) (joiner : string) : string :=
  join joiner ((λ p, match p with
                     | System => "SYSTEM"
                     | Administrators => "Administrators"
                     | Sid _ => "the policy's account"
                     end) <$> principals).

Definition shape_of (i : FileInfo) (path : string) (kind : Kind) : Result unit string :=
  if reparse_point i then Err (path +:+ " is a reparse point")
  else match kind with
       | Directory => if is_directory i then Ok tt else Err (path +:+ " is not a directory")
       | File => if is_directory i then Err (path +:+ " is not a regular file")
                 else if links i =? 1 then Ok tt else Err (path +:+ " is hard-linked")
       end.

(** The loop over the entries. *)
Fixpoint check_aces (path : string) (policy : Policy) (aces : list Ace) : CM unit string :=
  match aces with
  | [] => cret tt
  | a :: aces =>
      win32 (λ f, "read an ACE of " +:+ path +:+ ": Win32 error " +:+ dec (win32_error f)) (λ w, (Ok tt, w)) ;;~
      if ace_type a =? ACCESS_DENIED_ACE_TYPE then check_aces path policy aces
      else if ace_type a =? ACCESS_ALLOWED_ACE_TYPE then
        if existsb (λ p, matches p (Some (ace_sid a))) (allowed policy) then check_aces path policy aces
        else cerr (path +:+ " allows access to a principal other than " +:+ names (allowed policy) " and ")
      else cerr (path +:+ " holds an ACE of type " +:+ dec (ace_type a) +:+ ", which is not checked")
  end.

Definition check_descriptor (d : Descriptor) (path : string) (policy : Policy) : CM unit string :=
  win32 (unreadable path) (λ w, (Ok tt, w)) ;;~
  win32 (unreadable path) (λ w, (Ok tt, w)) ;;~
  if negb (existsb (λ p, matches p (owner d)) (owners policy))
  then cerr (path +:+ " is not owned by " +:+ names (owners policy) " or ")
  else match dacl d with
       | None => cerr (path +:+ " has no DACL")
       | Some aces =>
           (if protected policy
            then win32 (unreadable path) (λ w, (Ok tt, w)) ;;~
                 (if dacl_protected d then cret tt else cerr (path +:+ "'s DACL is not protected"))
            else cret tt) ;;~
           check_aces path policy aces
       end.

(** [CreateFileW] with [OPEN_EXISTING]: nothing there is not a failure; Windows says
    so, with these two errors, exactly when nothing is there. *)
Definition open_raw (path : string) : CM (option Object) Z :=
  call? f := call_fault in
  match f with
  | Some f =>
      if (win32_error f =? ERROR_FILE_NOT_FOUND) || (win32_error f =? ERROR_PATH_NOT_FOUND)
      then λ w, (Ok (objects w !! path_key path), w)
      else cerr (win32_error f)
  | None => λ w, (Ok (objects w !! path_key path), w)
  end.

Definition open_existing (path : string) : CM (option Object) string :=
  bounded path (cmap_err (failure "open" path) (open_raw path)).

Definition file_information (path : string) (h : Object) : CM FileInfo string :=
  win32 (λ f, "inspect " +:+ path +:+ ": Win32 error " +:+ dec (win32_error f)) (λ w, (Ok (info h), w)).

Definition check_shape (h : Object) (path : string) (kind : Kind) : CM unit string :=
  call? i := file_information path h in cof (shape_of i path kind).

Definition security_of (h : Object) (path : string) : CM Descriptor string :=
  win32 (unreadable path) (λ w, (Ok (descriptor h), w)).

Definition check_security (h : Object) (path : string) (policy : Policy) : CM unit string :=
  call? d := security_of h path in check_descriptor d path policy.

Definition check_if_exists_within (path : string) (kind : Kind) (policy : Policy) : CM bool string :=
  call? handle := open_existing path in
  match handle with
  | None => cret false
  | Some h => check_shape h path kind ;;~ check_security h path policy ;;~ cret true
  end.

Definition check_if_exists (path : string) (kind : Kind) (policy : Policy) : CM bool string :=
  check_if_exists_within path kind policy.

Definition check (path : string) (kind : Kind) (policy : Policy) : CM unit string :=
  call? there := check_if_exists path kind policy in
  if there : bool then cret tt else cerr (path +:+ " does not exist").

Inductive Unread := Unreadable (reason : string) | UnreadRefused (reason : string).

Definition read_checked_within (path : string) (policy : Policy) : CM (option bytes) Unread :=
  call? handle := cmap_err Unreadable (open_existing path) in
  match handle with
  | None => cret None
  | Some h =>
      call? i := cmap_err Unreadable (file_information path h) in
      cof (map_err UnreadRefused (shape_of i path File)) ;;~
      call? d := cmap_err Unreadable (security_of h path) in
      cmap_err UnreadRefused (check_descriptor d path policy) ;;~
      win32 (λ f, Unreadable ("read " +:+ path +:+ ": " +:+ fault_text f)) (λ w, (Ok (Some (contents h)), w))
  end.

Definition read_checked (path : string) (policy : Policy) : CM (option bytes) string :=
  cmap_err (λ u, match u with Unreadable r | UnreadRefused r => r end) (read_checked_within path policy).

(** ** What is written *)

Definition from_sddl (sddl : string) : Result Descriptor string :=
  map_err (λ e, "build a security descriptor: Win32 error " +:+ dec e) (from_sddl_text sddl).

(** A new object with its final security. *)
Definition new_object (directory : bool) (name : string) (d : Descriptor) (id : Z * Z * Z) : Object :=
  {| info := {| reparse_point := false; is_directory := directory; links := 1;
                volume_serial := id.1.1; index_high := id.1.2; index_low := id.2 |};
     descriptor := d; contents := []; spelled := name; case_sensitive := false |}.

(** The directory a path is created in is there; the root of a volume always is. *)
Definition parent_there (m : gmap Path Object) (k : Path) : bool :=
  match removelast k with
  | [] => true
  | parent => match m !! parent with Some o => is_directory (info o) | None => false end
  end.

(** [CreateFileW] with [CREATE_NEW] or [CreateDirectoryW]: an existing name is an
    error, [exists_error], whatever it is. *)
Definition create_new (directory : bool) (exists_error : Z) (path : string) (d : Descriptor) : CM unit Z :=
  call? f := call_fault in
  match f with
  | Some f => cerr (win32_error f)
  | None => λ w,
      match objects w !! path_key path with
      | Some _ => (Err exists_error, w)
      | None =>
          if parent_there (objects w) (path_key path) then
            let id := default (0, 0, 0) (head (new_ids w)) in
            (Ok tt, {| objects := <[path_key path := new_object directory (file_name path) d id]> (objects w);
                       call_faults := call_faults w; wait_faults := wait_faults w;
                       new_ids := tail (new_ids w) |})
          else (Err ERROR_PATH_NOT_FOUND, w)
      end
  end.

Definition with_contents (o : Object) (b : bytes) : Object :=
  {| info := info o; descriptor := descriptor o; contents := b; spelled := spelled o;
     case_sensitive := case_sensitive o |}.

(** [write_all] and [sync_all] through the handle of the object at [path]. *)
Definition write_contents (path : string) (b : bytes) : CM unit string :=
  call? f := call_fault in
  λ w,
    let stored := match f with Some f => take (wrote f) b | None => b end in
    let w' := match objects w !! path_key path with
              | Some o => put_object path (with_contents o stored) w
              | None => w
              end in
    (match f with Some f => Err ("write " +:+ path +:+ ": " +:+ fault_text f) | None => Ok tt end, w').

Definition ensure_directory (path sddl : string) (policy : Policy) : CM unit string :=
  call? d := cof (from_sddl sddl) in
  λ w,
    let '(r, w') := create_new true ERROR_ALREADY_EXISTS path d w in
    match r with
    | Ok _ => (Ok tt, w')
    | Err e => if e =? ERROR_ALREADY_EXISTS then check path Directory policy w'
               else (Err ("create " +:+ path +:+ ": Win32 error " +:+ dec e), w')
    end.

Definition create_new_file (path sddl : string) (b : bytes) : CM unit string :=
  call? d := cof (from_sddl sddl) in
  cmap_err (λ e, "create " +:+ path +:+ ": Win32 error " +:+ dec e)
    (create_new false ERROR_FILE_EXISTS path d) ;;~
  write_contents path b.

(** [DeleteFileW]. *)
Definition delete_file (path : string) : CM unit Z :=
  call? f := call_fault in
  match f with
  | Some f => cerr (win32_error f)
  | None => λ w,
      match objects w !! path_key path with
      | None => (Err ERROR_FILE_NOT_FOUND, w)
      | Some o => if is_directory (info o) then (Err ERROR_ACCESS_DENIED, w) else (Ok tt, remove_object path w)
      end
  end.

Definition respelled (o : Object) (name : string) : Object :=
  {| info := info o; descriptor := descriptor o; contents := contents o; spelled := name;
     case_sensitive := case_sensitive o |}.

(** [MoveFileExW] of a file, replacing a file that is there. *)
Definition move_file (from to : string) : CM unit Z :=
  call? f := call_fault in
  match f with
  | Some f => cerr (win32_error f)
  | None => λ w,
      match objects w !! path_key from with
      | None => (Err ERROR_FILE_NOT_FOUND, w)
      | Some o =>
          if from_option (λ t, is_directory (info t)) false (objects w !! path_key to)
          then (Err ERROR_ACCESS_DENIED, w)
          else (Ok tt, put_object to (respelled o (file_name to)) (remove_object from w))
      end
  end.

(** The temporary file written and moved over [path], deleted when that fails. *)
Definition write_and_move (path temporary : string) (b : bytes) : CM unit string := λ w,
  let '(moved, w1) := (write_contents temporary b ;;~
                       cmap_err (failure "replace" path) (move_file temporary path)) w in
  match moved with
  | Ok _ => (Ok tt, w1)
  | Err e => (Err e, (delete_file temporary w1).2)
  end.

Definition replace_keeping_security (path temporary : string) (b : bytes) (policy : Policy) : CM unit string :=
  call? handle := open_existing path in
  call? h := cof (ok_or handle (path +:+ " does not exist")) in
  check_shape h path File ;;~
  call? d := security_of h path in
  check_descriptor d path policy ;;~
  (λ w, let '(r, w') := delete_file temporary w in
        match r with
        | Err e => if e =? ERROR_FILE_NOT_FOUND then (Ok tt, w')
                   else (Err (failure "delete" temporary e), w')
        | Ok _ => (Ok tt, w')
        end) ;;~
  cmap_err (failure "create" temporary) (create_new false ERROR_FILE_EXISTS temporary d) ;;~
  write_and_move path temporary b.

(** ** Lemmas *)

Lemma cbind_ok {X Y E} (m : CM X E) (f : X → CM Y E) w y w' :
  cbind m f w = (Ok y, w') → ∃ x w1, m w = (Ok x, w1) ∧ f x w1 = (Ok y, w').
Proof. unfold cbind. destruct (m w) as [[x|e] w1]; [|done]. eauto. Qed.

Lemma win32_ok {X E} (err : CallFault → E) (r : CustodyWorld → X) w x w' :
  win32 err (λ w, (Ok (r w), w)) w = (Ok x, w') → objects w' = objects w ∧ ∃ u, objects u = objects w ∧ x = r u.
Proof.
  unfold win32, cbind, call_fault. destruct (call_faults w) as [|[f|] fs]; [|done|];
    intros [= <- <-]; (split; [done|]); (eexists; split; [|reflexivity]); done.
Qed.

(** An object the policy accepts. *)
Definition ace_ok (policy : Policy) (a : Ace) : Prop :=
  ace_type a = ACCESS_DENIED_ACE_TYPE ∨
  (ace_type a = ACCESS_ALLOWED_ACE_TYPE ∧
   ∃ p, p ∈ allowed policy ∧ matches p (Some (ace_sid a)) = true).

Definition descriptor_ok (policy : Policy) (d : Descriptor) : Prop :=
  (∃ p, p ∈ owners policy ∧ matches p (owner d) = true) ∧
  (protected policy = true → dacl_protected d = true) ∧
  ∃ aces, dacl d = Some aces ∧ Forall (ace_ok policy) aces.

Definition shape_ok (kind : Kind) (i : FileInfo) : Prop :=
  reparse_point i = false ∧
  match kind with Directory => is_directory i = true | File => is_directory i = false ∧ links i = 1 end.

Lemma shape_of_ok i path kind : shape_of i path kind = Ok tt ↔ shape_ok kind i.
Proof.
  unfold shape_of, shape_ok. destruct (reparse_point i); [naive_solver|].
  destruct kind, (is_directory i); try naive_solver.
  destruct (Z.eqb_spec (links i) 1); naive_solver.
Qed.

Lemma existsb_elem {X} (P : X → bool) l : existsb P l = true ↔ ∃ x, x ∈ l ∧ P x = true.
Proof. rewrite existsb_exists. by setoid_rewrite list_elem_of_In. Qed.

Lemma inspects_changes {X E : Type} (R : relation (gmap Path Object)) `{!Reflexive R} (m : CM X E) :
  inspects m → changes R m.
Proof. intros H w. by rewrite <- (H w). Qed.

Lemma changes_bind {X Y E : Type} (R : relation (gmap Path Object)) `{!Transitive R} (m : CM X E) (f : X → CM Y E) :
  changes R m → (∀ x, changes R (f x)) → changes R (cbind m f).
Proof.
  intros Hm Hf w. unfold cbind. pose proof (Hm w). destruct (m w) as [[x|e] w1]; cbn in *; [|done].
  etrans; [done|apply Hf].
Qed.
(** The same, with what is known of the first result. *)
Lemma changes_bind_ok {X Y E : Type} (R : relation (gmap Path Object)) `{!Transitive R} (m : CM X E) (f : X → CM Y E) :
  changes R m → (∀ w x w', m w = (Ok x, w') → changes R (f x)) → changes R (cbind m f).
Proof.
  intros Hm Hf w. unfold cbind. pose proof (Hm w). destruct (m w) as [[x|e] w1] eqn:E1; cbn in *; [|done].
  etrans; [done|by eapply Hf].
Qed.
Lemma changes_map_err {X E F : Type} R (f : E → F) (m : CM X E) : changes R m → changes R (cmap_err f m).
Proof. intros H w. unfold cmap_err. pose proof (H w). by destruct (m w) as [[x|e] w1]. Qed.
Lemma changes_bounded {X : Type} R `{!Reflexive R} path (m : CM X string) : changes R m → changes R (bounded path m).
Proof.
  intros H w. unfold bounded, cbind, wait_fault.
  destruct (wait_faults w) as [|[[?| |[]]|] fs]; cbn;
    first [reflexivity | match goal with |- context [m ?u] => exact (H u) end].
Qed.
Lemma inspects_win32 {X E} (err : CallFault → E) (r : CustodyWorld → X) :
  inspects (win32 err (λ w, (Ok (r w), w))).
Proof. intros w. unfold win32, cbind, call_fault. by destruct (call_faults w) as [|[f|] fs]. Qed.
Lemma inspects_win32_tt {E} (err : CallFault → E) : inspects (win32 err (λ w, (Ok tt, w))).
Proof. apply (inspects_win32 err (λ _, tt)). Qed.
Lemma inspects_of {X E} (r : Result X E) : inspects (cof r).
Proof. done. Qed.
Lemma inspects_ret {X E} (x : X) : inspects (@cret X E x).
Proof. done. Qed.
Lemma inspects_err {X E} (e : E) : inspects (@cerr X E e).
Proof. done. Qed.

(** No call fails and no wait ends. *)
Definition quiet (w : CustodyWorld) : Prop := call_faults w = [] ∧ wait_faults w = [].

Lemma win32_quiet {X E} (err : CallFault → E) k w : quiet w → @win32 X E err k w = k w.
Proof. unfold quiet, win32, cbind, call_fault. by intros [-> _]. Qed.

Lemma bounded_quiet {X} path (m : CM X string) w : quiet w → bounded path m w = m w.
Proof. unfold quiet, bounded, cbind, wait_fault. by intros [_ ->]. Qed.

Lemma bounded_ok {X} path (m : CM X string) w x w' :
  bounded path m w = (Ok x, w') → ∃ u, objects u = objects w ∧ m u = (Ok x, w').
Proof.
  unfold bounded, cbind, wait_fault. destruct (wait_faults w) as [|[[]|] fs]; try done; [eauto|].
  intros H. eexists. split; [|exact H]. done.
Qed.

Lemma cmap_err_ok {X E F} (f : E → F) (m : CM X E) w x w' :
  cmap_err f m w = (Ok x, w') → m w = (Ok x, w').
Proof. unfold cmap_err. destruct (m w) as [[y|e] w1]; [|done]. by intros [= -> ->]. Qed.

Lemma check_aces_sound path policy aces w w' :
  check_aces path policy aces w = (Ok tt, w') → Forall (ace_ok policy) aces.
Proof.
  revert w. induction aces as [|a aces IH]; intros w; [by constructor|]. cbn [check_aces]. intros H.
  apply cbind_ok in H as (_ & w1 & _ & H). unfold ace_ok at 1.
  destruct (Z.eqb_spec (ace_type a) ACCESS_DENIED_ACE_TYPE) as [Hd|_].
  { constructor; [by left|by eapply IH]. }
  destruct (Z.eqb_spec (ace_type a) ACCESS_ALLOWED_ACE_TYPE) as [Ha|_]; [|done].
  destruct (existsb _ _) eqn:E; [|done]. apply existsb_elem in E.
  constructor; [by right|by eapply IH].
Qed.

Lemma check_aces_complete path policy aces w :
  quiet w → Forall (ace_ok policy) aces → check_aces path policy aces w = (Ok tt, w).
Proof.
  intros Hq. induction 1 as [|a aces Ha _ IH]; [done|]. cbn [check_aces]. unfold cbind.
  rewrite win32_quiet by done. destruct Ha as [->|[-> Hp]]; [done|].
  cbn [Z.eqb]. rewrite (proj2 (existsb_elem _ _) Hp). done.
Qed.

Lemma check_descriptor_sound d path policy w w' :
  check_descriptor d path policy w = (Ok tt, w') → descriptor_ok policy d.
Proof.
  unfold check_descriptor, descriptor_ok. intros H.
  apply cbind_ok in H as (_ & w1 & _ & H). apply cbind_ok in H as (_ & w2 & _ & H).
  destruct (existsb _ _) eqn:E; [|done]. apply existsb_elem in E. cbn [negb] in H.
  destruct (dacl d) as [aces|]; [|done]. apply cbind_ok in H as ([] & w3 & Hp & H).
  split_and!; [done| |eauto using check_aces_sound].
  intros Hprot. rewrite Hprot in Hp. apply cbind_ok in Hp as (_ & w4 & _ & Hp).
  by destruct (dacl_protected d).
Qed.

Lemma check_descriptor_complete d path policy w :
  quiet w → descriptor_ok policy d → check_descriptor d path policy w = (Ok tt, w).
Proof.
  intros Hq (Ho & Hp & aces & Hd & Ha). unfold check_descriptor, cbind.
  rewrite !win32_quiet by done. rewrite (proj2 (existsb_elem _ _) Ho). cbn [negb]. rewrite Hd.
  destruct (protected policy).
  - rewrite win32_quiet by done. rewrite Hp by done. cbn [cret]. by apply check_aces_complete.
  - cbn [cret]. by apply check_aces_complete.
Qed.

(** An object whose shape and security the policy accepts. *)
Definition in_custody (kind : Kind) (policy : Policy) (o : Object) : Prop :=
  shape_ok kind (info o) ∧ descriptor_ok policy (descriptor o).

Lemma check_shape_sound h path kind w w' :
  check_shape h path kind w = (Ok tt, w') → shape_ok kind (info h).
Proof.
  unfold check_shape. intros H. apply cbind_ok in H as (i & w1 & Hi & H).
  apply win32_ok in Hi as (_ & u & _ & ->). injection H as H _. by apply shape_of_ok in H.
Qed.

Lemma check_security_sound h path policy w w' :
  check_security h path policy w = (Ok tt, w') → descriptor_ok policy (descriptor h).
Proof.
  unfold check_security. intros H. apply cbind_ok in H as (d & w1 & Hd & H).
  apply win32_ok in Hd as (_ & u & _ & ->). by eapply check_descriptor_sound.
Qed.

Lemma open_raw_ok path w o w' :
  open_raw path w = (Ok o, w') → o = objects w !! path_key path ∧ objects w' = objects w.
Proof.
  unfold open_raw, cbind, call_fault. destruct (call_faults w) as [|[f|] fs];
    [by intros [= <- <-]| |by intros [= <- <-]]. case_match; [by intros [= <- <-]|done].
Qed.

Lemma open_existing_ok path w o w' :
  open_existing path w = (Ok o, w') → o = objects w !! path_key path ∧ objects w' = objects w.
Proof.
  unfold open_existing. intros (u & Hu & H%cmap_err_ok%open_raw_ok)%bounded_ok. by rewrite <- Hu.
Qed.

Lemma open_raw_quiet path w : quiet w → open_raw path w = (Ok (objects w !! path_key path), w).
Proof. unfold quiet, open_raw, cbind, call_fault. by intros [-> _]. Qed.

Lemma open_existing_quiet path w : quiet w → open_existing path w = (Ok (objects w !! path_key path), w).
Proof. intros Hq. unfold open_existing, cmap_err. by rewrite bounded_quiet, open_raw_quiet by done. Qed.

Lemma check_if_exists_sound path kind policy w b w' :
  check_if_exists path kind policy w = (Ok b, w') →
  if b then ∃ o, objects w !! path_key path = Some o ∧ in_custody kind policy o
  else objects w !! path_key path = None.
Proof.
  unfold check_if_exists, check_if_exists_within. intros H. apply cbind_ok in H as (h & w1 & Ho & H).
  apply open_existing_ok in Ho as [-> _]. destruct (objects w !! path_key path) as [o|]; [|by injection H as <- _].
  apply cbind_ok in H as ([] & w2 & Hs & H). apply cbind_ok in H as ([] & w3 & Hd & H).
  injection H as <- _. exists o. split; [done|].
  split; [by eapply check_shape_sound|by eapply check_security_sound].
Qed.

Lemma check_if_exists_complete path kind policy w o :
  quiet w → objects w !! path_key path = Some o → in_custody kind policy o →
  check_if_exists path kind policy w = (Ok true, w).
Proof.
  intros Hq Ho [Hs Hd]. unfold check_if_exists, check_if_exists_within, check_shape, file_information,
    check_security, security_of, cbind. rewrite open_existing_quiet, Ho by done.
  rewrite !win32_quiet by done. unfold cof. rewrite (proj2 (shape_of_ok _ _ _) Hs). rewrite win32_quiet by done.
  by rewrite check_descriptor_complete.
Qed.

Lemma check_aces_inspects path policy aces : inspects (check_aces path policy aces).
Proof.
  induction aces as [|a aces IH]; cbn [check_aces]; [done|].
  apply (changes_bind _); [apply inspects_win32_tt|]. intros _. repeat case_match; done.
Qed.

Lemma check_descriptor_inspects d path policy : inspects (check_descriptor d path policy).
Proof.
  unfold check_descriptor. do 2 (apply (changes_bind _); [apply inspects_win32_tt|]; intros _).
  case_match; [done|]. destruct (dacl d) as [aces|]; [|done].
  apply (changes_bind _); [|intros; apply check_aces_inspects]. destruct (protected policy); [|done].
  apply (changes_bind _); [apply inspects_win32_tt|]. intros _. by case_match.
Qed.

Lemma check_shape_inspects h path kind : inspects (check_shape h path kind).
Proof. apply (changes_bind _); [apply (inspects_win32 _ (λ _, info h))|]. done. Qed.

Lemma security_of_inspects h path : inspects (security_of h path).
Proof. apply (inspects_win32 _ (λ _, descriptor h)). Qed.

Lemma open_raw_inspects path : inspects (open_raw path).
Proof.
  intros w. unfold open_raw, cbind, call_fault. destruct (call_faults w) as [|[f|] fs]; try done.
  by case_match.
Qed.

Lemma open_existing_inspects path : inspects (open_existing path).
Proof. apply (changes_bounded _), changes_map_err, open_raw_inspects. Qed.

Lemma check_security_inspects h path policy : inspects (check_security h path policy).
Proof. apply (changes_bind _); [apply security_of_inspects|]. intros. apply check_descriptor_inspects. Qed.

Lemma check_if_exists_inspects path kind policy : inspects (check_if_exists path kind policy).
Proof.
  apply (changes_bind _); [apply open_existing_inspects|]. intros [h|]; [|done].
  apply (changes_bind _); [apply check_shape_inspects|]. intros _.
  apply (changes_bind _); [apply check_security_inspects|]. done.
Qed.

Lemma check_inspects path kind policy : inspects (check path kind policy).
Proof. apply (changes_bind _); [apply check_if_exists_inspects|]. by intros []. Qed.

(** What [create_new] leaves, however it ends. *)
Lemma create_new_run dir ee path d w :
  let '(r, w') := create_new dir ee path d w in
  match r with
  | Ok _ => objects w !! path_key path = None ∧
      ∃ id, objects w' = <[path_key path := new_object dir (file_name path) d id]> (objects w)
  | Err _ => objects w' = objects w
  end.
Proof.
  unfold create_new, cbind, call_fault. destruct (call_faults w) as [|[f|] fs]; cbn; [|done|];
    (destruct (objects w !! path_key path) eqn:E; [done|]);
    (destruct (parent_there _ _); [|done]); (split; [done|]); eexists; reflexivity.
Qed.

Lemma write_contents_run path b w :
  let '(r, w') := write_contents path b w in
  ∃ stored, (r = Ok tt → stored = b) ∧ stored `prefix_of` b ∧
    objects w' = match objects w !! path_key path with
                 | Some o => <[path_key path := with_contents o stored]> (objects w)
                 | None => objects w
                 end.
Proof.
  unfold write_contents, cbind, call_fault.
  destruct (call_faults w) as [|[f|] fs]; cbn.
  - exists b. by destruct (objects w !! path_key path).
  - exists (take (wrote f) b). split; [done|]. split; [apply prefix_take|].
    by destruct (objects w !! path_key path).
  - exists b. by destruct (objects w !! path_key path).
Qed.

Lemma delete_file_run path w :
  let '(r, w') := delete_file path w in
  objects w' = objects w ∨ objects w' = delete (path_key path) (objects w).
Proof.
  unfold delete_file, cbind, call_fault. destruct (call_faults w) as [|[f|] fs]; cbn; [|by left|];
    (destruct (objects w !! path_key path) as [o|]; [destruct (is_directory (info o))|]); cbn; auto.
Qed.

Lemma move_file_run from to w :
  let '(r, w') := move_file from to w in
  match r with
  | Ok _ => ∃ o, objects w !! path_key from = Some o ∧
      objects w' = <[path_key to := respelled o (file_name to)]> (delete (path_key from) (objects w))
  | Err _ => objects w' = objects w
  end.
Proof.
  unfold move_file, cbind, call_fault. destruct (call_faults w) as [|[f|] fs]; cbn; [|done|];
    (destruct (objects w !! path_key from) as [o|] eqn:E; cbn; [|done]); destruct (from_option _ _ _); eauto.
Qed.

(** The objects [replace_keeping_security] may leave from [m]: [path] as it was, or
    replaced by one with the security [d] and the contents [b]; nothing else but
    the temporary changes, which is gone, as it was, or has the security [d]. *)
Definition replaced (path temporary : Path) (d : Descriptor) (b : bytes) (done : bool)
    (m m' : gmap Path Object) : Prop :=
  (if done then ∃ o, m' !! path = Some o ∧ descriptor o = d ∧ contents o = b ∧ shape_ok File (info o)
   else m' !! path = m !! path) ∧
  (∀ q, q ≠ path → q ≠ temporary → m' !! q = m !! q) ∧
  (m' !! temporary = m !! temporary ∨ m' !! temporary = None ∨
   ∃ o, m' !! temporary = Some o ∧ descriptor o = d).

Lemma write_and_move_run path temporary d b id w :
  path_key path ≠ path_key temporary → objects w !! path_key temporary = Some (new_object false (file_name temporary) d id) →
  let '(r, w') := write_and_move path temporary b w in
  replaced (path_key path) (path_key temporary) d b (is_ok r) (objects w) (objects w').
Proof.
  intros Hne Ht. unfold write_and_move, cbind, cmap_err.
  pose proof (write_contents_run temporary b w) as Hw.
  destruct (write_contents temporary b w) as [r1 w1]. destruct Hw as (stored & Hr & _ & Hw). rewrite Ht in Hw.
  assert (∀ w2, objects w2 = objects w1 →
    replaced (path_key path) (path_key temporary) d b false (objects w) (objects (delete_file temporary w2).2)) as Hcleanup.
  { intros w2 H2. pose proof (delete_file_run temporary w2) as Hdel.
    destruct (delete_file temporary w2) as [r3 w3]. cbn [snd]. rewrite H2, Hw in Hdel.
    destruct Hdel as [-> | ->]; unfold replaced.
    - split_and!; [by rewrite lookup_insert_ne|intros; by rewrite lookup_insert_ne|].
      right; right. rewrite lookup_insert_eq. eexists. split; reflexivity.
    - rewrite delete_insert_eq. split_and!; [by rewrite lookup_delete_ne|intros; by rewrite lookup_delete_ne|].
      right; left. apply lookup_delete_eq. }
  destruct r1 as [[]|e]; [|by apply Hcleanup].
  pose proof (move_file_run temporary path w1) as Hm.
  destruct (move_file temporary path w1) as [[[]|e] w2]; cbn [map_err is_ok]; [|by apply Hcleanup].
  destruct Hm as (o & Ho & Hm). rewrite Hw, lookup_insert_eq in Ho. injection Ho as <-.
  rewrite Hm, Hw. unfold replaced. split_and!.
  - rewrite lookup_insert_eq. eexists. split_and!; [reflexivity|reflexivity|by apply Hr|done].
  - intros q H1 H2. by rewrite lookup_insert_ne, lookup_delete_ne, lookup_insert_ne.
  - right; left. by rewrite lookup_insert_ne, lookup_delete_eq.
Qed.

(** The temporary deleted, created anew and moved over the path. *)
Lemma replace_tail path temporary d b w :
  path_key path ≠ path_key temporary →
  ∃ r w',
    ((λ w, let '(r, w') := delete_file temporary w in
           match r with
           | Err e => if e =? ERROR_FILE_NOT_FOUND then (Ok tt, w')
                      else (Err (failure "delete" temporary e), w')
           | Ok _ => (Ok tt, w')
           end) ;;~
     cmap_err (failure "create" temporary) (create_new false ERROR_FILE_EXISTS temporary d) ;;~
     write_and_move path temporary b) w = (r, w') ∧
    replaced (path_key path) (path_key temporary) d b (is_ok r) (objects w) (objects w').
Proof.
  intros Hne. unfold cbind, cmap_err.
  pose proof (delete_file_run temporary w) as Hd. destruct (delete_file temporary w) as [rd w1].
  assert (∀ w', objects w' = objects w1 → replaced (path_key path) (path_key temporary) d b false (objects w) (objects w')) as Hkeep.
  { intros w' ->. unfold replaced.
    destruct Hd as [-> | ->]; [split_and!; auto|].
    split_and!; [by rewrite lookup_delete_ne|intros; by rewrite lookup_delete_ne|].
    right; left. apply lookup_delete_eq. }
  assert (∀ q, q ≠ path_key temporary → objects w1 !! q = objects w !! q) as Hother.
  { intros q Hq. destruct Hd as [-> | ->]; [done|by rewrite lookup_delete_ne]. }
  set (step := match rd with Ok _ => _ | Err _ => _ end).
  assert (step = (Ok tt, w1) ∨ ∃ e, step = (Err e, w1)) as [-> | [e ->]].
  { subst step. destruct rd; [by left|]. case_match; [by left|right; eauto]. }
  2: { eexists _, _. split; [reflexivity|]. by apply Hkeep. }
  pose proof (create_new_run false ERROR_FILE_EXISTS temporary d w1) as Hc.
  destruct (create_new _ _ temporary d w1) as [[[]|e] w2]; cbn [map_err].
  2: { eexists _, _. split; [reflexivity|]. by apply Hkeep. }
  destruct Hc as [Hn [id Hc]].
  pose proof (write_and_move_run path temporary d b id w2 Hne) as Hm. rewrite Hc, lookup_insert_eq in Hm.
  specialize (Hm eq_refl). destruct (write_and_move path temporary b w2) as [r w3].
  exists r, w3. split; [done|]. destruct Hm as (H1 & H2 & H3). unfold replaced. split_and!.
  - destruct (is_ok r); [done|]. rewrite H1, lookup_insert_ne by done. by apply Hother.
  - intros q Hq1 Hq2. rewrite H2, lookup_insert_ne by done. by apply Hother.
  - right. destruct H3 as [H3|H3]; [|done]. right. rewrite H3, lookup_insert_eq. eexists. by split.
Qed.

(** Nothing is written under another security: whatever calls fail,
    [create_new_file] changes no object but the one it creates, only where nothing
    was, and that object has from its creation the security its SDDL says and is a
    plain file; when it succeeds it has the whole contents. *)
Lemma created_file_run path sddl b w :
  let '(r, w') := create_new_file path sddl b w in
  (objects w' = objects w ∧ r ≠ Ok tt) ∨
  (objects w !! path_key path = None ∧
   ∃ o, objects w' = <[path_key path := o]> (objects w) ∧ from_sddl sddl = Ok (descriptor o) ∧
        shape_ok File (info o) ∧ (r = Ok tt → contents o = b) ∧
        contents o `prefix_of` b ∧ spelled o = file_name path).
Proof.
  unfold create_new_file, cbind, cof, cmap_err. destruct (from_sddl sddl) as [d|e]; [|by left].
  pose proof (create_new_run false ERROR_FILE_EXISTS path d w) as Hc.
  destruct (create_new _ _ path d w) as [[[]|e] w1]; cbn [map_err]; [|by left].
  destruct Hc as [Hn [id Hc]]. pose proof (write_contents_run path b w1) as Hw.
  destruct (write_contents path b w1) as [r w2]. destruct Hw as (stored & Hr & Hp & Hw).
  rewrite Hc, lookup_insert_eq in Hw. right. split; [done|].
  eexists. split; [rewrite Hw; apply insert_insert_eq|]. done.
Qed.

(** What [replace_keeping_security] leaves. *)
Lemma replace_keeping_run path temporary b policy w o :
  path_key path ≠ path_key temporary → objects w !! path_key path = Some o →
  let '(r, w') := replace_keeping_security path temporary b policy w in
  replaced (path_key path) (path_key temporary) (descriptor o) b (is_ok r) (objects w) (objects w') ∧
  (r = Ok tt → in_custody File policy o).
Proof.
  intros Hne Ho. unfold replace_keeping_security.
  assert (∀ e w', objects w' = objects w →
    replaced (path_key path) (path_key temporary) (descriptor o) b (@is_ok unit string (Err e)) (objects w) (objects w')) as Hsame.
  { intros e w' ->. cbn [is_ok]. unfold replaced. split_and!; [done|done|by left]. }
  unfold cbind at 1. pose proof (open_existing_inspects path w) as I1.
  destruct (open_existing path w) as [[h|e] w1] eqn:E1; cbn [snd] in I1; [|by split; [apply Hsame|]].
  apply open_existing_ok in E1 as [-> _]. rewrite Ho. unfold cbind at 1. cbn [cof ok_or].
  unfold cbind at 1. pose proof (check_shape_inspects o path File w1) as I2.
  destruct (check_shape o path File w1) as [[[]|e] w2] eqn:E2; cbn [snd] in I2;
    [|split; [apply Hsame; congruence|done]]. apply check_shape_sound in E2.
  unfold cbind at 1. pose proof (security_of_inspects o path w2) as I3.
  destruct (security_of o path w2) as [[d|e] w3] eqn:E3; cbn [snd] in I3;
    [|split; [apply Hsame; congruence|done]].
  apply win32_ok in E3 as (_ & u & _ & ->).
  unfold cbind at 1. pose proof (check_descriptor_inspects (descriptor o) path policy w3) as I4.
  destruct (check_descriptor (descriptor o) path policy w3) as [[[]|e] w4] eqn:E4; cbn [snd] in I4;
    [|split; [apply Hsame; congruence|done]]. apply check_descriptor_sound in E4.
  assert (objects w4 = objects w) as Hw4 by congruence.
  destruct (replace_tail path temporary (descriptor o) b w4 Hne) as (r & w' & -> & H).
  rewrite Hw4 in H. split; [exact H|done].
Qed.

(** ** Theorems *)

(** C35 The custody check accepts exactly the objects in custody. Whatever calls
    fail, a check that passes found an object that is not a reparse point, is of
    the kind asked (a file with a single link), is owned by one of the policy's
    owners, has a DACL, protected when the policy asks, whose every entry is a deny
    entry or allows one of the policy's principals; an object that is all this
    passes whenever no call fails; and the check changes nothing. *)
Theorem custody_check_exact path kind policy w :
  (∀ w', check path kind policy w = (Ok tt, w') →
     ∃ o, objects w !! path_key path = Some o ∧ in_custody kind policy o) ∧
  (quiet w → ∀ o, objects w !! path_key path = Some o → in_custody kind policy o →
     check path kind policy w = (Ok tt, w)) ∧
  objects (check path kind policy w).2 = objects w.
Proof.
  split_and!.
  - intros w' H. unfold check in H. apply cbind_ok in H as ([] & w1 & Hc & H); [|done].
    by apply check_if_exists_sound in Hc.
  - intros Hq o Ho Hc. unfold check, cbind. by rewrite (check_if_exists_complete _ _ _ _ o).
  - symmetry; apply check_inspects.
Qed.

(** Replacing a file keeps its custody and is all or nothing: whatever calls
    fail, [replace_keeping_security] succeeds exactly when the path afterwards holds
    the whole new contents in a plain file under the very descriptor it had, which the
    policy accepts; otherwise the path is as it was. No other object changes but the
    temporary, which never exists under any other security than it had before or that
    descriptor. *)
Theorem replace_keeps_custody path temporary b policy w o :
  path_key path ≠ path_key temporary → objects w !! path_key path = Some o →
  let '(r, w') := replace_keeping_security path temporary b policy w in
  replaced (path_key path) (path_key temporary) (descriptor o) b (is_ok r) (objects w) (objects w') ∧
  (r = Ok tt → in_custody File policy o).
Proof. apply replace_keeping_run. Qed.
End Custody.

(** A Windows with three SIDs. *)
Module ToyWin32.
Definition system_sid : bytes := [Byte.x12].
Definition admin_sid : bytes := [Byte.x20].
Definition allow (sid : bytes) : Ace := {| ace_type := 0; ace_flags := 0; ace_mask := 2032127; ace_sid := sid |}.
Instance toy : Win32Security := {|
  IsValidSid := λ b, negb (bool_decide (b = []));
  IsWellKnownSid := λ b k, bool_decide (b = match k with
                                            | WinLocalSystemSid => system_sid
                                            | WinBuiltinAdministratorsSid => admin_sid
                                            end);
  EqualSid := λ a b, bool_decide (a = b);
  from_sddl_text := λ _, Ok {| owner := Some system_sid; dacl := Some [allow system_sid]; dacl_protected := true |};
  sid_to_string := λ b, Ok (String.string_of_list_byte b) |}.
Definition sample_object (b : bytes) : Object :=
  {| info := {| reparse_point := false; is_directory := false; links := 1; volume_serial := 7;
                index_high := 0; index_low := 9 |};
     descriptor := {| owner := Some system_sid;
                      dacl := Some [{| ace_type := 1; ace_flags := 0; ace_mask := 1; ace_sid := [Byte.x01] |};
                                    allow admin_sid];
                      dacl_protected := true |};
     contents := b; spelled := "agent.toml"; case_sensitive := false |}.
Definition world : CustodyWorld :=
  {| objects := {[ ["agent.toml"] := sample_object [Byte.x01] ]}; call_faults := []; wait_faults := [];
     new_ids := [] |}.
End ToyWin32.

Lemma replace_keeps_custody_witness :
  let run := replace_keeping_security (S := ToyWin32.toy) "agent.toml" "tmp" [Byte.x02] configuration
               ToyWin32.world in
  run.1 = Ok tt ∧ in_custody (S := ToyWin32.toy) File configuration (ToyWin32.sample_object [Byte.x01]) ∧
  ∃ o, objects run.2 !! path_key "agent.toml" = Some o ∧ contents o = [Byte.x02].
Proof.
  pose proof (replace_keeps_custody (S := ToyWin32.toy) "agent.toml" "tmp" [Byte.x02] configuration
    ToyWin32.world (ToyWin32.sample_object [Byte.x01]) ltac:(vm_compute; discriminate) eq_refl) as H.
  assert ((replace_keeping_security (S := ToyWin32.toy) "agent.toml" "tmp" [Byte.x02] configuration
             ToyWin32.world).1 = Ok tt) as E by (vm_compute; reflexivity).
  cbv zeta. destruct (replace_keeping_security _ _ _ _ _) as [r w']. cbn [fst snd] in *. subst r.
  destruct H as [[(o & Ho & _ & Hc & _) _] Hp].
  split; [reflexivity|]. split; [apply Hp; reflexivity|]. exists o. split; [exact Ho|exact Hc].
Defined.
