(* ===== verification/CustodyHandles.v ===== *)
(** * What the custody code opens, it closes

    The functions of [custody.rs], [service/log_file.rs], [service/migration.rs],
    [identity.rs], [secure_storage.rs], [etw/hygiene.rs] and [service/windows.rs] that hold
    something of Windows', written over the calculus of [Handles]: what each opens, uses and
    closes, in the order of the source, the drops at the end of a scope included. Their
    errors are [Err tt]; what they decide and say is in [Custody], [CustodyTree],
    [LogFile], [Protection] and the migration's files. What a call answers is an answer of
    the program's, so each path of each function is a run. *)

From S2P Require Import Prelude FileTree IpAddr Types Custody Handles.
Open Scope Z_scope.

(** ** Small pieces *)

(** [LocalFree]: of null it does nothing. *)
Definition LocalFree (p : Z) : hprog unit := if p =? 0 then HRet tt else close p.

(** [Handle::into_file]: the handle is forgotten, the [File] owns what it was. *)
Definition into_file (h : Z) : Z := h.

(** ** Descriptors *)

Definition from_sddl : hprog (Result Z unit) :=
  let! descriptor := open_or 0 in
  if descriptor =? 0 then then! ask in HRet (Err tt) else HRet (Ok descriptor).

(** The owner points into the descriptor. *)
Definition owner_of (d : Z) : hprog (Result Z unit) :=
  try! _ := succeeds (use d) in let! owner := ask in HRet (Ok owner).
Definition has_owner (d : Z) : hprog (Result bool unit) :=
  try! owner := owner_of d in HRet (Ok (negb (owner =? 0))).
Definition owned_by (d : Z) : hprog (Result bool unit) :=
  try! owner := owner_of d in let! matched := use d in HRet (Ok (negb (matched =? 0))).

(** [GetAce], the entry's header and its SID, all inside the descriptor. [allow_entries]
    passes inherit-only entries over and keeps the SIDs, the custody check looks each up. *)
Fixpoint read_aces (d : Z) (checks : bool) (count : nat) : hprog (Result unit unit) :=
  match count with
  | O => HRet (Ok tt)
  | S count =>
      try! _ := succeeds (use d) in
      let! inherit_only := (if checks then HRet 0 else use d) in
      if negb (inherit_only =? 0) then read_aces d checks count
      else
        let! kind := use d in
        if kind =? ACCESS_DENIED_ACE_TYPE then read_aces d checks count
        else if kind =? ACCESS_ALLOWED_ACE_TYPE then
          let! sid := use d in
          if checks && (sid =? 0) then HRet (Err tt) else read_aces d checks count
        else HRet (Err tt)
  end.

(** [allow_entries]: whether there is a DACL, its entries read. *)
Definition allow_entries (d : Z) : hprog (Result bool unit) :=
  try! _ := succeeds (use d) in
  let! dacl := ask in
  if dacl =? 0 then HRet (Ok false)
  else
    let! count := use d in
    try! _ := read_aces d false (Z.to_nat count) in HRet (Ok true).

Definition check_descriptor (d : Z) (protected : bool) : hprog (Result unit unit) :=
  try! _ := succeeds (use d) in
  try! _ := succeeds (use d) in
  let! owned := use d in
  if owned =? 0 then HRet (Err tt)
  else
    let! dacl := ask in
    if dacl =? 0 then HRet (Err tt)
    else
      try! _ := (if protected then try! _ := succeeds (use d) in succeeds ask else HRet (Ok tt)) in
      let! count := use d in
      read_aces d true (Z.to_nat count).

Definition security_of (h : Z) : hprog (Result Z unit) :=
  let! error := use h in
  if error =? 0 then let! descriptor := open_always in HRet (Ok descriptor) else HRet (Err tt).

Definition check_security (h : Z) (protected : bool) : hprog (Result unit unit) :=
  try! d := security_of h in scoped d (check_descriptor d protected).

(** ** Handles *)

Definition open_raw : hprog (Result (option Z) Z) :=
  let! raw := open_or INVALID_HANDLE_VALUE in
  if raw =? INVALID_HANDLE_VALUE then
    let! error := ask in
    if (error =? ERROR_FILE_NOT_FOUND) || (error =? ERROR_PATH_NOT_FOUND) then HRet (Ok None) else HRet (Err error)
  else HRet (Ok (Some raw)).

Definition file_information (h : Z) : hprog (Result FileInfo unit) :=
  try! _ := succeeds (use h) in
  let! attributes := ask in
  let! links := ask in
  let! volume := ask in
  let! high := ask in
  let! low := ask in
  HRet (Ok {| reparse_point := Z.testbit attributes 10; is_directory := Z.testbit attributes 4; links := links;
              volume_serial := volume; index_high := high; index_low := low |}).

Definition check_shape (h : Z) (kind : Kind) : hprog (Result unit unit) :=
  try! info := file_information h in HRet (map_err (λ _, tt) (shape_of info "" kind)).

(** ** An operation on a thread of its own *)

Definition CANCEL_TRIES : nat := 50.

Fixpoint close_all (hs : list Z) : hprog unit :=
  match hs with [] => HRet tt | h :: hs => then! close h in close_all hs end.

(** An operation that may panic, at any of its calls: the stack unwinds, which drops what
    it owns then, [mine], the last first; no result comes of it. *)
Fixpoint unwinds {A} (mine : list Z) (op : hprog A) : hprog (option A) :=
  let! panics := ask in
  if negb (panics =? 0) then then! close_all mine in HRet None
  else
    match op with
    | HRet a => HRet (Some a)
    | HOpen on_failure k =>
        HOpen on_failure (λ h, unwinds (if decide (on_failure = Some h) then mine else h :: mine) (k h))
    | HUse h k => HUse h (λ z, unwinds mine (k z))
    | HClose h k => HClose h (unwinds (filter (.≠ h) mine) k)
    | HAsk k => HAsk (λ z, unwinds mine (k z))
    | HLeave q k => HLeave q (unwinds mine k)
    end.

(** The waits for a result, with [tries] cancellations to come: while one has not timed
    out the operation may go on; when the last has, the thread is left behind. *)
Fixpoint wait {A} (worker : Z) (behind : lprog) (go : nat → hprog (Result A unit)) (tries : nat)
  : hprog (Result A unit) :=
  let! timed_out := ask in
  if timed_out =? 0 then go tries
  else
    match tries with
    | O => HLeave behind (HRet (Err tt))
    | S tries => then! use worker in wait worker behind go tries
    end.

(** What the thread still does when it is left behind: its result is sent to no one, which
    drops it. *)
Definition late {A} (discard : A → hprog unit) (op : hprog (option (Result A unit))) : hprog unit :=
  let! r := op in match r with Some (Ok a) => discard a | _ => HRet tt end.

(** The calls of the operation, while someone waits for it: before each, and before its
    result is received, the waits may time out. *)
Fixpoint attend {A} (worker : Z) (discard : A → hprog unit) (op : hprog (option (Result A unit))) (tries : nat)
  : hprog (Result A unit) :=
  wait worker (detach (late discard op)) (λ tries,
    match op with
    | HRet (Some r) => HRet r
    | HRet None | HLeave _ _ => HRet (Err tt)
    | HOpen on_failure k => HOpen on_failure (λ h, attend worker discard (k h) tries)
    | HUse h k => HUse h (λ z, attend worker discard (k z) tries)
    | HClose h k => HClose h (attend worker discard k tries)
    | HAsk k => HAsk (λ z, attend worker discard (k z) tries)
    end) tries.

(** [bounded]: [captured] is what the operation's closure owns, dropped with it when no
    thread starts; [discard] drops what a result holds. *)
Definition bounded {A} (captured : list Z) (operation : hprog (Result A unit)) (discard : A → hprog unit)
  : hprog (Result A unit) :=
  let! worker := open_or 0 in
  if worker =? 0 then then! close_all captured in HRet (Err tt)
  else scoped worker (attend worker discard (unwinds captured operation) CANCEL_TRIES).

Definition drop_option (o : option Z) : hprog unit :=
  match o with Some h => close h | None => HRet tt end.

Definition open_existing : hprog (Result (option Z) unit) :=
  bounded [] (let! r := open_raw in HRet (map_err (λ _, tt) r)) drop_option.

Definition open_waiting : hprog (Result Z unit) :=
  bounded []
    (let! r := open_raw in
     HRet (match r with Ok (Some h) => Ok h | _ => Err tt end)) close.

(** ** Checks and reads *)

Definition check_if_exists_within (kind : Kind) (protected : bool) : hprog (Result bool unit) :=
  try! o := open_existing in
  match o with
  | None => HRet (Ok false)
  | Some h =>
      scoped h (try! _ := check_shape h kind in try! _ := check_security h protected in HRet (Ok true))
  end.

Definition check (kind : Kind) (protected : bool) : hprog (Result unit unit) :=
  try! there := check_if_exists_within kind protected in
  HRet (if there : bool then Ok tt else Err tt).

Definition has_security (protected : bool) : hprog bool :=
  let! o := open_existing in
  match o with
  | Ok (Some h) => scoped h (let! r := check_security h protected in HRet (is_ok r))
  | _ => HRet false
  end.

Definition is_plain_directory : hprog bool :=
  let! o := open_existing in
  match o with
  | Ok (Some h) => scoped h (let! r := check_shape h Directory in HRet (is_ok r))
  | _ => HRet false
  end.

(** [read_to_end] of a [File] that is dropped with the statement. *)
Definition read_file (h : Z) : hprog (Result unit unit) :=
  let file := into_file h in scoped file (succeeds (use file)).

Definition read_checked_within (protected : bool) : hprog (Result bool unit) :=
  try! o := open_existing in
  match o with
  | None => HRet (Ok false)
  | Some h =>
      holding! h; info := file_information h in
      holding! h; _ := HRet (map_err (λ _, tt) (shape_of info "" File)) in
      holding! h; d := security_of h in
      let! verdict := check_descriptor d protected in
      match verdict with
      | Err e => then! close d in then! close h in HRet (Err e)
      | Ok _ => scoped d (try! _ := read_file h in HRet (Ok true))
      end
  end.

Definition read_unshared : hprog (Result FileInfo unit) :=
  bounded []
    (let! r := open_raw in
     match r with
     | Ok (Some h) =>
         holding! h; _ := check_shape h File in
         holding! h; info := file_information h in
         holding! h; _ := succeeds ask in
         try! _ := read_file h in
         HRet (Ok info)
     | _ => HRet (Err tt)
     end) (λ _, HRet tt).

Definition is_case_sensitive (h : Z) : hprog (Result bool unit) :=
  let! ok := use h in
  if ok =? 0 then let! known := ask in HRet (if known =? 0 then Err tt else Ok false)
  else let! flags := ask in HRet (Ok (Z.testbit flags 0)).

(** ** Writes *)

(** [write_all] and [sync_all] of a [File], dropped after them. *)
Definition write_file (h : Z) : hprog (Result unit unit) :=
  let file := into_file h in
  scoped file (try! _ := succeeds (use file) in succeeds (use file)).

(** [CreateFileW] or [CreateDirectoryW] with the descriptor's attributes. *)
Definition create_file (d : Z) : hprog Z := then! use d in open_or INVALID_HANDLE_VALUE.
Definition create_directory (d : Z) : hprog Z := use d.

Definition ensure_directory (protected : bool) : hprog (Result unit unit) :=
  try! d := from_sddl in
  scoped d (
    let! created := create_directory d in
    if negb (created =? 0) then HRet (Ok tt)
    else
      let! error := ask in
      if negb (error =? ERROR_ALREADY_EXISTS) then HRet (Err tt) else check Directory protected).

Definition create_new_directory : hprog (Result unit unit) :=
  try! d := from_sddl in scoped d (succeeds (create_directory d)).

Definition create_new_file : hprog (Result unit unit) :=
  try! d := from_sddl in
  scoped d (
    let! raw := create_file d in
    if raw =? INVALID_HANDLE_VALUE then HRet (Err tt) else write_file raw).

(** The object at the path checked and its descriptor taken, the handle dropped. *)
Definition descriptor_checked (protected : bool) : hprog (Result Z unit) :=
  try! o := open_existing in
  match o with
  | None => HRet (Err tt)
  | Some h =>
      holding! h; _ := check_shape h File in
      holding! h; d := security_of h in
      let! verdict := check_descriptor d protected in
      match verdict with
      | Err e => then! close d in then! close h in HRet (Err e)
      | Ok _ => then! close h in HRet (Ok d)
      end
  end.

Definition replace_keeping_security (protected : bool) : hprog (Result unit unit) :=
  try! d := descriptor_checked protected in
  scoped d (
    let! deleted := ask in
    let! error := (if deleted =? 0 then ask else HRet ERROR_FILE_NOT_FOUND) in
    if negb (error =? ERROR_FILE_NOT_FOUND) then HRet (Err tt)
    else
      let! raw := create_file d in
      if raw =? INVALID_HANDLE_VALUE then HRet (Err tt)
      else
        let! written := write_file raw in
        let! moved := (match written with Ok _ => succeeds ask | Err e => HRet (Err e) end) in
        then! (if is_ok moved then HRet 0 else ask) in
        HRet moved).

(** [SetKernelObjectSecurity]. *)
Definition change_security (h d : Z) : hprog Z := then! use h in use d.

(** [set_security]: the handle goes into the operation, and comes back in its result. *)
Definition set_security (h : Z) : hprog (Result Z unit) :=
  bounded [h]
    (holding! h; d := from_sddl in
     let! changed := (try! _ := has_owner d in succeeds (change_security h d)) in
     match changed with
     | Err e => then! close d in then! close h in HRet (Err e)
     | Ok _ => then! close d in HRet (Ok h)
     end) close.

(** [delete_through]: the handle closes with the operation. *)
Definition delete_through (h : Z) : hprog (Result unit unit) :=
  bounded [h]
    (scoped h (
       let! ok := use h in
       if negb (ok =? 0) then HRet (Ok tt)
       else
         let! unsupported := ask in
         if unsupported =? 0 then HRet (Err tt) else succeeds (use h))) (λ _, HRet tt).

(** ** The service's log file *)

Definition open_log_file : hprog (Result Z unit) :=
  try! d := from_sddl in
  scoped d (
    let! raw := create_file d in
    if raw =? INVALID_HANDLE_VALUE then HRet (Err tt)
    else
      let! error := ask in
      holding! raw; info := file_information raw in
      holding! raw; _ := HRet (if reparse_point info || is_directory info then Err tt else Ok tt) in
      holding! raw; _ := HRet (if links info =? 1 then Ok tt else Err tt) in
      holding! raw; _ := (if error =? ERROR_ALREADY_EXISTS then check_security raw false else HRet (Ok tt)) in
      HRet (Ok (into_file raw))).

(** ** The migration's steps on one object *)

(** [environment.watch.at(point)?]. *)
Definition watch_at : hprog (Result unit unit) := succeeds ask.

Definition check_closable (d : Z) : hprog (Result unit unit) :=
  try! owned := owned_by d in
  if negb owned then HRet (Err tt)
  else
    try! there := allow_entries d in
    if negb there then HRet (Err tt) else succeeds ask.

Definition close_directory : hprog (Result unit unit) :=
  try! _ := watch_at in
  try! h := open_waiting in
  holding! h; _ := check_shape h Directory in
  holding! h; d := security_of h in
  holding! h; _ := scoped d (check_closable d) in
  try! h := set_security h in
  then! close h in HRet (Ok tt).

(** [check_file]: with the file's information, whether its allow entries are read. *)
Definition check_file (identity_file : bool) : hprog (Result FileInfo unit) :=
  try! h := open_waiting in
  scoped h (
    try! info := file_information h in
    if reparse_point info || is_directory info then HRet (Err tt)
    else if negb (links info =? 1) then HRet (Err tt)
    else
      try! d := security_of h in
      scoped d (
        try! owned := owned_by d in
        if negb owned then HRet (Err tt)
        else if negb identity_file then HRet (Ok info)
        else
          try! there := allow_entries d in
          if negb there then HRet (Err tt)
          else try! _ := succeeds ask in HRet (Ok info))).

Definition check_links (h : Z) : hprog (Result FileInfo unit) :=
  try! info := file_information h in
  HRet (if links info =? 1 then Ok info else Err tt).

Definition restrict_file (is_checked : FileInfo → bool) : hprog (Result unit unit) :=
  try! _ := watch_at in
  try! h := open_waiting in
  holding! h; info := check_links h in
  holding! h; _ := HRet (if is_checked info then Ok tt else Err tt) in
  try! h := set_security h in
  scoped h (try! _ := watch_at in try! _ := check_links h in HRet (Ok tt)).

Definition restrict_legacy_directory : hprog (Result unit unit) :=
  try! _ := watch_at in
  try! h := open_waiting in
  holding! h; _ := check_shape h Directory in
  try! h := set_security h in
  then! close h in HRet (Ok tt).

Definition check_copy (h : Z) (is_recorded : FileInfo → bool) : hprog (Result unit unit) :=
  try! info := file_information h in
  HRet (if reparse_point info || is_directory info then Err tt
        else if negb (is_recorded info) then Err tt
        else if links info =? 1 then Ok tt else Err tt).

Definition restrict_copy (is_recorded : FileInfo → bool) : hprog (Result unit unit) :=
  try! _ := watch_at in
  try! h := open_waiting in
  holding! h; _ := check_copy h is_recorded in
  try! h := set_security h in
  then! close h in HRet (Ok tt).

Definition remove_copy (is_recorded : FileInfo → bool) : hprog (Result unit unit) :=
  try! h := open_waiting in
  holding! h; _ := check_copy h is_recorded in
  delete_through h.

Definition remove_legacy_directory : hprog (Result unit unit) :=
  try! _ := watch_at in
  try! h := open_waiting in
  holding! h; _ := check_shape h Directory in
  try! _ := delete_through h in HRet (Ok tt).

(** ** Freed by hand *)

(** [identity.rs]: the token's handle is closed before its answer is looked at. *)
Definition current_token_user : hprog (Result unit unit) :=
  let! token := open_or 0 in
  if token =? 0 then HRet (Err tt)
  else
    then! use token in
    let! ok := use token in
    then! close token in
    HRet (if ok =? 0 then Err tt else Ok tt).

Definition set_owner_only_dacl : hprog (Result unit unit) :=
  try! _ := current_token_user in
  try! _ := succeeds ask in
  let! acl := open_or 0 in
  if acl =? 0 then HRet (Err tt)
  else
    let! rc := use acl in
    then! LocalFree acl in
    HRet (if rc =? 0 then Ok tt else Err tt).

(** [secure_storage.rs]: the blob DPAPI allocated, copied and freed. *)
Definition dpapi_seal : hprog (Result unit unit) :=
  let! blob := open_or 0 in
  if blob =? 0 then then! ask in HRet (Err tt)
  else then! use blob in then! LocalFree blob in HRet (Ok tt).

(** The plaintext is wiped before it is freed; an empty one may have no buffer. *)
Definition dpapi_unseal : hprog (Result unit unit) :=
  let! ok := ask in
  if ok =? 0 then then! ask in HRet (Err tt)
  else
    let! blob := open_or 0 in
    let! length := ask in
    then! (if (blob =? 0) || (length =? 0) then HRet 0 else then! use blob in use blob) in
    then! LocalFree blob in
    HRet (Ok tt).

Definition sid_text : hprog (Result unit unit) :=
  let! text := open_or 0 in
  if text =? 0 then then! ask in HRet (Err tt)
  else then! use text in then! LocalFree text in HRet (Ok tt).

(** The string may be there although the call failed. *)
Definition program_data : hprog (Result unit unit) :=
  let! raw := open_or 0 in
  let! hr := ask in
  if (hr <? 0) || (raw =? 0) then
    then! (if negb (raw =? 0) then close raw else HRet tt) in
    HRet (Err tt)
  else then! use raw in then! close raw in HRet (Ok tt).

Definition process_is_alive : hprog bool :=
  let! handle := open_or 0 in
  if negb (handle =? 0) then then! close handle in HRet true
  else let! error := ask in HRet (negb (error =? 87)).

(** ** The service's event log *)

(** [EventLog]: null when the source could not be opened. *)
Definition event_log_open : hprog Z := open_or 0.
Definition event_log_write (log : Z) : hprog unit :=
  if log =? 0 then HRet tt else then! use log in HRet tt.
Definition event_log_drop (log : Z) : hprog unit :=
  if negb (log =? 0) then close log else HRet tt.

(** [service_main]: opened, written to, and dropped with the last reference to it. *)
Definition event_log_life (entries : nat) : hprog unit :=
  let! log := event_log_open in
  then! Nat.iter entries (λ p, then! event_log_write log in p) (HRet tt) in
  event_log_drop log.

(** ** What each function owns *)

Lemma succeeds_owns H p : owns H ∅ p (λ _, ∅) → owns H ∅ (succeeds p) (λ _, ∅).
Proof. intros Hp. eapply owns_bind; [exact Hp|]. intros z. by apply owns_ret. Qed.

#[export] Hint Resolve succeeds_owns : owned.

Lemma from_sddl_owns H : owns H ∅ from_sddl (on_ok (λ d, {[d]})).
Proof. unfold from_sddl. own. Qed.

Lemma owner_of_owns H d : d ∈ H → owns H ∅ (owner_of d) (λ _, ∅).
Proof. intros. unfold owner_of. own. Qed.
#[export] Hint Resolve from_sddl_owns owner_of_owns : owned.

Lemma has_owner_owns H d : d ∈ H → owns H ∅ (has_owner d) (λ _, ∅).
Proof. intros. unfold has_owner. own. Qed.
Lemma owned_by_owns H d : d ∈ H → owns H ∅ (owned_by d) (λ _, ∅).
Proof. intros. unfold owned_by. own. Qed.

Lemma read_aces_owns H d checks count : d ∈ H → owns H ∅ (read_aces d checks count) (λ _, ∅).
Proof. revert H. induction count as [|count IH]; intros H Hd; cbn [read_aces]; own. Qed.
#[export] Hint Resolve has_owner_owns owned_by_owns read_aces_owns : owned.

Lemma allow_entries_owns H d : d ∈ H → owns H ∅ (allow_entries d) (λ _, ∅).
Proof. intros. unfold allow_entries. own. Qed.
Lemma check_descriptor_owns H d protected : d ∈ H → owns H ∅ (check_descriptor d protected) (λ _, ∅).
Proof. intros. unfold check_descriptor. own. Qed.
Lemma security_of_owns H h : h ∈ H → owns H ∅ (security_of h) (on_ok (λ d, {[d]})).
Proof. intros. unfold security_of. own. Qed.
#[export] Hint Resolve allow_entries_owns check_descriptor_owns security_of_owns : owned.

Lemma check_security_owns H h protected : h ∈ H → owns H ∅ (check_security h protected) (λ _, ∅).
Proof. intros. unfold check_security. own. Qed.
Lemma file_information_owns H h : h ∈ H → owns H ∅ (file_information h) (λ _, ∅).
Proof. intros. unfold file_information. own. Qed.
#[export] Hint Resolve check_security_owns file_information_owns : owned.

Lemma check_shape_owns H h kind : h ∈ H → owns H ∅ (check_shape h kind) (λ _, ∅).
Proof. intros. unfold check_shape. own. Qed.

Lemma open_raw_owns H : owns H ∅ open_raw (on_ok (from_option singleton ∅)).
Proof. unfold open_raw. own. Qed.

#[export] Hint Resolve check_shape_owns open_raw_owns : owned.

(** *** An operation on a thread of its own *)

Lemma close_all_safe B hs : NoDup hs → safe B (close_all hs) (list_to_set hs) (λ _ S, S = ∅).
Proof.
  induction 1 as [|h hs Hh _ IH]; cbn [close_all hbind close safe list_to_set]; [done|]. split; [set_solver|].
  replace (({[h]} ∪ list_to_set hs) ∖ {[h]}) with (list_to_set hs : gset Z) by set_solver. exact IH.
Qed.

Lemma close_all_owns H hs : NoDup hs → owns H (list_to_set hs) (close_all hs) (λ _, ∅).
Proof.
  intros Hn. revert H. induction Hn as [|h hs Hh _ IH]; intros H; cbn [close_all list_to_set]; [by apply owns_ret|].
  eapply (owns_call _ _ {[h]}); [by auto with owned|set_solver|]. intros ? ?. cbv beta.
  replace (({[h]} ∪ list_to_set hs) ∖ {[h]} ∪ ∅) with (list_to_set hs : gset Z) by set_solver. apply IH.
Qed.

Lemma close_all_leaves_none hs : leaves_none (close_all hs).
Proof. induction hs; by cbn. Qed.

Lemma unwinds_leaves_none {A} mine (op : hprog A) : leaves_none op → leaves_none (unwinds mine op).
Proof.
  assert (∀ mine (z : Z) (p : hprog (option A)), leaves_none p →
    leaves_none (if negb (z =? 0) then then! close_all mine in HRet None else p)) as Hz.
  { intros m z p Hp. case_match; [|done]. apply leaves_none_hbind; [apply close_all_leaves_none|done]. }
  revert mine. induction op as [a|f k IH|h k IH|h k IH|k IH|q k IH]; intros mine Hp; cbn in Hp |- *; intros z;
    apply Hz; cbn; auto.
Qed.

(** Whenever it panics, what the operation owns is closed. *)
Definition unless_panic {A} (Q : A → gset Z → Prop) (r : option A) (S : gset Z) : Prop :=
  match r with Some a => Q a S | None => S = ∅ end.

Lemma unwinds_safe {A} mine (op : hprog A) Q : leaves_none op → NoDup mine →
  safe ∅ op (list_to_set mine) Q → safe ∅ (unwinds mine op) (list_to_set mine) (unless_panic Q).
Proof.
  assert (∀ mine (z : Z) (p : hprog (option A)), NoDup mine → safe ∅ p (list_to_set mine) (unless_panic Q) →
    safe ∅ (if negb (z =? 0) then then! close_all mine in HRet None else p) (list_to_set mine) (unless_panic Q)) as Hz.
  { intros m z p Hm Hp. case_match; [|done]. apply safe_hbind. eapply safe_mono; [|by apply close_all_safe]. by intros ? S. }
  revert mine. induction op as [a|f k IH|h k IH|h k IH|k IH|q k IH]; intros mine Hp Hn Hs; cbn in Hp, Hs |- *; intros z;
    apply Hz; [done| |done| |done| |done| |done| |done|]; cbn.
  - done.
  - destruct Hs as [H1 H2]. split; [intros v Hv|intros h Hv Hh Hf].
    + rewrite decide_True by done. by apply IH, H1.
    + rewrite decide_False by done. apply (IH h (h :: mine)); [done| |by apply H2]. constructor; [set_solver|done].
  - destruct Hs as [H1 H2]. split; [done|]. by intros z'; apply IH.
  - destruct Hs as [H1 H2]. split; [done|].
    assert (list_to_set mine ∖ {[h]} = list_to_set (C := gset Z) (filter (.≠ h) mine)) as E.
    { apply set_eq. intros x. rewrite elem_of_difference, elem_of_singleton, !elem_of_list_to_set, list_elem_of_filter. tauto. }
    rewrite E in H2 |- *. apply IH; [done|by apply NoDup_filter|done].
  - by intros z'; apply IH.
  - done.
Qed.

(** Nothing is lost between a thread and the one that waits for it: in [T] what the
    thread owns, in [F] what the waiter does. *)
Lemma wait_safe {A} B T F worker behind (go : nat → hprog (Result A unit)) tries Q :
  worker ∈ B ∪ F → T ## F → left_safe behind T → Q (Err tt) F → (∀ n, safe B (go n) (T ∪ F) Q) →
  safe B (wait worker behind go tries) (T ∪ F) Q.
Proof.
  intros Hw HT Hb Hq Hgo. induction tries as [|tries IH]; cbn; intros z; case_match; try apply Hgo.
  - by exists T, F.
  - cbn. split; [set_solver|by intros].
Qed.

Lemma late_safe {A} (discard : A → hprog unit) op o T :
  leaves_none op → (∀ a, leaves_none (discard a)) →
  safe ∅ op T (unless_panic (λ r S, S = on_ok o r ∧ all_valid (on_ok o r))) →
  (∀ a, all_valid (o a) → safe ∅ (discard a) (o a) (λ _ S, S = ∅)) →
  left_safe (detach (late discard op)) T.
Proof.
  intros Hp Hd Hs Ho. apply detach_safe.
  - apply leaves_none_hbind; [done|]. intros [[a|e]|]; by cbn.
  - apply safe_hbind. eapply safe_mono; [|exact Hs]. intros [[a|e]|] S; cbn; [|by intros [-> _]|done].
    intros [-> Hv]. by apply Ho.
Qed.

Lemma attend_safe {A} B F worker (discard : A → hprog unit) op o T tries :
  worker ∈ B ∪ F → (∀ a, leaves_none (discard a)) → (∀ a, all_valid (o a) → safe ∅ (discard a) (o a) (λ _ S, S = ∅)) →
  leaves_none op → safe ∅ op T (unless_panic (λ r S, S = on_ok o r ∧ all_valid (on_ok o r))) → T ## B ∪ F →
  safe B (attend worker discard op tries) (T ∪ F)
    (λ r S, S = on_ok o r ∪ F ∧ on_ok o r ## B ∪ F ∧ all_valid (on_ok o r)).
Proof.
  intros Hw Hd Ho. revert T tries.
  induction op as [r|f k IH|h k IH|h k IH|k IH|q k IH]; intros T tries Hp Hs HT; cbn [attend];
    (apply wait_safe; [done|set_solver|by eapply late_safe
       |cbn; split_and!; [set_solver|set_solver|apply all_valid_empty]|intros n; cbn in Hp, Hs |- *]).
  - destruct r as [r|]; cbn in Hs |- *.
    + destruct Hs as [-> Hv]. split_and!; [done|set_solver|done].
    + subst T. split_and!; [done|set_solver|apply all_valid_empty].
  - destruct Hs as [H1 H2]. split; [by eauto|]. intros h Hv Hh Hf.
    replace ({[h]} ∪ (T ∪ F)) with (({[h]} ∪ T) ∪ F) by set_solver.
    apply IH; [done|apply H2; [done|set_solver|done]|set_solver].
  - destruct Hs as [H1 H2]. split; [set_solver|by eauto].
  - destruct Hs as [H1 H2]. split; [set_solver|].
    replace ((T ∪ F) ∖ {[h]}) with ((T ∖ {[h]}) ∪ F) by set_solver. apply IH; [done|done|set_solver].
  - by eauto.
  - done.
Qed.

Lemma owns_alone {A} X (p : hprog A) out :
  owns ∅ X p out → all_valid X → safe ∅ p X (λ a S, S = out a ∧ all_valid (out a)).
Proof.
  intros Hp Hv. rewrite <- (union_empty_r_L X). eapply safe_mono; [|apply Hp; [done| |done|done]].
  - intros a S (-> & _ & Ha). by rewrite union_empty_r_L.
  - rewrite union_empty_r_L. apply disjoint_empty_r.
Qed.

(** What an operation takes over, and how its results are dropped. *)
Definition runs_alone {A} (captured : list Z) (operation : hprog (Result A unit)) (discard : A → hprog unit)
    (o : A → gset Z) : Prop :=
  NoDup captured ∧ leaves_none operation ∧ (∀ a, leaves_none (discard a)) ∧
  owns ∅ (list_to_set captured) operation (on_ok o) ∧ (∀ a, owns ∅ (o a) (discard a) (λ _, ∅)).

Lemma attend_owns {A} H worker captured operation (discard : A → hprog unit) o :
  runs_alone captured operation discard o → worker ∈ H →
  owns H (list_to_set captured) (attend worker discard (unwinds captured operation) CANCEL_TRIES) (on_ok o).
Proof.
  intros (Hn & Hp & Hd & Hop & Hdis) Hw B S HB HX HS Hv.
  apply attend_safe; [by apply HS|done| |by apply unwinds_leaves_none| |done].
  - intros a Ha. eapply safe_mono; [|by apply owns_alone]. by intros ? S' [-> _].
  - apply unwinds_safe; [done|done|]. by apply owns_alone.
Qed.

(** However the waits end, whenever the operation panics and whoever gets its result, what
    it took over and opened is closed, handed on, or with the thread left behind. *)
Lemma bounded_owns {A} H captured operation (discard : A → hprog unit) o :
  runs_alone captured operation discard o →
  owns H (list_to_set captured) (bounded captured operation discard) (on_ok o).
Proof.
  intros Hr. unfold bounded. own_call. own_branch.
  - own_sets. eapply owns_bind; [by apply close_all_owns, Hr|]. intros ?. by apply owns_ret.
  - unfold scoped. pose proof (λ H, attend_owns H a captured operation discard o Hr) as Hat.
    revert Hd Hat. generalize (list_to_set (C := gset Z) captured). intros X HX Hat.
    eapply (owns_call _ _ X); [apply Hat; set_solver|set_solver|].
    intros r Hr'. cbv beta. eapply (owns_call _ _ {[a]}); [by auto with owned|set_solver|].
    intros ? ?. apply owns_ret. set_solver.
Qed.

#[local] Opaque bounded.

(** A program that leaves no thread behind, by its calls. *)
Ltac solve_leaves_none := repeat (cbn; intros; try done; case_match); by cbn.

Lemma drop_option_owns H o : owns H (from_option singleton ∅ o) (drop_option o) (λ _, ∅).
Proof. destruct o; cbn; own. Qed.
#[export] Hint Resolve drop_option_owns : owned.

Lemma drop_option_leaves_none o : leaves_none (drop_option o).
Proof. by destruct o. Qed.
#[export] Hint Resolve drop_option_leaves_none : owned.

Lemma open_existing_owns H : owns H ∅ open_existing (on_ok (from_option singleton ∅)).
Proof.
  apply (bounded_owns H []); split_and!; [constructor|solve_leaves_none|by auto with owned| |by auto with owned].
  own_call. destruct a as [[]|]; cbn; own.
Qed.
Lemma open_waiting_owns H : owns H ∅ open_waiting (on_ok singleton).
Proof.
  apply (bounded_owns H []); split_and!; [constructor|solve_leaves_none|done| |by auto with owned].
  own_call. destruct a as [[]|]; cbn; own.
Qed.
#[export] Hint Resolve open_existing_owns open_waiting_owns : owned.

Lemma check_if_exists_within_owns H kind protected : owns H ∅ (check_if_exists_within kind protected) (λ _, ∅).
Proof. unfold check_if_exists_within. own. Qed.
#[export] Hint Resolve check_if_exists_within_owns : owned.

Lemma check_owns H kind protected : owns H ∅ (check kind protected) (λ _, ∅).
Proof. unfold check. own. Qed.
Lemma has_security_owns H protected : owns H ∅ (has_security protected) (λ _, ∅).
Proof. unfold has_security. own. Qed.
Lemma is_plain_directory_owns H : owns H ∅ is_plain_directory (λ _, ∅).
Proof. unfold is_plain_directory. own. Qed.

Lemma read_file_owns H h : owns H {[h]} (read_file h) (λ _, ∅).
Proof. unfold read_file, into_file. own. Qed.
Lemma write_file_owns H h : owns H {[h]} (write_file h) (λ _, ∅).
Proof. unfold write_file, into_file. own. Qed.
Lemma is_case_sensitive_owns H h : h ∈ H → owns H ∅ (is_case_sensitive h) (λ _, ∅).
Proof. intros. unfold is_case_sensitive. own. Qed.
#[export] Hint Resolve check_owns read_file_owns write_file_owns : owned.

Lemma read_checked_within_owns H protected : owns H ∅ (read_checked_within protected) (λ _, ∅).
Proof. unfold read_checked_within. own. Qed.

Lemma read_unshared_owns H : owns H ∅ read_unshared (λ _, ∅).
Proof.
  apply (owns_last H ∅ ∅ _ (on_ok (λ _, ∅))); [|done|by intros []].
  apply (bounded_owns _ []); split_and!; [constructor|solve_leaves_none|done| |by intros; apply owns_ret]. cbn [list_to_set]. own.
Qed.

Lemma create_file_owns H d : d ∈ H → owns H ∅ (create_file d) (handed INVALID_HANDLE_VALUE).
Proof. intros. unfold create_file. own. Qed.
Lemma create_directory_owns H d : d ∈ H → owns H ∅ (create_directory d) (λ _, ∅).
Proof. intros. unfold create_directory. own. Qed.
#[export] Hint Resolve read_unshared_owns create_file_owns create_directory_owns : owned.

Lemma ensure_directory_owns H protected : owns H ∅ (ensure_directory protected) (λ _, ∅).
Proof. unfold ensure_directory. own. Qed.
Lemma create_new_directory_owns H : owns H ∅ create_new_directory (λ _, ∅).
Proof. unfold create_new_directory. own. Qed.
Lemma create_new_file_owns H : owns H ∅ create_new_file (λ _, ∅).
Proof. unfold create_new_file. own. Qed.

Lemma descriptor_checked_owns H protected : owns H ∅ (descriptor_checked protected) (on_ok singleton).
Proof. unfold descriptor_checked. own. Qed.
#[export] Hint Resolve descriptor_checked_owns : owned.

Lemma replace_keeping_security_owns H protected : owns H ∅ (replace_keeping_security protected) (λ _, ∅).
Proof. unfold replace_keeping_security. own. Qed.

Lemma change_security_owns H h d : h ∈ H → d ∈ H → owns H ∅ (change_security h d) (λ _, ∅).
Proof. intros. unfold change_security. own. Qed.
#[export] Hint Resolve change_security_owns : owned.

(** The handle comes back with a success, and is closed with a failure. *)
Lemma set_security_owns H h : owns H {[h]} (set_security h) (on_ok singleton).
Proof.
  rewrite <- (union_empty_r_L {[h]}). apply (bounded_owns H [h]);
    split_and!; [apply NoDup_singleton|solve_leaves_none|done| |by auto with owned]. cbn [list_to_set]. own_sets. own.
Qed.
Lemma delete_through_owns H h : owns H {[h]} (delete_through h) (λ _, ∅).
Proof.
  apply (owns_last H {[h]} {[h]} _ (on_ok (λ _, ∅))); [|done|intros [] ?; set_solver].
  rewrite <- (union_empty_r_L {[h]}) at 3. apply (bounded_owns _ [h]);
    split_and!; [apply NoDup_singleton|solve_leaves_none|done| |by intros; apply owns_ret]. cbn [list_to_set]. own_sets. own.
Qed.
#[export] Hint Resolve set_security_owns delete_through_owns : owned.

Lemma open_log_file_owns H : owns H ∅ open_log_file (on_ok singleton).
Proof. unfold open_log_file, into_file. own. Qed.

Lemma check_closable_owns H d : d ∈ H → owns H ∅ (check_closable d) (λ _, ∅).
Proof. intros. unfold check_closable. own. Qed.
Lemma watch_at_owns H : owns H ∅ watch_at (λ _, ∅).
Proof. unfold watch_at. own. Qed.
Lemma check_links_owns H h : h ∈ H → owns H ∅ (check_links h) (λ _, ∅).
Proof. intros. unfold check_links. own. Qed.
Lemma check_copy_owns H h is_recorded : h ∈ H → owns H ∅ (check_copy h is_recorded) (λ _, ∅).
Proof. intros. unfold check_copy. own. Qed.
#[export] Hint Resolve check_closable_owns watch_at_owns check_links_owns check_copy_owns : owned.

Lemma close_directory_owns H : owns H ∅ close_directory (λ _, ∅).
Proof. unfold close_directory. own. Qed.
Lemma check_file_owns H identity_file : owns H ∅ (check_file identity_file) (λ _, ∅).
Proof. unfold check_file. own. Qed.
Lemma restrict_file_owns H is_checked : owns H ∅ (restrict_file is_checked) (λ _, ∅).
Proof. unfold restrict_file. own. Qed.
Lemma restrict_legacy_directory_owns H : owns H ∅ restrict_legacy_directory (λ _, ∅).
Proof. unfold restrict_legacy_directory. own. Qed.
Lemma restrict_copy_owns H is_recorded : owns H ∅ (restrict_copy is_recorded) (λ _, ∅).
Proof. unfold restrict_copy. own. Qed.
Lemma remove_copy_owns H is_recorded : owns H ∅ (remove_copy is_recorded) (λ _, ∅).
Proof. unfold remove_copy. own. Qed.
Lemma remove_legacy_directory_owns H : owns H ∅ remove_legacy_directory (λ _, ∅).
Proof. unfold remove_legacy_directory. own. Qed.

Lemma LocalFree_owns H p : owns H (handed 0 p) (LocalFree p) (λ _, ∅).
Proof. unfold LocalFree. own. Qed.

Lemma current_token_user_owns H : owns H ∅ current_token_user (λ _, ∅).
Proof. unfold current_token_user. own. Qed.
#[export] Hint Resolve current_token_user_owns : owned.

Lemma set_owner_only_dacl_owns H : owns H ∅ set_owner_only_dacl (λ _, ∅).
Proof. unfold set_owner_only_dacl, LocalFree. own. Qed.
Lemma dpapi_seal_owns H : owns H ∅ dpapi_seal (λ _, ∅).
Proof. unfold dpapi_seal, LocalFree. own. Qed.
Lemma dpapi_unseal_owns H : owns H ∅ dpapi_unseal (λ _, ∅).
Proof.
  unfold dpapi_unseal, LocalFree. own_call. own_branch; [own|].
  own_call. unfold handed in *. destruct (a0 =? 0); cbn [orb]; own.
Qed.
Lemma sid_text_owns H : owns H ∅ sid_text (λ _, ∅).
Proof. unfold sid_text, LocalFree. own. Qed.
Lemma program_data_owns H : owns H ∅ program_data (λ _, ∅).
Proof.
  unfold program_data. own_call. unfold handed in *. destruct (a =? 0); own_call; rewrite ?orb_true_r, ?orb_false_r; cbn [negb]; own.
Qed.
Lemma process_is_alive_owns H : owns H ∅ process_is_alive (λ _, ∅).
Proof. unfold process_is_alive. own. Qed.

Lemma event_log_write_owns H log : handed 0 log ⊆ H → owns H ∅ (event_log_write log) (λ _, ∅).
Proof. intros Hl. unfold event_log_write. own_branch; own. Qed.
Lemma event_log_life_owns H entries : owns H ∅ (event_log_life entries) (λ _, ∅).
Proof.
  unfold event_log_life, event_log_open. own_call.
  assert (∀ n, owns (handed 0 a ∪ H) ∅ (Nat.iter n (λ p, then! event_log_write a in p) (HRet tt)) (λ _, ∅)) as Hn.
  { intros n. induction n as [|n IH]; cbn [Nat.iter nat_rect]; [by apply owns_ret|].
    eapply owns_bind; [apply event_log_write_owns, union_subseteq_l|]. intros ?. exact IH. }
  eapply owns_call; [by rewrite difference_empty_L|done|].
  intros ? _. cbv beta. own_sets. unfold event_log_drop, handed. destruct (a =? 0); cbn [negb]; own.
Qed.

(** ** Together *)

(** The operations that own something of Windows' while they run. *)
Inductive CustodyOp :=
| ProgramData | SidText | TokenDacl | Seal | Unseal | IsAlive
| Check (kind : Kind) (protected : bool) | HasSecurity (protected : bool) | IsPlainDirectory
| ReadChecked (protected : bool) | ReadUnshared
| EnsureDirectory (protected : bool) | CreateNewDirectory | CreateNewFile | ReplaceKeepingSecurity (protected : bool)
| LogFileLife (writes : nat) | EventLogLife (entries : nat)
| CloseDirectory | CheckFile (identity_file : bool) | RestrictFile (is_checked : FileInfo → bool)
| RestrictLegacyDirectory | RestrictCopy (is_recorded : FileInfo → bool) | RemoveCopy (is_recorded : FileInfo → bool)
| RemoveLegacyDirectory.

(** A log file opened, written to and dropped. *)
Definition log_file_life (writes : nat) : hprog unit :=
  let! r := open_log_file in
  match r with
  | Err _ => HRet tt
  | Ok file => scoped file (Nat.iter writes (λ p, then! use file in p) (HRet tt))
  end.

Definition forget {A} (p : hprog A) : hprog unit := then! p in HRet tt.

Definition program (op : CustodyOp) : hprog unit :=
  match op with
  | ProgramData => forget program_data
  | SidText => forget sid_text
  | TokenDacl => forget set_owner_only_dacl
  | Seal => forget dpapi_seal
  | Unseal => forget dpapi_unseal
  | IsAlive => forget process_is_alive
  | Check kind protected => forget (check kind protected)
  | HasSecurity protected => forget (has_security protected)
  | IsPlainDirectory => forget is_plain_directory
  | ReadChecked protected => forget (read_checked_within protected)
  | ReadUnshared => forget read_unshared
  | EnsureDirectory protected => forget (ensure_directory protected)
  | CreateNewDirectory => forget create_new_directory
  | CreateNewFile => forget create_new_file
  | ReplaceKeepingSecurity protected => forget (replace_keeping_security protected)
  | LogFileLife writes => log_file_life writes
  | EventLogLife entries => event_log_life entries
  | CloseDirectory => forget close_directory
  | CheckFile identity_file => forget (check_file identity_file)
  | RestrictFile is_checked => forget (restrict_file is_checked)
  | RestrictLegacyDirectory => forget restrict_legacy_directory
  | RestrictCopy is_recorded => forget (restrict_copy is_recorded)
  | RemoveCopy is_recorded => forget (remove_copy is_recorded)
  | RemoveLegacyDirectory => forget remove_legacy_directory
  end.

(** One operation after the other. *)
Fixpoint programs (ops : list CustodyOp) : hprog unit :=
  match ops with [] => HRet tt | op :: ops => then! program op in programs ops end.

Lemma forget_owns {A} H (p : hprog A) : owns H ∅ p (λ _, ∅) → owns H ∅ (forget p) (λ _, ∅).
Proof. intros Hp. eapply owns_bind; [exact Hp|]. intros a. by apply owns_ret. Qed.

Lemma log_file_life_owns H writes : owns H ∅ (log_file_life writes) (λ _, ∅).
Proof.
  unfold log_file_life. eapply owns_call; [apply open_log_file_owns|done|]. intros r _.
  rewrite difference_empty_L, union_empty_l_L. destruct r as [file|e]; cbn [on_ok]; [|by apply owns_ret].
  unfold scoped. assert (∀ n, owns ({[file]} ∪ H) ∅ (Nat.iter n (λ p, then! use file in p) (HRet tt)) (λ _, ∅)) as Hn.
  { intros n. induction n as [|n IH]; cbn [Nat.iter nat_rect]; [by apply owns_ret|].
    eapply owns_bind; [apply owns_use; set_solver|]. intros ?. exact IH. }
  eapply owns_call; [by rewrite difference_empty_L|done|]. intros ? _. cbv beta. own_sets. own.
Qed.

#[export] Hint Resolve forget_owns log_file_life_owns event_log_life_owns has_security_owns is_plain_directory_owns
  read_checked_within_owns ensure_directory_owns create_new_directory_owns create_new_file_owns
  replace_keeping_security_owns close_directory_owns check_file_owns restrict_file_owns restrict_legacy_directory_owns
  restrict_copy_owns remove_copy_owns remove_legacy_directory_owns set_owner_only_dacl_owns dpapi_seal_owns
  dpapi_unseal_owns sid_text_owns program_data_owns process_is_alive_owns : owned.

Lemma programs_own H ops : owns H ∅ (programs ops) (λ _, ∅).
Proof.
  induction ops as [|op ops IH]; cbn [programs]; [by apply owns_ret|].
  eapply owns_bind; [destruct op; cbn [program]; auto 3 with owned|]. intros ?. exact IH.
Qed.

Lemma programs_safe before ops : safe before (programs ops) ∅ (λ _ S, S = ∅).
Proof.
  rewrite <- (union_empty_l_L ∅). eapply safe_mono; [|apply (programs_own ∅ ops before ∅); set_solver].
  intros _ S (-> & _). by rewrite union_empty_l_L.
Qed.

Lemma no_threads_no_handles (ts : list (hprog unit)) (owned : list (gset Z)) :
  Forall2 (λ p S, p = HRet tt → S = ∅) ts owned → Forall (eq (HRet tt)) ts → ⋃ owned = ∅.
Proof.
  induction 1 as [|p S ts owned Hp _ IH]; intros Hr; [done|]. inversion Hr as [|? ? <- Hts]; subst. cbn.
  rewrite Hp, IH by done. apply union_empty_l_L.
Qed.

(** C8 Nothing of Windows' is leaked, closed twice or used after its close: whatever any
    number of the agent's threads do with files, directories, descriptors, tokens, DPAPI's
    buffers, the log file and the event log, in every interleaving of their calls and of
    those of the operations they leave behind, whatever each call answers, however an
    operation's wait ends and at whichever call it panics, no call is on something that is
    not open; what is open is at each point what was open before and what the threads that
    have not ended own; and once all of them have ended it is what was open before. A thread
    left behind may never end: what it took along, and that alone, stays open with it. *)
Theorem handles_closed_once (jobs : list (list CustodyOp)) (before : gset Z) c :
  rtc pool_step {| open_ := before; threads := programs <$> jobs |} c →
  (∀ p, p ∈ threads c → ¬ misuses (open_ c) p) ∧
  (∃ owned : list (gset Z), open_ c = before ∪ ⋃ owned ∧ before ## ⋃ owned ∧
     Forall2 (λ p S, p = HRet tt → S = ∅) (threads c) owned) ∧
  (Forall (eq (HRet tt)) (threads c) → open_ c = before).
Proof.
  intros Hc. destruct (pool_sound before (programs <$> jobs) c) as (Hm & owned & Ho & HB & Hf); [|done|].
  { apply Forall_fmap, Forall_true. intros ops. apply programs_safe. }
  split; [done|]. split; [by exists owned|]. intros Hr. rewrite Ho, (no_threads_no_handles _ _ Hf Hr).
  apply union_empty_r_L.
Qed.

(** A file created beside an open that is left behind, whose handle arrives, and is closed,
    after the one that waited for it and the other have returned. *)
Definition turns (thread : nat) (answers : list Z) : list (nat * Z) := (λ z, (thread, z)) <$> answers.

Definition left_behind : list (nat * Z) :=
  turns 0 ([5; 1] ++ concat (replicate 50 [0; 1])) ++ turns 1 [7; 0] ++ turns 0 [0; 0] ++ turns 1 [9; 1; 1; 0; 0] ++
  turns 2 [0; 11].
Definition some_threads : Pool := {| open_ := {[3]}; threads := programs <$> [[IsPlainDirectory]; [CreateNewFile]] |}.

Lemma handles_closed_once_witness :
  ∃ c, rtc pool_step some_threads c ∧ threads c = [HRet tt; HRet tt; HRet tt] ∧ open_ c = {[3]}.
Proof.
  destruct (pool_run (left_behind ++ turns 2 [0; 0]) some_threads) as [c|] eqn:E; [|by vm_compute in E].
  assert (threads c = [HRet tt; HRet tt; HRet tt]) as Ht by (by vm_compute in E; simplify_eq).
  apply pool_run_steps in E. exists c. split; [exact E|]. split; [exact Ht|].
  apply (proj2 (proj2 (handles_closed_once [[IsPlainDirectory]; [CreateNewFile]] {[3]} c E))).
  rewrite Ht. by repeat constructor.
Defined.

(** Before that last close the handle is open, with both that could have closed it gone. *)
Example open_left_behind :
  open_ <$> pool_run left_behind some_threads = Some {[3; 11]} ∧
  (λ c, take 2 (threads c)) <$> pool_run left_behind some_threads = Some [HRet tt; HRet tt].
Proof. by vm_compute. Qed.

(** A security change that panics after it has read its descriptor: the descriptor and the
    handle it was given are closed. *)
Example set_security_panics :
  fst <$> hrun [5; 0; 0; 0; 8; 0; 1] {[3; 9]} (set_security 9) = Some {[3; 5; 8; 9]} ∧
  hrun ([5; 0; 0; 0; 8; 0; 1] ++ [0; 0; 0; 0; 0; 0]) {[3; 9]} (set_security 9) = Some ({[3]}, HRet (Err tt)).
Proof. by vm_compute. Qed.

(** The same file when the write fails: the file and the descriptor are closed. *)
Example create_new_file_write_fails :
  fst <$> hrun [7; 0; 9; 0; 0; 0; 0] {[3]} create_new_file = Some {[3]} ∧
  snd <$> hrun [7; 0; 9; 0; 0; 0; 0] {[3]} create_new_file = Some (HRet (Err tt)).
Proof. by vm_compute. Qed.
