(* ===== verification/Protection.v ===== *)
(** * Protection at rest and bounded waits ([secure_storage.rs], [identity.rs]: [win_acl], [custody.rs]: [bounded])

    The DPAPI store over the two calls of the system, which discharges the law the identity
    relies on; the access-control list an identity's files get; and the wait of a custody
    operation on a thread of its own, in time. *)

From S2P Require Import Prelude IpAddr Types Errors Ring Network Config Signing Tls TlsConfig X509.
From S2P Require Import Transport Enrollment Identity Custody.
Open Scope Z_scope.

(** ** The DPAPI store *)

Definition CRYPTPROTECT_UI_FORBIDDEN : Z := 0x1.
Definition CRYPTPROTECT_LOCAL_MACHINE : Z := 0x4.

(** [CryptProtectData] and [CryptUnprotectData] with their flags: the bytes of the blob they
    return, none for a null pointer, or the last error. *)
Class Dpapi := {
  crypt_protect : Z → bytes → Result bytes Z;
  crypt_unprotect : Z → bytes → Result (option bytes) Z;
}.

(** What DPAPI documents: on one machine, what was protected comes back, and a blob's
    length is a 32-bit count. *)
Class DpapiLaws (D : Dpapi) := {
  protect_length : ∀ flags plain blob, crypt_protect flags plain = Ok blob → in_u 32 (Z.of_nat (length blob));
  unprotect_protect : ∀ plain blob, crypt_protect CRYPTPROTECT_LOCAL_MACHINE plain = Ok blob →
    crypt_unprotect CRYPTPROTECT_UI_FORBIDDEN blob = Ok (Some plain);
}.

(** A blob of the first [len as u32] bytes. *)
Definition in_blob (b : bytes) : bytes := take (Z.to_nat (wrap_u 32 (Z.of_nat (length b)))) b.

Section Store.
Context {D : Dpapi}.

Definition dpapi_seal (plaintext : bytes) : Result bytes SecureStoreError :=
  match crypt_protect CRYPTPROTECT_LOCAL_MACHINE (in_blob plaintext) with
  | Err gle => Err (SealError ("CryptProtectData failed (GetLastError=" +:+ dec gle +:+ ")"))
  | Ok sealed => Ok sealed
  end.

Definition dpapi_unseal (blob : bytes) : Result bytes SecureStoreError :=
  match crypt_unprotect CRYPTPROTECT_UI_FORBIDDEN (in_blob blob) with
  | Err gle => Err (UnsealError ("CryptUnprotectData failed (GetLastError=" +:+ dec gle +:+
                                 "); key.dat may originate from another machine"))
  | Ok out => Ok (default [] out)
  end.

Definition DpapiSecureStore : SecureStore := {| seal := dpapi_seal; unseal := dpapi_unseal |}.
End Store.

Inductive Backend := DpapiBackend | InsecureDevBackend.
Definition backend_name (b : Backend) : string :=
  match b with DpapiBackend => "dpapi-local-machine" | InsecureDevBackend => "insecure-dev-plaintext" end.
Definition is_secure (b : Backend) : bool := match b with DpapiBackend => true | InsecureDevBackend => false end.

(** The store of the platform the agent is built for. *)
Definition default_store {D : Dpapi} (windows : bool) : Backend * SecureStore :=
  if windows then (DpapiBackend, DpapiSecureStore) else (InsecureDevBackend, InsecureDevStore).

Lemma in_blob_short b : in_u 32 (Z.of_nat (length b)) → in_blob b = b.
Proof. intros H. unfold in_blob. rewrite wrap_u_small by done. by rewrite Nat2Z.id, firstn_all. Qed.

(** The sealed key unseals: the store of either platform keeps its promise to the
    identity, that the 32-byte seed of a private key comes back from its sealed form;
    for DPAPI from what the system documents, the lengths passed as 32-bit counts
    included. *)
Theorem default_store_unseals {D : Dpapi} {L : DpapiLaws D} (windows : bool) :
  SecureStoreLaws (default_store windows).2.
Proof.
  destruct windows; [|apply InsecureDevStore_laws]. split. cbn. unfold dpapi_seal, dpapi_unseal. intros plain blob Hl H.
  rewrite in_blob_short in H by (rewrite Hl; vm_compute; by split).
  destruct (crypt_protect _ plain) as [sealed|] eqn:E; [|done]. injection H as ->.
  rewrite in_blob_short by (by eapply protect_length). by rewrite (unprotect_protect _ _ E).
Qed.

(** ** The access-control list of an identity's files *)

Definition FILE_ALL_ACCESS : Z := 0x1f01ff.
Definition SET_ACCESS : Z := 2.
Definition NO_INHERITANCE : Z := 0.

Record ExplicitAccess := { ea_permissions : Z; ea_mode : Z; ea_inheritance : Z; ea_sid : string }.

Definition full_control (sid : string) : ExplicitAccess :=
  {| ea_permissions := FILE_ALL_ACCESS; ea_mode := SET_ACCESS; ea_inheritance := NO_INHERITANCE; ea_sid := sid |}.

(** A file's list: whether inherited entries are kept out, and its entries. *)
Record Dacl := { dacl_protected : bool; dacl_entries : list ExplicitAccess }.

(** The files' lists, and what this process holds: tokens open, lists allocated. *)
Record AclHost := { dacls : gmap string Dacl; tokens : nat; allocated : nat }.

(** What the calls meet: the last error of one that fails, or what it gives. *)
Record AclInput := {
  ai_open_token : option Z;
  ai_token_user : Result string Z;
  ai_system_sid : Result string Z;
  ai_set_entries : Z;
  ai_set_security : Z;
}.

Section Acl.
Context (system_message : Z → string).

(** The token's user; the token is closed on every way out. *)
Definition current_token_user (i : AclInput) (h : AclHost) : Result string string * AclHost :=
  match ai_open_token i with
  | Some error => (Err ("OpenProcessToken: " +:+ io_error_text system_message error), h)
  | None =>
      let opened := {| dacls := dacls h; tokens := S (tokens h); allocated := allocated h |} in
      let closed := {| dacls := dacls opened; tokens := pred (tokens opened); allocated := allocated opened |} in
      (match ai_token_user i with
       | Err error => Err ("GetTokenInformation(TokenUser): " +:+ io_error_text system_message error)
       | Ok sid => Ok sid
       end, closed)
  end.

Definition set_owner_only_dacl (i : AclInput) (path : string) (h : AclHost) : Result unit string * AclHost :=
  let '(user, h) := current_token_user i h in
  match user with
  | Err e => (Err e, h)
  | Ok user_sid =>
      match ai_system_sid i with
      | Err error => (Err ("CreateWellKnownSid: " +:+ io_error_text system_message error), h)
      | Ok system_sid =>
          let entries := [full_control user_sid; full_control system_sid] in
          if negb (ai_set_entries i =? 0) then
            (Err ("SetEntriesInAclW: " +:+ io_error_text system_message (u32_as_i32 (ai_set_entries i))), h)
          else
            let h := {| dacls := dacls h; tokens := tokens h; allocated := S (allocated h) |} in
            let set := if ai_set_security i =? 0
                       then <[path := {| dacl_protected := true; dacl_entries := entries |}]> (dacls h)
                       else dacls h in
            let h := {| dacls := set; tokens := tokens h; allocated := pred (allocated h) |} in
            if negb (ai_set_security i =? 0) then
              (Err ("SetNamedSecurityInfoW: " +:+ io_error_text system_message (u32_as_i32 (ai_set_security i))), h)
            else (Ok tt, h)
      end
  end.

(** [harden] on Windows. *)
Definition harden_windows (i : AclInput) (path : string) (h : AclHost) : Result unit EnrollmentError * AclHost :=
  let '(r, h) := set_owner_only_dacl i path h in
  (map_err (persistence_of ("cannot restrict " +:+ path)) r, h).

(** A hardened file is its owner's and the system's alone: when [harden] succeeds the
    file's list is protected from inheritance and holds exactly two entries, full control
    for the process's user and for SYSTEM, whatever it had before, and no other file's
    list changed; when it fails nothing changed and the error names the file; and on every way
    out the token is closed and the list freed. *)
Theorem hardened_owner_only (i : AclInput) (path : string) (h : AclHost) :
  let '(r, h') := harden_windows i path h in
  tokens h' = tokens h ∧ allocated h' = allocated h ∧
  match r with
  | Ok _ => ∃ user system, ai_token_user i = Ok user ∧ ai_system_sid i = Ok system ∧
      dacls h' = <[path := {| dacl_protected := true; dacl_entries := [full_control user; full_control system] |}]> (dacls h)
  | Err e => dacls h' = dacls h ∧ ∃ reason, e = Persistence ("cannot restrict " +:+ path +:+ ": " +:+ reason)
  end ∧
  (is_ok r = true ↔ ai_open_token i = None ∧ is_ok (ai_token_user i) = true ∧ is_ok (ai_system_sid i) = true ∧
                    ai_set_entries i = 0 ∧ ai_set_security i = 0).
Proof.
  unfold harden_windows, set_owner_only_dacl, current_token_user, persistence_of.
  destruct (ai_open_token i) as [error|]; [cbn; naive_solver|].
  destruct (ai_token_user i) as [user|error]; [|cbn; naive_solver].
  destruct (ai_system_sid i) as [system|error]; [|cbn; naive_solver].
  destruct (Z.eqb_spec (ai_set_entries i) 0); cbn [negb]; [|cbn; naive_solver].
  destruct (Z.eqb_spec (ai_set_security i) 0); cbn; naive_solver.
Qed.
End Acl.

(** ** A wait that ends *)

Definition OPEN_WAIT : Z := seconds 30.
Definition CANCEL_INTERVAL : Z := millis 100.
Definition CANCEL_TRIES : nat := 50.

(** What a [recv_timeout] answers: the operation's result, that its thread ended without
    one, or that the time passed. *)
Inductive RecvAnswer (A : Type) := Received (r : Result A string) | ThreadEnded | TimedOut.
Arguments Received {A} r.
Arguments ThreadEnded {A}.
Arguments TimedOut {A}.

(** The wait of one [recv_timeout], and how long it took beyond nothing. *)
Definition Recv (A : Type) : Type := RecvAnswer A * Z.

(** The cancellations and the waits after each; the time they took. *)
Fixpoint cancel_loop {A} (tries : nat) (path : string) (answers : list (Recv A)) : Result A string * nat * Z :=
  match tries, answers with
  | S tries, (Received r, took) :: _ => (r, 1%nat, took)
  | S tries, (ThreadEnded, took) :: _ => (Err (in_use path), 1%nat, took)
  | S tries, (TimedOut, took) :: answers =>
      let '(r, cancelled, took') := cancel_loop tries path answers in (r, S cancelled, took + took')
  | _, _ => (Err (in_use path), 0%nat, 0)
  end.

(** [bounded]: its result, how often the I/O was cancelled, and the time it took. *)
Definition bounded_wait {A} (path : string) (spawned : Result unit string) (first : Recv A) (answers : list (Recv A))
  : Result A string * nat * Z :=
  match spawned with
  | Err e => (Err ("start a thread for " +:+ path +:+ ": " +:+ e), 0%nat, 0)
  | Ok _ =>
      match first with
      | (Received r, took) => (r, 0%nat, took)
      | (ThreadEnded, took) => (Err ("the operation on " +:+ path +:+ " panicked"), 0%nat, took)
      | (TimedOut, took) =>
          let '(r, cancelled, took') := cancel_loop CANCEL_TRIES path answers in (r, cancelled, took + took')
      end
  end.

Lemma cancel_loop_bounded {A} tries path (answers : list (Recv A)) late :
  (tries ≤ length answers)%nat → Forall (λ a, 0 ≤ a.2 ≤ CANCEL_INTERVAL + late) answers → 0 ≤ late →
  let '(r, cancelled, took) := cancel_loop tries path answers in
  (cancelled ≤ tries)%nat ∧ took ≤ Z.of_nat tries * (CANCEL_INTERVAL + late) ∧
  ((∃ r' t, (Received r', t) ∈ answers ∧ r = r') ∨ r = Err (in_use path)).
Proof.
  intros Hlen Hall Hlate. revert answers Hlen Hall.
  induction tries as [|tries IH]; intros answers Hlen Hall; cbn [cancel_loop].
  { split; [lia|]. split; [lia|by right]. }
  destruct answers as [|[a took] answers]; [cbn in Hlen; lia|].
  apply Forall_cons in Hall as [[Ht1 Ht2] Hall]. cbn in Ht1, Ht2, Hlen.
  assert (0 ≤ CANCEL_INTERVAL + late) by (unfold CANCEL_INTERVAL, millis; lia).
  destruct a as [r| |].
  - split; [lia|]. split; [nia|]. left. exists r, took. split; [left|done].
  - split; [lia|]. split; [nia|by right].
  - specialize (IH answers ltac:(lia) Hall). destruct (cancel_loop tries path answers) as [[r n] t].
    destruct IH as (H1 & H2 & H3). split; [lia|]. split; [nia|].
    destruct H3 as [(r' & t' & Hin & ->)|?]; [left; exists r', t'; split; [by right|done]|by right].
Qed.

(** The world whose next operation on its own thread meets [f]. *)
Definition meets (f : option WaitFault) (w : CustodyWorld) : CustodyWorld :=
  {| objects := objects w; call_faults := call_faults w; wait_faults := f :: wait_faults w; new_ids := new_ids w |}.

Lemma bounded_meets {A} path (op : CM A string) f w :
  bounded path op (meets f w) =
    match f with
    | None => op w
    | Some (ThreadFailed reason) => (Err ("start a thread for " +:+ path +:+ ": " +:+ reason), w)
    | Some OperationPanicked => (Err ("the operation on " +:+ path +:+ " panicked"), w)
    | Some (LeftBehind happens) => (Err (in_use path), if happens : bool then (op w).2 else w)
    end.
Proof. destruct w. by destruct f as [[]|]. Qed.

(** C24 A custody operation never holds the agent: whatever the other process does, the wait
    for an operation on its own thread returns within its bound and fifty cancellations a
    tenth of a second apart, the lateness of each wake-up aside, and its result is one the
    operation's model gives: the operation's own if it was ever delivered, or that it could
    not start, panicked, or is in use. *)
Theorem custody_wait_refines {A} (path : string) (spawned : Result unit string) (first : Recv A)
    (answers : list (Recv A)) (wait late : Z) (op : CM A string) (w : CustodyWorld) :
  (CANCEL_TRIES ≤ length answers)%nat → 0 ≤ wait → 0 ≤ late →
  0 ≤ first.2 ≤ wait + late → Forall (λ a, 0 ≤ a.2 ≤ CANCEL_INTERVAL + late) answers →
  (∀ r t, (Received r, t) ∈ first :: answers → r = (op w).1) →
  let '(r, cancelled, took) := bounded_wait path spawned first answers in
  (cancelled ≤ CANCEL_TRIES)%nat ∧ took ≤ wait + seconds 5 + 51 * late ∧
  ∃ f, (bounded path op (meets f w)).1 = r.
Proof.
  intros Hlen Hwait Hlate [Hf1 Hf2] Hall Hown. unfold bounded_wait.
  assert (∀ x : Z, x ≤ wait + late → x ≤ wait + seconds 5 + 51 * late) as Hle by (intros x Hx; unfold seconds; lia).
  destruct spawned as [[]|e].
  2: { split; [lia|]. split; [apply Hle; lia|]. exists (Some (ThreadFailed e)). by rewrite bounded_meets. }
  destruct first as [[r| |] took]; cbn in Hf1, Hf2.
  - split; [lia|]. split; [by apply Hle|]. exists None. rewrite bounded_meets. symmetry. apply (Hown r took). left.
  - split; [lia|]. split; [by apply Hle|]. exists (Some OperationPanicked). by rewrite bounded_meets.
  - pose proof (cancel_loop_bounded CANCEL_TRIES path answers late Hlen Hall Hlate) as H.
    destruct (cancel_loop CANCEL_TRIES path answers) as [[r n] t]. destruct H as (H1 & H2 & H3).
    split; [done|]. split.
    { change (Z.of_nat CANCEL_TRIES) with 50 in H2. unfold CANCEL_INTERVAL, millis, seconds in *. lia. }
    destruct H3 as [(r' & t' & Hin & ->)| ->].
    + exists None. rewrite bounded_meets. symmetry. apply (Hown r' t'). by right.
    + exists (Some (LeftBehind false)). by rewrite bounded_meets.
Qed.

(** ** Witnesses *)

(** A machine whose protection prepends its mark. *)
Module ToyDpapi.
Definition mark : Byte.byte := Byte.x4d.
#[export] Instance toy : Dpapi := {|
  crypt_protect flags plain := if (flags =? CRYPTPROTECT_LOCAL_MACHINE) && (Z.of_nat (length plain) <? 1000)
                               then Ok (mark :: plain) else Err 87;
  crypt_unprotect _ blob := match blob with m :: plain => if decide (m = mark) then Ok (Some plain) else Err 13 | [] => Err 13 end |}.
#[export] Instance toy_laws : DpapiLaws toy.
Proof.
  split; cbn.
  - intros flags plain blob H. destruct (_ =? _); [|done]. destruct (Z.ltb_spec (Z.of_nat (length plain)) 1000); [|done].
    cbn in H. injection H as <-. unfold in_u. cbn [length]. lia.
  - intros plain blob H. destruct (_ <? _); [|done]. by injection H as <-.
Qed.
End ToyDpapi.

Lemma default_store_unseals_witness :
  let S := (default_store (D := ToyDpapi.toy) true).2 in
  ∃ blob, seal (SecureStore := S) (repeat Byte.x07 32) = Ok blob ∧
          unseal (SecureStore := S) blob = Ok (repeat Byte.x07 32).
Proof.
  intros S. eexists. split; [reflexivity|].
  by apply (unseal_seal (SecureStoreLaws := default_store_unseals (D := ToyDpapi.toy) (L := ToyDpapi.toy_laws) true)).
Defined.

(** Another process holds the object until the third cancellation. *)
Lemma custody_wait_refines_witness :
  let op : CM unit string := λ w, (Err (in_use "key.dat"), w) in
  let answers := [(TimedOut, millis 101); (TimedOut, millis 100); (Received (Err (in_use "key.dat")), millis 3)]
                   ++ repeat (TimedOut, millis 100) 50 in
  bounded_wait (A := unit) "key.dat" (Ok tt) (TimedOut, OPEN_WAIT) answers =
    (Err (in_use "key.dat"), 3%nat, OPEN_WAIT + millis 204) ∧
  ∃ f, (bounded "key.dat" op (meets f {| objects := ∅; call_faults := []; wait_faults := []; new_ids := [] |})).1
       = Err (in_use "key.dat").
Proof.
  intros op answers. split; [by vm_compute|].
  assert (Forall (λ a : Recv unit, 0 ≤ a.2 ≤ CANCEL_INTERVAL + millis 1) answers) as Hall.
  { apply (bool_decide_unpack _). by vm_compute. }
  destruct (custody_wait_refines "key.dat" (Ok tt) (TimedOut, OPEN_WAIT) answers OPEN_WAIT (millis 1) op
    {| objects := ∅; call_faults := []; wait_faults := []; new_ids := [] |}) as (_ & _ & Hf); [..|exact Hf].
  - apply (bool_decide_unpack _). by vm_compute.
  - by vm_compute.
  - by vm_compute.
  - by vm_compute.
  - exact Hall.
  - intros r t Hin. unfold answers in Hin. rewrite elem_of_cons, elem_of_app, !elem_of_cons in Hin.
    destruct Hin as [?|[[?|[?|[?|Hin]]]|Hin]]; simplify_eq; [done|by apply elem_of_nil in Hin|].
    apply list_elem_of_In, repeat_spec in Hin. done.
Defined.
