(* ===== verification/CustodyTree.v ===== *)
(** * Handles, directories and their security ([custody.rs], the migration's part)

    What the migration uses of [custody.rs] besides the checks of [Custody.v]: the
    entries of a DACL, a file's identity, security changed and deletion done through
    a handle, directories created, renamed and listed, and the standard library's
    removal of a tree. The store is the one of [Custody.v]. *)

From S2P Require Import Prelude FileTree IpAddr Types Custody.
Open Scope Z_scope.

(** ** Descriptors *)

Definition INHERIT_ONLY_ACE : Z := 8.

Record AllowEntry := { entry_sid : bytes; entry_mask : Z }.

Section Handles.
Context {S : Win32Security}.

(** [Principal::is]. *)
Definition principal_is (p : Principal) (sid : bytes) : bool := matches p (Some sid).

Definition descriptor_owner (d : Descriptor) : CM (option bytes) string :=
  win32 (λ f, "read a descriptor's owner: Win32 error " +:+ dec (win32_error f)) (λ w, (Ok (owner d), w)).

Definition has_owner (d : Descriptor) : CM bool string :=
  call? o := descriptor_owner d in cret (match o with Some _ => true | None => false end).

Definition owned_by (d : Descriptor) (owners : list Principal) : CM bool string :=
  call? o := descriptor_owner d in cret (existsb (λ p, matches p o) owners).

(** The loop over the entries, those acting on the object itself. *)
Fixpoint collect_entries (path : string) (aces : list Ace) : CM (list AllowEntry) string :=
  match aces with
  | [] => cret []
  | a :: aces =>
      win32 (λ f, "read an ACE of " +:+ path +:+ ": Win32 error " +:+ dec (win32_error f)) (λ w, (Ok tt, w)) ;;~
      if negb (Z.land (ace_flags a) INHERIT_ONLY_ACE =? 0) then collect_entries path aces
      else if ace_type a =? ACCESS_DENIED_ACE_TYPE then collect_entries path aces
      else if ace_type a =? ACCESS_ALLOWED_ACE_TYPE then
        call? entries := collect_entries path aces in
        cret ({| entry_sid := ace_sid a; entry_mask := ace_mask a |} :: entries)
      else cerr (path +:+ " holds an ACE of type " +:+ dec (ace_type a) +:+ ", which is not checked")
  end.

Definition allow_entries (d : Descriptor) (path : string) : CM (option (list AllowEntry)) string :=
  win32 (unreadable path) (λ w, (Ok tt, w)) ;;~
  match dacl d with
  | None => cret None
  | Some aces => call? entries := collect_entries path aces in cret (Some entries)
  end.

Definition sid_text (sid : bytes) : Result string string :=
  map_err (λ e, "render a SID: Win32 error " +:+ dec e) (sid_to_string sid).

(** ** A file's identity *)

Record FileId := { volume : Z; index : Z }.

#[global] Instance FileId_eq_dec : EqDecision FileId.
Proof. solve_decision. Defined.

Definition file_id_text (i : FileId) : string := hex_padded 8 (volume i) +:+ "-" +:+ hex_padded 16 (index i).

Definition file_id (i : FileInfo) : FileId :=
  {| volume := volume_serial i; index := Z.lor (Z.shiftl (index_high i) 32) (index_low i) |}.

(** ** Opening and reading *)

Definition open_waiting (path : string) : CM Object string :=
  bounded path (
    call? handle := cmap_err (failure "open" path) (open_raw path) in
    cof (ok_or handle (path +:+ " does not exist"))).

Definition read_unshared (path : string) (limit : Z) : CM (bytes * FileId) string :=
  bounded path (
    call? handle := cmap_err (failure "open" path) (open_raw path) in
    call? h := cof (ok_or handle (path +:+ " does not exist")) in
    check_shape h path File ;;~
    call? i := file_information path h in
    if limit <? Z.of_nat (length (contents h))
    then cerr (path +:+ " is larger than " +:+ dec limit +:+ " bytes")
    else win32 (λ f, "read " +:+ path +:+ ": " +:+ fault_text f) (λ w, (Ok (contents h, file_id i), w))).

Definition has_security (path : string) (policy : Policy) : CM bool string := λ w,
  let '(r, w') := open_existing path w in
  match r with
  | Ok (Some h) => let '(c, w'') := check_security h path policy w' in (Ok (is_ok c), w'')
  | _ => (Ok false, w')
  end.

Definition is_plain_directory (path : string) : CM bool string := λ w,
  let '(r, w') := open_existing path w in
  match r with
  | Ok (Some h) => let '(c, w'') := check_shape h path Directory w' in (Ok (is_ok c), w'')
  | _ => (Ok false, w')
  end.

Definition ERROR_INVALID_FUNCTION : Z := 1.
Definition ERROR_NOT_SUPPORTED : Z := 50.
Definition ERROR_INVALID_PARAMETER : Z := 87.
Definition ERROR_DIR_NOT_EMPTY : Z := 145.

(** The file system lacks what was asked. *)
Definition is_lacking (e : Z) : bool :=
  (e =? ERROR_INVALID_PARAMETER) || (e =? ERROR_INVALID_FUNCTION) || (e =? ERROR_NOT_SUPPORTED).

(** A file system without the setting has it off. *)
Definition is_case_sensitive (h : Object) (path : string) : CM bool string :=
  call? f := call_fault in
  match f with
  | None => cret (case_sensitive h)
  | Some f =>
      if is_lacking (win32_error f) then cret false
      else cerr ("read the case sensitivity of " +:+ path +:+ ": Win32 error " +:+ dec (win32_error f))
  end.

(** ** Changing what is there *)

Definition with_descriptor (o : Object) (d : Descriptor) : Object :=
  {| info := info o; descriptor := d; contents := contents o; spelled := spelled o;
     case_sensitive := case_sensitive o |}.

(** The owner when asked for, and the DACL, protected. *)
Definition applied (with_owner : bool) (d old : Descriptor) : Descriptor :=
  {| owner := if with_owner then owner d else owner old; dacl := dacl d; dacl_protected := true |}.

Definition set_security (h : Object) (path sddl : string) : CM Object string :=
  bounded path (
    call? d := cof (from_sddl sddl) in
    call? named := has_owner d in
    call? f := call_fault in
    match f with
    | Some f => cerr (failure "change the security of" path (win32_error f))
    | None => λ w,
        let secured o := with_descriptor o (applied named d (descriptor o)) in
        (Ok (secured h),
         match objects w !! path_key path with Some o => put_object path (secured o) w | None => w end)
    end).

Definition create_new_directory (path sddl : string) : CM unit string :=
  call? d := cof (from_sddl sddl) in
  cmap_err (failure "create" path) (create_new true ERROR_ALREADY_EXISTS path d).

(** Something is at or below [d]. *)
Definition occupied (d : Path) (m : gmap Path Object) : bool :=
  existsb (λ kv, below d kv.1) (map_to_list m).

(** [MoveFileExW] without replacing: everything below goes along. *)
Definition renamed (from : Path) (o : Object) (to : string) (m : gmap Path Object) : gmap Path Object :=
  <[path_key to := respelled o (file_name to)]> (move_tree from (path_key to) m).

Definition rename_error (from to : string) (error : Z) : string :=
  if error =? ERROR_ACCESS_DENIED
  then from +:+ " or something under it is in use by another process, or Windows denies the rename"
  else if (6800 <=? error) && (error <=? 6899)
  then from +:+ " or " +:+ to +:+ " is held by another process's file transaction (Win32 error " +:+ dec error +:+ ")"
  else failure "rename" from error.

Definition rename (from to : string) : CM unit string :=
  bounded from (
    call? f := call_fault in
    match f with
    | Some f => cerr (rename_error from to (win32_error f))
    | None => λ w,
        match objects w !! path_key from with
        | None => (Err (rename_error from to ERROR_FILE_NOT_FOUND), w)
        | Some o =>
            if occupied (path_key to) (objects w)
            then (Err (rename_error from to ERROR_ALREADY_EXISTS), w)
            else if parent_there (objects w) (path_key to)
            then (Ok tt, with_objects w (renamed (path_key from) o to (objects w)))
            else (Err (rename_error from to ERROR_PATH_NOT_FOUND), w)
        end
    end).

(** The disposition set through the handle of the object at [path]: a directory that
    is not empty stays. *)
Definition dispose (path : string) : CM unit Z :=
  call? f := call_fault in
  match f with
  | Some f => cerr (win32_error f)
  | None => λ w,
      match children (path_key path) (objects w) with
      | [] => (Ok tt, remove_object path w)
      | _ => (Err ERROR_DIR_NOT_EMPTY, w)
      end
  end.

Definition delete_through (h : Object) (path : string) : CM unit string :=
  bounded path (λ w,
    let '(r, w') := dispose path w in
    match r with
    | Ok _ => (Ok tt, w')
    | Err error =>
        if negb (is_lacking error) then (Err (failure "delete" path error), w')
        else cmap_err (failure "delete" path) (dispose path) w'
    end).

(** [read_dir]'s names, none of which holds a separator. *)
Definition read_dir (path : string) : CM (list string) string :=
  win32 (λ f, "list " +:+ path +:+ ": " +:+ fault_text f) (λ w,
    match objects w !! path_key path with
    | Some o =>
        if is_directory (info o) then (Ok (filter (λ n, plain_name n = true) (spelled <$> children (path_key path) (objects w))), w)
        else (Err ("list " +:+ path +:+ ": not a directory"), w)
    | None => (Err ("list " +:+ path +:+ ": not found"), w)
    end).

Definition entries (path : string) : CM (list string) string := bounded path (read_dir path).

(** ** The standard library *)

(** [symlink_metadata]: absent, or what is there. *)
Definition is_not_found (e : Z) : bool :=
  (e =? ERROR_FILE_NOT_FOUND) || (e =? ERROR_PATH_NOT_FOUND).

Definition symlink_metadata (path : string) : CM FileInfo CallFault :=
  call? f := call_fault in
  match f with
  | Some f =>
      if is_not_found (win32_error f)
      then λ w, (ok_or (info <$> objects w !! path_key path) f, w)
      else cerr f
  | None => λ w,
      (ok_or (info <$> objects w !! path_key path)
         {| win32_error := ERROR_FILE_NOT_FOUND; fault_text := "not found"; wrote := 0 |}, w)
  end.

(** [remove_dir_all]: what is below goes, the deepest first, then the directory; a
    failure leaves what was not reached. *)
Definition remove_dir_all (path : string) : CM unit string :=
  call? f := call_fault in
  match f with
  | Some f => λ w,
      (Err (fault_text f),
       with_objects w (delete_all (take (wrote f) (descendants (path_key path) (objects w))) (objects w)))
  | None => λ w,
      match objects w !! path_key path with
      | None => (Err "not found", w)
      | Some _ => (Ok tt, with_objects w (remove_tree (path_key path) (objects w)))
      end
  end.

(** [remove_file]. *)
Definition remove_file (path : string) : CM unit string := λ w,
  let '(r, w') := delete_file path w in
  (map_err (λ e, "Win32 error " +:+ dec e) r, w').

(** ** What each operation may change *)

Lemma call_fault_inspects {E} : inspects (@call_fault E).
Proof. intros w. unfold call_fault. by destruct (call_faults w) as [|f fs]. Qed.

Lemma owned_by_inspects d l : inspects (owned_by d l).
Proof. apply (changes_bind _); [apply (inspects_win32 _ (λ _, owner d))|]. done. Qed.

Lemma has_owner_inspects d : inspects (has_owner d).
Proof. apply (changes_bind _); [apply (inspects_win32 _ (λ _, owner d))|]. done. Qed.

Lemma collect_entries_inspects path aces : inspects (collect_entries path aces).
Proof.
  induction aces as [|a aces IH]; cbn [collect_entries]; [done|].
  apply (changes_bind _); [apply inspects_win32_tt|]. intros _.
  repeat (case_match; try done). by apply (changes_bind _).
Qed.

Lemma allow_entries_inspects d path : inspects (allow_entries d path).
Proof.
  apply (changes_bind _); [apply inspects_win32_tt|]. intros _. destruct (dacl d); [|done].
  apply (changes_bind _); [apply collect_entries_inspects|]. done.
Qed.

Lemma open_waiting_inspects path : inspects (open_waiting path).
Proof.
  apply (changes_bounded _), (changes_bind _); [apply changes_map_err, open_raw_inspects|]. done.
Qed.

Lemma file_information_inspects path h : inspects (file_information path h).
Proof. apply (inspects_win32 _ (λ _, info h)). Qed.

Lemma read_unshared_inspects path limit : inspects (read_unshared path limit).
Proof.
  apply (changes_bounded _), (changes_bind _); [apply changes_map_err, open_raw_inspects|]. intros h.
  apply (changes_bind _); [done|]. intros o.
  apply (changes_bind _); [apply check_shape_inspects|]. intros _.
  apply (changes_bind _); [apply file_information_inspects|]. intros i. case_match; [done|].
  apply (inspects_win32 _ (λ _, (contents o, file_id i))).
Qed.

Lemma has_security_inspects path policy : inspects (has_security path policy).
Proof.
  intros w. unfold has_security. pose proof (open_existing_inspects path w) as H1.
  destruct (open_existing path w) as [[[h|]|e] w1]; cbn in *; try done.
  pose proof (check_security_inspects h path policy w1) as H2. destruct (check_security h path policy w1).
  cbn in *. congruence.
Qed.

Lemma is_plain_directory_inspects path : inspects (is_plain_directory path).
Proof.
  intros w. unfold is_plain_directory. pose proof (open_existing_inspects path w) as H1.
  destruct (open_existing path w) as [[[h|]|e] w1]; cbn in *; try done.
  pose proof (check_shape_inspects h path Directory w1) as H2. destruct (check_shape h path Directory w1).
  cbn in *. congruence.
Qed.

Lemma is_case_sensitive_inspects h path : inspects (is_case_sensitive h path).
Proof.
  apply (changes_bind _); [apply call_fault_inspects|]. intros [f|]; [|done]. by case_match.
Qed.

Lemma entries_inspects path : inspects (entries path).
Proof.
  apply (changes_bounded _), (changes_bind _); [apply call_fault_inspects|]. intros [f|] w; [done|].
  by repeat case_match.
Qed.

Lemma entries_ok path w l w' :
  entries path w = (Ok l, w') →
  l = filter (λ n, plain_name n = true) (spelled <$> children (path_key path) (objects w)) ∧
  ∃ o, objects w !! path_key path = Some o ∧ is_directory (info o) = true.
Proof.
  unfold entries. intros (u & Hu & H)%bounded_ok. unfold read_dir, win32 in H.
  apply cbind_ok in H as (f & u1 & Hf & H). pose proof (@call_fault_inspects string u) as Hi. rewrite Hf in Hi.
  cbn in Hi. destruct f; [done|]. rewrite Hi in Hu.
  rewrite <- Hu. destruct (objects u1 !! path_key path) as [o|]; [|done].
  destruct (is_directory (info o)) eqn:E; [|done]. injection H as <- _. eauto.
Qed.

Lemma entries_plain path w l w' : entries path w = (Ok l, w') → Forall (λ n, plain_name n = true) l.
Proof.
  intros [-> _]%entries_ok. apply Forall_forall. intros n [H _]%list_elem_of_filter. done.
Qed.

Lemma symlink_metadata_inspects path : inspects (symlink_metadata path).
Proof. apply (changes_bind _); [apply call_fault_inspects|]. intros [f|]; [|done]. by case_match. Qed.

Lemma read_checked_within_inspects path policy : inspects (read_checked_within path policy).
Proof.
  apply (changes_bind _); [apply changes_map_err, open_existing_inspects|]. intros [h|]; [|done].
  apply (changes_bind _); [apply changes_map_err, file_information_inspects|]. intros i.
  apply (changes_bind _); [done|]. intros _.
  apply (changes_bind _); [apply changes_map_err, security_of_inspects|]. intros d.
  apply (changes_bind _); [apply changes_map_err, check_descriptor_inspects|]. intros _.
  apply (inspects_win32 _ (λ _, Some (contents h))).
Qed.

Lemma read_checked_inspects path policy : inspects (read_checked path policy).
Proof. apply changes_map_err, read_checked_within_inspects. Qed.

(** What [set_security] writes. *)
Definition secured (d : Descriptor) (o : Object) : Object :=
  with_descriptor o (applied (match owner d with Some _ => true | None => false end) d (descriptor o)).

Lemma set_security_changes (R : relation (gmap Path Object)) `{!Reflexive R} h path sddl :
  (∀ m o d, m !! path_key path = Some o → from_sddl sddl = Ok d → R m (<[path_key path := secured d o]> m)) →
  changes R (set_security h path sddl).
Proof.
  intros HR. apply (changes_bounded _). intros w. unfold cbind, cof.
  destruct (from_sddl sddl) as [d|e] eqn:Ed; [|reflexivity].
  pose proof (has_owner_inspects d w) as H1. destruct (has_owner d w) as [[named|e] w1] eqn:Eh; cbn in H1.
  2: { rewrite H1. reflexivity. }
  assert (named = match owner d with Some _ => true | None => false end) as ->.
  { unfold has_owner in Eh. apply cbind_ok in Eh as (x & u & Hx & [= <- _]).
    by apply win32_ok in Hx as (_ & _ & _ & ->). }
  pose proof (@call_fault_inspects string w1) as H2. destruct (call_fault w1) as [[[f|]|e] w2]; cbn in *.
  1,3: rewrite H1, H2; reflexivity.
  rewrite H1, H2. destruct (objects w2 !! path_key path) as [o|] eqn:Eo; [|reflexivity]. by apply HR.
Qed.

(** What a new object is. *)
Definition fresh_object (directory : bool) (path : string) (d : Descriptor) (b : bytes) (o : Object) : Prop :=
  shape_ok (if directory then Directory else File) (info o) ∧ descriptor o = d ∧ contents o = b ∧
  spelled o = file_name path ∧ case_sensitive o = false.

Lemma create_new_directory_changes (R : relation (gmap Path Object)) `{!Reflexive R} path sddl :
  (∀ m d o, m !! path_key path = None → from_sddl sddl = Ok d → fresh_object true path d [] o →
     R m (<[path_key path := o]> m)) →
  changes R (create_new_directory path sddl).
Proof.
  intros HR w. unfold create_new_directory, cbind, cof. destruct (from_sddl sddl) as [d|e] eqn:Ed; [|reflexivity].
  unfold cmap_err. pose proof (create_new_run true ERROR_ALREADY_EXISTS path d w) as H.
  destruct (create_new _ _ path d w) as [[[]|e] w1]; cbn.
  - destruct H as (Hn & id & ->). by apply (HR _ d).
  - rewrite H. reflexivity.
Qed.

Lemma create_new_file_changes (R : relation (gmap Path Object)) `{!Reflexive R} path sddl b :
  (∀ m d o stored, m !! path_key path = None → from_sddl sddl = Ok d → stored `prefix_of` b →
     fresh_object false path d stored o → R m (<[path_key path := o]> m)) →
  changes R (create_new_file path sddl b).
Proof.
  intros HR w. unfold create_new_file, cbind, cof, cmap_err.
  destruct (from_sddl sddl) as [d|e] eqn:Ed; [|reflexivity].
  pose proof (create_new_run false ERROR_FILE_EXISTS path d w) as H.
  destruct (create_new _ _ path d w) as [[[]|e] w1]; cbn [map_err snd]; [|rewrite H; reflexivity].
  destruct H as (Hn & id & H). pose proof (write_contents_run path b w1) as Hw.
  destruct (write_contents path b w1) as [r w2]. destruct Hw as (stored & _ & Hp & Hw).
  rewrite H, lookup_insert_eq in Hw. cbn [snd]. rewrite Hw, insert_insert_eq. by apply (HR _ d _ stored).
Qed.

Lemma occupied_false d m : occupied d m = false ↔ unoccupied d m.
Proof.
  unfold occupied, unoccupied. split.
  - intros H r. destruct (m !! (d ++ r)) as [o|] eqn:E; [|done]. apply not_true_iff_false in H. destruct H.
    apply existsb_elem. exists (d ++ r, o). split; [by apply elem_of_map_to_list|]. apply below_app.
  - intros H. apply not_true_iff_false. intros ([k o] & Hk & Hb)%existsb_elem.
    apply elem_of_map_to_list in Hk. apply below_spec in Hb as [r Hr]. cbn in Hr. subst k. by rewrite H in Hk.
Qed.

Lemma rename_changes (R : relation (gmap Path Object)) `{!Reflexive R} from to :
  (∀ m o, m !! path_key from = Some o → unoccupied (path_key to) m → parent_there m (path_key to) = true →
     R m (renamed (path_key from) o to m)) →
  changes R (rename from to).
Proof.
  intros HR. apply (changes_bounded _). intros w. unfold cbind.
  pose proof (@call_fault_inspects string w) as H. destruct (call_fault w) as [[[f|]|e] w1]; cbn in *.
  1,3: rewrite H; reflexivity.
  rewrite H. destruct (objects w1 !! path_key from) as [o|] eqn:Eo; [|reflexivity].
  destruct (occupied _ _) eqn:Ec; [reflexivity|]. apply occupied_false in Ec.
  destruct (parent_there _ _) eqn:Ep; [|reflexivity]. cbn. by apply HR.
Qed.

Lemma dispose_changes (R : relation (gmap Path Object)) `{!Reflexive R} path :
  (∀ m, children (path_key path) m = [] → R m (delete (path_key path) m)) → changes R (dispose path).
Proof.
  intros HR w. unfold dispose, cbind. pose proof (@call_fault_inspects Z w) as H.
  destruct (call_fault w) as [[[f|]|e] w1]; cbn in *. 1,3: rewrite H; reflexivity.
  rewrite H. destruct (children _ _) eqn:Ec; [|reflexivity]. by apply HR.
Qed.

Lemma delete_through_changes (R : relation (gmap Path Object)) `{!Reflexive R} `{!Transitive R} h path :
  (∀ m, children (path_key path) m = [] → R m (delete (path_key path) m)) → changes R (delete_through h path).
Proof.
  intros HR. apply (changes_bounded _). intros w. pose proof (dispose_changes R path HR w) as H1.
  destruct (dispose path w) as [[[]|e] w1]; cbn in *; [done|]. case_match; [done|].
  etrans; [exact H1|]. apply changes_map_err. by apply dispose_changes.
Qed.

Lemma remove_dir_all_changes (R : relation (gmap Path Object)) `{!Reflexive R} path :
  (∀ m n, R m (delete_all (take n (descendants (path_key path) m)) m)) →
  (∀ m, R m (remove_tree (path_key path) m)) →
  changes R (remove_dir_all path).
Proof.
  intros H1 H2 w. unfold remove_dir_all, cbind. pose proof (@call_fault_inspects string w) as H.
  destruct (call_fault w) as [[[f|]|e] w1]; cbn in *.
  - rewrite H. apply H1.
  - rewrite H. destruct (objects w1 !! path_key path); [apply H2|reflexivity].
  - rewrite H. reflexivity.
Qed.

Lemma remove_file_changes (R : relation (gmap Path Object)) `{!Reflexive R} path :
  (∀ m, R m (delete (path_key path) m)) → changes R (remove_file path).
Proof.
  intros HR w. unfold remove_file. pose proof (delete_file_run path w) as H.
  destruct (delete_file path w) as [r w1]. cbn. destruct H as [-> | ->]; [reflexivity|apply HR].
Qed.

Lemma replace_changes (R : relation (gmap Path Object)) `{!Reflexive R} path temporary b policy :
  path_key path ≠ path_key temporary →
  (∀ m m' o done, m !! path_key path = Some o → (done = true → in_custody File policy o) →
     replaced (path_key path) (path_key temporary) (descriptor o) b done m m' → R m m') →
  changes R (replace_keeping_security path temporary b policy).
Proof.
  intros Hne HR w. destruct (objects w !! path_key path) as [o|] eqn:Eo.
  - pose proof (replace_keeping_run path temporary b policy w o Hne Eo) as H.
    destruct (replace_keeping_security path temporary b policy w) as [r w']. destruct H as [H Hc].
    cbn [snd]. eapply HR; [exact Eo| |exact H]. intros Hd. apply Hc. by destruct r as [[]|].
  - unfold replace_keeping_security, cbind at 1. pose proof (open_existing_inspects path w) as H.
    destruct (open_existing path w) as [[h|e] w1] eqn:E; cbn in H; [|cbn; rewrite H; reflexivity].
    apply open_existing_ok in E as [-> _]. rewrite Eo. cbn. rewrite H. reflexivity.
Qed.

(** ** What a success says *)

Lemma open_waiting_ok path w h w' :
  open_waiting path w = (Ok h, w') → objects w !! path_key path = Some h ∧ objects w' = objects w.
Proof.
  unfold open_waiting. intros (u & Hu & H)%bounded_ok. apply cbind_ok in H as (o & u1 & H1 & H).
  apply cmap_err_ok, open_raw_ok in H1 as [-> H1]. rewrite Hu in *.
  destruct (objects w !! path_key path); [|done]. injection H as -> ->. done.
Qed.

Lemma file_information_ok path h w i w' : file_information path h w = (Ok i, w') → i = info h.
Proof. intros H. by apply win32_ok in H as (_ & u & _ & ->). Qed.

Lemma read_checked_within_ok path policy w r w' :
  read_checked_within path policy w = (Ok r, w') →
  match r with
  | Some b => ∃ o, objects w !! path_key path = Some o ∧ in_custody File policy o ∧ b = contents o
  | None => objects w !! path_key path = None
  end.
Proof.
  unfold read_checked_within. intros (h & w1 & H1 & H)%cbind_ok. apply cmap_err_ok, open_existing_ok in H1 as [-> _].
  destruct (objects w !! path_key path) as [o|]; [|by injection H as <- _].
  apply cbind_ok in H as (i & w2 & Hi & H). apply cmap_err_ok, file_information_ok in Hi as ->.
  apply cbind_ok in H as ([] & w3 & [= Hs _] & H).
  apply cbind_ok in H as (d & w4 & Hd & H). apply cmap_err_ok, win32_ok in Hd as (_ & u & _ & ->).
  apply cbind_ok in H as ([] & w5 & Hc & H). apply cmap_err_ok, check_descriptor_sound in Hc.
  apply win32_ok in H as (_ & u' & _ & ->). exists o. split_and!; try done. split; [|done].
  apply (shape_of_ok _ path). by destruct (shape_of (info o) path File) as [[]|].
Qed.

(** Deletion through a handle, however it ends. *)
Definition deleted (k : Path) (m m' : gmap Path Object) : Prop :=
  m' = m ∨ (children k m = [] ∧ m' = delete k m).

#[global] Instance deleted_refl k : Reflexive (deleted k).
Proof. intros m. by left. Qed.

Lemma dispose_run path w :
  let '(r, w') := dispose path w in
  deleted (path_key path) (objects w) (objects w') ∧ (is_ok r = false → objects w' = objects w).
Proof.
  unfold dispose, cbind, deleted. pose proof (@call_fault_inspects Z w) as H.
  destruct (call_fault w) as [[[f|]|e] w1]; cbn in *; [auto| |auto].
  rewrite H. destruct (children (path_key path) (objects w1)) eqn:E; cbn; (split; [|done]); [by right|by left].
Qed.

Lemma delete_through_run h path : changes (deleted (path_key path)) (delete_through h path).
Proof.
  apply (changes_bounded _). intros w. pose proof (dispose_run path w) as H.
  destruct (dispose path w) as [[[]|e] w1]; cbn in *; [by destruct H|]. destruct H as [_ H].
  case_match; cbn; [by left; rewrite H|]. unfold cmap_err. pose proof (dispose_run path w1) as H1.
  destruct (dispose path w1) as [r2 w2]. cbn. rewrite <- H by done. by destruct H1.
Qed.

End Handles.
