(* ===== verification/InstanceLock.v ===== *)
(** * The per-host instance lock ([instance_lock.rs])

    [acquire] as a tree of Win32 calls, each with the type of its reply, so that the
    starts of several processes interleave call by call over one host: a private
    namespace and the mutex in it are there while a handle to them is open, each process
    has its own handles and its own last error, and any call may fail. A process that
    dies stops where it is, and the host closes its handles one by one.

    The theorems: no two processes hold the lock, a start that ends has closed every
    handle it opened, and what one start alone returns. *)

From S2P Require Import Prelude Custody.
Open Scope Z_scope.

(** ** Outcomes *)

Definition STDERR_ANOTHER_INSTANCE : string :=
  "cg-agent: another CyberGuard agent instance is running on this host".
Definition STDERR_CONTROLS_ETW : string :=
  "cg-agent: instance lock failed: this token controls ETW sessions but is not an elevated administrator's or SYSTEM's".
Definition stderr_lock_failed (step : string) (code : Z) : string :=
  "cg-agent: instance lock failed: " +:+ step +:+ ": Win32 error " +:+ dec code.

(** The handles a holder keeps open. *)
Record InstanceLock := { mutex : Z; namespace : Z }.

Inductive LockOutcome :=
| Acquired (lock : InstanceLock)
| Held
| ControlsEtwOutsideModel
| Unprivileged
| LockFailed (step : string) (code : Z).

Definition lock_exit_code (o : LockOutcome) : option Z :=
  match o with
  | Acquired _ | Unprivileged => None
  | Held => Some 10
  | ControlsEtwOutsideModel | LockFailed _ _ => Some 1
  end.

Definition lock_stderr_line (o : LockOutcome) : option string :=
  match o with
  | Acquired _ | Unprivileged => None
  | Held => Some STDERR_ANOTHER_INSTANCE
  | ControlsEtwOutsideModel => Some STDERR_CONTROLS_ETW
  | LockFailed step code => Some (stderr_lock_failed step code)
  end.

Inductive TokenClass := CanCreate | ControlsEtw | Ordinary.

(** ** Calls *)

Inductive WellKnown := BuiltinAdministrators | BuiltinPerfLoggingUsers | LocalService | NetworkService.
Inductive InfoClass := TokenGroups | TokenPrivileges.

(** SIDs with their attributes, and privileges by their LUID's two parts. *)
Record Token := { groups : list (bytes * Z); privileges : list (Z * Z) }.
Definition info_of (c : InfoClass) : Type :=
  match c with TokenGroups => list (bytes * Z) | TokenPrivileges => list (Z * Z) end.
Definition read_info (t : Token) (c : InfoClass) : info_of c :=
  match c with TokenGroups => groups t | TokenPrivileges => privileges t end.

Inductive LockCall :=
| OpenProcessToken
| CloseToken (token : Z)
| CreateWellKnownSid (k : WellKnown)
| GetTokenInformation (token : Z) (class : InfoClass) (length : Z)
| LookupPrivilegeValue
| CreateBoundaryDescriptor
| AddSIDToBoundaryDescriptor (boundary : Z) (sid : bytes)
| DeleteBoundaryDescriptor (boundary : Z)
| ParseSddl
| LocalFree (descriptor : Z)
| CreatePrivateNamespace (boundary descriptor : Z)
| OpenPrivateNamespace (boundary : Z)
| CreateMutex
| CloseMutex (mutex : Z)
| ClosePrivateNamespace (namespace : Z)
| GetLastError.

(** A handle or null, for those that return one; [GetTokenInformation] also says the
    size it needs. *)
Definition Reply (c : LockCall) : Type :=
  match c with
  | CreateWellKnownSid _ => option bytes
  | GetTokenInformation _ class _ => option (info_of class) * Z
  | LookupPrivilegeValue => option (Z * Z)
  | OpenProcessToken | CreateBoundaryDescriptor | AddSIDToBoundaryDescriptor _ _ | ParseSddl
  | CreatePrivateNamespace _ _ | OpenPrivateNamespace _ | CreateMutex => option Z
  | CloseToken _ | DeleteBoundaryDescriptor _ | LocalFree _ | CloseMutex _ | ClosePrivateNamespace _ => unit
  | GetLastError => Z
  end.

(** A program: its next call and how it goes on, or its result. *)
Inductive Prog (A : Type) :=
| Ret (a : A)
| Call (c : LockCall) (k : Reply c → Prog A).
Arguments Ret {A} a.
Arguments Call {A} c k.

Fixpoint pbind {A B} (p : Prog A) (f : A → Prog B) : Prog B :=
  match p with
  | Ret a => f a
  | Call c k => Call c (λ r, pbind (k r) f)
  end.
Definition call (c : LockCall) : Prog (Reply c) := Call c Ret.

Declare Scope prog_scope.
Notation "'do!' x ':=' m 'in' k" := (pbind m (λ x, k))
  (at level 10, x pattern, m at level 100, k at level 200) : prog_scope.
Notation "m ';;$' k" := (pbind m (λ _, k)) (at level 100, right associativity) : prog_scope.
Open Scope prog_scope.

(** [operation?] on a result. *)
Definition or_return {A} (p : Prog (Result A LockOutcome)) (f : A → Prog LockOutcome) : Prog LockOutcome :=
  do! r := p in match r with Ok a => f a | Err o => Ret o end.

(** ** The token *)

Definition SE_GROUP_ENABLED : Z := 4.
Definition ERROR_SUCCESS : Z := 0.
Definition ERROR_INSUFFICIENT_BUFFER : Z := 122.

Definition last_error : Prog Z := call GetLastError.

Definition open_process_token : Prog (Result Z Z) :=
  do! token := call OpenProcessToken in
  match token with
  | Some token => Ret (Ok token)
  | None => do! code := last_error in Ret (Err code)
  end.

(** The buffer's length in bytes: [u64]s enough for what the first call asks for. *)
Definition buffer_length (needed : Z) : Z := wrap_u 32 (Z.max ((needed + 7) / 8) 1 * 8).

Definition token_information (token : Z) (class : InfoClass) : Prog (Result (info_of class) Z) :=
  do! (_, needed) := call (GetTokenInformation token class 0) in
  do! (info, _) := call (GetTokenInformation token class (buffer_length needed)) in
  match info with
  | Some info => Ret (Ok info)
  | None => do! code := last_error in Ret (Err code)
  end.

Definition well_known_sid (k : WellKnown) : Prog (option bytes) := call (CreateWellKnownSid k).

Section Token.
Context {Sec : Win32Security}.

(** The loop over the token's groups. *)
Definition enabled_in (target : bytes) (l : list (bytes * Z)) : bool :=
  existsb (λ g, negb (Z.land g.2 SE_GROUP_ENABLED =? 0) && EqualSid g.1 target) l.

Definition has_enabled_group (token : Z) (k : WellKnown) : Prog bool :=
  do! target := well_known_sid k in
  match target with
  | None => Ret false
  | Some target =>
      do! l := token_information token TokenGroups in
      Ret (match l with Ok l => enabled_in target l | Err _ => false end)
  end.

(** The loop over its privileges. *)
Definition privilege_in (luid : Z * Z) (l : list (Z * Z)) : bool :=
  existsb (λ p, (p.1 =? luid.1) && (p.2 =? luid.2)) l.

Definition has_privilege (token : Z) : Prog bool :=
  do! luid := call LookupPrivilegeValue in
  match luid with
  | None => Ret false
  | Some luid =>
      do! l := token_information token TokenPrivileges in
      Ret (match l with Ok l => privilege_in luid l | Err _ => false end)
  end.

(** [a || b], the second only when the first is false. *)
Definition por (a b : Prog bool) : Prog bool :=
  do! x := a in if x : bool then Ret true else b.

Definition classify_token (token : Z) : Prog TokenClass :=
  do! administrator := has_enabled_group token BuiltinAdministrators in
  if administrator : bool then Ret CanCreate else
  do! controls := por (has_enabled_group token BuiltinPerfLoggingUsers)
                    (por (has_enabled_group token LocalService)
                      (por (has_enabled_group token NetworkService) (has_privilege token))) in
  Ret (if controls : bool then ControlsEtw else Ordinary).

(** ** The lock *)

Definition parse_sddl : Prog (Result Z Z) :=
  do! descriptor := call ParseSddl in
  match descriptor with
  | Some descriptor => Ret (Ok descriptor)
  | None => do! code := last_error in Ret (Err code)
  end.

Definition delete_boundary (boundary : Z) : Prog unit := call (DeleteBoundaryDescriptor boundary).
Definition close_namespace (namespace : Z) : Prog unit := call (ClosePrivateNamespace namespace).

Definition open_or_create_namespace (boundary : Z) : Prog (Result Z LockOutcome) :=
  do! parsed := parse_sddl in
  match parsed with
  | Err code => Ret (Err (LockFailed "parse namespace security descriptor" code))
  | Ok descriptor =>
      do! created := call (CreatePrivateNamespace boundary descriptor) in
      do! create_error := last_error in
      call (LocalFree descriptor) ;;$
      match created with
      | Some namespace => Ret (Ok namespace)
      | None =>
          if negb (create_error =? ERROR_ALREADY_EXISTS)
          then Ret (Err (LockFailed "create private namespace" create_error)) else
          do! opened := call (OpenPrivateNamespace boundary) in
          match opened with
          | Some namespace => Ret (Ok namespace)
          | None => do! code := last_error in Ret (Err (LockFailed "open private namespace" code))
          end
      end
  end.

(** The boundary descriptor with the Administrators SID. *)
Definition boundary_descriptor : Prog (Result Z LockOutcome) :=
  do! created := call CreateBoundaryDescriptor in
  match created with
  | None => do! code := last_error in Ret (Err (LockFailed "create boundary descriptor" code))
  | Some handle =>
      do! admins := well_known_sid BuiltinAdministrators in
      match admins with
      | None =>
          delete_boundary handle ;;$
          do! code := last_error in Ret (Err (LockFailed "build Administrators SID" code))
      | Some admins =>
          do! added := call (AddSIDToBoundaryDescriptor handle admins) in
          match added with
          | Some moved => Ret (Ok moved)
          | None =>
              do! code := last_error in
              delete_boundary handle ;;$
              Ret (Err (LockFailed "add SID to boundary descriptor" code))
          end
      end
  end.

Definition create_or_detect_lock : Prog LockOutcome :=
  or_return boundary_descriptor (λ boundary,
  do! opened := open_or_create_namespace boundary in
  match opened with
  | Err outcome => delete_boundary boundary ;;$ Ret outcome
  | Ok namespace =>
      delete_boundary boundary ;;$
      do! created := call CreateMutex in
      match created with
      | None =>
          do! code := last_error in
          close_namespace namespace ;;$
          Ret (LockFailed "create mutex" code)
      | Some mutex =>
          do! error := last_error in
          if error =? ERROR_ALREADY_EXISTS then
            call (CloseMutex mutex) ;;$ close_namespace namespace ;;$ Ret Held
          else Ret (Acquired {| mutex := mutex; namespace := namespace |})
      end
  end).

(** Elsewhere there is no capture, so no lock, and the start goes on. *)
Definition acquire_elsewhere : LockOutcome := Unprivileged.

(** [impl Debug for InstanceLock]: no handle is printed. *)
Definition instance_lock_debug (lock : InstanceLock) : string := "InstanceLock".

Definition acquire : Prog LockOutcome :=
  do! opened := open_process_token in
  match opened with
  | Err code => Ret (LockFailed "open process token" code)
  | Ok token =>
      do! class := classify_token token in
      call (CloseToken token) ;;$
      match class with
      | CanCreate => create_or_detect_lock
      | ControlsEtw => Ret ControlsEtwOutsideModel
      | Ordinary => Ret Unprivileged
      end
  end.
End Token.

(** [Drop for InstanceLock]. *)
Definition drop_lock (l : InstanceLock) : Prog unit :=
  call (CloseMutex (mutex l)) ;;$ close_namespace (namespace l).

(** ** The host *)

(** The open handles with their process, those of a namespace and of a mutex with the
    namespace too, and each thread's last error. *)
Record Kernel := {
  tokens : gmap Z Z;
  boundaries : gmap Z Z;
  descriptors : gmap Z Z;
  namespaces : gmap Z (Z * Z);
  mutexes : gmap Z (Z * Z);
  last_errors : gmap Z Z;
  next : Z;
}.

Section Kernel.
Context (token_of : Z → Token) (size_of : Token → InfoClass → Z) (sid_of : WellKnown → bytes) (profile_luid : Z * Z).

Definition set_error (p e : Z) (k : Kernel) : Kernel :=
  {| tokens := tokens k; boundaries := boundaries k; descriptors := descriptors k; namespaces := namespaces k;
     mutexes := mutexes k; last_errors := <[p := e]> (last_errors k); next := next k |}.
Definition with_tokens (k : Kernel) (m : gmap Z Z) : Kernel :=
  {| tokens := m; boundaries := boundaries k; descriptors := descriptors k; namespaces := namespaces k;
     mutexes := mutexes k; last_errors := last_errors k; next := next k + 1 |}.
Definition with_boundaries (k : Kernel) (m : gmap Z Z) : Kernel :=
  {| tokens := tokens k; boundaries := m; descriptors := descriptors k; namespaces := namespaces k;
     mutexes := mutexes k; last_errors := last_errors k; next := next k + 1 |}.
Definition with_descriptors (k : Kernel) (m : gmap Z Z) : Kernel :=
  {| tokens := tokens k; boundaries := boundaries k; descriptors := m; namespaces := namespaces k;
     mutexes := mutexes k; last_errors := last_errors k; next := next k + 1 |}.
Definition with_namespaces (k : Kernel) (m : gmap Z (Z * Z)) : Kernel :=
  {| tokens := tokens k; boundaries := boundaries k; descriptors := descriptors k; namespaces := m;
     mutexes := mutexes k; last_errors := last_errors k; next := next k + 1 |}.
Definition with_mutexes (k : Kernel) (m : gmap Z (Z * Z)) : Kernel :=
  {| tokens := tokens k; boundaries := boundaries k; descriptors := descriptors k; namespaces := namespaces k;
     mutexes := m; last_errors := last_errors k; next := next k + 1 |}.

(** The namespace that exists, and the one [p] has entered. *)
Definition existing (k : Kernel) : option Z := head ((λ x, x.2.2) <$> map_to_list (namespaces k)).
Definition entered (p : Z) (k : Kernel) : option Z :=
  head ((λ x, x.2.2) <$> filter (λ x, x.2.1 = p) (map_to_list (namespaces k))).
(** The mutex of the namespace [n] exists. *)
Definition mutex_there (n : Z) (k : Kernel) : bool :=
  existsb (λ x, bool_decide (x.2.2 = n)) (map_to_list (mutexes k)).

(** One call of [p]'s, failing with the error [f] where it can. *)
Definition perform (p : Z) (c : LockCall) (f : option Z) (k : Kernel) : Reply c * Kernel :=
  match c as c return Reply c * Kernel with
  | OpenProcessToken =>
      match f with
      | Some e => (None, set_error p e k)
      | None => (Some (next k), with_tokens k (<[next k := p]> (tokens k)))
      end
  | CloseToken h => (tt, with_tokens k (delete h (tokens k)))
  | CreateWellKnownSid w => match f with Some e => (None, set_error p e k) | None => (Some (sid_of w), k) end
  | GetTokenInformation h class length =>
      let needed := size_of (token_of p) class in
      match f with
      | Some e => ((None, 0), set_error p e k)
      | None => if length <? needed then ((None, needed), set_error p ERROR_INSUFFICIENT_BUFFER k)
                else ((Some (read_info (token_of p) class), needed), k)
      end
  | LookupPrivilegeValue => match f with Some e => (None, set_error p e k) | None => (Some profile_luid, k) end
  | CreateBoundaryDescriptor =>
      match f with
      | Some e => (None, set_error p e k)
      | None => (Some (next k), with_boundaries k (<[next k := p]> (boundaries k)))
      end
  | AddSIDToBoundaryDescriptor h sid =>
      match f with
      | Some e => (None, set_error p e k)
      | None => (Some (next k), with_boundaries k (<[next k := p]> (delete h (boundaries k))))
      end
  | DeleteBoundaryDescriptor h => (tt, with_boundaries k (delete h (boundaries k)))
  | ParseSddl =>
      match f with
      | Some e => (None, set_error p e k)
      | None => (Some (next k), with_descriptors k (<[next k := p]> (descriptors k)))
      end
  | LocalFree h => (tt, with_descriptors k (delete h (descriptors k)))
  | CreatePrivateNamespace b d =>
      match f, existing k with
      | Some e, _ => (None, set_error p e k)
      | None, Some _ => (None, set_error p ERROR_ALREADY_EXISTS k)
      | None, None => (Some (next k), with_namespaces k (<[next k := (p, next k)]> (namespaces k)))
      end
  | OpenPrivateNamespace b =>
      match f, existing k with
      | Some e, _ => (None, set_error p e k)
      | None, None => (None, set_error p ERROR_PATH_NOT_FOUND k)
      | None, Some n => (Some (next k), with_namespaces k (<[next k := (p, n)]> (namespaces k)))
      end
  | CreateMutex =>
      match f, entered p k with
      | Some e, _ => (None, set_error p e k)
      | None, None => (None, set_error p ERROR_PATH_NOT_FOUND k)
      | None, Some n =>
          (Some (next k), set_error p (if mutex_there n k then ERROR_ALREADY_EXISTS else ERROR_SUCCESS)
                            (with_mutexes k (<[next k := (p, n)]> (mutexes k))))
      end
  | CloseMutex h => (tt, with_mutexes k (delete h (mutexes k)))
  | ClosePrivateNamespace h => (tt, with_namespaces k (delete h (namespaces k)))
  | GetLastError => (default ERROR_SUCCESS (last_errors k !! p), k)
  end.

(** One program alone, its calls failing as [faults] says. *)
Fixpoint run {A} (p : Z) (m : Prog A) (faults : list (option Z)) (k : Kernel) : A * Kernel :=
  match m with
  | Ret a => (a, k)
  | Call c m =>
      let '(r, k') := perform p c (default None (head faults)) k in run p (m r) (tail faults) k'
  end.

(** *** Processes *)

Inductive Process :=
| Acquiring (m : Prog LockOutcome)
| Holding (l : InstanceLock)
| Releasing (m : Prog unit)
| Ended (o : option LockOutcome)
| Dead.

Record Host := { kernel : Kernel; processes : gmap Z Process }.

(** A process after its start. *)
Definition ended (o : LockOutcome) : Process :=
  match o with Acquired l => Holding l | _ => Ended (Some o) end.

(** A handle of [p]'s closed by the host. *)
Inductive closed_for (p : Z) : Kernel → Kernel → Prop :=
| closes_token h k : tokens k !! h = Some p → closed_for p k (with_tokens k (delete h (tokens k)))
| closes_boundary h k : boundaries k !! h = Some p → closed_for p k (with_boundaries k (delete h (boundaries k)))
| closes_descriptor h k : descriptors k !! h = Some p → closed_for p k (with_descriptors k (delete h (descriptors k)))
| closes_namespace h n k : namespaces k !! h = Some (p, n) → closed_for p k (with_namespaces k (delete h (namespaces k)))
| closes_mutex h n k : mutexes k !! h = Some (p, n) → closed_for p k (with_mutexes k (delete h (mutexes k))).

Context {Sec : Win32Security}.

Inductive host_step : Host → Host → Prop :=
| start_process k ps p :
    ps !! p = None → host_step {| kernel := k; processes := ps |} {| kernel := k; processes := <[p := Acquiring acquire]> ps |}
| acquire_call k ps p c m f :
    ps !! p = Some (Acquiring (Call c m)) →
    host_step {| kernel := k; processes := ps |}
      {| kernel := (perform p c f k).2; processes := <[p := Acquiring (m (perform p c f k).1)]> ps |}
| acquire_end k ps p o :
    ps !! p = Some (Acquiring (Ret o)) →
    host_step {| kernel := k; processes := ps |} {| kernel := k; processes := <[p := ended o]> ps |}
| release_begin k ps p l :
    ps !! p = Some (Holding l) →
    host_step {| kernel := k; processes := ps |} {| kernel := k; processes := <[p := Releasing (drop_lock l)]> ps |}
| release_call k ps p c m f :
    ps !! p = Some (Releasing (Call c m)) →
    host_step {| kernel := k; processes := ps |}
      {| kernel := (perform p c f k).2; processes := <[p := Releasing (m (perform p c f k).1)]> ps |}
| release_end k ps p :
    ps !! p = Some (Releasing (Ret tt)) →
    host_step {| kernel := k; processes := ps |} {| kernel := k; processes := <[p := Ended None]> ps |}
| die k ps p st :
    ps !! p = Some st → host_step {| kernel := k; processes := ps |} {| kernel := k; processes := <[p := Dead]> ps |}
| close_handle k k' ps p :
    ps !! p = Some Dead → closed_for p k k' →
    host_step {| kernel := k; processes := ps |} {| kernel := k'; processes := ps |}.

Definition fresh_kernel : Kernel :=
  {| tokens := ∅; boundaries := ∅; descriptors := ∅; namespaces := ∅; mutexes := ∅; last_errors := ∅; next := 0 |}.
Definition reachable (h : Host) : Prop := rtc host_step {| kernel := fresh_kernel; processes := ∅ |} h.
End Kernel.

(** ** What a process owns *)

(** Its open handles, whether it made the mutex, and its last error where that is known. *)
Record Owned := {
  o_token : option Z;
  o_boundary : option Z;
  o_descriptor : option Z;
  o_namespace : option Z;
  o_mutex : option (Z * bool);
  o_error : option Z;
}.

Definition owns_nothing (o : Owned) : Prop :=
  o_token o = None ∧ o_boundary o = None ∧ o_descriptor o = None ∧ o_namespace o = None ∧ o_mutex o = None.
Definition owns_lock (l : InstanceLock) (o : Owned) : Prop :=
  o_token o = None ∧ o_boundary o = None ∧ o_descriptor o = None ∧
  o_namespace o = Some (namespace l) ∧ o_mutex o = Some (mutex l, true).

(** A call opens what is not open and closes what is: the namespace after its mutex. *)
Definition permitted (o : Owned) (c : LockCall) : Prop :=
  match c with
  | OpenProcessToken => o_token o = None
  | CloseToken h => o_token o = Some h
  | CreateBoundaryDescriptor => o_boundary o = None
  | AddSIDToBoundaryDescriptor h _ | DeleteBoundaryDescriptor h => o_boundary o = Some h
  | ParseSddl => o_descriptor o = None
  | LocalFree h => o_descriptor o = Some h
  | CreatePrivateNamespace _ _ | OpenPrivateNamespace _ => o_namespace o = None
  | CreateMutex => o_mutex o = None ∧ is_Some (o_namespace o)
  | CloseMutex h => ∃ new, o_mutex o = Some (h, new)
  | ClosePrivateNamespace h => o_namespace o = Some h ∧ o_mutex o = None
  | _ => True
  end.

Definition keep_token (o : Owned) (h : option Z) : Owned :=
  {| o_token := h; o_boundary := o_boundary o; o_descriptor := o_descriptor o; o_namespace := o_namespace o;
     o_mutex := o_mutex o; o_error := None |}.
Definition keep_boundary (o : Owned) (h : option Z) : Owned :=
  {| o_token := o_token o; o_boundary := h; o_descriptor := o_descriptor o; o_namespace := o_namespace o;
     o_mutex := o_mutex o; o_error := None |}.
Definition keep_descriptor (o : Owned) (h : option Z) : Owned :=
  {| o_token := o_token o; o_boundary := o_boundary o; o_descriptor := h; o_namespace := o_namespace o;
     o_mutex := o_mutex o; o_error := None |}.
Definition keep_namespace (o : Owned) (h : option Z) : Owned :=
  {| o_token := o_token o; o_boundary := o_boundary o; o_descriptor := o_descriptor o; o_namespace := h;
     o_mutex := o_mutex o; o_error := None |}.
Definition keep_mutex (o : Owned) (h : option (Z * bool)) (e : option Z) : Owned :=
  {| o_token := o_token o; o_boundary := o_boundary o; o_descriptor := o_descriptor o; o_namespace := o_namespace o;
     o_mutex := h; o_error := e |}.
(** The same handles, the last error unknown. *)
Definition unsure (o : Owned) : Owned := keep_mutex o (o_mutex o) None.

(** What it owns after a call with this reply. *)
Definition after (o : Owned) (c : LockCall) : Reply c → Owned → Prop :=
  match c as c return Reply c → Owned → Prop with
  | OpenProcessToken => λ r o', o' = from_option (λ h, keep_token o (Some h)) (unsure o) r
  | CloseToken _ => λ _ o', o' = keep_token o None
  | CreateBoundaryDescriptor | AddSIDToBoundaryDescriptor _ _ => λ r o',
      o' = from_option (λ h, keep_boundary o (Some h)) (unsure o) r
  | DeleteBoundaryDescriptor _ => λ _ o', o' = keep_boundary o None
  | ParseSddl => λ r o', o' = from_option (λ h, keep_descriptor o (Some h)) (unsure o) r
  | LocalFree _ => λ _ o', o' = keep_descriptor o None
  | CreatePrivateNamespace _ _ | OpenPrivateNamespace _ => λ r o',
      o' = from_option (λ h, keep_namespace o (Some h)) (unsure o) r
  | CreateMutex => λ r o',
      match r with
      | Some h => ∃ new : bool, o' = keep_mutex o (Some (h, new)) (Some (if new then ERROR_SUCCESS else ERROR_ALREADY_EXISTS))
      | None => o' = unsure o
      end
  | CloseMutex _ => λ _ o', o' = keep_mutex o None None
  | ClosePrivateNamespace _ => λ _ o', o' = keep_namespace o None
  | GetLastError => λ r o', (∀ e, o_error o = Some e → r = e) ∧ o' = o
  | CreateWellKnownSid _ | GetTokenInformation _ _ _ | LookupPrivilegeValue => λ _ o', o' = unsure o
  end.

(** A program that keeps to it, and ends in [Q]. *)
Fixpoint safe {A} (o : Owned) (m : Prog A) (Q : A → Owned → Prop) : Prop :=
  match m with
  | Ret a => Q a o
  | Call c k => permitted o c ∧ ∀ r o', after o c r o' → safe o' (k r) Q
  end.

Lemma safe_bind {A B} o (m : Prog A) (f : A → Prog B) (Q : B → Owned → Prop) :
  safe o m (λ a o', safe o' (f a) Q) → safe o (pbind m f) Q.
Proof. revert o. induction m as [a|c k IH]; intros o; [done|]. intros [H1 H2]. split; [done|]. intros r o' Ho. auto. Qed.

Lemma safe_weaken {A} o (m : Prog A) (P Q : A → Owned → Prop) :
  safe o m P → (∀ a o', P a o' → Q a o') → safe o m Q.
Proof. intros H HQ. revert o H. induction m as [a|c k IH]; intros o; [apply HQ|]. intros [H1 H2]. split; [done|]. eauto. Qed.

Lemma safe_call o c (Q : Reply c → Owned → Prop) :
  permitted o c → (∀ r o', after o c r o' → Q r o') → safe o (call c) Q.
Proof. done. Qed.

(** *** The programs keep to it *)

Lemma safe_last_error o (Q : Z → Owned → Prop) :
  (∀ e, (∀ e', o_error o = Some e' → e = e') → Q e o) → safe o last_error Q.
Proof. intros H. split; [done|]. intros r o' [Hr ->]. by apply H. Qed.

(** The same handles. *)
Definition same (o o' : Owned) : Prop :=
  o_token o' = o_token o ∧ o_boundary o' = o_boundary o ∧ o_descriptor o' = o_descriptor o ∧
  o_namespace o' = o_namespace o ∧ o_mutex o' = o_mutex o.

Lemma same_refl o : same o o.
Proof. done. Qed.
Lemma same_trans o1 o2 o3 : same o1 o2 → same o2 o3 → same o1 o3.
Proof. unfold same. intuition congruence. Qed.
Lemma same_unsure o : same o (unsure o).
Proof. done. Qed.

(** An error, its code read. *)
Lemma safe_failed {A} o o0 (f : Z → A) (Q : A → Owned → Prop) :
  same o0 o → (∀ e o', same o0 o' → Q (f e) o') → safe o (do! code := last_error in Ret (f code)) Q.
Proof. intros Hs H. apply safe_bind, safe_last_error. intros e _. by apply H. Qed.

Section SafePrograms.
Context {Sec : Win32Security}.

(** Reads of the token: nothing is opened or closed. *)
Lemma token_information_safe token class o : safe o (token_information token class) (λ _, same o).
Proof.
  unfold token_information. apply safe_bind, safe_call; [done|]. intros [x needed] o1 ->.
  apply safe_bind, safe_call; [done|]. intros [[info|] n] o2 ->; [done|]. by apply (safe_failed _ o).
Qed.

Lemma has_enabled_group_safe token k o : safe o (has_enabled_group token k) (λ _, same o).
Proof.
  apply safe_bind, safe_call; [done|]. intros [target|] o1 ->; [|done].
  apply safe_bind. eapply safe_weaken; [apply token_information_safe|]. intros r o2 H. exact H.
Qed.

Lemma has_privilege_safe token o : safe o (has_privilege token) (λ _, same o).
Proof.
  apply safe_bind, safe_call; [done|]. intros [luid|] o1 ->; [|done].
  apply safe_bind. eapply safe_weaken; [apply token_information_safe|]. intros r o2 H. exact H.
Qed.

Lemma por_safe a b o :
  (∀ o', safe o' a (λ _, same o')) → (∀ o', safe o' b (λ _, same o')) → safe o (por a b) (λ _, same o).
Proof.
  intros Ha Hb. apply safe_bind. eapply safe_weaken; [apply Ha|]. intros [] o' H; [done|].
  eapply safe_weaken; [apply Hb|]. intros x o'' H'. by eapply same_trans.
Qed.

Lemma classify_token_safe token o : safe o (classify_token token) (λ _, same o).
Proof.
  apply safe_bind. eapply safe_weaken; [apply has_enabled_group_safe|]. intros [] o1 H1; [done|].
  apply safe_bind. eapply safe_weaken.
  - repeat (apply por_safe; [intros; apply has_enabled_group_safe|intros]). apply has_privilege_safe.
  - intros x o2 H2. by eapply same_trans.
Qed.

Definition not_acquired (o : LockOutcome) : Prop := match o with Acquired _ => False | _ => True end.

Lemma boundary_descriptor_safe o :
  o_boundary o = None →
  safe o boundary_descriptor (λ r o', match r with
                                      | Ok h => same (keep_boundary o (Some h)) o'
                                      | Err out => same o o' ∧ not_acquired out
                                      end).
Proof.
  intros Hb. apply safe_bind, safe_call; [done|]. intros [h|] o1 ->; [|by apply (safe_failed _ o)].
  apply safe_bind, safe_call; [done|]. intros [admins|] o2 ->.
  - apply safe_bind, safe_call; [done|]. intros [moved|] o3 ->; [done|].
    apply safe_bind, safe_last_error. intros e _. apply safe_bind, safe_call; [done|]. intros [] o4 ->.
    split; [|done]. unfold same. cbn. by rewrite Hb.
  - apply safe_bind, safe_call; [done|]. intros [] o3 ->. apply (safe_failed _ o); [|done].
    unfold same. cbn. by rewrite Hb.
Qed.

Lemma open_or_create_namespace_safe o b :
  o_descriptor o = None → o_namespace o = None →
  safe o (open_or_create_namespace b) (λ r o', match r with
                                               | Ok h => same (keep_namespace o (Some h)) o'
                                               | Err out => same o o' ∧ not_acquired out
                                               end).
Proof.
  intros Hd Hn. apply safe_bind, safe_bind, safe_call; [done|]. intros [d|] o1 ->.
  2: { apply (safe_failed _ o); [done|]. done. }
  cbn [safe pbind]. apply safe_bind, safe_call; [done|]. intros created o2 Ho2.
  apply safe_bind, safe_last_error. intros e _.
  apply safe_bind, safe_call; [destruct created; cbn in Ho2; by subst o2|]. intros [] o3 ->.
  destruct created as [n|]; cbn in Ho2; subst o2.
  - unfold same. cbn. by rewrite Hd.
  - destruct (negb _); [unfold same; cbn; by rewrite Hd|].
    apply safe_bind, safe_call; [done|]. intros [n|] o4 ->; [unfold same; cbn; by rewrite Hd|].
    apply (safe_failed _ o); [|done]. unfold same. cbn. by rewrite Hd.
Qed.

(** A start that ends holds the lock, or nothing. *)
Definition start_ends (out : LockOutcome) (o : Owned) : Prop :=
  match out with Acquired l => owns_lock l o | _ => owns_nothing o end.

Lemma start_ends_nothing out o : not_acquired out → owns_nothing o → start_ends out o.
Proof. by destruct out. Qed.

Lemma create_or_detect_lock_safe o : owns_nothing o → safe o create_or_detect_lock start_ends.
Proof.
  intros (H1 & H2 & H3 & H4 & H5). apply safe_bind. eapply safe_weaken; [by apply boundary_descriptor_safe|].
  intros [b|out] o1 Ho1.
  2: { destruct Ho1 as [(S1 & S2 & S3 & S4 & S5) Hn]. apply start_ends_nothing; [done|]. unfold owns_nothing. split_and!; congruence. }
  destruct Ho1 as (S1 & S2 & S3 & S4 & S5). cbn in S1, S2, S3, S4, S5.
  apply safe_bind. eapply safe_weaken; [apply open_or_create_namespace_safe; congruence|].
  intros [n|out] o2 Ho2; cbn in Ho2.
  - destruct Ho2 as (T1 & T2 & T3 & T4 & T5). cbn in T1, T2, T3, T4, T5.
    apply safe_bind, safe_call; [cbn; congruence|]. intros [] o3 ->.
    apply safe_bind, safe_call; [cbn; split; [congruence|by rewrite T4; eexists]|]. intros [m|] o4 Ho4; cbn in Ho4.
    + destruct Ho4 as [new ->]. apply safe_bind, safe_last_error. intros e He. specialize (He _ eq_refl). subst e.
      destruct new; cbn [negb Z.eqb].
      * cbn. unfold owns_lock. cbn. split_and!; congruence.
      * cbn. split; [by eexists|]. intros _ o5 ->. cbn. split; [done|]. intros _ o6 ->.
        unfold owns_nothing. cbn. split_and!; congruence.
    + subst o4. apply safe_bind, safe_last_error. intros e _. apply safe_bind, safe_call; [cbn; split; congruence|].
      intros [] o5 ->. cbn. unfold owns_nothing. cbn. split_and!; congruence.
  - destruct Ho2 as [(T1 & T2 & T3 & T4 & T5) Hn]. apply safe_bind, safe_call; [cbn; congruence|]. intros [] o3 ->.
    apply start_ends_nothing; [done|]. unfold owns_nothing. cbn. split_and!; congruence.
Qed.

Lemma acquire_safe o : owns_nothing o → safe o acquire start_ends.
Proof.
  intros Ho. pose proof Ho as (H1 & H2 & H3 & H4 & H5). apply safe_bind, safe_bind, safe_call; [done|].
  intros [token|] o1 ->; [|apply (safe_failed _ o); [done|]; intros e o' (S1 & S2 & S3 & S4 & S5); cbn; split_and!; congruence].
  cbn [safe pbind]. apply safe_bind. eapply safe_weaken; [apply classify_token_safe|].
  intros class o2 (S1 & S2 & S3 & S4 & S5). cbn in S1, S2, S3, S4, S5.
  apply safe_bind, safe_call; [done|]. intros [] o3 ->.
  assert (owns_nothing (keep_token o2 None)) as Hn by (unfold owns_nothing; cbn; split_and!; congruence).
  destruct class; [by apply create_or_detect_lock_safe|done|done].
Qed.

Lemma drop_lock_safe l o : owns_lock l o → safe o (drop_lock l) (λ _, owns_nothing).
Proof.
  intros (H1 & H2 & H3 & H4 & H5). split; [by eexists|]. intros [] o1 ->. split; [by cbn; rewrite H4|].
  intros [] o2 ->. done.
Qed.
End SafePrograms.

(** ** What the host knows of it *)

(** The handles of [p]'s in [m] are exactly this one, or none. *)
Definition owned_in (m : gmap Z Z) (p : Z) (h : option Z) : Prop := ∀ x, m !! x = Some p ↔ h = Some x.

Lemma owned_opened m p h : m !! h = None → owned_in m p None → owned_in (<[h := p]> m) p (Some h).
Proof.
  intros Hh H x. destruct (decide (x = h)) as [->|Hne]; [by rewrite lookup_insert_eq|].
  rewrite lookup_insert_ne by done. rewrite (H x). naive_solver.
Qed.
Lemma owned_opened_other m p q h o : q ≠ p → m !! h = None → owned_in m q o → owned_in (<[h := p]> m) q o.
Proof.
  intros Hq Hh H x. rewrite <- (H x). destruct (decide (x = h)) as [->|Hne]; [|by rewrite lookup_insert_ne].
  rewrite lookup_insert_eq, Hh. naive_solver.
Qed.
Lemma owned_closed m p h : owned_in m p (Some h) → owned_in (delete h m) p None.
Proof.
  intros H x. split; [|done]. rewrite lookup_delete_Some. intros [Hne Hx]. apply H in Hx. congruence.
Qed.
Lemma owned_closed_other m p q h o : q ≠ p → owned_in m p (Some h) → owned_in m q o → owned_in (delete h m) q o.
Proof.
  intros Hq Hp H x. rewrite <- (H x). destruct (decide (x = h)) as [->|Hne]; [|by rewrite lookup_delete_ne].
  rewrite lookup_delete_eq, (proj2 (Hp h) eq_refl). naive_solver.
Qed.

Definition accounts (k : Kernel) (p : Z) (o : Owned) : Prop :=
  owned_in (tokens k) p (o_token o) ∧ owned_in (boundaries k) p (o_boundary o) ∧
  owned_in (descriptors k) p (o_descriptor o) ∧ owned_in (fst <$> namespaces k) p (o_namespace o) ∧
  owned_in (fst <$> mutexes k) p (fst <$> o_mutex o) ∧
  (∀ h n, mutexes k !! h = Some (p, n) → ∃ x, namespaces k !! x = Some (p, n)) ∧
  (∀ e, o_error o = Some e → last_errors k !! p = Some e).

(** Handles are handed out in order, and at most one namespace exists. *)
Definition below_next {A} (m : gmap Z A) (n : Z) : Prop := ∀ h, is_Some (m !! h) → h < n.
Definition well_formed (k : Kernel) : Prop :=
  below_next (tokens k) (next k) ∧ below_next (boundaries k) (next k) ∧ below_next (descriptors k) (next k) ∧
  below_next (namespaces k) (next k) ∧ below_next (mutexes k) (next k) ∧
  (∀ h h' p p' n n', namespaces k !! h = Some (p, n) → namespaces k !! h' = Some (p', n') → n = n').

Lemma below_none {A} (m : gmap Z A) n : below_next m n → m !! n = None.
Proof. intros H. destruct (m !! n) eqn:E; [|done]. specialize (H n ltac:(by eexists)). lia. Qed.
Lemma below_more {A} (m : gmap Z A) n : below_next m n → below_next m (n + 1).
Proof. intros H h Hh. specialize (H h Hh). lia. Qed.
Lemma below_insert {A} (m : gmap Z A) n x : below_next m n → below_next (<[n := x]> m) (n + 1).
Proof.
  intros H h Hh. destruct (decide (h = n)) as [->|Hne]; [lia|]. rewrite lookup_insert_ne in Hh by done. specialize (H h Hh). lia.
Qed.
Lemma below_delete {A} (m : gmap Z A) n x : below_next m n → below_next (delete x m) (n + 1).
Proof. intros H h Hh. rewrite lookup_delete_is_Some in Hh. destruct Hh as [_ Hh]. specialize (H h Hh). lia. Qed.
#[local] Hint Resolve below_none below_more below_insert below_delete : lock.

Lemma existing_some k n : existing k = Some n → ∃ h p, namespaces k !! h = Some (p, n).
Proof.
  unfold existing. destruct (map_to_list (namespaces k)) as [|[h [p n']] l] eqn:E; [done|]. intros [= <-]. exists h, p.
  apply elem_of_map_to_list. rewrite E. by left.
Qed.
Lemma existing_none k : existing k = None → namespaces k = ∅.
Proof. unfold existing. destruct (map_to_list (namespaces k)) eqn:E; [|done]. intros _. by apply map_to_list_empty_iff. Qed.

Lemma entered_some p k n : entered p k = Some n → ∃ h, namespaces k !! h = Some (p, n).
Proof.
  unfold entered. destruct (filter _ _) as [|[h [p' n']] l] eqn:E; [done|]. intros [= <-].
  assert ((h, (p', n')) ∈ filter (λ x : Z * (Z * Z), x.2.1 = p) (map_to_list (namespaces k))) as Hin by (rewrite E; by left).
  apply list_elem_of_filter in Hin as [Hp Hin]. cbn in Hp. subst p'. exists h. by apply elem_of_map_to_list.
Qed.

Lemma mutex_there_false n k h p : mutex_there n k = false → mutexes k !! h ≠ Some (p, n).
Proof.
  intros H Hh. apply not_true_iff_false in H. apply H. apply existsb_exists. exists (h, (p, n)).
  split; [apply list_elem_of_In; by apply elem_of_map_to_list|]. by apply bool_decide_eq_true.
Qed.

Lemma fst_none {A B} (m : gmap Z (A * B)) h : m !! h = None → (fst <$> m) !! h = None.
Proof. intros H. by rewrite lookup_fmap, H. Qed.

(** The parts of the host a call leaves alone. *)
Ltac apart := unfold well_formed, accounts; cbn; split_and!; eauto with lock; try done.
Ltac spread H := let A1 := fresh "A" in let A2 := fresh "A" in let A3 := fresh "A" in let A4 := fresh "A" in
  let A5 := fresh "A" in let A6 := fresh "A" in let A7 := fresh "A" in destruct H as (A1 & A2 & A3 & A4 & A5 & A6 & A7).

Ltac settled :=
  let q := fresh "q" in let oq := fresh "oq" in let Hq := fresh "Hq" in let Hx := fresh "Hx" in
  split; [apart|]; split; [intros q oq Hq Hx; spread Hx; apart|]; eexists; split; [reflexivity|]; split; [apart|by left].

Section Performed.
Context (token_of : Z → Token) (size_of : Token → InfoClass → Z) (sid_of : WellKnown → bytes) (profile_luid : Z * Z).
#[local] Notation perform := (perform token_of size_of sid_of profile_luid).

(** A failed call. *)
Lemma set_error_keeps p e k q o :
  accounts k q o → accounts (set_error p e k) q (if decide (q = p) then unsure o else o).
Proof.
  intros (A1 & A2 & A3 & A4 & A5 & A6 & A7). case_decide as E; (split_and!; [done|done|done|done|done|done|]).
  - done.
  - cbn. intros x Hx. rewrite lookup_insert_ne by done. by apply A7.
Qed.

Lemma well_formed_error p e k : well_formed k → well_formed (set_error p e k).
Proof. done. Qed.

(** What a call does: the host stays as it should be, the caller owns what the reply
    says, the others what they did; and a caller that makes the mutex is the only one
    with a handle to it. *)
Definition performed (p : Z) (c : LockCall) (k : Kernel) (o : Owned) (res : Reply c * Kernel) : Prop :=
  well_formed res.2 ∧ (∀ q oq, q ≠ p → accounts k q oq → accounts res.2 q oq) ∧
  ∃ o', after o c res.1 o' ∧ accounts res.2 p o' ∧
    ((∃ h, o_mutex o' = Some (h, true)) → o_mutex o' = o_mutex o ∨ ∀ q oq, q ≠ p → accounts k q oq → o_mutex oq = None).

Lemma performed_failed p c k o (r : Reply c) e :
  well_formed k → accounts k p o → after o c r (unsure o) → performed p c k o (r, set_error p e k).
Proof.
  intros Hw Ha Hr. split; [done|]. split.
  - intros q oq Hq H. apply (set_error_keeps p e) in H. by rewrite decide_False in H.
  - exists (unsure o). split; [done|]. split; [|by left]. apply (set_error_keeps p e) in Ha. by rewrite decide_True in Ha.
Qed.
Lemma performed_read p c k o (r : Reply c) :
  well_formed k → accounts k p o → after o c r (unsure o) → performed p c k o (r, k).
Proof.
  intros Hw Ha Hr. split; [done|]. split; [done|]. exists (unsure o). split; [done|]. split; [|by left].
  destruct Ha as (A1 & A2 & A3 & A4 & A5 & A6 & A7). by split_and!.
Qed.

Lemma owned_closed_both m p h : owned_in m p (Some h) →
  owned_in (delete h m) p None ∧ ∀ q o, q ≠ p → owned_in m q o → owned_in (delete h m) q o.
Proof. intros H. split; [by apply owned_closed|]. intros q o Hq Ho. by eapply owned_closed_other. Qed.

Lemma owned_opened_both m p n : below_next m n → owned_in m p None →
  owned_in (<[n := p]> m) p (Some n) ∧ ∀ q o, q ≠ p → owned_in m q o → owned_in (<[n := p]> m) q o.
Proof.
  intros Hb H. split; [by apply owned_opened; [apply below_none|]|]. intros q o Hq Ho.
  by apply owned_opened_other; [|apply below_none|].
Qed.

Lemma perform_token p k o :
  well_formed k → accounts k p o → o_token o = None →
  performed p OpenProcessToken k o (Some (next k), with_tokens k (<[next k := p]> (tokens k))).
Proof.
  intros (W1 & W2 & W3 & W4 & W5 & W6) Ha Hp. pose proof Ha as (A1 & A2 & A3 & A4 & A5 & A6 & A7).
  rewrite Hp in A1. destruct (owned_opened_both _ p _ W1 A1) as [H1 H2].
  settled.
Qed.

Lemma perform_close_token p h k o :
  well_formed k → accounts k p o → o_token o = Some h →
  performed p (CloseToken h) k o (tt, with_tokens k (delete h (tokens k))).
Proof.
  intros (W1 & W2 & W3 & W4 & W5 & W6) Ha Hp. pose proof Ha as (A1 & A2 & A3 & A4 & A5 & A6 & A7).
  rewrite Hp in A1. destruct (owned_closed_both _ p _ A1) as [H1 H2].
  settled.
Qed.

Lemma perform_boundary p k o :
  well_formed k → accounts k p o → o_boundary o = None →
  performed p CreateBoundaryDescriptor k o (Some (next k), with_boundaries k (<[next k := p]> (boundaries k))).
Proof.
  intros (W1 & W2 & W3 & W4 & W5 & W6) Ha Hp. pose proof Ha as (A1 & A2 & A3 & A4 & A5 & A6 & A7).
  rewrite Hp in A2. destruct (owned_opened_both _ p _ W2 A2) as [H1 H2].
  settled.
Qed.

Lemma perform_move_boundary p h sid k o :
  well_formed k → accounts k p o → o_boundary o = Some h →
  performed p (AddSIDToBoundaryDescriptor h sid) k o
    (Some (next k), with_boundaries k (<[next k := p]> (delete h (boundaries k)))).
Proof.
  intros (W1 & W2 & W3 & W4 & W5 & W6) Ha Hp. pose proof Ha as (A1 & A2 & A3 & A4 & A5 & A6 & A7).
  rewrite Hp in A2. destruct (owned_closed_both _ p _ A2) as [H1 H2].
  assert (below_next (delete h (boundaries k)) (next k)) as Wd.
  { intros x Hx. apply W2. rewrite lookup_delete_is_Some in Hx. apply Hx. }
  destruct (owned_opened_both _ p _ Wd H1) as [H3 H4].
  settled.
Qed.

Lemma perform_delete_boundary p h k o :
  well_formed k → accounts k p o → o_boundary o = Some h →
  performed p (DeleteBoundaryDescriptor h) k o (tt, with_boundaries k (delete h (boundaries k))).
Proof.
  intros (W1 & W2 & W3 & W4 & W5 & W6) Ha Hp. pose proof Ha as (A1 & A2 & A3 & A4 & A5 & A6 & A7).
  rewrite Hp in A2. destruct (owned_closed_both _ p _ A2) as [H1 H2].
  settled.
Qed.

Lemma perform_parse p k o :
  well_formed k → accounts k p o → o_descriptor o = None →
  performed p ParseSddl k o (Some (next k), with_descriptors k (<[next k := p]> (descriptors k))).
Proof.
  intros (W1 & W2 & W3 & W4 & W5 & W6) Ha Hp. pose proof Ha as (A1 & A2 & A3 & A4 & A5 & A6 & A7).
  rewrite Hp in A3. destruct (owned_opened_both _ p _ W3 A3) as [H1 H2].
  settled.
Qed.

Lemma perform_free p h k o :
  well_formed k → accounts k p o → o_descriptor o = Some h →
  performed p (LocalFree h) k o (tt, with_descriptors k (delete h (descriptors k))).
Proof.
  intros (W1 & W2 & W3 & W4 & W5 & W6) Ha Hp. pose proof Ha as (A1 & A2 & A3 & A4 & A5 & A6 & A7).
  rewrite Hp in A3. destruct (owned_closed_both _ p _ A3) as [H1 H2].
  settled.
Qed.

Lemma fst_some {A B} (m : gmap Z (A * B)) h p : (fst <$> m) !! h = Some p ↔ ∃ n, m !! h = Some (p, n).
Proof.
  rewrite lookup_fmap. destruct (m !! h) as [[a b]|]; cbn; split.
  - intros [= ->]. by eexists.
  - by intros [n [= -> ->]].
  - done.
  - by intros [n ?].
Qed.

(** The namespace entered, made or found. *)
Lemma enter_keeps p n k o :
  well_formed k → accounts k p o → o_namespace o = None → (∀ h q n', namespaces k !! h = Some (q, n') → n' = n) →
  let k' := with_namespaces k (<[next k := (p, n)]> (namespaces k)) in
  well_formed k' ∧ (∀ q oq, q ≠ p → accounts k q oq → accounts k' q oq) ∧ accounts k' p (keep_namespace o (Some (next k))).
Proof.
  intros (W1 & W2 & W3 & W4 & W5 & W6) Ha Hp Hn k'. pose proof Ha as (A1 & A2 & A3 & A4 & A5 & A6 & A7).
  pose proof (below_none _ _ W4) as Hfree. rewrite Hp in A4.
  assert (below_next (fst <$> namespaces k) (next k)) as Wf.
  { intros x Hx. apply W4. rewrite lookup_fmap in Hx. by apply fmap_is_Some in Hx. }
  destruct (owned_opened_both _ p _ Wf A4) as [H1 H2].
  assert (∀ h x, namespaces k !! h = Some x → namespaces k' !! h = Some x) as Hkeep.
  { intros h x Hx. unfold k'. cbn. rewrite lookup_insert_ne; [done|]. intros <-. congruence. }
  assert (∀ h q n', namespaces k' !! h = Some (q, n') → n' = n) as Hn'.
  { intros h q n'. unfold k'. cbn. destruct (decide (h = next k)) as [->|Hne].
    - rewrite lookup_insert_eq. by intros [= _ <-].
    - rewrite lookup_insert_ne by done. apply Hn. }
  split_and!.
  - apart. intros h h' q q' m m' E1 E2. by rewrite (Hn' _ _ _ E1), (Hn' _ _ _ E2).
  - intros q oq Hq (B1 & B2 & B3 & B4 & B5 & B6 & B7). unfold accounts, k'. cbn. rewrite fmap_insert. split_and!; auto.
    intros h m Hm. destruct (B6 h m Hm) as [x Hx]. exists x. by apply Hkeep.
  - unfold accounts, k'. cbn. rewrite fmap_insert. split_and!; auto; [|done].
    intros h m Hm. destruct (A6 h m Hm) as [x Hx]. exists x. by apply Hkeep.
Qed.

Lemma perform_create_namespace p b d k o :
  well_formed k → accounts k p o → o_namespace o = None → existing k = None →
  performed p (CreatePrivateNamespace b d) k o
    (Some (next k), with_namespaces k (<[next k := (p, next k)]> (namespaces k))).
Proof.
  intros Hw Ha Hp He. apply existing_none in He.
  destruct (enter_keeps p (next k) k o Hw Ha Hp) as (H1 & H2 & H3); [by rewrite He|].
  split; [done|]. split; [done|]. eexists. split; [reflexivity|]. split; [done|by left].
Qed.

Lemma perform_open_namespace p b n k o :
  well_formed k → accounts k p o → o_namespace o = None → existing k = Some n →
  performed p (OpenPrivateNamespace b) k o
    (Some (next k), with_namespaces k (<[next k := (p, n)]> (namespaces k))).
Proof.
  intros Hw Ha Hp He. apply existing_some in He as (x & q & Hx).
  destruct (enter_keeps p n k o Hw Ha Hp) as (H1 & H2 & H3).
  { destruct Hw as (_ & _ & _ & _ & _ & W6). intros h q' n' Hh. by eapply W6. }
  split; [done|]. split; [done|]. eexists. split; [reflexivity|]. split; [done|by left].
Qed.

Lemma perform_close_namespace p h k o :
  well_formed k → accounts k p o → o_namespace o = Some h → o_mutex o = None →
  performed p (ClosePrivateNamespace h) k o (tt, with_namespaces k (delete h (namespaces k))).
Proof.
  intros (W1 & W2 & W3 & W4 & W5 & W6) Ha Hp Hm. pose proof Ha as (A1 & A2 & A3 & A4 & A5 & A6 & A7).
  rewrite Hp in A4. destruct (owned_closed_both _ p _ A4) as [H1 H2].
  pose proof (proj1 (fst_some _ _ _) (proj2 (A4 h) eq_refl)) as [n Hh].
  split; [|split].
  - apart. cbn. intros x x' q q' m m' E1%lookup_delete_Some E2%lookup_delete_Some. naive_solver.
  - intros q oq Hq (B1 & B2 & B3 & B4 & B5 & B6 & B7). unfold accounts. cbn. rewrite fmap_delete. split_and!; auto.
    intros y m Hy. destruct (B6 y m Hy) as [x Hx]. exists x. rewrite lookup_delete_ne; [done|]. intros <-. congruence.
  - eexists. split; [reflexivity|]. split; [|by left]. unfold accounts. cbn. rewrite fmap_delete. split_and!; auto; [|done].
    intros y m Hy. rewrite Hm in A5. specialize (A5 y). rewrite fst_some in A5. destruct A5 as [A5 _].
    by specialize (A5 ltac:(by exists m)).
Qed.

(** The mutex made or found: who makes it is alone with it. *)
Lemma perform_mutex p n k o :
  well_formed k → accounts k p o → o_mutex o = None → entered p k = Some n →
  performed p CreateMutex k o
    (Some (next k), set_error p (if mutex_there n k then ERROR_ALREADY_EXISTS else ERROR_SUCCESS)
                      (with_mutexes k (<[next k := (p, n)]> (mutexes k)))).
Proof.
  intros (W1 & W2 & W3 & W4 & W5 & W6) Ha Hp He. pose proof Ha as (A1 & A2 & A3 & A4 & A5 & A6 & A7).
  apply entered_some in He as [x Hx]. rewrite Hp in A5. pose proof (below_none _ _ W5) as Hfree.
  assert (below_next (fst <$> mutexes k) (next k)) as Wf.
  { intros y Hy. apply W5. rewrite lookup_fmap in Hy. by apply fmap_is_Some in Hy. }
  destruct (owned_opened_both _ p _ Wf A5) as [H1 H2].
  split; [|split].
  - apart.
  - intros q oq Hq (B1 & B2 & B3 & B4 & B5 & B6 & B7). unfold accounts. cbn. rewrite fmap_insert. split_and!; auto.
    + intros y m Hy. destruct (decide (y = next k)) as [->|Hne].
      * rewrite lookup_insert_eq in Hy. injection Hy as -> _. done.
      * rewrite lookup_insert_ne in Hy by done. by apply (B6 y).
    + intros e Hxe. rewrite lookup_insert_ne by done. auto.
  - exists (keep_mutex o (Some (next k, negb (mutex_there n k)))
              (Some (if mutex_there n k then ERROR_ALREADY_EXISTS else ERROR_SUCCESS))).
    split; [cbn; exists (negb (mutex_there n k)); by destruct (mutex_there n k)|]. split.
    + unfold accounts. cbn. rewrite fmap_insert. split_and!; auto.
      * intros y m Hy. destruct (decide (y = next k)) as [->|Hne].
        -- rewrite lookup_insert_eq in Hy. injection Hy as <-. by exists x.
        -- rewrite lookup_insert_ne in Hy by done. by apply (A6 y).
      * intros e [= <-]. by rewrite lookup_insert_eq.
    + intros [h Hh]. right. intros q oq Hq (B1 & B2 & B3 & B4 & B5 & B6 & B7). cbn in Hh. injection Hh as _ Hnew. apply negb_true_iff in Hnew.
      destruct (o_mutex oq) as [[y new]|] eqn:Ey; [|done]. exfalso.
      destruct (proj1 (fst_some _ _ _) (proj2 (B5 y) eq_refl)) as [m Hm]. destruct (B6 y m Hm) as [z Hz].
      rewrite (W6 _ _ _ _ _ _ Hz Hx) in Hm. by eapply mutex_there_false.
Qed.

Lemma perform_close_mutex p h new k o :
  well_formed k → accounts k p o → o_mutex o = Some (h, new) →
  performed p (CloseMutex h) k o (tt, with_mutexes k (delete h (mutexes k))).
Proof.
  intros (W1 & W2 & W3 & W4 & W5 & W6) Ha Hp. pose proof Ha as (A1 & A2 & A3 & A4 & A5 & A6 & A7).
  rewrite Hp in A5. destruct (owned_closed_both _ p _ A5) as [H1 H2].
  split; [|split].
  - apart.
  - intros q oq Hq (B1 & B2 & B3 & B4 & B5 & B6 & B7). unfold accounts. cbn. rewrite fmap_delete. split_and!; auto.
    intros y m Hy%lookup_delete_Some. naive_solver.
  - eexists. split; [reflexivity|]. split; [|cbn; by intros [? ?]]. unfold accounts. cbn. rewrite fmap_delete.
    split_and!; auto; [|done]. intros y m Hy%lookup_delete_Some. naive_solver.
Qed.

Lemma perform_last_error p k o :
  well_formed k → accounts k p o → performed p GetLastError k o (default ERROR_SUCCESS (last_errors k !! p), k).
Proof.
  intros Hw Ha. split; [done|]. split; [done|]. exists o. split; [|by split; [|left]]. split; [|done].
  intros e He. destruct Ha as (_ & _ & _ & _ & _ & _ & A7). by rewrite (A7 e He).
Qed.

Lemma perform_keeps p c f k o :
  well_formed k → accounts k p o → permitted o c → performed p c k o (perform p c f k).
Proof.
  intros Hw Ha Hp. destruct c; cbn in Hp; destruct f as [e|];
    try (by apply performed_failed); try (by apply performed_read); cbn [InstanceLock.perform];
    auto using perform_token, perform_close_token, perform_boundary, perform_move_boundary, perform_delete_boundary,
      perform_parse, perform_free, perform_last_error.
  - destruct (_ <? _); [by apply performed_failed|by apply performed_read].
  - destruct (existing k) eqn:E; [by apply performed_failed|by apply perform_create_namespace].
  - destruct (existing k) eqn:E; [by apply perform_open_namespace|by apply performed_failed].
  - destruct (entered p k) eqn:E; [by apply perform_mutex; [| |apply Hp|]|by apply performed_failed].
  - destruct Hp as [new Hp]. by eapply perform_close_mutex.
  - destruct Hp as [new Hp]. by eapply perform_close_mutex.
  - by apply perform_close_namespace; [| |apply Hp|apply Hp].
  - by apply perform_close_namespace; [| |apply Hp|apply Hp].
Qed.
End Performed.

(** ** Any number of processes *)

Section Processes.
Context (token_of : Z → Token) (size_of : Token → InfoClass → Z) (sid_of : WellKnown → bytes) (profile_luid : Z * Z).
Context {Sec : Win32Security}.
#[local] Notation perform := (perform token_of size_of sid_of profile_luid).
#[local] Notation host_step := (host_step token_of size_of sid_of profile_luid).
#[local] Notation reachable := (reachable token_of size_of sid_of profile_luid).

(** A process that is not dead, by what it owns. *)
Definition in_order_with (st : Process) (o : Owned) : Prop :=
  match st with
  | Acquiring m => safe o m start_ends
  | Holding l => owns_lock l o
  | Releasing m => safe o m (λ _, owns_nothing)
  | Ended _ => owns_nothing o
  | Dead => True
  end.

(** The host and what each process owns; of those that are not dead, at most one made the
    mutex it has. *)
Definition in_order_host (h : Host) (own : Z → Owned) : Prop :=
  well_formed (kernel h) ∧
  (∀ p, processes h !! p ≠ Some Dead → accounts (kernel h) p (own p) ∧
          from_option (λ st, in_order_with st (own p)) (owns_nothing (own p)) (processes h !! p)) ∧
  (∀ p q, processes h !! p ≠ Some Dead → processes h !! q ≠ Some Dead →
          (∃ x, o_mutex (own p) = Some (x, true)) → (∃ x, o_mutex (own q) = Some (x, true)) → p = q).

(** A process that stays alive goes on with what it owns. *)
Lemma in_order_goes_on k ps own p st :
  in_order_host {| kernel := k; processes := ps |} own → ps !! p ≠ Some Dead → in_order_with st (own p) →
  in_order_host {| kernel := k; processes := <[p := st]> ps |} own.
Proof.
  intros (Hw & Hp & Hu) Hd Hst. cbn in *.
  assert (∀ q, <[p := st]> ps !! q ≠ Some Dead → ps !! q ≠ Some Dead) as Hq.
  { intros q. destruct (decide (q = p)) as [->|Hne]; [done|]. by rewrite lookup_insert_ne. }
  split_and!; [done| |]; cbn.
  - intros q Hq'. destruct (Hp q (Hq q Hq')) as [H1 H2]. split; [done|].
    destruct (decide (q = p)) as [->|Hne]; [by rewrite lookup_insert_eq|by rewrite lookup_insert_ne].
  - intros q r Hq' Hr'. apply Hu; auto.
Qed.

(** One of its calls. *)
Lemma in_order_call k ps own p c f st :
  in_order_host {| kernel := k; processes := ps |} own → ps !! p ≠ Some Dead → permitted (own p) c →
  (∀ o', after (own p) c (perform p c f k).1 o' → in_order_with st o') →
  ∃ own', in_order_host {| kernel := (perform p c f k).2; processes := <[p := st]> ps |} own'.
Proof.
  intros (Hw & Hp & Hu) Hd Hper Hst. cbn in *. destruct (Hp p Hd) as [Ha _].
  destruct (perform_keeps token_of size_of sid_of profile_luid p c f k (own p) Hw Ha Hper) as (Hw' & Hq & o' & Ho' & Ha' & Hnew).
  exists (λ q, if decide (q = p) then o' else own q). split_and!; [done| |]; cbn.
  - intros q Hdq. destruct (decide (q = p)) as [->|Hne].
    + rewrite lookup_insert_eq. split; [done|]. by apply Hst.
    + rewrite lookup_insert_ne in Hdq |- * by done. destruct (Hp q Hdq) as [H1 H2]. split; [by apply Hq|done].
  - intros q r Hdq Hdr.
    assert (∀ q, q ≠ p → <[p := st]> ps !! q ≠ Some Dead → (∃ x, o_mutex o' = Some (x, true)) →
              (∃ x, o_mutex (own q) = Some (x, true)) → False) as Hone.
    { intros q' Hne Hdq' Hn1 Hn2. rewrite lookup_insert_ne in Hdq' by done. destruct (Hnew Hn1) as [E|Hno].
      - rewrite E in Hn1. by destruct Hne, (Hu p q' Hd Hdq' Hn1 Hn2).
      - rewrite (Hno q' (own q') Hne (proj1 (Hp q' Hdq'))) in Hn2. by destruct Hn2. }
    destruct (decide (q = p)) as [->|Hqp], (decide (r = p)) as [->|Hrp]; [done| | |].
    + intros H1 H2. by destruct (Hone r Hrp Hdr H1 H2).
    + intros H1 H2. by destruct (Hone q Hqp Hdq H2 H1).
    + rewrite lookup_insert_ne in Hdq, Hdr by done. by apply Hu.
Qed.

(** A handle of a dead process's closed by the host. *)
Lemma owned_closed_dead {A} (m : gmap Z A) (f : A → Z) p h x q o :
  m !! h = Some x → f x = p → q ≠ p → owned_in (f <$> m) q o → owned_in (f <$> delete h m) q o.
Proof.
  intros Hh Hx Hq Ho y. rewrite <- (Ho y), !lookup_fmap. destruct (decide (y = h)) as [->|Hne].
  - rewrite lookup_delete_eq, Hh. cbn. rewrite Hx. split; [done|]. intros [= ?]. congruence.
  - by rewrite lookup_delete_ne.
Qed.
Lemma owned_closed_id (m : gmap Z Z) p h q o :
  m !! h = Some p → q ≠ p → owned_in m q o → owned_in (delete h m) q o.
Proof.
  intros Hh Hq Ho y. rewrite <- (Ho y). destruct (decide (y = h)) as [->|Hne]; [|by rewrite lookup_delete_ne].
  rewrite lookup_delete_eq, Hh. naive_solver.
Qed.

Lemma closed_for_keeps p k k' :
  closed_for p k k' → well_formed k →
  well_formed k' ∧ ∀ q o, q ≠ p → accounts k q o → accounts k' q o.
Proof.
  intros Hc (W1 & W2 & W3 & W4 & W5 & W6). destruct Hc as [h k Hh|h k Hh|h k Hh|h n k Hh|h n k Hh].
  all: split; [apart|intros q o Hq (B1 & B2 & B3 & B4 & B5 & B6 & B7); unfold accounts; cbn; split_and!; eauto using owned_closed_id, owned_closed_dead].
  - intros x x' q q' m m' E1%lookup_delete_Some E2%lookup_delete_Some. naive_solver.
  - intros y m Hy. destruct (B6 y m Hy) as [x Hx]. exists x. rewrite lookup_delete_ne; [done|]. intros <-. congruence.
  - intros y m Hy%lookup_delete_Some. naive_solver.
Qed.

Lemma host_step_keeps h h' own : host_step h h' → in_order_host h own → ∃ own', in_order_host h' own'.
Proof.
  intros Hs Ho. destruct Hs as [k ps p Hp|k ps p c m f Hp|k ps p o Hp|k ps p l Hp|k ps p c m f Hp|k ps p Hp|k ps p st Hp|k k' ps p Hp Hc].
  - exists own. apply in_order_goes_on; [done|by rewrite Hp|]. destruct Ho as (_ & Ho & _).
    destruct (Ho p ltac:(cbn; by rewrite Hp)) as [_ H]. cbn in H. rewrite Hp in H. by apply acquire_safe.
  - destruct Ho as (Hw & Hq & Hu). destruct (Hq p ltac:(cbn; by rewrite Hp)) as [_ H]. cbn in H. rewrite Hp in H.
    destruct H as [H1 H2]. eapply in_order_call; [by split_and!|by rewrite Hp|done|]. intros o' Ho'. by apply H2.
  - exists own. apply in_order_goes_on; [done|by rewrite Hp|]. destruct Ho as (_ & Ho & _).
    destruct (Ho p ltac:(cbn; by rewrite Hp)) as [_ H]. cbn in H. rewrite Hp in H. by destruct o.
  - exists own. apply in_order_goes_on; [done|by rewrite Hp|]. destruct Ho as (_ & Ho & _).
    destruct (Ho p ltac:(cbn; by rewrite Hp)) as [_ H]. cbn in H. rewrite Hp in H. by apply drop_lock_safe.
  - destruct Ho as (Hw & Hq & Hu). destruct (Hq p ltac:(cbn; by rewrite Hp)) as [_ H]. cbn in H. rewrite Hp in H.
    destruct H as [H1 H2]. eapply in_order_call; [by split_and!|by rewrite Hp|done|]. intros o' Ho'. by apply H2.
  - exists own. apply in_order_goes_on; [done|by rewrite Hp|]. destruct Ho as (_ & Ho & _).
    destruct (Ho p ltac:(cbn; by rewrite Hp)) as [_ H]. cbn in H. rewrite Hp in H. done.
  - exists own. destruct Ho as (Hw & Hq & Hu). cbn in *.
    assert (∀ q, <[p := Dead]> ps !! q ≠ Some Dead → q ≠ p ∧ ps !! q ≠ Some Dead) as Hd.
    { intros q Hd. destruct (decide (q = p)) as [->|Hne]; [by rewrite lookup_insert_eq in Hd|].
      by rewrite lookup_insert_ne in Hd. }
    split_and!; [done| |]; cbn.
    + intros q Hdq. destruct (Hd q Hdq) as [Hne Hdq']. rewrite lookup_insert_ne by done. auto.
    + intros q r Hdq Hdr. apply Hu; by apply Hd.
  - exists own. destruct Ho as (Hw & Hq & Hu). cbn in *. destruct (closed_for_keeps p k k' Hc Hw) as [Hw' Hk].
    split_and!; [done| |done]. cbn. intros q Hdq. destruct (Hq q Hdq) as [H1 H2]. split; [|done]. apply Hk; [|done].
    intros ->. congruence.
Qed.

Lemma reachable_in_order h : reachable h → ∃ own, in_order_host h own.
Proof.
  unfold InstanceLock.reachable. intros H.
  assert (∃ own, in_order_host {| kernel := fresh_kernel; processes := ∅ |} own) as Hi.
  { exists (λ _, {| o_token := None; o_boundary := None; o_descriptor := None; o_namespace := None; o_mutex := None; o_error := None |}).
    split_and!.
    - unfold well_formed, below_next. cbn. setoid_rewrite lookup_empty.
      split_and!; try (intros x; by intros [? ?]). naive_solver.
    - intros p _. cbn. rewrite lookup_empty. split; [|done]. unfold accounts, owned_in. cbn. rewrite !fmap_empty.
      setoid_rewrite lookup_empty. naive_solver.
    - intros p q _ _ [x ?]. done. }
  remember {| kernel := fresh_kernel; processes := ∅ |} as h0. clear Heqh0.
  induction H as [h|h1 h2 h3 Hs _ IH]; [done|]. apply IH. destruct Hi as [own Hi]. by eapply host_step_keeps.
Qed.
(** C10 One holder: whatever number of processes start the agent on a host, with whatever
    tokens, however their Win32 calls interleave and whichever fail, and whichever
    processes release the lock or die, at any call, with their handles closed by the host
    one by one and in any order, no two processes hold the instance lock. *)
Theorem one_holder h p q l l' :
  reachable h → processes h !! p = Some (Holding l) → processes h !! q = Some (Holding l') → p = q.
Proof.
  intros Hr Hp Hq. destruct (reachable_in_order h Hr) as (own & _ & Ho & Hu).
  destruct (Ho p ltac:(by rewrite Hp)) as [_ H1]. rewrite Hp in H1. destruct H1 as (_ & _ & _ & _ & E1).
  destruct (Ho q ltac:(by rewrite Hq)) as [_ H2]. rewrite Hq in H2. destruct H2 as (_ & _ & _ & _ & E2).
  apply Hu; [by rewrite Hp|by rewrite Hq|by eexists|by eexists].
Qed.

Definition open_handles (k : Kernel) (p : Z) : list Z :=
  (filter (λ x, x.2 = p) (map_to_list (tokens k))).*1 ++ (filter (λ x, x.2 = p) (map_to_list (boundaries k))).*1 ++
  (filter (λ x, x.2 = p) (map_to_list (descriptors k))).*1 ++
  (filter (λ x, x.2.1 = p) (map_to_list (namespaces k))).*1 ++ (filter (λ x, x.2.1 = p) (map_to_list (mutexes k))).*1.

Lemma elem_of_open_handles k p o x :
  accounts k p o → x ∈ open_handles k p →
  o_token o = Some x ∨ o_boundary o = Some x ∨ o_descriptor o = Some x ∨ o_namespace o = Some x ∨ fst <$> o_mutex o = Some x.
Proof.
  intros (A1 & A2 & A3 & A4 & A5 & _ & _). unfold open_handles. rewrite !elem_of_app, !list_elem_of_fmap.
  setoid_rewrite list_elem_of_filter.
  intros [([h q] & -> & Hq & Hx)|[([h q] & -> & Hq & Hx)|[([h q] & -> & Hq & Hx)|[([h [q n]] & -> & Hq & Hx)|([h [q n]] & -> & Hq & Hx)]]]];
    cbn in *; subst q; apply elem_of_map_to_list in Hx.
  - left. by apply A1.
  - right; left. by apply A2.
  - right; right; left. by apply A3.
  - right; right; right; left. apply A4, fst_some. by eexists.
  - right; right; right; right. apply A5, fst_some. by eexists.
Qed.

(** Nothing is left open: a start that ended without the lock, and a process that
    released it, have no handle of theirs open, whatever failed; one that holds the lock
    has the mutex and the namespace it keeps open, and no other. *)
Theorem starts_close_what_they_open h p :
  reachable h →
  (∀ out, processes h !! p = Some (Ended out) → open_handles (kernel h) p = []) ∧
  (∀ l, processes h !! p = Some (Holding l) →
     (∃ n, namespaces (kernel h) !! namespace l = Some (p, n) ∧ mutexes (kernel h) !! mutex l = Some (p, n)) ∧
     ∀ x, x ∈ open_handles (kernel h) p → x = namespace l ∨ x = mutex l).
Proof.
  intros Hr. destruct (reachable_in_order h Hr) as (own & (_ & _ & _ & _ & _ & W6) & Ho & _). split.
  - intros out Hp. destruct (Ho p ltac:(by rewrite Hp)) as [Ha H]. rewrite Hp in H. destruct H as (E1 & E2 & E3 & E4 & E5).
    destruct (open_handles (kernel h) p) as [|x l] eqn:E; [done|].
    destruct (elem_of_open_handles _ _ _ x Ha) as [G|[G|[G|[G|G]]]]; [rewrite E; by left|..]; rewrite ?E5 in G; cbn in G; congruence.
  - intros l Hp. destruct (Ho p ltac:(by rewrite Hp)) as [Ha H]. rewrite Hp in H. destruct H as (E1 & E2 & E3 & E4 & E5). split.
    + destruct Ha as (_ & _ & _ & A4 & A5 & A6 & _). rewrite E4 in A4. rewrite E5 in A5.
      destruct (proj1 (fst_some _ _ _) (proj2 (A4 _) eq_refl)) as [n Hn].
      destruct (proj1 (fst_some _ _ _) (proj2 (A5 _) eq_refl)) as [m Hm]. exists n. split; [done|].
      destruct (A6 _ _ Hm) as [y Hy]. by rewrite (W6 _ _ _ _ _ _ Hn Hy).
    + intros x Hx. destruct (elem_of_open_handles _ _ _ x Ha Hx) as [G|[G|[G|[G|G]]]]; try congruence.
      * left. congruence.
      * right. rewrite E5 in G. by injection G.
Qed.

(** *** One start alone *)

Definition member (t : Token) (w : WellKnown) : bool := enabled_in (sid_of w) (groups t).
Definition class_of (t : Token) : TokenClass :=
  if member t BuiltinAdministrators then CanCreate
  else if member t BuiltinPerfLoggingUsers || member t LocalService || member t NetworkService
          || privilege_in profile_luid (privileges t) then ControlsEtw
  else Ordinary.
(** Only the last errors differ. *)
Definition with_errors (k : Kernel) (m : gmap Z Z) : Kernel :=
  {| tokens := tokens k; boundaries := boundaries k; descriptors := descriptors k; namespaces := namespaces k;
     mutexes := mutexes k; last_errors := m; next := next k |}.

#[local] Notation run := (run token_of size_of sid_of profile_luid).

Lemma run_bind {A B} p (m : Prog A) (f : A → Prog B) k :
  run p (pbind m f) [] k = run p (f (run p m [] k).1) [] (run p m [] k).2.
Proof. revert k. induction m as [a|c g IH]; intros k; [done|]. cbn. destruct (perform p c None k) as [r k']. by rewrite IH. Qed.

(** A program that gives [a] and leaves the handles alone. *)
Definition gives {A} (p : Z) (m : Prog A) (a : A) : Prop := ∀ k, ∃ e, run p m [] k = (a, with_errors k e).

Lemma gives_bind {A B} p (m : Prog A) (f : A → Prog B) a b : gives p m a → gives p (f a) b → gives p (pbind m f) b.
Proof.
  intros Hm Hf k. rewrite run_bind. destruct (Hm k) as [e ->]. cbn. destruct (Hf (with_errors k e)) as [e' ->]. by exists e'.
Qed.
Lemma gives_ret {A} p (a : A) : gives p (Ret a) a.
Proof. intros k. exists (last_errors k). by destruct k. Qed.

Lemma buffer_length_enough needed : 0 ≤ needed ≤ 2 ^ 32 - 8 → needed ≤ buffer_length needed.
Proof.
  intros H. unfold buffer_length, wrap_u. pose proof (Z.div_mod (needed + 7) 8 ltac:(lia)) as E.
  pose proof (Z.mod_pos_bound (needed + 7) 8 ltac:(lia)). rewrite Z.mod_small; lia.
Qed.

Section Alone.
Context (p : Z) (Hsize : ∀ c, 0 ≤ size_of (token_of p) c ≤ 2 ^ 32 - 8).

Lemma token_information_gives h c : gives p (token_information h c) (Ok (read_info (token_of p) c)).
Proof.
  intros k. unfold token_information, call. cbn [pbind InstanceLock.run head tail default from_option InstanceLock.perform].
  destruct (0 <? size_of (token_of p) c); cbn [pbind InstanceLock.run head tail default from_option InstanceLock.perform fst snd].
  all: pose proof (buffer_length_enough _ (Hsize c)) as Hb; apply Z.ltb_ge in Hb; rewrite Hb; cbn.
  - by eexists.
  - exists (last_errors k). by destruct k.
Qed.

Lemma has_enabled_group_gives h w : gives p (has_enabled_group h w) (member (token_of p) w).
Proof.
  eapply gives_bind; [intros k; exists (last_errors k); by destruct k|]. cbv beta iota.
  eapply gives_bind; [apply token_information_gives|]. apply gives_ret.
Qed.

Lemma has_privilege_gives h : gives p (has_privilege h) (privilege_in profile_luid (privileges (token_of p))).
Proof.
  eapply gives_bind; [intros k; exists (last_errors k); by destruct k|]. cbv beta iota.
  eapply gives_bind; [apply token_information_gives|]. apply gives_ret.
Qed.

Lemma por_gives a b x y : gives p a x → gives p b y → gives p (por a b) (x || y).
Proof. intros Ha Hb. eapply gives_bind; [exact Ha|]. destruct x; [apply gives_ret|exact Hb]. Qed.

Lemma classify_token_gives h : gives p (classify_token h) (class_of (token_of p)).
Proof.
  unfold classify_token, class_of. eapply gives_bind; [apply has_enabled_group_gives|].
  destruct (member (token_of p) BuiltinAdministrators); [apply gives_ret|].
  eapply gives_bind; [repeat (apply por_gives; [apply has_enabled_group_gives|]); apply has_privilege_gives|].
  rewrite !orb_assoc. destruct (_ || _); apply gives_ret.
Qed.

(** The lock is held: the mutex of the namespace that exists does. *)
Definition held (k : Kernel) : bool := from_option (λ n, mutex_there n k) false (existing k).

Lemma entered_insert n k h :
  well_formed k → (∀ h q n', namespaces k !! h = Some (q, n') → n' = n) → namespaces k !! h = None →
  ∀ k', namespaces k' = <[h := (p, n)]> (namespaces k) → entered p k' = Some n.
Proof.
  intros Hw Hn Hh k' Hk'. unfold entered.
  assert ((h, (p, n)) ∈ filter (λ x : Z * (Z * Z), x.2.1 = p) (map_to_list (namespaces k'))) as Hin.
  { apply list_elem_of_filter. split; [done|]. apply elem_of_map_to_list. rewrite Hk'. apply lookup_insert_eq. }
  destruct (filter _ _) as [|[x [q m]] l] eqn:E; [by apply not_elem_of_nil in Hin|].
  assert ((x, (q, m)) ∈ filter (λ x : Z * (Z * Z), x.2.1 = p) (map_to_list (namespaces k'))) as Hx by (rewrite E; by left).
  apply list_elem_of_filter in Hx as [_ Hx]. apply elem_of_map_to_list in Hx. rewrite Hk' in Hx. cbn. f_equal.
  destruct (decide (x = h)) as [->|Hne]; [rewrite lookup_insert_eq in Hx; by injection Hx|].
  rewrite lookup_insert_ne in Hx by done. by eapply Hn.
Qed.

(** The namespaces and mutexes as they were. *)
Definition keeps_objects (k k' : Kernel) : Prop :=
  namespaces k' = namespaces k ∧ mutexes k' = mutexes k ∧ next k ≤ next k'.

Lemma boundary_descriptor_gives k : ∃ b k', run p boundary_descriptor [] k = (Ok b, k') ∧ keeps_objects k k'.
Proof. do 2 eexists. split; [reflexivity|]. unfold keeps_objects. cbn. split_and!; [done|done|lia]. Qed.

Lemma open_or_create_namespace_gives b k :
  below_next (namespaces k) (next k) →
  ∃ h n k', run p (open_or_create_namespace b) [] k = (Ok h, k') ∧
    namespaces k' = <[h := (p, n)]> (namespaces k) ∧ namespaces k !! h = None ∧ mutexes k' = mutexes k ∧
    match existing k with Some n' => n = n' | None => next k ≤ n end.
Proof.
  intros Hb. unfold open_or_create_namespace, parse_sddl, last_error, call.
  cbn [pbind InstanceLock.run head tail default from_option InstanceLock.perform].
  set (k1 := with_descriptors k (<[next k := p]> (descriptors k))).
  assert (namespaces k !! (next k + 1) = None) as Hf.
  { destruct (namespaces k !! (next k + 1)) eqn:E; [|done]. specialize (Hb _ (ex_intro _ _ E)). lia. }
  destruct (existing k) as [n|] eqn:Ee.
  - assert (existing k1 = Some n) as -> by exact Ee.
    cbn [pbind InstanceLock.run head tail default from_option InstanceLock.perform last_errors set_error].
    rewrite lookup_insert_eq. cbn [default from_option id].
    change (negb (ERROR_ALREADY_EXISTS =? ERROR_ALREADY_EXISTS)) with false.
    cbn [pbind InstanceLock.run head tail default from_option InstanceLock.perform].
    match goal with |- context [existing ?x] => assert (existing x = Some n) as -> by exact Ee end.
    do 3 eexists. split; [reflexivity|]. split; [reflexivity|]. split_and!; [|done|done]. cbn.
    destruct (namespaces k !! (next k + 1 + 1)) eqn:E; [|done]. specialize (Hb _ (ex_intro _ _ E)). lia.
  - assert (existing k1 = None) as -> by exact Ee.
    do 3 eexists. split; [reflexivity|]. split; [reflexivity|]. split_and!; [done|done|]. cbn. lia.
Qed.

Lemma create_or_detect_gives k :
  well_formed k → (∀ h q n, mutexes k !! h = Some (q, n) → n < next k) →
  if held k then (run p create_or_detect_lock [] k).1 = Held
  else ∃ l, (run p create_or_detect_lock [] k).1 = Acquired l.
Proof.
  intros Hw Hmx. pose proof Hw as (_ & _ & _ & W4 & _ & W6). unfold create_or_detect_lock, or_return.
  rewrite run_bind. destruct (boundary_descriptor_gives k) as (b & k1 & -> & N1 & M1 & X1). cbn [fst snd]. rewrite run_bind.
  destruct (open_or_create_namespace_gives b k1) as (h & n & k2 & -> & N2 & F2 & M2 & En).
  { rewrite N1. intros x Hx. specialize (W4 x Hx). lia. }
  assert (existing k1 = existing k) as E1 by (unfold existing; by rewrite N1). rewrite E1 in En. rewrite N1 in N2, F2.
  cbn [fst snd]. unfold delete_boundary, call. cbn [pbind InstanceLock.run head tail default from_option InstanceLock.perform].
  set (k3 := with_boundaries k2 (delete b (boundaries k2))).
  assert (entered p k3 = Some n) as ->.
  { eapply (entered_insert n k h); [done| |done|done]. intros x q m Hx. destruct (existing k) as [n'|] eqn:Ee.
    - subst n'. apply existing_some in Ee as (y & r & Hy). by eapply W6.
    - apply existing_none in Ee. rewrite Ee, lookup_empty in Hx. done. }
  assert (mutex_there n k3 = held k) as ->.
  { unfold held, mutex_there. cbn. rewrite M2, M1. destruct (existing k) as [n'|] eqn:Ee; cbn; [by subst n'|].
    apply not_true_is_false. intros (x & Hx & Hb)%existsb_exists. destruct x as [x [q m]].
    apply bool_decide_eq_true in Hb. cbn in Hb. subst m. apply list_elem_of_In, elem_of_map_to_list in Hx.
    specialize (Hmx _ _ _ Hx). lia. }
  unfold last_error, call. cbn [pbind InstanceLock.run head tail default from_option InstanceLock.perform last_errors set_error].
  rewrite lookup_insert_eq. destruct (held k); cbn; [done|by eexists].
Qed.

(** One start alone in which no call fails: with an elevated administrator's token it
    takes the lock, or finds it held exactly when the mutex of the namespace that exists
    does; a token that controls trace sessions without that group is refused; any other
    goes on without the lock. Code 10 for a lock that is held, 1 for a refusal, none for a
    start that goes on. *)
Theorem acquire_alone k :
  well_formed k → (∀ h q n, mutexes k !! h = Some (q, n) → n < next k) →
  let out := (run p acquire [] k).1 in
  match class_of (token_of p) with
  | CanCreate => if held k then out = Held ∧ lock_exit_code out = Some 10
                 else (∃ l, out = Acquired l) ∧ lock_exit_code out = None
  | ControlsEtw => out = ControlsEtwOutsideModel ∧ lock_exit_code out = Some 1
  | Ordinary => out = Unprivileged ∧ lock_exit_code out = None
  end.
Proof.
  intros Hw Hmx. unfold acquire, open_process_token, call. cbn [pbind InstanceLock.run head tail default from_option InstanceLock.perform].
  set (k1 := with_tokens k (<[next k := p]> (tokens k))). rewrite run_bind.
  destruct (classify_token_gives (next k) k1) as [e ->]. cbn [fst snd pbind InstanceLock.run head tail default from_option InstanceLock.perform].
  destruct (class_of (token_of p)); [|done|done].
  set (k2 := with_tokens (with_errors k1 e) (delete (next k) (tokens (with_errors k1 e)))).
  pose proof (create_or_detect_gives k2) as H. change (held k2) with (held k) in H.
  destruct (held k).
  - rewrite H; [done| |]; [|intros x q n Hx; specialize (Hmx x q n Hx); cbn; lia].
    destruct Hw as (W1 & W2 & W3 & W4 & W5 & W6). unfold well_formed, k2, k1. cbn. rewrite delete_insert_id by auto with lock.
    split_and!; auto with lock.
  - destruct H as [l ->]; [| |by split; [eexists|]]; [|intros x q n Hx; specialize (Hmx x q n Hx); cbn; lia].
    destruct Hw as (W1 & W2 & W3 & W4 & W5 & W6). unfold well_formed, k2, k1. cbn. rewrite delete_insert_id by auto with lock.
    split_and!; auto with lock.
Qed.

(** A start that cannot read its token's groups and privileges goes on without the lock,
    whoever runs it. *)
Theorem unread_token_goes_on k e :
  (InstanceLock.run token_of size_of sid_of profile_luid p acquire
     [None; Some e; Some e; Some e; Some e; Some e] k).1 = Unprivileged.
Proof. reflexivity. Qed.
End Alone.
End Processes.

(** A run alone is one way the host goes. *)
Lemma run_reaches token_of size_of sid_of profile_luid `{Sec : Win32Security} p m faults k ps :
  let res := run token_of size_of sid_of profile_luid p m faults k in
  rtc (host_step token_of size_of sid_of profile_luid) {| kernel := k; processes := <[p := Acquiring m]> ps |}
    {| kernel := res.2; processes := <[p := ended res.1]> ps |}.
Proof.
  revert faults k. induction m as [a|c f IH]; intros faults k; cbn.
  - apply rtc_once. rewrite <- (insert_insert_eq ps p (ended a) (Acquiring (Ret a))). apply acquire_end. apply lookup_insert_eq.
  - eapply rtc_l.
    + eapply (acquire_call _ _ _ _ k _ p c f (default None (head faults))). apply lookup_insert_eq.
    + destruct (perform token_of size_of sid_of profile_luid p c (default None (head faults)) k) as [r k'].
      rewrite insert_insert_eq. cbn [fst snd]. apply IH.
Qed.

(** ** Two administrators *)

Module ToyLock.
Definition sid_of (w : WellKnown) : bytes :=
  match w with BuiltinAdministrators => [Byte.x20] | BuiltinPerfLoggingUsers => [Byte.x2f] | LocalService => [Byte.x13]
             | NetworkService => [Byte.x14] end.
Definition administrator : Token := {| groups := [([Byte.x15], 7); ([Byte.x20], 15)]; privileges := [] |}.
Definition token_of (p : Z) : Token := administrator.
Definition size_of (t : Token) (c : InfoClass) : Z := 100.
Definition luid : Z * Z := (11, 0).
#[export] Instance security : Win32Security := ToyWin32.toy.

Definition first := run token_of size_of sid_of luid 1 acquire [] fresh_kernel.
Definition second := run token_of size_of sid_of luid 2 acquire [] first.2.
Definition host : Host :=
  {| kernel := second.2; processes := <[2 := ended second.1]> (<[1 := ended first.1]> ∅) |}.

Lemma host_reachable : reachable token_of size_of sid_of luid host.
Proof.
  eapply rtc_l; [apply (start_process _ _ _ _ fresh_kernel ∅ 1); apply lookup_empty|].
  etrans; [apply (run_reaches _ _ _ _ 1 acquire [])|].
  eapply rtc_l; [apply (start_process _ _ _ _ _ _ 2); reflexivity|].
  apply (run_reaches _ _ _ _ 2 acquire []).
Qed.
End ToyLock.
#[local] Existing Instance ToyLock.security.

Lemma one_holder_witness :
  ∃ l, processes ToyLock.host !! 1 = Some (Holding l) ∧ processes ToyLock.host !! 2 = Some (Ended (Some Held)) ∧
       (∀ q l', processes ToyLock.host !! q = Some (Holding l') → q = 1).
Proof.
  exists {| mutex := 8; namespace := 5 |}. split; [vm_compute; reflexivity|]. split; [vm_compute; reflexivity|]. intros q l' Hq.
  apply (one_holder ToyLock.token_of ToyLock.size_of ToyLock.sid_of ToyLock.luid ToyLock.host q 1 l'
    {| mutex := 8; namespace := 5 |} ToyLock.host_reachable Hq). vm_compute. reflexivity.
Defined.

Lemma starts_close_what_they_open_witness :
  open_handles (kernel ToyLock.host) 2 = [] ∧ open_handles (kernel ToyLock.host) 1 = [5; 8].
Proof.
  split; [|vm_compute; reflexivity].
  apply (starts_close_what_they_open ToyLock.token_of ToyLock.size_of ToyLock.sid_of ToyLock.luid ToyLock.host 2
    ToyLock.host_reachable) with (out := Some Held). vm_compute. reflexivity.
Defined.

Lemma acquire_alone_witness : (run ToyLock.token_of ToyLock.size_of ToyLock.sid_of ToyLock.luid 2 acquire []
  ToyLock.first.2).1 = Held.
Proof.
  pose proof (acquire_alone ToyLock.token_of ToyLock.size_of ToyLock.sid_of ToyLock.luid 2) as H.
  assert (well_formed ToyLock.first.2) as Hw.
  { destruct (reachable_in_order ToyLock.token_of ToyLock.size_of ToyLock.sid_of ToyLock.luid
      {| kernel := ToyLock.first.2; processes := <[1 := ended ToyLock.first.1]> ∅ |}) as (own & Hw & _); [|exact Hw].
    eapply rtc_l; [apply (start_process _ _ _ _ fresh_kernel ∅ 1); apply lookup_empty|apply (run_reaches _ _ _ _ 1 acquire [])]. }
  refine (proj1 (H _ ToyLock.first.2 Hw _)).
  - intros c. vm_compute. split; discriminate.
  - intros h q n Hh. assert (Forall (λ x, (x.2.2 <? next ToyLock.first.2) = true) (map_to_list (mutexes ToyLock.first.2))) as Hf
      by (vm_compute; repeat constructor).
    rewrite Forall_forall in Hf. apply elem_of_map_to_list in Hh. specialize (Hf _ Hh). by apply Z.ltb_lt in Hf.
Defined.
