(* ===== verification/Installed.v ===== *)
(** * The installed service's identity ([identity.rs], [mod installed])

    Installed mode's check, persist, token rewrite and dispatcher, over the custody
    of [Custody.v] and the load of [Identity.v]. The world is the custody's, what
    the standard library's file operations meet, and the POSTs made; a read through
    the standard library sees the contents of the same objects at the configured
    paths. *)

From S2P Require Import Prelude FileTree IpAddr Types Errors Network Config Signing Tls TlsConfig X509.
From S2P Require Import Transport Enrollment Identity Custody.
Open Scope Z_scope.

Definition DIRECTORY_SDDL : string := "O:SYD:P(A;OICI;FA;;;SY)".
Definition FILE_SDDL : string := "O:SYD:P(A;;FA;;;SY)".

Record InstalledCustody := {
  ic_identity_dir : string;
  ic_hygiene_temporary : string;
  ic_policy : Policy;
  ic_config_policy : Policy;
  ic_directory_sddl : string;
  ic_file_sddl : string;
}.

Record InstalledWorld := {
  custody : CustodyWorld;
  std_faults : list (option IoFault);
  all_posted : list NetAction;
}.

Definition XM (A : Type) : Type := InstalledWorld → Result A EnrollmentError * InstalledWorld.
Definition xret {A} (a : A) : XM A := λ w, (Ok a, w).
Definition xerr {A} (e : EnrollmentError) : XM A := λ w, (Err e, w).
Definition xof {A} (r : Result A EnrollmentError) : XM A := λ w, (r, w).
Definition xbind {A B} (m : XM A) (f : A → XM B) : XM B :=
  λ w, let '(r, w') := m w in match r with Ok a => f a w' | Err e => (Err e, w') end.

Declare Scope installed_scope.
Notation "'step?' x ':=' m 'in' k" := (xbind m (λ x, k))
  (at level 10, x pattern, m at level 100, k at level 200) : installed_scope.
Notation "m ';;+' k" := (xbind m (λ _, k)) (at level 100, right associativity) : installed_scope.
Open Scope installed_scope.

(** A custody operation, its failure a persistence error. *)
Definition with_custody {A} (m : CM A string) : XM A := λ w,
  let '(r, c) := m (custody w) in
  (map_err Persistence r,
   {| custody := c; std_faults := std_faults w; all_posted := all_posted w |}).

(** The standard library's view of the files at [paths]. *)
Definition files_at (paths : list string) (m : gmap Path Object) : gmap string bytes :=
  list_to_map (omap (λ p, (λ o, (p, contents o)) <$> m !! path_key p) paths).

Definition identity_paths (config : AgentConfig) : list string :=
  match enrollment config with
  | Some enr => [cert_path enr; key_path enr; identity_path enr]
  | None => []
  end.

Definition view (config : AgentConfig) (w : InstalledWorld) : IdWorld :=
  {| files := files_at (identity_paths config) (objects (custody w)); io_faults := std_faults w;
     posted := all_posted w; locate := λ p, p |}.

(** A reading operation of [Identity.v] on the configured files. *)
Definition reading {A} (config : AgentConfig) (m : IM A) : XM A := λ w,
  let '(r, i) := m (view config w) in
  (r, {| custody := custody w; std_faults := io_faults i; all_posted := posted i |}).

Section Installed.
Context {W : WireCrypto} {K : KeyBytes W} {R : Rustls} {A : AnswerReader}.
Context {S : SecureStore} {J : IdentityJson} {Sec : Win32Security}.
Context (toml_value : string → Result Toml TomlError) (toml_to_string : Toml → Result string string).
Context (pem_certificates : bytes → list (Result bytes PemError)).

(** The names of the set that are not there; each that is there is in custody. *)
Fixpoint missing_in_custody (policy : Policy) (l : list (string * string)) : XM (list string) :=
  match l with
  | [] => xret []
  | (name, file) :: l =>
      step? there := with_custody (check_if_exists file File policy) in
      step? missing := missing_in_custody policy l in
      xret (if there : bool then missing else name :: missing)
  end.

Definition installed_check (config : AgentConfig) (c : InstalledCustody) : XM unit :=
  step? enr := xof (ok_or (enrollment config) MissingToken) in
  step? there := with_custody (check_if_exists (ic_identity_dir c) Directory (ic_policy c)) in
  if negb there then xret tt
  else
    step? missing := missing_in_custody (ic_policy c) (identity_files enr) in
    match missing with
    | [] => xret tt
    | _ => xerr (Persistence ("incomplete identity: " +:+ join " and " missing +:+ " missing; " +:+ REPAIR))
    end.

(** Each file created new, in order. *)
Fixpoint create_files (sddl : string) (l : list (string * bytes)) : CM unit string :=
  match l with
  | [] => cret tt
  | (path, b) :: l => cbind (create_new_file path sddl b) (λ _, create_files sddl l)
  end.

Definition installed_persist (config : AgentConfig) (enrolled : EnrolledIdentity) (c : InstalledCustody) : XM unit :=
  step? enr := xof (ok_or (enrollment config) MissingToken) in
  with_custody (ensure_directory (ic_identity_dir c) (ic_directory_sddl c) (ic_policy c)) ;;+
  step? sealed := xof (map_err (λ e, persistence_of "cannot seal private key" (secure_store_error_text e))
                    (seal (en_secret_seed enrolled))) in
  step? identity_json := xof (map_err (persistence_of "cannot serialize identity.json")
                           (to_string_pretty (persisted_of enrolled))) in
  with_custody (create_files (ic_file_sddl c)
    [(cert_path enr, bytes_of_text (en_client_certificate_pem enrolled));
     (key_path enr, sealed); (identity_path enr, bytes_of_text identity_json)]).

Definition installed_rewrite (config_path : string) (c : InstalledCustody) : CM unit string :=
  cbind (read_checked config_path (ic_config_policy c)) (λ read,
  cbind (cof (ok_or read "agent.toml does not exist")) (λ b,
  cbind (cof (if valid_utf8 b then Ok (text_of_bytes b) else Err "agent.toml is not UTF-8")) (λ content,
  cbind (cof (map_err (λ _, "agent.toml is not valid TOML")
               (without_token toml_value toml_to_string content))) (λ rewritten,
  replace_keeping_security config_path (ic_hygiene_temporary c) (bytes_of_text rewritten)
    (ic_config_policy c))))).

(** A failure is logged, without the parser's message. *)
Definition installed_hygienize_token (config_path : string) (c : InstalledCustody) : XM unit := λ w,
  (Ok tt, (with_custody (installed_rewrite config_path c) w).2).

Definition installed_ensure_identity (env : EnrollEnv) (config : AgentConfig) (config_path : string)
    (c : InstalledCustody) : XM Identity :=
  step? enr := xof (ok_or (enrollment config) MissingToken) in
  step? enrolled := reading config (is_enrolled config) in
  if enrolled : bool then reading config (installed_load pem_certificates config)
  else
    step? enrolled := reading config (run_enroll env config) in
    xof (check_issued pem_certificates enrolled) ;;+
    installed_persist config enrolled c ;;+
    installed_hygienize_token config_path c ;;+
    xret {| agent_id := en_agent_id enrolled;
            keypair := from_secret_bytes (en_secret_seed enrolled);
            client_certificate_pem := en_client_certificate_pem enrolled |}.

End Installed.

(** ** Lemmas *)

Section InstalledLemmas.
Context {W : WireCrypto} {S : SecureStore} {J : IdentityJson} {Sec : Win32Security}.

Lemma xbind_ok {X Y} (m : XM X) (f : X → XM Y) w y w' :
  xbind m f w = (Ok y, w') → ∃ x w1, m w = (Ok x, w1) ∧ f x w1 = (Ok y, w').
Proof. unfold xbind. destruct (m w) as [[x|e] w1]; [|done]. eauto. Qed.

Lemma with_custody_ok {X} (m : CM X string) w x w' :
  with_custody m w = (Ok x, w') → m (custody w) = (Ok x, custody w').
Proof. unfold with_custody. destruct (m (custody w)) as [[y|e] c]; [|done]. by intros [= -> <-]. Qed.

(** The object at [path] is in the policy's custody. *)
Definition file_in_custody (policy : Policy) (m : gmap Path Object) (path : string) : Prop :=
  ∃ o, m !! path_key path = Some o ∧ in_custody File policy o.

Lemma missing_in_custody_sound policy l w missing w' :
  missing_in_custody policy l w = (Ok missing, w') →
  objects (custody w') = objects (custody w) ∧
  Forall (λ f, f.1 ∈ missing ∨ file_in_custody policy (objects (custody w)) f.2) l.
Proof.
  revert w missing w'. induction l as [|[name file] l IH]; intros w missing w'; cbn [missing_in_custody].
  - intros [= _ <-]. by split; [|constructor].
  - intros H. apply xbind_ok in H as (there & w1 & H1 & H). apply xbind_ok in H as (ms & w2 & H2 & H).
    apply with_custody_ok in H1. pose proof (check_if_exists_inspects file File policy (custody w)) as Hi.
    rewrite H1 in Hi. cbn [snd] in Hi. apply check_if_exists_sound in H1. apply IH in H2 as [Ho Hf].
    injection H as <- <-. split; [congruence|]. rewrite <- Hi in Hf. constructor.
    + cbn [fst snd]. destruct there; [by right|left; by left].
    + eapply Forall_impl; [exact Hf|]. intros f [Hm|Hc]; [left|by right].
      destruct there; [done|by right].
Qed.

(** What [ensure_directory] leaves. *)
Lemma ensure_directory_run path sddl policy w :
  let '(r, w') := ensure_directory path sddl policy w in
  objects w' = objects w ∨
  (objects w !! path_key path = None ∧
   ∃ d id, from_sddl sddl = Ok d ∧
     objects w' = <[path_key path := new_object true (file_name path) d id]> (objects w)).
Proof.
  unfold ensure_directory, cbind, cof. destruct (from_sddl sddl) as [d|]; [|by left].
  pose proof (create_new_run true ERROR_ALREADY_EXISTS path d w) as Hc.
  destruct (create_new _ _ path d w) as [[[]|e] w1]; [right; destruct Hc as [Hn [id Hc]]; eauto|].
  destruct (e =? ERROR_ALREADY_EXISTS); [|by left]. pose proof (check_inspects path Directory policy w1) as Hi.
  destruct (check path Directory policy w1) as [r w2]. left. cbn in Hi. congruence.
Qed.

(** The files created before the first failure are whole; that one may be there in
    part; those after it are untouched. The list is by the files' keys. *)
Definition keyed (l : list (string * bytes)) : list (Path * bytes) := (λ f, (path_key f.1, f.2)) <$> l.

Definition files_step (sddl : string) (l : list (Path * bytes)) (ok : bool) (m m' : gmap Path Object) : Prop :=
  ∃ made rest, l = made ++ rest ∧
    (∀ k b, (k, b) ∈ made → m !! k = None ∧
       ∃ o, m' !! k = Some o ∧ contents o = b ∧ from_sddl sddl = Ok (descriptor o)) ∧
    (∀ k, k ∉ made.*1 → fst <$> head rest ≠ Some k → m' !! k = m !! k) ∧
    match rest with
    | [] => ok = true
    | (k, b) :: _ =>
        ok = false ∧
        (m' !! k = m !! k ∨
         (m !! k = None ∧ ∃ o, m' !! k = Some o ∧ from_sddl sddl = Ok (descriptor o)))
    end.

Lemma create_files_run sddl l w :
  NoDup (keyed l).*1 →
  files_step sddl (keyed l) (is_ok (create_files sddl l w).1) (objects w) (objects (create_files sddl l w).2).
Proof.
  revert w. induction l as [|[path b] l IH]; intros w Hnd; cbn [create_files].
  { exists [], []. split_and!; try done. intros p b Hin. by apply not_elem_of_nil in Hin. }
  unfold keyed in Hnd. rewrite fmap_cons, fmap_cons, NoDup_cons in Hnd. destruct Hnd as [Hp Hnd]. cbn [fst] in Hp.
  pose proof (created_file_run path sddl b w) as Hc. unfold cbind.
  destruct (create_new_file path sddl b w) as [r w1].
  change (keyed ((path, b) :: l)) with ((path_key path, b) :: keyed l).
  destruct Hc as [[Ho Hr]|(Hn & o & Ho & Hd & _ & Hb & _)].
  - destruct r as [[]|e]; [done|]. exists [], ((path_key path, b) :: keyed l). cbn [is_ok fst snd].
    split_and!; try done.
    + intros p b' Hin. by apply not_elem_of_nil in Hin.
    + intros p _ _. by rewrite Ho.
    + left. by rewrite Ho.
  - destruct r as [[]|e].
    + specialize (IH w1 Hnd). destruct (create_files sddl l w1) as [r2 w2]. cbn [fst snd] in *.
      destruct IH as (made & rest & Hl & Hmade & Hother & Hrest).
      exists ((path_key path, b) :: made), rest. fold (keyed l) in Hp. rewrite Hl in Hp.
      rewrite fmap_app, not_elem_of_app in Hp. destruct Hp as [Hp1 Hp2].
      assert (fst <$> head rest ≠ Some (path_key path)) as Hhead.
      { destruct rest as [|[q b'] rest]; [done|]. cbn. intros [= ->]. apply Hp2. cbn. by left. }
      split_and!; [by rewrite Hl| | |].
      * intros p b' [Heq|Hin]%elem_of_cons.
        -- injection Heq as -> ->. split; [done|]. exists o.
           rewrite (Hother (path_key path)) by done. rewrite Ho, lookup_insert_eq. auto.
        -- destruct (Hmade p b' Hin) as [Hnone Hex]. rewrite Ho in Hnone.
           apply lookup_insert_None in Hnone as [Hnone _]. done.
      * intros p Hnin Hh. rewrite fmap_cons, not_elem_of_cons in Hnin. destruct Hnin as [Hneq Hnin].
        rewrite (Hother p) by done. by rewrite Ho, lookup_insert_ne.
      * destruct rest as [|[q b'] rest]; [done|]. destruct Hrest as [Hr2 Hq]. split; [done|].
        assert (q ≠ path_key path) as Hqp by (intros ->; by apply Hhead).
        rewrite Ho, lookup_insert_ne in Hq by done. done.
    + exists [], ((path_key path, b) :: keyed l). cbn [is_ok fst snd]. split_and!; try done.
      * intros p b' Hin. by apply not_elem_of_nil in Hin.
      * intros p _ Hh. rewrite Ho, lookup_insert_ne; [done|]. intros <-. by apply Hh.
      * right. split; [done|]. exists o. by rewrite Ho, lookup_insert_eq.
Qed.

(** The set is absent, or whole and in custody. *)
Definition set_in_custody (c : InstalledCustody) (enr : EnrollmentConfig) (m : gmap Path Object) : Prop :=
  m !! path_key (ic_identity_dir c) = None ∨
  ((∃ o, m !! path_key (ic_identity_dir c) = Some o ∧ in_custody Directory (ic_policy c) o) ∧
   Forall (file_in_custody (ic_policy c) m) [cert_path enr; key_path enr; identity_path enr]).

(** The service never takes an identity that is not whole or not in custody,
    nor enrolls over one: whatever calls fail, when its identity check passes, either
    the identity directory is absent, or the directory and all three files are there
    and in the policy's custody (then the certificate and the key exist, so that the
    dispatcher loads). The check changes nothing. *)
Theorem installed_check_sound config enr c w w' :
  enrollment config = Some enr → installed_check config c w = (Ok tt, w') →
  set_in_custody c enr (objects (custody w)) ∧ objects (custody w') = objects (custody w).
Proof.
  intros He. unfold installed_check. rewrite He. intros H.
  apply xbind_ok in H as (enr' & w0 & H0 & H). injection H0 as <- <-.
  apply xbind_ok in H as (there & w1 & H1 & H). apply with_custody_ok in H1.
  pose proof (check_if_exists_inspects (ic_identity_dir c) Directory (ic_policy c) (custody w)) as Hi.
  rewrite H1 in Hi. cbn [snd] in Hi. apply check_if_exists_sound in H1.
  destruct there; cbn [negb] in H; [|injection H as <-; by split; [left|]].
  apply xbind_ok in H as (missing & w2 & H2 & H). apply missing_in_custody_sound in H2 as [Ho Hf].
  destruct missing as [|x missing]; [|done]. injection H as <-. split; [|congruence]. right.
  split; [done|]. rewrite <- Hi in Hf. unfold identity_files in Hf.
  rewrite !Forall_cons in Hf. rewrite !Forall_cons, Forall_nil. cbn [fst snd] in Hf.
  destruct Hf as ([?|?] & [?|?] & [?|?] & _);
    try match goal with Hin : _ ∈ [] |- _ => by apply not_elem_of_nil in Hin end. done.
Qed.

(** The paths of the identity, as they are looked up. *)
Definition set_keys (enr : EnrollmentConfig) : list Path :=
  path_key <$> [cert_path enr; key_path enr; identity_path enr].

(** The directory's step. *)
Lemma directory_made (c : InstalledCustody) (enr : EnrollmentConfig) (m m1 : gmap Path Object) :
  NoDup (path_key (ic_identity_dir c) :: set_keys enr) →
  (m1 = m ∨ (m !! path_key (ic_identity_dir c) = None ∧
     ∃ d id, from_sddl (ic_directory_sddl c) = Ok d ∧
       m1 = <[path_key (ic_identity_dir c) := new_object true (file_name (ic_identity_dir c)) d id]> m)) →
  (∀ p o, m !! p = Some o → m1 !! p = Some o) ∧
  (∀ p o, m !! p = None → m1 !! p = Some o →
     p = path_key (ic_identity_dir c) ∧ from_sddl (ic_directory_sddl c) = Ok (descriptor o)) ∧
  (∀ p, p ∈ set_keys enr → m1 !! p = m !! p).
Proof.
  intros Hnd [->|(Hn & d & id & Hd & ->)]; [by split_and!; [|intros ??? ; congruence|]|].
  rewrite NoDup_cons in Hnd. destruct Hnd as [Hd' _]. split_and!.
  - intros p o Hp. rewrite lookup_insert_ne; [done|]. intros <-. congruence.
  - intros p o Hp Hs. destruct (decide (p = path_key (ic_identity_dir c))) as [->|Hne].
    + rewrite lookup_insert_eq in Hs. injection Hs as <-. done.
    + rewrite lookup_insert_ne in Hs by done. congruence.
  - intros p Hp. rewrite lookup_insert_ne; [done|]. by intros <-.
Qed.

(** Each object is unchanged, or new in the list with the files' security. *)
Lemma files_step_object sddl l ok m m' k :
  files_step sddl l ok m m' →
  m' !! k = m !! k ∨
  (k ∈ l.*1 ∧ m !! k = None ∧ ∃ o, m' !! k = Some o ∧ from_sddl sddl = Ok (descriptor o)).
Proof.
  intros (made & rest & -> & Hmade & Hother & Hrest).
  destruct (decide (k ∈ made.*1)) as [Hin|Hin].
  { right. rewrite fmap_app, elem_of_app. split; [by left|].
    apply list_elem_of_fmap in Hin as ([q b] & -> & Hin). destruct (Hmade q b Hin) as (Hn & o & Ho & _ & Hd).
    split; [done|]. by exists o. }
  destruct rest as [|[q b] rest]; [left; by apply Hother|].
  destruct (decide (q = k)) as [->|Hq]; [|left; apply Hother; [done|]; cbn; congruence].
  destruct Hrest as [_ [Hrest|Hrest]]; [by left|]. right. split; [|done].
  rewrite fmap_app, elem_of_app. right. by left.
Qed.

(** The last of three files is there only beside the two before it. *)
Lemma files_step_last sddl (k1 k2 k3 : Path) b1 b2 b3 ok m m' o :
  NoDup [k1; k2; k3] → files_step sddl [(k1, b1); (k2, b2); (k3, b3)] ok m m' →
  m !! k3 = None → m' !! k3 = Some o →
  ∃ o1 o2, m' !! k1 = Some o1 ∧ m' !! k2 = Some o2 ∧ contents o1 = b1 ∧ contents o2 = b2.
Proof.
  intros Hnd (made & rest & Hl & Hmade & Hother & Hrest) Hn Ho.
  rewrite !NoDup_cons, !not_elem_of_cons in Hnd. destruct Hnd as ((N12 & N13 & _) & (N23 & _) & _).
  destruct made as [|x [|y made]]; cbn in Hl.
  - subst rest. rewrite (Hother k3) in Ho; [congruence|apply not_elem_of_nil|cbn; congruence].
  - injection Hl as <- <-. rewrite (Hother k3) in Ho; [congruence| |cbn; congruence].
    cbn. rewrite elem_of_cons. intros [?|?%not_elem_of_nil]; congruence.
  - injection Hl as <- <- _.
    destruct (Hmade k1 b1) as (_ & o1 & H1 & H1' & _); [by left|].
    destruct (Hmade k2 b2) as (_ & o2 & H2 & H2' & _); [right; by left|]. by exists o1, o2.
Qed.

(** C36 The service's persist never overwrites and never exposes: whatever calls
    fail, every object that was there is unchanged; what is new is the identity
    directory with its own security or one of the three files with theirs; and a new
    [identity.json] is only ever there beside the whole certificate and the whole
    sealed key, so that an interrupted persist is not taken for an identity without
    them. *)
Theorem installed_persist_safe config enr enrolled c w :
  enrollment config = Some enr →
  NoDup (path_key (ic_identity_dir c) :: set_keys enr) →
  let '(r, w') := installed_persist config enrolled c w in
  let m := objects (custody w) in let m' := objects (custody w') in
  (∀ p o, m !! p = Some o → m' !! p = Some o) ∧
  (∀ p o, m !! p = None → m' !! p = Some o →
     (p = path_key (ic_identity_dir c) ∧ from_sddl (ic_directory_sddl c) = Ok (descriptor o)) ∨
     (p ∈ set_keys enr ∧ from_sddl (ic_file_sddl c) = Ok (descriptor o))) ∧
  (∀ o, m !! path_key (identity_path enr) = None → m' !! path_key (identity_path enr) = Some o →
     ∃ oc ok, m' !! path_key (cert_path enr) = Some oc ∧ m' !! path_key (key_path enr) = Some ok ∧
       contents oc = bytes_of_text (en_client_certificate_pem enrolled) ∧
       seal (en_secret_seed enrolled) = Ok (contents ok)).
Proof.
  intros He Hnd. unfold installed_persist. rewrite He. unfold xbind at 1. cbn [xof ok_or].
  unfold xbind at 1. unfold with_custody at 1.
  pose proof (ensure_directory_run (ic_identity_dir c) (ic_directory_sddl c) (ic_policy c) (custody w)) as Hdir.
  destruct (ensure_directory _ _ _ (custody w)) as [r1 c1].
  pose proof (directory_made c enr (objects (custody w)) (objects c1) Hnd Hdir) as (Hkeep & Hnew & Hfiles).
  assert (∀ o, objects (custody w) !! path_key (identity_path enr) = None →
    objects c1 !! path_key (identity_path enr) ≠ Some o) as Hnone.
  { intros o Hn. rewrite Hfiles, Hn; [done|]. do 2 right. by left. }
  destruct r1 as [[]|e]; cbn [map_err]; [|naive_solver].
  unfold xbind at 1, xof. destruct (seal (en_secret_seed enrolled)) as [sealed|] eqn:Es; cbn [map_err]; [|naive_solver].
  unfold xbind at 1. destruct (to_string_pretty (persisted_of enrolled)) as [json|]; cbn [map_err]; [|naive_solver].
  unfold with_custody. cbn [custody].
  pose proof (create_files_run (ic_file_sddl c) [(cert_path enr, bytes_of_text (en_client_certificate_pem enrolled));
    (key_path enr, sealed); (identity_path enr, bytes_of_text json)] c1) as Hstep.
  rewrite NoDup_cons in Hnd. destruct Hnd as [Hd Hnd]. specialize (Hstep Hnd).
  destruct (create_files _ _ c1) as [r2 c2]. cbn [map_err custody fst snd] in *.
  split_and!.
  - intros p o Hp. destruct (files_step_object _ _ _ _ _ p Hstep) as [->|(_ & Hn & _)]; [by apply Hkeep|].
    by rewrite (Hkeep p o Hp) in Hn.
  - intros p o Hp Ho. destruct (files_step_object _ _ _ _ _ p Hstep) as [E|(Hin & _ & o' & Ho' & Hsd)].
    + left. apply Hnew; [done|]. congruence.
    + right. rewrite Ho in Ho'. injection Ho' as <-. done.
  - intros o Hp Ho. rewrite <- Hfiles in Hp by (do 2 right; by left).
    destruct (files_step_last _ _ _ _ _ _ _ _ _ _ o Hnd Hstep Hp Ho) as (o1 & o2 & G1 & G2 & G3 & G4).
    exists o1, o2. split_and!; try done. by rewrite G4.
Qed.

End InstalledLemmas.

(** A fresh installation. *)
Module ToyInstalled.
Definition layout : InstalledCustody :=
  {| ic_identity_dir := "identity"; ic_hygiene_temporary := "tmp"; ic_policy := system_only;
     ic_config_policy := configuration; ic_directory_sddl := DIRECTORY_SDDL; ic_file_sddl := FILE_SDDL |}.
Definition fresh : InstalledWorld :=
  {| custody := {| objects := ∅; call_faults := []; wait_faults := []; new_ids := [] |}; std_faults := []; all_posted := [] |}.
Definition persisted : Result unit EnrollmentError * InstalledWorld :=
  installed_persist (W := ToyEnrollment.wire) (S := InsecureDevStore) (J := ToyIdentity.json)
    (Sec := ToyWin32.toy) ToyEnrollment.config ToyIdentity.sample layout fresh.
End ToyInstalled.

Lemma installed_check_sound_witness :
  ToyInstalled.persisted.1 = Ok tt ∧
  set_in_custody (Sec := ToyWin32.toy) ToyInstalled.layout ToyEnrollment.enrollment_config
    (objects (custody ToyInstalled.persisted.2)).
Proof.
  split; [vm_compute; reflexivity|].
  apply (installed_check_sound (Sec := ToyWin32.toy) ToyEnrollment.config ToyEnrollment.enrollment_config
    ToyInstalled.layout ToyInstalled.persisted.2 ToyInstalled.persisted.2); [reflexivity|].
  vm_compute. reflexivity.
Defined.

Lemma installed_persist_safe_witness :
  ∃ oc ok, objects (custody ToyInstalled.persisted.2) !! path_key "cert.pem" = Some oc ∧
    objects (custody ToyInstalled.persisted.2) !! path_key "key.dat" = Some ok ∧
    contents oc = bytes_of_text "cert" ∧
    seal (SecureStore := InsecureDevStore) ToyEnrollment.seed = Ok (contents ok).
Proof.
  pose proof (installed_persist_safe (W := ToyEnrollment.wire) (S := InsecureDevStore) (J := ToyIdentity.json)
    (Sec := ToyWin32.toy) ToyEnrollment.config ToyEnrollment.enrollment_config ToyIdentity.sample
    ToyInstalled.layout ToyInstalled.fresh eq_refl) as H.
  assert (is_Some (objects (custody ToyInstalled.persisted.2) !! path_key "identity.json")) as [o Ho]
    by (vm_compute; eauto).
  unfold ToyInstalled.persisted in *. destruct (installed_persist _ _ _ _) as [r w']. cbn [snd] in *.
  destruct H as (_ & _ & H); [apply (bool_decide_unpack (NoDup _)); reflexivity|].
  exact (H o eq_refl Ho).
Defined.
