(* ===== verification/Service.v ===== *)
(** * The service ([service/mod.rs])

    The portable part of the Windows service: how it ends and the log entry of each
    end, the lines its errors print, the fixed paths of an installation with the
    checks of the configuration against them, and the rounds of enrollment. A path
    is its text. *)

From S2P Require Import Prelude IpAddr Types Errors Network Config Signing Tls TlsConfig X509.
From S2P Require Import Transport Enrollment Identity.
Open Scope Z_scope.

Definition EXIT_NOT_STARTED_BY_SCM : Z := 11.
Definition EXIT_STOP_DEADLINE : Z := 12.
Definition EXIT_SERVICE_LOG : Z := 13.

Definition STDERR_NOT_STARTED_BY_SCM : string :=
  "cg-agent: --service requires a start by the Windows service control manager".
Definition STDERR_RELATIVE_CONFIG : string :=
  "cg-agent: invalid config: --config must be an absolute path in service mode".

Definition stderr_service_log (reason : string) : string :=
  "cg-agent: the service log cannot be written: " +:+ reason.

(** Durations in seconds. *)
Definition STOP_DEADLINE : Z := 60.
Definition STOP_BUDGET : Z := 58.
Definition PENDING_UNKNOWN : string := "the agent's stop, at a point the run did not report".
Definition ENROLLMENT_ROUND_WAIT : Z := 60.

Definition EVENT_RUNNING : Z := 1000.
Definition EVENT_STOPPED : Z := 1001.
Definition EVENT_FAILED : Z := 1002.
Definition EVENT_DEADLINE : Z := 1003.

(** ** How the service ended *)

Inductive ServiceExit :=
| Clean (undelivered : nat)
| ServiceFailed (code : Z) (line : string)
| DeadlineExpired (pending : string) (undelivered : option nat).

Record Entry := { entry_id : Z; entry_error : bool; entry_text : string }.

Definition specific_code (e : ServiceExit) : option Z :=
  match e with
  | Clean _ => None
  | ServiceFailed code _ => Some code
  | DeadlineExpired _ _ => Some EXIT_STOP_DEADLINE
  end.

Definition count_text (n : nat) : string := dec (Z.of_nat n).

Definition entry (e : ServiceExit) : Entry :=
  match e with
  | Clean undelivered =>
      {| entry_id := EVENT_STOPPED; entry_error := false;
         entry_text := "cg-agent: the service stopped cleanly; events not delivered: " +:+ count_text undelivered |}
  | ServiceFailed code line =>
      {| entry_id := EVENT_FAILED; entry_error := true;
         entry_text := "cg-agent: the service stopped with code " +:+ dec code +:+ ": " +:+ line |}
  | DeadlineExpired pending undelivered =>
      {| entry_id := EVENT_DEADLINE; entry_error := true;
         entry_text := "cg-agent: the service stop could not end within its " +:+ dec STOP_DEADLINE
           +:+ " s deadline, with " +:+ pending +:+ " pending; events not delivered: "
           +:+ from_option count_text "unknown" undelivered |}
  end.

Definition with_log_failure (exit : ServiceExit) (log_failure : option string) : ServiceExit :=
  match log_failure, exit with
  | Some reason, Clean _ => ServiceFailed EXIT_SERVICE_LOG (stderr_service_log reason)
  | _, exit => exit
  end.

Definition running_entry (agent_version : string) : Entry :=
  {| entry_id := EVENT_RUNNING; entry_error := false;
     entry_text := "cg-agent " +:+ agent_version +:+ ": the service is running" |}.

(** ** Configuration errors *)

Definition config_error_line (path : string) (error : ConfigError) : string :=
  let detail :=
    match error with
    | ConfigParse _ (Some (line, column)) =>
        "TOML parse error at line " +:+ count_text line +:+ ", column " +:+ count_text column
    | ConfigParse _ None => "TOML parse error"
    | other => config_error_text other
    end in
  "cg-agent: invalid config " +:+ path +:+ ": " +:+ detail.

Definition check_service_config (path : string) (config : AgentConfig) : Result unit string :=
  match enrollment config, trust_anchor_path (Config.server config) with
  | Some _, Some _ => Ok tt
  | _, _ => Err ("cg-agent: invalid config " +:+ path
              +:+ ": the service requires [enrollment] and server.trust_anchor_path")
  end.

(** ** The installed paths *)

Definition is_separator (c : Ascii.ascii) : bool := bool_decide (c = backslash) || bool_decide (c = slash).

(** A bare drive such as [C:]. *)
Definition bare_drive (p : string) : bool :=
  match p with
  | String _ (String c EmptyString) => bool_decide (c = colon)
  | _ => false
  end.

Fixpoint last_char (s : string) : option Ascii.ascii :=
  match s with
  | EmptyString => None
  | String c EmptyString => Some c
  | String _ s' => last_char s'
  end.

(** [Path::join] with a relative name that has no prefix. *)
Definition join_path (base name : string) : string :=
  match last_char base with
  | None => name
  | Some c =>
      if is_separator c || bare_drive base then base +:+ name
      else base +:+ String backslash name
  end.

Record InstalledPaths := {
  product_root : string;
  data_root : string;
  config_file : string;
  trust_anchor : string;
  identity_dir : string;
  cert : string;
  key : string;
  identity : string;
}.

Definition under (program_data : string) : InstalledPaths :=
  let product_root := join_path program_data "CyberGuard" in
  let data_root := join_path product_root "agent" in
  let identity_dir := join_path data_root "identity" in
  {| product_root := product_root; data_root := data_root;
     config_file := join_path data_root "agent.toml";
     trust_anchor := join_path data_root "server-ca.pem";
     identity_dir := identity_dir;
     cert := join_path identity_dir "cert.pem";
     key := join_path identity_dir "key.dat";
     identity := join_path identity_dir "identity.json" |}.

Definition installed_hygiene_temporary (p : InstalledPaths) : string :=
  join_path (data_root p) "agent.toml.hygiene-tmp".
Definition staging (p : InstalledPaths) : string := join_path (product_root p) "agent.migrating".
Definition legacy (p : InstalledPaths) : string := join_path (product_root p) "agent.legacy".
Definition record (p : InstalledPaths) : string := join_path (data_root p) "migration.json".

Definition is_fixed_path (configured fixed : string) : bool := eq_ignore_ascii_case fixed configured.

Definition not_fixed (config_path key fixed : string) : string :=
  "cg-agent: invalid config " +:+ config_path +:+ ": " +:+ key +:+ " must be " +:+ fixed
  +:+ " in service mode".

Definition check_config_path (paths : InstalledPaths) (config_path : string) : Result unit string :=
  if is_fixed_path config_path (config_file paths) then Ok tt
  else Err (not_fixed config_path "--config" (config_file paths)).

(** The loop over the identity's paths. *)
Fixpoint check_fixed (config_path : string) (l : list (string * string * string)) : Result unit string :=
  match l with
  | [] => Ok tt
  | (key, configured, fixed) :: l =>
      if is_fixed_path configured fixed then check_fixed config_path l
      else Err (not_fixed config_path key fixed)
  end.

Definition fixed_paths (paths : InstalledPaths) (enr : EnrollmentConfig) : list (string * string * string) :=
  [("enrollment.cert_path", cert_path enr, cert paths);
   ("enrollment.key_path", key_path enr, key paths);
   ("enrollment.identity_path", identity_path enr, identity paths)].

(** [enrollment] is there once [check_service_config] passed. *)
Definition check_installed_config (paths : InstalledPaths) (config_path : string) (config : AgentConfig)
  : Result unit string :=
  try? check_service_config config_path config in
  let anchor := default "" (trust_anchor_path (Config.server config)) in
  if negb (is_fixed_path anchor (trust_anchor paths))
  then Err (not_fixed config_path "server.trust_anchor_path" (trust_anchor paths))
  else
    try? check_fixed config_path (from_option (fixed_paths paths) [] (enrollment config)) in
    match heartbeat_url (Config.server config) with
    | None => Err ("cg-agent: invalid config " +:+ config_path
                   +:+ ": the service requires server.heartbeat_url")
    | Some _ => Ok tt
    end.

(** ** The rounds of enrollment *)

Section Rounds.
Context {X : Type}.

(** What one turn of the loop meets: the round's result, or [None] when the stop
    won, and whether the stop won the wait that follows an exhausted round. *)
Record RoundInput := { round_end : option (Result X EnrollmentError); wait_stopped : bool }.

Inductive RoundAction := RunRound | WaitRound (seconds : Z).

Inductive RoundsOutcome :=
| StillRunning
| RoundsStopped
| RoundsEnded (r : Result X EnrollmentError).

Fixpoint identity_rounds_until_stopped (round_wait : Z) (inputs : list RoundInput)
  : list RoundAction * RoundsOutcome :=
  match inputs with
  | [] => ([], StillRunning)
  | i :: inputs =>
      match round_end i with
      | None => ([RunRound], RoundsStopped)
      | Some (Err (Unreachable attempts last_error)) =>
          if wait_stopped i then ([RunRound; WaitRound round_wait], RoundsStopped)
          else let '(actions, out) := identity_rounds_until_stopped round_wait inputs in
               (RunRound :: WaitRound round_wait :: actions, out)
      | Some other => ([RunRound], RoundsEnded other)
      end
  end.

(** A round exhausted and waited out. *)
Definition exhausted (i : RoundInput) : Prop :=
  wait_stopped i = false ∧ ∃ attempts last_error, round_end i = Some (Err (Unreachable attempts last_error)).

(** The service never exits because enrollment is unreachable: its rounds end
    with a result only after every earlier round was exhausted and waited out in
    full, and that result is the first one that is not an exhausted round, so its
    exit code is never the console's 4. *)
Theorem enrollment_rounds_end wait inputs actions r :
  identity_rounds_until_stopped wait inputs = (actions, RoundsEnded r) →
  ∃ before i after, inputs = before ++ i :: after ∧ Forall exhausted before ∧ round_end i = Some r ∧
    actions = concat (replicate (length before) [RunRound; WaitRound wait]) ++ [RunRound] ∧
    match r with Ok _ => True | Err e => enrollment_exit_code e ≠ 4 end.
Proof.
  revert actions. induction inputs as [|i inputs IH]; intros actions; cbn [identity_rounds_until_stopped]; [done|].
  destruct (round_end i) as [[x|e]|] eqn:Ei; [|destruct e as [| |attempts last| |]|done];
    try (intros [= <- <-]; exists [], i, inputs; split_and!; try done; fail).
  - destruct (wait_stopped i) eqn:Ew; [done|].
    destruct (identity_rounds_until_stopped wait inputs) as [acts out] eqn:E. intros [= <- ->].
    destruct (IH acts eq_refl) as (before & j & after & -> & Hb & Hj & -> & Hr).
    exists (i :: before), j, after. split_and!; try done. constructor; [|done]. by split; [|eauto].
  - intros [= <- <-]. exists [], i, inputs. split_and!; try done. by destruct e.
Qed.

End Rounds.

(** ** Lemmas *)

Lemma length_join_path base name :
  String.length (join_path base name) =
    (String.length name + (match last_char base with
                           | None => 0
                           | Some c => String.length base + if is_separator c || bare_drive base then 0 else 1
                           end))%nat.
Proof.
  unfold join_path. destruct (last_char base) as [c|]; [|lia].
  destruct (is_separator c || bare_drive base); rewrite length_app_str; cbn [String.length]; lia.
Qed.

(** Two names of different lengths under one directory are never both matched. *)
Lemma fixed_paths_differ base n1 n2 c1 c2 :
  is_fixed_path c1 (join_path base n1) = true → is_fixed_path c2 (join_path base n2) = true →
  String.length n1 ≠ String.length n2 → c1 ≠ c2.
Proof.
  unfold is_fixed_path. intros H1%eq_ignore_ascii_case_length H2%eq_ignore_ascii_case_length Hn ->.
  rewrite !length_join_path in *. lia.
Qed.

Lemma check_fixed_ok config_path l :
  check_fixed config_path l = Ok tt ↔ Forall (λ x, is_fixed_path x.1.2 x.2 = true) l.
Proof.
  induction l as [|[[k c] f] l IH]; cbn [check_fixed]; [by rewrite Forall_nil|]. rewrite Forall_cons. cbn [fst snd].
  destruct (is_fixed_path c f); [rewrite IH; tauto|]. split; [done|]. by intros [].
Qed.

(** What the service asks of a configuration. *)
Definition installed_config (p : InstalledPaths) (config : AgentConfig) : Prop :=
  ∃ enr anchor url,
    enrollment config = Some enr ∧ trust_anchor_path (Config.server config) = Some anchor ∧
    heartbeat_url (Config.server config) = Some url ∧
    is_fixed_path anchor (trust_anchor p) = true ∧ is_fixed_path (cert_path enr) (cert p) = true ∧
    is_fixed_path (key_path enr) (key p) = true ∧ is_fixed_path (identity_path enr) (identity p) = true.

Lemma check_installed_config_ok p config_path config :
  check_installed_config p config_path config = Ok tt ↔ installed_config p config.
Proof.
  unfold check_installed_config, check_service_config, installed_config.
  destruct (enrollment config) as [enr|]; [|split; [done|naive_solver]].
  destruct (trust_anchor_path (Config.server config)) as [anchor|]; [|split; [done|naive_solver]].
  change (default "" (Some anchor)) with anchor. destruct (is_fixed_path anchor (trust_anchor p)) eqn:Ea; cbn [negb].
  2: { split; [done|]. intros (? & ? & ? & _ & [= <-] & _ & H & _). congruence. }
  cbn [from_option]. destruct (check_fixed config_path (fixed_paths p enr)) as [[]|] eqn:Ef.
  - apply check_fixed_ok in Ef. unfold fixed_paths in Ef. rewrite !Forall_cons in Ef. cbn in Ef.
    destruct (heartbeat_url _) as [url|]; [|split; [done|naive_solver]]. split; [|done]. intros _.
    exists enr, anchor, url. naive_solver.
  - split; [done|]. intros (enr' & ? & ? & [= <-] & _ & _ & _ & H1 & H2 & H3).
    assert (check_fixed config_path (fixed_paths p enr) = Ok tt); [|congruence].
    apply check_fixed_ok. unfold fixed_paths. rewrite !Forall_cons, Forall_nil. cbn. done.
Qed.

(** The service starts on exactly the installed configurations: under any
    program-data directory, the check passes if and only if enrollment, the trust
    anchor and the heartbeat URL are configured and the anchor and the three
    identity files are at their fixed paths up to ASCII case; the three paths are
    then pairwise different. *)
Theorem installed_config_exact program_data config_path config :
  (check_installed_config (under program_data) config_path config = Ok tt ↔
   installed_config (under program_data) config) ∧
  (∀ enr, check_installed_config (under program_data) config_path config = Ok tt →
     enrollment config = Some enr → NoDup [cert_path enr; key_path enr; identity_path enr]).
Proof.
  split; [apply check_installed_config_ok|]. intros enr Hok He.
  apply check_installed_config_ok in Hok as (enr' & _ & _ & He' & _ & _ & _ & Hc & Hk & Hi).
  rewrite He in He'. injection He' as <-.
  pose proof (fixed_paths_differ _ _ _ _ _ Hc Hk ltac:(done)) as N1.
  pose proof (fixed_paths_differ _ _ _ _ _ Hc Hi ltac:(done)) as N2.
  pose proof (fixed_paths_differ _ _ _ _ _ Hk Hi ltac:(done)) as N3.
  rewrite !NoDup_cons, !not_elem_of_cons. split_and!; try done; try apply not_elem_of_nil. apply NoDup_nil_2.
Qed.

(** A configuration error's line quotes nothing of the parser's message: it is a
    function of the path and the position. *)
Lemma parse_error_line_quotes_nothing path m m' position :
  config_error_line path (ConfigParse m position) = config_error_line path (ConfigParse m' position).
Proof. done. Qed.

(** The service's end is clean for the control manager exactly when the event log's
    entry is not an error, and a failed log is never reported as a clean stop. *)
Lemma clean_exit_reported e reason :
  (specific_code e = None ↔ entry_error (entry e) = false) ∧
  is_Some (specific_code (with_log_failure e (Some reason))) ∧
  with_log_failure e None = e.
Proof. destruct e; cbn; split_and!; try done; eauto. Qed.

(** A round that is exhausted, then one that is refused. *)
Definition sample_rounds : list (RoundInput (X := unit)) :=
  [{| round_end := Some (Err (Unreachable 3 "status 503")); wait_stopped := false |};
   {| round_end := Some (Err (Refused "token already used")); wait_stopped := false |}].

Lemma enrollment_rounds_end_witness :
  identity_rounds_until_stopped 60 sample_rounds =
    ([RunRound; WaitRound 60; RunRound], RoundsEnded (Err (Refused "token already used"))) ∧
  enrollment_exit_code (Refused "token already used") ≠ 4.
Proof.
  assert (identity_rounds_until_stopped 60 sample_rounds =
    ([RunRound; WaitRound 60; RunRound], RoundsEnded (Err (Refused "token already used")))) as E by reflexivity.
  split; [exact E|].
  destruct (enrollment_rounds_end 60 sample_rounds _ _ E) as (b & i & a & _ & _ & _ & _ & H). exact H.
Defined.

(** An installation under [C:\ProgramData], its paths in another case. *)
Definition sample_installed : AgentConfig :=
  {| Config.server := {| url := "https://s";
                         trust_anchor_path := Some "c:\programdata\cyberguard\agent\server-ca.pem";
                         heartbeat_url := Some "https://s:8443" |};
     agent := agent ToyEnrollment.config; heartbeat := heartbeat_default; log := log_default;
     enrollment := Some
       {| token := None; cert_path := "C:\ProgramData\CyberGuard\agent\identity\CERT.pem";
          key_path := "C:\ProgramData\CyberGuard\agent\identity\key.dat";
          identity_path := "C:\ProgramData\CyberGuard\agent\identity\identity.json";
          timeout_seconds := 30; enroll_max_retries := 3; enroll_backoff_initial_ms := 500;
          enroll_backoff_factor := f64_of_u64 2 |};
     tls := None; envelope := None |}.

Lemma installed_config_exact_witness :
  installed_config (under "C:\ProgramData") sample_installed ∧
  match enrollment sample_installed with
  | Some enr => NoDup [cert_path enr; key_path enr; identity_path enr]
  | None => False
  end.
Proof.
  destruct (installed_config_exact "C:\ProgramData" "agent.toml" sample_installed) as [H1 H2].
  assert (check_installed_config (under "C:\ProgramData") "agent.toml" sample_installed = Ok tt) as E
    by (vm_compute; reflexivity).
  split; [apply H1; exact E|]. cbn [enrollment sample_installed]. apply (H2 _ E). reflexivity.
Defined.
