(* ===== verification/ServiceStatus.v ===== *)
(** * The status the service reports ([service/windows.rs])

    [Status] with its lock, the stop flag the control handler sets without it, and the
    status thread, which reports [STOP_PENDING] and advances a pending state's checkpoint.
    The run, the handler and the status thread interleave; each operation that takes the
    lock is one step. The thread may not be there, since a failed spawn of it is let pass.
    Times are milliseconds; the thread runs within [late] of when it can. *)

From S2P Require Import Prelude.
Open Scope Z_scope.

Definition SERVICE_STOPPED : Z := 1.
Definition SERVICE_START_PENDING : Z := 2.
Definition SERVICE_STOP_PENDING : Z := 3.
Definition SERVICE_RUNNING : Z := 4.
Definition SERVICE_ACCEPT_STOP : Z := 1.
Definition SERVICE_ACCEPT_SHUTDOWN : Z := 4.
Definition SERVICE_CONTROL_STOP : Z := 1.
Definition SERVICE_CONTROL_INTERROGATE : Z := 4.
Definition SERVICE_CONTROL_SHUTDOWN : Z := 5.
Definition NO_ERROR : Z := 0.
Definition ERROR_CALL_NOT_IMPLEMENTED : Z := 120.
Definition ERROR_SERVICE_SPECIFIC_ERROR : Z := 1066.

Definition CHECKPOINT_INTERVAL : Z := 5000.
Definition STOP_POLL : Z := 250.
Definition WAIT_HINT_MS : Z := 15000.
Definition START_PENDING_CAP : Z := 120000.
Definition STOP_PENDING_CAP : Z := 75000.

(** [SERVICE_STATUS]. *)
Record StatusReport := {
  dwCurrentState : Z;
  dwControlsAccepted : Z;
  dwWin32ExitCode : Z;
  dwServiceSpecificExitCode : Z;
  dwCheckPoint : Z;
  dwWaitHint : Z;
}.

(** The reported status, when its state began and when its checkpoint last advanced. *)
Record Current := { status : StatusReport; since : Z; ticked : Z }.

(** Where the status thread is: not spawned, at the top of its loop since an instant, in
    its wait, or returned. *)
Inductive StatusThread := Unspawned | AtTop (from : Z) | Waiting (until : Z) | Returned.

Record Service := {
  now : Z;
  current : Current;
  stop_requested : bool;
  thread : StatusThread;
  (** What [SetServiceStatus] was called with, the oldest first, and when. *)
  reports : list (Z * StatusReport);
}.

Definition with_current (s : Service) (c : Current) : Service :=
  {| now := now s; current := c; stop_requested := stop_requested s; thread := thread s; reports := reports s |}.
Definition with_thread (s : Service) (t : StatusThread) : Service :=
  {| now := now s; current := current s; stop_requested := stop_requested s; thread := t; reports := reports s |}.

(** [Status::new]. *)
Definition new_status (at_ : Z) : Service :=
  {| now := at_;
     current := {| status := {| dwCurrentState := SERVICE_START_PENDING; dwControlsAccepted := 0; dwWin32ExitCode := 0;
                                dwServiceSpecificExitCode := 0; dwCheckPoint := 0; dwWaitHint := 0 |};
                   since := at_; ticked := at_ |};
     stop_requested := false; thread := Unspawned; reports := [] |}.

Definition report (s : Service) : Service :=
  {| now := now s; current := current s; stop_requested := stop_requested s; thread := thread s;
     reports := reports s ++ [(now s, status (current s))] |}.

Definition is_pending (state : Z) : bool := (state =? SERVICE_START_PENDING) || (state =? SERVICE_STOP_PENDING).

Definition enter (s : Service) (state accepted : Z) : Service :=
  report (with_current s
    {| status := {| dwCurrentState := state; dwControlsAccepted := accepted;
                    dwWin32ExitCode := dwWin32ExitCode (status (current s));
                    dwServiceSpecificExitCode := dwServiceSpecificExitCode (status (current s));
                    dwCheckPoint := if is_pending state then 1 else 0;
                    dwWaitHint := if is_pending state then WAIT_HINT_MS else 0 |};
       since := now s; ticked := now s |}).

Definition state_of (s : Service) : Z := dwCurrentState (status (current s)).

Definition start_pending (s : Service) : Service := enter s SERVICE_START_PENDING 0.

Definition progress (s : Service) : Service :=
  if state_of s =? SERVICE_START_PENDING
  then with_current s {| status := status (current s); since := now s; ticked := ticked (current s) |}
  else s.

Definition running (s : Service) : bool * Service :=
  if (state_of s =? SERVICE_START_PENDING) && negb (stop_requested s)
  then (true, enter s SERVICE_RUNNING (Z.lor SERVICE_ACCEPT_STOP SERVICE_ACCEPT_SHUTDOWN))
  else (false, s).

Definition request_stop (s : Service) : Service :=
  {| now := now s; current := current s; stop_requested := true; thread := thread s; reports := reports s |}.

Definition stopped (s : Service) (specific : option Z) : Service :=
  enter (with_current s
    {| status := {| dwCurrentState := dwCurrentState (status (current s));
                    dwControlsAccepted := dwControlsAccepted (status (current s));
                    dwWin32ExitCode := from_option (λ _, ERROR_SERVICE_SPECIFIC_ERROR) 0 specific;
                    dwServiceSpecificExitCode := default 0 specific;
                    dwCheckPoint := dwCheckPoint (status (current s));
                    dwWaitHint := dwWaitHint (status (current s)) |};
       since := since (current s); ticked := ticked (current s) |}) SERVICE_STOPPED 0.

(** The status thread's loop, to its next wait or its return; [continue] goes back to the
    top, which the state it entered then leaves for the wait. *)
Fixpoint loop_top (fuel : nat) (s : Service) : option Service :=
  match fuel with
  | O => None
  | S fuel =>
      let state := state_of s in
      if state =? SERVICE_STOPPED then Some (with_thread s Returned)
      else if stop_requested s && ((state =? SERVICE_START_PENDING) || (state =? SERVICE_RUNNING))
      then loop_top fuel (enter s SERVICE_STOP_PENDING 0)
      else Some (with_thread s (Waiting (now s + STOP_POLL)))
  end.

(** After the wait, back to the top. *)
Definition after_wait (s : Service) : Service :=
  let cap := if state_of s =? SERVICE_START_PENDING then Some START_PENDING_CAP
             else if state_of s =? SERVICE_STOP_PENDING then Some STOP_PENDING_CAP else None in
  with_thread
    (match cap with
     | None => s
     | Some cap =>
         if (CHECKPOINT_INTERVAL <=? now s - ticked (current s)) && (now s - since (current s) <? cap) then
           let st := status (current s) in
           report (with_current s
             {| status := {| dwCurrentState := dwCurrentState st; dwControlsAccepted := dwControlsAccepted st;
                             dwWin32ExitCode := dwWin32ExitCode st;
                             dwServiceSpecificExitCode := dwServiceSpecificExitCode st;
                             dwCheckPoint := wrap_u 32 (dwCheckPoint st + 1); dwWaitHint := dwWaitHint st |};
                since := since (current s); ticked := now s |})
         else s
     end) (AtTop (now s)).

(** [control_handler]: [shared] is there once the service's main function set it. *)
Definition control_handler (shared : option Service) (control : Z) : Z * option Service :=
  if (control =? SERVICE_CONTROL_STOP) || (control =? SERVICE_CONTROL_SHUTDOWN)
  then (NO_ERROR, request_stop <$> shared)
  else if control =? SERVICE_CONTROL_INTERROGATE then (NO_ERROR, shared)
  else (ERROR_CALL_NOT_IMPLEMENTED, shared).

(** ** Interleavings *)

(** The run's calls of [progress] and [running], the handler's stop or the file log's, the
    main function's end, once, the status thread, and time, which passes a thread that can
    run by [late] at most. *)
Inductive service_step (late : Z) : Service → Service → Prop :=
| runs_on s : service_step late s (progress s)
| says_running s : service_step late s (running s).2
| asks_stop s : service_step late s (request_stop s)
| handles s control : service_step late s (default s (control_handler (Some s) control).2)
| ends s specific : state_of s ≠ SERVICE_STOPPED → service_step late s (stopped s specific)
| thread_loops s s' from : thread s = AtTop from → loop_top 2 s = Some s' → service_step late s s'
| thread_wakes s until : thread s = Waiting until → service_step late s (after_wait s)
| time_passes s t :
    now s ≤ t →
    match thread s with AtTop from => t ≤ from + late | Waiting until => t ≤ until + late | _ => True end →
    service_step late s {| now := t; current := current s; stop_requested := stop_requested s; thread := thread s;
                           reports := reports s |}.

(** What the main function begins with: its first report, and the thread if it was
    spawned. *)
Definition begun (spawned : bool) (at_ : Z) : Service :=
  let s := start_pending (new_status at_) in if spawned then with_thread s (AtTop at_) else s.
Definition service_reachable (late : Z) (s : Service) : Prop :=
  ∃ spawned at_, rtc (service_step late) (begun spawned at_) s.

(** The loop always gets to its wait, or returns. *)
Lemma loop_top_total s : is_Some (loop_top 2 s).
Proof.
  cbn [loop_top]. destruct (state_of s =? SERVICE_STOPPED); [by eexists|].
  destruct (stop_requested s && _); [|by eexists]. cbn. rewrite andb_false_r. by eexists.
Qed.

(** ** The order of the reports *)

(** How far the service has got. *)
Definition rank (state : Z) : Z :=
  if state =? SERVICE_START_PENDING then 0 else if state =? SERVICE_RUNNING then 1
  else if state =? SERVICE_STOP_PENDING then 2 else 3.

(** The checkpoint of a pending state, advanced; or a later state entered. *)
Definition advances (x y : StatusReport) : Prop :=
  dwCurrentState y = dwCurrentState x ∧ is_pending (dwCurrentState x) = true ∧
  dwCheckPoint y = wrap_u 32 (dwCheckPoint x + 1) ∧ dwWaitHint y = WAIT_HINT_MS.
Definition enters (x y : StatusReport) : Prop :=
  rank (dwCurrentState x) < rank (dwCurrentState y) ∧
  dwCheckPoint y = (if is_pending (dwCurrentState y) then 1 else 0) ∧
  dwWaitHint y = (if is_pending (dwCurrentState y) then WAIT_HINT_MS else 0).
Definition follows (x y : Z * StatusReport) : Prop :=
  x.1 ≤ y.1 ∧ (enters x.2 y.2 ∨ (advances x.2 y.2 ∧ x.1 + CHECKPOINT_INTERVAL ≤ y.1)).

Fixpoint in_sequence (l : list (Z * StatusReport)) : Prop :=
  match l with
  | x :: (y :: _) as l => follows x y ∧ in_sequence l
  | _ => True
  end.

Lemma in_sequence_snoc l x y : in_sequence (l ++ [x]) → follows x y → in_sequence ((l ++ [x]) ++ [y]).
Proof.
  induction l as [|a l IH]; [done|]. cbn. destruct l as [|b l]; cbn in *; [naive_solver|].
  intros [H1 H2] Hf. split; [done|]. by apply IH.
Qed.

Section Late.
Context (late : Z).
Hypothesis Hlate : 0 ≤ late.

(** What holds throughout: the last report is the current status, made when its checkpoint
    last advanced; the thread returns only once the service has stopped; and when it last
    looked, no advance was due. *)
Definition cap_of (state : Z) : Z := if state =? SERVICE_START_PENDING then START_PENDING_CAP else STOP_PENDING_CAP.
Definition known_state (state : Z) : Prop :=
  state ∈ [SERVICE_STOPPED; SERVICE_START_PENDING; SERVICE_STOP_PENDING; SERVICE_RUNNING].

(** The thread is not later than it may be. *)
Definition in_time (s : Service) : Prop :=
  match thread s with
  | AtTop from => from ≤ now s ≤ from + late
  | Waiting until => until - STOP_POLL ≤ now s ≤ until + late
  | _ => True
  end.

(** At [c] the cap had passed, or the checkpoint had advanced or the cap been renewed
    recently enough. *)
Definition not_due (s : Service) (c : Z) : Prop :=
  cap_of (state_of s) ≤ c - since (current s) ∨ c < ticked (current s) + CHECKPOINT_INTERVAL ∨ c ≤ since (current s).
Definition looked (s : Service) : Prop :=
  match thread s with
  | AtTop from => not_due s from
  | Waiting until => ∃ c, c ≤ now s ∧ until ≤ c + late + STOP_POLL ∧ not_due s c
  | _ => True
  end.

Record consistent (s : Service) : Prop := {
  cs_last : ∃ l, reports s = l ++ [(ticked (current s), status (current s))];
  cs_sequence : in_sequence (reports s);
  cs_state : known_state (state_of s);
  cs_hint : dwWaitHint (status (current s)) = (if is_pending (state_of s) then WAIT_HINT_MS else 0);
  cs_ticked : ticked (current s) ≤ now s;
  cs_returned : thread s = Returned → state_of s = SERVICE_STOPPED;
  cs_wait : in_time s;
  cs_due : is_pending (state_of s) = true → looked s;
}.

(** A renewed cap: nothing is due. *)
Lemma looked_fresh s : in_time s → since (current s) = now s → looked s.
Proof.
  unfold in_time, looked, not_due. intros Hw Hs. destruct (thread s) as [|from|until|]; [done| |exists (now s)|done]; lia.
Qed.

(** A later state entered. *)
Lemma consistent_enter s state accepted :
  consistent s → known_state state → rank (state_of s) < rank state → thread s ≠ Returned ∨ state = SERVICE_STOPPED →
  consistent (enter s state accepted).
Proof.
  intros H Hk Hr Ht. destruct (cs_last _ H) as [l Hl]. split; cbn.
  - by eexists.
  - rewrite Hl. apply in_sequence_snoc; [rewrite <- Hl; apply H|]. split; [apply H|]. left. by split_and!.
  - done.
  - done.
  - lia.
  - intros E. by destruct Ht as [Ht|Ht].
  - exact (cs_wait _ H).
  - intros _. apply looked_fresh; [exact (cs_wait _ H)|done].
Qed.

(** Nothing reported, [since] renewed or not. *)
Lemma consistent_progress s : consistent s → consistent (progress s).
Proof.
  intros H. unfold progress. destruct (state_of s =? SERVICE_START_PENDING); [|done].
  split; cbn; try apply H. intros _. apply looked_fresh; [exact (cs_wait _ H)|done].
Qed.

Lemma consistent_request s : consistent s → consistent (request_stop s).
Proof. intros H. split; apply H. Qed.

Lemma rank_running s : (state_of s =? SERVICE_START_PENDING) = true → rank (state_of s) < rank SERVICE_RUNNING.
Proof. intros E%Z.eqb_eq. rewrite E. done. Qed.

Lemma consistent_running s : consistent s → consistent (running s).2.
Proof.
  intros H. unfold running. destruct (state_of s =? SERVICE_START_PENDING) eqn:E; [|done].
  destruct (negb (stop_requested s)); [|done]. apply consistent_enter; [done|by right; right; right; left|by apply rank_running|].
  left. intros Ht. apply (cs_returned _ H) in Ht. rewrite Ht in E. done.
Qed.

Lemma rank_stopped s : known_state (state_of s) → state_of s ≠ SERVICE_STOPPED → rank (state_of s) < rank SERVICE_STOPPED.
Proof.
  intros Hk Hs. repeat (apply elem_of_cons in Hk as [E|Hk]; [try done; by rewrite E|]). by apply not_elem_of_nil in Hk.
Qed.

(** The exit codes set just before [STOPPED] is reported are those of its report. *)
Lemma consistent_stopped s specific : consistent s → state_of s ≠ SERVICE_STOPPED → consistent (stopped s specific).
Proof.
  intros H Hs. pose proof (rank_stopped s (cs_state _ H) Hs) as Hr. destruct (cs_last _ H) as [l Hl]. split; cbn.
  - by eexists.
  - rewrite Hl. apply in_sequence_snoc; [rewrite <- Hl; apply H|]. split; [apply H|]. left. by split_and!.
  - by left.
  - done.
  - lia.
  - done.
  - exact (cs_wait _ H).
  - done.
Qed.

Lemma consistent_top s s' from : consistent s → thread s = AtTop from → loop_top 2 s = Some s' → consistent s'.
Proof.
  intros H Ht. cbn [loop_top]. destruct (state_of s =? SERVICE_STOPPED) eqn:Es.
  { intros [= <-]. apply Z.eqb_eq in Es. split; cbn; try apply H; try done. }
  assert (∀ u, consistent u → thread u = AtTop from → consistent (with_thread u (Waiting (now u + STOP_POLL)))) as Hwait.
  { intros u Hu Htu. pose proof (cs_due _ Hu) as Hd. pose proof (cs_wait _ Hu) as Hw. unfold in_time, looked in *.
    rewrite Htu in Hd, Hw. split; cbn; try apply Hu; try done; unfold in_time, looked, STOP_POLL in *; cbn; [lia|].
    intros Hp. exists from. split; [lia|]. split; [lia|exact (Hd Hp)]. }
  destruct (stop_requested s && _) eqn:Ea.
  - apply andb_true_iff in Ea as [_ Ea]. change (state_of (enter s SERVICE_STOP_PENDING 0)) with SERVICE_STOP_PENDING.
    change (SERVICE_STOP_PENDING =? SERVICE_STOPPED) with false.
    change ((SERVICE_STOP_PENDING =? SERVICE_START_PENDING) || (SERVICE_STOP_PENDING =? SERVICE_RUNNING)) with false.
    rewrite andb_false_r. intros E%(inj Some). subst s'. apply Hwait; [|done].
    apply consistent_enter; [done|by right; right; left| |left; by rewrite Ht].
    apply orb_true_iff in Ea as [E%Z.eqb_eq|E%Z.eqb_eq]; by rewrite E.
  - intros [= <-]. by apply Hwait.
Qed.

Lemma consistent_wake s until : consistent s → thread s = Waiting until → consistent (after_wait s).
Proof.
  intros H Ht. pose proof (cs_wait _ H) as Hw.
  assert (cap_of (state_of s) ≤ now s - since (current s) ∨ now s - ticked (current s) < CHECKPOINT_INTERVAL ∨
          is_pending (state_of s) = false → consistent (with_thread s (AtTop (now s)))) as Hno.
  { intros Hd. split; cbn; try apply H; [done|unfold in_time; cbn; lia|]. intros Hp. unfold looked, not_due.
    change (state_of (with_thread s (AtTop (now s)))) with (state_of s) in *. cbn [thread with_thread now current].
    destruct Hd as [Hd|[Hd|Hd]]; [lia|lia|congruence]. }
  unfold after_wait.
  assert (∀ cap, cap_of (state_of s) = cap → is_pending (state_of s) = true →
    consistent (with_thread (if (CHECKPOINT_INTERVAL <=? now s - ticked (current s)) && (now s - since (current s) <? cap)
      then report (with_current s
             {| status := {| dwCurrentState := dwCurrentState (status (current s));
                             dwControlsAccepted := dwControlsAccepted (status (current s));
                             dwWin32ExitCode := dwWin32ExitCode (status (current s));
                             dwServiceSpecificExitCode := dwServiceSpecificExitCode (status (current s));
                             dwCheckPoint := wrap_u 32 (dwCheckPoint (status (current s)) + 1);
                             dwWaitHint := dwWaitHint (status (current s)) |};
                since := since (current s); ticked := now s |})
      else s) (AtTop (now s)))) as Htick.
  { intros cap Hcap Hp. destruct (CHECKPOINT_INTERVAL <=? now s - ticked (current s)) eqn:E1; cbn [andb].
    2: { apply Hno. right; left. apply Z.leb_gt in E1. lia. }
    destruct (now s - since (current s) <? cap) eqn:E2; [|apply Hno; left; apply Z.ltb_ge in E2; lia].
    apply Z.leb_le in E1. destruct (cs_last _ H) as [l Hl]. split; cbn; try apply H; try done.
    - by eexists.
    - rewrite Hl. apply in_sequence_snoc; [rewrite <- Hl; apply H|]. split; [apply (cs_ticked _ H)|]. right. split; [|cbn; lia].
      split_and!; [done|done|done|]. pose proof (cs_hint _ H) as Hh. by rewrite Hp in Hh.
    - unfold in_time. cbn. lia.
    - intros _. right; left. unfold CHECKPOINT_INTERVAL. cbn. lia. }
  destruct (state_of s =? SERVICE_START_PENDING) eqn:E1.
  { apply Htick; [unfold cap_of; by rewrite E1|unfold is_pending; by rewrite E1]. }
  destruct (state_of s =? SERVICE_STOP_PENDING) eqn:E2.
  { apply Htick; [unfold cap_of; by rewrite E1|unfold is_pending; by rewrite E2, orb_true_r]. }
  apply Hno. right; right. unfold is_pending. by rewrite E1, E2.
Qed.

Lemma consistent_time s t :
  consistent s → now s ≤ t →
  match thread s with AtTop from => t ≤ from + late | Waiting until => t ≤ until + late | _ => True end →
  consistent {| now := t; current := current s; stop_requested := stop_requested s; thread := thread s; reports := reports s |}.
Proof.
  intros H Ht Hu. pose proof (cs_wait _ H) as Hw. pose proof (cs_ticked _ H). split; cbn; try apply H; [lia| |].
  - unfold in_time in *. cbn. destruct (thread s); [done|lia|lia|done].
  - intros Hp. pose proof (cs_due _ H Hp) as Hd. unfold looked in *. cbn. destruct (thread s); try done.
    destruct Hd as (c & Hn & Hd). exists c. split; [lia|done].
Qed.

Lemma consistent_step s s' : service_step late s s' → consistent s → consistent s'.
Proof.
  intros Hs H. destruct Hs.
  - by apply consistent_progress.
  - by apply consistent_running.
  - by apply consistent_request.
  - unfold control_handler. destruct (_ || _); [by apply consistent_request|]. by destruct (_ =? _).
  - by apply consistent_stopped.
  - by eapply consistent_top.
  - by eapply consistent_wake.
  - by apply consistent_time.
Qed.

Lemma consistent_begun spawned at_ : consistent (begun spawned at_).
Proof.
  destruct spawned; split; cbn; try done; [by exists []|by right; left| | |by exists []|by right; left].
  - unfold in_time. cbn. lia.
  - intros _. right; right. cbn. lia.
Qed.

Lemma reachable_consistent s : service_reachable late s → consistent s.
Proof.
  intros (spawned & at_ & H). pose proof (consistent_begun spawned at_) as H0. remember (begun spawned at_) as b eqn:E.
  clear E. induction H as [s|s1 s2 s3 Hs _ IH]; [done|]. by eapply IH, consistent_step.
Qed.

(** C12 The service's reports come in order: whatever the run, the control handler, the
    file log and the status thread do and however they interleave, each report enters a
    later one of START_PENDING, RUNNING, STOP_PENDING and STOPPED than the report before
    it, with a new checkpoint, or is the same pending state at least five seconds later
    with its checkpoint advanced by one, whether or not the status thread could be spawned
    and however late it runs; so RUNNING is reported at most once, and nothing
    after STOPPED. The last report is the current status. *)
Theorem reports_in_order s :
  service_reachable late s → in_sequence (reports s) ∧ snd <$> last (reports s) = Some (status (current s)).
Proof.
  intros H%reachable_consistent. split; [apply H|]. destruct (cs_last _ H) as [l ->]. by rewrite last_snoc.
Qed.

(** The SCM sees progress: while a state is pending and its cap has not passed, the
    checkpoint last advanced, or the migration's last step renewed the cap, at most
    [CHECKPOINT_INTERVAL + STOP_POLL] and twice the thread's lateness ago, so under the ten
    seconds asked for unless that is more than two seconds; if there is a thread. *)
Theorem checkpoints_advance s :
  service_reachable late s → is_pending (state_of s) = true → now s - since (current s) < cap_of (state_of s) →
  thread s ≠ Unspawned →
  now s ≤ Z.max (ticked (current s) + CHECKPOINT_INTERVAL) (since (current s)) + STOP_POLL + 2 * late ∧
  (late ≤ 2000 → CHECKPOINT_INTERVAL + STOP_POLL + 2 * late < 10000).
Proof.
  intros H%reachable_consistent Hp Hc Hth. split; [|unfold CHECKPOINT_INTERVAL, STOP_POLL; lia].
  pose proof (cs_wait _ H) as Hw. pose proof (cs_due _ H Hp) as Hd. unfold in_time, looked, not_due, STOP_POLL in *.
  destruct (thread s) as [|from|until|] eqn:E; [done|lia|destruct Hd as (c & Hn & Hu & Hd); lia|].
  apply (cs_returned _ H) in E. rewrite E in Hp. done.
Qed.

(** *** A stop *)

Definition going (s : Service) : Prop := state_of s = SERVICE_START_PENDING ∨ state_of s = SERVICE_RUNNING.

(** A stop asked for by [t]: while it is not reported, the thread looks in time. *)
Definition stopping (t : Z) (s : Service) : Prop :=
  consistent s ∧ (going s → stop_requested s = true ∧
    match thread s with
    | AtTop from => from ≤ t + STOP_POLL + late | Waiting until => until ≤ t + STOP_POLL | _ => False end).

Lemma loop_top_going s s' : stop_requested s = true → loop_top 2 s = Some s' → ¬ going s'.
Proof.
  intros Hr. cbn [loop_top]. rewrite Hr. cbn [andb]. destruct (state_of s =? SERVICE_STOPPED) eqn:E1.
  { intros [= <-] [H|H]; apply Z.eqb_eq in E1; change (state_of (with_thread s Returned)) with (state_of s) in H;
      rewrite E1 in H; done. }
  destruct (_ || _) eqn:E2.
  - change (state_of (enter s SERVICE_STOP_PENDING 0)) with SERVICE_STOP_PENDING.
    change (SERVICE_STOP_PENDING =? SERVICE_STOPPED) with false.
    change ((SERVICE_STOP_PENDING =? SERVICE_START_PENDING) || (SERVICE_STOP_PENDING =? SERVICE_RUNNING)) with false.
    rewrite andb_false_r. intros E%(inj Some). subst s'. by intros [H|H].
  - intros [= <-] H. apply orb_false_iff in E2 as [E2%Z.eqb_neq E3%Z.eqb_neq]. by destruct H.
Qed.

Lemma after_wait_state s : state_of (after_wait s) = state_of s ∧ stop_requested (after_wait s) = stop_requested s ∧
  thread (after_wait s) = AtTop (now s) ∧ now (after_wait s) = now s.
Proof. unfold after_wait. repeat case_match; done. Qed.

Lemma stopping_step t s s' : service_step late s s' → stopping t s → stopping t s'.
Proof.
  intros Hs [Hc Hg]. split; [by eapply consistent_step|]. destruct Hs as [s|s|s|s control|s specific Hn|s s' from Ht Hl|s until Ht|s t' Hle Hu].
  - unfold progress. destruct (state_of s =? SERVICE_START_PENDING); exact Hg.
  - unfold running. destruct (state_of s =? SERVICE_START_PENDING) eqn:E; [|exact Hg]. apply Z.eqb_eq in E.
    destruct (Hg (or_introl E)) as [Hr _]. rewrite Hr. exact Hg.
  - intros H. split; [done|]. by apply Hg.
  - unfold control_handler. destruct (_ || _); [intros H; split; [done|]; by apply Hg|]. by destruct (_ =? _).
  - by intros [H|H].
  - intros H. exfalso. destruct (stop_requested s) eqn:Er; [by eapply loop_top_going|].
    revert Hl. cbn [loop_top]. rewrite Er. cbn [andb]. destruct (state_of s =? SERVICE_STOPPED); intros [= <-];
      destruct (Hg H) as [? _]; congruence.
  - destruct (after_wait_state s) as (E1 & E2 & E3 & E4). unfold going. rewrite E1, E2, E3. intros H.
    destruct (Hg H) as [Hr Hu]. split; [done|]. rewrite Ht in Hu. pose proof (cs_wait _ Hc) as Hw. unfold in_time in Hw.
    rewrite Ht in Hw. lia.
  - intros H. destruct (Hg H) as [Hr Hx]. split; [done|]. cbn. by destruct (thread s).
Qed.

(** Without the thread nothing but the run's RUNNING and the main function's STOPPED is
    reported. *)
Definition unattended (s0 s : Service) : Prop :=
  thread s = Unspawned ∧ stop_requested s = true ∧
  ((reports s = reports s0 ∧ state_of s = state_of s0) ∨
   (state_of s = SERVICE_STOPPED ∧ ∃ r, reports s = reports s0 ++ [r] ∧ dwCurrentState r.2 = SERVICE_STOPPED)).

Lemma unattended_step s0 s s' : service_step late s s' → unattended s0 s → unattended s0 s'.
Proof.
  intros Hs (Ht & Hr & H). destruct Hs as [s|s|s|s control|s specific Hn|s s' from Ht' Hl|s until Ht'|s t' Hle Hu].
  - unfold progress. by destruct (state_of s =? SERVICE_START_PENDING).
  - unfold running. rewrite Hr, andb_false_r. done.
  - done.
  - unfold control_handler. destruct (_ || _); [done|]. by destruct (_ =? _).
  - split; [done|]. split; [done|]. right. split; [done|]. destruct H as [[Hrep _]|[Hst _]]; [|done]. cbn.
    rewrite Hrep. eexists. split; [done|]. done.
  - congruence.
  - congruence.
  - done.
Qed.

(** C13 A stop is reported in time, if the status thread is there: once STOP, SHUTDOWN or
    the file log's failure has set the flag, whatever then happens, when more than
    [STOP_POLL] and twice the thread's lateness has passed the service is no longer
    starting or running to the SCM but STOP_PENDING or STOPPED: the handler sets the flag
    without the lock and may miss the thread's wait, which ends by itself. If the thread
    could not be spawned, which the main function lets pass, the stop is not reported:
    the SCM is told nothing more, and no checkpoint, until the main function's STOPPED. *)
Theorem stop_reported_in_time s s' :
  service_reachable late s → stop_requested s = true → rtc (service_step late) s s' →
  (thread s ≠ Unspawned → now s + STOP_POLL + 2 * late < now s' →
     state_of s' = SERVICE_STOP_PENDING ∨ state_of s' = SERVICE_STOPPED) ∧
  (thread s = Unspawned →
     (reports s' = reports s ∧ state_of s' = state_of s) ∨
     (state_of s' = SERVICE_STOPPED ∧ ∃ r, reports s' = reports s ++ [r] ∧ dwCurrentState r.2 = SERVICE_STOPPED)).
Proof.
  intros Hc%reachable_consistent Hr Hs. split.
  2: { intros Hth. assert (∀ s0, unattended s0 s → unattended s0 s') as Hu.
       { clear -Hs. intros s0. induction Hs as [s|s1 s2 s3 H1 _ IH]; [done|]. intros H. by eapply IH, unattended_step. }
       by apply (Hu s); split_and!; [done|done|left]. }
  intros Hth Ht.
  assert (stopping (now s) s) as H0.
  { split; [done|]. intros Hg. split; [done|]. pose proof (cs_wait _ Hc) as Hw. unfold in_time, STOP_POLL in *.
    destruct (thread s) eqn:E; [done|lia|lia|]. apply (cs_returned _ Hc) in E. destruct Hg as [Hg|Hg]; rewrite Hg in E; done. }
  assert (stopping (now s) s') as [Hc' Hg].
  { clear Ht. remember (now s) as t eqn:Et. clear Et Hc Hr Hth. induction Hs as [s|s1 s2 s3 H1 _ IH]; [done|].
    by eapply IH, stopping_step. }
  pose proof (cs_state _ Hc') as Hk. pose proof (cs_wait _ Hc') as Hw. unfold in_time in Hw.
  repeat (apply elem_of_cons in Hk as [E|Hk]); [by right| |by left| |by apply not_elem_of_nil in Hk].
  - destruct (Hg (or_introl E)) as [_ Hx]. destruct (thread s'); [done|lia|lia|done].
  - destruct (Hg (or_intror E)) as [_ Hx]. destruct (thread s'); [done|lia|lia|done].
Qed.
End Late.

(** ** One service *)

(** Started, running at two seconds, stopped at three and said so; the thread is up to ten
    milliseconds late. *)
Definition at_time (s : Service) (t : Z) : Service :=
  {| now := t; current := current s; stop_requested := stop_requested s; thread := thread s; reports := reports s |}.
Definition looped (s : Service) : Service := default s (loop_top 2 s).
Definition toy_waits : Service := at_time (looped (begun true 0)) 200.
Definition toy_stopping : Service := request_stop (running (looped (after_wait toy_waits))).2.
Definition toy_stopped : Service := at_time (looped (after_wait (at_time toy_stopping 455))) 710.

Lemma toy_waits_reachable : service_reachable 10 toy_waits.
Proof.
  exists true, 0. eapply rtc_l; [apply (thread_loops _ _ (looped (begun true 0)) 0); vm_compute; reflexivity|]. apply rtc_once.
  apply (time_passes _ (looped (begun true 0)) 200); vm_compute; discriminate.
Qed.

Lemma toy_stopping_reachable : service_reachable 10 toy_stopping.
Proof.
  destruct toy_waits_reachable as (spawned & at_ & H). exists spawned, at_. etrans; [exact H|].
  eapply rtc_l; [apply (thread_wakes _ toy_waits 250); vm_compute; reflexivity|].
  eapply rtc_l; [apply (thread_loops _ _ (looped (after_wait toy_waits)) 200); vm_compute; reflexivity|].
  eapply rtc_l; [apply says_running|]. apply rtc_once, asks_stop.
Qed.

Lemma toy_stopping_stopped : rtc (service_step 10) toy_stopping toy_stopped.
Proof.
  eapply rtc_l; [apply (time_passes _ toy_stopping 455); vm_compute; discriminate|].
  eapply rtc_l; [apply (thread_wakes _ (at_time toy_stopping 455) 450); vm_compute; reflexivity|].
  eapply rtc_l; [apply (thread_loops _ _ (looped (after_wait (at_time toy_stopping 455))) 455); vm_compute; reflexivity|].
  apply rtc_once, (time_passes _ (looped (after_wait (at_time toy_stopping 455))) 710); vm_compute; discriminate.
Qed.

Lemma reports_in_order_witness :
  in_sequence (reports toy_stopped) ∧
  dwCurrentState ∘ snd <$> reports toy_stopped = [SERVICE_START_PENDING; SERVICE_RUNNING; SERVICE_STOP_PENDING].
Proof.
  split; [|vm_compute; reflexivity]. refine (proj1 (reports_in_order 10 ltac:(lia) toy_stopped _)).
  destruct toy_stopping_reachable as (spawned & at_ & H). exists spawned, at_. etrans; [exact H|exact toy_stopping_stopped].
Defined.

Lemma checkpoints_advance_witness : now toy_waits ≤ Z.max (0 + CHECKPOINT_INTERVAL) 0 + STOP_POLL + 2 * 10.
Proof.
  refine (proj1 (checkpoints_advance 10 ltac:(lia) toy_waits toy_waits_reachable _ _ _)); [vm_compute; reflexivity..|done].
Defined.

(** With the thread; and without it, a minute after the stop, the SCM still has
    START_PENDING with its first checkpoint. *)
Definition toy_alone : Service := at_time (request_stop (begun false 0)) 60000.

Lemma stop_reported_in_time_witness :
  (state_of toy_stopped = SERVICE_STOP_PENDING ∨ state_of toy_stopped = SERVICE_STOPPED) ∧
  reports toy_alone = reports (begun false 0).
Proof.
  split.
  - apply (stop_reported_in_time 10 ltac:(lia) toy_stopping toy_stopped toy_stopping_reachable ltac:(vm_compute; reflexivity)
             toy_stopping_stopped); [done|]. vm_compute. reflexivity.
  - assert (service_reachable 10 (request_stop (begun false 0))) as Hr
      by (exists false, 0; apply rtc_once, asks_stop).
    destruct (proj2 (stop_reported_in_time 10 ltac:(lia) (request_stop (begun false 0)) toy_alone Hr eq_refl
                (rtc_once _ _ (time_passes _ (request_stop (begun false 0)) 60000 ltac:(vm_compute; discriminate) I))) eq_refl)
      as [[H _]|[H _]]; [exact H|vm_compute in H; discriminate H].
Defined.
