(* ===== verification/MigrationChecks.v ===== *)
(** * The migration's data and pure checks ([service/migration.rs])

    The start arguments, the record [migration.json], who the migration trusts, and
    what it checks of the bytes it has read: the legacy configuration, the trust
    anchor and the identity, with the configuration and the anchor it generates. The
    [toml], [pem] and [serde_json] crates, RFC 3339 parsing and Windows' host name are
    parameters. A [BTreeSet] is a set, iterated in its order. *)

From stdpp Require Import sorting.
From S2P Require Import Prelude FileTree IpAddr Types Errors Network Config Signing Tls TlsConfig X509.
From S2P Require Import Transport Enrollment Identity Custody CustodyTree Installed Service.
Open Scope Z_scope.

Definition DEFAULT_REFUSAL : string :=
  "the data directory holds a console installation's identity files: migrate them before removing anything".

Definition CONFIG : string := "agent.toml".
Definition ANCHOR : string := "server-ca.pem".
Definition CERT : string := "cert.pem".
Definition KEY : string := "key.dat".
Definition IDENTITY : string := "identity.json".
Definition IDENTITY_DIRECTORY : string := "identity".
Definition TEMPORARY : string := "agent.toml.hygiene-tmp".
Definition RECORD : string := "migration.json".
Definition RECORD_TEMPORARY : string := "migration.json.rewrite-tmp".
Definition REQUIRED : list string := [CONFIG; ANCHOR; CERT; KEY; IDENTITY].
Definition READ_LIMIT : Z := 16 * 1024 * 1024.
Definition IDENTITY_FILES : list string := [CERT; KEY; IDENTITY].

Definition REPAIR_ENTRY : string :=
  "repair: an administrator who has checked that it is not the agent's removes it".
Definition REPAIR_LINK : string :=
  "repair: an administrator gives it owner SYSTEM and a protected DACL for SYSTEM and Administrators, so that no one else can link it again, then removes its other names".
Definition REPAIR_OWNER : string :=
  "repair: after a restart, before that account signs in again, an elevated administrator of another account who has checked that the owner is the account that set up or enrolled the agent makes Administrators its owner, and gives a directory SYSTEM and Administrators alone, then starts the migration again; an owner that cannot be so confirmed means enrolling anew".
Definition REPAIR_TEMPORARY : string :=
  "repair: an administrator deletes it, since it holds at most a consumed token".
Definition REPAIR_ANEW : string :=
  "repair: an administrator keeps the files aside, removes the CyberGuard directory and installs anew with a new token, the old agent removed on the server".

(** ** The start arguments *)

Inductive Choice := Remove | Keep.

#[export] Instance Choice_eq_dec : EqDecision Choice.
Proof. solve_decision. Defined.

Record Request := { rq_choice : Choice; rq_fingerprints : gset string }.

Definition invalid_arguments (reason : string) : string := "cg-agent: invalid migration arguments: " +:+ reason.

Definition is_fingerprint (value : string) : bool :=
  match strip_prefix "sha256:" value with
  | Some digits =>
      (String.length digits =? 64)%nat && forallb_str (λ b, is_ascii_digit b || is_lower_hex_letter b) digits
  | None => false
  end.

(** The value of [--migrate-legacy]. *)
Definition parse_choice (value : string) : Result Choice string :=
  if decide (value = "remove") then Ok Remove
  else if decide (value = "keep") then Ok Keep
  else Err (invalid_arguments "--migrate-legacy is not remove or keep").

(** The loop over the arguments. *)
Fixpoint parse_loop (arguments : list string) (choice : option Choice) (fingerprints : gset string)
  : Result (option Choice * gset string) string :=
  match arguments with
  | [] => Ok (choice, fingerprints)
  | argument :: arguments =>
      match strip_prefix "--migrate-legacy=" argument with
      | Some value =>
          let? parsed := parse_choice value in
          if is_some choice then Err (invalid_arguments "--migrate-legacy is given more than once")
          else parse_loop arguments (Some parsed) fingerprints
      | None =>
          match strip_prefix "--trust-anchor-sha256=" argument with
          | Some value =>
              if negb (is_fingerprint value)
              then Err (invalid_arguments "--trust-anchor-sha256 is not sha256: and 64 lowercase hexadecimal digits")
              else parse_loop arguments choice ({[value]} ∪ fingerprints)
          | None =>
              Err (invalid_arguments "a start argument is neither --migrate-legacy nor --trust-anchor-sha256")
          end
      end
  end.

Definition parse_start_arguments (arguments : list string) : Result (option Request) string :=
  match arguments with
  | [] => Ok None
  | _ =>
      let? (choice, fingerprints) := parse_loop arguments None ∅ in
      match choice with
      | None => Err (invalid_arguments "--trust-anchor-sha256 is given without --migrate-legacy")
      | Some choice =>
          if decide (fingerprints = ∅)
          then Err (invalid_arguments "--migrate-legacy is given without --trust-anchor-sha256")
          else Ok (Some {| rq_choice := choice; rq_fingerprints := fingerprints |})
      end
  end.

(** ** The record *)

(** [Record] of the source. *)
Record MigrationRecord := {
  mr_choice : Choice;
  mr_fingerprints : list string;
  mr_agent_id : string;
  mr_key_fingerprint : string;
  mr_enrolling_account : option string;
  mr_files : gmap string string;
  mr_reversal_pending : bool;
  mr_copies_not_reached : list string;
}.

#[export] Instance MigrationRecord_eq_dec : EqDecision MigrationRecord.
Proof. solve_decision. Defined.

Definition asks_for (record : MigrationRecord) (request : Request) : bool :=
  bool_decide (mr_choice record = rq_choice request)
  && bool_decide (list_to_set (mr_fingerprints record) = rq_fingerprints request).

Definition with_reversal (r : MigrationRecord) (pending : bool) : MigrationRecord :=
  {| mr_choice := mr_choice r; mr_fingerprints := mr_fingerprints r; mr_agent_id := mr_agent_id r;
     mr_key_fingerprint := mr_key_fingerprint r; mr_enrolling_account := mr_enrolling_account r;
     mr_files := mr_files r; mr_reversal_pending := pending; mr_copies_not_reached := mr_copies_not_reached r |}.

Definition with_not_reached (r : MigrationRecord) (l : list string) : MigrationRecord :=
  {| mr_choice := mr_choice r; mr_fingerprints := mr_fingerprints r; mr_agent_id := mr_agent_id r;
     mr_key_fingerprint := mr_key_fingerprint r; mr_enrolling_account := mr_enrolling_account r;
     mr_files := mr_files r; mr_reversal_pending := mr_reversal_pending r; mr_copies_not_reached := l |}.

(** A [BTreeSet] of strings in its order. *)
Definition string_le (a b : string) : Prop := String.leb a b = true.
#[export] Instance string_le_dec a b : Decision (string_le a b).
Proof. unfold string_le. apply _. Defined.

Definition in_order (s : gset string) : list string := merge_sort string_le (elements s).

(** [serde_json] on the record and on [identity.json] as bytes. *)
Class MigrationJson := {
  record_to_vec_pretty : MigrationRecord → Result bytes string;
  record_from_slice : bytes → option MigrationRecord;
  identity_from_slice : bytes → option PersistedIdentity;
}.

(** What is written parses back, a part of it does not, and the two readers of
    [identity.json] agree on text: the one of bytes does not look at the encoding of a
    string value it ignores, the one of text has it from [read_to_string]. *)
Class MigrationJsonLaws (J : IdentityJson) (M : MigrationJson) : Prop := {
  record_writes : ∀ r, ∃ b, record_to_vec_pretty r = Ok b;
  record_round_trip : ∀ r b, record_to_vec_pretty r = Ok b → record_from_slice b = Some r;
  record_torn : ∀ r b n, record_to_vec_pretty r = Ok b → (n < length b)%nat → record_from_slice (take n b) = None;
  identity_slice_text : ∀ b p, identity_from_slice b = Some p → valid_utf8 b = true →
    identity_from_str (text_of_bytes b) = Ok p;
}.

(** ** Custody *)

Record MigrationCustody := {
  mc_service : Principal;
  mc_owners : list Principal;
  mc_trusted : list Principal;
  mc_configuration : Policy;
  mc_identity : Policy;
  mc_closed_directory_sddl : string;
  mc_shared_file_sddl : string;
  mc_identity_directory_sddl : string;
  mc_identity_file_sddl : string;
}.

Definition PRIVATE_DIRECTORY : string := "O:SYD:P(A;OICI;FA;;;SY)(A;OICI;FA;;;BA)".

Definition migration_custody_system : MigrationCustody :=
  let both := [System; Administrators] in
  {| mc_service := System; mc_owners := both; mc_trusted := both; mc_configuration := configuration;
     mc_identity := system_only; mc_closed_directory_sddl := PRIVATE_DIRECTORY;
     mc_shared_file_sddl := "O:SYD:P(A;;FA;;;SY)(A;;FA;;;BA)";
     mc_identity_directory_sddl := DIRECTORY_SDDL; mc_identity_file_sddl := FILE_SDDL |}.

(** ** Names *)

(** The product's name for an entry of the data root. *)
Definition known_name (entry : string) : option string :=
  find (λ name, eq_ignore_ascii_case name entry) (REQUIRED ++ [TEMPORARY]).

(** [configured.replace('/', "\\")]. *)
Fixpoint with_backslashes (s : string) : string :=
  match s with
  | EmptyString => EmptyString
  | String c s' => String (if decide (c = slash) then backslash else c) (with_backslashes s')
  end.

Definition is_console_path (configured fixed : string) : bool :=
  eq_ignore_ascii_case fixed (with_backslashes configured).

(** ** What was read *)

Section Checks.
Context {W : WireCrypto} {K : KeyBytes W} {St : SecureStore} {J : IdentityJson} {M : MigrationJson}.
Context (toml_value : string → Result Toml TomlError) (toml_config : string → Result AgentConfig TomlError).
Context (toml_to_string : Toml → Result string string).
Context (pem_certificates : bytes → list (Result bytes PemError)).
(** [pem::encode_many_config] of CERTIFICATE blocks with LF; RFC 3339 as an instant. *)
Context (pem_encode : list bytes → string) (parse_rfc3339 : string → option Z).

(** The loop over the console paths. *)
Fixpoint check_console_paths (invalid : string → string) (data_root : string)
    (l : list (string * string * string)) : Result unit string :=
  match l with
  | [] => Ok tt
  | (key, configured, name) :: l =>
      if is_console_path configured (join_path data_root name) then check_console_paths invalid data_root l
      else Err (invalid (key +:+ " is not the console layout's path in the data root"))
  end.

Definition console_paths (config : AgentConfig) (enr : EnrollmentConfig) : list (string * string * string) :=
  [("server.trust_anchor_path", default "" (trust_anchor_path (Config.server config)), ANCHOR);
   ("enrollment.cert_path", cert_path enr, CERT);
   ("enrollment.key_path", key_path enr, KEY);
   ("enrollment.identity_path", identity_path enr, IDENTITY)].

Definition check_legacy_config (paths : InstalledPaths) (b : bytes) : Result string string :=
  let path := config_file paths in
  let invalid reason := "cg-agent: invalid config " +:+ path +:+ ": " +:+ reason in
  if negb (valid_utf8 b) then Err (invalid "the file is not UTF-8") else
  let text := text_of_bytes b in
  let? config := map_err (config_error_line path) (load_from_str toml_value toml_config text) in
  let? document := map_err (λ _, invalid "the file is not valid TOML") (toml_value text) in
  if is_some (toml_get "setup" document) then Err (invalid "a console configuration holds no setup table") else
  let? enr := ok_or (enrollment config) (invalid "the migration requires [enrollment]") in
  try? check_console_paths invalid (data_root paths) (console_paths config enr) in
  match heartbeat_url (Config.server config) with
  | Some url => if starts_with "https://" url then Ok text
                else Err (invalid "the migration requires an https server.heartbeat_url: add it before migrating")
  | None => Err (invalid "the migration requires an https server.heartbeat_url: add it before migrating")
  end.

Definition fingerprint (der : bytes) : string := "sha256:" +:+ pubkey_fingerprint der.

(** The loop over the certificates of the anchor. *)
Fixpoint distinct_certificates (certificates : list (Result bytes PemError)) (distinct : list bytes)
  : Result (list bytes) string :=
  match certificates with
  | [] => Ok distinct
  | certificate :: certificates =>
      let? der := map_err (λ _, "server-ca.pem cannot be read") certificate in
      distinct_certificates certificates (if decide (der ∈ distinct) then distinct else distinct ++ [der])
  end.

Definition check_anchor (b : bytes) (expected : gset string) : Result (list bytes) string :=
  let? distinct := distinct_certificates (pem_certificates b) [] in
  if decide (list_to_set (fingerprint <$> distinct) = expected) then Ok distinct
  else Err "the certificates of server-ca.pem are not exactly those of the fingerprints given".

Definition check_identity (now : Z) (recorded : option MigrationRecord) (sealed certificate identity : bytes)
  : Result (string * string) string :=
  let? persisted := ok_or (identity_from_slice identity) (IDENTITY +:+ " does not parse; " +:+ REPAIR_ANEW) in
  let? secret := map_err (λ _, KEY +:+ " does not unseal with this machine's key; " +:+ REPAIR_ANEW)
                   (unseal sealed) in
  if negb (length secret =? KEY_LEN)%nat then Err (KEY +:+ " does not hold an Ed25519 seed; " +:+ REPAIR_ANEW) else
  let public_key := public_key_bytes (from_secret_bytes secret) in
  let key_fingerprint := pubkey_fingerprint public_key in
  if negb (bool_decide (key_fingerprint = pi_agent_pubkey_fingerprint persisted))
  then Err (KEY +:+ " is not the key " +:+ IDENTITY +:+ " names; " +:+ REPAIR_ANEW) else
  if match recorded with
     | Some record => negb (bool_decide (mr_key_fingerprint record = key_fingerprint))
                      || negb (bool_decide (mr_agent_id record = pi_agent_id persisted))
     | None => false
     end
  then Err ("the identity is not the one the migration recorded; " +:+ REPAIR_ANEW) else
  if negb (valid_utf8 certificate) then Err (CERT +:+ " is not a PEM document; " +:+ REPAIR_ANEW) else
  let text := text_of_bytes certificate in
  let? certificates := map_err (λ e, CERT +:+ ": " +:+ e +:+ "; " +:+ REPAIR_ANEW)
                         (certificates_in pem_certificates text) in
  if negb (length certificates =? 1)%nat then Err (CERT +:+ " does not hold one certificate; " +:+ REPAIR_ANEW) else
  try? map_err (λ e, CERT +:+ ": " +:+ e +:+ "; " +:+ REPAIR_ANEW)
         (check_consistency pem_certificates text public_key (pi_agent_id persisted)) in
  let? expires_at := ok_or (parse_rfc3339 (pi_expires_at persisted))
                       (IDENTITY +:+ "'s expires_at does not parse; " +:+ REPAIR_ANEW) in
  if expires_at <=? now then Err ("the identity has expired; " +:+ REPAIR_ANEW)
  else Ok (pi_agent_id persisted, key_fingerprint).

(** ** What is generated *)

(** [table.insert(k, v)] of a map in the order of its keys. *)
Fixpoint insert_key (k : string) (v : Toml) (l : list (string * Toml)) : list (string * Toml) :=
  match l with
  | [] => [(k, v)]
  | (k', v') :: l' =>
      if decide (k' = k) then (k, v) :: l'
      else if String.ltb k k' then (k, v) :: l
      else (k', v') :: insert_key k v l'
  end.

(** [table_of] with what is done to the table it returns. *)
Fixpoint update_member (name : string) (f : list (string * Toml) → list (string * Toml))
    (l : list (string * Toml)) : option (list (string * Toml)) :=
  match l with
  | [] => None
  | (k, v) :: l' =>
      if decide (k = name) then match v with TTable t => Some ((k, TTable (f t)) :: l') | _ => None end
      else match update_member name f l' with Some r => Some ((k, v) :: r) | None => None end
  end.

Definition table_of (document : Toml) (name : string) (f : list (string * Toml) → list (string * Toml))
  : Result Toml string :=
  match document with
  | TTable l => ok_or (TTable <$> update_member name f l) ("the legacy configuration lacks [" +:+ name +:+ "]")
  | _ => Err ("the legacy configuration lacks [" +:+ name +:+ "]")
  end.

Definition generated_config (paths : InstalledPaths) (hostname : Result string string) (legacy : string)
  : Result string string :=
  let? document := map_err (λ _, "the legacy configuration is not valid TOML") (toml_value legacy) in
  let? hostname := hostname in
  let? document := table_of document "server" (insert_key "trust_anchor_path" (TString (trust_anchor paths))) in
  let? document := table_of document "agent" (insert_key "hostname" (TString hostname)) in
  let? document := table_of document "enrollment" (λ t,
    insert_key "identity_path" (TString (identity paths))
      (insert_key "key_path" (TString (key paths))
        (insert_key "cert_path" (TString (cert paths)) (remove_key "token" t)))) in
  map_err (λ _, "the configuration cannot be written") (toml_to_string document).

Definition anchor_pem (certificates : list bytes) : string := pem_encode certificates.

End Checks.
