(* ===== verification/LogFile.v ===== *)
(** * The service's log file ([service/log_file.rs])

    The directories above the log, made with their final security or checked, and the
    opener the rotation of [Rotation.v] calls for each active file, over the store of
    [Custody.v]. The rotation itself runs over its own view of the log directory, names
    with texts; [open_log_file] is its opener. *)

From S2P Require Import Prelude FileTree IpAddr Types Errors Ring Dispatch Logon Paths Emit Rotation.
From S2P Require Import Network Config Signing Tls TlsConfig X509 Transport Enrollment Identity.
From S2P Require Import Custody Installed Service MigrationChecks.
Open Scope Z_scope.

Definition LOG_DIRECTORY : string := "O:SYD:P(A;OICI;FA;;;SY)(A;OICI;FR;;;BA)".
Definition LOG_FILE : string := "O:SYD:P(A;;FA;;;SY)(A;;FR;;;BA)".

Section LogFile.
Context {Sec : Win32Security}.

(** [CreateFileW] with [OPEN_ALWAYS]: the object and whether it was there, which the
    last error then says. A directory is not opened so. *)
Definition open_always (path : string) (d : Descriptor) : CM (Object * bool) Z :=
  call? f := call_fault in
  match f with
  | Some f => cerr (win32_error f)
  | None => λ w,
      match objects w !! path_key path with
      | Some o => (if is_directory (info o) then Err ERROR_ACCESS_DENIED else Ok (o, true), w)
      | None =>
          if parent_there (objects w) (path_key path) then
            let o := new_object false (file_name path) d (default (0, 0, 0) (head (new_ids w))) in
            (Ok (o, false),
             {| objects := <[path_key path := o]> (objects w); call_faults := call_faults w;
                wait_faults := wait_faults w; new_ids := tail (new_ids w) |})
          else (Err ERROR_PATH_NOT_FOUND, w)
      end
  end.

(** [nFileSizeHigh] and [nFileSizeLow], each a [u32], put together. *)
Definition file_size (o : Object) : Z :=
  let n := Z.of_nat (length (contents o)) in
  Z.lor (Z.shiftl (wrap_u 32 (Z.shiftr n 32)) 32) (wrap_u 32 n).

Definition open_log_file (path : string) : CM Z string :=
  call? d := cof (from_sddl LOG_FILE) in
  call? (h, existed) := cmap_err (λ e, "open " +:+ path +:+ ": Win32 error " +:+ dec e) (open_always path d) in
  call? i := file_information path h in
  if reparse_point i || is_directory i then cerr (path +:+ " is not a regular file")
  else if negb (links i =? 1) then cerr (path +:+ " is hard-linked")
  else
    (if existed : bool then check_security h path shared else cret tt) ;;~
    cret (file_size h).

(** The log directory, with each directory above it. *)
Definition log_directories (program_data : string) : CM string string :=
  let product := join_path program_data "CyberGuard" in
  let agent := join_path product "agent" in
  let logs := join_path agent "logs" in
  ensure_directory product PRIVATE_DIRECTORY shared ;;~
  ensure_directory agent PRIVATE_DIRECTORY shared ;;~
  ensure_directory logs LOG_DIRECTORY shared ;;~
  cret logs.

(** [log_file::open], over the store and the rotation's view of the log directory. *)
Definition open_log (program_data : Result string string) (c : CustodyWorld) (r : Rotation.World)
  : Result unit string * CustodyWorld * Rotation.World :=
  let '(dirs, c') := (call? root := cof program_data in log_directories root) c in
  match dirs with
  | Err e => (Err e, c', r)
  | Ok _ => let '(opened, r') := log_open r in (opened, c', r')
  end.

(** ** Lemmas *)

Lemma file_size_wraps o : file_size o = wrap_u 64 (Z.of_nat (length (contents o))).
Proof.
  unfold file_size, wrap_u. set (n := Z.of_nat _).
  apply Z.bits_inj'. intros i Hi. rewrite Z.lor_spec.
  destruct (Z.ltb_spec i 32).
  - rewrite Z.shiftl_spec_low, !Z.mod_pow2_bits_low by lia. done.
  - rewrite Z.shiftl_spec by lia. rewrite (Z.mod_pow2_bits_high n 32) by lia. rewrite orb_false_r.
    destruct (Z.ltb_spec i 64).
    + rewrite !Z.mod_pow2_bits_low, Z.shiftr_spec by lia. f_equal. lia.
    + rewrite !Z.mod_pow2_bits_high by lia. done.
Qed.

Lemma open_always_run path d w :
  match open_always path d w with
  | (Ok (o, true), w') => objects w !! path_key path = Some o ∧ objects w' = objects w
  | (Ok (o, false), w') =>
      objects w !! path_key path = None ∧ objects w' = <[path_key path := o]> (objects w) ∧
      ∃ id, o = new_object false (file_name path) d id
  | (Err _, w') => objects w' = objects w
  end.
Proof.
  unfold open_always, cbind, call_fault. destruct (call_faults w) as [|[f|] l]; cbn; [|done|];
    (destruct (objects w !! path_key path) as [o|] eqn:E; [by destruct (is_directory (info o))|]);
    destruct (parent_there _ _); cbn; try done; split_and!; eauto.
Qed.

(** A directory made or checked: there, a directory, its security the SDDL's or in the
    policy's custody. *)
Definition ensured (sddl : string) (policy : Policy) (m : gmap Path Object) (path : string) : Prop :=
  ∃ o, m !! path_key path = Some o ∧ shape_ok Directory (info o) ∧
    (from_sddl sddl = Ok (descriptor o) ∨ descriptor_ok policy (descriptor o)).

Lemma ensure_directory_ok path sddl policy w w' :
  ensure_directory path sddl policy w = (Ok tt, w') → ensured sddl policy (objects w') path.
Proof.
  unfold ensure_directory, cbind, cof. destruct (from_sddl sddl) as [d|] eqn:Ed; [|done].
  pose proof (create_new_run true ERROR_ALREADY_EXISTS path d w) as Hc.
  destruct (create_new _ _ path d w) as [[[]|e] w1]; [destruct Hc as [Hn [id Hc]]|destruct (e =? _); [|done]].
  - intros [= <-]. unfold ensured. rewrite Hc, lookup_insert_eq. eexists. split_and!; [done|done|by left].
  - intros H. pose proof (check_inspects path Directory policy w1) as Hi. rewrite H in Hi. cbn in Hi.
    unfold check in H. apply cbind_ok in H as (b & w2 & Hb & H). apply check_if_exists_sound in Hb.
    destruct b; [|done]. destruct Hb as (o & Ho & Hs & Hd). exists o. rewrite <- Hi. auto.
Qed.

Lemma ensure_directory_keeps path sddl policy w k o :
  objects w !! k = Some o → objects (ensure_directory path sddl policy w).2 !! k = Some o.
Proof.
  pose proof (ensure_directory_run path sddl policy w) as H.
  destruct (ensure_directory path sddl policy w) as [r w']. cbn [snd].
  destruct H as [->|(Hn & d & id & _ & ->)]; [done|]. intros Ho.
  rewrite lookup_insert_ne; [done|]. intros E. congruence.
Qed.

Lemma ensured_kept path sddl policy sddl' policy' path' w :
  ensured sddl' policy' (objects w) path' → ensured sddl' policy' (objects (ensure_directory path sddl policy w).2) path'.
Proof. intros (o & Ho & H). exists o. by split; [apply ensure_directory_keeps|]. Qed.

Lemma log_directories_run program_data w :
  let product := join_path program_data "CyberGuard" in
  let agent := join_path product "agent" in
  let logs := join_path agent "logs" in
  (∀ k o, objects w !! k = Some o → objects (log_directories program_data w).2 !! k = Some o) ∧
  ∀ dir, (log_directories program_data w).1 = Ok dir →
    let m := objects (log_directories program_data w).2 in
    dir = logs ∧ ensured PRIVATE_DIRECTORY shared m product ∧ ensured PRIVATE_DIRECTORY shared m agent ∧
    ensured LOG_DIRECTORY shared m logs.
Proof.
  intros product agent logs. unfold log_directories. fold product. fold agent. fold logs. unfold cbind.
  pose proof (ensure_directory_keeps product PRIVATE_DIRECTORY shared w) as K1.
  pose proof (ensure_directory_ok product PRIVATE_DIRECTORY shared w) as E1.
  destruct (ensure_directory product _ _ w) as [[[]|] w1]; cbn [fst snd] in *; [|by split].
  pose proof (ensure_directory_keeps agent PRIVATE_DIRECTORY shared w1) as K2.
  pose proof (ensure_directory_ok agent PRIVATE_DIRECTORY shared w1) as E2.
  pose proof (ensured_kept agent PRIVATE_DIRECTORY shared PRIVATE_DIRECTORY shared product w1 (E1 _ eq_refl)) as P1.
  destruct (ensure_directory agent _ _ w1) as [[[]|] w2]; cbn [fst snd] in *; [|split; [auto|done]].
  pose proof (ensure_directory_keeps logs LOG_DIRECTORY shared w2) as K3.
  pose proof (ensure_directory_ok logs LOG_DIRECTORY shared w2) as E3.
  pose proof (ensured_kept logs LOG_DIRECTORY shared PRIVATE_DIRECTORY shared product w2 P1) as P2.
  pose proof (ensured_kept logs LOG_DIRECTORY shared PRIVATE_DIRECTORY shared agent w2 (E2 _ eq_refl)) as P3.
  destruct (ensure_directory logs _ _ w2) as [[[]|] w3]; cbn [fst snd cret] in *; [|split; [auto|done]].
  split; [auto|]. intros dir [= <-]. auto.
Qed.

Lemma open_log_file_run path w :
  (∀ k o, objects w !! k = Some o → objects (open_log_file path w).2 !! k = Some o) ∧
  ∀ n, (open_log_file path w).1 = Ok n → ∃ o,
    objects (open_log_file path w).2 !! path_key path = Some o ∧ shape_ok File (info o) ∧
    n = wrap_u 64 (Z.of_nat (length (contents o))) ∧
    match objects w !! path_key path with
    | None => from_sddl LOG_FILE = Ok (descriptor o) ∧ contents o = []
    | Some before => o = before ∧ objects (open_log_file path w).2 = objects w ∧ descriptor_ok shared (descriptor o)
    end.
Proof.
  destruct (open_log_file path w) as [r w2] eqn:E. cbn [fst snd]. unfold open_log_file in E.
  unfold cbind at 1, cof in E. destruct (from_sddl LOG_FILE) as [d|] eqn:Ed; [|injection E as <- <-; by split].
  unfold cbind at 1, cmap_err in E. pose proof (open_always_run path d w) as Ho.
  destruct (open_always path d w) as [[[o existed]|e] w1]; cbn [map_err] in E; cycle 1.
  { injection E as <- <-. rewrite Ho. by split. }
  assert (∀ k o', objects w !! k = Some o' → objects w1 !! k = Some o') as Hk.
  { destruct existed; [by destruct Ho as [_ ->]|]. destruct Ho as (Hn & -> & _). intros k o' Hw.
    rewrite lookup_insert_ne; [done|congruence]. }
  assert (objects w1 !! path_key path = Some o) as H1.
  { destruct existed; [by destruct Ho as [? ->]|]. destruct Ho as (_ & -> & _). by rewrite lookup_insert_eq. }
  match type of E with cbind ?m ?f w1 = _ => set (rest := cbind m f) in E end.
  assert (inspects rest) as Hi.
  { unfold rest. apply (changes_bind _); [apply (inspects_win32 _ (λ _, info o))|]. intros i.
    repeat case_match; try done; (apply (changes_bind _); [apply check_security_inspects|done]). }
  specialize (Hi w1). rewrite E in Hi. cbn [snd] in Hi. rewrite <- Hi. split; [exact Hk|]. intros n ->.
  rename E into Er. unfold rest in Er.
  apply cbind_ok in Er as (i & w3 & Hinfo & Er). apply win32_ok in Hinfo as (_ & u & _ & ->).
  destruct (reparse_point (info o)) eqn:R1, (is_directory (info o)) eqn:R2; try done. cbn [orb] in Er.
  destruct (Z.eqb_spec (links (info o)) 1); [|done]. cbn [negb] in Er.
  apply cbind_ok in Er as ([] & w4 & Hs & Er). injection Er as <- _.
  exists o. rewrite file_size_wraps. split_and!; [done|by split_and!|done|].
  destruct existed.
  - destruct Ho as [-> ->]. split_and!; [done..|]. by eapply check_security_sound.
  - destruct Ho as (-> & _ & id & ->). done.
Qed.

(** ** The opener *)

(** C15 The service writes its log only where no other principal can redirect it:
    whatever the calls of the directories and of the opener meet, when both succeed each
    directory down to the log's is a directory, not a reparse point, with the security
    it was made with or one that admits SYSTEM and Administrators alone; the file is
    regular, with one link, and either was not there and has the log file's security
    and nothing in it, or is the one that was there, unchanged and in the same custody;
    the size is its length, on 64 bits. No object that was there is changed or removed,
    whether they succeed or not. *)
Theorem log_file_in_custody program_data name w :
  let product := join_path program_data "CyberGuard" in
  let agent := join_path product "agent" in
  let logs := join_path agent "logs" in
  let '(dirs, w1) := log_directories program_data w in
  let '(opened, w2) := open_log_file (join_path logs name) w1 in
  (∀ k o, objects w !! k = Some o → objects w1 !! k = Some o ∧ objects w2 !! k = Some o) ∧
  (∀ dir, dirs = Ok dir →
     dir = logs ∧ ensured PRIVATE_DIRECTORY shared (objects w1) product ∧
     ensured PRIVATE_DIRECTORY shared (objects w1) agent ∧ ensured LOG_DIRECTORY shared (objects w1) logs) ∧
  (∀ n, opened = Ok n → ∃ o,
     objects w2 !! path_key (join_path logs name) = Some o ∧ shape_ok File (info o) ∧
     n = wrap_u 64 (Z.of_nat (length (contents o))) ∧
     match objects w1 !! path_key (join_path logs name) with
     | None => from_sddl LOG_FILE = Ok (descriptor o) ∧ contents o = []
     | Some before => o = before ∧ objects w2 = objects w1 ∧ descriptor_ok shared (descriptor o)
     end).
Proof.
  intros product agent logs. destruct (log_directories_run program_data w) as [K1 H1].
  destruct (log_directories program_data w) as [dirs w1]. cbn [fst snd] in *.
  destruct (open_log_file_run (join_path logs name) w1) as [K2 H2].
  destruct (open_log_file (join_path logs name) w1) as [opened w2]. cbn [fst snd] in *. eauto 10.
Qed.
End LogFile.
