(* ===== verification/MigrationRun.v ===== *)
(** * The migration ([service/migration.rs])

    [prepare], which a start of the service runs before it reads the configuration,
    and [copies], which runs after the service is up, over the store of [Custody.v].
    The world also carries what the watcher answers at each point, what the standard
    library's reads meet, and what was done in order. An error that reads the objects
    to say what was restricted is an operation of its own ([in_place]). Logging is left
    out. *)

From stdpp Require Import sorting.
From S2P Require Import Prelude FileTree IpAddr Types Errors Network Config Signing Tls TlsConfig X509.
From S2P Require Import Transport Enrollment Identity Custody CustodyTree Installed Service MigrationChecks.
Open Scope Z_scope.

(** ** Points, stops and the world *)

Inductive Point :=
| CloseProductRoot
| CloseDataRoot
| DeleteInterruptedStaging
| CheckFile (name : string)
| ReadFile (name : string)
| RestrictFile (name : string)
| RestrictedFile (name : string)
| CreateStaging
| WriteRecord
| Stage (name : string)
| CheckStaged
| FirstRename
| SecondRename
| RecordReversal
| RenameBack
| ClearReversal
| CompleteCommit
| RestrictLegacyDirectory
| CopyFile (name : string)
| RemoveLegacyDirectory
| RewriteRecord.

Inductive Injected := Failure (reason : string) | Crash.

Inductive Stop :=
| StartRefused (code : Z) (line : string)
| Crashed.

Inductive Prepared := Plain | ConsoleLayout | Committed.

#[export] Instance Prepared_eq_dec : EqDecision Prepared.
Proof. solve_decision. Defined.

Record Environment := { me_paths : InstalledPaths; me_custody : MigrationCustody; me_now : Z }.

Inductive MigrationAction := At (point : Point) | TakeLock.

Record MigrationWorld := {
  mfs : CustodyWorld;
  watch_answers : list (option Injected);
  std_reads : list (option IoFault);
  actions : list MigrationAction;
}.

Definition with_fs (w : MigrationWorld) (c : CustodyWorld) : MigrationWorld :=
  {| mfs := c; watch_answers := watch_answers w; std_reads := std_reads w; actions := actions w |}.

Definition MM (A E : Type) : Type := MigrationWorld → Result A E * MigrationWorld.
Definition mret {A E} (a : A) : MM A E := λ w, (Ok a, w).
Definition merr {A E} (e : E) : MM A E := λ w, (Err e, w).
Definition mof {A E} (r : Result A E) : MM A E := λ w, (r, w).
Definition mbind {A B E} (m : MM A E) (f : A → MM B E) : MM B E :=
  λ w, let '(r, w') := m w in match r with Ok a => f a w' | Err e => (Err e, w') end.
(** [m.map_err(h)?] where [h] acts, and where it does not. *)
Definition mcatch {A E F} (m : MM A E) (h : E → MM A F) : MM A F :=
  λ w, let '(r, w') := m w in match r with Ok a => (Ok a, w') | Err e => h e w' end.
Definition mmap_err {A E F} (f : E → F) (m : MM A E) : MM A F :=
  λ w, let '(r, w') := m w in (map_err f r, w').
(** The result as a value. *)
Definition mtry {A E F} (m : MM A E) : MM (Result A E) F :=
  λ w, let '(r, w') := m w in (Ok r, w').

Declare Scope migration_scope.
Notation "'do?' x ':=' m 'in' k" := (mbind m (λ x, k))
  (at level 10, x pattern, m at level 100, k at level 200) : migration_scope.
Notation "m ';;*' k" := (mbind m (λ _, k)) (at level 100, right associativity) : migration_scope.
Open Scope migration_scope.

(** An operation of [custody.rs]. *)
Definition fs {A E} (m : CM A E) : MM A E := λ w,
  let '(r, c) := m (mfs w) in (r, with_fs w c).

(** One where [?] converts its reason. *)
Definition fsi {A} (m : CM A string) : MM A Injected := mmap_err Failure (fs m).

(** One whose failure is a value. *)
Definition fs_or {A E} (d : A) (m : CM A string) : MM A E := λ w,
  let '(r, c) := m (mfs w) in (Ok (match r with Ok a => a | Err _ => d end), with_fs w c).

(** [watch.at(point)?]. *)
Definition at_point (p : Point) : MM unit Injected := λ w,
  let log := actions w ++ [At p] in
  match watch_answers w with
  | [] => (Ok tt, {| mfs := mfs w; watch_answers := []; std_reads := std_reads w; actions := log |})
  | a :: l => (match a with Some i => Err i | None => Ok tt end,
               {| mfs := mfs w; watch_answers := l; std_reads := std_reads w; actions := log |})
  end.

(** [lock()?]: [lock] is what taking the instance lock produced. *)
Definition take_lock (lock : Result unit Stop) : MM unit Stop := λ w,
  (lock, {| mfs := mfs w; watch_answers := watch_answers w; std_reads := std_reads w;
            actions := actions w ++ [TakeLock] |}).

(** ** Lines *)

Definition identity_line (reason : string) : string := enrollment_stderr_line (Persistence reason).
Definition anchor_line (reason : string) : string := tls_stderr_line (Errors.ClientConfig ("migration: " +:+ reason)).

(** [reason.contains(part)]. *)
Fixpoint contains (part s : string) : bool :=
  starts_with part s || match s with EmptyString => false | String _ s' => contains part s' end.

Definition naming (path : string) (cut : Injected) : Injected :=
  match cut with
  | Failure reason => if contains path reason then cut else Failure (path +:+ ": " +:+ reason)
  | Crash => Crash
  end.

(** ** Bits of an access mask *)

Definition WRITE_DAC : Z := 0x40000.
Definition WRITE_OWNER : Z := 0x80000.
Definition GENERIC_ALL : Z := 0x10000000.

Section Migration.
Context {W : WireCrypto} {K : KeyBytes W} {St : SecureStore} {J : IdentityJson} {M : MigrationJson}.
Context {Sec : Win32Security}.
Context (toml_value : string → Result Toml TomlError) (toml_config : string → Result AgentConfig TomlError).
Context (toml_to_string : Toml → Result string string).
Context (pem_certificates : bytes → list (Result bytes PemError)).
Context (pem_encode : list bytes → string) (parse_rfc3339 : string → option Z).
(** [custody::hostname]. *)
Context (hostname : Result string string).
Context (env : Environment).

#[local] Notation paths := (me_paths env).
#[local] Notation custody_of := (me_custody env).

Definition staged_record_path : string := join_path (staging paths) RECORD.
Definition in_data_root (name : string) : string := join_path (data_root paths) name.

(** Those of [l] that have the configuration's security. *)
Fixpoint restricted_of {E} (l : list (string * string)) : MM (list string) E :=
  match l with
  | [] => mret []
  | (path, shown) :: l =>
      do? secured := fs_or false (has_security path (mc_configuration custody_of)) in
      do? rest := restricted_of l in
      mret (if secured : bool then shown :: rest else rest)
  end.

Definition with_state {E} (line : string) : MM string E :=
  do? root_plain := fs_or false (is_plain_directory (product_root paths)) in
  do? plain := (if root_plain : bool then fs_or false (is_plain_directory (data_root paths)) else mret false) in
  do? directories := restricted_of
    ((product_root paths, product_root paths)
     :: (if root_plain then [(data_root paths, data_root paths)] else [])) in
  do? files := restricted_of
    (if plain : bool then (λ name, (in_data_root name, name)) <$> (REQUIRED ++ [TEMPORARY]) else []) in
  mret (match directories ++ files with
        | [] => line +:+ "; the console installation is in place, none of it restricted"
        | restricted => line +:+ "; the console installation is in place, restricted: " +:+ join ", " restricted
        end).

Definition in_place {A} (code : Z) (line : string) : MM A Stop :=
  do? stated := with_state line in merr (StartRefused code stated).

Definition cut_in_place {A} (code : Z) (render : string → string) (cut : Injected) : MM A Stop :=
  match cut with
  | Crash => merr Crashed
  | Failure reason => in_place code (render reason)
  end.

(** ** What is there *)

(** [ErrorKind::NotFound]. *)
Definition std_not_found (e : Z) : bool :=
  is_not_found e || (e =? 15) || (e =? 53) || (e =? 67).

Definition is_there {E} (path : string) : MM bool E := λ w,
  let '(r, c) := symlink_metadata path (mfs w) in
  (Ok (match r with Ok _ => true | Err f => negb (std_not_found (win32_error f)) end), with_fs w c).

Definition counts {E} (path : string) : MM bool E :=
  fs_or false (check_if_exists_within path Directory (mc_configuration custody_of)).

Definition staged_record : MM (option MigrationRecord) string := λ w,
  let '(r, c) := read_checked_within staged_record_path (mc_configuration custody_of) (mfs w) in
  (match r with
   | Ok (Some b) => Ok (record_from_slice b)
   | Ok None | Err (UnreadRefused _) => Ok None
   | Err (Unreadable reason) =>
       Err ("the migration's record cannot be read: " +:+ reason +:+ "; nothing was changed")
   end, with_fs w c).

Definition data_root_record : MM (option MigrationRecord) Stop :=
  let path := record paths in
  let invalid reason := StartRefused 2 ("cg-agent: invalid config " +:+ path +:+ ": " +:+ reason) in
  do? b := fs (cmap_err (λ u, match u with Unreadable r | UnreadRefused r => invalid r end)
                 (read_checked_within path (mc_configuration custody_of))) in
  match b with
  | None => mret None
  | Some b => match record_from_slice b with
              | Some r => mret (Some r)
              | None => merr (invalid "the record does not parse")
              end
  end.

Definition NOT_THE_RECORDED : string := "they are not the ones the migration in progress recorded".

Definition check_recorded (request : option Request) (r : MigrationRecord) : Result unit Stop :=
  match request with
  | Some request =>
      if asks_for r request then Ok tt else Err (StartRefused 2 (invalid_arguments NOT_THE_RECORDED))
  | None => Ok tt
  end.

Definition data_directories_policy : Policy :=
  {| owners := mc_owners custody_of; allowed := allowed (mc_configuration custody_of); protected := false |}.

(** The loop over the two directories. *)
Fixpoint check_each_directory (console : bool) (l : list string) : MM unit Stop :=
  match l with
  | [] => mret tt
  | directory :: l =>
      mmap_err (λ reason, StartRefused EXIT_SERVICE_LOG (stderr_service_log
                  (if console then reason +:+ "; " +:+ DEFAULT_REFUSAL else reason)))
        (fs (check_if_exists_within directory Directory data_directories_policy)) ;;*
      check_each_directory console l
  end.

Definition check_data_directories (console : bool) : MM unit Stop :=
  check_each_directory console [product_root paths; data_root paths].

Definition other_combination : Stop :=
  StartRefused 5 (identity_line (data_root paths +:+ ", " +:+ staging paths +:+ " and " +:+ legacy paths
    +:+ " are in no state a migration leaves; nothing was changed")).

(** ** Records rewritten *)

Definition rewrite (path : string) (r : MigrationRecord) : MM unit string :=
  do? b := mof (map_err (λ e, "write " +:+ path +:+ ": " +:+ e) (record_to_vec_pretty r)) in
  fs (bounded path (replace_keeping_security path (with_file_name path RECORD_TEMPORARY) b
                      (mc_configuration custody_of))).

(** ** Between the renames *)

Definition both_directories (reason : string) : Stop :=
  StartRefused 5 (identity_line ("a migration stopped between its renames, at " +:+ staging paths +:+ " and "
    +:+ legacy paths +:+ ": " +:+ reason)).

(** Every end is a stop. *)
Definition reverse {A} (r : MigrationRecord) (cause : string) : MM A Stop :=
  do? back := mtry (at_point RenameBack ;;* fsi (rename (legacy paths) (data_root paths))) in
  match back with
  | Err Crash => merr Crashed
  | Err (Failure reason) =>
      merr (StartRefused 5 (identity_line (cause +:+ ", and renaming " +:+ legacy paths +:+ " back failed ("
        +:+ reason +:+ "): the data root is at that name, and the next start, with or without arguments, puts it back")))
  | Ok _ =>
      do? cleared := mtry (at_point ClearReversal ;;*
                           mmap_err Failure (rewrite staged_record_path (with_reversal r false))) in
      match cleared with
      | Err Crash => merr Crashed
      | _ => in_place 5 (identity_line (cause +:+ "; the commit was reversed"))
      end
  end.

(** The staged tree's configuration, its identity's paths those of the staging. *)
Definition with_identity_paths (config : AgentConfig) (enr : EnrollmentConfig) (c k i : string) : AgentConfig :=
  {| Config.server := Config.server config; agent := agent config; heartbeat := heartbeat config;
     log := log config;
     enrollment := Some {| token := token enr; cert_path := c; key_path := k; identity_path := i;
                           timeout_seconds := timeout_seconds enr; enroll_max_retries := enroll_max_retries enr;
                           enroll_backoff_initial_ms := enroll_backoff_initial_ms enr;
                           enroll_backoff_factor := enroll_backoff_factor enr |};
     tls := tls config; envelope := envelope config |}.

(** A load of [Identity.v], from the objects. *)
Definition loading {A} (config : AgentConfig) (m : IM A) : MM A EnrollmentError := λ w,
  let '(r, i) := m {| files := files_at (identity_paths config) (objects (mfs w));
                      io_faults := std_reads w; posted := []; locate := λ p, p |} in
  (r, {| mfs := mfs w; watch_answers := watch_answers w; std_reads := io_faults i; actions := actions w |}).

(** The loop over the identity's files. *)
Fixpoint check_staged_files (policy : Policy) (dir : string) (names : list string) : CM unit string :=
  match names with
  | [] => cret tt
  | name :: names => cbind (check (join_path dir name) File policy) (λ _, check_staged_files policy dir names)
  end.

Definition check_staged (r : MigrationRecord) : MM unit string :=
  let dir := staging paths in
  let policy := mc_configuration custody_of in
  fs (check dir Directory policy) ;;*
  fs (check staged_record_path File policy) ;;*
  let config_path := join_path dir CONFIG in
  do? read := fs (read_checked config_path policy) in
  do? b := mof (ok_or read (config_path +:+ " does not exist")) in
  do? text := mof (if valid_utf8 b then Ok (text_of_bytes b) else Err (config_path +:+ " is not UTF-8")) in
  do? config := mof (map_err (config_error_line config_path) (load_from_str toml_value toml_config text)) in
  mof (check_installed_config paths config_path config) ;;*
  let anchor_path := join_path dir ANCHOR in
  do? read := fs (read_checked anchor_path policy) in
  do? anchor := mof (ok_or read (anchor_path +:+ " does not exist")) in
  do? _ := mof (check_anchor pem_certificates anchor (list_to_set (mr_fingerprints r))) in
  let identity_dir := join_path dir IDENTITY_DIRECTORY in
  fs (check identity_dir Directory (mc_identity custody_of)) ;;*
  fs (check_staged_files (mc_identity custody_of) identity_dir IDENTITY_FILES) ;;*
  do? enr := mof (ok_or (enrollment config) "no [enrollment]") in
  let config := with_identity_paths config enr (join_path identity_dir CERT) (join_path identity_dir KEY)
                  (join_path identity_dir IDENTITY) in
  do? identity := mmap_err enrollment_error_text (loading config (installed_load pem_certificates config)) in
  if bool_decide (agent_id identity = mr_agent_id r)
     && bool_decide (pubkey_fingerprint (public_key_bytes (keypair identity)) = mr_key_fingerprint r)
  then mret tt
  else merr "the staged identity is not the recorded one".

Definition between_the_renames (request : option Request) (lock : Result unit Stop) : MM Prepared Stop :=
  do? found := mmap_err both_directories staged_record in
  do? r := mof (ok_or found (both_directories "its record cannot be read")) in
  mof (check_recorded request r) ;;*
  take_lock lock ;;*
  if mr_reversal_pending r then reverse r "a reversal was interrupted" else
  do? completed := mtry (mmap_err Failure (check_staged r) ;;* at_point CompleteCommit ;;*
                         fsi (rename (staging paths) (data_root paths))) in
  match completed with
  | Ok _ => check_data_directories false ;;* mret Committed
  | Err Crash => merr Crashed
  | Err (Failure reason) => merr (both_directories reason)
  end.

(** ** The route *)

Inductive Attempt := Fresh | Interrupted | Continued (r : MigrationRecord).

Definition recorded (a : Attempt) : option MigrationRecord :=
  match a with Continued r => Some r | _ => None end.

(** The loop over the entries. *)
Fixpoint check_closable_entries (path : string) (l : list AllowEntry) : Result unit string :=
  match l with
  | [] => Ok tt
  | e :: l =>
      if negb (existsb (λ p, principal_is p (entry_sid e)) (mc_trusted custody_of))
         && negb (Z.land (entry_mask e) (Z.lor (Z.lor WRITE_DAC WRITE_OWNER) GENERIC_ALL) =? 0)
      then Err (path +:+ "'s DACL lets another account change it or take its ownership; " +:+ REPAIR_OWNER)
      else check_closable_entries path l
  end.

Definition check_closable (d : Descriptor) (path : string) : CM unit string :=
  cbind (owned_by d (mc_owners custody_of)) (λ owned,
  if negb owned then cerr (path +:+ " is owned by another account; " +:+ REPAIR_OWNER) else
  cbind (cmap_err (λ reason, reason +:+ "; " +:+ REPAIR_OWNER) (allow_entries d path)) (λ entries,
  match entries with
  | None => cerr (path +:+ " has no DACL; " +:+ REPAIR_OWNER)
  | Some l => cof (check_closable_entries path l)
  end)).

Definition close (path : string) (point : Point) : MM unit Injected :=
  at_point point ;;*
  do? h := fsi (open_waiting path) in
  fsi (check_shape h path Directory) ;;*
  do? d := fsi (security_of h path) in
  fsi (check_closable d path) ;;*
  do? _ := fsi (set_security h path (mc_closed_directory_sddl custody_of)) in
  mret tt.

Definition close_directories : MM unit Stop :=
  mcatch (close (product_root paths) CloseProductRoot)
    (λ cut, cut_in_place EXIT_SERVICE_LOG stderr_service_log (naming (product_root paths) cut)) ;;*
  mcatch (close (data_root paths) CloseDataRoot)
    (λ cut, cut_in_place EXIT_SERVICE_LOG stderr_service_log (naming (data_root paths) cut)).

Definition delete_interrupted_staging : MM unit Injected :=
  mmap_err (naming (staging paths)) (at_point DeleteInterruptedStaging) ;;*
  fsi (bounded (staging paths)
        (cmap_err (λ e, "delete " +:+ staging paths +:+ ": " +:+ e) (remove_dir_all (staging paths)))).

(** The loop over the entries of [<P>], the names seen folded. *)
Fixpoint accept_root_entries (with_staging : bool) (l seen : list string) : Result unit string :=
  match l with
  | [] => Ok tt
  | entry :: l =>
      let accepted := eq_ignore_ascii_case entry (file_name (data_root paths))
                      || (with_staging && eq_ignore_ascii_case entry (file_name (staging paths))) in
      if negb accepted || bool_decide (lowercase entry ∈ seen)
      then Err (product_root paths +:+ " holds " +:+ entry +:+ ", which is not the agent's; " +:+ REPAIR_ENTRY)
      else accept_root_entries with_staging l (lowercase entry :: seen)
  end.

Definition check_root_entries (with_staging : bool) : MM unit string :=
  do? l := fs (entries (product_root paths)) in
  mof (accept_root_entries with_staging l []).

(** The loop over the data root's entries. *)
Fixpoint collect_names (l names : list string) : Result (list string) string :=
  match l with
  | [] => Ok names
  | entry :: l =>
      let refused := data_root paths +:+ " holds " +:+ entry +:+ ", which is not the agent's; " +:+ REPAIR_ENTRY in
      match known_name entry with
      | Some name => if decide (name ∈ names) then Err refused else collect_names l (names ++ [name])
      | None => Err refused
      end
  end.

Definition data_root_names : MM (list string) string :=
  do? l := fs (entries (data_root paths)) in
  mof (collect_names l []).

(** SYSTEM alone, or SYSTEM and one other SID or Administrators: what the loop over an
    identity file's entries found. *)
Record Allows := { allows_service : bool; allows_administrators : bool; others : list bytes }.

Fixpoint allows_of (l : list AllowEntry) (a : Allows) : Allows :=
  match l with
  | [] => a
  | e :: l =>
      allows_of l
        (if principal_is (mc_service custody_of) (entry_sid e)
         then {| allows_service := true; allows_administrators := allows_administrators a; others := others a |}
         else if principal_is Administrators (entry_sid e)
         then {| allows_service := allows_service a; allows_administrators := true; others := others a |}
         else if decide (entry_sid e ∈ others a) then a
         else {| allows_service := allows_service a; allows_administrators := allows_administrators a;
                 others := others a ++ [entry_sid e] |})
  end.

Definition allows_too_much (a : Allows) : bool :=
  negb (allows_service a) || (1 <? length (others a))%nat
  || (allows_administrators a && negb (length (others a) =? 0)%nat).

Definition check_file (path name : string) : CM (FileId * option bytes) string :=
  cbind (open_waiting path) (λ h,
  cbind (file_information path h) (λ i,
  let repair other := if bool_decide (name = TEMPORARY) then REPAIR_TEMPORARY else other in
  if reparse_point i || is_directory i then cerr (path +:+ " is not a regular file; " +:+ repair REPAIR_ENTRY) else
  if negb (links i =? 1) then cerr (path +:+ " is hard-linked; " +:+ repair REPAIR_LINK) else
  cbind (security_of h path) (λ d,
  cbind (owned_by d (mc_owners custody_of)) (λ owned,
  if negb owned then cerr (path +:+ " is owned by another account; " +:+ repair REPAIR_OWNER) else
  if negb (bool_decide (name ∈ IDENTITY_FILES)) then cret (file_id i, None) else
  cbind (allow_entries d path) (λ found,
  match found with
  | None => cerr (path +:+ " has no DACL; " +:+ REPAIR_ANEW)
  | Some l =>
      let a := allows_of l {| allows_service := false; allows_administrators := false; others := [] |} in
      if allows_too_much a
      then cerr (path +:+ "'s DACL allows more than the service and one account; " +:+ REPAIR_ANEW)
      else cret (file_id i, last (others a))
  end))))).

Record Checked := { ck_files : list (string * FileId); ck_enrolling_account : option bytes }.

(** The position a name is sorted by. *)
Definition position (name : string) : nat :=
  match list_find (λ n, n = name) REQUIRED with Some (i, _) => i | None => length REQUIRED end.
Definition by_position (a b : string) : Prop := (position a ≤ position b)%nat.
#[local] Instance by_position_dec a b : Decision (by_position a b).
Proof. unfold by_position. apply _. Defined.

(** The first of the required names that is missing. *)
Definition missing_name (names : list string) : option string := find (λ name, negb (bool_decide (name ∈ names))) REQUIRED.

(** The loop over the names. *)
Fixpoint check_files (names : list string) (files : list (string * FileId)) (enrolling : option bytes)
  : MM Checked Stop :=
  match names with
  | [] => mret {| ck_files := files; ck_enrolling_account := enrolling |}
  | name :: names =>
      let path := in_data_root name in
      mcatch (at_point (CheckFile name)) (λ cut, cut_in_place 5 identity_line (naming path cut)) ;;*
      do? (id, found) := mcatch (fs (check_file path name)) (λ reason, in_place 5 (identity_line reason)) in
      let files := files ++ [(name, id)] in
      match found with
      | None => check_files names files enrolling
      | Some other =>
          if match enrolling with Some sid => negb (bool_decide (sid = other)) | None => false end
          then in_place 5 (identity_line (path +:+ " allows another account than the other identity files; " +:+ REPAIR_ANEW))
          else check_files names files (Some other)
      end
  end.

(** The closure [stop]. *)
Definition stop {A} (reason : string) : MM A Stop := in_place 5 (identity_line reason).

Definition check_what_is_there (attempt : Attempt) : MM Checked Stop :=
  mcatch (check_root_entries (is_some (recorded attempt))) stop ;;*
  do? h := mcatch (fs (open_waiting (data_root paths))) stop in
  do? sensitive := mcatch (fs (is_case_sensitive h (data_root paths))) stop in
  if sensitive : bool
  then stop (data_root paths +:+ " has case-sensitive lookup on; repair: an administrator turns it off") else
  do? names := mcatch data_root_names stop in
  match missing_name names with
  | Some name => stop (name +:+ " is missing from " +:+ data_root paths +:+ "; " +:+ REPAIR_ANEW)
  | None => check_files (merge_sort by_position names) [] None
  end.

Record Verified := {
  v_config_text : string;
  v_certificates : list bytes;
  v_certificate : bytes;
  v_sealed_key : bytes;
  v_identity : bytes;
  v_agent_id : string;
  v_key_fingerprint : string;
}.

(** The loop over the checked files. *)
Fixpoint read_files (files : list (string * FileId)) (read : gmap string bytes) : MM (gmap string bytes) Stop :=
  match files with
  | [] => mret read
  | (name, id) :: files =>
      if bool_decide (name = TEMPORARY) then read_files files read else
      let path := in_data_root name in
      mcatch (at_point (ReadFile name)) (λ cut, cut_in_place 5 identity_line (naming path cut)) ;;*
      do? (content, read_id) := mcatch (fs (read_unshared path READ_LIMIT))
                                  (λ reason, in_place 5 (identity_line reason)) in
      if negb (bool_decide (read_id = id))
      then in_place 5 (identity_line (path +:+ " is not the file that was checked"))
      else read_files files (<[name := content]> read)
  end.

Definition read_each_file (request : Request) (attempt : Attempt) (checked : Checked) : MM Verified Stop :=
  do? read := read_files (ck_files checked) ∅ in
  let taken name := default [] (read !! name) in
  do? config_text := mcatch (mof (check_legacy_config toml_value toml_config paths (taken CONFIG)))
                       (λ line, in_place 2 line) in
  do? certificates := mcatch (mof (check_anchor pem_certificates (taken ANCHOR) (rq_fingerprints request)))
                        (λ reason, in_place 6 (anchor_line reason)) in
  do? (agent_id, key_fingerprint) :=
    mcatch (mof (check_identity pem_certificates parse_rfc3339 (me_now env) (recorded attempt)
                   (taken KEY) (taken CERT) (taken IDENTITY)))
      (λ reason, in_place 5 (identity_line reason)) in
  mret {| v_config_text := config_text; v_certificates := certificates; v_certificate := taken CERT;
          v_sealed_key := taken KEY; v_identity := taken IDENTITY; v_agent_id := agent_id;
          v_key_fingerprint := key_fingerprint |}.

(** The handle's link count, which is one, and its ID. *)
Definition check_links (h : Object) (path : string) : CM FileId string :=
  cbind (file_information path h) (λ i,
  if negb (links i =? 1) then cerr (path +:+ " is hard-linked; " +:+ REPAIR_LINK) else cret (file_id i)).

Definition restrict_file (name : string) (id : FileId) : MM unit Injected :=
  let path := in_data_root name in
  at_point (RestrictFile name) ;;*
  do? h := fsi (open_waiting path) in
  do? found := fsi (check_links h path) in
  if negb (bool_decide (found = id)) then merr (Failure (path +:+ " is not the file that was checked")) else
  do? h := fsi (set_security h path (mc_shared_file_sddl custody_of)) in
  at_point (RestrictedFile name) ;;*
  do? _ := fsi (check_links h path) in
  mret tt.

Fixpoint restrict_files (files : list (string * FileId)) : MM unit Stop :=
  match files with
  | [] => mret tt
  | (name, id) :: files =>
      mcatch (restrict_file name id) (λ cut, cut_in_place 5 identity_line (naming (in_data_root name) cut)) ;;*
      restrict_files files
  end.

(** One entry of the staging deleted. *)
Definition delete_staged (path : string) : CM unit string :=
  bounded path (
    cbind (cmap_err (λ f, "inspect " +:+ path +:+ ": " +:+ fault_text f) (symlink_metadata path)) (λ i,
    cmap_err (λ e, "delete " +:+ path +:+ ": " +:+ e)
      (if is_directory i && negb (reparse_point i) then remove_dir_all path else remove_file path))).

(** The loop over the staging's entries. *)
Fixpoint clear_entries (l : list string) : CM unit string :=
  match l with
  | [] => cret tt
  | entry :: l =>
      if eq_ignore_ascii_case entry RECORD then clear_entries l
      else cbind (delete_staged (join_path (staging paths) entry)) (λ _, clear_entries l)
  end.

Definition clear_staged : CM unit string :=
  cbind (entries (staging paths)) clear_entries.

(** The loop over the identity's staged files. *)
Fixpoint stage_identity (dir : string) (l : list (string * bytes)) : MM unit Injected :=
  match l with
  | [] => mret tt
  | (name, b) :: l =>
      at_point (Stage name) ;;*
      fsi (create_new_file (join_path dir name) (mc_identity_file_sddl custody_of) b) ;;*
      stage_identity dir l
  end.

Definition new_record (request : Request) (checked : Checked) (verified : Verified) (account : option string)
  : MigrationRecord :=
  {| mr_choice := rq_choice request; mr_fingerprints := in_order (rq_fingerprints request);
     mr_agent_id := v_agent_id verified; mr_key_fingerprint := v_key_fingerprint verified;
     mr_enrolling_account := account;
     mr_files := list_to_map (rev ((λ f, (f.1, file_id_text f.2)) <$> ck_files checked));
     mr_reversal_pending := false; mr_copies_not_reached := [] |}.

(** The staged files, in their order. *)
Definition stage_files (verified : Verified) : MM unit Injected :=
  let dir := staging paths in
  let shared := mc_shared_file_sddl custody_of in
  do? config := mof (map_err Failure (generated_config toml_value toml_to_string paths hostname
                                        (v_config_text verified))) in
  let anchor := anchor_pem pem_encode (v_certificates verified) in
  at_point (Stage CONFIG) ;;*
  fsi (create_new_file (join_path dir CONFIG) shared (bytes_of_text config)) ;;*
  at_point (Stage ANCHOR) ;;*
  fsi (create_new_file (join_path dir ANCHOR) shared (bytes_of_text anchor)) ;;*
  let identity_dir := join_path dir IDENTITY_DIRECTORY in
  at_point (Stage IDENTITY_DIRECTORY) ;;*
  fsi (create_new_directory identity_dir (mc_identity_directory_sddl custody_of)) ;;*
  stage_identity identity_dir
    [(CERT, v_certificate verified); (KEY, v_sealed_key verified); (IDENTITY, v_identity verified)].

(** The account's text: the one just found, or the record's. *)
Definition enrolling_account (attempt : Attempt) (checked : Checked) : Result (option string) string :=
  match ck_enrolling_account checked with
  | Some sid => let? text := sid_text sid in Ok (Some text)
  | None => Ok (match recorded attempt with Some r => mr_enrolling_account r | None => None end)
  end.

Definition record_and_stage (request : Request) (attempt : Attempt) (checked : Checked) (verified : Verified)
  : MM MigrationRecord Injected :=
  do? account := mof (map_err Failure (enrolling_account attempt checked)) in
  let r := new_record request checked verified account in
  (if is_some (recorded attempt) then
     at_point WriteRecord ;;*
     mmap_err Failure (rewrite staged_record_path r) ;;*
     fsi clear_staged
   else
     at_point CreateStaging ;;*
     fsi (create_new_directory (staging paths) (mc_closed_directory_sddl custody_of)) ;;*
     at_point WriteRecord ;;*
     do? b := mof (map_err (λ e, Failure ("write " +:+ staged_record_path +:+ ": " +:+ e)) (record_to_vec_pretty r)) in
     fsi (create_new_file staged_record_path (mc_shared_file_sddl custody_of) b)) ;;*
  stage_files verified ;;*
  at_point CheckStaged ;;*
  mmap_err Failure (check_staged r) ;;*
  mret r.

(** ** The commit *)

(** The loop over the names of the second listing. *)
Fixpoint check_none_appeared (files : list (string * FileId)) (names : list string) : Result unit string :=
  match names with
  | [] => Ok tt
  | name :: names =>
      if existsb (λ f, bool_decide (f.1 = name)) files then check_none_appeared files names
      else Err (in_data_root name +:+ " appeared after the check; "
                +:+ (if bool_decide (name = TEMPORARY) then REPAIR_TEMPORARY else REPAIR_ENTRY))
  end.

Definition check_names_again (checked : Checked) : MM unit string :=
  check_root_entries true ;;*
  do? names := data_root_names in
  mof (check_none_appeared (ck_files checked) names) ;;*
  mof (match missing_name names with
       | Some name => Err (name +:+ " is missing from " +:+ data_root paths +:+ "; " +:+ REPAIR_ANEW)
       | None => Ok tt
       end).

Definition commit (r : MigrationRecord) (checked : Checked) : MM unit Stop :=
  mcatch (at_point FirstRename ;;* mmap_err Failure (check_names_again checked) ;;*
          fsi (rename (data_root paths) (legacy paths)))
    (cut_in_place 5 identity_line) ;;*
  do? second := mtry (at_point SecondRename ;;* fsi (rename (staging paths) (data_root paths))) in
  match second with
  | Ok _ => mret tt
  | Err Crash => merr Crashed
  | Err (Failure cause) =>
      let r := with_reversal r true in
      do? marked := mtry (at_point RecordReversal ;;* mmap_err Failure (rewrite staged_record_path r)) in
      match marked with
      | Ok _ => reverse r ("the commit failed (" +:+ cause +:+ ")")
      | Err Crash => merr Crashed
      | Err (Failure reason) =>
          merr (both_directories ("the commit failed (" +:+ cause
            +:+ "), and its reversal could not be recorded (" +:+ reason +:+ "); the next start completes it"))
      end
  end.

Definition route (request : Request) (attempt : Attempt) (lock : Result unit Stop) : MM Prepared Stop :=
  mcatch (take_lock lock) (λ stop, match stop with
                                   | StartRefused code line => in_place code line
                                   | Crashed => merr Crashed
                                   end) ;;*
  close_directories ;;*
  (match attempt with
   | Interrupted => mcatch delete_interrupted_staging (cut_in_place 5 identity_line)
   | _ => mret tt
   end) ;;*
  do? checked := check_what_is_there attempt in
  do? verified := read_each_file request attempt checked in
  restrict_files (ck_files checked) ;;*
  do? r := mcatch (record_and_stage request attempt checked verified) (cut_in_place 5 identity_line) in
  commit r checked ;;*
  check_data_directories false ;;*
  mret Committed.

(** ** The start *)

Definition plain (request : option Request) : MM Prepared Stop :=
  if is_some request
  then merr (StartRefused 2 (invalid_arguments "this host is neither a console layout nor a migration in progress"))
  else check_data_directories false ;;* do? _ := data_root_record in mret Plain.

Definition committed (request : option Request) : MM Prepared Stop :=
  check_data_directories false ;;*
  do? found := data_root_record in
  do? r := mof (ok_or found other_combination) in
  mof (check_recorded request r) ;;*
  mret Committed.

Definition beside_a_console_layout (request : option Request) (lock : Result unit Stop) : MM Prepared Stop :=
  do? found := mcatch staged_record (λ reason, in_place 5 (identity_line (reason
    +:+ "; if it stays so, an administrator who has checked it removes the staging directory and starts the migration again"))) in
  match found, request with
  | Some r, Some request =>
      if asks_for r request then route request (Continued r) lock
      else in_place 2 (invalid_arguments NOT_THE_RECORDED)
  | None, Some request => route request Interrupted lock
  | Some _, None => in_place 5 (identity_line ("a migration was interrupted, its staging directory at "
      +:+ staging paths +:+ ": start the service again with the arguments it recorded"))
  | None, None => in_place 5 (identity_line ("the service's creation of " +:+ staging paths
      +:+ " was interrupted: start the migration again"))
  end.

(** [any] over the identity's names. *)
Fixpoint any_there {E} (names : list string) : MM bool E :=
  match names with
  | [] => mret false
  | name :: names =>
      do? there := is_there (in_data_root name) in
      if there : bool then mret true else any_there names
  end.

Definition prepare (request : option Request) (lock : Result unit Stop) : MM Prepared Stop :=
  do? data_root_there := is_there (data_root paths) in
  do? console := (if data_root_there : bool then any_there IDENTITY_FILES else mret false) in
  do? staging_there := counts (staging paths) in
  do? legacy_there := counts (legacy paths) in
  match (data_root_there : bool), (staging_there : bool), (legacy_there : bool), (console : bool) with
  | false, true, true, _ => between_the_renames request lock
  | true, true, false, true => beside_a_console_layout request lock
  | true, false, true, false => committed request
  | _, false, false, true =>
      match request with
      | Some request => route request Fresh lock
      | None => check_data_directories true ;;* mret ConsoleLayout
      end
  | _, false, false, false => plain request
  | _, _, _, _ => merr other_combination
  end.

(** ** The old copies *)

Record Copies := { restricted : list string; removed : list string; not_reached : list string; directory_removed : bool }.

Definition restrict_legacy_directory (dir : string) : MM unit Injected :=
  at_point RestrictLegacyDirectory ;;*
  do? h := fsi (open_waiting dir) in
  fsi (check_shape h dir Directory) ;;*
  do? _ := fsi (set_security h dir (mc_identity_directory_sddl custody_of)) in
  mret tt.

Definition check_copy (h : Object) (path name : string) (r : MigrationRecord) : CM unit string :=
  cbind (file_information path h) (λ i,
  if reparse_point i || is_directory i then cerr (path +:+ " is not a regular file") else
  if negb (bool_decide (match known_name name with Some known => mr_files r !! known | None => None end
                        = Some (file_id_text (file_id i))))
  then cerr (path +:+ " is not the file the migration checked") else
  if negb (links i =? 1) then cerr (path +:+ " is hard-linked") else cret tt).

Definition restrict_copy (path name : string) (r : MigrationRecord) : MM unit Injected :=
  match known_name name with
  | None => merr (Failure (path +:+ " is not an object the migration checked"))
  | Some known =>
      at_point (CopyFile known) ;;*
      do? h := fsi (open_waiting path) in
      fsi (check_copy h path name r) ;;*
      do? _ := fsi (set_security h path (if bool_decide (known ∈ IDENTITY_FILES)
                                         then mc_identity_file_sddl custody_of
                                         else mc_shared_file_sddl custody_of)) in
      mret tt
  end.

Definition remove_copy (path name : string) (r : MigrationRecord) : CM unit string :=
  cbind (open_waiting path) (λ h, cbind (check_copy h path name r) (λ _, delete_through h path)).

Definition remove_legacy_directory (dir : string) : MM unit Injected :=
  at_point RemoveLegacyDirectory ;;*
  do? h := fsi (open_waiting dir) in
  fsi (check_shape h dir Directory) ;;*
  fsi (delete_through h dir).

(** A copy added to one of the report's lists. *)
Definition note_restricted (c : Copies) (name : string) : Copies :=
  {| restricted := restricted c ++ [name]; removed := removed c; not_reached := not_reached c;
     directory_removed := directory_removed c |}.
Definition note_removed (c : Copies) (name : string) : Copies :=
  {| restricted := restricted c; removed := removed c ++ [name]; not_reached := not_reached c;
     directory_removed := directory_removed c |}.
Definition note_not_reached (c : Copies) (name : string) : Copies :=
  {| restricted := restricted c; removed := removed c; not_reached := not_reached c ++ [name];
     directory_removed := directory_removed c |}.

Definition CUT_SHORT : string := "the pass was cut short".

(** The loop over the copies. *)
Fixpoint copies_loop (r : MigrationRecord) (names : list string) (report : Copies) : MM Copies string :=
  match names with
  | [] => mret report
  | name :: names =>
      let path := join_path (legacy paths) name in
      do? done := mtry (restrict_copy path name r) in
      match done with
      | Err Crash => merr CUT_SHORT
      | Err (Failure _) => copies_loop r names (note_not_reached report name)
      | Ok _ =>
          let report := note_restricted report name in
          match mr_choice r with
          | Keep => copies_loop r names report
          | Remove =>
              do? gone := mtry (fs (remove_copy path name r)) in
              copies_loop r names (match gone with
                                   | Ok _ => note_removed report name
                                   | Err _ => note_not_reached report name
                                   end)
          end
      end
  end.

(** The emptied directory removed. *)
Definition end_directory (restricted_it : bool) (r : MigrationRecord) (report : Copies) : MM Copies string :=
  if negb (restricted_it && bool_decide (mr_choice r = Remove)) then mret report else
  do? remaining := fs (entries (legacy paths)) in
  match remaining with
  | _ :: _ => mret report
  | [] =>
      do? gone := mtry (remove_legacy_directory (legacy paths)) in
      match gone with
      | Ok _ => mret {| restricted := restricted report; removed := removed report;
                        not_reached := not_reached report; directory_removed := true |}
      | Err Crash => merr CUT_SHORT
      | Err (Failure _) => mret (note_not_reached report (file_name (legacy paths)))
      end
  end.

(** The pass once the directory was restricted, or could not be. *)
Definition copies_end (r : MigrationRecord) (done : Result unit Injected) : MM Copies string :=
  let report := {| restricted := []; removed := []; not_reached := []; directory_removed := false |} in
  let report := if is_ok done then report else note_not_reached report (file_name (legacy paths)) in
  do? names := fs (entries (legacy paths)) in
  do? report := copies_loop r (merge_sort string_le names) report in
  do? report := end_directory (is_ok done) r report in
  if bool_decide (mr_copies_not_reached r = not_reached report) then mret report else
  do? _ := mtry (E := Injected) (at_point RewriteRecord ;;*
             mmap_err Failure (rewrite (record paths) (with_not_reached r (not_reached report)))) in
  mret report.

Definition copies : MM Copies string :=
  do? found := mmap_err (λ _, "the record cannot be read") data_root_record in
  do? r := mof (ok_or found "the data root holds no record") in
  do? there := counts (legacy paths) in
  if negb there
  then mret {| restricted := []; removed := []; not_reached := []; directory_removed := false |} else
  do? done := mtry (restrict_legacy_directory (legacy paths)) in
  match done with
  | Err Crash => merr CUT_SHORT
  | _ => copies_end r done
  end.

End Migration.
