(* ===== verification/MigrationToy.v ===== *)
(** * A host to migrate

    Concrete functions for the parameters of the migration, and a console
    installation: the theorems' hypotheses hold there together. The record's form on
    disk is a list of lists of texts, each character, text and list marked, so that
    no part of it parses. *)

From stdpp Require Import sorting.
From S2P Require Import Prelude FileTree IpAddr Types Errors Network Config Signing Tls TlsConfig X509.
From S2P Require Import Transport Enrollment Identity Custody CustodyTree Installed Service.
From S2P Require Import MigrationChecks MigrationRun.
Open Scope Z_scope.

Module ToyRecord.

(** *** Texts, lists of texts and lists of those *)

Definition write_text (s : string) : bytes := (String.list_byte_of_string s ≫= λ c, [Byte.x01; c]) ++ [Byte.x00].
Definition write_texts (l : list string) : bytes := (l ≫= write_text) ++ [Byte.x02].
Definition write_all (l : list (list string)) : bytes := (l ≫= write_texts) ++ [Byte.x03].

(** What was read so far: the text, the list and the lists. *)
Fixpoint parse_bytes (b : bytes) (text : bytes) (texts : list string) (lists : list (list string))
  : option (list (list string)) :=
  match b with
  | Byte.x01 :: c :: b => parse_bytes b (text ++ [c]) texts lists
  | Byte.x00 :: b => parse_bytes b [] (texts ++ [String.string_of_list_byte text]) lists
  | Byte.x02 :: b => parse_bytes b text [] (lists ++ [texts])
  | [Byte.x03] => Some lists
  | _ => None
  end.

Definition fields (r : MigrationRecord) : list (list string) :=
  [[match mr_choice r with Remove => "remove" | Keep => "keep" end]; mr_fingerprints r; [mr_agent_id r];
   [mr_key_fingerprint r]; option_list (mr_enrolling_account r);
   (map_to_list (mr_files r)).*1; (map_to_list (mr_files r)).*2;
   (if mr_reversal_pending r then [""] else []); mr_copies_not_reached r].

Definition of_fields (l : list (list string)) : option MigrationRecord :=
  match l with
  | [[choice]; fingerprints; [agent]; [key]; account; names; ids; pending; not_reached] =>
      Some {| mr_choice := if decide (choice = "remove") then Remove else Keep;
              mr_fingerprints := fingerprints; mr_agent_id := agent; mr_key_fingerprint := key;
              mr_enrolling_account := head account; mr_files := list_to_map (zip names ids);
              mr_reversal_pending := bool_decide (pending ≠ []); mr_copies_not_reached := not_reached |}
  | _ => None
  end.

Lemma of_fields_fields r : of_fields (fields r) = Some r.
Proof.
  unfold fields, of_fields. f_equal. destruct r as [c f a k acc m p nr]; cbn. f_equal.
  - by destruct c.
  - by destruct acc.
  - rewrite zip_fst_snd. apply list_to_map_to_list.
  - by destruct p.
Qed.

Lemma parse_chars cs rest text texts lists :
  parse_bytes ((cs ≫= λ c, [Byte.x01; c]) ++ rest) text texts lists = parse_bytes rest (text ++ cs) texts lists.
Proof.
  revert text. induction cs as [|c cs IH]; intros text; [by rewrite app_nil_r|].
  cbn. rewrite IH. by rewrite <- app_assoc.
Qed.

Lemma parse_text s rest texts lists :
  parse_bytes (write_text s ++ rest) [] texts lists = parse_bytes rest [] (texts ++ [s]) lists.
Proof.
  unfold write_text. rewrite <- app_assoc, parse_chars. cbn [app parse_bytes].
  by rewrite String.string_of_list_byte_of_string.
Qed.

Lemma parse_list l rest texts lists :
  parse_bytes ((l ≫= write_text) ++ rest) [] texts lists = parse_bytes rest [] (texts ++ l) lists.
Proof.
  revert texts. induction l as [|s l IH]; intros texts; [by rewrite app_nil_r|].
  rewrite bind_cons, <- app_assoc, parse_text, IH. by rewrite <- app_assoc.
Qed.

Lemma parse_lists ll rest lists :
  parse_bytes ((ll ≫= write_texts) ++ rest) [] [] lists = parse_bytes rest [] [] (lists ++ ll).
Proof.
  revert lists. induction ll as [|l ll IH]; intros lists; [by rewrite app_nil_r|].
  rewrite bind_cons. unfold write_texts at 1. rewrite <- !app_assoc, parse_list. cbn.
  rewrite IH. by rewrite <- app_assoc.
Qed.

Lemma parse_all ll : parse_bytes (write_all ll) [] [] [] = Some ll.
Proof. unfold write_all. by rewrite parse_lists. Qed.

(** *** No part of it parses *)

(** Marks in order, the last one at the end alone. *)
Fixpoint marked (b : bytes) : bool :=
  match b with
  | Byte.x01 :: _ :: b => marked b
  | Byte.x00 :: b | Byte.x02 :: b => marked b
  | [Byte.x03] => true
  | _ => false
  end.

Lemma marked_parse b text texts lists l : parse_bytes b text texts lists = Some l → marked b = true.
Proof.
  remember (length b) as n eqn:En. revert b En text texts lists.
  induction n as [n IH] using lt_wf_ind. intros b -> text texts lists.
  destruct b as [|[] b]; try done; cbn [parse_bytes marked].
  - intros H. eapply IH; [|reflexivity|exact H]. cbn. lia.
  - destruct b as [|c b]; [done|]. intros H. eapply IH; [|reflexivity|exact H]. cbn. lia.
  - intros H. eapply IH; [|reflexivity|exact H]. cbn. lia.
  - by destruct b.
Qed.

Lemma marked_torn b n : marked b = true → (n < length b)%nat → marked (take n b) = false.
Proof.
  remember (length b) as k eqn:Ek. revert b Ek n.
  induction k as [k IH] using lt_wf_ind. intros b -> n.
  destruct n as [|n]; [by destruct b|].
  destruct b as [|[] b]; try done; cbn [marked take length].
  - intros H Hn. eapply IH; [|reflexivity|exact H|]; cbn; lia.
  - destruct b as [|c b]; [done|]. destruct n as [|n]; [done|]. cbn [take length].
    intros H Hn. eapply IH; [|reflexivity|exact H|]; cbn; lia.
  - intros H Hn. eapply IH; [|reflexivity|exact H|]; cbn; lia.
  - destruct b; [|done]. cbn. lia.
Qed.

Definition to_vec (r : MigrationRecord) : Result bytes string := Ok (write_all (fields r)).
Definition from_slice (b : bytes) : option MigrationRecord := parse_bytes b [] [] [] ≫= of_fields.

Definition identity_of_slice (b : bytes) : option PersistedIdentity :=
  if valid_utf8 b then match ToyIdentity.of_text (text_of_bytes b) with Ok p => Some p | Err _ => None end else None.

#[export] Instance json : MigrationJson :=
  {| record_to_vec_pretty := to_vec; record_from_slice := from_slice; identity_from_slice := identity_of_slice |}.

#[export] Instance json_laws : MigrationJsonLaws ToyIdentity.json json.
Proof.
  split; cbn; unfold to_vec, from_slice, identity_of_slice.
  - eauto.
  - intros r b [= <-]. rewrite parse_all. cbn. apply of_fields_fields.
  - intros r b n [= <-] Hn. destruct (parse_bytes (take n _) _ _ _) as [l|] eqn:E; [|done].
    apply marked_parse in E. by rewrite (marked_torn _ n (marked_parse _ _ _ _ _ (parse_all _)) Hn) in E.
  - intros b p. destruct (valid_utf8 b); [|done]. destruct (ToyIdentity.of_text _); [|done]. by intros [= ->].
Qed.

End ToyRecord.

(** A console installation under [C:\ProgramData], set up and enrolled by one account. *)
Module ToyHost.

Definition program_data : string := "C:\ProgramData".
Definition user_sid : bytes := [Byte.x55].

Definition descriptor_of (who : bytes) (l : list bytes) (p : bool) : Descriptor :=
  {| owner := Some who; dacl := Some (ToyWin32.allow <$> l); dacl_protected := p |}.

(** The four texts the migration writes: full access, inherited below a directory. *)
Definition written (flags : Z) (l : list bytes) : Result Descriptor Z :=
  Ok {| owner := Some ToyWin32.system_sid;
        dacl := Some ((λ sid, {| ace_type := ACCESS_ALLOWED_ACE_TYPE; ace_flags := flags; ace_mask := 0x1F01FF;
                                 ace_sid := sid |}) <$> l);
        dacl_protected := true |}.
Definition sddl (s : string) : Result Descriptor Z :=
  if bool_decide (s = PRIVATE_DIRECTORY) then written 3 [ToyWin32.system_sid; ToyWin32.admin_sid]
  else if bool_decide (s = mc_shared_file_sddl migration_custody_system)
  then written 0 [ToyWin32.system_sid; ToyWin32.admin_sid]
  else if bool_decide (s = DIRECTORY_SDDL) then written 3 [ToyWin32.system_sid]
  else if bool_decide (s = FILE_SDDL) then written 0 [ToyWin32.system_sid]
  else Err 1336.

#[export] Instance security : Win32Security := {|
  IsValidSid := λ b, negb (bool_decide (b = []));
  IsWellKnownSid := λ b k, bool_decide (b = match k with
                                            | WinLocalSystemSid => ToyWin32.system_sid
                                            | WinBuiltinAdministratorsSid => ToyWin32.admin_sid
                                            end);
  EqualSid := λ a b, bool_decide (a = b);
  from_sddl_text := sddl;
  sid_to_string := λ b, Ok (String.string_of_list_byte b) |}.

Definition installation : InstalledPaths := under program_data.
Definition env : Environment :=
  {| me_paths := installation; me_custody := migration_custody_system; me_now := 100 |}.

(** *** The crates *)

Definition anchor_der : bytes := [Byte.x0a].
Definition pem_certificates (b : bytes) : list (Result bytes PemError) :=
  if bool_decide (b = bytes_of_text "anchor") then [Ok anchor_der]
  else if bool_decide (b = bytes_of_text "cert") then [Ok (certificate_der sample_certificate)] else [].
Definition pem_encode (l : list bytes) : string := "anchor".
Definition parse_rfc3339 (s : string) : option Z := if decide (s = "2027") then Some 200 else None.
Definition hostname : Result string string := Ok "PC".

Definition old_document : Toml :=
  TTable [("agent", TTable [("hostname", TString "h"); ("id", TString ToyEnrollment.agent_uuid)]);
          ("enrollment", TTable [("token", TString "t")]); ("server", TTable [("url", TString "https://s")])].
Definition new_document : Toml :=
  TTable [("agent", TTable [("hostname", TString "PC"); ("id", TString ToyEnrollment.agent_uuid)]);
          ("enrollment", TTable [("cert_path", TString (cert installation));
                                 ("identity_path", TString (identity installation));
                                 ("key_path", TString (key installation))]);
          ("server", TTable [("trust_anchor_path", TString (trust_anchor installation)); ("url", TString "https://s")])].

Definition config_at (anchor c k i host : string) (t : option string) : AgentConfig :=
  {| Config.server := {| url := "https://s"; trust_anchor_path := Some anchor; heartbeat_url := Some "https://s/h" |};
     agent := {| id := ToyEnrollment.agent_uuid; Config.hostname := host |};
     heartbeat := heartbeat_default; log := log_default;
     enrollment := Some {| token := t; cert_path := c; key_path := k; identity_path := i; timeout_seconds := 30;
                           enroll_max_retries := 3; enroll_backoff_initial_ms := 500;
                           enroll_backoff_factor := f64_of_u64 2 |};
     tls := None; envelope := None |}.
Definition old_config : AgentConfig :=
  let at_root name := join_path (data_root installation) name in
  config_at (at_root ANCHOR) (at_root CERT) (at_root KEY) (at_root IDENTITY) "h" (Some "t").
Definition new_config : AgentConfig :=
  config_at (trust_anchor installation) (cert installation) (key installation) (identity installation) "PC" None.

Definition no_toml : TomlError := {| toml_text := "no"; toml_span := None |}.
Definition toml_value (s : string) : Result Toml TomlError :=
  if decide (s = "old") then Ok old_document else if decide (s = "new") then Ok new_document else Err no_toml.
Definition toml_config (s : string) : Result AgentConfig TomlError :=
  if decide (s = "old") then Ok old_config else if decide (s = "new") then Ok new_config else Err no_toml.
Definition toml_to_string (d : Toml) : Result string string := Ok "new".

(** *** The files *)

Definition sealed_seed : bytes :=
  match seal (SecureStore := InsecureDevStore) ToyEnrollment.seed with Ok b => b | Err _ => [] end.

Definition object (directory : bool) (n : Z) (name : string) (d : Descriptor) (b : bytes) : Object :=
  {| info := {| reparse_point := false; is_directory := directory; links := 1; volume_serial := 7; index_high := 0;
                index_low := n |};
     descriptor := d; contents := b; spelled := name; case_sensitive := false |}.

Definition both_sids : Descriptor := descriptor_of ToyWin32.system_sid [ToyWin32.system_sid; ToyWin32.admin_sid] false.
Definition enrolled_sids : Descriptor := descriptor_of ToyWin32.admin_sid [ToyWin32.system_sid; user_sid] true.

Definition root : Path := ["c:"; "programdata"; "cyberguard"].
Definition console_files : gmap Path Object := list_to_map [
  (["c:"; "programdata"], object true 1 "ProgramData" both_sids []);
  (root, object true 2 "CyberGuard" both_sids []);
  (root ++ ["agent"], object true 3 "agent" both_sids []);
  ((root ++ ["agent"]) ++ ["agent.toml"], object false 4 "agent.toml" both_sids (bytes_of_text "old"));
  ((root ++ ["agent"]) ++ ["server-ca.pem"], object false 5 "server-ca.pem" both_sids (bytes_of_text "anchor"));
  ((root ++ ["agent"]) ++ ["cert.pem"], object false 6 "cert.pem" enrolled_sids (bytes_of_text "cert"));
  ((root ++ ["agent"]) ++ ["key.dat"], object false 7 "key.dat" enrolled_sids sealed_seed);
  ((root ++ ["agent"]) ++ ["identity.json"], object false 8 "identity.json" enrolled_sids (bytes_of_text "saved"))].

Definition console : MigrationWorld :=
  {| mfs := {| objects := console_files; call_faults := []; wait_faults := []; new_ids := [] |};
     watch_answers := []; std_reads := []; actions := [] |}.

Definition request : Request :=
  {| rq_choice := Remove; rq_fingerprints := {[ fingerprint (W := ToyEnrollment.wire) anchor_der ]} |}.

Definition start := prepare (W := ToyEnrollment.wire) (K := ToyEnrollment.keys) (St := InsecureDevStore)
  (J := ToyIdentity.json) (M := ToyRecord.json) (Sec := security)
  toml_value toml_config toml_to_string pem_certificates pem_encode parse_rfc3339 hostname env.

(** The store after a start, and a start whose second rename is cut off. *)
Definition migrated : MigrationWorld := (start (Some request) (Ok tt) console).2.
Definition cut_off : MigrationWorld :=
  {| mfs := mfs console; watch_answers := replicate 32 None ++ [Some Crash]; std_reads := []; actions := [] |}.

End ToyHost.
