(* ===== verification/MigrationSafety.v ===== *)
(** * What a migration can never lose ([service/migration.rs])

    Whatever calls fail, however long they wait and wherever the start is cut off,
    the console installation's files stay whole, at the data root or in the legacy
    directory; nothing changes without the lock; and the pass over the old copies
    touches only the files the record names. *)

From stdpp Require Import sorting.
From S2P Require Import Prelude FileTree IpAddr Types Errors Network Config Signing Tls TlsConfig X509.
From S2P Require Import Transport Enrollment Identity Custody CustodyTree Installed Service.
From S2P Require Import MigrationChecks MigrationRun MigrationToy.
Open Scope Z_scope.

(** ** Where the directories are *)

(** A directory's text that a name can be joined to. *)
Definition joinable (base : string) : Prop := base ≠ "" ∧ bare_drive base = false.

Lemma is_separator_slash c : is_separator c = is_slash c.
Proof. done. Qed.

Lemma last_char_some base : base ≠ "" → is_Some (last_char base).
Proof.
  destruct base as [|a base]; [done|]. intros _. revert a.
  induction base as [|b base IH]; intros a; cbn [last_char]; [done|]. apply IH.
Qed.

Lemma last_char_app base c : last_char base = Some c → ∃ b, base = b +:+ String c "".
Proof.
  induction base as [|a base IH]; [done|]. cbn [last_char]. destruct base as [|a' base].
  - intros [= ->]. by exists "".
  - intros H. destruct (IH H) as [b ->]. by exists (String a b).
Qed.

Lemma components_trailing b c : is_slash c = true → components (b +:+ String c "") = components b.
Proof.
  intros Hc. unfold components. rewrite pieces_app_slash by done. rewrite filter_app. cbn [pieces].
  rewrite filter_cons_False, filter_nil, app_nil_r; [done|]. naive_solver.
Qed.

Lemma components_join_path base n :
  joinable base → plain_name n = true → components (join_path base n) = components base ++ [n].
Proof.
  intros [Hne Hb] Hn. unfold join_path. destruct (last_char_some base Hne) as [c El]. rewrite El.
  rewrite Hb, orb_false_r, is_separator_slash. destruct (is_slash c) eqn:Ec.
  - apply last_char_app in El as [b ->]. rewrite app_str_assoc.
    change (String c "" +:+ n) with (String c n).
    by rewrite components_join, components_trailing.
  - by apply components_join.
Qed.

Lemma path_key_join base n :
  joinable base → plain_name n = true → path_key (join_path base n) = path_key base ++ [lowercase n].
Proof. intros. unfold path_key. by rewrite components_join_path, fmap_app. Qed.

Lemma file_name_join base n : joinable base → plain_name n = true → file_name (join_path base n) = n.
Proof. intros. unfold file_name. by rewrite components_join_path, last_snoc. Qed.

Lemma joinable_join base n : joinable base → (2 ≤ String.length n)%nat → joinable (join_path base n).
Proof.
  intros [Hne Hb] Hn. pose proof (length_join_path base n) as Hl. split.
  - intros E. rewrite E in Hl. cbn in Hl. lia.
  - destruct (last_char_some base Hne) as [c El]. rewrite El in Hl.
    assert (2 < String.length (join_path base n))%nat as H2.
    { rewrite Hl. destruct base as [|a base]; [done|]. cbn [String.length]. lia. }
    by destruct (join_path base n) as [|? [|? [|? ?]]]; cbn in H2; try lia.
Qed.

(** The text before the last component of a joined path. *)
Lemma directory_part_plain n : forallb_str (λ c, negb (is_slash c)) n = true → directory_part n = "".
Proof.
  induction n as [|a n IH]; [done|]. cbn. intros [Ha Hn]%andb_true_iff. apply negb_true_iff in Ha.
  by rewrite Ha, IH.
Qed.

Lemma directory_part_app b c n :
  is_slash c = true → forallb_str (λ c, negb (is_slash c)) n = true →
  directory_part (b +:+ String c n) = b +:+ String c "".
Proof.
  intros Hc Hn. induction b as [|a b IH].
  - change ("" +:+ String c n) with (String c n). cbn. by rewrite Hc, directory_part_plain.
  - rewrite !app_str_cons. cbn [directory_part]. rewrite IH. destruct (is_slash a); [done|].
    by destruct b.
Qed.

Lemma with_file_name_join base n n' :
  joinable base → plain_name n = true → with_file_name (join_path base n) n' = join_path base n'.
Proof.
  intros [Hne Hb] [_ Hn]%andb_true_iff. unfold with_file_name, join_path.
  destruct (last_char_some base Hne) as [c El]. rewrite El.
  rewrite Hb, orb_false_r, is_separator_slash. destruct (is_slash c) eqn:Ec.
  - apply last_char_app in El as [b ->]. rewrite app_str_assoc.
    change (String c "" +:+ n) with (String c n). by rewrite directory_part_app.
  - rewrite directory_part_app by done. by rewrite app_str_assoc.
Qed.

(** Under one product root, at the product's names. *)
Record placed (p : InstalledPaths) (root : Path) : Prop := {
  placed_joinable : joinable (product_root p) ∧ joinable (data_root p) ∧ joinable (staging p) ∧ joinable (legacy p);
  placed_root : path_key (product_root p) = root;
  placed_data : path_key (data_root p) = root ++ ["agent"];
  placed_staging : path_key (staging p) = root ++ ["agent.migrating"];
  placed_legacy : path_key (legacy p) = root ++ ["agent.legacy"];
  placed_record : path_key (record p) = (root ++ ["agent"]) ++ ["migration.json"];
  placed_names : file_name (data_root p) = "agent" ∧ file_name (staging p) = "agent.migrating" ∧
                 file_name (legacy p) = "agent.legacy";
}.

(** Every installation is. *)
Lemma placed_under program_data :
  joinable program_data → placed (under program_data) (path_key program_data ++ ["cyberguard"]).
Proof.
  intros H.
  assert (joinable (product_root (under program_data))) as H1 by (apply joinable_join; [done|cbn; lia]).
  assert (path_key (product_root (under program_data)) = path_key program_data ++ ["cyberguard"]) as K1
    by (by apply (path_key_join _ "CyberGuard")).
  assert (joinable (data_root (under program_data))) as H2 by (apply joinable_join; [done|cbn; lia]).
  assert (path_key (data_root (under program_data)) = (path_key program_data ++ ["cyberguard"]) ++ ["agent"]) as K2
    by (rewrite <- K1; by apply (path_key_join _ "agent")).
  split.
  - split_and!; [done|done|apply joinable_join; [done|cbn; lia]|apply joinable_join; [done|cbn; lia]].
  - done.
  - done.
  - rewrite <- K1. by apply (path_key_join _ "agent.migrating").
  - rewrite <- K1. by apply (path_key_join _ "agent.legacy").
  - rewrite <- K2. by apply (path_key_join _ "migration.json").
  - split_and!; by apply file_name_join.
Qed.

(** ** How an operation of the migration may change the objects *)

Definition store (w : MigrationWorld) : gmap Path Object := objects (mfs w).

Definition mchanges {X E : Type} (R : relation (gmap Path Object)) (m : MM X E) : Prop :=
  ∀ w, R (store w) (store (m w).2).

Section MChanges.
Context (R : relation (gmap Path Object)) `{!Reflexive R} `{!Transitive R}.

Lemma mchanges_bind {X Y E : Type} (m : MM X E) (f : X → MM Y E) :
  mchanges R m → (∀ x, mchanges R (f x)) → mchanges R (mbind m f).
Proof.
  intros Hm Hf w. unfold mbind. pose proof (Hm w). destruct (m w) as [[x|e] w1]; cbn in *; [|done].
  etrans; [done|apply Hf].
Qed.
Lemma mchanges_bind_ok {X Y E : Type} (m : MM X E) (f : X → MM Y E) :
  mchanges R m → (∀ w x w', m w = (Ok x, w') → mchanges R (f x)) → mchanges R (mbind m f).
Proof.
  intros Hm Hf w. unfold mbind. pose proof (Hm w). destruct (m w) as [[x|e] w1] eqn:E1; cbn in *; [|done].
  etrans; [done|by eapply Hf].
Qed.
Lemma mchanges_catch {X E F : Type} (m : MM X E) (h : E → MM X F) :
  mchanges R m → (∀ e, mchanges R (h e)) → mchanges R (mcatch m h).
Proof.
  intros Hm Hf w. unfold mcatch. pose proof (Hm w). destruct (m w) as [[x|e] w1]; cbn in *; [done|].
  etrans; [done|apply Hf].
Qed.
Lemma mchanges_map_err {X E F : Type} (f : E → F) (m : MM X E) : mchanges R m → mchanges R (mmap_err f m).
Proof. intros H w. unfold mmap_err. pose proof (H w). by destruct (m w). Qed.
Lemma mchanges_try {X E F : Type} (m : MM X E) : mchanges R m → mchanges R (@mtry X E F m).
Proof. intros H w. unfold mtry. pose proof (H w). by destruct (m w). Qed.
Lemma mchanges_ret {X E : Type} (x : X) : mchanges R (@mret X E x).
Proof. intros w. cbn. reflexivity. Qed.
Lemma mchanges_err {X E : Type} (e : E) : mchanges R (@merr X E e).
Proof. intros w. cbn. reflexivity. Qed.
Lemma mchanges_of {X E : Type} (r : Result X E) : mchanges R (mof r).
Proof. intros w. cbn. reflexivity. Qed.
Lemma mchanges_fs {X E : Type} (m : CM X E) : changes R m → mchanges R (fs m).
Proof. intros H w. unfold fs, store. pose proof (H (mfs w)). by destruct (m (mfs w)). Qed.
Lemma mchanges_fsi {X : Type} (m : CM X string) : changes R m → mchanges R (fsi m).
Proof. intros H. by apply mchanges_map_err, mchanges_fs. Qed.
Lemma mchanges_fs_or {X E : Type} (d : X) (m : CM X string) : changes R m → mchanges R (@fs_or X E d m).
Proof. intros H w. unfold fs_or, store. pose proof (H (mfs w)). by destruct (m (mfs w)). Qed.
Lemma mchanges_at p : mchanges R (at_point p).
Proof. intros w. unfold at_point. destruct (watch_answers w) as [|a l]; cbn; reflexivity. Qed.
Lemma mchanges_lock lock : mchanges R (take_lock lock).
Proof. intros w. cbn. reflexivity. Qed.
Lemma mchanges_loading {X : Type} config (m : IM X) : mchanges R (loading config m).
Proof. intros w. unfold loading, store. destruct (m _). cbn. reflexivity. Qed.
Lemma mchanges_there {E : Type} path : mchanges R (@is_there E path).
Proof.
  intros w. unfold is_there, store. pose proof (symlink_metadata_inspects path (mfs w)) as H.
  destruct (symlink_metadata path (mfs w)). cbn in *. rewrite H. reflexivity.
Qed.
End MChanges.

Create HintDb inspection.
#[export] Hint Resolve open_existing_inspects check_shape_inspects security_of_inspects check_security_inspects
  check_if_exists_inspects check_inspects owned_by_inspects allow_entries_inspects open_waiting_inspects
  file_information_inspects read_unshared_inspects has_security_inspects is_plain_directory_inspects
  is_case_sensitive_inspects symlink_metadata_inspects entries_inspects read_checked_within_inspects read_checked_inspects
  inspects_of inspects_ret inspects_err check_descriptor_inspects : inspection.

Notation minspects := (mchanges eq).

Lemma minspects_changes {X E : Type} (R : relation (gmap Path Object)) `{!Reflexive R} (m : MM X E) :
  minspects m → mchanges R m.
Proof. intros H w. rewrite <- (H w). reflexivity. Qed.

(** One step through an operation's structure; what is left are its calls. *)
Ltac walk_step :=
  lazymatch goal with
  | |- mchanges _ (mbind _ _) => apply (mchanges_bind _); [|intros ?]
  | |- mchanges _ (mcatch _ _) => apply (mchanges_catch _); [|intros ?]
  | |- mchanges _ (mmap_err _ _) => apply (mchanges_map_err _)
  | |- mchanges _ (mtry _) => apply (mchanges_try _)
  | |- mchanges _ (mret _) => apply (mchanges_ret _)
  | |- mchanges _ (merr _) => apply (mchanges_err _)
  | |- mchanges _ (mof _) => apply (mchanges_of _)
  | |- mchanges _ (fs _) => apply (mchanges_fs _)
  | |- mchanges _ (fsi _) => apply (mchanges_fsi _)
  | |- mchanges _ (fs_or _ _) => apply (mchanges_fs_or _)
  | |- mchanges _ (at_point _) => apply (mchanges_at _)
  | |- mchanges _ (take_lock _) => apply (mchanges_lock _)
  | |- mchanges _ (loading _ _) => apply (mchanges_loading _)
  | |- mchanges _ (is_there _) => apply (mchanges_there _)
  | |- mchanges _ (match ?x with _ => _ end) => destruct x
  | |- changes _ (cbind _ _) => apply (changes_bind _); [|intros ?]
  | |- changes _ (cmap_err _ _) => apply changes_map_err
  | |- changes _ (bounded _ _) => apply (changes_bounded _)
  | |- changes _ (match ?x with _ => _ end) => destruct x
  end; cbv beta.
Ltac inspect_leaf :=
  first [ solve [eauto with inspection]
        | apply (inspects_changes _); solve [eauto with inspection]
        | apply (minspects_changes _); solve [eauto with inspection] ].
Ltac walk := repeat first [inspect_leaf | walk_step].

Section Safety.
Context {W : WireCrypto} {K : KeyBytes W} {St : SecureStore} {J : IdentityJson} {M : MigrationJson}.
Context {Sec : Win32Security}.
Context (toml_value : string → Result Toml TomlError) (toml_config : string → Result AgentConfig TomlError).
Context (toml_to_string : Toml → Result string string).
Context (pem_certificates : bytes → list (Result bytes PemError)).
Context (pem_encode : list bytes → string) (parse_rfc3339 : string → option Z).
Context (hostname : Result string string).
Context (env : Environment).

#[local] Notation paths := (me_paths env).
#[local] Notation prepare := (prepare toml_value toml_config toml_to_string pem_certificates pem_encode
  parse_rfc3339 hostname env).

(** *** Results *)

Lemma mbind_ok {X Y E : Type} (m : MM X E) (f : X → MM Y E) w y w' :
  mbind m f w = (Ok y, w') → ∃ x w1, m w = (Ok x, w1) ∧ f x w1 = (Ok y, w').
Proof. unfold mbind. destruct (m w) as [[x|e] w1]; [|done]. eauto. Qed.

Lemma mbind_run {X Y E : Type} (m : MM X E) (f : X → MM Y E) w :
  (mbind m f w).2 = match m w with (Ok x, w1) => (f x w1).2 | (Err _, w1) => w1 end.
Proof. unfold mbind. by destruct (m w) as [[x|e] w1]. Qed.

Lemma mmap_err_run {X E F : Type} (f : E → F) (m : MM X E) w : mmap_err f m w = (map_err f (m w).1, (m w).2).
Proof. unfold mmap_err. by destruct (m w). Qed.

Lemma fs_ok {X E : Type} (m : CM X E) w x w' :
  fs m w = (Ok x, w') → m (mfs w) = (Ok x, mfs w').
Proof. unfold fs. destruct (m (mfs w)) as [r c]. by intros [= -> <-]. Qed.

Lemma mcatch_ok {X E F : Type} (m : MM X E) (h : E → MM X F) w x w' :
  mcatch m h w = (Ok x, w') → m w = (Ok x, w') ∨ ∃ e w1, m w = (Err e, w1) ∧ h e w1 = (Ok x, w').
Proof. unfold mcatch. destruct (m w) as [[y|e] w1]; [intros [= -> ->]; by left|eauto]. Qed.

Lemma in_place_not_ok {A : Type} code line w (x : A) w' : in_place env code line w ≠ (Ok x, w').
Proof. unfold in_place. intros (? & w1 & _ & H)%mbind_ok. done. Qed.

(** *** What only reads *)

Lemma restricted_of_inspects {E : Type} l : minspects (@restricted_of Sec env E l).
Proof. induction l as [|[path shown] l IH]; cbn [restricted_of]; walk. Qed.
#[local] Hint Resolve restricted_of_inspects : inspection.

Lemma in_place_inspects {A : Type} code line : minspects (@in_place Sec env A code line).
Proof. unfold in_place, with_state. walk. Qed.
#[local] Hint Resolve in_place_inspects : inspection.

Lemma cut_in_place_inspects {A : Type} code render cut : minspects (@cut_in_place Sec env A code render cut).
Proof. unfold cut_in_place. walk. Qed.
#[local] Hint Resolve cut_in_place_inspects : inspection.

Lemma counts_inspects {E : Type} path : minspects (@counts Sec env E path).
Proof. unfold counts. apply (mchanges_fs_or _), check_if_exists_inspects. Qed.

Lemma staged_record_inspects : minspects (staged_record env).
Proof.
  intros w. unfold staged_record, store.
  pose proof (read_checked_within_inspects (staged_record_path env) (mc_configuration (me_custody env)) (mfs w)).
  by destruct (read_checked_within _ _ (mfs w)).
Qed.

Lemma data_root_record_inspects : minspects (data_root_record env).
Proof. unfold data_root_record. walk. Qed.

Lemma check_each_directory_inspects console l : minspects (check_each_directory env console l).
Proof. induction l as [|d l IH]; cbn [check_each_directory]; walk. Qed.

Lemma check_data_directories_inspects console : minspects (check_data_directories env console).
Proof. apply check_each_directory_inspects. Qed.

Lemma check_staged_files_inspects policy dir names : inspects (check_staged_files policy dir names).
Proof. induction names as [|n names IH]; cbn [check_staged_files]; walk. Qed.

#[local] Hint Resolve counts_inspects staged_record_inspects data_root_record_inspects
  check_data_directories_inspects check_staged_files_inspects : inspection.

Lemma check_staged_inspects r : minspects (check_staged toml_value toml_config pem_certificates env r).
Proof. unfold check_staged. walk. Qed.

Lemma check_closable_inspects d path : inspects (check_closable env d path).
Proof. unfold check_closable. walk. Qed.

Lemma check_root_entries_inspects b : minspects (check_root_entries env b).
Proof. unfold check_root_entries. walk. Qed.

Lemma data_root_names_inspects : minspects (data_root_names env).
Proof. unfold data_root_names. walk. Qed.

Lemma check_file_inspects path name : inspects (check_file env path name).
Proof. unfold check_file. walk. Qed.

#[local] Hint Resolve check_staged_inspects check_closable_inspects check_root_entries_inspects
  data_root_names_inspects check_file_inspects : inspection.

Lemma check_files_inspects names files enrolling : minspects (check_files env names files enrolling).
Proof. revert files enrolling. induction names as [|n names IH]; intros; cbn [check_files]; walk. Qed.
#[local] Hint Resolve check_files_inspects : inspection.

Lemma check_what_is_there_inspects attempt : minspects (check_what_is_there env attempt).
Proof. unfold check_what_is_there, stop. walk. Qed.

Lemma read_files_inspects files read : minspects (read_files env files read).
Proof. revert read. induction files as [|[n id] files IH]; intros; cbn [read_files]; walk. Qed.
#[local] Hint Resolve check_what_is_there_inspects read_files_inspects : inspection.

Lemma read_each_file_inspects request attempt checked :
  minspects (read_each_file toml_value toml_config pem_certificates parse_rfc3339 env request attempt checked).
Proof. unfold read_each_file. walk. Qed.

Lemma check_links_inspects h path : inspects (check_links h path).
Proof. unfold check_links. walk. Qed.

Lemma check_names_again_inspects checked : minspects (check_names_again env checked).
Proof. unfold check_names_again. walk. Qed.

Lemma any_there_inspects {E : Type} names : minspects (@any_there env E names).
Proof. induction names as [|n names IH]; cbn [any_there]; walk. Qed.

Lemma check_copy_inspects h path name r : inspects (check_copy h path name r).
Proof. unfold check_copy. walk. Qed.

#[local] Hint Resolve read_each_file_inspects check_links_inspects check_names_again_inspects
  any_there_inspects check_copy_inspects : inspection.

(** *** The steps a start is made of *)

Section Steps.
Context (root : Path) (Hplaced : placed paths root).
#[local] Notation D := (root ++ ["agent"]).
#[local] Notation S := (root ++ ["agent.migrating"]).
#[local] Notation L := (root ++ ["agent.legacy"]).

(** A security changed, something done in the staging directory alone, one of the
    commit's two renames, or the first one reversed. *)
Inductive migration_step : relation (gmap Path Object) :=
| step_secure m k o d :
    m !! k = Some o → k = root ∨ below D k = true → migration_step m (<[k := with_descriptor o d]> m)
| step_stage (m m' : gmap Path Object) :
    (∀ k, below S k = false → m' !! k = m !! k) → migration_step m m'
| step_first m o :
    m !! D = Some o → unoccupied L m → migration_step m (renamed D o (legacy paths) m)
| step_second m o :
    m !! S = Some o → unoccupied D m → migration_step m (renamed S o (data_root paths) m)
| step_back m o :
    m !! L = Some o → unoccupied D m → migration_step m (renamed L o (data_root paths) m).

#[local] Notation steps := (rtc migration_step).

Lemma in_data_root_key name : plain_name name = true → path_key (in_data_root env name) = D ++ [lowercase name].
Proof.
  intros Hn. destruct (placed_joinable _ _ Hplaced) as (_ & Hj & _). unfold in_data_root.
  by rewrite path_key_join, (placed_data _ _ Hplaced).
Qed.

Lemma in_staging_key name : plain_name name = true → path_key (join_path (staging paths) name) = S ++ [lowercase name].
Proof.
  intros Hn. destruct (placed_joinable _ _ Hplaced) as (_ & _ & Hj & _).
  by rewrite path_key_join, (placed_staging _ _ Hplaced).
Qed.

Lemma in_identity_key name :
  plain_name name = true →
  path_key (join_path (join_path (staging paths) IDENTITY_DIRECTORY) name) = (S ++ ["identity"]) ++ [lowercase name].
Proof.
  intros Hn. destruct (placed_joinable _ _ Hplaced) as (_ & _ & Hj & _).
  rewrite path_key_join; [|by apply joinable_join; [|cbn; lia]|done]. by rewrite (in_staging_key IDENTITY_DIRECTORY).
Qed.

Lemma rewrite_temporary_key :
  path_key (with_file_name (staged_record_path env) RECORD_TEMPORARY) = S ++ ["migration.json.rewrite-tmp"].
Proof.
  destruct (placed_joinable _ _ Hplaced) as (_ & _ & Hj & _). unfold staged_record_path.
  rewrite with_file_name_join by done. by rewrite in_staging_key.
Qed.

(** A step inside the staging directory. *)
Lemma step_inside m m' k : (∀ j, j ≠ S ++ k → m' !! j = m !! j) → steps m m'.
Proof.
  intros H. apply rtc_once, step_stage. intros j Hj. apply H. intros ->. by rewrite below_app in Hj.
Qed.

Lemma step_insert_inside m k o : steps m (<[S ++ k := o]> m).
Proof. apply (step_inside _ _ k). intros j Hj. by rewrite lookup_insert_ne. Qed.

Lemma step_replaced m m' d b ok :
  replaced (S ++ ["migration.json"]) (S ++ ["migration.json.rewrite-tmp"]) d b ok m m' → steps m m'.
Proof.
  intros (_ & H & _). apply rtc_once, step_stage. intros k Hk.
  apply H; intros ->; by rewrite below_app in Hk.
Qed.

Lemma set_security_steps h path sddl :
  path_key path = root ∨ below D (path_key path) = true → changes steps (set_security h path sddl).
Proof.
  intros Hk. apply (set_security_changes _). intros m o d Ho _. apply rtc_once. by apply step_secure.
Qed.

Lemma rewrite_staged_steps r : mchanges steps (rewrite env (staged_record_path env) r).
Proof.
  unfold rewrite. walk. apply (replace_changes _).
  - rewrite rewrite_temporary_key. unfold staged_record_path. rewrite (in_staging_key RECORD) by done.
    intros H. apply app_inv_head in H. done.
  - intros m m' o ok _ _ H. rewrite rewrite_temporary_key in H. unfold staged_record_path in H.
    rewrite (in_staging_key RECORD) in H by done. by eapply step_replaced.
Qed.

Lemma create_staged_steps path sddl b r :
  path_key path = S ++ r → changes steps (create_new_file path sddl b).
Proof. intros Hk. apply (create_new_file_changes _). intros m d o stored _ _ _ _. rewrite Hk. apply step_insert_inside. Qed.

Lemma create_directory_steps path sddl r :
  path_key path = S ++ r → changes steps (create_new_directory path sddl).
Proof. intros Hk. apply (create_new_directory_changes _). intros m d o _ _ _. rewrite Hk. apply step_insert_inside. Qed.

Lemma remove_dir_all_steps path r : path_key path = S ++ r → changes steps (remove_dir_all path).
Proof.
  intros Hk. apply (remove_dir_all_changes _); intros m.
  - intros n. apply rtc_once, step_stage. intros k Hb. rewrite delete_all_lookup. case_decide as Hin; [|done].
    apply elem_of_take in Hin as (i & Hi & _). apply list_elem_of_lookup_2, elem_of_descendants in Hi as [Hi _].
    rewrite Hk in Hi. apply below_spec in Hi as [r' ->]. by rewrite <- app_assoc, below_app in Hb.
  - apply rtc_once, step_stage. intros k Hb. rewrite remove_tree_lookup. destruct (below (path_key path) k) eqn:E; [|done].
    rewrite Hk in E. apply below_spec in E as [r' ->]. by rewrite <- app_assoc, below_app in Hb.
Qed.

Lemma remove_file_steps path r : path_key path = S ++ r → changes steps (remove_file path).
Proof.
  intros Hk. apply (remove_file_changes _). intros m. rewrite Hk. apply (step_inside _ _ r).
  intros j Hj. by rewrite lookup_delete_ne.
Qed.

Lemma rename_first_steps : changes steps (rename (data_root paths) (legacy paths)).
Proof.
  apply (rename_changes _). intros m o Ho Hu _. apply rtc_once.
  rewrite (placed_data _ _ Hplaced) in *. rewrite (placed_legacy _ _ Hplaced) in Hu. by apply step_first.
Qed.
Lemma rename_second_steps : changes steps (rename (staging paths) (data_root paths)).
Proof.
  apply (rename_changes _). intros m o Ho Hu _. apply rtc_once.
  rewrite (placed_staging _ _ Hplaced) in *. rewrite (placed_data _ _ Hplaced) in Hu. by apply step_second.
Qed.
Lemma rename_back_steps : changes steps (rename (legacy paths) (data_root paths)).
Proof.
  apply (rename_changes _). intros m o Ho Hu _. apply rtc_once.
  rewrite (placed_legacy _ _ Hplaced) in *. rewrite (placed_data _ _ Hplaced) in Hu. by apply step_back.
Qed.
#[local] Hint Resolve rewrite_staged_steps rename_first_steps rename_second_steps rename_back_steps : inspection.

Lemma reverse_steps {A : Type} r cause : mchanges steps (@reverse M Sec env A r cause).
Proof. unfold reverse. walk. Qed.
#[local] Hint Resolve reverse_steps : inspection.

Lemma between_steps request lock :
  mchanges steps (between_the_renames toml_value toml_config pem_certificates env request lock).
Proof. unfold between_the_renames. walk. Qed.

Lemma close_steps path point :
  path_key path = root ∨ below D (path_key path) = true → mchanges steps (close env path point).
Proof. intros H. unfold close. walk. by apply set_security_steps. Qed.

Lemma close_directories_steps : mchanges steps (close_directories env).
Proof.
  unfold close_directories. walk; apply close_steps.
  - left. apply (placed_root _ _ Hplaced).
  - right. rewrite (placed_data _ _ Hplaced). apply below_self.
Qed.

Lemma delete_interrupted_steps : mchanges steps (delete_interrupted_staging env).
Proof.
  unfold delete_interrupted_staging. walk. apply (remove_dir_all_steps _ []).
  by rewrite (placed_staging _ _ Hplaced), app_nil_r.
Qed.

Lemma restrict_file_steps name id : plain_name name = true → mchanges steps (restrict_file env name id).
Proof.
  intros Hn. unfold restrict_file. walk. apply set_security_steps. right.
  rewrite in_data_root_key by done. apply below_app.
Qed.

Lemma restrict_files_steps files :
  Forall (λ f, plain_name f.1 = true) files → mchanges steps (restrict_files env files).
Proof.
  induction 1 as [|[name id] files Hn _ IH]; cbn [restrict_files]; walk. by apply restrict_file_steps.
Qed.

Lemma clear_entries_steps l : Forall (λ n, plain_name n = true) l → changes steps (clear_entries env l).
Proof.
  induction 1 as [|n l Hn _ IH]; cbn [clear_entries]; walk. unfold delete_staged. walk.
  - eapply remove_dir_all_steps. by apply in_staging_key.
  - eapply remove_file_steps. by apply in_staging_key.
Qed.

Lemma clear_staged_steps : changes steps (clear_staged env).
Proof.
  apply (changes_bind_ok _); [apply (inspects_changes _), entries_inspects|].
  intros w l w' Hl. by eapply clear_entries_steps, entries_plain.
Qed.
#[local] Hint Resolve clear_staged_steps : inspection.

Lemma stage_files_steps verified :
  mchanges steps (stage_files toml_value toml_to_string pem_encode hostname env verified).
Proof.
  unfold stage_files. cbn [stage_identity]. walk.
  - by eapply create_staged_steps, (in_staging_key CONFIG).
  - by eapply create_staged_steps, (in_staging_key ANCHOR).
  - by eapply create_directory_steps, (in_staging_key IDENTITY_DIRECTORY).
  - eapply create_staged_steps. by rewrite (in_identity_key CERT), <- app_assoc.
  - eapply create_staged_steps. by rewrite (in_identity_key KEY), <- app_assoc.
  - eapply create_staged_steps. by rewrite (in_identity_key IDENTITY), <- app_assoc.
Qed.
#[local] Hint Resolve stage_files_steps : inspection.

Lemma record_and_stage_steps request attempt checked verified :
  mchanges steps (record_and_stage toml_value toml_config toml_to_string pem_certificates pem_encode hostname env
                    request attempt checked verified).
Proof.
  unfold record_and_stage. walk.
  - apply (create_directory_steps _ _ []). by rewrite (placed_staging _ _ Hplaced), app_nil_r.
  - by eapply create_staged_steps, (in_staging_key RECORD).
Qed.

Lemma commit_steps r checked : mchanges steps (commit env r checked).
Proof. unfold commit. walk. Qed.

(** The names that were checked are the product's. *)
Lemma known_name_some entry name :
  known_name entry = Some name → name ∈ REQUIRED ++ [TEMPORARY] ∧ lowercase name = lowercase entry.
Proof.
  unfold known_name. intros H. pose proof (find_some _ _ H) as [Hin He]. apply list_elem_of_In in Hin.
  split; [done|]. by apply bool_decide_eq_true in He.
Qed.

Lemma product_name_plain name : name ∈ REQUIRED ++ [TEMPORARY] → plain_name name = true ∧ lowercase name = name.
Proof.
  intros H. assert (Forall (λ n, plain_name n = true ∧ lowercase n = n) (REQUIRED ++ [TEMPORARY])) as HF.
  { repeat constructor. }
  rewrite Forall_forall in HF. by apply HF.
Qed.

Lemma collect_names_known l names names' :
  collect_names env l names = Ok names' → Forall (λ n, n ∈ REQUIRED ++ [TEMPORARY]) names →
  Forall (λ n, n ∈ REQUIRED ++ [TEMPORARY]) names'.
Proof.
  revert names. induction l as [|e l IH]; intros names; cbn [collect_names]; [by intros [= <-]|].
  destruct (known_name e) as [n|] eqn:En; [|done]. case_decide as Hnew; [done|]. intros H Hf.
  apply (IH _ H). apply Forall_app. split; [done|]. constructor; [|done]. by apply known_name_some in En as [? _].
Qed.

Lemma check_files_names names files enrolling w checked w' :
  check_files env names files enrolling w = (Ok checked, w') → (ck_files checked).*1 = files.*1 ++ names.
Proof.
  revert files enrolling w. induction names as [|n names IH]; intros files enrolling w; cbn [check_files].
  { intros [= <- _]. by rewrite app_nil_r. }
  intros (? & w1 & _ & H)%mbind_ok. apply mbind_ok in H as ([id found] & w2 & _ & H).
  assert (∀ enr w0, check_files env names (files ++ [(n, id)]) enr w0 = (Ok checked, w') →
    (ck_files checked).*1 = files.*1 ++ n :: names) as Hnext.
  { intros enr w0 H0. apply IH in H0 as ->. by rewrite fmap_app, <- app_assoc. }
  destruct found as [other|]; [|by eapply Hnext]. case_match; [by apply in_place_not_ok in H|by eapply Hnext].
Qed.

Lemma check_what_is_there_names attempt w checked w' :
  check_what_is_there env attempt w = (Ok checked, w') →
  Forall (λ f, f.1 ∈ REQUIRED ++ [TEMPORARY]) (ck_files checked).
Proof.
  unfold check_what_is_there, stop. intros (? & w1 & _ & H)%mbind_ok. apply mbind_ok in H as (? & w2 & _ & H).
  apply mbind_ok in H as (sensitive & w3 & _ & H). destruct sensitive; [by apply in_place_not_ok in H|].
  apply mbind_ok in H as (names & w4 & Hn & H). apply mcatch_ok in Hn as [Hn|(e & w5 & _ & Hn)];
    [|by apply in_place_not_ok in Hn].
  unfold data_root_names in Hn. apply mbind_ok in Hn as (l & w5 & _ & [= Hn _]).
  apply collect_names_known in Hn; [|done].
  destruct (missing_name names); [by apply in_place_not_ok in H|]. apply check_files_names in H.
  apply Forall_forall. intros f Hf. rewrite Forall_forall in Hn. apply Hn.
  apply (list_elem_of_fmap_2 fst) in Hf. rewrite H in Hf. cbn in Hf. by rewrite merge_sort_Permutation in Hf.
Qed.

Lemma route_steps request attempt lock :
  mchanges steps (route toml_value toml_config toml_to_string pem_certificates pem_encode parse_rfc3339 hostname
                    env request attempt lock).
Proof.
  unfold route. apply (mchanges_bind _); [walk|]. intros _.
  apply (mchanges_bind _); [apply close_directories_steps|]. intros _.
  apply (mchanges_bind _); [destruct attempt; walk; apply delete_interrupted_steps|]. intros _.
  apply (mchanges_bind_ok _); [walk|]. intros w checked w' Hc. apply check_what_is_there_names in Hc.
  walk.
  - apply restrict_files_steps. eapply Forall_impl; [exact Hc|]. intros f Hf. by apply product_name_plain.
  - apply record_and_stage_steps.
  - apply commit_steps.
Qed.

(** Every run of [prepare] is a sequence of these steps. *)
Lemma prepare_steps request lock : mchanges steps (prepare request lock).
Proof.
  unfold MigrationRun.prepare, beside_a_console_layout, committed, plain. walk;
    first [apply between_steps | apply route_steps].
Qed.

(** *** Invariants of the steps *)

(** What a directory holds, but for names and security. *)
Definition snapshot (d : Path) (m : gmap Path Object) (r : Path) : option (FileInfo * bytes) :=
  (λ o, (info o, contents o)) <$> m !! (d ++ r).

(** The console installation [T] is at the data root or in the legacy directory. *)
Definition console_kept (T : Path → option (FileInfo * bytes)) (m : gmap Path Object) : Prop :=
  (∀ r, snapshot D m r = T r) ∨ (∀ r, snapshot L m r = T r).

Lemma snapshot_secure d m k o e r : m !! k = Some o → snapshot d (<[k := with_descriptor o e]> m) r = snapshot d m r.
Proof.
  intros Ho. unfold snapshot. destruct (decide (k = d ++ r)) as [->|Hne].
  - by rewrite lookup_insert_eq, Ho.
  - by rewrite lookup_insert_ne.
Qed.

(** Where a renamed tree is, and what else is as it was. *)
Lemma snapshot_renamed_to from o to m r :
  m !! from = Some o → unoccupied (path_key to) m →
  snapshot (path_key to) (renamed from o to m) r = snapshot from m r.
Proof.
  intros Ho Hu. unfold snapshot, renamed. destruct (decide (r = [])) as [->|Hne].
  - by rewrite app_nil_r, lookup_insert_eq, app_nil_r, Ho.
  - rewrite lookup_insert_ne; [by rewrite move_tree_to|]. intros E. apply Hne.
    rewrite <- (app_nil_r (path_key to)) in E at 1. by apply app_inv_head in E.
Qed.

Lemma renamed_other from o to m k :
  unoccupied (path_key to) m → below (path_key to) k = false → below from k = false →
  renamed from o to m !! k = m !! k.
Proof.
  intros Hu Ht Hf. unfold renamed. rewrite lookup_insert_ne.
  - rewrite move_tree_other by done. by rewrite Hf.
  - intros <-. by rewrite below_self in Ht.
Qed.

Lemma snapshot_renamed_other d from o to m r :
  unoccupied (path_key to) m → below (path_key to) (d ++ r) = false → below from (d ++ r) = false →
  snapshot d (renamed from o to m) r = snapshot d m r.
Proof. intros. unfold snapshot. by rewrite renamed_other. Qed.

Lemma occupied_snapshot d T m : T [] ≠ None → (∀ r, snapshot d m r = T r) → ¬ unoccupied d m.
Proof.
  intros HT H Hu. apply HT. rewrite <- H. unfold snapshot. by rewrite Hu.
Qed.

Lemma step_keeps_console T m m' :
  T [] ≠ None → migration_step m m' → console_kept T m → console_kept T m'.
Proof.
  intros HT Hstep HC. destruct Hstep as [m k o d Ho _|m m' Hother|m o Ho Hu|m o Ho Hu|m o Ho Hu].
  - destruct HC as [H|H]; [left|right]; intros r; by rewrite snapshot_secure.
  - destruct HC as [H|H]; [left|right]; intros r; rewrite <- H; unfold snapshot;
      by rewrite Hother by (by apply below_sibling).
  - destruct HC as [H|H]; [|by destruct (occupied_snapshot L T m)]. right. intros r.
    rewrite <- (placed_legacy _ _ Hplaced) in *. by rewrite snapshot_renamed_to.
  - destruct HC as [H|H]; [by destruct (occupied_snapshot D T m)|]. right. intros r.
    rewrite <- (placed_data _ _ Hplaced) in Hu. rewrite snapshot_renamed_other; [done|done| |by apply below_sibling].
    rewrite (placed_data _ _ Hplaced). by apply below_sibling.
  - destruct HC as [H|H]; [by destruct (occupied_snapshot D T m)|]. left. intros r.
    rewrite <- (placed_data _ _ Hplaced) in *. by rewrite snapshot_renamed_to.
Qed.

(** Nothing outside the product's directory changes. *)
Lemma step_outside m m' k : migration_step m m' → below root k = false → m' !! k = m !! k.
Proof.
  intros Hstep Hk.
  assert (∀ n, below (root ++ [n]) k = false) as Hn.
  { intros n. destruct (below (root ++ [n]) k) eqn:E; [|done]. apply below_spec in E as [r ->].
    by rewrite <- app_assoc, below_app in Hk. }
  destruct Hstep as [m j o d Ho Hj|m m' Hother|m o Ho Hu|m o Ho Hu|m o Ho Hu].
  - rewrite lookup_insert_ne; [done|]. intros ->. destruct Hj as [->|Hj]; [by rewrite below_self in Hk|].
    by rewrite Hn in Hj.
  - by apply Hother.
  - apply renamed_other; rewrite ?(placed_legacy _ _ Hplaced); auto.
  - apply renamed_other; rewrite ?(placed_data _ _ Hplaced); auto.
  - apply renamed_other; rewrite ?(placed_data _ _ Hplaced); auto.
Qed.

Lemma steps_keep_console T m m' :
  T [] ≠ None → steps m m' → console_kept T m →
  console_kept T m' ∧ ∀ k, below root k = false → m' !! k = m !! k.
Proof.
  intros HT Hs. induction Hs as [m|m m1 m' Hstep Hs IH]; [done|]. intros HC.
  destruct (IH (step_keeps_console T m m1 HT Hstep HC)) as [H1 H2]. split; [done|].
  intros k Hk. rewrite H2 by done. by eapply step_outside.
Qed.

(** *** The lock *)

(** Without the lock nothing changes. *)
Lemma route_unlocked request attempt stopped :
  minspects (route toml_value toml_config toml_to_string pem_certificates pem_encode parse_rfc3339 hostname
               env request attempt (Err stopped)).
Proof.
  unfold route. apply (mchanges_bind_ok _); [walk|].
  intros w x w' [H|(e & w1 & [= <- <-] & H)]%mcatch_ok; [done|]. destruct stopped; [by apply in_place_not_ok in H|done].
Qed.

Lemma between_unlocked request stopped :
  minspects (between_the_renames toml_value toml_config pem_certificates env request (Err stopped)).
Proof.
  unfold between_the_renames. do 3 (apply (mchanges_bind _); [walk|intros ?]).
  apply (mchanges_bind_ok _); [walk|]. by intros w y w1 H.
Qed.

Lemma prepare_unlocked request stopped : minspects (prepare request (Err stopped)).
Proof.
  unfold MigrationRun.prepare, beside_a_console_layout, committed, plain. walk;
    first [apply between_unlocked | apply route_unlocked].
Qed.

End Steps.

(** *** The order of the lock and the points *)

(** What an operation logs besides: nothing but points, however it ends. *)
Definition logs_points {X E : Type} (m : MM X E) : Prop :=
  ∀ w, ∃ ps, actions (m w).2 = actions w ++ (At <$> ps).

Definition logs_nothing {X E : Type} (m : MM X E) : Prop := ∀ w, actions (m w).2 = actions w.

Lemma nothing_points {X E : Type} (m : MM X E) : logs_nothing m → logs_points m.
Proof. intros H w. exists []. by rewrite H, app_nil_r. Qed.

Lemma points_bind {X Y E : Type} (m : MM X E) (f : X → MM Y E) :
  logs_points m → (∀ x, logs_points (f x)) → logs_points (mbind m f).
Proof.
  intros Hm Hf w. destruct (Hm w) as [ps Hps]. unfold mbind. destruct (m w) as [[x|e] w1]; cbn in *; [|eauto].
  destruct (Hf x w1) as [ps' ->]. exists (ps ++ ps'). by rewrite Hps, fmap_app, app_assoc.
Qed.
Lemma points_catch {X E F : Type} (m : MM X E) (h : E → MM X F) :
  logs_points m → (∀ e, logs_points (h e)) → logs_points (mcatch m h).
Proof.
  intros Hm Hf w. destruct (Hm w) as [ps Hps]. unfold mcatch. destruct (m w) as [[x|e] w1]; cbn in *; [eauto|].
  destruct (Hf e w1) as [ps' ->]. exists (ps ++ ps'). by rewrite Hps, fmap_app, app_assoc.
Qed.
Lemma points_map_err {X E F : Type} (f : E → F) (m : MM X E) : logs_points m → logs_points (mmap_err f m).
Proof. intros H w. unfold mmap_err. pose proof (H w). by destruct (m w). Qed.
Lemma points_try {X E F : Type} (m : MM X E) : logs_points m → logs_points (@mtry X E F m).
Proof. intros H w. unfold mtry. pose proof (H w). by destruct (m w). Qed.
Lemma points_at p : logs_points (at_point p).
Proof. intros w. exists [p]. unfold at_point. by destruct (watch_answers w). Qed.

Lemma nothing_fs {X E : Type} (m : CM X E) : logs_nothing (fs m).
Proof. intros w. unfold fs. by destruct (m (mfs w)). Qed.
Lemma nothing_fs_or {X E : Type} (d : X) (m : CM X string) : logs_nothing (@fs_or X E d m).
Proof. intros w. unfold fs_or. by destruct (m (mfs w)). Qed.
Lemma nothing_there {E : Type} path : logs_nothing (@is_there E path).
Proof. intros w. unfold is_there. by destruct (symlink_metadata path (mfs w)). Qed.
Lemma nothing_loading {X : Type} config (m : IM X) : logs_nothing (loading config m).
Proof. intros w. unfold loading. by destruct (m _). Qed.
Lemma nothing_staged_record : logs_nothing (staged_record env).
Proof. intros w. unfold staged_record. by destruct (read_checked_within _ _ _). Qed.
Lemma nothing_bind {X Y E : Type} (m : MM X E) (f : X → MM Y E) :
  logs_nothing m → (∀ x, logs_nothing (f x)) → logs_nothing (mbind m f).
Proof.
  intros Hm Hf w. unfold mbind. pose proof (Hm w). destruct (m w) as [[x|e] w1]; cbn in *; [|done].
  by rewrite Hf.
Qed.
Lemma nothing_catch {X E F : Type} (m : MM X E) (h : E → MM X F) :
  logs_nothing m → (∀ e, logs_nothing (h e)) → logs_nothing (mcatch m h).
Proof.
  intros Hm Hf w. unfold mcatch. pose proof (Hm w). destruct (m w) as [[x|e] w1]; cbn in *; [done|].
  by rewrite Hf.
Qed.
Lemma nothing_map_err {X E F : Type} (f : E → F) (m : MM X E) : logs_nothing m → logs_nothing (mmap_err f m).
Proof. intros H w. unfold mmap_err. pose proof (H w). by destruct (m w). Qed.

Ltac log_step :=
  lazymatch goal with
  | |- logs_points (mbind _ _) => apply points_bind; [|intros ?]
  | |- logs_points (mcatch _ _) => apply points_catch; [|intros ?]
  | |- logs_points (mmap_err _ _) => apply points_map_err
  | |- logs_points (mtry _) => apply points_try
  | |- logs_points (at_point _) => apply points_at
  | |- logs_points (match ?x with _ => _ end) => destruct x
  | |- logs_nothing (mbind _ _) => apply nothing_bind; [|intros ?]
  | |- logs_nothing (mcatch _ _) => apply nothing_catch; [|intros ?]
  | |- logs_nothing (mmap_err _ _) => apply nothing_map_err
  | |- logs_nothing (fs _) => apply nothing_fs
  | |- logs_nothing (fsi _) => apply nothing_map_err, nothing_fs
  | |- logs_nothing (fs_or _ _) => apply nothing_fs_or
  | |- logs_nothing (is_there _) => apply nothing_there
  | |- logs_nothing (loading _ _) => apply nothing_loading
  | |- logs_nothing (mret _) => by intros ?
  | |- logs_nothing (merr _) => by intros ?
  | |- logs_nothing (mof _) => by intros ?
  | |- logs_nothing (match ?x with _ => _ end) => destruct x
  | |- logs_points _ => apply nothing_points
  end; cbv beta.
Create HintDb logging.
Ltac log_walk := repeat first [solve [eauto with logging] | log_step].

Lemma restricted_of_logs {E : Type} l : logs_nothing (@restricted_of Sec env E l).
Proof. induction l as [|[path shown] l IH]; cbn [restricted_of]; log_walk. Qed.
#[local] Hint Resolve restricted_of_logs nothing_staged_record nothing_points : logging.

Lemma in_place_logs {A : Type} code line : logs_nothing (@in_place Sec env A code line).
Proof. unfold in_place, with_state. log_walk. Qed.
#[local] Hint Resolve in_place_logs : logging.

Lemma cut_in_place_logs {A : Type} code render cut : logs_nothing (@cut_in_place Sec env A code render cut).
Proof. unfold cut_in_place. log_walk. Qed.
#[local] Hint Resolve cut_in_place_logs : logging.

Lemma check_directories_logs console : logs_nothing (check_data_directories env console).
Proof. unfold check_data_directories. cbn [check_each_directory]. log_walk. Qed.
Lemma data_root_record_logs : logs_nothing (data_root_record env).
Proof. unfold data_root_record. log_walk. Qed.
Lemma counts_logs {E : Type} path : logs_nothing (@counts Sec env E path).
Proof. apply nothing_fs_or. Qed.
#[local] Hint Resolve check_directories_logs data_root_record_logs counts_logs : logging.

Lemma check_files_logs names files enrolling : logs_points (check_files env names files enrolling).
Proof. revert files enrolling. induction names as [|n names IH]; intros; cbn [check_files]; log_walk. Qed.
Lemma read_files_logs files read : logs_points (read_files env files read).
Proof. revert read. induction files as [|[n id] files IH]; intros; cbn [read_files]; log_walk. Qed.
Lemma restrict_files_logs files : logs_points (restrict_files env files).
Proof. induction files as [|[n id] files IH]; cbn [restrict_files]; unfold restrict_file; log_walk. Qed.
Lemma stage_identity_logs dir l : logs_points (stage_identity env dir l).
Proof. induction l as [|[n b] l IH]; cbn [stage_identity]; log_walk. Qed.
Lemma reverse_logs {A : Type} r cause : logs_points (@reverse M Sec env A r cause).
Proof. unfold reverse, rewrite. log_walk. Qed.
Lemma any_there_logs {E : Type} names : logs_nothing (@any_there env E names).
Proof. induction names as [|n names IH]; cbn [any_there]; log_walk. Qed.
#[local] Hint Resolve check_files_logs read_files_logs restrict_files_logs stage_identity_logs reverse_logs
  any_there_logs : logging.

(** Nothing done before the lock, points alone after it. *)
Definition lock_first {X E : Type} (m : MM X E) : Prop :=
  ∀ w, (actions (m w).2 = actions w ∧ store (m w).2 = store w) ∨
       ∃ ps, actions (m w).2 = actions w ++ TakeLock :: (At <$> ps).

Lemma lock_first_nothing {X E : Type} (m : MM X E) : logs_nothing m → minspects m → lock_first m.
Proof. intros H Hm w. left. split; [apply H|symmetry; apply Hm]. Qed.

Lemma lock_first_before {X Y E : Type} (m : MM X E) (f : X → MM Y E) :
  logs_nothing m → minspects m → (∀ x, lock_first (f x)) → lock_first (mbind m f).
Proof.
  intros Hm Hi Hf w. unfold mbind. pose proof (Hm w) as H1. pose proof (Hi w) as H2.
  destruct (m w) as [[x|e] w1]; cbn in *; [|by left]. rewrite <- H1, H2. apply Hf.
Qed.

Lemma lock_first_take {X Y E : Type} (m : MM X E) (f : X → MM Y E) :
  (∀ w, actions (m w).2 = actions w ++ [TakeLock]) → (∀ x, logs_points (f x)) → lock_first (mbind m f).
Proof.
  intros Hm Hf w. right. unfold mbind. pose proof (Hm w) as H1. destruct (m w) as [[x|e] w1]; cbn in *; [|by exists []].
  destruct (Hf x w1) as [ps ->]. exists ps. by rewrite H1, <- app_assoc.
Qed.

Lemma route_lock request attempt lock :
  lock_first (route toml_value toml_config toml_to_string pem_certificates pem_encode parse_rfc3339 hostname
                env request attempt lock).
Proof.
  apply lock_first_take.
  - intros w. unfold mcatch, take_lock. destruct lock as [[]|[code line|]]; cbn; [done| |done]. by rewrite in_place_logs.
  - intros _. unfold close_directories, close, delete_interrupted_staging, check_what_is_there, stop,
      read_each_file, record_and_stage, stage_files, check_staged, commit, check_names_again, check_root_entries,
      data_root_names, rewrite. log_walk.
Qed.

Lemma between_lock request lock :
  lock_first (between_the_renames toml_value toml_config pem_certificates env request lock).
Proof.
  do 3 (apply lock_first_before; [log_walk|walk|intros ?]). apply lock_first_take; [done|].
  intros _. unfold check_staged. log_walk.
Qed.

Lemma prepare_lock request lock : lock_first (prepare request lock).
Proof.
  do 4 (apply lock_first_before; [log_walk|walk|intros ?]).
  unfold beside_a_console_layout, committed, plain.
  repeat case_match; try apply between_lock; try apply route_lock;
    try (apply lock_first_nothing; [log_walk|walk]; fail).
  all: apply lock_first_before; [log_walk|walk|intros [?|]]; repeat case_match; try apply route_lock;
    apply lock_first_nothing; [log_walk|walk].
Qed.

(** The lock is not asked for, or the operation ends there with the refusal's code. *)
Definition ends_at_lock {X : Type} (code : Z) (m : MM X Stop) : Prop :=
  ∀ w, actions (m w).2 = actions w ∨ ∃ line, (m w).1 = Err (StartRefused code line).

Lemma ends_at_lock_nothing {X : Type} code (m : MM X Stop) : logs_nothing m → ends_at_lock code m.
Proof. intros H w. left. apply H. Qed.

Lemma ends_at_lock_before {X Y : Type} code (m : MM X Stop) (f : X → MM Y Stop) :
  logs_nothing m → (∀ x, ends_at_lock code (f x)) → ends_at_lock code (mbind m f).
Proof.
  intros Hm Hf w. unfold mbind. pose proof (Hm w) as H1. destruct (m w) as [[x|e] w1]; cbn in *; [|by left].
  rewrite <- H1. apply Hf.
Qed.

Lemma fs_or_ok {X E : Type} (d : X) (m : CM X string) w : ∃ x w', fs_or (E := E) d m w = (Ok x, w').
Proof. unfold fs_or. destruct (m (mfs w)) as [r c]. eauto. Qed.

Lemma restricted_of_ok {E : Type} l w : ∃ l' w', restricted_of (E := E) env l w = (Ok l', w').
Proof.
  revert w. induction l as [|[path shown] l IH]; intros w; cbn; [eauto|]. unfold mbind.
  match goal with |- context [fs_or ?d ?m w] => destruct (fs_or_ok (E := E) d m w) as (x & w1 & ->) end.
  destruct (IH w1) as (l' & w2 & ->). cbn. eauto.
Qed.

Lemma in_place_code {X : Type} code line w : ∃ line', (in_place (A := X) env code line w).1 = Err (StartRefused code line').
Proof.
  unfold in_place, with_state, mbind.
  destruct (fs_or_ok (E := Stop) false (is_plain_directory (product_root paths)) w) as (b & w1 & ->).
  assert (∃ p w2, (if b then fs_or (E := Stop) false (is_plain_directory (data_root paths)) else mret false) w1 =
    (Ok p, w2)) as (p & w2 & ->) by (destruct b; [apply fs_or_ok|by do 2 eexists]).
  match goal with |- context [restricted_of env ?l w2] =>
    destruct (restricted_of_ok (E := Stop) l w2) as (l1 & w3 & ->) end.
  match goal with |- context [restricted_of env ?l w3] =>
    destruct (restricted_of_ok (E := Stop) l w3) as (l2 & w4 & ->) end.
  cbn. eauto.
Qed.

Lemma route_refused request attempt code line :
  ends_at_lock code (route toml_value toml_config toml_to_string pem_certificates pem_encode parse_rfc3339 hostname
                       env request attempt (Err (StartRefused code line))).
Proof.
  intros w. right. unfold route, mbind at 1, mcatch, take_lock.
  match goal with |- context [in_place _ _ _ ?w'] => destruct (in_place_code (X := unit) code line w') as [line' H] end.
  destruct (in_place _ _ _ _) as [r w1]. cbn in H. subst r. by eexists.
Qed.

Lemma between_refused request code line :
  ends_at_lock code (between_the_renames toml_value toml_config pem_certificates env request
                       (Err (StartRefused code line))).
Proof.
  do 3 (apply ends_at_lock_before; [log_walk|intros ?]). intros w. right. by eexists.
Qed.

Lemma prepare_refused request code line : ends_at_lock code (prepare request (Err (StartRefused code line))).
Proof.
  do 4 (apply ends_at_lock_before; [log_walk|intros ?]).
  unfold beside_a_console_layout, committed, plain.
  repeat case_match; try apply between_refused; try apply route_refused;
    try (apply ends_at_lock_nothing; log_walk; fail).
  all: apply ends_at_lock_before; [log_walk|intros [?|]]; repeat case_match; try apply route_refused;
    apply ends_at_lock_nothing; log_walk.
Qed.

(** *** The pass over the old copies *)

Section CopiesSteps.
Context (root : Path) (Hplaced : placed paths root).
#[local] Notation D := (root ++ ["agent"]).
#[local] Notation L := (root ++ ["agent.legacy"]).
#[local] Notation record_key := (D ++ ["migration.json"]).
#[local] Notation temporary_key := (D ++ ["migration.json.rewrite-tmp"]).

(** What the record says of the copy [name]: a regular file with one link and the
    recorded ID. *)
Definition recorded_copy (r : MigrationRecord) (name : string) (i : FileInfo) : Prop :=
  reparse_point i = false ∧ is_directory i = false ∧ links i = 1 ∧
  ∃ known, known_name name = Some known ∧ mr_files r !! known = Some (file_id_text (file_id i)).

(** A copy's or the directory's security changed; with [Remove], a recorded copy
    deleted, or the emptied directory; the record rewritten. *)
Inductive copies_step (r : MigrationRecord) : relation (gmap Path Object) :=
| copies_secure m k o d :
    m !! k = Some o → k = L ∨ (∃ n, k = L ++ [n]) → copies_step r m (<[k := with_descriptor o d]> m)
| copies_remove m name o :
    mr_choice r = Remove → m !! (L ++ [lowercase name]) = Some o → recorded_copy r name (info o) →
    copies_step r m (delete (L ++ [lowercase name]) m)
| copies_remove_directory m :
    mr_choice r = Remove → children L m = [] → copies_step r m (delete L m)
| copies_record (m m' : gmap Path Object) :
    (∀ k, k ≠ record_key → k ≠ temporary_key → m' !! k = m !! k) → copies_step r m m'.

Lemma in_legacy_key name : plain_name name = true → path_key (join_path (legacy paths) name) = L ++ [lowercase name].
Proof.
  intros Hn. destruct (placed_joinable _ _ Hplaced) as (_ & _ & _ & Hj).
  by rewrite path_key_join, (placed_legacy _ _ Hplaced).
Qed.

Lemma check_copy_ok h path name r w w' :
  check_copy h path name r w = (Ok tt, w') → recorded_copy r name (info h).
Proof.
  unfold check_copy. intros (i & w1 & Hi & H)%cbind_ok. apply file_information_ok in Hi as ->.
  unfold recorded_copy. destruct (reparse_point (info h)), (is_directory (info h)); cbn [orb] in H; try done.
  destruct (known_name name) as [known|]; [|done].
  destruct (bool_decide _) eqn:Eb; cbn [negb] in H; [|done]. apply bool_decide_eq_true in Eb.
  destruct (Z.eqb_spec (links (info h)) 1); [|done]. eauto 6.
Qed.

Lemma remove_copy_steps name r :
  plain_name name = true → mr_choice r = Remove →
  changes (rtc (copies_step r)) (remove_copy (join_path (legacy paths) name) name r).
Proof.
  intros Hn Hr w. unfold remove_copy, cbind. set (path := join_path (legacy paths) name).
  pose proof (open_waiting_inspects path w) as H1. destruct (open_waiting path w) as [[h|e] w1] eqn:E1; cbn in H1.
  2: { cbn. by rewrite H1. }
  apply open_waiting_ok in E1 as [Ho _].
  pose proof (check_copy_inspects h path name r w1) as H2.
  destruct (check_copy h path name r w1) as [[[]|e] w2] eqn:E2; cbn in H2.
  2: { cbn. by rewrite H1, H2. }
  apply check_copy_ok in E2. pose proof (delete_through_run h path w2) as H3.
  rewrite <- H2, <- H1 in H3. destruct H3 as [-> | [_ ->]]; [done|]. apply rtc_once.
  subst path. rewrite in_legacy_key in * by done. by eapply copies_remove.
Qed.

Lemma secure_copies_steps h path sddl r :
  path_key path = L ∨ (∃ n, path_key path = L ++ [n]) → changes (rtc (copies_step r)) (set_security h path sddl).
Proof. intros Hk. apply (set_security_changes _). intros m o d Ho _. apply rtc_once. by apply copies_secure. Qed.

Lemma copies_loop_steps r names report :
  Forall (λ n, plain_name n = true) names → mchanges (rtc (copies_step r)) (copies_loop env r names report).
Proof.
  intros Hf. revert report. induction Hf as [|name names Hn Hf IH]; intros report; cbn [copies_loop]; [walk|].
  apply (mchanges_bind _).
  { unfold restrict_copy. walk. apply secure_copies_steps. right. rewrite in_legacy_key by done. eauto. }
  intros [[]|[|]]; [|apply IH|walk]. destruct (mr_choice r) eqn:Ec; [|apply IH].
  apply (mchanges_bind _); [|intros; apply IH]. apply (mchanges_try _), (mchanges_fs _). by apply remove_copy_steps.
Qed.

Lemma delete_directory_steps h r :
  mr_choice r = Remove → changes (rtc (copies_step r)) (delete_through h (legacy paths)).
Proof.
  intros Hr w. destruct (delete_through_run h (legacy paths) w) as [-> | [Hc ->]]; [done|]. apply rtc_once.
  rewrite (placed_legacy _ _ Hplaced) in *. by apply copies_remove_directory.
Qed.

Lemma end_directory_steps restricted_it r report :
  mchanges (rtc (copies_step r)) (end_directory env restricted_it r report).
Proof.
  unfold end_directory. destruct (negb _) eqn:E; [walk|]. apply negb_false_iff, andb_true_iff in E as [_ E].
  apply bool_decide_eq_true in E. unfold remove_legacy_directory. walk. by apply delete_directory_steps.
Qed.

Lemma rewrite_record_steps r r' : mchanges (rtc (copies_step r)) (rewrite env (record paths) r').
Proof.
  destruct (placed_joinable _ _ Hplaced) as (_ & Hj & _).
  assert (path_key (with_file_name (record paths) RECORD_TEMPORARY) = temporary_key) as Ht.
  { unfold record. rewrite with_file_name_join, path_key_join by done. by rewrite (placed_data _ _ Hplaced). }
  unfold rewrite. walk. apply (replace_changes _); rewrite Ht, (placed_record _ _ Hplaced).
  - intros H. by apply app_inv_head in H.
  - intros m m' o ok _ _ (_ & H & _). apply rtc_once. by apply copies_record.
Qed.

Lemma data_root_record_ok w found w' :
  data_root_record env w = (Ok found, w') →
  match found with
  | Some r => ∃ o, store w !! record_key = Some o ∧ in_custody File (mc_configuration (me_custody env)) o ∧
                record_from_slice (contents o) = Some r
  | None => store w !! record_key = None
  end.
Proof.
  unfold data_root_record. intros (b & w1 & Hb & H)%mbind_ok. unfold fs in Hb.
  destruct (cmap_err _ _ (mfs w)) as [r0 c] eqn:E. injection Hb as -> <-.
  apply cmap_err_ok, read_checked_within_ok in E. rewrite (placed_record _ _ Hplaced) in E.
  destruct b as [b|]; [|by injection H as <- _]. destruct E as (o & Ho & Hc & ->).
  destruct (record_from_slice (contents o)) as [r|] eqn:Er; [|done]. injection H as <- _. eauto.
Qed.

(** Every pass is a sequence of these steps for the record it read. *)
Lemma copies_steps w :
  store (copies env w).2 = store w ∨
  ∃ r o, store w !! record_key = Some o ∧ record_from_slice (contents o) = Some r ∧
    rtc (copies_step r) (store w) (store (copies env w).2).
Proof.
  unfold copies. rewrite mbind_run, mmap_err_run.
  pose proof (data_root_record_inspects w) as H1.
  destruct (data_root_record env w) as [[found|e] w1] eqn:E1; cbn [map_err fst snd] in *; [|by left].
  apply data_root_record_ok in E1. destruct found as [r|]; [|by left].
  destruct E1 as (o & Ho & _ & Hr). right. exists r, o. split_and!; try done. rewrite H1.
  match goal with |- rtc _ (store w1) (store (?m w1).2) => assert (mchanges (rtc (copies_step r)) m) as H end;
    [|apply H].
  apply (mchanges_bind_ok _); [walk|]. intros u r' u' [= <- _].
  apply (mchanges_bind _); [walk|]. intros []; cbn [negb]; [|walk].
  apply (mchanges_bind _).
  { unfold restrict_legacy_directory. walk. apply secure_copies_steps. left. apply (placed_legacy _ _ Hplaced). }
  intros restricted_it. assert (mchanges (rtc (copies_step r)) (copies_end env r restricted_it)) as Hend;
    [|by destruct restricted_it as [|[|]]; [apply Hend|apply Hend|walk]].
  unfold copies_end. apply (mchanges_bind_ok _); [walk|].
  intros u1 names u2 Hn. apply (mchanges_bind _).
  { apply copies_loop_steps. rewrite merge_sort_Permutation. by apply fs_ok, entries_plain in Hn. }
  intros report. apply (mchanges_bind _); [apply end_directory_steps|]. intros report'. walk.
  apply rewrite_record_steps.
Qed.

(** What a pass leaves of the object at [k]. *)
Definition copy_left (r : MigrationRecord) (k : Path) (o : Object) (now : option Object) : Prop :=
  match now with
  | Some o' => info o' = info o ∧ contents o' = contents o ∧ (o' = o ∨ k = L ∨ ∃ n, k = L ++ [n])
  | None => mr_choice r = Remove ∧ (k = L ∨ ∃ name, k = L ++ [lowercase name] ∧ recorded_copy r name (info o))
  end.

Lemma copies_step_left r m m' k o :
  k ≠ record_key → k ≠ temporary_key → copies_step r m m' →
  copy_left r k o (m !! k) → copy_left r k o (m' !! k).
Proof.
  intros Hr Ht Hstep H. destruct Hstep as [m j oj d Hj Hk|m name oj Hc Hj Hrec|m Hc _|m m' Hother].
  - destruct (decide (j = k)) as [->|]; [|by rewrite lookup_insert_ne]. rewrite lookup_insert_eq. rewrite Hj in H.
    destruct H as (? & ? & _). split_and!; [done|done|by right].
  - destruct (decide (L ++ [lowercase name] = k)) as [<-|]; [|by rewrite lookup_delete_ne].
    rewrite lookup_delete_eq. rewrite Hj in H. destruct H as (Hi & _). split; [done|]. right. exists name.
    by rewrite <- Hi.
  - destruct (decide (L = k)) as [<-|]; [|by rewrite lookup_delete_ne]. rewrite lookup_delete_eq. by split; [|left].
  - by rewrite Hother.
Qed.

Lemma copies_steps_left r m m' k o :
  k ≠ record_key → k ≠ temporary_key → rtc (copies_step r) m m' → m !! k = Some o → copy_left r k o (m' !! k).
Proof.
  intros Hr Ht Hs Ho. assert (copy_left r k o (m !! k)) as H.
  { rewrite Ho. split_and!; [done|done|by left]. }
  clear Ho. induction Hs; [done|]. eauto using copies_step_left.
Qed.

End CopiesSteps.

(** ** The theorems *)

(** C5 Whatever calls fail, however long they wait, wherever the watcher stops it and
    whatever is asked for, a start leaves every file of the console installation whole,
    with its bytes, its identity and its place in the tree, at the data root or in the
    legacy directory; and it changes nothing outside the product's directory. Objects are
    known by their path: that a change is seen through another link of the same file is
    not expressed. *)
Theorem prepare_keeps_console program_data T request lock w :
  joinable program_data → paths = under program_data → T [] ≠ None →
  let root := path_key program_data ++ ["cyberguard"] in
  console_kept root T (store w) →
  let m' := store (prepare request lock w).2 in
  console_kept root T m' ∧ ∀ k, below root k = false → m' !! k = store w !! k.
Proof.
  intros Hj Hp HT root HC. pose proof (placed_under _ Hj) as Hpl. rewrite <- Hp in Hpl.
  eapply steps_keep_console; [exact Hpl|exact HT| |exact HC]. by eapply prepare_steps.
Qed.

(** C6 A start takes the instance lock at most once and before anything else it logs;
    if it changed anything, it took the lock and got it. *)
Theorem migration_only_under_lock request lock w :
  let w' := (prepare request lock w).2 in
  (actions w' = actions w ∨ ∃ ps, actions w' = actions w ++ TakeLock :: (At <$> ps)) ∧
  (store w' ≠ store w → lock = Ok tt ∧ ∃ ps, actions w' = actions w ++ TakeLock :: (At <$> ps)).
Proof.
  intros w'. pose proof (prepare_lock request lock w) as H. fold w' in H. split; [naive_solver|].
  intros Hc. split; [|naive_solver]. destruct lock as [[]|stopped]; [done|].
  by destruct Hc; symmetry; apply prepare_unlocked.
Qed.

(** C7 The pass over the old copies changes no other object than the record it rewrites
    and the temporary file it rewrites it through: each keeps its bytes and its identity, and its security unless it is the legacy
    directory or in it; what is gone is a file the record names by its ID, with one
    link, or the legacy directory, and only when the record asks for removal. *)
Theorem copies_touch_only_recorded program_data w k o :
  joinable program_data → paths = under program_data →
  let root := path_key program_data ++ ["cyberguard"] in
  let record_key := (root ++ ["agent"]) ++ ["migration.json"] in
  k ≠ record_key → k ≠ (root ++ ["agent"]) ++ ["migration.json.rewrite-tmp"] → store w !! k = Some o →
  let now := store (copies env w).2 !! k in
  now = Some o ∨ ∃ r ro, store w !! record_key = Some ro ∧ record_from_slice (contents ro) = Some r ∧
                   copy_left root r k o now.
Proof.
  intros Hj Hp root record_key Hr Ht Ho now. pose proof (placed_under _ Hj) as Hpl. rewrite <- Hp in Hpl.
  destruct (copies_steps _ Hpl w) as [E|(r & ro & Hro & Hrec & Hs)].
  - left. unfold now. by rewrite E.
  - right. exists r, ro. split_and!; [done|done|]. unfold now. by eapply copies_steps_left.
Qed.

End Safety.

(** *** On the sample host *)

Lemma prepare_keeps_console_witness :
  (ToyHost.start (Some ToyHost.request) (Ok tt) ToyHost.cut_off).1 = Err Crashed ∧
  console_kept ToyHost.root (snapshot (ToyHost.root ++ ["agent"]) ToyHost.console_files)
    (store (ToyHost.start (Some ToyHost.request) (Ok tt) ToyHost.cut_off).2).
Proof.
  split; [vm_compute; reflexivity|].
  apply (prepare_keeps_console (Sec := ToyHost.security) ToyHost.toml_value ToyHost.toml_config ToyHost.toml_to_string
    ToyHost.pem_certificates ToyHost.pem_encode ToyHost.parse_rfc3339 ToyHost.hostname ToyHost.env
    ToyHost.program_data (snapshot (ToyHost.root ++ ["agent"]) ToyHost.console_files)
    (Some ToyHost.request) (Ok tt) ToyHost.cut_off).
  - split; [discriminate|reflexivity].
  - reflexivity.
  - vm_compute. discriminate.
  - left. intros r. reflexivity.
Defined.

Lemma migration_only_under_lock_witness :
  ∃ ps, actions ToyHost.migrated = TakeLock :: (At <$> ps).
Proof.
  destruct (migration_only_under_lock (W := ToyEnrollment.wire) (K := ToyEnrollment.keys) (St := InsecureDevStore)
    (J := ToyIdentity.json) (M := ToyRecord.json) (Sec := ToyHost.security) ToyHost.toml_value ToyHost.toml_config
    ToyHost.toml_to_string ToyHost.pem_certificates ToyHost.pem_encode ToyHost.parse_rfc3339 ToyHost.hostname
    ToyHost.env (Some ToyHost.request) (Ok tt) ToyHost.console) as [_ H].
  destruct H as [_ [ps Hps]]; [|by exists ps].
  intros E. apply (f_equal (λ m : gmap Path Object, m !! (ToyHost.root ++ ["agent.legacy"]))) in E.
  vm_compute in E. discriminate E.
Defined.

Lemma copies_touch_only_recorded_witness :
  let w' := (copies (M := ToyRecord.json) (Sec := ToyHost.security) ToyHost.env ToyHost.migrated).2 in
  store w' !! (ToyHost.root ++ ["agent.legacy"; "key.dat"]) = None ∧
  ∃ r o, store ToyHost.migrated !! (ToyHost.root ++ ["agent.legacy"; "key.dat"]) = Some o ∧
    mr_choice r = Remove ∧ ∃ name, recorded_copy r name (info o).
Proof.
  intros w'. assert (store w' !! (ToyHost.root ++ ["agent.legacy"; "key.dat"]) = None) as Hn
    by (vm_compute; reflexivity). split; [exact Hn|].
  destruct (store ToyHost.migrated !! (ToyHost.root ++ ["agent.legacy"; "key.dat"])) as [o|] eqn:Ho;
    [|vm_compute in Ho; discriminate Ho].
  destruct (copies_touch_only_recorded (M := ToyRecord.json) (Sec := ToyHost.security) ToyHost.env ToyHost.program_data
    ToyHost.migrated (ToyHost.root ++ ["agent.legacy"; "key.dat"]) o) as [H|(r & ro & _ & _ & H)];
    [split; [discriminate|reflexivity]|reflexivity|vm_compute; discriminate|vm_compute; discriminate|exact Ho| |].
  - fold w' in H. rewrite Hn in H. discriminate H.
  - fold w' in H. rewrite Hn in H. destruct H as [Hr [E|(name & _ & Hrec)]]; [vm_compute in E; discriminate E|].
    exists r, o. split; [reflexivity|]. split; [exact Hr|]. exists name. exact Hrec.
Defined.
