(* ===== verification/MigrationLogic.v ===== *)
(** * A program logic for the migration

    Triples over the store for the operations of [Custody.v] and [MigrationRun.v]. One
    proof gives two readings of a triple, by its flag: what is left whatever calls
    fail and however long they wait, and, when no call fails, that the operation
    succeeds. An operation that only reads is described by a relation between the
    store and its result: under faults it may fail, but it never lies. *)

From S2P Require Import Prelude FileTree IpAddr Types Errors Network Config Signing Tls TlsConfig X509.
From S2P Require Import Transport Enrollment Identity Custody CustodyTree Installed Service.
From S2P Require Import MigrationChecks MigrationRun MigrationToy MigrationSafety.
Open Scope Z_scope.

Notation Store := (@gmap Path (@list_eq_dec string String.eq_dec)
  (@list_countable string String.eq_dec String.countable) Object).

(** No call fails, no wait ends, no point is watched. *)
Definition calm (w : MigrationWorld) : Prop := quiet (mfs w) ∧ watch_answers w = [] ∧ std_reads w = [].

(** ** Triples *)

(** From [P], a success gives [Q] and a failure, which only faults cause when [c] is
    set, gives [I]. *)
Definition ctriple {X E : Type} (c : bool) (P : Store → Prop) (m : CM X E) (Q : X → Store → Prop) (I : Store → Prop) : Prop :=
  ∀ w, (c = true → quiet w) → P (objects w) →
    match m w with
    | (Ok x, w') => (c = true → quiet w') ∧ Q x (objects w')
    | (Err _, w') => c = false ∧ I (objects w')
    end.

Definition triple {X E : Type} (c : bool) (P : Store → Prop) (m : MM X E) (Q : X → Store → Prop) (I : Store → Prop) : Prop :=
  ∀ w, (c = true → calm w) → P (store w) →
    match m w with
    | (Ok x, w') => (c = true → calm w') ∧ Q x (store w')
    | (Err _, w') => c = false ∧ I (store w')
    end.

(** Reads: the store is kept, a success is one of [R], and what [R] says is what a
    calm run returns. *)
Definition creads {X E : Type} (m : CM X E) (R : Store → X → Prop) : Prop :=
  ∀ w, objects (m w).2 = objects w ∧
       (∀ x w', m w = (Ok x, w') → R (objects w) x) ∧
       (quiet w → ∀ x, R (objects w) x → ∃ w', m w = (Ok x, w') ∧ quiet w').

Definition mreads {X E : Type} (m : MM X E) (R : Store → X → Prop) : Prop :=
  ∀ w, store (m w).2 = store w ∧
       (∀ x w', m w = (Ok x, w') → R (store w) x) ∧
       (calm w → ∀ x, R (store w) x → ∃ w', m w = (Ok x, w') ∧ calm w').

(** *** Structure, over the custody *)

Section CustodyTriples.
Context (c : bool).
Implicit Types (P I : Store → Prop).

Lemma ctriple_weaken {X E : Type} P P' (m : CM X E) Q Q' I I' :
  ctriple c P m Q I → (∀ s, P' s → P s) → (∀ x s, Q x s → Q' x s) → (∀ s, I s → I' s) → ctriple c P' m Q' I'.
Proof.
  intros H HP HQ HI w Hq Hw. specialize (H w Hq (HP _ Hw)). destruct (m w) as [[x|e] w']; naive_solver.
Qed.

Lemma ctriple_bind {X Y E : Type} P (m : CM X E) Q (f : X → CM Y E) R I :
  ctriple c P m Q I → (∀ x, ctriple c (Q x) (f x) R I) → ctriple c P (cbind m f) R I.
Proof.
  intros Hm Hf w Hq HP. unfold cbind. specialize (Hm w Hq HP). destruct (m w) as [[x|e] w1]; [|done].
  destruct Hm as [Hq1 HQ]. by apply Hf.
Qed.

Lemma ctriple_map_err {X E F : Type} P (f : E → F) (m : CM X E) Q I :
  ctriple c P m Q I → ctriple c P (cmap_err f m) Q I.
Proof. intros H w Hq HP. unfold cmap_err. specialize (H w Hq HP). by destruct (m w) as [[x|e] w1]. Qed.

Lemma ctriple_bounded {X : Type} P path (m : CM X string) Q I :
  ctriple c P m Q I → (∀ s, P s → I s) → (∀ x s, Q x s → I s) → ctriple c P (bounded path m) Q I.
Proof.
  intros H HP HQ w Hq Hw. unfold bounded, cbind, wait_fault.
  destruct (wait_faults w) as [|f fs] eqn:Ef; [by apply H|].
  assert (c = false) as Hc.
  { destruct c; [|done]. destruct (Hq eq_refl) as [_ ?]. congruence. }
  set (u := {| objects := objects w; call_faults := call_faults w; wait_faults := fs; new_ids := new_ids w |}).
  specialize (H u ltac:(by rewrite Hc) Hw). destruct f as [[reason| |happens]|]; [| | |exact H];
    try (split; [exact Hc|exact (HP _ Hw)]).
  destruct happens; [|split; [exact Hc|exact (HP _ Hw)]]. destruct (m u) as [[x|e] w1]; cbn; naive_solver.
Qed.

Lemma ctriple_ret {X E : Type} P (x : X) : ctriple c P (@cret X E x) (λ y s, y = x ∧ P s) (λ _, False).
Proof. intros w Hq HP. done. Qed.

Lemma ctriple_reads {X E : Type} P (m : CM X E) (R : Store → X → Prop) Q I :
  creads m R → (∀ s, P s → I s) → (c = true → ∀ s, P s → ∃ x, R s x) → (∀ s x, P s → R s x → Q x s) →
  ctriple c P m Q I.
Proof.
  intros Hm HI Hc HQ w Hq HP. destruct (Hm w) as (Hs & Hok & Hcalm).
  destruct c.
  - destruct (Hc eq_refl _ HP) as [x Hx]. destruct (Hcalm (Hq eq_refl) x Hx) as (w' & Er & Hq').
    rewrite Er in Hs |- *. cbn in Hs. rewrite Hs. naive_solver.
  - destruct (m w) as [[x|e] w'] eqn:Er; cbn in Hs; rewrite Hs; [|naive_solver]. split; [done|]. eauto.
Qed.
End CustodyTriples.

(** *** Structure, over the migration's world *)

Section Triples.
Context (c : bool).
Implicit Types (P I J : Store → Prop).

Lemma triple_weaken {X E : Type} P P' (m : MM X E) Q Q' I I' :
  triple c P m Q I → (∀ s, P' s → P s) → (∀ x s, Q x s → Q' x s) → (∀ s, I s → I' s) → triple c P' m Q' I'.
Proof.
  intros H HP HQ HI w Hq Hw. specialize (H w Hq (HP _ Hw)). destruct (m w) as [[x|e] w']; naive_solver.
Qed.

Lemma triple_bind {X Y E : Type} P (m : MM X E) Q (f : X → MM Y E) R I :
  triple c P m Q I → (∀ x, triple c (Q x) (f x) R I) → triple c P (mbind m f) R I.
Proof.
  intros Hm Hf w Hq HP. unfold mbind. specialize (Hm w Hq HP). destruct (m w) as [[x|e] w1]; [|done].
  destruct Hm as [Hq1 HQ]. by apply Hf.
Qed.

Lemma triple_seq {X Y E : Type} P (m : MM X E) (Q : Store → Prop) (k : MM Y E) R I :
  triple c P m (λ _, Q) I → triple c Q k R I → triple c P (m ;;* k) R I.
Proof. intros H1 H2. by eapply triple_bind. Qed.

(** What is known of the store may be used to prove a triple. *)
Lemma triple_pre {X E : Type} (A : Prop) P (m : MM X E) Q I :
  (∀ s, P s → A) → (A → triple c P m Q I) → triple c P m Q I.
Proof. intros HA H w Hq HP. by apply H; [eapply HA|..]. Qed.

Lemma triple_map_err {X E F : Type} P (f : E → F) (m : MM X E) Q I :
  triple c P m Q I → triple c P (mmap_err f m) Q I.
Proof. intros H w Hq HP. unfold mmap_err. specialize (H w Hq HP). by destruct (m w) as [[x|e] w1]. Qed.

(** A handler that reads and never succeeds. *)
Definition refuses {X E : Type} (m : MM X E) : Prop := ∀ w, is_ok (m w).1 = false ∧ store (m w).2 = store w.

Lemma triple_catch {X E F : Type} P (m : MM X E) (h : E → MM X F) Q I :
  triple c P m Q I → (∀ e, refuses (h e)) → triple c P (mcatch m h) Q I.
Proof.
  intros Hm Hh w Hq HP. unfold mcatch. specialize (Hm w Hq HP). destruct (m w) as [[x|e] w1]; [done|].
  destruct Hm as [Hc HI]. destruct (Hh e w1) as [H1 H2]. destruct (h e w1) as [[x|e'] w2]; [done|].
  cbn in H2. by rewrite H2.
Qed.

Lemma triple_try {X E F : Type} P (m : MM X E) Q I J :
  triple c P m Q I →
  triple c P (@mtry X E F m) (λ r s, match r with Ok x => Q x s | Err _ => c = false ∧ I s end) J.
Proof.
  intros Hm w Hq HP. unfold mtry. specialize (Hm w Hq HP). destruct (m w) as [[x|e] w1]; [done|].
  destruct Hm as [Hc HI]. split; [|done]. by rewrite Hc.
Qed.

Lemma triple_ret {X E : Type} P (x : X) (Q : X → Store → Prop) I : (∀ s, P s → Q x s) → triple c P (@mret X E x) Q I.
Proof. intros H w Hq HP. split; [done|by apply H]. Qed.

Lemma triple_err {X E : Type} P (e : E) (Q : X → Store → Prop) I :
  (∀ s, P s → c = false ∧ I s) → triple c P (@merr X E e) Q I.
Proof. intros H w Hq HP. by apply H. Qed.

Lemma refuses_run {X E : Type} (m : MM X E) w : refuses m → ∃ e w', m w = (Err e, w') ∧ store w' = store w.
Proof. intros H. destruct (H w) as [H1 H2]. destruct (m w) as [[x|e] w']; [done|]. eauto. Qed.

Lemma triple_refuses {X E : Type} P (m : MM X E) (Q : X → Store → Prop) I :
  refuses m → (∀ s, P s → c = false ∧ I s) → triple c P m Q I.
Proof.
  intros Hm H w Hq HP. destruct (Hm w) as [H1 H2]. destruct (m w) as [[x|e] w1]; [done|].
  cbn in H2. rewrite H2. by apply H.
Qed.

Lemma triple_of {X E : Type} P (r : Result X E) (Q : X → Store → Prop) I :
  (∀ s x, P s → r = Ok x → Q x s) → (∀ s, P s → I s) → (∀ s, P s → c = true → is_ok r = true) →
  triple c P (mof r) Q I.
Proof.
  intros H1 H2 H3 w Hq HP. cbn. destruct r as [x|e]; [naive_solver|]. split; [|by apply H2].
  destruct c; [|done]. by specialize (H3 _ HP eq_refl).
Qed.

Lemma triple_fs {X E : Type} P (m : CM X E) Q I : ctriple c P m Q I → triple c P (fs m) Q I.
Proof.
  intros H w Hq HP. unfold fs.
  specialize (H (mfs w) (λ Hc, proj1 (Hq Hc)) HP). destruct (m (mfs w)) as [[x|e] u]; [|done].
  destruct H as [H1 H2]. split; [|done]. intros Hc. destruct (Hq Hc) as (_ & ? & ?). split_and!; auto.
Qed.

Lemma triple_fsi {X : Type} P (m : CM X string) Q I : ctriple c P m Q I → triple c P (fsi m) Q I.
Proof. intros H. by apply triple_map_err, triple_fs. Qed.

Lemma triple_at P p I : (∀ s, P s → I s) → triple c P (at_point p) (λ _, P) I.
Proof.
  intros HI w Hq HP. unfold at_point. destruct (watch_answers w) as [|a l] eqn:Ea.
  - split; [|done]. intros Hc. destruct (Hq Hc) as (? & ? & ?). by split_and!.
  - assert (c = false) as Hc. { destruct c; [|done]. destruct (Hq eq_refl) as (_ & ? & _). congruence. }
    destruct a; (split; [by rewrite Hc|auto]) || auto.
Qed.

Lemma triple_lock P lock I :
  (c = true → lock = Ok tt) → (∀ s, P s → I s) → triple c P (take_lock lock) (λ _ s, lock = Ok tt ∧ P s) I.
Proof.
  intros Hl HI w Hq HP. unfold take_lock. destruct lock as [[]|e].
  - split; [|done]. intros Hc. by destruct (Hq Hc) as (? & ? & ?).
  - split; [|by apply HI]. destruct c; [|done]. by specialize (Hl eq_refl).
Qed.

(** Only that it reads, and succeeds when no call fails. *)
Lemma triple_inspects {X E : Type} P (m : MM X E) I :
  minspects m → (∀ s, P s → I s) →
  (c = true → ∀ w, calm w → P (store w) → ∃ x w', m w = (Ok x, w') ∧ calm w') →
  triple c P m (λ _, P) I.
Proof.
  intros Hm HI Hc w Hq HP. pose proof (Hm w) as Hs. destruct c.
  - destruct (Hc eq_refl w (Hq eq_refl) HP) as (x & w' & Er & Hq'). rewrite Er in Hs |- *. cbn in Hs. by rewrite <- Hs.
  - destruct (m w) as [[x|e] w'] eqn:Er; cbn in Hs; rewrite <- Hs; [by split|].
    split; [done|by apply HI].
Qed.

Lemma triple_reads {X E : Type} P (m : MM X E) (R : Store → X → Prop) Q I :
  mreads m R → (∀ s, P s → I s) → (c = true → ∀ s, P s → ∃ x, R s x) → (∀ s x, P s → R s x → Q x s) →
  triple c P m Q I.
Proof.
  intros Hm HI Hc HQ w Hq HP. destruct (Hm w) as (Hs & Hok & Hcalm). destruct c.
  - destruct (Hc eq_refl _ HP) as [x Hx]. destruct (Hcalm (Hq eq_refl) x Hx) as (w' & Er & Hq').
    rewrite Er in Hs |- *. cbn in Hs. rewrite Hs. naive_solver.
  - destruct (m w) as [[x|e] w'] eqn:Er; cbn in Hs; rewrite Hs; [|naive_solver]. split; [done|]. eauto.
Qed.
End Triples.

(** ** What the custody reads *)

Section CustodyReads.
Context {Sec : Win32Security}.

Lemma creads_weaken {X E : Type} (m : CM X E) (R R' : Store → X → Prop) :
  creads m R → (∀ s x, R s x ↔ R' s x) → creads m R'.
Proof.
  intros H Heq w. destruct (H w) as (H1 & H2 & H3). split_and!; [done| |].
  - intros x w' E1. apply Heq. eauto.
  - intros Hq x Hx. apply H3; [done|]. by apply Heq.
Qed.

Lemma creads_bind {X Y E : Type} (m : CM X E) (f : X → CM Y E) (R : Store → X → Prop) (G : X → Store → Y → Prop) :
  creads m R → (∀ x, creads (f x) (G x)) → creads (cbind m f) (λ s y, ∃ x, R s x ∧ G x s y).
Proof.
  intros Hm Hf w. destruct (Hm w) as (H1 & H2 & H3). unfold cbind.
  destruct (m w) as [[x|e] w1] eqn:Em; cbn [fst snd] in *.
  - destruct (Hf x w1) as (F1 & F2 & F3). split_and!; [congruence| |].
    + intros y w' Hy. exists x. split; [eauto|]. rewrite <- H1. eauto.
    + intros Hq y (x' & Hx' & Hy). destruct (H3 Hq x' Hx') as (w' & [= <- <-] & Hq'). apply F3; [done|]. by rewrite H1.
  - split_and!; [done|done|]. intros Hq y (x' & Hx' & Hy). by destruct (H3 Hq x' Hx') as (w' & ? & _).
Qed.

Lemma creads_seq {Y E : Type} (m : CM unit E) (k : CM Y E) (R : Store → unit → Prop) (G : Store → Y → Prop) :
  creads m R → creads k G → creads (m ;;~ k) (λ s y, R s tt ∧ G s y).
Proof.
  intros Hm Hk. eapply creads_weaken; [by apply (creads_bind m (λ _, k) R (λ _, G))|].
  intros s y. split; [by intros ([] & ? & ?)|]. intros []. by exists tt.
Qed.

Lemma creads_ret {X E : Type} (x : X) : creads (@cret X E x) (λ _ y, y = x).
Proof. intros w. split_and!; [done|by intros ? ? [= <- _]|]. intros Hq y ->. by eexists. Qed.
Lemma creads_err {X E : Type} (e : E) : creads (@cerr X E e) (λ _ _, False).
Proof. intros w. by split_and!. Qed.
Lemma creads_of {X E : Type} (r : Result X E) : creads (cof r) (λ _ y, r = Ok y).
Proof. intros w. split_and!; [done|by intros ? ? [= -> _]|]. intros Hq y ->. by eexists. Qed.
Lemma creads_map_err {X E F : Type} (f : E → F) (m : CM X E) (R : Store → X → Prop) : creads m R → creads (cmap_err f m) R.
Proof.
  intros H w. destruct (H w) as (H1 & H2 & H3). unfold cmap_err. destruct (m w) as [r w1]; cbn [fst snd] in *.
  split_and!; [done| |].
  - intros x w' [= Hr <-]. destruct r; [|done]. injection Hr as ->. eauto.
  - intros Hq x Hx. destruct (H3 Hq x Hx) as (w' & [= -> <-] & ?). by eexists.
Qed.
Lemma creads_bounded {X : Type} path (m : CM X string) (R : Store → X → Prop) : creads m R → creads (bounded path m) R.
Proof.
  intros H w. unfold bounded, cbind, wait_fault. destruct (wait_faults w) as [|f fs] eqn:Ef; [apply H|].
  set (u := {| objects := objects w; call_faults := call_faults w; wait_faults := fs; new_ids := new_ids w |}).
  destruct (H u) as (H1 & H2 & H3).
  assert (quiet w → False) as Hn by (intros [_ ?]; congruence).
  destruct f as [[reason| |happens]|]; cbn; split_and!; try done; try (intros Hq; by destruct Hn).
  by destruct happens.
Qed.
Lemma creads_win32 {X E : Type} (err : CallFault → E) (r : Store → X) :
  creads (win32 err (λ w, (Ok (r (objects w)), w))) (λ s x, x = r s).
Proof.
  intros w. unfold win32, cbind, call_fault. destruct (call_faults w) as [|[f|] fs] eqn:Ef; cbn.
  - split_and!; [done|by intros ? ? [= <- _]|]. intros Hq x ->. by eexists.
  - split_and!; [done|done|]. intros [? _]. congruence.
  - split_and!; [done|by intros ? ? [= <- _]|]. intros [? _]. congruence.
Qed.
Lemma creads_win32_tt {E : Type} (err : CallFault → E) : creads (win32 err (λ w, (Ok tt, w))) (λ _ _, True).
Proof. eapply creads_weaken; [apply (creads_win32 err (λ _, tt))|]. by intros s []. Qed.

Lemma creads_open_raw path : creads (open_raw path) (λ s x, x = s !! path_key path).
Proof.
  intros w. unfold open_raw, cbind, call_fault. destruct (call_faults w) as [|[f|] fs] eqn:Ef; cbn.
  - split_and!; [done|by intros ? ? [= <- _]|]. intros Hq x ->. by eexists.
  - assert (quiet w → False) as Hn by (intros [? _]; congruence).
    case_match; cbn; split_and!; try done; try (by intros ? ? [= <- _]); intros Hq; by destruct Hn.
  - split_and!; [done|by intros ? ? [= <- _]|]. intros [? _]. congruence.
Qed.

Lemma creads_open_existing path : creads (open_existing path) (λ s x, x = s !! path_key path).
Proof. apply creads_bounded, creads_map_err, creads_open_raw. Qed.

Lemma creads_open_waiting path : creads (open_waiting path) (λ s x, s !! path_key path = Some x).
Proof.
  apply creads_bounded. eapply creads_weaken.
  - eapply creads_bind; [apply creads_map_err, creads_open_raw|]. intros o. apply creads_of.
  - intros s x. split.
    + intros (o & -> & H). by destruct (s !! path_key path); [injection H as ->|].
    + intros H. exists (Some x). by rewrite H.
Qed.

Lemma creads_file_information path h : creads (file_information path h) (λ _ i, i = info h).
Proof. apply (creads_win32 _ (λ _, info h)). Qed.

Lemma creads_check_shape h path kind : creads (check_shape h path kind) (λ _ _, shape_ok kind (info h)).
Proof.
  eapply creads_weaken.
  - eapply creads_bind; [apply creads_file_information|]. intros i. apply creads_of.
  - intros s []. rewrite <- (shape_of_ok _ path). naive_solver.
Qed.

Lemma creads_security_of h path : creads (security_of h path) (λ _ d, d = descriptor h).
Proof. apply (creads_win32 _ (λ _, descriptor h)). Qed.

Lemma creads_check_descriptor d path policy :
  creads (check_descriptor d path policy) (λ _ _, descriptor_ok policy d).
Proof.
  intros w. split_and!.
  - symmetry. apply check_descriptor_inspects.
  - intros [] w' H. by eapply check_descriptor_sound.
  - intros Hq [] Hd. exists w. split; [|done]. by apply check_descriptor_complete.
Qed.

Lemma creads_check_security h path policy :
  creads (check_security h path policy) (λ _ _, descriptor_ok policy (descriptor h)).
Proof.
  eapply creads_weaken.
  - eapply creads_bind; [apply creads_security_of|]. intros d. apply creads_check_descriptor.
  - naive_solver.
Qed.

(** What a custody check finds. *)
Definition custody_found (kind : Kind) (policy : Policy) (o : option Object) (b : bool) : Prop :=
  match o with Some o => b = true ∧ in_custody kind policy o | None => b = false end.

Lemma creads_check_if_exists path kind policy :
  creads (check_if_exists_within path kind policy) (λ s b, custody_found kind policy (s !! path_key path) b).
Proof.
  eapply creads_weaken.
  - eapply creads_bind; [apply creads_open_existing|]. intros o.
    apply (λ H, H : creads _ (λ s b, custody_found kind policy o b)). destruct o as [o|].
    + eapply creads_weaken.
      * eapply creads_seq; [apply creads_check_shape|]. eapply creads_seq; [apply creads_check_security|].
        apply creads_ret.
      * intros s b. unfold custody_found, in_custody. naive_solver.
    + apply creads_ret.
  - intros s x. naive_solver.
Qed.

Lemma creads_check path kind policy :
  creads (check path kind policy) (λ s _, ∃ o, s !! path_key path = Some o ∧ in_custody kind policy o).
Proof.
  intros w. destruct (custody_check_exact path kind policy w) as (H1 & H2 & H3). split_and!; [done| |].
  - intros [] w' H. by eapply H1.
  - intros Hq [] (o & Ho & Hc). exists w. split; [by eapply H2|done].
Qed.

(** What a checked read finds. *)
Definition read_found (policy : Policy) (o : option Object) (b : option bytes) : Prop :=
  match o with Some o => b = Some (contents o) ∧ in_custody File policy o | None => b = None end.

Lemma creads_read_checked_within path policy :
  creads (read_checked_within path policy) (λ s b, read_found policy (s !! path_key path) b).
Proof.
  eapply creads_weaken.
  - eapply creads_bind; [apply creads_map_err, creads_open_existing|]. intros o.
    apply (λ H, H : creads _ (λ s b, read_found policy o b)). destruct o as [o|]; [|apply creads_ret].
    eapply creads_weaken.
    + eapply creads_bind; [apply creads_map_err, creads_file_information|]. intros i.
      eapply creads_seq; [apply creads_of|].
      eapply creads_bind; [apply creads_map_err, creads_security_of|]. intros d.
      eapply creads_seq; [apply creads_map_err, creads_check_descriptor|].
      apply (creads_win32 _ (λ _, Some (contents o))).
    + intros s b. unfold read_found, in_custody. split.
      * intros (i & -> & Hs & d & -> & Hd & ->). split; [done|]. split; [|done].
        apply (shape_of_ok _ path). by destruct (shape_of (info o) path File) as [[]|].
      * intros (-> & Hs & Hd). exists (info o). split; [done|].
        rewrite (proj2 (shape_of_ok _ path _) Hs). split; [done|]. by exists (descriptor o).
  - naive_solver.
Qed.

Lemma creads_read_checked path policy :
  creads (read_checked path policy) (λ s b, read_found policy (s !! path_key path) b).
Proof. apply creads_map_err, creads_read_checked_within. Qed.

(** *** Reads that fail *)

(** When no call fails, a read leaves the world as it was, whatever it returns. *)
Definition steady {X E : Type} (m : CM X E) : Prop := ∀ w, quiet w → (m w).2 = w.

Lemma steady_bind {X Y E : Type} (m : CM X E) (f : X → CM Y E) : steady m → (∀ x, steady (f x)) → steady (cbind m f).
Proof.
  intros Hm Hf w Hq. unfold cbind. specialize (Hm w Hq). destruct (m w) as [[x|e] w1]; cbn in Hm; subst w1; [|done].
  by apply Hf.
Qed.
Lemma steady_ret {X E : Type} (x : X) : steady (@cret X E x).
Proof. by intros w. Qed.
Lemma steady_err {X E : Type} (e : E) : steady (@cerr X E e).
Proof. by intros w. Qed.
Lemma steady_of {X E : Type} (r : Result X E) : steady (cof r).
Proof. by intros w. Qed.
Lemma steady_win32 {X E : Type} (err : CallFault → E) (r : CustodyWorld → Result X E) :
  steady (win32 err (λ w, (r w, w))).
Proof. intros w Hq. by rewrite win32_quiet. Qed.
Lemma steady_open_existing path : steady (open_existing path).
Proof. intros w Hq. by rewrite open_existing_quiet. Qed.

Lemma steady_check_aces path policy aces : steady (check_aces path policy aces).
Proof.
  induction aces as [|a aces IH]; cbn [check_aces]; [apply steady_ret|].
  apply steady_bind; [apply (steady_win32 _ (λ _, Ok tt))|]. intros []. repeat case_match; auto using @steady_err.
Qed.
Lemma steady_check_descriptor d path policy : steady (check_descriptor d path policy).
Proof.
  apply steady_bind; [apply (steady_win32 _ (λ _, Ok tt))|]. intros [].
  apply steady_bind; [apply (steady_win32 _ (λ _, Ok tt))|]. intros [].
  case_match; [apply steady_err|]. case_match; [|apply steady_err]. apply steady_bind; [|intros; apply steady_check_aces].
  case_match; [|apply steady_ret]. apply steady_bind; [apply (steady_win32 _ (λ _, Ok tt))|]. intros [].
  case_match; auto using @steady_ret, @steady_err.
Qed.
Lemma steady_check_if_exists path kind policy : steady (check_if_exists_within path kind policy).
Proof.
  apply steady_bind; [apply steady_open_existing|]. intros [h|]; [|apply steady_ret].
  apply steady_bind; [apply steady_bind; [apply (steady_win32 _ (λ _, Ok (info h)))|intros; apply steady_of]|]. intros [].
  apply steady_bind; [apply steady_bind; [apply (steady_win32 _ (λ _, Ok (descriptor h)))|]|intros; apply steady_ret].
  intros d. apply steady_check_descriptor.
Qed.

(** A checked read then finds the file, or refuses it. *)
Lemma read_checked_quiet path policy w :
  quiet w → (∃ b, read_checked_within path policy w = (Ok b, w)) ∨
            (∃ reason, read_checked_within path policy w = (Err (UnreadRefused reason), w)).
Proof.
  intros Hq. unfold read_checked_within, cbind, cmap_err, file_information, security_of, cof.
  rewrite open_existing_quiet by done. cbn [map_err]. destruct (objects w !! path_key path) as [h|]; [|by left; eexists].
  rewrite win32_quiet by done. cbn [map_err].
  destruct (shape_of (info h) path File) as [[]|e]; cbn [map_err]; [|right; by eexists].
  rewrite win32_quiet by done. cbn [map_err]. pose proof (steady_check_descriptor (descriptor h) path policy w Hq) as Hs.
  destruct (check_descriptor (descriptor h) path policy w) as [[[]|e] w1]; cbn in Hs; subst w1; cbn [map_err]; [|right; by eexists].
  rewrite win32_quiet by done. left. by eexists.
Qed.

(** *** Entries of a DACL *)

(** Those acting on the object, or [None] for a type that is not checked. *)
Fixpoint acting (aces : list Ace) : option (list AllowEntry) :=
  match aces with
  | [] => Some []
  | a :: aces =>
      if negb (Z.land (ace_flags a) INHERIT_ONLY_ACE =? 0) then acting aces
      else if ace_type a =? ACCESS_DENIED_ACE_TYPE then acting aces
      else if ace_type a =? ACCESS_ALLOWED_ACE_TYPE
      then cons {| entry_sid := ace_sid a; entry_mask := ace_mask a |} <$> acting aces
      else None
  end.

Lemma creads_collect_entries path aces : creads (collect_entries path aces) (λ _ l, acting aces = Some l).
Proof.
  induction aces as [|a aces IH]; cbn [collect_entries acting].
  { eapply creads_weaken; [apply creads_ret|]. naive_solver. }
  eapply creads_weaken.
  - eapply creads_seq; [apply creads_win32_tt|].
    apply (λ H, H : creads _ (λ _ l, acting (a :: aces) = Some l)). cbn [acting].
    repeat (case_match; try exact IH).
    + eapply creads_weaken; [eapply creads_bind; [apply IH|]; intros l; apply creads_ret|].
      intros s l. destruct (acting aces); naive_solver.
    + eapply creads_weaken; [apply creads_err|]. naive_solver.
  - intros s x. cbn [acting]. naive_solver.
Qed.

Definition acting_of (d : Descriptor) : option (option (list AllowEntry)) :=
  match dacl d with None => Some None | Some aces => Some <$> acting aces end.

Lemma creads_allow_entries d path : creads (allow_entries d path) (λ _ l, acting_of d = Some l).
Proof.
  unfold acting_of. eapply creads_weaken.
  - eapply creads_seq; [apply creads_win32_tt|].
    apply (λ H, H : creads _ (λ _ l, acting_of d = Some l)). unfold acting_of.
    destruct (dacl d) as [aces|].
    + eapply creads_weaken; [eapply creads_bind; [apply creads_collect_entries|]; intros l; apply creads_ret|].
      intros s l. destruct (acting aces); naive_solver.
    + eapply creads_weaken; [apply creads_ret|]. naive_solver.
  - intros s x. unfold acting_of. naive_solver.
Qed.

Lemma creads_owned_by d l : creads (owned_by d l) (λ _ b, b = existsb (λ p, matches p (owner d)) l).
Proof.
  eapply creads_weaken.
  - eapply creads_bind; [apply (creads_win32 _ (λ _, owner d))|]. intros o. apply creads_ret.
  - naive_solver.
Qed.

(** *** Directories and files *)

Lemma creads_entries path :
  creads (CustodyTree.entries path) (λ s l,
    (∃ o, s !! path_key path = Some o ∧ is_directory (info o) = true) ∧
    l = filter (λ n, plain_name n = true) (spelled <$> children (path_key path) s)).
Proof.
  apply creads_bounded. intros w. unfold read_dir, win32, cbind.
  assert (∀ u, objects u = objects w → let '(r, u') := match objects u !! path_key path with
    | Some o => if is_directory (info o)
                then (Ok (filter (λ n, plain_name n = true) (spelled <$> children (path_key path) (objects u))), u)
                else (Err ("list " +:+ path +:+ ": not a directory"), u)
    | None => (Err ("list " +:+ path +:+ ": not found"), u)
    end in u' = u ∧ ∀ l, r = Ok l ↔ (∃ o, objects w !! path_key path = Some o ∧ is_directory (info o) = true) ∧
      l = filter (λ n, plain_name n = true) (spelled <$> children (path_key path) (objects w))) as Hk.
  { intros u ->. destruct (objects w !! path_key path) as [o|]; [destruct (is_directory (info o)) eqn:Ed|];
      (split; [done|]); intros l.
    - split; [intros [= <-]; eauto|by intros [_ ->]].
    - split; [done|]. intros [(o' & [= <-] & ?) _]. congruence.
    - split; [done|]. by intros [(o' & ? & ?) _]. }
  unfold call_fault. destruct (call_faults w) as [|[f|] fs] eqn:Ef.
  - specialize (Hk w eq_refl). destruct (match _ with Some _ => _ | None => _ end) as [r u'].
    destruct Hk as [-> Hk]. split_and!; [done|by intros x w' [= Hr _]; apply Hk|].
    intros Hq x Hx. apply Hk in Hx as ->. by exists w.
  - split_and!; [done|done|]. intros [? _]. congruence.
  - match goal with |- context [objects ?u] => specialize (Hk u eq_refl) end.
    destruct (match _ with Some _ => _ | None => _ end) as [r u'].
    destruct Hk as [-> Hk]. split_and!; [done|by intros x w' [= Hr _]; apply Hk|]. intros [? _]. congruence.
Qed.

Lemma creads_case_sensitive h path :
  case_sensitive h = false → creads (is_case_sensitive h path) (λ _ b, b = false).
Proof.
  intros Hh w. unfold is_case_sensitive, cbind, call_fault.
  destruct (call_faults w) as [|[f|] fs] eqn:Ef; cbn.
  - split_and!; [done|by intros ? ? [= <- _]|]. intros Hq x ->. rewrite Hh. by eexists.
  - assert (quiet w → False) as Hn by (intros [? _]; congruence).
    case_match; cbn; split_and!; try done; try (by intros ? ? [= <- _]); intros Hq; by destruct Hn.
  - split_and!; [done|by intros ? ? [= <- _]|]. intros [? _]. congruence.
Qed.

Lemma creads_read_unshared path limit :
  creads (read_unshared path limit) (λ s x, ∃ o, s !! path_key path = Some o ∧ shape_ok File (info o) ∧
    Z.of_nat (length (contents o)) ≤ limit ∧ x = (contents o, file_id (info o))).
Proof.
  apply creads_bounded. eapply creads_weaken.
  - eapply creads_bind; [apply creads_map_err, creads_open_raw|]. intros handle.
    eapply creads_bind; [apply creads_of|]. intros h.
    eapply creads_seq; [apply creads_check_shape|].
    eapply creads_bind; [apply creads_file_information|]. intros i.
    apply (λ H, H : creads _ (λ s x, Z.of_nat (length (contents h)) ≤ limit ∧ x = (contents h, file_id i))).
    destruct (Z.ltb_spec limit (Z.of_nat (length (contents h)))).
    + eapply creads_weaken; [apply creads_err|]. intros s x. split; [done|]. intros [? _]. lia.
    + eapply creads_weaken; [apply (creads_win32 _ (λ _, (contents h, file_id i)))|]. naive_solver.
  - intros s x. split.
    + intros (handle & -> & h & Hh & Hs & i & -> & Hl & ->). destruct (s !! path_key path); [|done].
      injection Hh as ->. eauto.
    + intros (o & Ho & Hs & Hl & ->). exists (s !! path_key path). split; [done|]. exists o. split; [by rewrite Ho|].
      split; [done|]. by exists (info o).
Qed.

Lemma creads_check_links h path :
  creads (check_links h path) (λ _ id, links (info h) = 1 ∧ id = file_id (info h)).
Proof.
  eapply creads_weaken.
  - eapply creads_bind; [apply creads_file_information|]. intros i.
    apply (λ H, H : creads _ (λ s id, links i = 1 ∧ id = file_id i)). destruct (Z.eqb_spec (links i) 1); cbn [negb].
    + eapply creads_weaken; [apply creads_ret|]. naive_solver.
    + eapply creads_weaken; [apply creads_err|]. naive_solver.
  - naive_solver.
Qed.

End CustodyReads.

(** ** What the custody writes *)

Section CustodyWrites.
Context {Sec : Win32Security} (c : bool).
Implicit Types (P I : Store → Prop) (s : Store).

(** Calls: one that is made, or fails with nothing done. *)
Lemma ctriple_call {X E : Type} P (m : option CallFault → CM X E) (Q : X → Store → Prop) I :
  ctriple c P (m None) Q I → (c = false → ∀ f, ctriple c P (m (Some f)) Q I) →
  ctriple c P (cbind call_fault m) Q I.
Proof.
  intros H1 H2 w Hq HP. unfold cbind, call_fault. destruct (call_faults w) as [|f fs] eqn:Ef; [by apply H1|].
  assert (c = false) as Hc. { destruct c; [|done]. destruct (Hq eq_refl) as [? _]. congruence. }
  set (u := {| objects := objects w; call_faults := fs; wait_faults := wait_faults w; new_ids := new_ids w |}).
  destruct f as [f|].
  - apply (H2 Hc f u); [by rewrite Hc|exact HP].
  - apply (H1 u); [by rewrite Hc|exact HP].
Qed.

Lemma ctriple_err {X E : Type} P (e : E) (Q : X → Store → Prop) I :
  (∀ s, P s → c = false ∧ I s) → ctriple c P (@cerr X E e) Q I.
Proof. intros H w Hq HP. by apply H. Qed.

(** A step that succeeds. *)
Lemma ctriple_step {X E : Type} P (f : Store → Store) (x : X) (Q : X → Store → Prop) I :
  (∀ s, P s → Q x (f s)) → ctriple c P (λ w, (@Ok X E x, with_objects w (f (objects w)))) Q I.
Proof. intros H w Hq HP. split; [done|]. by apply H. Qed.

Lemma ctriple_of {X E : Type} P (r : Result X E) (Q : X → Store → Prop) I :
  (∀ s x, P s → r = Ok x → Q x s) → (∀ s, P s → I s) → (c = true → ∀ s, P s → is_ok r = true) →
  ctriple c P (cof r) Q I.
Proof.
  intros H1 H2 H3 w Hq HP. cbn. destruct r as [x|e]; [naive_solver|]. split; [|by apply H2].
  destruct c; [|done]. by specialize (H3 eq_refl _ HP).
Qed.

Lemma ctriple_set_security P h path sddl d (Q : Object → Store → Prop) I :
  from_sddl sddl = Ok d → (∀ s, P s → I s) → (∀ x s, Q x s → I s) →
  (∀ s, P s → ∃ o, s !! path_key path = Some o ∧ Q (secured d h) (<[path_key path := secured d o]> s)) →
  ctriple c P (set_security h path sddl) Q I.
Proof.
  intros Hd HI HQI HQ. apply ctriple_bounded; [|done|done].
  eapply ctriple_bind; [apply (ctriple_of _ _ (λ x s, x = d ∧ P s))|].
  - intros s x HP Hx. rewrite Hd in Hx. by injection Hx as <-.
  - done.
  - intros _ s _. by rewrite Hd.
  - intros d'. eapply ctriple_bind; [apply (ctriple_reads c _ _ _
      (λ named s, d' = d ∧ named = match owner d with Some _ => true | None => false end ∧ P s) _
      (creads_bind _ _ _ _ (creads_win32 _ (λ _, owner d')) (λ o, creads_ret _)))|].
    + naive_solver.
    + intros _ s _. eauto.
    + intros s x [-> HP] (o & -> & ->). done.
    + intros named. apply ctriple_call; [|intros Hc f; apply ctriple_err; naive_solver].
      intros w Hq (-> & -> & HP). destruct (HQ _ HP) as (o & Ho & H). split.
      * intros Hc. specialize (Hq Hc). by rewrite Ho.
      * rewrite Ho. exact H.
Qed.

Lemma ctriple_create P dir ee path d (Q : unit → Store → Prop) I :
  (∀ s, P s → I s) →
  (∀ s o, P s → s !! path_key path = None → parent_there s (path_key path) = true →
     fresh_object dir path d [] o → Q tt (<[path_key path := o]> s)) →
  (c = true → ∀ s, P s → s !! path_key path = None ∧ parent_there s (path_key path) = true) →
  ctriple c P (create_new dir ee path d) Q I.
Proof.
  intros HI HQ Hc. apply ctriple_call; [|intros Hf f; apply ctriple_err; naive_solver].
  intros w Hq HP. destruct (objects w !! path_key path) as [o|] eqn:Eo.
  { split; [|by apply HI]. destruct c; [|done]. destruct (Hc eq_refl _ HP). congruence. }
  destruct (parent_there (objects w) (path_key path)) eqn:Ep.
  - split; [done|]. cbn [objects]. apply HQ; try done. split_and!; try done. by destruct dir.
  - split; [|by apply HI]. destruct c; [|done]. destruct (Hc eq_refl _ HP). congruence.
Qed.

Lemma ctriple_create_directory P path sddl d (Q : unit → Store → Prop) I :
  from_sddl sddl = Ok d → (∀ s, P s → I s) →
  (∀ s o, P s → s !! path_key path = None → parent_there s (path_key path) = true →
     fresh_object true path d [] o → Q tt (<[path_key path := o]> s)) →
  (c = true → ∀ s, P s → s !! path_key path = None ∧ parent_there s (path_key path) = true) →
  ctriple c P (create_new_directory path sddl) Q I.
Proof.
  intros Hd HI HQ Hc. eapply ctriple_bind; [apply (ctriple_of _ _ (λ x s, x = d ∧ P s))|].
  - intros s x HP Hx. rewrite Hd in Hx. by injection Hx as <-.
  - done.
  - intros _ s _. by rewrite Hd.
  - intros d'. apply ctriple_map_err, ctriple_create; [naive_solver| |naive_solver]. intros s o [-> HP]. by apply HQ.
Qed.

(** A write through the handle of the object at [path]. *)
Lemma ctriple_write P path b (Q : unit → Store → Prop) I :
  (∀ s, P s → ∃ o, s !! path_key path = Some o ∧ Q tt (<[path_key path := with_contents o b]> s) ∧
     ∀ stored, stored `prefix_of` b → I (<[path_key path := with_contents o stored]> s)) →
  ctriple c P (write_contents path b) Q I.
Proof.
  intros H. apply ctriple_call.
  - intros w Hq HP. destruct (H _ HP) as (o & Ho & HQ & _). rewrite Ho. by split.
  - intros Hc f w Hq HP. destruct (H _ HP) as (o & Ho & _ & HI). rewrite Ho. split; [done|]. apply HI, prefix_take.
Qed.

Lemma with_contents_fresh dir path d o b :
  fresh_object dir path d [] o → fresh_object dir path d b (with_contents o b).
Proof. intros (H1 & H2 & _ & H4). done. Qed.

Lemma ctriple_create_file P path sddl d b (Q : unit → Store → Prop) I :
  from_sddl sddl = Ok d → (∀ s, P s → I s) →
  (∀ s o, P s → s !! path_key path = None → parent_there s (path_key path) = true →
     fresh_object false path d b o → Q tt (<[path_key path := o]> s)) →
  (∀ s o stored, P s → s !! path_key path = None → parent_there s (path_key path) = true →
     stored `prefix_of` b → fresh_object false path d stored o → I (<[path_key path := o]> s)) →
  (c = true → ∀ s, P s → s !! path_key path = None ∧ parent_there s (path_key path) = true) →
  ctriple c P (create_new_file path sddl b) Q I.
Proof.
  intros Hd HI HQ HQI Hc. eapply ctriple_bind; [apply (ctriple_of _ _ (λ x s, x = d ∧ P s))|].
  - intros s x HP Hx. rewrite Hd in Hx. by injection Hx as <-.
  - done.
  - intros _ s _. by rewrite Hd.
  - intros d'. eapply ctriple_bind.
    + apply ctriple_map_err, (ctriple_create _ _ _ _ _ (λ _ s', ∃ s o, P s ∧ s !! path_key path = None ∧
        parent_there s (path_key path) = true ∧ fresh_object false path d [] o ∧ s' = <[path_key path := o]> s));
        [naive_solver| |naive_solver]. intros s o [-> HP] Hn Hp Ho. by exists s, o.
    + intros []. apply ctriple_write. intros s' (s & o & HP & Hn & Hp & Ho & ->). exists o.
      rewrite lookup_insert_eq, !insert_insert_eq. split; [done|]. split.
      * apply HQ; try done. by apply with_contents_fresh.
      * intros stored Hpre. rewrite insert_insert_eq. apply (HQI _ _ stored); try done. by apply with_contents_fresh.
Qed.

Lemma ctriple_remove_dir_all P path (Q : unit → Store → Prop) I :
  (∀ s, P s → I s) →
  (∀ s, P s → is_Some (s !! path_key path) → Q tt (remove_tree (path_key path) s)) →
  (∀ s n, P s → I (delete_all (take n (descendants (path_key path) s)) s)) →
  (c = true → ∀ s, P s → is_Some (s !! path_key path)) →
  ctriple c P (remove_dir_all path) Q I.
Proof.
  intros HI HQ HF Hc. apply ctriple_call.
  - intros w Hq HP. destruct (objects w !! path_key path) as [o|] eqn:Eo.
    + split; [done|]. cbn. apply HQ; [done|]. by rewrite Eo.
    + split; [|by apply HI]. destruct c; [|done]. destruct (Hc eq_refl _ HP). congruence.
  - intros Hf f w Hq HP. split; [done|]. cbn. by apply HF.
Qed.

Lemma ctriple_delete_file P path (Q : unit → Store → Prop) I :
  (∀ s, P s → I s) →
  (∀ s o, P s → s !! path_key path = Some o → is_directory (info o) = false → Q tt (delete (path_key path) s)) →
  (c = true → ∀ s, P s → ∃ o, s !! path_key path = Some o ∧ is_directory (info o) = false) →
  ctriple c P (delete_file path) Q I.
Proof.
  intros HI HQ Hc. apply ctriple_call; [|intros Hf f; apply ctriple_err; naive_solver].
  intros w Hq HP. destruct (objects w !! path_key path) as [o|] eqn:Eo;
    [destruct (is_directory (info o)) eqn:Ed|].
  - split; [|by apply HI]. destruct c; [|done]. destruct (Hc eq_refl _ HP) as (? & ? & ?). congruence.
  - split; [done|]. cbn. by eapply HQ.
  - split; [|by apply HI]. destruct c; [|done]. destruct (Hc eq_refl _ HP) as (? & ? & ?). congruence.
Qed.

Lemma ctriple_remove_file P path (Q : unit → Store → Prop) I :
  (∀ s, P s → I s) →
  (∀ s o, P s → s !! path_key path = Some o → is_directory (info o) = false → Q tt (delete (path_key path) s)) →
  (c = true → ∀ s, P s → ∃ o, s !! path_key path = Some o ∧ is_directory (info o) = false) →
  ctriple c P (remove_file path) Q I.
Proof.
  intros HI HQ Hc w Hq HP. unfold remove_file. pose proof (ctriple_delete_file P path Q I HI HQ Hc w Hq HP) as H.
  by destruct (delete_file path w) as [[]].
Qed.

Lemma ctriple_rename P from to (Q : unit → Store → Prop) I :
  (∀ s, P s → I s) → (∀ x s, Q x s → I s) →
  (∀ s o, P s → s !! path_key from = Some o → unoccupied (path_key to) s → parent_there s (path_key to) = true →
     Q tt (renamed (path_key from) o to s)) →
  (c = true → ∀ s, P s → is_Some (s !! path_key from) ∧ unoccupied (path_key to) s ∧
     parent_there s (path_key to) = true) →
  ctriple c P (rename from to) Q I.
Proof.
  intros HI HQI HQ Hc. apply ctriple_bounded; [|done|done].
  apply ctriple_call; [|intros Hf f; apply ctriple_err; naive_solver].
  intros w Hq HP. destruct (objects w !! path_key from) as [o|] eqn:Eo.
  2: { split; [|by apply HI]. destruct c; [|done]. destruct (Hc eq_refl _ HP) as ([? ?] & _). congruence. }
  destruct (occupied (path_key to) (objects w)) eqn:Eu.
  { split; [|by apply HI]. destruct c; [|done]. destruct (Hc eq_refl _ HP) as (_ & Hu & _).
    apply occupied_false in Hu. congruence. }
  apply occupied_false in Eu. destruct (parent_there (objects w) (path_key to)) eqn:Ep.
  - split; [done|]. cbn. by apply HQ.
  - split; [|by apply HI]. destruct c; [|done]. destruct (Hc eq_refl _ HP) as (_ & _ & ?). congruence.
Qed.

(** *** A file replaced *)

(** What replaces the object [o]. *)
Definition replacement (path : string) (o : Object) (b : bytes) (o' : Object) : Prop :=
  shape_ok File (info o') ∧ descriptor o' = descriptor o ∧ contents o' = b ∧ spelled o' = file_name path.

(** The temporary deleted when it is there. *)
Lemma ctriple_clear P temporary (Q : unit → Store → Prop) I :
  (∀ s, P s → I s) → (∀ s, P s → (c = true → s !! path_key temporary = None) → Q tt s) →
  (∀ s o, P s → s !! path_key temporary = Some o → is_directory (info o) = false →
     Q tt (delete (path_key temporary) s)) →
  (c = true → ∀ s t, P s → s !! path_key temporary = Some t → is_directory (info t) = false) →
  ctriple c P (λ w, let '(r, w') := delete_file temporary w in
                    match r with
                    | Err e => if e =? ERROR_FILE_NOT_FOUND then (Ok tt, w')
                               else (Err (failure "delete" temporary e), w')
                    | Ok _ => (Ok tt, w')
                    end) Q I.
Proof.
  intros HI HQ0 HQ Hc w Hq HP. unfold delete_file, cbind, call_fault.
  destruct (call_faults w) as [|f fs] eqn:Ef.
  - destruct (objects w !! path_key temporary) as [o|] eqn:Eo; [destruct (is_directory (info o)) eqn:Ed|].
    + split; [|by apply HI]. destruct c; [|done]. specialize (Hc eq_refl _ o HP Eo). congruence.
    + split; [done|]. cbn. by eapply HQ.
    + split; [done|]. by apply HQ0.
  - assert (c = false) as Hf. { destruct c; [|done]. destruct (Hq eq_refl) as [? _]. congruence. }
    rewrite Hf. destruct f as [f|]; cbn.
    + destruct (win32_error f =? ERROR_FILE_NOT_FOUND); (split; [done|]); [apply HQ0; [done|]; by rewrite Hf|by apply HI].
    + destruct (objects w !! path_key temporary) as [o|] eqn:Eo; [destruct (is_directory (info o)) eqn:Ed|]; cbn;
        (split; [done|]); [by apply HI|by eapply HQ|by apply HQ0].
Qed.

Lemma ctriple_move P from to (Q : unit → Store → Prop) I :
  (∀ s, P s → I s) →
  (∀ s, P s → ∃ o, s !! path_key from = Some o ∧
     (∀ t, s !! path_key to = Some t → is_directory (info t) = false) ∧
     Q tt (<[path_key to := respelled o (file_name to)]> (delete (path_key from) s))) →
  ctriple c P (move_file from to) Q I.
Proof.
  intros HI HQ. apply ctriple_call; [|intros Hf f; apply ctriple_err; naive_solver].
  intros w Hq HP. destruct (HQ _ HP) as (o & Ho & Ht & H). rewrite Ho.
  assert (from_option (λ t, is_directory (info t)) false (objects w !! path_key to) = false) as ->.
  { destruct (objects w !! path_key to) as [t|]; [by apply Ht|done]. }
  split; [done|exact H].
Qed.

Lemma ctriple_write_and_move P path temporary b (Q : unit → Store → Prop) I :
  (∀ s, P s → ∃ t, s !! path_key temporary = Some t ∧ is_directory (info t) = false ∧
     (∀ o, s !! path_key path = Some o → is_directory (info o) = false) ∧
     Q tt (<[path_key path := respelled (with_contents t b) (file_name path)]> (delete (path_key temporary) s)) ∧
     (∀ stored, I (<[path_key temporary := with_contents t stored]> s)) ∧ I (delete (path_key temporary) s)) →
  path_key path ≠ path_key temporary →
  ctriple c P (write_and_move path temporary b) Q I.
Proof.
  intros H Hne w Hq HP. unfold write_and_move.
  destruct (H _ HP) as (t & Ht & Hdt & Hdo & HQ & HI1 & HI2). set (s := objects w) in *.
  pose proof (ctriple_bind c (λ u, u = s) (write_contents temporary b)
    (λ _ u, u = <[path_key temporary := with_contents t b]> s)
    (λ _, cmap_err (failure "replace" path) (move_file temporary path))
    (λ _ u, u = <[path_key path := respelled (with_contents t b) (file_name path)]> (delete (path_key temporary) s))
    (λ u, ∃ stored, u = <[path_key temporary := with_contents t stored]> s)) as HB.
  assert (ctriple c (λ u, u = s) (write_contents temporary b ;;~ cmap_err (failure "replace" path) (move_file temporary path))
    (λ _ u, u = <[path_key path := respelled (with_contents t b) (file_name path)]> (delete (path_key temporary) s))
    (λ u, ∃ stored, u = <[path_key temporary := with_contents t stored]> s)) as HT.
  { apply HB.
    - apply ctriple_write. intros u ->. exists t. split_and!; [done|done|]. intros stored _. by exists stored.
    - intros []. apply ctriple_map_err, ctriple_move; [intros u ->; by exists b|].
      intros u ->. exists (with_contents t b). rewrite lookup_insert_eq, lookup_insert_ne by done.
      split_and!; [done|exact Hdo|]. by rewrite delete_insert_eq. }
  specialize (HT w Hq eq_refl).
  destruct ((write_contents temporary b ;;~ cmap_err (failure "replace" path) (move_file temporary path)) w)
    as [[[]|e] w1].
  { destruct HT as [Hq1 ->]. done. }
  destruct HT as [Hf [stored Hs]]. split; [done|].
  pose proof (delete_file_run temporary w1) as Hd. destruct (delete_file temporary w1) as [r2 w2]. cbn.
  destruct Hd as [-> | ->]; rewrite Hs; [apply HI1|]. by rewrite delete_insert_eq.
Qed.

Lemma ctriple_replace P path temporary b policy (Q : unit → Store → Prop) I :
  path_key path ≠ path_key temporary →
  (∀ s, P s → I s) → (∀ s, P s → I (delete (path_key temporary) s)) →
  (∀ s t, P s → shape_ok File (info t) → spelled t = file_name temporary →
     parent_there (delete (path_key temporary) s) (path_key temporary) = true →
     I (<[path_key temporary := t]> (delete (path_key temporary) s))) →
  (∀ s o o', P s → s !! path_key path = Some o → in_custody File policy o → replacement path o b o' →
     Q tt (<[path_key path := o']> (delete (path_key temporary) s))) →
  (c = true → ∀ s, P s → (∃ o, s !! path_key path = Some o ∧ in_custody File policy o) ∧
     (∀ t, s !! path_key temporary = Some t → is_directory (info t) = false) ∧
     parent_there (delete (path_key temporary) s) (path_key temporary) = true) →
  ctriple c P (replace_keeping_security path temporary b policy) Q I.
Proof.
  intros Hne HI HId HIt HQ Hc. unfold replace_keeping_security.
  eapply ctriple_bind; [eapply (ctriple_reads c _ _ _ (λ h s, h = s !! path_key path ∧ P s) _ (creads_open_existing path));
    naive_solver|]. intros handle.
  eapply (ctriple_bind c _ _ (λ o s, s !! path_key path = Some o ∧ P s)).
  { apply ctriple_of; [|naive_solver|].
    - intros s o [-> HP] Ho. split; [|done]. by apply ok_or_ok in Ho.
    - intros Ht s [-> HP]. destruct (Hc Ht _ HP) as [(o & -> & _) _]. done. }
  intros o. eapply (ctriple_bind c _ _ (λ _ s, shape_ok File (info o) ∧ s !! path_key path = Some o ∧ P s)).
  { eapply ctriple_reads; [apply creads_check_shape|naive_solver| |naive_solver].
    intros Ht s [Ho HP]. exists tt. destruct (Hc Ht _ HP) as [(o' & Ho' & [? _]) _]. congruence. }
  intros []. eapply (ctriple_bind c _ _ (λ d s, d = descriptor o ∧ shape_ok File (info o) ∧ s !! path_key path = Some o ∧ P s)).
  { eapply ctriple_reads; [apply creads_security_of|naive_solver|eauto|naive_solver]. }
  intros d. eapply (ctriple_bind c _ _ (λ _ s, d = descriptor o ∧ in_custody File policy o ∧ s !! path_key path = Some o ∧ P s)).
  { eapply ctriple_reads; [apply creads_check_descriptor|naive_solver| |].
    - intros Ht s (-> & _ & Ho & HP). exists tt. destruct (Hc Ht _ HP) as [(o' & Ho' & [_ ?]) _]. congruence.
    - intros s [] (-> & Hs & Ho & HP) Hd. done. }
  intros []. eapply (ctriple_bind c _ _ (λ _ s', ∃ s, d = descriptor o ∧ in_custody File policy o ∧
    s !! path_key path = Some o ∧ P s ∧ (s' = s ∨ s' = delete (path_key temporary) s) ∧
    (c = true → s' = delete (path_key temporary) s))).
  { apply ctriple_clear.
    - naive_solver.
    - intros s (Hd & Hic & Ho & HP) Hn. exists s. split_and!; try done; [by left|]. intros Ht.
      by rewrite delete_id by (by apply Hn).
    - intros s t (Hd & Hic & Ho & HP) Ht Hdt. exists s. split_and!; try done. by right.
    - intros Ht s t (_ & _ & _ & HP). destruct (Hc Ht _ HP) as (_ & H & _). by apply H. }
  intros []. eapply (ctriple_bind c _ _ (λ _ s', ∃ s t, d = descriptor o ∧ in_custody File policy o ∧
    s !! path_key path = Some o ∧ P s ∧ fresh_object false temporary d [] t ∧
    parent_there (delete (path_key temporary) s) (path_key temporary) = true ∧
    s' = <[path_key temporary := t]> (delete (path_key temporary) s))).
  { apply ctriple_map_err, ctriple_create.
    - intros s' (s & _ & _ & _ & HP & [-> | ->] & _); auto.
    - intros s' t (s & Hd & Hic & Ho & HP & Hs' & _) Hn Hp Hf. exists s, t.
      assert (s' = delete (path_key temporary) s) as ->.
      { destruct Hs' as [-> | ->]; [by rewrite delete_id|done]. }
      done.
    - intros Ht s' (s & Hd & Hic & Ho & HP & _ & Hs'). rewrite Hs' by done. rewrite lookup_delete_eq.
      split; [done|]. by destruct (Hc Ht _ HP) as (_ & _ & ?). }
  intros []. apply ctriple_write_and_move; [|done].
  intros s' (s & t & -> & Hic & Ho & HP & Ht & Hp & ->). exists t. rewrite lookup_insert_eq, lookup_insert_ne by done.
  rewrite delete_insert_eq, (delete_id (delete _ s)) by apply lookup_delete_eq. rewrite lookup_delete_ne by done.
  destruct Ht as (Hs1 & Hd1 & _ & Hsp & _). pose proof Hs1 as (_ & Hdir & _). split_and!; try done.
  - rewrite Ho. intros o' [= <-]. by destruct Hic as [(_ & ? & _) _].
  - by apply (HQ s o).
  - intros stored. rewrite insert_insert_eq. by apply HIt.
  - by apply HId.
Qed.

End CustodyWrites.

(** ** What the migration reads *)

Section MigrationReads.

Lemma mreads_weaken {X E : Type} (m : MM X E) (R R' : Store → X → Prop) :
  mreads m R → (∀ s x, R s x ↔ R' s x) → mreads m R'.
Proof.
  intros H Heq w. destruct (H w) as (H1 & H2 & H3). split_and!; [done| |].
  - intros x w' E1. apply Heq. eauto.
  - intros Hq x Hx. apply H3; [done|]. by apply Heq.
Qed.

Lemma mreads_bind {X Y E : Type} (m : MM X E) (f : X → MM Y E) (R : Store → X → Prop) (G : X → Store → Y → Prop) :
  mreads m R → (∀ x, mreads (f x) (G x)) → mreads (mbind m f) (λ s y, ∃ x, R s x ∧ G x s y).
Proof.
  intros Hm Hf w. destruct (Hm w) as (H1 & H2 & H3). unfold mbind.
  destruct (m w) as [[x|e] w1] eqn:Em; cbn [fst snd] in *.
  - destruct (Hf x w1) as (F1 & F2 & F3). split_and!; [congruence| |].
    + intros y w' Hy. exists x. split; [eauto|]. rewrite <- H1. eauto.
    + intros Hq y (x' & Hx' & Hy). destruct (H3 Hq x' Hx') as (w' & [= <- <-] & Hq'). apply F3; [done|]. by rewrite H1.
  - split_and!; [done|done|]. intros Hq y (x' & Hx' & Hy). by destruct (H3 Hq x' Hx') as (w' & ? & _).
Qed.

Lemma mreads_seq {X Y E : Type} (m : MM X E) (k : MM Y E) (R : Store → X → Prop) (G : Store → Y → Prop) :
  mreads m R → mreads k G → mreads (m ;;* k) (λ s y, (∃ x, R s x) ∧ G s y).
Proof.
  intros Hm Hk. eapply mreads_weaken; [by apply (mreads_bind m (λ _, k) R (λ _, G))|]. naive_solver.
Qed.

Lemma mreads_ret {X E : Type} (x : X) : mreads (@mret X E x) (λ _ y, y = x).
Proof. intros w. split_and!; [done|by intros ? ? [= <- _]|]. intros Hq y ->. by eexists. Qed.
Lemma mreads_of {X E : Type} (r : Result X E) : mreads (mof r) (λ _ y, r = Ok y).
Proof. intros w. split_and!; [done|by intros ? ? [= -> _]|]. intros Hq y ->. by eexists. Qed.
Lemma mreads_map_err {X E F : Type} (f : E → F) (m : MM X E) (R : Store → X → Prop) : mreads m R → mreads (mmap_err f m) R.
Proof.
  intros H w. destruct (H w) as (H1 & H2 & H3). unfold mmap_err. destruct (m w) as [r w1]; cbn [fst snd] in *.
  split_and!; [done| |].
  - intros x w' [= Hr <-]. destruct r; [|done]. injection Hr as ->. eauto.
  - intros Hq x Hx. destruct (H3 Hq x Hx) as (w' & [= -> <-] & ?). by eexists.
Qed.
Lemma mreads_fs {X E : Type} (m : CM X E) (R : Store → X → Prop) : creads m R → mreads (fs m) R.
Proof.
  intros H w. destruct (H (mfs w)) as (H1 & H2 & H3). unfold fs. destruct (m (mfs w)) as [r u]; cbn [fst snd] in *.
  split_and!; [done| |].
  - intros x w' [= -> <-]. by eapply H2.
  - intros (Hq & ? & ?) x Hx. destruct (H3 Hq x Hx) as (u' & [= -> ->] & Hq'). by eexists.
Qed.
Lemma mreads_fsi {X : Type} (m : CM X string) (R : Store → X → Prop) : creads m R → mreads (fsi m) R.
Proof. intros H. by apply mreads_map_err, mreads_fs. Qed.
Lemma mreads_catch {X E F : Type} (m : MM X E) (h : E → MM X F) (R : Store → X → Prop) :
  mreads m R → (∀ e, refuses (h e)) → mreads (mcatch m h) R.
Proof.
  intros H Hh w. destruct (H w) as (H1 & H2 & H3). unfold mcatch. destruct (m w) as [[x|e] w1]; cbn [fst snd] in *.
  - split_and!; [done| |].
    + intros y w' [= <- <-]. eauto.
    + intros Hq y Hy. destruct (H3 Hq y Hy) as (w' & [= <- <-] & ?). by eexists.
  - destruct (Hh e w1) as [G1 G2]. destruct (h e w1) as [[y|e'] w2]; [done|]. cbn in *. split_and!; [congruence|done|].
    intros Hq y Hy. by destruct (H3 Hq y Hy) as (w' & ? & ?).
Qed.
Lemma mreads_at p : mreads (at_point p) (λ _ _, True).
Proof.
  intros w. unfold at_point. destruct (watch_answers w) as [|a l] eqn:Ea; cbn.
  - split_and!; [done|done|]. intros (? & ? & ?) [] _. by eexists.
  - split_and!; [done|done|]. intros (_ & ? & _). congruence.
Qed.
Lemma mreads_refuses {X E : Type} (m : MM X E) : refuses m → mreads m (λ _ _, False).
Proof.
  intros H w. destruct (H w) as [H1 H2]. split_and!; [done| |done]. intros x w' E1. rewrite E1 in H1. done.
Qed.

(** *** Refusals *)

Context {Sec : Win32Security} (env : Environment).

Lemma refuses_in_place {A : Type} code line : refuses (@in_place Sec env A code line).
Proof.
  intros w. split.
  - destruct (in_place env code line w) as [[x|e] w'] eqn:E; [|done]. by apply in_place_not_ok in E.
  - symmetry. apply in_place_inspects.
Qed.
Lemma refuses_cut {A : Type} code render cut : refuses (@cut_in_place Sec env A code render cut).
Proof. destruct cut; [apply refuses_in_place|by intros w]. Qed.
Lemma refuses_stop {A : Type} reason : refuses (@stop Sec env A reason).
Proof. apply refuses_in_place. Qed.
Lemma refuses_err {X E : Type} (e : E) : refuses (@merr X E e).
Proof. by intros w. Qed.

End MigrationReads.
