(* ===== verification/MigrationPhases.v ===== *)
(** * Where a migration can be ([service/migration.rs])

    The states of the product's directory a migration goes through: [ready], with the
    console installation at the data root and a staging directory in whatever part;
    [between] its renames, to be completed or reversed; and [migrated]. Each is a
    predicate on the objects at and below one directory, carried along by a rename,
    with the changes the migration's operations make to it. *)

From stdpp Require Import sorting.
From S2P Require Import Prelude FileTree IpAddr Types Errors Network Config Signing Tls TlsConfig X509.
From S2P Require Import Transport Enrollment Identity Custody CustodyTree Installed Service.
From S2P Require Import MigrationChecks MigrationRun MigrationToy MigrationSafety MigrationLogic.
Open Scope Z_scope.

(** ** Descriptors *)

(** [FILE_ALL_ACCESS] for each of [l], owned by the first. *)
Definition grants (flags : Z) (sid : bytes) : Ace :=
  {| ace_type := ACCESS_ALLOWED_ACE_TYPE; ace_flags := flags; ace_mask := 0x1F01FF; ace_sid := sid |}.
Definition private_to (flags : Z) (system : bytes) (l : list bytes) : Descriptor :=
  {| owner := Some system; dacl := Some (grants flags <$> l); dacl_protected := true |}.

(** What Windows makes of the four texts: [SY] and [BA] are SYSTEM and Administrators,
    [OICI] the flags 3, [FA] full access, [P] protected. *)
Class SddlLaws (Sec : Win32Security) := {
  system_sid : bytes;
  administrators_sid : bytes;
  system_matches : matches System (Some system_sid) = true;
  administrators_matches : matches Administrators (Some administrators_sid) = true;
  sddl_private_directory :
    from_sddl_text PRIVATE_DIRECTORY = Ok (private_to 3 system_sid [system_sid; administrators_sid]);
  sddl_shared_file :
    from_sddl_text (mc_shared_file_sddl migration_custody_system)
    = Ok (private_to 0 system_sid [system_sid; administrators_sid]);
  sddl_identity_directory : from_sddl_text DIRECTORY_SDDL = Ok (private_to 3 system_sid [system_sid]);
  sddl_identity_file : from_sddl_text FILE_SDDL = Ok (private_to 0 system_sid [system_sid]);
}.

Section Descriptors.
Context {Sec : Win32Security} {Laws : SddlLaws Sec}.

#[local] Notation both := [System; Administrators].

(** What [check_closable] accepts. *)
Definition closable (d : Descriptor) : Prop :=
  existsb (λ p, matches p (owner d)) both = true ∧
  ∃ l, acting_of d = Some (Some l) ∧
    Forall (λ e, existsb (λ p, principal_is p (entry_sid e)) both = true ∨
                 Z.land (entry_mask e) (Z.lor (Z.lor WRITE_DAC WRITE_OWNER) GENERIC_ALL) = 0) l.

(** What the loop over an identity file's entries finds. *)
Definition allows_of_system (l : list AllowEntry) : Allows :=
  allows_of {| me_paths := under ""; me_custody := migration_custody_system; me_now := 0 |} l
    {| allows_service := false; allows_administrators := false; others := [] |}.

(** What [check_file] accepts of the product's file [name], of one account [account]. *)
Definition acceptable (account : bytes) (name : string) (d : Descriptor) : Prop :=
  existsb (λ p, matches p (owner d)) both = true ∧
  (name ∈ IDENTITY_FILES → ∃ l, acting_of d = Some (Some l) ∧ allows_too_much (allows_of_system l) = false ∧
     ∀ sid, last (others (allows_of_system l)) = Some sid → sid = account).

Lemma acting_grants flags l :
  Z.land flags 8 = 0 → acting (grants flags <$> l) = Some ((λ sid, {| entry_sid := sid; entry_mask := 0x1F01FF |}) <$> l).
Proof.
  intros Hf. induction l as [|sid l IH]; [done|]. rewrite fmap_cons. cbn [acting grants ace_flags ace_type ace_sid ace_mask].
  unfold INHERIT_ONLY_ACE. rewrite Hf, IH. done.
Qed.

Lemma private_owned flags l : existsb (λ p, matches p (owner (private_to flags system_sid l))) both = true.
Proof. cbn [existsb owner private_to]. by rewrite system_matches. Qed.

Lemma shared_configuration flags :
  descriptor_ok configuration (private_to flags system_sid [system_sid; administrators_sid]).
Proof.
  split_and!; [|done|].
  - exists System. split; [by left|]. apply system_matches.
  - eexists. split; [reflexivity|]. constructor; [|constructor; [|constructor]]; right; (split; [done|]).
    + exists System. split; [by left|]. apply system_matches.
    + exists Administrators. split; [by right; left|]. apply administrators_matches.
Qed.

Lemma private_system_only flags : descriptor_ok system_only (private_to flags system_sid [system_sid]).
Proof.
  split_and!; [|done|].
  - exists System. split; [by left|]. apply system_matches.
  - eexists. split; [reflexivity|]. constructor; [|constructor]. right. split; [done|].
    exists System. split; [by left|]. apply system_matches.
Qed.

Lemma shared_closable flags :
  Z.land flags 8 = 0 → closable (private_to flags system_sid [system_sid; administrators_sid]).
Proof.
  intros Hf. split; [apply private_owned|]. unfold acting_of. cbn [dacl private_to]. rewrite acting_grants by done.
  eexists. split; [reflexivity|]. constructor; [|constructor; [|constructor]]; left; cbn [existsb entry_sid]; unfold principal_is.
  - by rewrite system_matches.
  - rewrite administrators_matches. by rewrite orb_true_r.
Qed.

Lemma shared_acceptable account name flags :
  Z.land flags 8 = 0 → acceptable account name (private_to flags system_sid [system_sid; administrators_sid]).
Proof.
  intros Hf. split; [apply private_owned|]. intros _. unfold acting_of. cbn [dacl private_to].
  rewrite acting_grants by done. eexists. split; [reflexivity|].
  unfold allows_of_system. cbn [fmap list_fmap allows_of entry_sid mc_service migration_custody_system me_custody].
  unfold principal_is. rewrite system_matches. destruct (matches System (Some administrators_sid)); [done|].
  rewrite administrators_matches. done.
Qed.

(** The configuration's custody is custody of a data directory. *)
Lemma configuration_data now p d :
  descriptor_ok configuration d →
  descriptor_ok (data_directories_policy {| me_paths := p; me_custody := migration_custody_system; me_now := now |}) d.
Proof.
  intros ((q & Hq & Ho) & _ & aces & Ha & Hf). split_and!; [|done|].
  - exists q. split; [|done]. apply list_elem_of_singleton in Hq as ->. by left.
  - eauto.
Qed.

(** Security set again by one of the texts. *)
Lemma secured_private flags l o :
  secured (private_to flags system_sid l) o = with_descriptor o (private_to flags system_sid l).
Proof. done. Qed.

Lemma from_sddl_ok text d : from_sddl_text text = Ok d → from_sddl text = Ok d.
Proof. unfold from_sddl. by intros ->. Qed.

End Descriptors.

(** ** Subtrees *)

(** The objects at and below [d], by their path from there. *)
Definition sub (d : Path) (s : Store) : Path → option Object := λ k, s !! (d ++ k).

(** The same objects, the directory perhaps under another name. *)
Definition like (t t' : Path → option Object) : Prop :=
  (∀ k, k ≠ [] → t' k = t k) ∧
  (t' [] = t [] ∨ ∃ o n, t [] = Some o ∧ t' [] = Some (respelled o n)).

Lemma like_refl t : like t t.
Proof. split; [done|by left]. Qed.

Lemma like_same t t' : (∀ k, t' k = t k) → like t t'.
Proof. intros H. split; [done|by left]. Qed.

Lemma sub_insert_other d k o s r : below d k = false → sub d (<[k := o]> s) r = sub d s r.
Proof. intros H. unfold sub. rewrite lookup_insert_ne; [done|]. intros ->. by rewrite below_app in H. Qed.

Lemma sub_delete_other d k s r : below d k = false → sub d (delete k s) r = sub d s r.
Proof. intros H. unfold sub. rewrite lookup_delete_ne; [done|]. intros ->. by rewrite below_app in H. Qed.

Lemma unoccupied_sub d s : unoccupied d s ↔ ∀ k, sub d s k = None.
Proof. done. Qed.

(** A sibling's subtree. *)
Lemma sibling_self root (a b : string) : a ≠ b → below (root ++ [a]) (root ++ [b]) = false.
Proof. intros H. rewrite <- (app_nil_r (root ++ [b])). by apply below_sibling. Qed.

Lemma above_child root (a : string) : below (root ++ [a]) root = false.
Proof.
  destruct (below _ _) eqn:E; [|done]. apply below_spec in E as [r E]. rewrite <- app_assoc in E.
  rewrite <- (app_nil_r root) in E at 1. by apply app_inv_head in E.
Qed.

(** *** A directory renamed under the same parent *)

Section Renamed.
Context (root : Path) (a b : string) (to : string) (o : Object) (s : Store).
Context (Hab : a ≠ b) (Hto : path_key to = root ++ [b]).
Context (Ho : s !! (root ++ [a]) = Some o) (Hu : unoccupied (root ++ [b]) s).
#[local] Notation s' := (renamed (root ++ [a]) o to s).

Lemma renamed_sub_to : like (sub (root ++ [a]) s) (sub (root ++ [b]) s').
Proof.
  unfold renamed. split.
  - intros k Hk. unfold sub. rewrite Hto, lookup_insert_ne.
    + by apply move_tree_to.
    + intros E. apply Hk. rewrite <- (app_nil_r (root ++ [b])) in E at 1. by apply app_inv_head in E.
  - right. exists o, (file_name to). unfold sub. rewrite !app_nil_r, Hto, lookup_insert_eq. done.
Qed.

Lemma renamed_named : s' !! (root ++ [b]) = Some (respelled o (file_name to)).
Proof. unfold renamed. rewrite Hto. apply lookup_insert_eq. Qed.

Lemma renamed_sub_from : unoccupied (root ++ [a]) s'.
Proof.
  intros r. unfold renamed. rewrite Hto, lookup_insert_ne.
  - rewrite move_tree_other; [by rewrite below_app|done|by apply below_sibling].
  - intros E. pose proof (below_sibling root b a r ltac:(congruence)) as H. rewrite <- E, below_self in H. done.
Qed.

Lemma renamed_sub_third n k : n ≠ a → n ≠ b → sub (root ++ [n]) s' k = sub (root ++ [n]) s k.
Proof.
  intros Ha Hb. unfold sub. apply renamed_other; rewrite ?Hto; [done| |]; apply below_sibling; congruence.
Qed.

Lemma renamed_root : s' !! root = s !! root.
Proof.
  apply renamed_other; rewrite ?Hto; [done| |]; apply above_child.
Qed.

Lemma renamed_elsewhere n k x : s' !! (root ++ n :: k) = Some x → n = b ∨ (n ≠ a ∧ s !! (root ++ n :: k) = Some x).
Proof.
  intros H. destruct (decide (n = b)) as [->|Hb]; [by left|right].
  change (n :: k) with ([n] ++ k) in *. rewrite app_assoc in *. destruct (decide (n = a)) as [->|Ha].
  - by rewrite renamed_sub_from in H.
  - split; [done|]. rewrite <- H. symmetry. by apply renamed_sub_third.
Qed.
End Renamed.

(** ** The console installation and the staging *)

(** One installation: the data root's files by name, the account that enrolled it, and
    what the migration makes of them. *)
Record Installation := {
  files_of : gmap string (FileInfo * bytes);
  account_of : bytes;
  console_config : string;
  anchor_certificates : list bytes;
  console_agent_id : string;
  console_key_fingerprint : string;
  generated : string;
}.

Definition taken (c : Installation) (name : string) : bytes := from_option snd [] (files_of c !! name).

Section Phases.
Context {Sec : Win32Security} {Laws : SddlLaws Sec} {M : MigrationJson}.
Context (pem_encode : list bytes → string).
Context (root : Path) (rq : Request) (inst : Installation).

#[local] Notation D := (root ++ ["agent"]).
#[local] Notation S := (root ++ ["agent.migrating"]).
#[local] Notation L := (root ++ ["agent.legacy"]).

(** The object keeps its name's spelling up to case. *)
Definition named (n : string) (o : Object) : Prop := lowercase (spelled o) = n ∧ plain_name (spelled o) = true.

Definition console_file (n : string) (o : Object) : Prop :=
  files_of inst !! n = Some (info o, contents o) ∧ named n o ∧ acceptable (account_of inst) n (descriptor o).

Definition console_tree (t : Path → option Object) : Prop :=
  (∃ o, t [] = Some o ∧ shape_ok Directory (info o) ∧ case_sensitive o = false ∧ closable (descriptor o)) ∧
  (∀ k o, k ≠ [] → t k = Some o → ∃ n, k = [n] ∧ console_file n o) ∧
  (∀ n, is_Some (files_of inst !! n) → is_Some (t [n])).

Definition closed_at (k : Path) (s : Store) : Prop :=
  ∃ o, s !! k = Some o ∧ in_custody Directory configuration o.

Definition root_ok (s : Store) : Prop :=
  (∃ o, s !! root = Some o ∧ shape_ok Directory (info o) ∧ closable (descriptor o)) ∧
  (∀ n k o, s !! (root ++ n :: k) = Some o → n ∈ ["agent"; "agent.migrating"; "agent.legacy"]) ∧
  (∀ n o, s !! (root ++ [n]) = Some o → named n o).

(** Every object below is in a directory, under its name, and no link; the record and
    its temporary are no directories. *)
Definition tree_wf (t : Path → option Object) : Prop :=
  ∀ k n o, t (k ++ [n]) = Some o →
    named n o ∧ reparse_point (info o) = false ∧
    (∃ p, t k = Some p ∧ is_directory (info p) = true) ∧
    (k = [] → n ∈ ["migration.json"; "migration.json.rewrite-tmp"] → is_directory (info o) = false).

(** A record of this migration. *)
Definition ours (r : MigrationRecord) : Prop :=
  asks_for r rq = true ∧ mr_agent_id r = console_agent_id inst ∧
  mr_key_fingerprint r = console_key_fingerprint inst.

Definition staging_tree (t : Path → option Object) : Prop :=
  (∃ o, t [] = Some o ∧ in_custody Directory configuration o) ∧ tree_wf t ∧
  ∀ o r, t ["migration.json"] = Some o → record_from_slice (contents o) = Some r → ours r.

Definition record_at (r : MigrationRecord) (t : Path → option Object) : Prop :=
  ∃ o, t ["migration.json"] = Some o ∧ in_custody File configuration o ∧ record_from_slice (contents o) = Some r.

(** A file with these bytes in custody. *)
Definition file_with (policy : Policy) (b : bytes) (o : Object) : Prop := in_custody File policy o ∧ contents o = b.

(** What the staging holds, in the order it is made. *)
Definition staged_spec (r : MigrationRecord) : list (Path * (Object → Prop)) :=
  [([], in_custody Directory configuration);
   (["migration.json"], λ o, in_custody File configuration o ∧ record_from_slice (contents o) = Some r);
   (["agent.toml"], file_with configuration (bytes_of_text (generated inst)));
   (["server-ca.pem"], file_with configuration (bytes_of_text (anchor_pem pem_encode (anchor_certificates inst))));
   (["identity"], in_custody Directory system_only);
   (["identity"; "cert.pem"], file_with system_only (taken inst CERT));
   (["identity"; "key.dat"], file_with system_only (taken inst KEY));
   (["identity"; "identity.json"], file_with system_only (taken inst IDENTITY))].

(** Exactly the objects [l] asks for, but for the temporary a rewrite of the record may
    leave. *)
Definition holds (l : list (Path * (Object → Prop))) (t : Path → option Object) : Prop :=
  (∀ k Φ, (k, Φ) ∈ l → ∃ o, t k = Some o ∧ Φ o) ∧
  (∀ k, is_Some (t k) → k = ["migration.json.rewrite-tmp"] ∨ k ∈ l.*1).

Definition whole (r : MigrationRecord) (t : Path → option Object) : Prop := holds (staged_spec r) t.

(** *** The phases *)

Definition ready (s : Store) : Prop :=
  root_ok s ∧ console_tree (sub D s) ∧ unoccupied L s ∧ (unoccupied S s ∨ staging_tree (sub S s)).

Definition between (pending : bool) (s : Store) : Prop :=
  root_ok s ∧ closed_at root s ∧ unoccupied D s ∧ console_tree (sub L s) ∧ closed_at L s ∧
  staging_tree (sub S s) ∧
  ∃ r, ours r ∧ mr_reversal_pending r = pending ∧ record_at r (sub S s) ∧ (pending = false → whole r (sub S s)).

Definition migrated (s : Store) : Prop :=
  root_ok s ∧ closed_at root s ∧ unoccupied S s ∧ console_tree (sub L s) ∧ closed_at L s ∧
  ∃ r, ours r ∧ whole r (sub D s).

Definition phase (s : Store) : Prop := ready s ∨ (∃ b, between b s) ∨ migrated s.

(** *** Carried along *)

Lemma console_like t t' : like t t' → console_tree t → console_tree t'.
Proof.
  intros [H1 H2] ((o & Ho & Hs & Hc & Hd) & Hf & Hr). split_and!.
  - destruct H2 as [->|(o' & n & Ho' & ->)]; [eauto 6|]. rewrite Ho in Ho'. injection Ho' as <-. eauto 6.
  - intros k x Hk Hx. rewrite H1 in Hx by done. eauto.
  - intros n Hn. rewrite H1 by done. auto.
Qed.

Lemma closed_like d d' s s' :
  like (sub d s) (sub d' s') → closed_at d s → closed_at d' s'.
Proof.
  intros [_ H] (o & Ho & Hc). unfold sub in H. rewrite !app_nil_r in H.
  destruct H as [H|(o' & n & Ho' & H)]; [exists o; by rewrite H|].
  rewrite Ho in Ho'. injection Ho' as <-. by exists (respelled o n).
Qed.

Lemma holds_like l t t' :
  (∀ k Φ o n, (k, Φ) ∈ l → Φ o → Φ (respelled o n)) → like t t' → holds l t → holds l t'.
Proof.
  intros Hr [H1 H2] [Ha Hb]. split.
  - intros k Φ Hin. destruct (Ha k Φ Hin) as (o & Ho & HΦ). destruct (decide (k = [])) as [->|Hk].
    + destruct H2 as [->|(o' & n & Ho' & ->)]; [by exists o|]. rewrite Ho in Ho'. injection Ho' as <-.
      exists (respelled o n). split; [done|]. by eapply Hr.
    + rewrite H1 by done. by exists o.
  - intros k Hk. destruct (decide (k = [])) as [->|Hne]; [|apply Hb; by rewrite <- H1].
    apply Hb. destruct H2 as [<-|(o' & n & -> & _)]; [done|by eexists].
Qed.

Lemma whole_like r t t' : like t t' → whole r t → whole r t'.
Proof.
  apply holds_like. intros k Φ o n Hin. unfold staged_spec in Hin.
  repeat (apply elem_of_cons in Hin as [[= -> ->]|Hin]; [done|]). by apply not_elem_of_nil in Hin.
Qed.

Lemma staging_same t t' : (∀ k, t' k = t k) → staging_tree t → staging_tree t'.
Proof.
  intros H ((o & Ho & Hc) & Hw & Hr). split_and!.
  - rewrite H. eauto.
  - intros k n x. rewrite !H. intros Hx. destruct (Hw k n x Hx) as (? & ? & (p & Hp & ?) & ?).
    split_and!; try done. by exists p.
  - intros x r. rewrite H. apply Hr.
Qed.

Lemma record_same r t t' : (∀ k, t' k = t k) → record_at r t → record_at r t'.
Proof. intros H (o & Ho & Hx). exists o. by rewrite H. Qed.

(** *** Security changed *)

#[local] Notation closing := (private_to 3 system_sid [system_sid; administrators_sid]).
#[local] Notation sharing := (private_to 0 system_sid [system_sid; administrators_sid]).

Lemma root_child_ne n k : root ++ n :: k ≠ root.
Proof. intros E. rewrite <- (app_nil_r root) in E at 2. by apply app_inv_head in E. Qed.

Lemma root_ok_secured s k o d :
  root_ok s → s !! k = Some o → (k = root → closable d) → root_ok (<[k := with_descriptor o d]> s).
Proof.
  intros ((op & Hp & Hs & Hc) & Hn & Hm) Ho Hd. split_and!.
  - destruct (decide (k = root)) as [->|Hne].
    + rewrite Ho in Hp. injection Hp as ->. eexists. rewrite lookup_insert_eq. split; [reflexivity|]. by split; [|apply Hd].
    + exists op. by rewrite lookup_insert_ne.
  - intros n r x Hx. destruct (decide (k = root ++ n :: r)) as [->|Hne]; [by eapply Hn|].
    rewrite lookup_insert_ne in Hx by done. by eapply Hn.
  - intros n x Hx. destruct (decide (k = root ++ [n])) as [->|Hne].
    + rewrite lookup_insert_eq in Hx. injection Hx as <-. by apply (Hm n) in Ho.
    + rewrite lookup_insert_ne in Hx by done. by apply Hm.
Qed.

Lemma sub_secured_root d s o x r : sub (root ++ [d]) (<[root := with_descriptor o x]> s) r = sub (root ++ [d]) s r.
Proof. apply sub_insert_other, above_child. Qed.

Lemma closed_secured k s o :
  s !! k = Some o → shape_ok Directory (info o) → closed_at k (<[k := with_descriptor o closing]> s).
Proof.
  intros Ho Hs. eexists. rewrite lookup_insert_eq. split; [reflexivity|]. split; [done|]. apply shared_configuration.
Qed.

Lemma closed_other k j x s : j ≠ k → closed_at k s → closed_at k (<[j := x]> s).
Proof. intros Hne (o & Ho & Hc). exists o. by rewrite lookup_insert_ne. Qed.

Lemma closed_same k s s' : s' !! k = s !! k → closed_at k s → closed_at k s'.
Proof. intros H (o & Ho & Hc). exists o. by rewrite H. Qed.

(** The product's directory closed, whatever the phase. *)
Lemma close_root_phases s o :
  s !! root = Some o → shape_ok Directory (info o) →
  let s' := <[root := with_descriptor o closing]> s in
  closed_at root s' ∧ (ready s → ready s') ∧ (∀ b, between b s → between b s') ∧ (migrated s → migrated s').
Proof.
  intros Ho Hs s'.
  assert (∀ d r, sub (root ++ [d]) s' r = sub (root ++ [d]) s r) as Hsub by (intros; apply sub_secured_root).
  assert (root_ok s → root_ok s') as Hroot.
  { intros H. apply root_ok_secured; [done|done|]. intros _. by apply shared_closable. }
  assert (∀ d, unoccupied (root ++ [d]) s → unoccupied (root ++ [d]) s') as Hun.
  { intros d H r. specialize (Hsub d r). unfold sub in Hsub. by rewrite Hsub. }
  assert (∀ d, closed_at (root ++ [d]) s → closed_at (root ++ [d]) s') as Hcl.
  { intros d. apply closed_other. symmetry. apply root_child_ne. }
  split_and!; [by apply closed_secured| | |].
  - intros (H1 & H2 & H3 & H4).
    split_and!; [auto|apply (console_like (sub D s)); [by apply like_same|done]|auto|].
    destruct H4 as [H4|H4]; [left; auto|right]. apply (staging_same (sub S s)); auto.
  - intros b (H1 & H2 & H3 & H4 & H5 & H6 & r & R1 & R2 & R3 & R4).
    split_and!; [auto|by apply closed_secured|auto| |auto| |].
    + apply (console_like (sub L s)); [by apply like_same|done].
    + apply (staging_same (sub S s)); auto.
    + exists r. split_and!; [done|done| |].
      * apply (record_same r (sub S s)); auto.
      * intros Hb. apply (whole_like r (sub S s)); [by apply like_same|auto].
  - intros (H1 & H2 & H3 & H4 & H5 & r & R1 & R2). split_and!; [auto|by apply closed_secured|auto| |auto|].
    + apply (console_like (sub L s)); [by apply like_same|done].
    + exists r. split; [done|]. apply (whole_like r (sub D s)); [by apply like_same|done].
Qed.

Lemma phase_close_root s o :
  phase s → s !! root = Some o → shape_ok Directory (info o) → phase (<[root := with_descriptor o closing]> s).
Proof.
  intros Hp Ho Hs. destruct (close_root_phases s o Ho Hs) as (_ & H1 & H2 & H3).
  destruct Hp as [?|[[b ?]|?]]; [left|right; left; exists b|right; right]; auto.
Qed.

(** An object of the data root's secured: the rest is as it was. *)
Lemma ready_secured s k o d :
  ready s → s !! (D ++ k) = Some o →
  (k = [] → closable d) → (∀ n, k = [n] → acceptable (account_of inst) n d) →
  ready (<[D ++ k := with_descriptor o d]> s).
Proof.
  intros (H1 & ((od & Hod & Hs & Hc & Hd) & Hf & Hr) & H3 & H4) Ho Hd1 Hd2. set (s' := <[D ++ k := _]> s).
  assert (∀ n r, n ≠ "agent" → sub (root ++ [n]) s' r = sub (root ++ [n]) s r) as Hsub.
  { intros n r Hn. apply sub_insert_other, below_sibling. congruence. }
  assert (∀ r, sub D s' r = if decide (r = k) then Some (with_descriptor o d) else sub D s r) as HD.
  { intros r. unfold sub, s'. case_decide as E; [subst r; apply lookup_insert_eq|].
    apply lookup_insert_ne. intros E'. by apply app_inv_head in E'. }
  split_and!.
  - apply root_ok_secured; [done|done|]. intros E. rewrite <- app_assoc in E. cbn in E. by apply root_child_ne in E.
  - split_and!.
    + rewrite HD. case_decide as E; [|eauto 6]. subst k. unfold sub in Hod. rewrite Ho in Hod. injection Hod as ->.
      eexists. split; [reflexivity|]. by split_and!; [| |apply Hd1].
    + intros r x Hne. rewrite HD. case_decide as E; [|by apply Hf]. subst r. intros [= <-].
      destruct (Hf k o Hne Ho) as (n & -> & F1 & F2 & F3). exists n. split; [done|]. by split_and!; [| |apply Hd2].
    + intros n Hn. rewrite HD. by case_decide; [|apply Hr].
  - intros r. specialize (Hsub "agent.legacy" r ltac:(done)). unfold sub in Hsub. by rewrite Hsub.
  - destruct H4 as [H4|H4]; [left|right].
    + intros r. specialize (Hsub "agent.migrating" r ltac:(done)). unfold sub in Hsub. by rewrite Hsub.
    + eapply staging_same; [|exact H4]. intros r. by apply Hsub.
Qed.

(** The new data root closed again. *)
Lemma migrated_secured s o :
  migrated s → s !! D = Some o → migrated (<[D := with_descriptor o closing]> s).
Proof.
  intros (H1 & H2 & H3 & H4 & H5 & r & R1 & R2) Ho. set (s' := <[D := _]> s).
  assert (∀ n k, n ≠ "agent" → sub (root ++ [n]) s' k = sub (root ++ [n]) s k) as Hsub.
  { intros n k Hn. apply sub_insert_other. apply sibling_self. congruence. }
  assert (∀ k, sub D s' k = if decide (k = []) then Some (with_descriptor o closing) else sub D s k) as HD.
  { intros k. unfold sub, s'. case_decide as E; [subst k; rewrite app_nil_r; apply lookup_insert_eq|].
    apply lookup_insert_ne. intros E'. rewrite <- (app_nil_r D) in E' at 1. by apply app_inv_head in E'. }
  assert (sub D s [] = Some o) as Hs by (unfold sub; by rewrite app_nil_r).
  split_and!.
  - apply root_ok_secured; [done|done|]. intros E. by apply root_child_ne in E.
  - apply closed_other; [|done]. apply root_child_ne.
  - intros k. specialize (Hsub "agent.migrating" k ltac:(done)). unfold sub in Hsub. by rewrite Hsub.
  - eapply console_like; [|exact H4]. apply like_same. intros k. by apply Hsub.
  - apply closed_other; [|done]. intros E. by apply app_inv_head in E.
  - exists r. split; [done|]. destruct R2 as [Ha Hb]. split.
    + intros k Φ Hin. rewrite HD. destruct (Ha k Φ Hin) as (x & Hx & HΦ). case_decide as E; [|eauto]. subst k.
      rewrite Hs in Hx. injection Hx as <-. eexists. split; [reflexivity|].
      apply elem_of_cons in Hin as [[= ->]|Hin].
      * destruct HΦ as [? _]. split; [done|apply shared_configuration].
      * repeat (apply elem_of_cons in Hin as [[=]|Hin]). by apply not_elem_of_nil in Hin.
    + intros k. rewrite HD. case_decide as E; [subst k; intros _; right; by left|apply Hb].
Qed.

(** *** The staging changed *)

(** Nothing outside the staging changes. *)
Definition staging_only (s s' : Store) : Prop := ∀ k, below S k = false → s' !! k = s !! k.

Lemma staging_only_refl s : staging_only s s.
Proof. done. Qed.

Lemma staging_only_trans s1 s2 s3 : staging_only s1 s2 → staging_only s2 s3 → staging_only s1 s3.
Proof. intros H1 H2 k Hk. by rewrite H2, H1. Qed.

Lemma staging_only_insert s k o : staging_only s (<[S ++ k := o]> s).
Proof. intros j Hj. rewrite lookup_insert_ne; [done|]. intros <-. by rewrite below_app in Hj. Qed.

Lemma staging_only_delete s k : staging_only s (delete (S ++ k) s).
Proof. intros j Hj. rewrite lookup_delete_ne; [done|]. intros <-. by rewrite below_app in Hj. Qed.

Lemma staging_only_sub s s' n k : staging_only s s' → n ≠ "agent.migrating" → sub (root ++ [n]) s' k = sub (root ++ [n]) s k.
Proof. intros H Hn. apply H. by apply below_sibling. Qed.

Lemma staging_only_root s s' : staging_only s s' → s' !! root = s !! root.
Proof. intros H. apply H, above_child. Qed.

Lemma staging_only_closed s s' : staging_only s s' → closed_at root s → closed_at root s'.
Proof. intros H. by apply closed_same, staging_only_root. Qed.

Lemma staging_only_closed_sub s s' n :
  staging_only s s' → n ≠ "agent.migrating" → closed_at (root ++ [n]) s → closed_at (root ++ [n]) s'.
Proof. intros H Hn. apply closed_same, H. apply sibling_self. congruence. Qed.

Lemma staging_only_root_ok s s' :
  staging_only s s' → (∀ o, s' !! S = Some o → named "agent.migrating" o) → root_ok s → root_ok s'.
Proof.
  intros H Hs ((op & Hp & Hd) & Hn & Hm). split_and!.
  - exists op. by rewrite (staging_only_root s).
  - intros n k o Ho. destruct (decide (n = "agent.migrating")) as [->|Hne]; [by right; left|].
    eapply (Hn n k). rewrite <- Ho. symmetry. change (n :: k) with ([n] ++ k). rewrite app_assoc.
    by apply (staging_only_sub s s' n k).
  - intros n o Ho. destruct (decide (n = "agent.migrating")) as [->|Hne]; [by apply Hs|].
    apply Hm. rewrite <- Ho. symmetry. apply H. apply sibling_self. congruence.
Qed.

Lemma ready_staging s s' :
  ready s → staging_only s s' → (∀ o, s' !! S = Some o → named "agent.migrating" o) →
  unoccupied S s' ∨ staging_tree (sub S s') → ready s'.
Proof.
  intros (H1 & H2 & H3 & _) H Hn HS. split_and!; [by eapply staging_only_root_ok| | |done].
  - apply (console_like (sub D s)); [|done]. apply like_same. intros k. by apply staging_only_sub.
  - intros k. pose proof (staging_only_sub s s' "agent.legacy" k H ltac:(done)) as E. unfold sub in E. by rewrite E.
Qed.

(** The directory itself as it was. *)
Lemma ready_staging_kept s s' :
  ready s → staging_only s s' → s' !! S = s !! S → staging_tree (sub S s') → ready s'.
Proof.
  intros Hr H HS Ht. eapply ready_staging; [done|done| |by right]. intros o. rewrite HS.
  destruct Hr as ((_ & _ & Hm) & _). apply Hm.
Qed.

Lemma between_staging b b' s s' r :
  between b s → staging_only s s' → s' !! S = s !! S → staging_tree (sub S s') →
  ours r → mr_reversal_pending r = b' → record_at r (sub S s') → (b' = false → whole r (sub S s')) →
  between b' s'.
Proof.
  intros (H1 & H2 & H3 & H4 & H5 & _) H HS Ht Hr Hb Hrec Hw. split_and!.
  - eapply staging_only_root_ok; [done| |done]. intros o. rewrite HS. destruct H1 as (_ & _ & Hm). apply Hm.
  - by eapply staging_only_closed.
  - intros k. pose proof (staging_only_sub s s' "agent" k H ltac:(done)) as E. unfold sub in E. by rewrite E.
  - apply (console_like (sub L s)); [|done]. apply like_same. intros k. by apply staging_only_sub.
  - by eapply staging_only_closed_sub.
  - done.
  - by exists r.
Qed.

(** *** Trees changed *)

Lemma sub_insert d k o s r : sub d (<[d ++ k := o]> s) r = if decide (r = k) then Some o else sub d s r.
Proof.
  unfold sub. case_decide as E; [subst r; apply lookup_insert_eq|]. apply lookup_insert_ne.
  intros E'. by apply app_inv_head in E'.
Qed.

Lemma sub_delete d k s r : sub d (delete (d ++ k) s) r = if decide (r = k) then None else sub d s r.
Proof.
  unfold sub. case_decide as E; [subst r; apply lookup_delete_eq|]. apply lookup_delete_ne.
  intros E'. by apply app_inv_head in E'.
Qed.

Lemma snoc_ne (k : Path) n : k ++ [n] ≠ k.
Proof. intros E. rewrite <- (app_nil_r k) in E at 2. by apply app_inv_head in E. Qed.

(** A file or an empty directory added. *)
Lemma staging_insert t t' k n o :
  staging_tree t → (∀ r, t' r = if decide (r = k ++ [n]) then Some o else t r) →
  (∃ p, t k = Some p ∧ is_directory (info p) = true) → named n o → reparse_point (info o) = false →
  (∀ p, t (k ++ [n]) = Some p → is_directory (info p) = false) →
  (k = [] → n ∈ ["migration.json"; "migration.json.rewrite-tmp"] → is_directory (info o) = false) →
  (k ++ [n] = ["migration.json"] → ∀ r, record_from_slice (contents o) = Some r → ours r) →
  staging_tree t'.
Proof.
  intros ((os & Hos & Hc) & Hw & Hr) Ht' Hp Hn Hl Hleaf Hdir Hrec. split_and!.
  - exists os. rewrite Ht', decide_False; [done|]. by destruct k.
  - intros j m x. rewrite Ht'. intros Hx.
    assert (∀ p, t j = Some p → is_directory (info p) = true → ∃ p, t' j = Some p ∧ is_directory (info p) = true) as Hpar.
    { intros p Hj Hd. rewrite Ht'. destruct (decide (j = k ++ [n])) as [->|]; [|eauto]. rewrite (Hleaf p Hj) in Hd. done. }
    case_decide as E.
    + injection Hx as <-. apply app_inj_tail in E as [-> ->]. destruct Hp as (p & Hp & Hd).
      split_and!; [done|done|by eapply Hpar|done].
    + destruct (Hw j m x Hx) as (W1 & W2 & (p & Wp & Wd) & W4). split_and!; try done. by eapply Hpar.
  - intros x r. rewrite Ht'. case_decide as E; [|apply Hr]. intros [= <-]. by apply Hrec.
Qed.

(** Objects deleted, each with what was below it. *)
Lemma staging_deleted t t' :
  staging_tree t → t' [] = t [] → (∀ k, t' k = t k ∨ t' k = None) →
  (∀ k n, is_Some (t' (k ++ [n])) → t' k = t k) → staging_tree t'.
Proof.
  intros ((os & Hos & Hc) & Hw & Hr) H0 Hd Hp. split_and!.
  - rewrite H0. eauto.
  - intros k n o Ho. assert (t (k ++ [n]) = Some o) as Ho' by (destruct (Hd (k ++ [n])); congruence).
    destruct (Hw k n o Ho') as (W1 & W2 & (p & Wp & Wd) & W4). split_and!; try done.
    exists p. by rewrite (Hp k n).
  - intros o r Ho. apply (Hr o r). destruct (Hd ["migration.json"]); congruence.
Qed.

(** Nothing is below a file. *)
Lemma staging_leaf t k o r :
  tree_wf t → t k = Some o → is_directory (info o) = false → r ≠ [] → t (k ++ r) = None.
Proof.
  intros Hw Hk Hd. induction r as [|n r IH] using rev_ind; [done|]. intros _.
  destruct (t (k ++ r ++ [n])) as [x|] eqn:Ex; [|done]. rewrite app_assoc in Ex.
  destruct (Hw _ _ _ Ex) as (_ & _ & (p & Hp & Hpd) & _). destruct (decide (r = [])) as [->|Hr].
  - rewrite app_nil_r, Hk in Hp. injection Hp as <-. congruence.
  - rewrite IH in Hp by done. done.
Qed.

(** *** The renames *)

Lemma root_ok_renamed a b to o s :
  a ≠ b → path_key to = root ++ [b] → b ∈ ["agent"; "agent.migrating"; "agent.legacy"] →
  lowercase (file_name to) = b → plain_name (file_name to) = true →
  s !! (root ++ [a]) = Some o → unoccupied (root ++ [b]) s →
  root_ok s → root_ok (renamed (root ++ [a]) o to s).
Proof.
  intros Hab Hto Hb Hl Hpl Ho Hu ((op & Hp & Hd) & Hn & Hm). split_and!.
  - exists op. by rewrite (renamed_root root a b).
  - intros n k x Hx. apply (renamed_elsewhere root a b) in Hx as [->|[_ Hx]]; [done|by eapply Hn|done..].
  - intros n x Hx. destruct (decide (n = b)) as [->|Hne].
    + rewrite (renamed_named root a b to o s Hto) in Hx. by injection Hx as <-.
    + apply (renamed_elsewhere root a b) in Hx as [->|[_ Hx]]; [done|by apply Hm|done..].
Qed.

Context (p : InstalledPaths) (Hplaced : placed p root).

Lemma to_legacy : path_key (legacy p) = L ∧ lowercase (file_name (legacy p)) = "agent.legacy" ∧
  plain_name (file_name (legacy p)) = true.
Proof. destruct (placed_names _ _ Hplaced) as (_ & _ & ->). by rewrite (placed_legacy _ _ Hplaced). Qed.

Lemma to_data : path_key (data_root p) = D ∧ lowercase (file_name (data_root p)) = "agent" ∧
  plain_name (file_name (data_root p)) = true.
Proof. destruct (placed_names _ _ Hplaced) as (-> & _ & _). by rewrite (placed_data _ _ Hplaced). Qed.

Lemma sub_root_at n s : sub (root ++ [n]) s [] = s !! (root ++ [n]).
Proof. unfold sub. by rewrite app_nil_r. Qed.

Lemma whole_record r t : whole r t → record_at r t.
Proof. intros [H _]. destruct (H ["migration.json"] _ ltac:(by right; left)) as (o & Ho & Hc & Hr). by exists o. Qed.

Lemma ready_first r s o :
  ready s → closed_at root s → closed_at D s → ours r → mr_reversal_pending r = false → whole r (sub S s) →
  s !! D = Some o → between false (renamed D o (legacy p) s).
Proof.
  intros (H1 & H2 & H3 & H4) Hc1 Hc2 Hr Hp Hw Ho. destruct to_legacy as (Hk & Hl & Hpl).
  pose proof (renamed_sub_to root _ _ _ o s Hk Ho H3) as Hlike.
  assert (∀ k, sub S (renamed D o (legacy p) s) k = sub S s k) as HS by (intros k; by apply (renamed_sub_third root _ _ _ o s Hk H3)).
  split_and!.
  - apply (root_ok_renamed _ "agent.legacy"); try done. by right; right; left.
  - eapply closed_same; [|exact Hc1]. by apply (renamed_root root _ "agent.legacy").
  - by apply (renamed_sub_from root _ "agent.legacy").
  - by eapply console_like.
  - by eapply closed_like.
  - apply (staging_same (sub S s)); [done|]. destruct H4 as [H4|H4]; [|done].
    destruct Hw as [Hw _]. destruct (Hw [] _ ltac:(by left)) as (x & Hx & _). by rewrite (unoccupied_sub S s) in H4; rewrite H4 in Hx.
  - exists r. split_and!; [done|done|by apply (record_same r (sub S s)), whole_record|].
    intros _. apply (whole_like r (sub S s)); [by apply like_same|done].
Qed.

Lemma between_second s o :
  between false s → s !! S = Some o → migrated (renamed S o (data_root p) s).
Proof.
  intros (H1 & H2 & H3 & H4 & H5 & H6 & r & Hr & _ & _ & Hw) Ho. destruct to_data as (Hk & Hl & Hpl).
  pose proof (renamed_sub_to root _ _ _ o s Hk Ho H3) as Hlike.
  assert (∀ k, sub L (renamed S o (data_root p) s) k = sub L s k) as HL
    by (intros k; by apply (renamed_sub_third root _ _ _ o s Hk H3)).
  split_and!.
  - apply (root_ok_renamed _ "agent"); try done. by left.
  - eapply closed_same; [|exact H2]. by apply (renamed_root root _ "agent").
  - by apply (renamed_sub_from root _ "agent").
  - apply (console_like (sub L s)); [by apply like_same|done].
  - eapply closed_like; [|exact H5]. by apply like_same.
  - exists r. split; [done|]. eapply whole_like; [exact Hlike|by apply Hw].
Qed.

Lemma between_back b s o :
  between b s → s !! L = Some o → ready (renamed L o (data_root p) s).
Proof.
  intros (H1 & H2 & H3 & H4 & H5 & H6 & _) Ho. destruct to_data as (Hk & Hl & Hpl).
  pose proof (renamed_sub_to root _ _ _ o s Hk Ho H3) as Hlike.
  split_and!.
  - apply (root_ok_renamed _ "agent"); try done. by left.
  - by eapply console_like.
  - by apply (renamed_sub_from root _ "agent").
  - right. apply (staging_same (sub S s)); [|done].
    intros k. by apply (renamed_sub_third root _ _ _ o s Hk H3).
Qed.

(** *** A directory tree deleted in part *)

Lemma descendants_take n d (s : Store) i j :
  j ∈ take n (descendants d s) → i ∈ descendants d s → (length j < length i)%nat → i ∈ take n (descendants d s).
Proof.
  intros Hj Hi Hlt. rewrite <- (take_drop n (descendants d s)) in Hi. apply elem_of_app in Hi as [Hi|Hi]; [done|].
  assert (StronglySorted deeper (descendants d s)) as Hs.
  { apply StronglySorted_merge_sort; unfold deeper.
    - intros x y z. lia.
    - intros x y. lia. }
  rewrite <- (take_drop n (descendants d s)) in Hs.
  pose proof (StronglySorted_app_1_elem_of _ _ _ _ _ Hs Hj Hi) as H. unfold deeper in H. lia.
Qed.

Lemma elem_of_descendants_2 d (s : Store) k o : s !! k = Some o → below d k = true → k ≠ d → k ∈ descendants d s.
Proof.
  intros Ho Hb Hne. unfold descendants. rewrite merge_sort_Permutation. apply list_elem_of_filter. split; [done|].
  apply list_elem_of_fmap. exists (k, o). split; [done|]. by apply elem_of_map_to_list.
Qed.

(** Some of a tree of the staging, the deepest first. *)
Lemma staging_cut n k0 s :
  staging_tree (sub S s) → staging_tree (sub S (delete_all (take n (descendants (S ++ k0) s)) s)).
Proof.
  intros Ht. set (ks := take n _). set (s' := delete_all ks s).
  assert (∀ k, sub S s' k = if decide (S ++ k ∈ ks) then None else sub S s k) as Hs' by (intros; apply delete_all_lookup).
  assert (∀ k, k ∈ ks → below (S ++ k0) k = true ∧ k ≠ S ++ k0) as Hks.
  { intros k Hk. apply elem_of_take in Hk as (i & Hi & _). by apply list_elem_of_lookup_2, elem_of_descendants in Hi. }
  apply (staging_deleted (sub S s)); [done| | |].
  - rewrite Hs', decide_False; [done|]. intros Hin. destruct (Hks _ Hin) as [Hb Hne].
    rewrite app_nil_r in *. apply below_spec in Hb as [r Hb]. rewrite <- app_assoc in Hb.
    rewrite <- (app_nil_r S) in Hb at 1. apply app_inv_head in Hb. symmetry in Hb. apply app_eq_nil in Hb as [-> ->].
    by rewrite app_nil_r in Hne.
  - intros k. rewrite Hs'. case_decide; auto.
  - intros k m [x Hx]. rewrite Hs' in Hx. case_decide as Hout; [done|]. rewrite Hs', decide_False; [done|].
    intros Hin. apply Hout. destruct (Hks _ Hin) as [Hb _]. apply below_spec in Hb as [r Hb].
    apply (descendants_take n (S ++ k0) s _ (S ++ k)); [done| |].
    + eapply elem_of_descendants_2; [exact Hx| |].
      * apply below_spec. exists (r ++ [m]). by rewrite (app_assoc S k), Hb, <- app_assoc.
      * intros E. rewrite app_assoc, Hb, <- app_assoc in E. rewrite <- (app_nil_r (S ++ k0)) in E at 2.
        apply app_inv_head in E. by destruct r.
    + rewrite !length_app. cbn. lia.
Qed.

(** A tree of the staging, whole. *)
Lemma staging_removed k0 s :
  k0 ≠ [] → staging_tree (sub S s) → staging_tree (sub S (remove_tree (S ++ k0) s)).
Proof.
  intros Hk0 Ht. assert (∀ k, sub S (remove_tree (S ++ k0) s) k = if below k0 k then None else sub S s k) as Hs'.
  { intros k. unfold sub. rewrite remove_tree_lookup. replace (below (S ++ k0) (S ++ k)) with (below k0 k); [done|].
    apply eq_true_iff_eq. rewrite !below_spec. split; intros [r E]; exists r.
    - by rewrite E, app_assoc.
    - rewrite <- (app_assoc S) in E. by apply app_inv_head in E. }
  apply (staging_deleted (sub S s)); [done| | |].
  - rewrite Hs'. by destruct k0.
  - intros k. rewrite Hs'. case_match; auto.
  - intros k m [x Hx]. rewrite Hs' in Hx |- *. destruct (below k0 k) eqn:E; [|done].
    apply below_spec in E as [r ->]. by rewrite <- app_assoc, below_app in Hx.
Qed.

(** A file of the staging. *)
Lemma staging_unlinked k n s o :
  staging_tree (sub S s) → sub S s (k ++ [n]) = Some o → is_directory (info o) = false →
  staging_tree (sub S (delete (S ++ k ++ [n]) s)).
Proof.
  intros Ht Ho Hd. apply (staging_deleted (sub S s)); [done| | |].
  - rewrite sub_delete, decide_False; [done|]. by destruct k.
  - intros j. rewrite sub_delete. case_decide; auto.
  - intros j m [x Hx]. rewrite sub_delete in Hx. case_decide; [done|]. rewrite sub_delete, decide_False; [done|].
    intros ->. destruct Ht as (_ & Hw & _). by rewrite (staging_leaf _ (k ++ [n]) o [m]) in Hx.
Qed.

End Phases.
