(* ===== verification/MigrationStaging.v ===== *)
(** * The route's steps ([service/migration.rs])

    What each step of a migration does to the phases of [MigrationPhases.v], as triples
    of [MigrationLogic.v]: the directories closed, what is there checked and read, each
    file restricted, an interrupted staging given up or a recorded one continued, and
    the staged set made and checked. *)

From stdpp Require Import sorting.
From S2P Require Import Prelude FileTree IpAddr Types Errors Network Config Signing Tls TlsConfig X509.
From S2P Require Import Transport Enrollment Identity Custody CustodyTree Installed Service.
From S2P Require Import MigrationChecks MigrationRun MigrationToy MigrationSafety MigrationLogic MigrationPhases.
Open Scope Z_scope.

(** ** What is known along the route *)

Section Assertions.
Context {W : WireCrypto} {K : KeyBytes W} {St : SecureStore} {J : IdentityJson} {M : MigrationJson}.
Context {Sec : Win32Security} {Laws : SddlLaws Sec} {MLaws : MigrationJsonLaws J M}.
Context (toml_value : string → Result Toml TomlError) (toml_config : string → Result AgentConfig TomlError).
Context (toml_to_string : Toml → Result string string).
Context (pem_certificates : bytes → list (Result bytes PemError)).
Context (pem_encode : list bytes → string) (parse_rfc3339 : string → option Z).
Context (hostname : Result string string).
Context (program_data : string) (root : Path) (Hplaced : placed (under program_data) root).
Context (rq : Request) (inst : Installation).

#[local] Notation paths := (under program_data).
#[local] Notation env now := {| me_paths := paths; me_custody := migration_custody_system; me_now := now |}.
#[local] Notation D := (root ++ ["agent"]).
#[local] Notation S := (root ++ ["agent.migrating"]).
#[local] Notation L := (root ++ ["agent.legacy"]).
#[local] Notation closing := (private_to 3 system_sid [system_sid; administrators_sid]).
#[local] Notation sharing := (private_to 0 system_sid [system_sid; administrators_sid]).

(** An installation the migration accepts until [deadline]: the product's files, plain
    and small enough; a configuration, an anchor and an identity that pass, the identity
    as UTF-8 text, which the migration's check does not ask for; a generated
    configuration the service loads; an anchor [pem] writes and reads back. *)
Record migratable (deadline : Z) : Prop := {
  mg_required : ∀ n, n ∈ REQUIRED → is_Some (files_of inst !! n);
  mg_known : ∀ n i b, files_of inst !! n = Some (i, b) →
    n ∈ REQUIRED ++ [TEMPORARY] ∧ shape_ok File i ∧ Z.of_nat (length b) ≤ READ_LIMIT;
  mg_config : check_legacy_config toml_value toml_config paths (taken inst CONFIG) = Ok (console_config inst);
  mg_anchor : check_anchor pem_certificates (taken inst ANCHOR) (rq_fingerprints rq) = Ok (anchor_certificates inst);
  mg_identity : check_identity pem_certificates parse_rfc3339 deadline None (taken inst KEY) (taken inst CERT)
                  (taken inst IDENTITY) = Ok (console_agent_id inst, console_key_fingerprint inst);
  mg_identity_text : valid_utf8 (taken inst IDENTITY) = true;
  mg_generated : generated_config toml_value toml_to_string paths hostname (console_config inst) = Ok (generated inst);
  mg_loads : is_utf8 (generated inst) = true ∧
    ∃ config, load_from_str toml_value toml_config (generated inst) = Ok config ∧ installed_config paths config;
  mg_pem : pem_certificates (bytes_of_text (anchor_pem pem_encode (anchor_certificates inst)))
           = Ok <$> anchor_certificates inst;
  mg_account : is_ok (sid_to_string (account_of inst)) = true;
}.

#[local] Notation ready := (ready root rq inst).
#[local] Notation between := (between pem_encode root rq inst).
#[local] Notation migrated := (migrated pem_encode root rq inst).
#[local] Notation phase := (phase pem_encode root rq inst).
#[local] Notation staging_tree := (staging_tree rq inst).
#[local] Notation staged_spec := (staged_spec pem_encode inst).
#[local] Notation whole := (whole pem_encode inst).
#[local] Notation ours := (ours rq inst).

(** The directories closed. *)
Definition shut (s : Store) : Prop := ready s ∧ closed_at root s ∧ closed_at D s.

(** Exactly the installation's files. *)
Definition console_names (names : list string) : Prop :=
  NoDup names ∧ ∀ n, n ∈ names ↔ is_Some (files_of inst !! n).

Definition checked_files (files : list (string * FileId)) : Prop :=
  Forall (λ f, ∃ i b, files_of inst !! f.1 = Some (i, b) ∧ f.2 = file_id i) files.

(** What was checked. *)
Definition checked_ok (x : Checked) : Prop :=
  checked_files (ck_files x) ∧ (∀ n, n ∈ (ck_files x).*1 ↔ is_Some (files_of inst !! n)) ∧
  ∀ sid, ck_enrolling_account x = Some sid → sid = account_of inst.

(** The record that is continued is in the staging. *)
Definition continues (attempt : MigrationRun.Attempt) (s : Store) : Prop :=
  ∀ r, recorded attempt = Some r → record_at r (sub S s).

(** Closed, and without a staging unless one is continued. *)
Definition prepared_for (attempt : MigrationRun.Attempt) (s : Store) : Prop :=
  shut s ∧ (recorded attempt = None → unoccupied S s) ∧ continues attempt s.

(** What the migration takes over. *)
Definition verified : Verified :=
  {| v_config_text := console_config inst; v_certificates := anchor_certificates inst;
     v_certificate := taken inst CERT; v_sealed_key := taken inst KEY; v_identity := taken inst IDENTITY;
     v_agent_id := console_agent_id inst; v_key_fingerprint := console_key_fingerprint inst |}.

(** The staging with its record, the children in [l] or the record. *)
Definition clearing (r : MigrationRecord) (l : list string) (s : Store) : Prop :=
  shut s ∧ staging_tree (sub S s) ∧ record_at r (sub S s) ∧
  ∀ n, is_Some (s !! (S ++ [n])) → n = "migration.json" ∨ n ∈ lowercase <$> l.

Definition staged (l : list (Path * (Object → Prop))) (s : Store) : Prop :=
  shut s ∧ staging_tree (sub S s) ∧ holds l (sub S s).

(** Where the next object goes: under a directory that is there, at a new place, which
    is not the rewrite's temporary. *)
Record place (l : list (Path * (Object → Prop))) (path : string) (k : Path) (n : string) : Prop := {
  place_key : path_key path = S ++ k ++ [n];
  place_name : named n (new_object false (file_name path) closing (0, 0, 0));
  place_parent : ∃ Ψ, (k, Ψ) ∈ l ∧ ∀ o, Ψ o → is_directory (info o) = true;
  place_new : k ++ [n] ∉ l.*1;
  place_other : n ≠ "migration.json.rewrite-tmp";
}.

End Assertions.

Existing Class placed.
Existing Class migratable.
Arguments mg_required {_ _ _ _ _ _ _ _ _ _ _ _ _ _ _ _} _.
Arguments mg_known {_ _ _ _ _ _ _ _ _ _ _ _ _ _ _ _} _.
Arguments mg_config {_ _ _ _ _ _ _ _ _ _ _ _ _ _ _ _} _.
Arguments mg_anchor {_ _ _ _ _ _ _ _ _ _ _ _ _ _ _ _} _.
Arguments mg_identity {_ _ _ _ _ _ _ _ _ _ _ _ _ _ _ _} _.
Arguments mg_identity_text {_ _ _ _ _ _ _ _ _ _ _ _ _ _ _ _} _.
Arguments mg_generated {_ _ _ _ _ _ _ _ _ _ _ _ _ _ _ _} _.
Arguments mg_loads {_ _ _ _ _ _ _ _ _ _ _ _ _ _ _ _} _.
Arguments mg_pem {_ _ _ _ _ _ _ _ _ _ _ _ _ _ _ _} _.
Arguments mg_account {_ _ _ _ _ _ _ _ _ _ _ _ _ _ _ _} _.
Arguments place_key {_ _ _ _ _ _ _} _.
Arguments place_name {_ _ _ _ _ _ _} _.
Arguments place_parent {_ _ _ _ _ _ _} _.
Arguments place_new {_ _ _ _ _ _ _} _.
Arguments place_other {_ _ _ _ _ _ _} _.

(** Where a path is, or is not, in the list of what is staged. *)
Ltac absent :=
  let Hin := fresh in let E := fresh in
  intros Hin; cbn in Hin; repeat (apply elem_of_cons in Hin as [E|Hin]; [discriminate E|]);
  by apply not_elem_of_nil in Hin.

Ltac present := cbn; repeat first [left; reflexivity | right].

Section Steps.
Context {W : WireCrypto} {K : KeyBytes W} {St : SecureStore} {J : IdentityJson} {M : MigrationJson}.
Context {Sec : Win32Security} {Laws : SddlLaws Sec} {MLaws : MigrationJsonLaws J M}.
Context {toml_value : string → Result Toml TomlError} {toml_config : string → Result AgentConfig TomlError}.
Context {toml_to_string : Toml → Result string string}.
Context {pem_certificates : bytes → list (Result bytes PemError)}.
Context {pem_encode : list bytes → string} {parse_rfc3339 : string → option Z}.
Context {hostname : Result string string}.
Context {program_data : string} {root : Path} {Hplaced : placed (under program_data) root}.
Context {rq : Request} {inst : Installation} {deadline : Z}.
Context {Hm : migratable toml_value toml_config toml_to_string pem_certificates pem_encode parse_rfc3339 hostname
                program_data rq inst deadline}.

#[local] Notation paths := (under program_data).
#[local] Notation env now := {| me_paths := paths; me_custody := migration_custody_system; me_now := now |}.
#[local] Notation D := (root ++ ["agent"]).
#[local] Notation S := (root ++ ["agent.migrating"]).
#[local] Notation L := (root ++ ["agent.legacy"]).
#[local] Notation closing := (private_to 3 system_sid [system_sid; administrators_sid]).
#[local] Notation sharing := (private_to 0 system_sid [system_sid; administrators_sid]).

#[local] Notation ready := (ready root rq inst).
#[local] Notation between := (between pem_encode root rq inst).
#[local] Notation migrated := (migrated pem_encode root rq inst).
#[local] Notation phase := (phase pem_encode root rq inst).
#[local] Notation staging_tree := (staging_tree rq inst).
#[local] Notation staged_spec := (staged_spec pem_encode inst).
#[local] Notation whole := (whole pem_encode inst).
#[local] Notation ours := (ours rq inst).
#[local] Notation shut := (shut root rq inst).
#[local] Notation console_names := (console_names inst).
#[local] Notation checked_files := (checked_files inst).
#[local] Notation checked_ok := (checked_ok inst).
#[local] Notation continues := (continues root).
#[local] Notation prepared_for := (prepared_for root rq inst).
#[local] Notation verified := (verified inst).
#[local] Notation clearing := (clearing root rq inst).
#[local] Notation staged := (staged root rq inst).
#[local] Notation place := (place root).

Lemma ready_phase s : ready s → phase s.
Proof. by left. Qed.

Lemma phase_root_ok s : phase s → root_ok root s.
Proof. intros [(H & _)|[(b & H & _)|(H & _)]]; done. Qed.

(** ** Closing *)

Lemma check_closable_entries_ok now path l :
  Forall (λ e, existsb (λ p, principal_is p (entry_sid e)) [System; Administrators] = true ∨
               Z.land (entry_mask e) (Z.lor (Z.lor WRITE_DAC WRITE_OWNER) GENERIC_ALL) = 0) l →
  check_closable_entries (env now) path l = Ok tt.
Proof.
  induction 1 as [|e l He _ IH]; [done|]. cbn [check_closable_entries mc_trusted migration_custody_system me_custody].
  destruct He as [-> | ->]; [done|]. cbn [Z.eqb negb]. by rewrite andb_false_r.
Qed.

Lemma ctriple_check_closable c now d path (P : Store → Prop) :
  (c = true → ∀ s, P s → closable d) →
  ctriple c P (check_closable (env now) d path) (λ _, P) P.
Proof.
  intros Hc. eapply ctriple_bind.
  { eapply (ctriple_reads c P _ _ (λ b s, b = existsb (λ p, matches p (owner d)) [System; Administrators] ∧ P s));
      [apply creads_owned_by|done|eauto|naive_solver]. }
  intros owned. destruct owned; cbn [negb].
  2: { apply ctriple_err. intros s [E HP]. split; [|done]. destruct c; [|done]. destruct (Hc eq_refl s HP). congruence. }
  eapply (ctriple_bind c _ _ (λ l s, acting_of d = Some l ∧ P s)).
  { apply ctriple_map_err. eapply ctriple_reads; [apply creads_allow_entries|naive_solver| |naive_solver].
    intros Ht s [_ HP]. destruct (Hc Ht s HP) as (_ & l & Hl & _). eauto. }
  intros [l|].
  - apply ctriple_of; [naive_solver|naive_solver|]. intros Ht s [Hl HP].
    destruct (Hc Ht s HP) as (_ & l' & Hl' & Hf). rewrite Hl in Hl'. injection Hl' as <-.
    by rewrite check_closable_entries_ok.
  - apply ctriple_err. intros s [Hl HP]. split; [|done]. destruct c; [|done].
    destruct (Hc eq_refl s HP) as (_ & l' & Hl' & _). congruence.
Qed.

(** A directory closed. *)
Lemma close_spec c now path k point (P Q I : Store → Prop) :
  path_key path = k → (∀ s, P s → I s) → (∀ s, Q s → I s) →
  (∀ s o, P s → s !! k = Some o → shape_ok Directory (info o) → Q (<[k := with_descriptor o closing]> s)) →
  (c = true → ∀ s, P s → ∃ o, s !! k = Some o ∧ shape_ok Directory (info o) ∧ closable (descriptor o)) →
  triple c P (close (env now) path point) (λ _, Q) I.
Proof.
  intros <- HI HQI HQ Hc. eapply triple_bind; [by apply triple_at|]. intros [].
  eapply (triple_bind c _ _ (λ h s, s !! path_key path = Some h ∧ P s)).
  { eapply triple_fsi, ctriple_reads; [apply creads_open_waiting|done| |naive_solver].
    intros Ht s HP. destruct (Hc Ht s HP) as (o & Ho & _). eauto. }
  intros h. eapply (triple_bind c _ _ (λ _ s, shape_ok Directory (info h) ∧ s !! path_key path = Some h ∧ P s)).
  { eapply triple_fsi, ctriple_reads; [apply creads_check_shape|naive_solver| |naive_solver].
    intros Ht s [Ho HP]. exists tt. destruct (Hc Ht s HP) as (o & Ho' & ? & _). congruence. }
  intros []. eapply (triple_bind c _ _ (λ d s, d = descriptor h ∧ shape_ok Directory (info h) ∧ s !! path_key path = Some h ∧ P s)).
  { eapply triple_fsi, ctriple_reads; [apply creads_security_of|naive_solver|eauto|naive_solver]. }
  intros d. eapply triple_bind.
  { apply triple_fsi. eapply ctriple_weaken; [apply (ctriple_check_closable c now d path
      (λ s, d = descriptor h ∧ shape_ok Directory (info h) ∧ s !! path_key path = Some h ∧ P s))| | |].
    - intros Ht s (-> & _ & Ho & HP). destruct (Hc Ht s HP) as (o & Ho' & _ & ?). congruence.
    - done.
    - intros x s H. exact H.
    - naive_solver. }
  intros []. eapply (triple_bind c _ _ (λ _, Q)); [|intros h'; by apply triple_ret].
  apply triple_fsi. eapply ctriple_set_security; [apply from_sddl_ok, sddl_private_directory|naive_solver|done|].
  intros s (-> & Hs & Ho & HP). exists h. split; [done|]. rewrite secured_private. by apply HQ.
Qed.

(** Both of them: only a console layout and a migrated one have a data root. *)
Lemma close_directories_spec c now (F : Store → Prop) :
  (∀ s k o, k = root ∨ k = D → F s → F (<[k := o]> s)) →
  triple c (λ s, F s ∧ phase s ∧ (c = true → ready s)) (close_directories (env now))
    (λ _ s, F s ∧ (shut s ∨ (c = false ∧ migrated s))) phase.
Proof.
  intros HF. unfold close_directories.
  eapply (triple_bind c _ _ (λ _ s, closed_at root s ∧ F s ∧ phase s ∧ (c = true → ready s))).
  { apply triple_catch; [|intros; apply refuses_cut].
    eapply (close_spec c now _ root); [apply (placed_root _ _ Hplaced)|naive_solver|naive_solver| |].
    - intros s o (Hfr & Hp & Hc) Ho Hs.
      destruct (close_root_phases pem_encode root rq inst s o Ho Hs) as (H1 & H2 & _).
      split_and!; [done|by apply HF; [left|]|by apply phase_close_root|auto].
    - intros _ s (_ & Hp & _). by destruct (phase_root_ok s Hp) as (H & _). }
  intros []. apply triple_catch; [|intros; apply refuses_cut].
  eapply (close_spec c now _ D); [apply (placed_data _ _ Hplaced)|naive_solver| | |].
  - intros s [_ [(H & _)|[_ H]]]; [by left|by right; right].
  - intros s o (Hcr & Hfr & Hp & Hc) Ho Hs. split; [by apply HF; [right|]|].
    destruct Hp as [Hr|[(b & Hb)|Hmi]].
    + left. assert (MigrationPhases.ready root rq inst (<[D ++ [] := with_descriptor o closing]> s)) as H.
      { apply ready_secured; [done|by rewrite app_nil_r|intros _; by apply shared_closable|done]. }
      rewrite app_nil_r in H. split_and!; [done| |by apply closed_secured].
      apply closed_other; [|done]. apply root_child_ne.
    + destruct Hb as (_ & _ & Hu & _). specialize (Hu []). rewrite app_nil_r in Hu. congruence.
    + right. split; [|by apply migrated_secured]. destruct c; [|done]. exfalso.
      destruct (Hc eq_refl) as (_ & _ & Hl & _). destruct Hmi as (_ & _ & _ & _ & (x & Hx & _) & _).
      specialize (Hl []). rewrite app_nil_r in Hl. congruence.
  - intros Ht s (_ & _ & _ & Hc). destruct (Hc Ht) as (_ & ((o & Ho & Hs & _ & Hd) & _) & _).
    exists o. unfold sub in Ho. rewrite app_nil_r in Ho. done.
Qed.

(** ** An interrupted staging deleted *)

Lemma shut_staging s s' :
  shut s → staging_only root s s' → (∀ o, s' !! S = Some o → named "agent.migrating" o) →
  unoccupied S s' ∨ staging_tree (sub S s') → shut s'.
Proof.
  intros (H1 & H2 & H3) Ho Hn Hs. split_and!; [by eapply ready_staging|by eapply staging_only_closed|].
  by eapply staging_only_closed_sub.
Qed.

Lemma shut_staging_kept s s' :
  shut s → staging_only root s s' → s' !! S = s !! S → staging_tree (sub S s') → shut s'.
Proof.
  intros H Ho HS Ht. eapply shut_staging; [done|done| |by right]. intros o. rewrite HS.
  destruct H as (((_ & _ & Hn) & _) & _). apply Hn.
Qed.

Lemma delete_all_unoccupied d n (s : Store) : unoccupied d s → delete_all (take n (descendants d s)) s = s.
Proof.
  intros Hu. apply map_eq. intros k. rewrite delete_all_lookup. case_decide as Hin; [|done].
  apply elem_of_take in Hin as (i & Hi & _). apply list_elem_of_lookup_2, elem_of_descendants in Hi as [Hb _].
  apply below_spec in Hb as [r ->]. by rewrite Hu.
Qed.

Lemma staging_only_cut s n : staging_only root s (delete_all (take n (descendants S s)) s).
Proof.
  intros k Hb. rewrite delete_all_lookup. case_decide as Hin; [|done].
  apply elem_of_take in Hin as (i & Hi & _). apply list_elem_of_lookup_2, elem_of_descendants in Hi as [Hi _]. congruence.
Qed.

Lemma staging_only_removed s k : staging_only root s (remove_tree (S ++ k) s).
Proof.
  intros j Hb. rewrite remove_tree_lookup. destruct (below (S ++ k) j) eqn:E; [|done].
  apply below_spec in E as [r ->]. by rewrite <- app_assoc, below_app in Hb.
Qed.

Lemma shut_cut s n : shut s → shut (delete_all (take n (descendants S s)) s).
Proof.
  intros H. pose proof H as ((_ & _ & _ & Hst) & _). destruct Hst as [Hu|Ht]; [by rewrite delete_all_unoccupied|].
  apply (shut_staging_kept s); [done|apply staging_only_cut| |].
  - rewrite delete_all_lookup. case_decide as Hin; [|done]. apply elem_of_take in Hin as (i & Hi & _).
    apply list_elem_of_lookup_2, elem_of_descendants in Hi as [_ Hne]. done.
  - rewrite <- (app_nil_r S) at 2. by apply staging_cut.
Qed.

Lemma delete_interrupted_spec c now :
  triple c (λ s, (shut s ∧ (c = true → is_Some (s !! S))) ∨ (c = false ∧ migrated s))
    (delete_interrupted_staging (env now))
    (λ _ s, (shut s ∧ unoccupied S s) ∨ (c = false ∧ migrated s)) phase.
Proof.
  assert (∀ s, (shut s ∧ (c = true → is_Some (s !! S))) ∨ (c = false ∧ migrated s) → phase s) as HI.
  { intros s [[(H & _) _]|[_ H]]; [by left|by right; right]. }
  unfold delete_interrupted_staging. cbn [me_paths]. eapply triple_bind; [by apply triple_map_err, triple_at|]. intros [].
  assert (path_key (staging paths) = S) as Hk by apply (placed_staging _ _ Hplaced).
  apply triple_fsi, ctriple_bounded; [|done|].
  2: { intros [] s [[(H & _) _]|[_ H]]; [by left|by right; right]. }
  apply ctriple_map_err, ctriple_remove_dir_all; rewrite ?Hk; [done| | |].
  - intros s [[H _]|[_ H]] Hs.
    + left. assert (unoccupied S (remove_tree S s)) as Hu.
      { intros r. by rewrite remove_tree_lookup, below_app. }
      split; [|done]. apply (shut_staging s); [done| | |by left].
      * rewrite <- (app_nil_r S). apply staging_only_removed.
      * intros o Ho. specialize (Hu []). rewrite app_nil_r in Hu. congruence.
    + destruct H as (_ & _ & Hu & _). specialize (Hu []). rewrite app_nil_r in Hu. destruct Hs. congruence.
  - intros s n [[H _]|[_ H]].
    + left. by apply shut_cut.
    + right; right. by rewrite delete_all_unoccupied by apply H.
  - intros -> s [[_ H]|[? _]]; [by apply H|done].
Qed.

(** ** What is there *)

(** The names a directory lists. *)
Definition listing (d : Path) (s : Store) : list string :=
  filter (λ n, plain_name n = true) (spelled <$> children d s).

Lemma filter_all {A : Type} (P : A → Prop) `{!∀ x, Decision (P x)} l : Forall P l → filter P l = l.
Proof. induction 1; [done|]. rewrite filter_cons_True by done. by f_equal. Qed.

Lemma listing_children d (s : Store) :
  (∀ n o, s !! (d ++ [n]) = Some o → named n o) → listing d s = spelled <$> children d s.
Proof.
  intros H. apply filter_all, Forall_forall. intros x Hx. apply list_elem_of_fmap in Hx as (o & -> & Ho).
  apply elem_of_children in Ho as [n Ho]. by apply (H n).
Qed.

Lemma elem_of_listing d (s : Store) x :
  (∀ n o, s !! (d ++ [n]) = Some o → named n o) →
  x ∈ listing d s → ∃ o, s !! (d ++ [lowercase x]) = Some o ∧ spelled o = x.
Proof.
  intros H Hx. rewrite listing_children in Hx by done. apply list_elem_of_fmap in Hx as (o & -> & Ho).
  apply elem_of_children in Ho as [n Ho]. destruct (H n o Ho) as [<- _]. eauto.
Qed.

Lemma listing_complete d (s : Store) n o :
  (∀ n o, s !! (d ++ [n]) = Some o → named n o) → s !! (d ++ [n]) = Some o →
  spelled o ∈ listing d s ∧ lowercase (spelled o) = n.
Proof.
  intros H Ho. destruct (H n o Ho) as [Hn _]. split; [|done]. rewrite listing_children by done.
  apply list_elem_of_fmap_2, elem_of_children. eauto.
Qed.

Lemma listing_distinct d (s : Store) :
  (∀ n o, s !! (d ++ [n]) = Some o → named n o) → NoDup (lowercase <$> listing d s).
Proof.
  intros H. rewrite listing_children by done. rewrite <- list_fmap_compose.
  apply (NoDup_fmap_1 (λ n, d ++ [n])). rewrite <- list_fmap_compose. unfold children. rewrite <- list_fmap_compose.
  rewrite (list_fmap_ext _ fst).
  - eapply sublist_NoDup; [apply (NoDup_fst_map_to_list s)|]. apply fmap_sublist, sublist_filter.
  - intros i [k o] Hi. apply list_elem_of_lookup_2, list_elem_of_filter in Hi as [Hc Hi].
    apply elem_of_map_to_list in Hi. cbn in *. apply is_child_spec in Hc as [n ->].
    unfold compose. by destruct (H n o Hi) as [-> _].
Qed.

(** *** The product's directory *)

Lemma eq_ignore_lowercase a b : eq_ignore_ascii_case a b = true ↔ lowercase a = lowercase b.
Proof. unfold eq_ignore_ascii_case. apply bool_decide_eq_true. Qed.

Lemma accept_root_entries_ok now b l seen :
  accept_root_entries (env now) b l seen = Ok tt ↔
  Forall (λ e, lowercase e = "agent" ∨ (b = true ∧ lowercase e = "agent.migrating")) l ∧
  NoDup (lowercase <$> l) ∧ Forall (λ e, lowercase e ∉ seen) l.
Proof.
  destruct (placed_names _ _ Hplaced) as (N1 & N2 & _).
  revert seen. induction l as [|e l IH]; intros seen; cbn [accept_root_entries me_paths].
  { split; [|done]. intros _. by split_and!; constructor. }
  rewrite N1, N2. rewrite fmap_cons, NoDup_cons, !Forall_cons.
  destruct (eq_ignore_ascii_case e "agent" || _) eqn:Ea; cbn [negb orb].
  - assert (lowercase e = "agent" ∨ (b = true ∧ lowercase e = "agent.migrating")) as Ha.
    { apply orb_true_iff in Ea as [E|E]; [left; by apply eq_ignore_lowercase in E|right].
      apply andb_true_iff in E as [-> E]. by apply eq_ignore_lowercase in E. }
    case_bool_decide as Hs; [split; [done|naive_solver]|]. rewrite IH.
    assert (Forall (λ x, lowercase x ∉ lowercase e :: seen) l ↔
      lowercase e ∉ lowercase <$> l ∧ Forall (λ x, lowercase x ∉ seen) l) as ->; [|naive_solver].
    rewrite !Forall_forall. setoid_rewrite not_elem_of_cons. rewrite list_elem_of_fmap. split.
    + intros H. split; [|naive_solver]. intros (x & E & Hx). destruct (H x Hx). congruence.
    + intros [H1 H2] x Hx. split; [|auto]. intros E. apply H1. eauto.
  - split; [done|]. intros ([[E|[-> E]] _] & _).
    + rewrite (proj2 (eq_ignore_lowercase e "agent") E) in Ea. done.
    + rewrite (proj2 (eq_ignore_lowercase e "agent.migrating") E) in Ea. by rewrite orb_true_r in Ea.
Qed.

Lemma mreads_root_entries now b :
  mreads (check_root_entries (env now) b) (λ s _,
    (∃ o, s !! root = Some o ∧ is_directory (info o) = true) ∧
    accept_root_entries (env now) b (listing root s) [] = Ok tt).
Proof.
  eapply mreads_weaken; [eapply mreads_bind; [apply mreads_fs, creads_entries|]; intros l; apply mreads_of|].
  intros s []. cbn [me_paths]. rewrite (placed_root _ _ Hplaced). unfold listing. naive_solver.
Qed.

(** What the listing of the product's directory says of the phase. *)
Lemma root_entries_ready now b s :
  ready s → accept_root_entries (env now) b (listing root s) [] = Ok tt ↔ (b = false → unoccupied S s).
Proof.
  intros ((_ & Hn & Hnm) & ((od & Hod & _) & _) & HL & HS). rewrite accept_root_entries_ok. split.
  - intros (Hf & _) Hb. destruct HS as [HS|Ht]; [done|]. destruct Ht as ((o & Ho & _) & _).
    unfold sub in Ho. rewrite app_nil_r in Ho. destruct (listing_complete root s _ o Hnm Ho) as [Hin Hl].
    rewrite Forall_forall in Hf. destruct (Hf _ Hin) as [E|[? _]]; congruence.
  - intros Hb. split_and!; [|by apply listing_distinct|].
    + apply Forall_forall. intros x Hx. destruct (elem_of_listing root s x Hnm Hx) as (o & Ho & _).
      pose proof (Hn _ _ _ Ho) as Hin. apply elem_of_cons in Hin as [->|Hin]; [by left|].
      apply elem_of_cons in Hin as [E|Hin].
      * right. destruct b; [done|]. specialize (Hb eq_refl []). rewrite app_nil_r, <- E in Hb. congruence.
      * apply list_elem_of_singleton in Hin. specialize (HL []). rewrite app_nil_r, <- Hin in HL. congruence.
    + apply Forall_forall. intros x _. apply not_elem_of_nil.
Qed.

Lemma root_entries_migrated now b s :
  migrated s → accept_root_entries (env now) b (listing root s) [] ≠ Ok tt.
Proof.
  intros ((_ & _ & Hnm) & _ & _ & _ & (o & Ho & _) & _) H. apply accept_root_entries_ok in H as (Hf & _).
  destruct (listing_complete root s _ o Hnm Ho) as [Hin Hl]. rewrite Forall_forall in Hf.
  destruct (Hf _ Hin) as [E|[_ E]]; congruence.
Qed.

(** *** The data root's files *)

Lemma known_name_lowercase x n : n ∈ REQUIRED ++ [TEMPORARY] → lowercase x = n → known_name x = Some n.
Proof.
  intros Hn Hx. unfold known_name, eq_ignore_ascii_case. rewrite Hx.
  repeat (apply elem_of_cons in Hn as [->|Hn]; [reflexivity|]). by apply not_elem_of_nil in Hn.
Qed.

Lemma collect_names_ok now l names :
  Forall (λ x, known_name x = Some (lowercase x)) l → NoDup (names ++ (lowercase <$> l)) →
  collect_names (env now) l names = Ok (names ++ (lowercase <$> l)).
Proof.
  intros Hf. revert names. induction Hf as [|x l Hx _ IH]; intros names Hnd; cbn [collect_names].
  { by rewrite app_nil_r. }
  rewrite fmap_cons in *. rewrite Hx, decide_False.
  - rewrite IH; [by rewrite <- app_assoc|]. by rewrite <- app_assoc.
  - apply NoDup_app in Hnd as (_ & Hnd & _). intros Hin. apply (Hnd _ Hin). by left.
Qed.

Lemma ready_named s n o : ready s → s !! (D ++ [n]) = Some o → console_file inst n o.
Proof.
  intros (_ & (_ & Hf & _) & _) Ho. by destruct (Hf [n] o) as (n' & [= <-] & H).
Qed.

Lemma ready_file s n : ready s → is_Some (files_of inst !! n) → ∃ o, s !! (D ++ [n]) = Some o ∧ console_file inst n o.
Proof.
  intros Hr Hn. pose proof Hr as (_ & (_ & _ & H) & _). destruct (H n Hn) as [o Ho]. exists o. split; [exact Ho|].
  by apply (ready_named s).
Qed.

Lemma file_key now n : is_Some (files_of inst !! n) → path_key (in_data_root (env now) n) = D ++ [n].
Proof.
  intros [[i b] Hn]. destruct (mg_known Hm n i b Hn) as [Hk _]. apply product_name_plain in Hk as [H1 H2].
  unfold in_data_root. rewrite path_key_join; [|by destruct (placed_joinable _ _ Hplaced) as (_ & ? & _)|done].
  cbn [me_paths]. by rewrite (placed_data _ _ Hplaced), H2.
Qed.

Lemma data_root_listing now s :
  ready s → collect_names (env now) (listing D s) [] = Ok (lowercase <$> listing D s) ∧
  console_names (lowercase <$> listing D s).
Proof.
  intros Hr.
  assert (∀ n o, s !! (D ++ [n]) = Some o → named n o) as Hn.
  { intros n o Ho. by destruct (ready_named s n o Hr Ho) as (_ & ? & _). }
  pose proof (listing_distinct D s Hn) as Hnd.
  assert (∀ n, n ∈ lowercase <$> listing D s ↔ is_Some (files_of inst !! n)) as Hin.
  { intros n. rewrite list_elem_of_fmap. split.
    - intros (x & -> & Hx). destruct (elem_of_listing D s x Hn Hx) as (o & Ho & _).
      destruct (ready_named s _ o Hr Ho) as (? & _). eauto.
    - intros Hf. destruct (ready_file s n Hr Hf) as (o & Ho & _).
      destruct (listing_complete D s n o Hn Ho) as [? ?]. eauto. }
  split; [|done]. apply (collect_names_ok now _ []); [|done]. apply Forall_forall. intros x Hx.
  assert (is_Some (files_of inst !! lowercase x)) as [[i b] Hf].
  { apply Hin, list_elem_of_fmap_2, Hx. }
  apply known_name_lowercase; [|done]. by destruct (mg_known Hm _ i b Hf).
Qed.

Lemma mreads_data_root_names now :
  mreads (data_root_names (env now)) (λ s names,
    (∃ o, s !! D = Some o ∧ is_directory (info o) = true) ∧ collect_names (env now) (listing D s) [] = Ok names).
Proof.
  eapply mreads_weaken; [eapply mreads_bind; [apply mreads_fs, creads_entries|]; intros l; apply mreads_of|].
  intros s x. cbn [me_paths]. rewrite (placed_data _ _ Hplaced). unfold listing. naive_solver.
Qed.

Lemma ready_data_root s : ready s →
  ∃ o, s !! D = Some o ∧ shape_ok Directory (info o) ∧ case_sensitive o = false ∧ closable (descriptor o).
Proof. intros (_ & ((o & Ho & H) & _) & _). exists o. unfold sub in Ho. by rewrite app_nil_r in Ho. Qed.

Lemma missing_name_none names : console_names names → missing_name names = None.
Proof.
  intros [_ H]. unfold missing_name. destruct (find _ _) as [n|] eqn:E; [|done].
  apply find_some in E as [Hin Hb]. apply list_elem_of_In in Hin. apply negb_true_iff, bool_decide_eq_false in Hb.
  destruct Hb. apply H, (mg_required Hm), Hin.
Qed.

(** *** One file checked *)

Lemma allows_of_env now l : allows_of (env now) l {| allows_service := false; allows_administrators := false; others := [] |}
  = allows_of_system l.
Proof. done. Qed.

Lemma check_file_spec c now name i b (P : Store → Prop) :
  files_of inst !! name = Some (i, b) → (∀ s, P s → ready s) →
  ctriple c P (check_file (env now) (in_data_root (env now) name) name)
    (λ x s, P s ∧ x.1 = file_id i ∧ ∀ sid, x.2 = Some sid → sid = account_of inst) P.
Proof.
  intros Hi HP. pose proof (file_key now name ltac:(by eexists)) as Hk. unfold check_file.
  eapply (ctriple_bind c _ _ (λ h s, console_file inst name h ∧ P s)).
  { eapply ctriple_reads; [apply creads_open_waiting|done| |].
    - intros _ s Hs. rewrite Hk. destruct (ready_file s name (HP s Hs)) as (o & Ho & _); [by eexists|eauto].
    - intros s h Hs Ho. rewrite Hk in Ho. split; [|done]. by apply (ready_named s); [apply HP|]. }
  intros h. eapply (ctriple_bind c _ _ (λ j s, j = i ∧ shape_ok File i ∧ acceptable (account_of inst) name (descriptor h) ∧ P s)).
  { eapply ctriple_reads; [apply creads_file_information|naive_solver|eauto|].
    intros s j ((Hf & _ & Ha) & Hs) ->. rewrite Hi in Hf. injection Hf as -> _.
    split_and!; try done. by destruct (mg_known Hm name _ b Hi) as (_ & ? & _). }
  intros j.
  assert (∀ (m : CM (FileId * option bytes) string) Q, (j = i → shape_ok File i → acceptable (account_of inst) name (descriptor h) →
    ctriple c P m Q P) → ctriple c (λ s, j = i ∧ shape_ok File i ∧ acceptable (account_of inst) name (descriptor h) ∧ P s) m Q P) as Hpre.
  { intros m Q H w Hq (? & ? & ? & ?). by apply H. }
  apply Hpre. intros -> (Hr & Hd & Hl) [Ho Ha]. rewrite Hr, Hd, Hl. cbn [orb negb Z.eqb Pos.eqb].
  eapply (ctriple_bind c _ _ (λ d s, d = descriptor h ∧ P s)).
  { eapply ctriple_reads; [apply creads_security_of|done|eauto|naive_solver]. }
  intros d. eapply (ctriple_bind c _ _ (λ x s, x = true ∧ d = descriptor h ∧ P s)).
  { eapply ctriple_reads; [apply creads_owned_by|naive_solver|eauto|].
    intros s x [-> Hs] ->. by split_and!. }
  intros owned. destruct owned; [|by intros w Hq (? & _)]. cbn [negb].
  destruct (bool_decide (name ∈ IDENTITY_FILES)) eqn:Eid; cbn [negb].
  2: { intros w Hq (_ & _ & Hs). split; [done|]. by split_and!. }
  apply bool_decide_eq_true in Eid. destruct (Ha Eid) as (l & Hac & Htoo & Hsid).
  eapply (ctriple_bind c _ _ (λ found s, found = Some l ∧ P s)).
  { eapply ctriple_reads; [apply creads_allow_entries|naive_solver| |].
    - intros _ s (_ & -> & _). eauto.
    - intros s x (_ & -> & Hs) Hx. rewrite Hac in Hx. by injection Hx as <-. }
  intros found. destruct found as [l'|]; [|by intros w Hq (? & _)].
  intros w Hq [[= ->] Hs]. rewrite allows_of_env, Htoo. split; [done|]. cbn. split_and!; [done|done|]. apply Hsid.
Qed.

(** *** All of them *)

Lemma check_files_spec c now names files enrolling (P : Store → Prop) :
  Forall (λ n, is_Some (files_of inst !! n)) names → checked_files files →
  (∀ sid, enrolling = Some sid → sid = account_of inst) → (∀ s, P s → ready s) →
  triple c P (check_files (env now) names files enrolling)
    (λ x s, P s ∧ checked_files (ck_files x) ∧ (ck_files x).*1 = files.*1 ++ names ∧
            ∀ sid, ck_enrolling_account x = Some sid → sid = account_of inst) P.
Proof.
  intros Hn Hf He HP. revert files enrolling Hf He.
  induction Hn as [|name names [[i b] Hi] _ IH]; intros files enrolling Hf He; cbn [check_files].
  { apply triple_ret. intros s Hs. cbn. by rewrite app_nil_r. }
  eapply triple_bind; [apply triple_catch; [by apply triple_at|intros; apply refuses_cut]|]. intros [].
  eapply triple_bind; [apply triple_catch; [apply triple_fs; by eapply check_file_spec|intros; apply refuses_in_place]|].
  intros [id found]. cbn [fst snd].
  apply (triple_pre c (id = file_id i ∧ ∀ sid, found = Some sid → sid = account_of inst)); [naive_solver|].
  intros [-> Hfound].
  assert (checked_files (files ++ [(name, file_id i)])) as Hf'.
  { apply Forall_app. split; [done|]. constructor; [|done]. eauto. }
  assert (∀ e : option bytes, (∀ sid, e = Some sid → sid = account_of inst) →
    triple c (λ s, P s ∧ file_id i = file_id i ∧ ∀ sid, found = Some sid → sid = account_of inst)
      (check_files (env now) names (files ++ [(name, file_id i)]) e)
      (λ x s, P s ∧ checked_files (ck_files x) ∧ (ck_files x).*1 = files.*1 ++ name :: names ∧
              ∀ sid, ck_enrolling_account x = Some sid → sid = account_of inst) P) as Hnext.
  { intros e He'. eapply triple_weaken; [by apply (IH (files ++ [(name, file_id i)]) e)|naive_solver| |done].
    intros x s. rewrite fmap_app, <- app_assoc. done. }
  destruct found as [other|]; [|by apply Hnext].
  assert (match enrolling with Some sid => negb (bool_decide (sid = other)) | None => false end = false) as ->.
  { destruct enrolling as [sid|]; [|done]. apply negb_false_iff, bool_decide_eq_true.
    by rewrite (He sid eq_refl), (Hfound other eq_refl). }
  by apply Hnext.
Qed.

Lemma prepared_phase attempt s : prepared_for attempt s → phase s.
Proof. intros [(H & _) _]. by left. Qed.

Lemma continues_other attempt s k o : below S k = false → continues attempt s → continues attempt (<[k := o]> s).
Proof.
  intros Hk H r Hr. destruct (H r Hr) as (x & Hx & ?). exists x. by rewrite sub_insert_other.
Qed.

Lemma is_some_recorded attempt : is_some (recorded attempt) = false ↔ recorded attempt = None.
Proof. by destruct (recorded attempt). Qed.

Lemma check_root_spec c now attempt :
  triple c (λ s, continues attempt s ∧
      ((shut s ∧ (c = true → prepared_for attempt s)) ∨ (c = false ∧ migrated s)))
    (mcatch (check_root_entries (env now) (is_some (recorded attempt))) (stop (env now)))
    (λ _, prepared_for attempt) phase.
Proof.
  apply triple_catch; [|intros; apply refuses_stop].
  eapply triple_reads; [apply mreads_root_entries| | |].
  - intros s [_ [[(H & _) _]|[_ H]]]; [by left|by right; right].
  - intros -> s [_ [[(Hr & _) Hf]|[? _]]]; [|done]. exists tt.
    pose proof Hr as (((o & Ho & (_ & Hd) & _) & _) & _). split; [by exists o|].
    apply root_entries_ready; [done|]. rewrite is_some_recorded. by destruct (Hf eq_refl) as (_ & ? & _).
  - intros s [] [Hcn [[Hs _]|[_ Hmi]]] [_ Ha]; [|by apply root_entries_migrated in Ha].
    split; [done|]. destruct Hs as (Hr & _). rewrite root_entries_ready in Ha by done.
    split; [|done]. by rewrite <- is_some_recorded.
Qed.

Lemma check_what_is_there_spec c now attempt :
  triple c (λ s, continues attempt s ∧
      ((shut s ∧ (c = true → prepared_for attempt s)) ∨ (c = false ∧ migrated s)))
    (check_what_is_there (env now) attempt) (λ x s, prepared_for attempt s ∧ checked_ok x) phase.
Proof.
  unfold check_what_is_there. eapply triple_bind; [apply check_root_spec|]. intros [].
  set (P := prepared_for attempt). assert (∀ s, P s → ready s) as HP by (intros s [(H & _) _]; done).
  assert (∀ s, P s → phase s) as HPP by apply prepared_phase.
  eapply (triple_bind c _ _ (λ h s, case_sensitive h = false ∧ P s)).
  { apply triple_catch; [|intros; apply refuses_stop]. cbn [me_paths].
    eapply triple_fs, ctriple_reads; [apply creads_open_waiting|done| |]; rewrite (placed_data _ _ Hplaced).
    - intros _ s Hs. destruct (ready_data_root s (HP s Hs)) as (o & Ho & _). eauto.
    - intros s h Hs Ho. destruct (ready_data_root s (HP s Hs)) as (o & Ho' & _ & ? & _). split; [congruence|done]. }
  intros h. apply (triple_pre c (case_sensitive h = false)); [naive_solver|]. intros Hh.
  eapply (triple_bind c _ _ (λ b s, b = false ∧ P s)).
  { apply triple_catch; [|intros; apply refuses_stop]. cbn [me_paths].
    eapply triple_fs, ctriple_reads; [by apply creads_case_sensitive|naive_solver|eauto|naive_solver]. }
  intros sensitive. destruct sensitive; [by intros w Hq [? _]|].
  eapply (triple_bind c _ _ (λ names s, console_names names ∧ P s)).
  { apply triple_catch; [|intros; apply refuses_stop].
    eapply triple_reads; [apply mreads_data_root_names|naive_solver| |].
    - intros _ s [_ Hs]. destruct (data_root_listing now s (HP s Hs)) as [Hl _].
      destruct (ready_data_root s (HP s Hs)) as (o & Ho & (_ & Hd) & _). eauto.
    - intros s names [_ Hs] [_ Hl]. destruct (data_root_listing now s (HP s Hs)) as [Hl' Hc].
      rewrite Hl in Hl'. by injection Hl' as ->. }
  intros names. apply (triple_pre c (console_names names)); [naive_solver|]. intros Hn.
  rewrite missing_name_none by done.
  eapply triple_weaken; [apply (check_files_spec c now (merge_sort by_position names) [] None P)|naive_solver| |done].
  - rewrite merge_sort_Permutation. apply Forall_forall. intros n Hin. by apply Hn.
  - by apply Forall_nil.
  - done.
  - done.
  - intros x s (Hs & Hf & Hnm & He). split; [done|]. split_and!; [done| |done].
    intros n. rewrite Hnm. cbn. rewrite merge_sort_Permutation. apply Hn.
Qed.

(** ** Each file read *)

Lemma read_files_spec c now files read (P : Store → Prop) :
  checked_files files → (∀ s, P s → ready s) →
  triple c P (read_files (env now) files read)
    (λ read' s, P s ∧ ∀ n, n ≠ TEMPORARY → n ∈ files.*1 ∨ read !! n = Some (taken inst n) →
                      read' !! n = Some (taken inst n)) P.
Proof.
  intros Hf HP. revert read. induction Hf as [|[name id] files (i & b & Hi & Hid) Hf IH]; intros read; cbn [read_files].
  { apply triple_ret. intros s Hs. split; [done|]. intros n _ [Hn|Hn]; [by apply not_elem_of_nil in Hn|done]. }
  cbn in Hi, Hid. subst id. pose proof (file_key now name ltac:(by eexists)) as Hk.
  case_bool_decide as Et.
  { eapply triple_weaken; [apply (IH read)|done| |done]. intros read' s [Hs H]. split; [done|].
    intros n Hn [Hin|Hin]; [|by apply H; [|right]]. cbn in Hin. apply elem_of_cons in Hin as [->|Hin]; [done|].
    apply H; [done|by left]. }
  eapply triple_bind; [apply triple_catch; [by apply triple_at|intros; apply refuses_cut]|]. intros [].
  eapply (triple_bind c _ _ (λ x s, x = (b, file_id i) ∧ P s)).
  { apply triple_catch; [|intros; apply refuses_in_place]. destruct (mg_known Hm name i b Hi) as (_ & Hsh & Hl).
    eapply triple_fs, ctriple_reads; [apply creads_read_unshared|done| |]; rewrite Hk.
    - intros _ s Hs. destruct (ready_file s name (HP s Hs)) as (o & Ho & Hfo & _); [by eexists|].
      rewrite Hi in Hfo. injection Hfo as -> ->. eauto 7.
    - intros s x Hs (o & Ho & _ & _ & ->). destruct (ready_named s name o (HP s Hs) Ho) as (Hfo & _).
      rewrite Hi in Hfo. by injection Hfo as -> ->. }
  intros [content read_id]. apply (triple_pre c (content = b ∧ read_id = file_id i)); [naive_solver|]. intros [-> ->].
  rewrite bool_decide_true by done. cbn [negb].
  eapply triple_weaken; [apply (IH (<[name := b]> read))|naive_solver| |done].
  intros read' s [Hs H]. split; [done|]. intros n Hn Hin. apply H; [done|]. cbn in Hin. rewrite elem_of_cons in Hin.
  destruct (decide (n = name)) as [->|Hne].
  - right. rewrite lookup_insert_eq. unfold taken. by rewrite Hi.
  - rewrite lookup_insert_ne by done. naive_solver.
Qed.

Lemma check_identity_same now1 rec1 now2 rec2 k ce i x y :
  check_identity pem_certificates parse_rfc3339 now1 rec1 k ce i = Ok x →
  check_identity pem_certificates parse_rfc3339 now2 rec2 k ce i = Ok y → x = y.
Proof.
  unfold check_identity. destruct (identity_from_slice i) as [p|]; [|done]. cbn [ok_or].
  destruct (unseal k) as [secret|]; [|done]. cbn [map_err].
  repeat (case_match; try done). all: intros; congruence.
Qed.

Lemma check_identity_now now rec :
  now ≤ deadline → (∀ r, rec = Some r → ours r) →
  check_identity pem_certificates parse_rfc3339 now rec (taken inst KEY) (taken inst CERT) (taken inst IDENTITY)
  = Ok (console_agent_id inst, console_key_fingerprint inst).
Proof.
  intros Hnow Hrec. pose proof (mg_identity Hm) as H. unfold check_identity in H |- *.
  destruct (identity_from_slice (taken inst IDENTITY)) as [p|]; [|done]. cbn [ok_or] in *.
  destruct (unseal (taken inst KEY)) as [secret|]; [|done]. cbn [map_err] in *.
  destruct (negb (length secret =? KEY_LEN)%nat); [done|].
  destruct (negb (bool_decide (pubkey_fingerprint _ = _))); [done|].
  assert (match rec with
    | Some record => negb (bool_decide (mr_key_fingerprint record =
        pubkey_fingerprint (public_key_bytes (from_secret_bytes secret))))
        || negb (bool_decide (mr_agent_id record = pi_agent_id p))
    | None => false end = false) as ->.
  { destruct rec as [r|]; [|done]. destruct (Hrec r eq_refl) as (_ & -> & ->).
    repeat (case_match; try done). all: injection H as <- <-; by rewrite !bool_decide_true. }
  destruct (valid_utf8 (taken inst CERT)); [|done]. cbn [negb] in *.
  destruct (certificates_in pem_certificates (text_of_bytes (taken inst CERT))) as [l|]; [|done]. cbn [map_err] in *.
  destruct (negb (length l =? 1)%nat); [done|].
  destruct (check_consistency _ _ _ _) as [[]|]; [|done]. cbn [map_err] in *.
  destruct (parse_rfc3339 (pi_expires_at p)) as [e|]; [|done]. cbn [ok_or] in *.
  destruct (Z.leb_spec e deadline); [done|]. by rewrite (proj2 (Z.leb_gt e now)) by lia.
Qed.

Lemma read_each_file_spec c now attempt checked (P : Store → Prop) :
  checked_ok checked → (∀ s, P s → ready s) →
  (c = true → now ≤ deadline ∧ ∀ r, recorded attempt = Some r → ours r) →
  triple c P (read_each_file toml_value toml_config pem_certificates parse_rfc3339 (env now) rq attempt checked)
    (λ x s, P s ∧ x = verified) P.
Proof.
  intros (Hf & Hn & _) HP Hc. unfold read_each_file.
  eapply triple_bind; [by apply read_files_spec|]. intros read.
  apply (triple_pre c (∀ n, n ∈ REQUIRED → default [] (read !! n) = taken inst n)).
  { intros s [_ H] n Hin. rewrite H; [done| |left; by apply Hn, (mg_required Hm)].
    intros ->. repeat (apply elem_of_cons in Hin as [Hin|Hin]; [done|]). by apply not_elem_of_nil in Hin. }
  intros Ht.
  assert (∀ n, n ∈ [CONFIG; ANCHOR; CERT; KEY; IDENTITY] → default [] (read !! n) = taken inst n) as Ht' by exact Ht.
  rewrite !Ht' by (repeat first [left | right]). cbn [me_paths me_now].
  eapply (triple_bind c _ _ (λ x s, x = console_config inst ∧ P s)).
  { apply triple_catch; [|intros; apply refuses_in_place]. rewrite (mg_config Hm). apply triple_of; [|naive_solver|done].
    intros s x [Hs _] [= <-]. done. }
  intros text. eapply (triple_bind c _ _ (λ x s, x = anchor_certificates inst ∧ text = console_config inst ∧ P s)).
  { apply triple_catch; [|intros; apply refuses_in_place]. rewrite (mg_anchor Hm). apply triple_of; [|naive_solver|done].
    intros s x [-> Hs] [= <-]. done. }
  intros certs.
  eapply (triple_bind c _ _ (λ x s, x = (console_agent_id inst, console_key_fingerprint inst) ∧
    certs = anchor_certificates inst ∧ text = console_config inst ∧ P s)).
  { apply triple_catch; [|intros; apply refuses_in_place]. apply triple_of; [|naive_solver|].
    - intros s x H Hx. split; [|done]. by eapply check_identity_same, (mg_identity Hm).
    - intros s _ Hct. destruct (Hc Hct) as [H1 H2]. by rewrite check_identity_now. }
  intros [a k]. apply triple_ret. intros s ([= -> ->] & -> & -> & Hs). done.
Qed.

(** ** Each file restricted *)

Lemma data_file_ne n : D ++ [n] ≠ D.
Proof. apply snoc_ne. Qed.

Lemma prepared_secured attempt s n o :
  prepared_for attempt s → s !! (D ++ [n]) = Some o →
  prepared_for attempt (<[D ++ [n] := with_descriptor o sharing]> s).
Proof.
  intros ((Hr & Hc1 & Hc2) & HS & Hcn) Ho.
  pose proof (below_sibling root "agent.migrating" "agent" [n] ltac:(done)) as Hb.
  split_and!.
  - split_and!.
    + apply ready_secured; [done|done|done|]. intros n' _. by apply shared_acceptable.
    + apply closed_other; [|done]. rewrite <- app_assoc. apply root_child_ne.
    + apply closed_other; [|done]. apply data_file_ne.
  - intros Hn r. rewrite lookup_insert_ne; [by apply HS|]. intros E. by rewrite E, below_app in Hb.
  - by apply continues_other.
Qed.

Lemma restrict_file_spec c now attempt name i b :
  files_of inst !! name = Some (i, b) →
  triple c (prepared_for attempt) (restrict_file (env now) name (file_id i))
    (λ _, prepared_for attempt) phase.
Proof.
  intros Hi. pose proof (file_key now name ltac:(by eexists)) as Hk. unfold restrict_file.
  pose proof (prepared_phase attempt) as HI. set (P := prepared_for attempt) in *.
  eapply triple_bind; [by apply triple_at|]. intros [].
  eapply (triple_bind c _ _ (λ h s, info h = i ∧ s !! (D ++ [name]) = Some h ∧ P s)).
  { eapply triple_fsi, ctriple_reads; [apply creads_open_waiting|done| |]; rewrite Hk.
    - intros _ s [(Hr & _) _]. destruct (ready_file s name Hr) as (o & Ho & _); [by eexists|eauto].
    - intros s h Hs Ho. pose proof Hs as [(Hr & _) _]. destruct (ready_named s name h Hr Ho) as (Hf & _).
      rewrite Hi in Hf. by injection Hf as -> _. }
  intros h. apply (triple_pre c (info h = i)); [naive_solver|]. intros Hh.
  destruct (mg_known Hm name i b Hi) as (_ & (_ & _ & Hl) & _).
  eapply (triple_bind c _ _ (λ id s, id = file_id i ∧ s !! (D ++ [name]) = Some h ∧ P s)).
  { eapply triple_fsi, ctriple_reads; [apply creads_check_links|naive_solver|rewrite Hh; eauto|]. rewrite Hh. naive_solver. }
  intros id. apply (triple_pre c (id = file_id i)); [naive_solver|]. intros ->.
  rewrite bool_decide_true by done. cbn [negb].
  eapply (triple_bind c _ _ (λ h' s, info h' = i ∧ P s)).
  { apply triple_fsi. eapply ctriple_set_security; [apply from_sddl_ok, sddl_shared_file|naive_solver|naive_solver|].
    rewrite Hk. intros s (_ & Ho & Hs). exists h. split; [done|]. rewrite !secured_private. split; [exact Hh|].
    by apply prepared_secured. }
  intros h'. eapply triple_bind; [apply triple_at; naive_solver|]. intros [].
  apply (triple_pre c (info h' = i)); [naive_solver|]. intros Hh'.
  eapply (triple_bind c _ _ (λ _, P)); [|intros; by apply triple_ret].
  eapply triple_fsi, ctriple_reads; [apply creads_check_links|naive_solver|rewrite Hh'; eauto|naive_solver].
Qed.

Lemma restrict_files_spec c now attempt files :
  checked_files files →
  triple c (prepared_for attempt) (restrict_files (env now) files) (λ _, prepared_for attempt) phase.
Proof.
  induction 1 as [|[name id] files (i & b & Hi & Hid) _ IH]; cbn [restrict_files]; [by apply triple_ret|].
  cbn in Hi, Hid. subst id. eapply triple_seq; [|exact IH].
  apply triple_catch; [by eapply restrict_file_spec|intros; apply refuses_cut].
Qed.

(** ** The record *)

#[local] Notation record_key := (S ++ ["migration.json"]).
#[local] Notation temporary_key := (S ++ ["migration.json.rewrite-tmp"]).

Lemma staged_record_key now : path_key (staged_record_path (env now)) = record_key.
Proof. unfold staged_record_path. by apply (in_staging_key (env now) root Hplaced RECORD). Qed.

Lemma staged_temporary_key now :
  path_key (with_file_name (staged_record_path (env now)) RECORD_TEMPORARY) = temporary_key.
Proof. by apply (rewrite_temporary_key (env now) root Hplaced). Qed.

Lemma staged_names now :
  file_name (staged_record_path (env now)) = RECORD ∧
  file_name (with_file_name (staged_record_path (env now)) RECORD_TEMPORARY) = RECORD_TEMPORARY.
Proof.
  destruct (placed_joinable _ _ Hplaced) as (_ & _ & H & _). unfold staged_record_path. cbn [me_paths].
  rewrite with_file_name_join by done. split; by apply file_name_join.
Qed.

Lemma record_prefix r b stored r' :
  record_to_vec_pretty r = Ok b → stored `prefix_of` b → record_from_slice stored = Some r' → r' = r.
Proof.
  intros Hb [rest ->] Hr. destruct (decide (rest = [])) as [->|Hne].
  - rewrite app_nil_r in Hb. rewrite (record_round_trip r _ Hb) in Hr. congruence.
  - pose proof (record_torn r _ (length stored) Hb) as Ht. rewrite take_app_length in Ht. rewrite Ht in Hr; [done|].
    rewrite length_app. destruct rest; [done|]. cbn. lia.
Qed.

(** The temporary deleted or made anew in the staging. *)
Lemma staging_temporary_deleted s : staging_tree (sub S s) → staging_tree (sub S (delete temporary_key s)).
Proof.
  intros Ht. destruct (s !! temporary_key) as [o|] eqn:Eo; [|by rewrite delete_id].
  apply (staging_unlinked root rq inst [] _ s o Ht Eo). destruct Ht as (_ & Hw & _).
  destruct (Hw [] _ o Eo) as (_ & _ & _ & H). apply H; [done|]. by right; left.
Qed.

Lemma staging_temporary_made s o :
  staging_tree (sub S s) → shape_ok File (info o) → spelled o = RECORD_TEMPORARY →
  staging_tree (sub S (<[temporary_key := o]> (delete temporary_key s))).
Proof.
  intros Ht (Hl & Hd & _) Hs. apply staging_temporary_deleted in Ht.
  eapply (staging_insert rq inst _ _ [] "migration.json.rewrite-tmp" o Ht (λ r, sub_insert S _ o _ r)).
  - destruct Ht as ((os & Hos & (_ & Hdir) & _) & _). by exists os.
  - unfold named. by rewrite Hs.
  - done.
  - intros p. rewrite sub_delete, decide_True by done. done.
  - done.
  - done.
Qed.

(** The record replaced. *)
Lemma staging_record_made s o r b :
  staging_tree (sub S s) → shape_ok File (info o) → spelled o = RECORD → contents o = b →
  record_to_vec_pretty r = Ok b → ours r →
  staging_tree (sub S (<[record_key := o]> (delete temporary_key s))).
Proof.
  intros Ht (Hl & Hd & _) Hs Hb Hv Hr. apply staging_temporary_deleted in Ht.
  eapply (staging_insert rq inst _ _ [] "migration.json" o Ht (λ r, sub_insert S _ o _ r)).
  - destruct Ht as ((os & Hos & (_ & Hdir) & _) & _). by exists os.
  - unfold named. by rewrite Hs.
  - done.
  - intros p Hp. destruct Ht as (_ & Hw & _). destruct (Hw [] _ p Hp) as (_ & _ & _ & H). apply H; [done|]. by left.
  - done.
  - intros _ r' Hr'. rewrite Hb, (record_round_trip r b Hv) in Hr'. by injection Hr' as <-.
Qed.

Lemma parent_there_snoc (s : Store) d n :
  d ≠ [] → parent_there s (d ++ [n]) = match s !! d with Some o => is_directory (info o) | None => false end.
Proof. intros H. unfold parent_there. rewrite removelast_last. by destruct d. Qed.

Lemma staging_not_nil k : S ++ k ≠ [].
Proof. by destruct root. Qed.

Lemma staging_self_not_nil : S ≠ [].
Proof. by destruct root. Qed.

Lemma rewrite_spec c now r (P Q I : Store → Prop) :
  ours r → (∀ s, P s → unoccupied S s ∨ staging_tree (sub S s)) →
  (∀ s, P s → I s) → (∀ s, Q s → I s) →
  (∀ s s', P s → staging_tree (sub S s) → (∀ k, k ≠ temporary_key → s' !! k = s !! k) →
     staging_tree (sub S s') → I s') →
  (∀ s s', P s → (∀ k, k ≠ record_key → k ≠ temporary_key → s' !! k = s !! k) →
     staging_tree (sub S s') → record_at r (sub S s') → Q s') →
  (c = true → ∀ s, P s → ∃ o, s !! record_key = Some o ∧ in_custody File configuration o) →
  triple c P (rewrite (env now) (staged_record_path (env now)) r) (λ _, Q) I.
Proof.
  intros Hr HS HI HQI HIt HQ Hc. destruct (record_writes r) as [b Hb]. destruct (staged_names now) as [N1 N2].
  assert (∀ s, P s → is_Some (s !! S) → staging_tree (sub S s)) as HS'.
  { intros s Hs [o Ho]. destruct (HS s Hs) as [Hu|Ht]; [|done]. specialize (Hu []). rewrite app_nil_r in Hu. congruence. }
  assert (∀ s x, P s → s !! (S ++ [x]) ≠ None → staging_tree (sub S s)) as HS''.
  { intros s x Hs Hx. destruct (HS s Hs) as [Hu|Ht]; [|done]. by rewrite Hu in Hx. }
  unfold rewrite. eapply (triple_bind c _ _ (λ x s, x = b ∧ P s)).
  { rewrite Hb. apply triple_of; [|done|done]. intros s x Hs [= <-]. done. }
  intros x. apply (triple_pre c (x = b)); [naive_solver|]. intros ->.
  apply triple_fs, ctriple_bounded; [|naive_solver|naive_solver].
  assert (record_key ≠ temporary_key) as Hne by (intros E; by apply app_inv_head in E).
  apply ctriple_replace; rewrite ?staged_record_key, ?staged_temporary_key, ?N1, ?N2.
  - done.
  - naive_solver.
  - intros s [_ Hs]. destruct (HS s Hs) as [Hu|Ht]; [by rewrite delete_id; [apply HI|apply Hu]|].
    eapply HIt; [exact Hs|done| |by apply staging_temporary_deleted]. intros k Hk. by rewrite lookup_delete_ne.
  - intros s t [_ Hs] Hsh Hsp Hp. assert (staging_tree (sub S s)) as Ht.
    { apply HS'; [done|]. rewrite parent_there_snoc in Hp by apply staging_self_not_nil.
      rewrite lookup_delete_ne in Hp by apply snoc_ne. by destruct (s !! S). }
    eapply HIt; [exact Hs|done| |by apply staging_temporary_made]. intros k Hk.
    by rewrite lookup_insert_ne, lookup_delete_ne.
  - intros s o o' [_ Hs] Ho Hic (Hsh & Hd & Hcb & Hsp). rewrite N1 in Hsp.
    assert (staging_tree (sub S s)) as Ht by (apply (HS'' s "migration.json"); [done|congruence]).
    eapply HQ; [exact Hs| |by apply (staging_record_made s o' r b)|].
    + intros k Hk1 Hk2. by rewrite lookup_insert_ne, lookup_delete_ne.
    + exists o'. unfold sub. rewrite lookup_insert_eq. split; [done|]. split.
      * split; [done|]. rewrite Hd. apply Hic.
      * rewrite Hcb. by apply record_round_trip.
  - intros Ht s [_ Hs]. destruct (Hc Ht s Hs) as (o & Ho & Hic). split; [by exists o|].
    assert (staging_tree (sub S s)) as Htr by (apply (HS'' s "migration.json"); [done|congruence]). split.
    + intros t Htt. destruct Htr as (_ & Hw & _). destruct (Hw [] _ t Htt) as (_ & _ & _ & H). apply H; [done|]. by right; left.
    + rewrite parent_there_snoc by apply staging_self_not_nil. rewrite lookup_delete_ne by apply snoc_ne.
      destruct Htr as ((os & Hos & (_ & Hdir) & _) & _). unfold sub in Hos. rewrite app_nil_r in Hos. by rewrite Hos.
Qed.

(** ** The staging cleared *)

Lemma creads_symlink path : creads (symlink_metadata path) (λ s i, info <$> s !! path_key path = Some i).
Proof.
  intros w. unfold symlink_metadata, cbind, call_fault. destruct (call_faults w) as [|[f|] fs] eqn:Ef; cbn.
  - split_and!; [done| |].
    + intros i w'. destruct (objects w !! path_key path); cbn; [by intros [= <- _]|done].
    + intros Hq i Hi. exists w. by rewrite Hi.
  - assert (quiet w → False) as Hn by (intros [? _]; congruence).
    destruct (is_not_found (win32_error f)); cbn; split_and!; try done; try (intros Hq; by destruct Hn).
    intros i w'. destruct (objects w !! path_key path); cbn; [by intros [= <- _]|done].
  - split_and!; [done| |intros [? _]; congruence].
    intros i w'. destruct (objects w !! path_key path); cbn; [by intros [= <- _]|done].
Qed.

Lemma clearing_phase r l s : clearing r l s → phase s.
Proof. intros ((H & _) & _). by left. Qed.

Lemma record_other r s s' :
  s' !! record_key = s !! record_key → record_at r (sub S s) → record_at r (sub S s').
Proof. intros H (o & Ho & Hx). exists o. unfold sub in *. by rewrite H. Qed.

(** One child gone. *)
Lemma clearing_gone r x l s s' :
  clearing r (x :: l) s → lowercase x ≠ "migration.json" →
  staging_only root s s' → s' !! S = s !! S → staging_tree (sub S s') → s' !! record_key = s !! record_key →
  (∀ n, is_Some (s' !! (S ++ [n])) → n ≠ lowercase x ∧ is_Some (s !! (S ++ [n]))) → clearing r l s'.
Proof.
  intros (H1 & H2 & H3 & H4) Hx Ho HS Ht Hrec Hc. split_and!; [by eapply shut_staging_kept|done|by eapply record_other|].
  intros n Hn. destruct (Hc n Hn) as [Hne Hn']. destruct (H4 n Hn') as [->|Hin]; [by left|right].
  rewrite fmap_cons in Hin. by apply elem_of_cons in Hin as [->|Hin].
Qed.

Lemma below_child_ne n m : n ≠ m → below (S ++ [n]) (S ++ [m]) = false.
Proof. intros H. by apply sibling_self. Qed.

Lemma delete_staged_spec c now r x l (P : Store → Prop) :
  plain_name x = true → lowercase x ≠ "migration.json" → (∀ s, P s → clearing r (x :: l) s) →
  (c = true → ∀ s, P s → is_Some (s !! (S ++ [lowercase x]))) →
  ctriple c P (delete_staged (join_path (staging (me_paths (env now))) x))
    (λ _ s', ∃ s, P s ∧ clearing r l s' ∧ ∀ n, n ≠ lowercase x → s' !! (S ++ [n]) = s !! (S ++ [n])) phase.
Proof.
  intros Hpl Hx HP Hc. cbn [me_paths].
  assert (path_key (join_path (staging paths) x) = S ++ [lowercase x]) as Hk
    by (by apply (in_staging_key (env now) root Hplaced)).
  assert (∀ s, P s → phase s) as HI by (intros s Hs; by eapply clearing_phase, HP).
  set (y := lowercase x) in *.
  apply ctriple_bounded; [|done|naive_solver (eapply clearing_phase; eauto)].
  eapply (ctriple_bind c _ _ (λ i s, info <$> s !! (S ++ [y]) = Some i ∧ P s)).
  { apply ctriple_map_err. eapply ctriple_reads; [apply creads_symlink|done| |]; rewrite ?Hk; [|naive_solver].
    intros Ht s Hs. destruct (Hc Ht s Hs) as [o ->]. by exists (info o). }
  intros i. apply ctriple_map_err. destruct (is_directory i && negb (reparse_point i)) eqn:Ei.
  - apply ctriple_remove_dir_all; rewrite ?Hk; [naive_solver| | |].
    + intros s [Hi Hs] _. exists s. pose proof (HP s Hs) as Hcl. split; [done|]. split.
      * eapply (clearing_gone r x l s); [done|done|apply staging_only_removed| | | |].
        -- by rewrite remove_tree_lookup, above_child.
        -- apply staging_removed; [done|]. by destruct Hcl as (_ & ? & _).
        -- rewrite remove_tree_lookup, below_child_ne by done. done.
        -- intros n [o Hn]. rewrite remove_tree_lookup in Hn. destruct (below (S ++ [y]) (S ++ [n])) eqn:Eb; [done|].
           split; [|eauto]. intros ->. by rewrite below_self in Eb.
      * intros n Hn. rewrite remove_tree_lookup, below_child_ne by congruence. done.
    + intros s n [_ Hs]. left. destruct (HP s Hs) as (Hsh & Ht & _).
      assert (shut (delete_all (take n (descendants (S ++ [y]) s)) s)) as (? & _); [|done].
      assert (∀ k, k ∈ take n (descendants (S ++ [y]) s) → below (S ++ [y]) k = true) as Hb.
      { intros k Hin. apply elem_of_take in Hin as (j & Hin & _). by apply list_elem_of_lookup_2, elem_of_descendants in Hin as [? _]. }
      apply (shut_staging_kept s); [done| | |by apply staging_cut].
      * intros k Hk'. rewrite delete_all_lookup. case_decide as Hin; [|done]. apply Hb, below_spec in Hin as [r' ->].
        by rewrite <- app_assoc, below_app in Hk'.
      * rewrite delete_all_lookup. case_decide as Hin; [|done]. apply Hb in Hin. by rewrite above_child in Hin.
    + intros _ s [Hi _]. by destruct (s !! (S ++ [y])).
  - apply ctriple_remove_file; rewrite ?Hk; [naive_solver| |].
    + intros s o [Hi Hs] Ho Hd. exists s. pose proof (HP s Hs) as Hcl. split; [done|]. split.
      * eapply (clearing_gone r x l s); [done|done|apply staging_only_delete| | | |].
        -- rewrite lookup_delete_ne; [done|]. apply snoc_ne.
        -- destruct Hcl as (_ & Ht & _). by apply (staging_unlinked root rq inst [] y s o).
        -- rewrite lookup_delete_ne; [done|]. intros E. apply app_inv_head in E. by injection E.
        -- intros n [z Hn]. destruct (decide (n = y)) as [->|Hne]; [by rewrite lookup_delete_eq in Hn|].
           rewrite lookup_delete_ne in Hn; [eauto|]. intros E. apply app_inv_head in E. by injection E as ->.
      * intros n Hn. rewrite lookup_delete_ne; [done|]. intros E. apply app_inv_head in E. by injection E as ->.
    + intros _ s [Hi Hs]. destruct (s !! (S ++ [y])) as [o|] eqn:Eo; [|done]. injection Hi as <-. exists o. split; [done|].
      destruct (HP s Hs) as (_ & (_ & Hw & _) & _). destruct (Hw [] y o Eo) as (_ & Hl & _).
      rewrite Hl, andb_true_r in Ei. done.
Qed.

Lemma clear_entries_spec c now r l (P : Store → Prop) :
  Forall (λ x, plain_name x = true) l → NoDup (lowercase <$> l) → (∀ s, P s → clearing r l s) →
  (c = true → ∀ s x, P s → x ∈ l → is_Some (s !! (S ++ [lowercase x]))) →
  ctriple c P (clear_entries (env now) l) (λ _, clearing r []) phase.
Proof.
  intros Hpl. revert P. induction Hpl as [|x l Hx Hpl IH]; intros P Hnd HP Hc; cbn [clear_entries].
  { intros w Hq Hw. split; [done|]. by apply HP. }
  rewrite fmap_cons, NoDup_cons in Hnd. destruct Hnd as [Hxl Hnd].
  destruct (eq_ignore_ascii_case x RECORD) eqn:Er.
  - apply eq_ignore_lowercase in Er. apply IH; [done| |].
    + intros s Hs. destruct (HP s Hs) as (H1 & H2 & H3 & H4). split_and!; try done. intros n Hn.
      destruct (H4 n Hn) as [->|Hin]; [by left|]. rewrite fmap_cons in Hin. apply elem_of_cons in Hin as [->|Hin]; [by left|by right].
    + intros Ht s y Hs Hy. apply Hc; [done|done|by right].
  - assert (lowercase x ≠ "migration.json") as Hne.
    { intros E. apply not_true_iff_false in Er. by apply Er, eq_ignore_lowercase. }
    eapply ctriple_bind; [apply (delete_staged_spec c now r x l P); [done|done|done|]|].
    + intros Ht s Hs. apply Hc; [done|done|by left].
    + intros []. apply IH; [done|naive_solver|]. intros Ht s' y (s & Hs & _ & Hsame) Hy. rewrite Hsame.
      * apply Hc; [done|done|by right].
      * intros E. apply Hxl. rewrite <- E. by apply list_elem_of_fmap_2.
Qed.

Lemma staging_named s n o : staging_tree (sub S s) → s !! (S ++ [n]) = Some o → named n o.
Proof. intros (_ & Hw & _) Ho. by destruct (Hw [] n o Ho) as (? & _). Qed.

Lemma staging_directory s : staging_tree (sub S s) → ∃ o, s !! S = Some o ∧ is_directory (info o) = true.
Proof. intros ((o & Ho & (_ & Hd) & _) & _). exists o. unfold sub in Ho. by rewrite app_nil_r in Ho. Qed.

Lemma clear_staged_spec c now r :
  ctriple c (λ s, shut s ∧ staging_tree (sub S s) ∧ record_at r (sub S s)) (clear_staged (env now))
    (λ _, clearing r []) phase.
Proof.
  unfold clear_staged. cbn [me_paths].
  eapply (ctriple_bind c _ _ (λ l s, l = listing S s ∧ shut s ∧ staging_tree (sub S s) ∧ record_at r (sub S s))).
  { eapply ctriple_reads; [apply creads_entries| | |]; rewrite ?(placed_staging _ _ Hplaced).
    - intros s ((H & _) & _). by left.
    - intros _ s (_ & Ht & _). eexists. split; [by apply staging_directory|done].
    - intros s l H [_ ->]. done. }
  intros l w Hq (-> & Hsh & Ht & Hr). set (s0 := objects w) in *.
  assert (∀ n o, s0 !! (S ++ [n]) = Some o → named n o) as Hn by (intros; by apply (staging_named s0)).
  apply (clear_entries_spec c now r (listing S s0) (λ s, s = s0)); [| | | |exact Hq|done].
  - apply Forall_forall. intros x Hx. by apply list_elem_of_filter in Hx as [? _].
  - by apply listing_distinct.
  - intros s ->. split_and!; try done. intros n [o Ho]. right.
    destruct (listing_complete S s0 n o Hn Ho) as [Hin <-]. by apply list_elem_of_fmap_2.
  - intros _ s x -> Hx. destruct (elem_of_listing S s0 x Hn Hx) as (o & Ho & _). by exists o.
Qed.

(** Only the record is left. *)
Lemma tree_wf_first t n k : tree_wf t → is_Some (t (n :: k)) → is_Some (t [n]).
Proof.
  intros Hw. induction k as [|m k IH] using rev_ind; [done|]. intros [o Ho]. apply IH.
  change (n :: k ++ [m]) with ((n :: k) ++ [m]) in Ho. destruct (Hw _ _ _ Ho) as (_ & _ & (p & Hp & _) & _). by exists p.
Qed.

Lemma clearing_holds r s : clearing r [] s → holds (take 2 (staged_spec r)) (sub S s).
Proof.
  intros (_ & Ht & (o & Ho & Hc & Hr) & Hn). destruct Ht as ((os & Hos & Hcs) & Hw & _). split.
  - intros k Φ Hin. cbn in Hin. apply elem_of_cons in Hin as [[= -> ->]|Hin]; [eauto|].
    apply list_elem_of_singleton in Hin. injection Hin as -> ->. eauto.
  - intros k Hk. right. destruct k as [|n k]; [by left|].
    pose proof (tree_wf_first _ _ _ Hw Hk) as H1. destruct (Hn n H1) as [->|Hin]; [|by apply not_elem_of_nil in Hin].
    destruct k as [|m k]; [by right; left|]. exfalso.
    destruct (Hw [] _ o Ho) as (_ & _ & _ & Hd). specialize (Hd eq_refl ltac:(by left)).
    change ("migration.json" :: m :: k) with (["migration.json"] ++ m :: k) in Hk.
    rewrite (staging_leaf _ _ o (m :: k) Hw Ho Hd ltac:(done)) in Hk. by destruct Hk.
Qed.

(** ** The staging made *)

Lemma staged_phase l s : staged l s → phase s.
Proof. intros ((H & _) & _). by left. Qed.

Lemma holds_snoc l t t' k (Φ : Object → Prop) o :
  holds l t → (∀ r, t' r = if decide (r = k) then Some o else t r) → k ∉ l.*1 → Φ o → holds (l ++ [(k, Φ)]) t'.
Proof.
  intros [H1 H2] Ht' Hk HΦ. split.
  - intros j Ψ Hin. rewrite Ht'. apply elem_of_app in Hin as [Hin|Hin].
    + rewrite decide_False; [by apply H1|]. intros ->. apply Hk. by apply (list_elem_of_fmap_2 fst) in Hin.
    + apply list_elem_of_singleton in Hin. injection Hin as -> ->. rewrite decide_True by done. eauto.
  - intros j. rewrite Ht', fmap_app, elem_of_app. case_decide as E.
    + intros _. right; right. subst j. by left.
    + intros Hj. destruct (H2 j Hj); naive_solver.
Qed.

Lemma place_free l path k n s :
  place l path k n → staged l s → s !! path_key path = None ∧ parent_there s (path_key path) = true ∧
  ∃ p, sub S s k = Some p ∧ is_directory (info p) = true.
Proof.
  intros Hp (_ & _ & H1 & H2). destruct (place_parent Hp) as (Ψ & Hin & HΨ).
  destruct (H1 k Ψ Hin) as (p & Hk & HΨp). specialize (HΨ p HΨp). rewrite (place_key Hp).
  split_and!; [|rewrite app_assoc, parent_there_snoc by apply staging_not_nil; unfold sub in Hk; by rewrite Hk|eauto].
  destruct (s !! (S ++ k ++ [n])) as [o|] eqn:Eo; [|done]. exfalso.
  destruct (H2 (k ++ [n]) ltac:(by exists o)) as [E|E]; [|by apply (place_new Hp)].
  apply (app_inj_tail k []) in E as [_ E]. by apply (place_other Hp).
Qed.

Lemma staged_insert l path k n s o (Φ : Object → Prop) :
  place l path k n → staged l s → reparse_point (info o) = false → spelled o = file_name path →
  (k = [] → n = "migration.json" → is_directory (info o) = false ∧
     ∀ r, record_from_slice (contents o) = Some r → ours r) →
  shut (<[path_key path := o]> s) ∧ staging_tree (sub S (<[path_key path := o]> s)) ∧
  (Φ o → holds (l ++ [(k ++ [n], Φ)]) (sub S (<[path_key path := o]> s))).
Proof.
  intros Hp Hs Hl Hsp Hrec. destruct (place_free l path k n s Hp Hs) as (Hn & _ & p & Hpar & Hdir).
  pose proof Hs as (Hsh & Ht & Hh). rewrite (place_key Hp) in *.
  assert (staging_tree (sub S (<[S ++ k ++ [n] := o]> s))) as Ht'.
  { eapply (staging_insert rq inst _ _ k n o Ht (λ r, sub_insert S _ o _ r)).
    - eauto.
    - destruct (place_name Hp) as [N1 N2]. unfold named. by rewrite Hsp.
    - done.
    - intros q Hq. unfold sub in Hq. congruence.
    - intros Hk Hin. apply elem_of_cons in Hin as [E|Hin]; [by apply Hrec|].
      apply list_elem_of_singleton in Hin. by destruct (place_other Hp).
    - intros E. apply (app_inj_tail k []) in E as [-> ->]. by apply Hrec. }
  split_and!; [|done|].
  - eapply shut_staging_kept; [done|apply staging_only_insert| |done].
    rewrite lookup_insert_ne; [done|]. intros E. rewrite <- (app_nil_r S) in E at 2. apply app_inv_head in E. by destruct k.
  - intros HΦ. eapply holds_snoc; [done|intros r; apply sub_insert|apply (place_new Hp)|done].
Qed.

Lemma stage_file_spec c l path k n sddl d b (Φ : Object → Prop) :
  place l path k n → from_sddl_text sddl = Ok d → (∀ o, fresh_object false path d b o → Φ o) →
  (k = [] → n = "migration.json" → ∀ stored r, stored `prefix_of` b → record_from_slice stored = Some r → ours r) →
  ctriple c (staged l) (create_new_file path sddl b) (λ _, staged (l ++ [(k ++ [n], Φ)])) phase.
Proof.
  intros Hp Hd HΦ Hrec.
  assert (∀ s o stored, staged l s → stored `prefix_of` b → fresh_object false path d stored o →
    shut (<[path_key path := o]> s) ∧ staging_tree (sub S (<[path_key path := o]> s)) ∧
    (Φ o → holds (l ++ [(k ++ [n], Φ)]) (sub S (<[path_key path := o]> s)))) as Hmade.
  { intros s o stored Hs Hpre ((Hl & Hdir & _) & _ & Hcb & Hsp & _). apply staged_insert; try done.
    intros Hk Hn. split; [done|]. intros r. rewrite Hcb. by apply Hrec. }
  eapply ctriple_create_file; [by apply from_sddl_ok|by apply staged_phase| | |].
  - intros s o Hs _ _ Ho. destruct (Hmade s o b Hs ltac:(done) Ho) as (H1 & H2 & H3). split_and!; auto.
  - intros s o stored Hs _ _ Hpre Ho. destruct (Hmade s o stored Hs Hpre Ho) as ((H1 & _) & _). by left.
  - intros _ s Hs. by destruct (place_free l path k n s Hp Hs) as (? & ? & _).
Qed.

Lemma stage_directory_spec c l path k n sddl d (Φ : Object → Prop) :
  place l path k n → n ≠ "migration.json" → from_sddl_text sddl = Ok d → (∀ o, fresh_object true path d [] o → Φ o) →
  ctriple c (staged l) (create_new_directory path sddl) (λ _, staged (l ++ [(k ++ [n], Φ)])) phase.
Proof.
  intros Hp Hn Hd HΦ. eapply ctriple_create_directory; [by apply from_sddl_ok|by apply staged_phase| |].
  - intros s o Hs _ _ Ho. pose proof Ho as ((Hl & _) & _ & _ & Hsp & _).
    destruct (staged_insert l path k n s o Φ Hp Hs Hl Hsp ltac:(done)) as (H1 & H2 & H3). split_and!; auto.
  - intros _ s Hs. by destruct (place_free l path k n s Hp Hs) as (? & ? & _).
Qed.

(** *** The staging directory and its record *)

Lemma create_staging_spec c :
  ctriple c (λ s, shut s ∧ unoccupied S s) (create_new_directory (staging paths) PRIVATE_DIRECTORY)
    (λ _, staged [([], in_custody Directory configuration)]) phase.
Proof.
  pose proof (placed_staging _ _ Hplaced) as Hk. destruct (placed_names _ _ Hplaced) as (_ & Hn & _).
  eapply ctriple_create_directory; [apply from_sddl_ok, sddl_private_directory|intros s [(H & _) _]; by left| |].
  - rewrite Hk. intros s o [Hs Hu] _ _ (Hsh & Hd & _ & Hsp & _). rewrite Hn in Hsp.
    assert (∀ k, sub S (<[S := o]> s) k = if decide (k = []) then Some o else None) as Hsub.
    { intros k. unfold sub. case_decide as E; [subst k; rewrite app_nil_r; apply lookup_insert_eq|].
      rewrite lookup_insert_ne; [apply Hu|]. intros E'. rewrite <- (app_nil_r S) in E' at 1. by apply app_inv_head in E'. }
    assert (in_custody Directory configuration o) as Hic.
    { split; [done|]. rewrite Hd. apply shared_configuration. }
    assert (staging_tree (sub S (<[S := o]> s))) as Ht.
    { split_and!; [exists o; by rewrite Hsub| |].
      - intros k n x. rewrite Hsub. case_decide as E; [by destruct k|done].
      - intros x r. by rewrite Hsub. }
    split_and!; [|done|].
    + eapply (shut_staging s); [done| | |by right].
      * pose proof (staging_only_insert root s [] o) as H. by rewrite app_nil_r in H.
      * intros x. rewrite lookup_insert_eq. intros [= <-]. unfold named. by rewrite Hsp.
    + split.
      * intros k Φ Hin. apply list_elem_of_singleton in Hin. injection Hin as -> ->. exists o. by rewrite Hsub.
      * intros k [x Hx]. rewrite Hsub in Hx. case_decide as E; [|done]. subst k. right. by left.
  - rewrite Hk. intros _ s [((((o & Ho & (_ & Hd) & _) & _) & _) & _) Hu]. split.
    + specialize (Hu []). by rewrite app_nil_r in Hu.
    + unfold parent_there. rewrite removelast_last. destruct root as [|a rt] eqn:Er; [done|]. by rewrite Ho.
Qed.

Lemma in_staging_place l now name k :
  plain_name name = true → lowercase name ≠ "migration.json.rewrite-tmp" → k = lowercase name →
  (∃ Ψ, ([], Ψ) ∈ l ∧ ∀ o, Ψ o → is_directory (info o) = true) → [k] ∉ l.*1 →
  place l (join_path (staging (me_paths (env now))) name) [] k.
Proof.
  intros Hpl Hne -> Hpar Hnew. destruct (placed_joinable _ _ Hplaced) as (_ & _ & Hjs & _). split; try done.
  - by apply (in_staging_key (env now) root Hplaced).
  - unfold named. cbn [spelled new_object me_paths]. by rewrite file_name_join.
Qed.

Lemma in_identity_place l now name k :
  plain_name name = true → lowercase name ≠ "migration.json.rewrite-tmp" → k = lowercase name →
  (∃ Ψ, (["identity"], Ψ) ∈ l ∧ ∀ o, Ψ o → is_directory (info o) = true) → ["identity"; k] ∉ l.*1 →
  place l (join_path (join_path (staging (me_paths (env now))) IDENTITY_DIRECTORY) name) ["identity"] k.
Proof.
  intros Hpl Hne -> Hpar Hnew. destruct (placed_joinable _ _ Hplaced) as (_ & _ & Hjs & _). split; try done.
  - rewrite (in_identity_key (env now) root Hplaced) by done. by rewrite <- app_assoc.
  - unfold named. cbn [spelled new_object me_paths]. rewrite file_name_join; [done| |done].
    by apply joinable_join; [|cbn; lia].
Qed.

Lemma custody_directory policy o : in_custody Directory policy o → is_directory (info o) = true.
Proof. by intros [[_ ?] _]. Qed.

Lemma fresh_shared path b o :
  fresh_object false path sharing b o → file_with configuration b o.
Proof. intros (Hs & Hd & Hb & _). split; [|done]. split; [done|]. rewrite Hd. apply shared_configuration. Qed.

Lemma fresh_private path b o :
  fresh_object false path (private_to 0 system_sid [system_sid]) b o → file_with system_only b o.
Proof. intros (Hs & Hd & Hb & _). split; [|done]. split; [done|]. rewrite Hd. apply private_system_only. Qed.

(** *** The staged files *)

Lemma stage_files_spec c now r :
  triple c (staged (take 2 (staged_spec r)))
    (stage_files toml_value toml_to_string pem_encode hostname (env now) verified)
    (λ _, staged (staged_spec r)) phase.
Proof.
  unfold stage_files. cbn [verified v_config_text v_certificates v_certificate v_sealed_key v_identity stage_identity].
  assert (∃ Ψ : Object → Prop, ([] : Path, Ψ) ∈ take 2 (staged_spec r) ∧ ∀ o, Ψ o → is_directory (info o) = true) as Htop.
  { exists (in_custody Directory configuration). split; [by left|]. apply custody_directory. }
  eapply (triple_bind c _ _ (λ x s, x = generated inst ∧ staged (take 2 (staged_spec r)) s)).
  { cbn [me_paths]. rewrite (mg_generated Hm). apply triple_of; [|apply staged_phase|done]. intros s x Hs [= <-]. done. }
  intros config. apply (triple_pre c (config = generated inst)); [naive_solver|]. intros ->.
  eapply triple_seq; [apply triple_at; naive_solver (eapply staged_phase; eauto)|].
  eapply triple_seq.
  { eapply (triple_weaken c (staged (take 2 (staged_spec r)))); [|naive_solver|intros x s H; exact H|done].
    apply triple_fsi, (stage_file_spec c _ _ [] "agent.toml" _ sharing _ (file_with configuration (bytes_of_text (generated inst))));
      [apply in_staging_place; [done|done|done|done|absent]|apply sddl_shared_file|intros o; apply fresh_shared|done]. }
  eapply triple_seq; [apply triple_at, staged_phase|]. eapply triple_seq.
  { apply triple_fsi, (stage_file_spec c _ _ [] "server-ca.pem" _ sharing _
      (file_with configuration (bytes_of_text (anchor_pem pem_encode (anchor_certificates inst)))));
      [apply in_staging_place; [done|done|done| |absent]|apply sddl_shared_file|intros o; apply fresh_shared|done].
    exists (in_custody Directory configuration). split; [present|apply custody_directory]. }
  eapply triple_seq; [apply triple_at, staged_phase|]. eapply triple_seq.
  { apply triple_fsi, (stage_directory_spec c _ _ [] "identity" _ (private_to 3 system_sid [system_sid]) (in_custody Directory system_only));
      [apply in_staging_place; [done|done|done| |absent]|done|apply sddl_identity_directory|].
    - exists (in_custody Directory configuration). split; [present|apply custody_directory].
    - intros o (Hs & Hd & _). split; [done|]. rewrite Hd. apply private_system_only. }
  assert (∀ l : list (Path * (Object → Prop)), (["identity"], in_custody Directory system_only) ∈ l →
    ∃ Ψ : Object → Prop, (["identity"] : Path, Ψ) ∈ l ∧ ∀ o, Ψ o → is_directory (info o) = true) as Hid.
  { intros l Hl. exists (in_custody Directory system_only). split; [done|apply custody_directory]. }
  eapply triple_seq; [apply triple_at, staged_phase|]. eapply triple_seq.
  { apply triple_fsi, (stage_file_spec c _ _ ["identity"] "cert.pem" _ (private_to 0 system_sid [system_sid]) _
      (file_with system_only (taken inst CERT)));
      [apply in_identity_place; [done|done|done|apply Hid; present|absent]|apply sddl_identity_file
      |intros o; apply fresh_private|done]. }
  eapply triple_seq; [apply triple_at, staged_phase|]. eapply triple_seq.
  { apply triple_fsi, (stage_file_spec c _ _ ["identity"] "key.dat" _ (private_to 0 system_sid [system_sid]) _
      (file_with system_only (taken inst KEY)));
      [apply in_identity_place; [done|done|done|apply Hid; present|absent]|apply sddl_identity_file
      |intros o; apply fresh_private|done]. }
  eapply triple_seq; [apply triple_at, staged_phase|]. eapply triple_seq.
  { apply triple_fsi, (stage_file_spec c _ _ ["identity"] "identity.json" _ (private_to 0 system_sid [system_sid]) _
      (file_with system_only (taken inst IDENTITY)));
      [apply in_identity_place; [done|done|done|apply Hid; present|absent]|apply sddl_identity_file
      |intros o; apply fresh_private|done]. }
  apply triple_ret. intros s H. exact H.
Qed.

(** *** The staged set checked *)

Lemma distinct_ok l acc : NoDup (acc ++ l) → distinct_certificates (Ok <$> l) acc = Ok (acc ++ l).
Proof.
  revert acc. induction l as [|d l IH]; intros acc Hnd; cbn [fmap list_fmap distinct_certificates]; [by rewrite app_nil_r|].
  cbn [map_err]. rewrite decide_False.
  - rewrite IH; by rewrite <- app_assoc.
  - apply NoDup_app in Hnd as (_ & H & _). intros Hin. apply (H d Hin). by left.
Qed.

Lemma distinct_nodup l acc out : distinct_certificates l acc = Ok out → NoDup acc → NoDup out.
Proof.
  revert acc. induction l as [|x l IH]; intros acc; cbn [distinct_certificates]; [by intros [= <-]|].
  destruct x as [d|]; [|done]. cbn [map_err]. intros H Hacc. apply (IH _ H). case_decide as Hin; [done|].
  apply NoDup_app. split_and!; [done| |apply NoDup_singleton]. intros y Hy Hy'. apply list_elem_of_singleton in Hy' as ->. done.
Qed.

Lemma staged_anchor_ok :
  check_anchor pem_certificates (bytes_of_text (anchor_pem pem_encode (anchor_certificates inst))) (rq_fingerprints rq)
  = Ok (anchor_certificates inst).
Proof.
  pose proof (mg_anchor Hm) as H. unfold check_anchor in H |- *. rewrite (mg_pem Hm).
  destruct (distinct_certificates (pem_certificates (taken inst ANCHOR)) []) as [out|] eqn:E; [|done].
  case_decide as Hfp; [|done]. injection H as ->. apply distinct_nodup in E; [|apply NoDup_nil_2].
  rewrite distinct_ok by done. by rewrite decide_True.
Qed.

(** What the identity's files hold. *)
Lemma identity_facts : ∃ p secret,
  identity_from_str (text_of_bytes (taken inst IDENTITY)) = Ok p ∧ valid_utf8 (taken inst IDENTITY) = true ∧
  unseal (taken inst KEY) = Ok secret ∧ (length secret =? KEY_LEN)%nat = true ∧
  pubkey_fingerprint (public_key_bytes (from_secret_bytes secret)) = pi_agent_pubkey_fingerprint p ∧
  valid_utf8 (taken inst CERT) = true ∧
  check_consistency pem_certificates (text_of_bytes (taken inst CERT)) (public_key_bytes (from_secret_bytes secret))
    (pi_agent_id p) = Ok tt ∧
  pi_agent_id p = console_agent_id inst ∧
  pubkey_fingerprint (public_key_bytes (from_secret_bytes secret)) = console_key_fingerprint inst.
Proof.
  pose proof (mg_identity Hm) as H. unfold check_identity in H.
  destruct (identity_from_slice (taken inst IDENTITY)) as [p|] eqn:Ep; [|done]. cbn [ok_or] in H.
  pose proof (mg_identity_text Hm) as Hu. pose proof (identity_slice_text _ _ Ep Hu) as Hp.
  destruct (unseal (taken inst KEY)) as [secret|]; [|done]. cbn [map_err] in H.
  destruct (length secret =? KEY_LEN)%nat eqn:El; [|done]. cbn [negb] in H.
  case_bool_decide as Ef; [|done]. cbn [negb] in H.
  destruct (valid_utf8 (taken inst CERT)); [|done]. cbn [negb] in H.
  destruct (certificates_in pem_certificates _) as [l|]; [|done]. cbn [map_err] in H.
  destruct (negb (length l =? 1)%nat); [done|].
  destruct (check_consistency _ _ _ _) as [[]|] eqn:Ec; [|done]. cbn [map_err] in H.
  destruct (parse_rfc3339 _); [|done]. cbn [ok_or] in H. case_match; [done|]. injection H as H1 H2.
  exists p, secret. split_and!; done.
Qed.

Lemma file_lookup_3 (m : Store) c k i bc bk bi :
  NoDup [c; k; i] → contents <$> m !! path_key c = Some bc → contents <$> m !! path_key k = Some bk →
  contents <$> m !! path_key i = Some bi →
  files_at [c; k; i] m !! c = Some bc ∧ files_at [c; k; i] m !! k = Some bk ∧ files_at [c; k; i] m !! i = Some bi.
Proof.
  rewrite !NoDup_cons, !not_elem_of_cons. intros ((N1 & N2 & _) & (N3 & _) & _) Hc Hk Hi. unfold files_at. cbn [omap list_omap].
  destruct (m !! path_key c) as [oc|]; [|done]. destruct (m !! path_key k) as [ok|]; [|done].
  destruct (m !! path_key i) as [oi|]; [|done]. cbn in *. injection Hc as ->. injection Hk as ->. injection Hi as ->.
  split_and!.
  - apply lookup_insert_eq.
  - rewrite lookup_insert_ne by congruence. apply lookup_insert_eq.
  - rewrite lookup_insert_ne, lookup_insert_ne by congruence. apply lookup_insert_eq.
Qed.

Lemma load_staged config enr c k i (s : Store) :
  enrollment config = Some enr → cert_path enr = c → key_path enr = k → identity_path enr = i → NoDup [c; k; i] →
  contents <$> s !! path_key c = Some (taken inst CERT) → contents <$> s !! path_key k = Some (taken inst KEY) →
  contents <$> s !! path_key i = Some (taken inst IDENTITY) →
  ∀ w, calm w → store w = s → ∃ id w',
    loading config (installed_load pem_certificates config) w = (Ok id, w') ∧ calm w' ∧
    agent_id id = console_agent_id inst ∧
    pubkey_fingerprint (public_key_bytes (keypair id)) = console_key_fingerprint inst.
Proof.
  intros He <- <- <- Hnd Hc Hk Hi w (Hq & Hwa & Hsr) Hs.
  destruct (file_lookup_3 s _ _ _ _ _ _ Hnd Hc Hk Hi) as (Lc & Lk & Li).
  destruct identity_facts as (p & secret & F1 & F2 & F3 & F4 & F5 & F6 & F7 & F8 & F9).
  unfold loading, installed_load, load_identity, identity_paths. unfold store in Hs. rewrite He, Hs, Hsr.
  unfold ibind, of_result, check_io, fs_read_to_string, fs_exists, fs_try_exists, fs_read, ibind, io_fault, iret, ok_or, of_result, file_at.
  cbn [io_faults files locate]. rewrite Lc. cbn [io_faults files locate map_err]. rewrite F6. cbn [map_err io_faults files locate].
  rewrite Li, bool_decide_true by done. cbn [negb io_faults files locate map_err]. rewrite Li, F2. cbn [map_err].
  rewrite F1. cbn [map_err io_faults files locate]. rewrite Lk. cbn [map_err io_faults files locate]. rewrite F3. cbn [map_err].
  rewrite F4. cbn [negb]. rewrite decide_True by done. cbn [map_err client_certificate_pem keypair agent_id].
  rewrite F7. cbn [map_err]. eexists _, _. split; [reflexivity|]. split_and!; done.
Qed.

Lemma whole_at r s k Φ : whole r (sub S s) → (k, Φ) ∈ staged_spec r → ∃ o, s !! (S ++ k) = Some o ∧ Φ o.
Proof. intros [H _] Hin. exact (H k Φ Hin). Qed.

(** A check or a read that finds what is staged. *)
Lemma check_staged_object r path kind policy k Φ :
  path_key path = S ++ k → (k, Φ) ∈ staged_spec r → (∀ o, Φ o → in_custody kind policy o) →
  ctriple true (λ s, whole r (sub S s)) (check path kind policy) (λ _ s, whole r (sub S s)) (λ _, True).
Proof.
  intros Hk Hin HΦ. eapply ctriple_reads; [apply creads_check|done| |done]. rewrite Hk. intros _ s Hs. exists tt.
  destruct (whole_at r s k Φ Hs Hin) as (o & Ho & Hp). eauto.
Qed.

Lemma read_staged_object r path policy k b :
  path_key path = S ++ k → (k, file_with policy b) ∈ staged_spec r →
  ctriple true (λ s, whole r (sub S s)) (read_checked path policy) (λ x s, x = Some b ∧ whole r (sub S s)) (λ _, True).
Proof.
  intros Hk Hin. eapply ctriple_reads; [apply creads_read_checked|done| |]; rewrite Hk.
  - intros _ s Hs. destruct (whole_at r s k _ Hs Hin) as (o & Ho & Hc & <-). rewrite Ho. exists (Some (contents o)). done.
  - intros s x Hs. destruct (whole_at r s k _ Hs Hin) as (o & Ho & Hc & <-). rewrite Ho. by intros [-> _].
Qed.

Lemma check_staged_calm now r :
  ours r → triple true (λ s, whole r (sub S s))
    (check_staged toml_value toml_config pem_certificates (env now) r) (λ _ _, True) (λ _, True).
Proof.
  intros (Hasks & Haid & Hkf). destruct (mg_loads Hm) as (Hutf & config & Hload & Hinst).
  assert (list_to_set (mr_fingerprints r) = rq_fingerprints rq) as Hfp.
  { unfold asks_for in Hasks. apply andb_true_iff in Hasks as [_ H]. by apply bool_decide_eq_true in H. }
  pose proof Hinst as (enr & _ & _ & Henr & _).
  pose proof (λ n, in_staging_key (env now) root Hplaced n) as Kn. cbn [me_paths] in Kn.
  pose proof (λ n, in_identity_key (env now) root Hplaced n) as Ki. cbn [me_paths] in Ki.
  unfold check_staged. cbn [me_paths me_custody mc_configuration mc_identity migration_custody_system check_staged_files IDENTITY_FILES].
  eapply triple_seq.
  { apply triple_fs, (check_staged_object r _ _ _ [] (in_custody Directory configuration)); [|present|done].
    by rewrite app_nil_r, (placed_staging _ _ Hplaced). }
  eapply triple_seq.
  { apply triple_fs. eapply check_staged_object; [apply staged_record_key|present|]. by intros o [? _]. }
  eapply triple_bind; [apply triple_fs; eapply read_staged_object; [by apply (Kn CONFIG)|present]|]. intros read.
  eapply (triple_bind true _ _ (λ x s, x = bytes_of_text (generated inst) ∧ whole r (sub S s))).
  { apply triple_of; [|done|by intros s [-> _]]. intros s x [-> Hs] [= <-]. done. }
  intros b. eapply (triple_bind true _ _ (λ x s, x = generated inst ∧ whole r (sub S s))).
  { apply triple_of; [|done|].
    - intros s x [-> Hs]. unfold is_utf8 in Hutf. rewrite Hutf. intros [= <-]. by rewrite text_of_bytes_of_text.
    - intros s [-> _] _. unfold is_utf8 in Hutf. by rewrite Hutf. }
  intros text. eapply (triple_bind true _ _ (λ x s, x = config ∧ whole r (sub S s))).
  { apply triple_of; [|done|by intros s [-> _]; rewrite Hload]. intros s x [-> Hs]. rewrite Hload. by intros [= <-]. }
  intros config'. apply (triple_pre true (config' = config)); [naive_solver|]. intros ->.
  eapply (triple_seq true _ _ (λ s, whole r (sub S s))).
  { rewrite (proj2 (check_installed_config_ok _ _ _) Hinst). apply triple_of; naive_solver. }
  eapply triple_bind; [apply triple_fs; eapply read_staged_object; [by apply (Kn ANCHOR)|present]|]. intros read'.
  eapply (triple_bind true _ _ (λ x s, x = bytes_of_text (anchor_pem pem_encode (anchor_certificates inst)) ∧ whole r (sub S s))).
  { apply triple_of; [|done|by intros s [-> _]]. intros s x [-> Hs] [= <-]. done. }
  intros anchor. eapply (triple_bind true _ _ (λ _ s, whole r (sub S s))).
  { rewrite Hfp. apply triple_of; [naive_solver|done|]. intros s [-> _] _. by rewrite staged_anchor_ok. }
  intros _. eapply triple_seq.
  { apply triple_fs. eapply check_staged_object; [by apply (Kn IDENTITY_DIRECTORY)|present|done]. }
  eapply (triple_seq true _ _ (λ s, whole r (sub S s))).
  { apply triple_fs.
    eapply ctriple_bind; [eapply check_staged_object; [by rewrite (Ki CERT), <- app_assoc|present|by intros o [? _]]|]. intros ?.
    eapply ctriple_bind; [eapply check_staged_object; [by rewrite (Ki KEY), <- app_assoc|present|by intros o [? _]]|]. intros ?.
    eapply ctriple_bind; [eapply check_staged_object; [by rewrite (Ki IDENTITY), <- app_assoc|present|by intros o [? _]]|]. intros ?.
    intros w Hq Hs. split; [done|exact Hs]. }
  eapply (triple_bind true _ _ (λ x s, x = enr ∧ whole r (sub S s))).
  { rewrite Henr. apply triple_of; [|done|done]. intros s x Hs [= <-]. done. }
  intros enr'. apply (triple_pre true (enr' = enr)); [naive_solver|]. intros ->.
  eapply (triple_bind true _ _ (λ id s, agent_id id = mr_agent_id r ∧
    pubkey_fingerprint (public_key_bytes (keypair id)) = mr_key_fingerprint r)).
  - apply triple_map_err. intros w Hq [_ Hs].
    destruct (whole_at r (store w) ["identity"; "cert.pem"] _ Hs ltac:(present)) as (oc & Hc & _ & Bc).
    destruct (whole_at r (store w) ["identity"; "key.dat"] _ Hs ltac:(present)) as (ok & Hk & _ & Bk).
    destruct (whole_at r (store w) ["identity"; "identity.json"] _ Hs ltac:(present)) as (oi & Hi & _ & Bi).
    edestruct load_staged as (id & w' & -> & Hcalm & A1 & A2);
      [reflexivity|reflexivity|reflexivity|reflexivity| | | | |by apply Hq|reflexivity|].
    + rewrite !NoDup_cons, !not_elem_of_cons. split_and!; try (apply not_elem_of_nil || apply NoDup_nil_2);
        intros E; apply (f_equal path_key) in E; cbn [cert_path key_path identity_path] in E;
        rewrite ?(Ki CERT), ?(Ki KEY), ?(Ki IDENTITY) in E by done;
        apply app_inv_head in E; done.
    + cbn [cert_path]. rewrite (Ki CERT), <- app_assoc by done. rewrite <- Bc. exact (f_equal (fmap contents) Hc).
    + cbn [key_path]. rewrite (Ki KEY), <- app_assoc by done. rewrite <- Bk. exact (f_equal (fmap contents) Hk).
    + cbn [identity_path]. rewrite (Ki IDENTITY), <- app_assoc by done. rewrite <- Bi. exact (f_equal (fmap contents) Hi).
    + split; [done|]. split; congruence.
  - intros id. apply (triple_pre true (agent_id id = mr_agent_id r ∧
      pubkey_fingerprint (public_key_bytes (keypair id)) = mr_key_fingerprint r)); [naive_solver|].
    intros [E1 E2]. rewrite E1, E2, !bool_decide_true by done. by apply triple_ret.
Qed.

Lemma check_staged_spec c now r (P : Store → Prop) :
  ours r → (∀ s, P s → whole r (sub S s)) → (∀ s, P s → phase s) →
  triple c P (check_staged toml_value toml_config pem_certificates (env now) r) (λ _, P) phase.
Proof.
  intros Hr HP HI. apply triple_inspects; [apply check_staged_inspects|done|]. intros _ w Hq Hs.
  pose proof (check_staged_calm now r Hr w (λ _, Hq) (HP _ Hs)) as H.
  destruct (check_staged toml_value toml_config pem_certificates (env now) r w) as [[x|e] w']; [|by destruct H].
  destruct H as [H _]. eauto.
Qed.

(** ** The record and the staged set *)

Lemma new_record_ours checked account :
  ours (new_record rq checked verified account) ∧ mr_reversal_pending (new_record rq checked verified account) = false.
Proof.
  split; [|done]. split_and!; [|done|done]. unfold asks_for. cbn [mr_choice mr_fingerprints new_record].
  rewrite bool_decide_true by done. apply bool_decide_eq_true. unfold in_order.
  apply set_eq. intros x. rewrite elem_of_list_to_set, merge_sort_Permutation. set_solver.
Qed.

(** Continued: the record rewritten, the rest cleared. *)
Lemma continue_staging_spec c now attempt r :
  ours r → is_some (recorded attempt) = true →
  triple c (prepared_for attempt)
    (at_point WriteRecord ;;* mmap_err Failure (rewrite (env now) (staged_record_path (env now)) r) ;;*
     fsi (clear_staged (env now)))
    (λ _, staged (take 2 (staged_spec r))) phase.
Proof.
  intros Hr Ha. eapply triple_seq; [apply triple_at, prepared_phase|]. eapply triple_seq.
  - apply triple_map_err, (rewrite_spec c now r _ (λ s, shut s ∧ staging_tree (sub S s) ∧ record_at r (sub S s))).
    + done.
    + intros s (((_ & _ & _ & H) & _) & _). exact H.
    + apply prepared_phase.
    + intros s ((H & _) & _). by left.
    + intros s s' (Hs & _) _ Hk Ht. left. eapply ready_staging_kept; [apply Hs| | |done].
      * intros k Hb. apply Hk. intros ->. by rewrite below_app in Hb.
      * apply Hk. intros E. rewrite <- (app_nil_r S) in E at 1. by apply app_inv_head in E.
    + intros s s' (Hs & _) Hk Ht Hrec. split_and!; [|done|done]. eapply shut_staging_kept; [done| | |done].
      * intros k Hb. apply Hk; intros ->; by rewrite below_app in Hb.
      * apply Hk; intros E; rewrite <- (app_nil_r S) in E at 1; by apply app_inv_head in E.
    + intros _ s (_ & _ & Hc). destruct (recorded attempt) as [r0|] eqn:E0; [|done].
      destruct (Hc r0 E0) as (o & Ho & Hic & _). by exists o.
  - eapply triple_weaken; [apply triple_fsi, clear_staged_spec|intros s H; exact H| |done].
    intros [] s Hs. pose proof Hs as (H1 & H2 & _). split_and!; [done|done|by apply clearing_holds].
Qed.

(** Otherwise the directory made, with its record. *)
Lemma begin_staging_spec c now attempt r :
  ours r → is_some (recorded attempt) = false →
  triple c (prepared_for attempt)
    (at_point CreateStaging ;;*
     fsi (create_new_directory (staging (me_paths (env now))) (mc_closed_directory_sddl (me_custody (env now)))) ;;*
     at_point WriteRecord ;;*
     do? b := mof (map_err (λ e, Failure ("write " +:+ staged_record_path (env now) +:+ ": " +:+ e)) (record_to_vec_pretty r)) in
     fsi (create_new_file (staged_record_path (env now)) (mc_shared_file_sddl (me_custody (env now))) b))
    (λ _, staged (take 2 (staged_spec r))) phase.
Proof.
  intros Hr Ha. destruct (record_writes r) as [b Hb].
  eapply triple_seq; [apply triple_at, prepared_phase|]. eapply triple_seq.
  { eapply triple_weaken; [apply triple_fsi, create_staging_spec| |intros x s H; exact H|done].
    intros s (Hs & Hu & _). split; [done|]. by apply Hu, is_some_recorded. }
  eapply triple_seq; [apply triple_at, staged_phase|].
  eapply (triple_bind c _ _ (λ x s, x = b ∧ staged [([], in_custody Directory configuration)] s)).
  { rewrite Hb. apply triple_of; [|apply staged_phase|done]. intros s x Hs [= <-]. done. }
  intros x. apply (triple_pre c (x = b)); [naive_solver|]. intros ->.
  eapply triple_weaken; [|intros s [_ H]; exact H|intros x s H; exact H|done].
  apply triple_fsi, (stage_file_spec c [([], in_custody Directory configuration)] _ [] "migration.json" _ sharing _
    (λ o, in_custody File configuration o ∧ record_from_slice (contents o) = Some r)).
  - unfold staged_record_path. apply in_staging_place; [done|done|done| |absent].
    exists (in_custody Directory configuration). split; [present|apply custody_directory].
  - apply sddl_shared_file.
  - intros o Ho. destruct (fresh_shared _ _ _ Ho) as [H1 ->]. split; [done|]. by apply record_round_trip.
  - intros _ _ stored r' Hp Hr'. by rewrite (record_prefix r b stored r' Hb Hp Hr').
Qed.

Lemma record_and_stage_spec c now attempt checked :
  checked_ok checked →
  triple c (prepared_for attempt)
    (record_and_stage toml_value toml_config toml_to_string pem_certificates pem_encode hostname (env now)
       rq attempt checked verified)
    (λ r s, ours r ∧ mr_reversal_pending r = false ∧ staged (staged_spec r) s) phase.
Proof.
  intros (_ & _ & Hacc). unfold record_and_stage. eapply (triple_bind c _ _ (λ _, prepared_for attempt)).
  { apply triple_of; [done|apply prepared_phase|]. intros s _ _. unfold enrolling_account.
    destruct (ck_enrolling_account checked) as [sid|]; [|done]. rewrite (Hacc sid eq_refl). unfold sid_text.
    pose proof (mg_account Hm) as Ha. by destruct (sid_to_string (account_of inst)). }
  intros account. set (r := new_record rq checked verified account).
  destruct (new_record_ours checked account) as [Hr Hp]. fold r in Hr, Hp.
  eapply (triple_seq c _ _ (staged (take 2 (staged_spec r)))).
  { destruct (is_some (recorded attempt)) eqn:Ha; [by apply continue_staging_spec|by apply begin_staging_spec]. }
  eapply triple_seq; [apply stage_files_spec|]. eapply triple_seq; [apply triple_at, staged_phase|].
  eapply triple_seq.
  { apply triple_map_err, check_staged_spec; [done| |apply staged_phase]. by intros s (_ & _ & H). }
  apply triple_ret. intros s H. done.
Qed.

End Steps.
