(* ===== verification/MigrationRecovery.v ===== *)
(** * Every start leads on ([service/migration.rs])

    From a console installation, any number of starts, each cut off or failed anywhere,
    leaves one of the phases of [MigrationPhases.v]; a start that says the migration is
    committed has left it [migrated]; and from each phase at most two starts in which
    no call fails commit it. One walk through the migration gives both, by the flag of
    the triples of [MigrationLogic.v]. *)

From stdpp Require Import sorting.
From S2P Require Import Prelude FileTree IpAddr Types Errors Network Config Signing Tls TlsConfig X509.
From S2P Require Import Transport Enrollment Identity Custody CustodyTree Installed Service.
From S2P Require Import MigrationChecks MigrationRun MigrationToy MigrationSafety MigrationLogic MigrationPhases MigrationStaging.
Open Scope Z_scope.

Section Recovery.
Context {W : WireCrypto} {K : KeyBytes W} {St : SecureStore} {J : IdentityJson} {M : MigrationJson}.
Context {Sec : Win32Security} {Laws : SddlLaws Sec} {MLaws : MigrationJsonLaws J M}.
Context {toml_value : string → Result Toml TomlError} {toml_config : string → Result AgentConfig TomlError}.
Context {toml_to_string : Toml → Result string string}.
Context {pem_certificates : bytes → list (Result bytes PemError)}.
Context {pem_encode : list bytes → string} {parse_rfc3339 : string → option Z}.
Context {hostname : Result string string}.
Context {program_data : string} {root : Path} {Hplaced : placed (under program_data) root}.
Context {rq : Request} {inst : Installation} {deadline : Z}.
Context {Hm : migratable toml_value toml_config toml_to_string pem_certificates pem_encode parse_rfc3339 hostname
                program_data rq inst deadline}.

#[local] Notation paths := (under program_data).
#[local] Notation env now := {| me_paths := paths; me_custody := migration_custody_system; me_now := now |}.
#[local] Notation D := (root ++ ["agent"]).
#[local] Notation S := (root ++ ["agent.migrating"]).
#[local] Notation L := (root ++ ["agent.legacy"]).
#[local] Notation closing := (private_to 3 system_sid [system_sid; administrators_sid]).
#[local] Notation sharing := (private_to 0 system_sid [system_sid; administrators_sid]).

#[local] Notation ready := (ready root rq inst).
#[local] Notation between := (between pem_encode root rq inst).
#[local] Notation migrated := (migrated pem_encode root rq inst).
#[local] Notation phase := (phase pem_encode root rq inst).
#[local] Notation staging_tree := (staging_tree rq inst).
#[local] Notation staged_spec := (staged_spec pem_encode inst).
#[local] Notation whole := (whole pem_encode inst).
#[local] Notation ours := (ours rq inst).
#[local] Notation shut := (shut root rq inst).
#[local] Notation console_names := (console_names inst).
#[local] Notation checked_files := (checked_files inst).
#[local] Notation checked_ok := (checked_ok inst).
#[local] Notation continues := (continues root).
#[local] Notation prepared_for := (prepared_for root rq inst).
#[local] Notation verified := (verified inst).
#[local] Notation clearing := (clearing root rq inst).
#[local] Notation staged := (staged root rq inst).
#[local] Notation place := (place root).
#[local] Notation record_key := (S ++ ["migration.json"]).
#[local] Notation temporary_key := (S ++ ["migration.json.rewrite-tmp"]).

(** ** The renames *)

Lemma root_parent n s : root_ok root s → parent_there s (root ++ [n]) = true.
Proof.
  intros ((o & Ho & (_ & Hd) & _) & _). unfold parent_there. rewrite removelast_last.
  destruct root as [|a rt]; [done|]. by rewrite Ho.
Qed.

Lemma check_none_appeared_ok now files names :
  (∀ n, n ∈ names → n ∈ files.*1) → check_none_appeared (env now) files names = Ok tt.
Proof.
  induction names as [|n names IH]; [done|]. intros H. cbn [check_none_appeared].
  assert (existsb (λ f : string * FileId, bool_decide (f.1 = n)) files = true) as ->.
  { apply existsb_exists. specialize (H n ltac:(by left)). apply list_elem_of_fmap in H as (f & -> & Hf).
    exists f. split; [by apply list_elem_of_In|]. by apply bool_decide_eq_true. }
  apply IH. intros m Hin. apply H. by right.
Qed.

Lemma check_names_again_spec c now checked (P : Store → Prop) :
  checked_ok checked → (∀ s, P s → ready s) →
  triple c P (check_names_again (env now) checked) (λ _, P) P.
Proof.
  intros (_ & Hn & _) HP. unfold check_names_again. eapply (triple_seq c _ _ P).
  { eapply triple_reads; [apply mreads_root_entries|done| |done]. intros _ s Hs. exists tt.
    pose proof (HP s Hs) as (((o & Ho & (_ & Hd) & _) & _) & _). split; [by exists o|].
    eapply (root_entries_ready (inst := inst)); [by apply HP|done]. }
  eapply (triple_bind c _ _ (λ names s, console_names names ∧ P s)).
  { eapply triple_reads; [apply mreads_data_root_names|done| |].
    - intros _ s Hs. destruct (data_root_listing now s (HP s Hs)) as [Hl _].
      destruct (ready_data_root s (HP s Hs)) as (o & Ho & (_ & Hd) & _). eexists. split; [by exists o|exact Hl].
    - intros s names Hs [_ Hl]. destruct (data_root_listing now s (HP s Hs)) as [Hl' Hc]. rewrite Hl in Hl'.
      injection Hl' as ->. done. }
  intros names. apply (triple_pre c (console_names names)); [naive_solver|]. intros [Hd Hin].
  rewrite check_none_appeared_ok by (intros n ?; by apply Hn, Hin). rewrite missing_name_none by done.
  eapply (triple_seq c _ _ P); apply triple_of; naive_solver.
Qed.

Lemma first_rename_spec c now r checked :
  checked_ok checked → ours r → mr_reversal_pending r = false →
  triple c (staged (staged_spec r))
    (mcatch (at_point FirstRename ;;* mmap_err Failure (check_names_again (env now) checked) ;;*
             fsi (rename (data_root paths) (legacy paths)))
       (cut_in_place (env now) 5 identity_line)) (λ _, between false) phase.
Proof.
  intros Hch Hr Hp. apply triple_catch; [|intros; apply refuses_cut].
  eapply triple_seq; [apply triple_at, staged_phase|]. eapply triple_seq.
  { apply triple_map_err. eapply triple_weaken; [apply check_names_again_spec; [done|]|intros s H; exact H|intros x s H; exact H|].
    - by intros s ((H & _) & _).
    - apply staged_phase. }
  apply triple_fsi, ctriple_rename; rewrite ?(placed_data _ _ Hplaced), ?(placed_legacy _ _ Hplaced).
  - apply staged_phase.
  - intros [] s H. right; left. by exists false.
  - intros s o ((Hrd & Hc1 & Hc2) & _ & Hh) Ho _ _. by eapply ready_first.
  - intros _ s ((Hrd & _) & _). pose proof Hrd as (Hrt & _ & HL & _).
    destruct (ready_data_root s Hrd) as (o & Ho & _). split_and!; [by exists o|done|by apply root_parent].
Qed.

Lemma second_rename_spec c :
  ctriple c (between false) (rename (staging paths) (data_root paths)) (λ _, migrated) (λ s, between false s ∨ migrated s).
Proof.
  apply ctriple_rename; rewrite ?(placed_data _ _ Hplaced), ?(placed_staging _ _ Hplaced).
  - by left.
  - by right.
  - intros s o Hb Ho _ _. by apply between_second.
  - intros _ s (Hrt & _ & HD & _ & _ & Ht & _). destruct (staging_directory s Ht) as (o & Ho & _).
    split_and!; [by exists o|done|by apply root_parent].
Qed.

Lemma temporary_below (s s' : Store) : (∀ k, k ≠ temporary_key → s' !! k = s !! k) → staging_only root s s' ∧ s' !! S = s !! S.
Proof.
  intros H. split.
  - intros k Hb. apply H. intros ->. by rewrite below_app in Hb.
  - apply H. symmetry. apply snoc_ne.
Qed.

Lemma record_below (s s' : Store) :
  (∀ k, k ≠ record_key → k ≠ temporary_key → s' !! k = s !! k) → staging_only root s s' ∧ s' !! S = s !! S.
Proof.
  intros H. split.
  - intros k Hb. apply H; intros ->; by rewrite below_app in Hb.
  - apply H; symmetry; apply snoc_ne.
Qed.

Lemma whole_temporary r (s s' : Store) :
  (∀ k, k ≠ temporary_key → s' !! k = s !! k) → whole r (sub S s) → whole r (sub S s').
Proof.
  intros H [H1 H2]. split.
  - intros k Φ Hin. destruct (H1 k Φ Hin) as (o & Ho & HΦ). exists o. split; [|done]. unfold sub. rewrite H; [done|].
    intros E. apply app_inv_head in E as ->. apply (list_elem_of_fmap_2 fst) in Hin. cbn in Hin.
    repeat (apply elem_of_cons in Hin as [?|Hin]; [done|]). by apply not_elem_of_nil in Hin.
  - intros k Hk. destruct (decide (k = ["migration.json.rewrite-tmp"])) as [->|Hne]; [by left|].
    apply H2. unfold sub in *. rewrite <- H; [done|]. intros E. by apply app_inv_head in E.
Qed.

Lemma ours_reversal r b : ours r → ours (with_reversal r b).
Proof. done. Qed.

(** Either side of a rename that may have happened. *)
Definition renaming (s : Store) : Prop := between false s ∨ migrated s.

Lemma renaming_phase s : renaming s → phase s.
Proof. intros [?|?]; [right; left; by exists false|by right; right]. Qed.

(** The reversal recorded. *)
Lemma record_reversal_spec c now r :
  ours r → c = false →
  triple c renaming (rewrite (env now) (staged_record_path (env now)) (with_reversal r true)) (λ _, between true) phase.
Proof.
  intros Hr Hc. apply (rewrite_spec (rq := rq) (inst := inst)).
  - done.
  - intros s [(_ & _ & _ & _ & _ & H & _)|(_ & _ & H & _)]; [by right|by left].
  - apply renaming_phase.
  - intros s H. right; left. by exists true.
  - intros s s' [Hb|(_ & _ & Hu & _)] Ht Hk Ht'.
    + destruct (temporary_below s s' Hk) as [Ho HS]. pose proof Hb as (_ & _ & _ & _ & _ & _ & r' & R1 & R2 & R3 & R4).
      right; left. exists false. eapply between_staging; [done|done|done|done|exact R1|done| |].
      * eapply record_other; [|exact R3]. apply Hk. intros E. by apply app_inv_head in E.
      * intros E. eapply whole_temporary; [exact Hk|by apply R4].
    + destruct (staging_directory s Ht) as (o & Ho & _). specialize (Hu []). rewrite app_nil_r in Hu. congruence.
  - intros s s' Hs Hk Ht' Hrec. destruct (record_below s s' Hk) as [Ho HS]. destruct Hs as [Hb|(_ & _ & Hu & _)].
    + eapply (between_staging pem_encode root rq inst false true s s' (with_reversal r true)); done.
    + destruct (staging_directory s' Ht') as (o & Ho' & _). specialize (Hu []). rewrite app_nil_r in Hu. congruence.
  - by rewrite Hc.
Qed.

(** The record without its reversal, once the data root is back. *)
Lemma clear_reversal_spec now r :
  ours r → triple false ready (rewrite (env now) (staged_record_path (env now)) (with_reversal r false)) (λ _, ready) ready.
Proof.
  intros Hr. apply (rewrite_spec (rq := rq) (inst := inst)); [done| |done|done| | |done].
  - by intros s (_ & _ & _ & H).
  - intros s s' Hs _ Hk Ht. destruct (temporary_below s s' Hk) as [Ho HS]. by eapply ready_staging_kept.
  - intros s s' Hs Hk Ht _. destruct (record_below s s' Hk) as [Ho HS]. by eapply ready_staging_kept.
Qed.

Lemma rename_back_spec c b :
  ctriple c (between b) (rename (legacy paths) (data_root paths)) (λ _, ready) phase.
Proof.
  apply ctriple_rename; rewrite ?(placed_data _ _ Hplaced), ?(placed_legacy _ _ Hplaced).
  - intros s H. right; left. by exists b.
  - intros [] s H. by left.
  - intros s o Hb Ho _ _. by eapply between_back.
  - intros _ s (Hrt & _ & HD & _ & (o & Ho & _) & _). split_and!; [by exists o|done|by apply root_parent].
Qed.

(** A reversal never starts the service; when no call fails, the console layout is back. *)
Lemma reverse_spec {A : Type} c now r cause b w :
  ours r → (c = true → calm w) → between b (store w) →
  ∃ e w', reverse (A := A) (env now) r cause w = (Err e, w') ∧ phase (store w') ∧ (c = true → ready (store w')).
Proof.
  intros Hr Hq Hb. unfold reverse, mbind.
  assert (triple c (between b) (mtry (F := Stop) (at_point RenameBack ;;* fsi (rename (legacy paths) (data_root paths))))
    (λ x s, match x with Ok _ => ready s | Err _ => c = false ∧ phase s end) phase) as H1.
  { apply triple_try. eapply triple_seq; [apply triple_at|apply triple_fsi, rename_back_spec].
    intros s H. right; left. by exists b. }
  specialize (H1 w Hq Hb). cbn [me_paths] in *. destruct (mtry _ w) as [[[[]|[reason|]]|e] w1].
  2, 3: destruct H1 as (_ & Hc & Hp); eexists _, _; (split; [reflexivity|]); split; [done|by rewrite Hc].
  2: { destruct H1 as (Hc & Hp). eexists _, _. split; [reflexivity|]. split; [done|]. by rewrite Hc. }
  destruct H1 as [_ H1].
  assert (triple false ready (mtry (F := Stop) (at_point ClearReversal ;;*
      mmap_err Failure (rewrite (env now) (staged_record_path (env now)) (with_reversal r false))))
    (λ _, ready) ready) as H2.
  { eapply triple_weaken; [apply (triple_try false ready _ (λ _, ready) ready ready)|done| |done].
    - eapply triple_seq; [by apply triple_at|]. by apply triple_map_err, clear_reversal_spec.
    - intros [x|e] s; [done|naive_solver]. }
  specialize (H2 w1 ltac:(done) H1). destruct (mtry _ w1) as [[x|e] w2].
  2: { eexists _, _. split; [reflexivity|]. split; [left|intros _]; apply H2. }
  destruct H2 as [_ H2].
  destruct (refuses_run _ w2 (refuses_in_place (A := A) (env now) 5 (identity_line (cause +:+ "; the commit was reversed"))))
    as (e' & w3 & Ein & E).
  destruct x as [[]|[reason|]].
  3: { eexists _, _. split; [reflexivity|]. split; [by left|done]. }
  all: rewrite Ein.
  all: eexists _, _; split; [reflexivity|]; rewrite E; split; [by left|done].
Qed.

(** ** The commit and the route *)

Lemma commit_spec c now r checked :
  checked_ok checked → ours r → mr_reversal_pending r = false →
  triple c (staged (staged_spec r)) (commit (env now) r checked) (λ _, migrated) phase.
Proof.
  intros Hch Hr Hp. unfold commit. eapply triple_seq; [by apply first_rename_spec|].
  eapply (triple_bind c _ _ (λ x s, match x with Ok _ => migrated s | Err _ => c = false ∧ renaming s end)).
  { apply triple_try. eapply triple_seq; [apply triple_at; by left|apply triple_fsi, second_rename_spec]. }
  intros [[]|[cause|]].
  - by apply triple_ret.
  - apply (triple_pre c (c = false)); [naive_solver|]. intros Hc.
    eapply (triple_bind c _ _ (λ x s, match x with Ok _ => between true s | Err _ => c = false ∧ phase s end)).
    { eapply triple_weaken; [apply (triple_try c renaming _ (λ _, between true) phase phase)|naive_solver|done|done].
      eapply triple_seq; [apply triple_at, renaming_phase|]. by apply triple_map_err, record_reversal_spec. }
    intros [[]|[reason|]]; [|apply triple_err; naive_solver|apply triple_err; naive_solver].
    intros w Hq Hb.
    destruct (reverse_spec (A := unit) c now (with_reversal r true) ("the commit failed (" +:+ cause +:+ ")") true w Hr Hq Hb)
      as (e & w' & -> & H & _). done.
  - apply triple_err. intros s [Hc Hs]. split; [done|by apply renaming_phase].
Qed.

Lemma migrated_data_root s : migrated s → closed_at D s.
Proof.
  intros (_ & _ & _ & _ & _ & r & _ & H & _). destruct (H [] _ ltac:(by left)) as (o & Ho & Hc).
  exists o. unfold sub in Ho. by rewrite app_nil_r in Ho.
Qed.

Lemma check_each_directory_spec c now console l (P : Store → Prop) :
  (c = true → ∀ s, P s → Forall (λ d, closed_at (path_key d) s) l) →
  triple c P (check_each_directory (env now) console l) (λ _, P) P.
Proof.
  induction l as [|d l IH]; intros Hc; cbn [check_each_directory]; [by apply triple_ret|].
  eapply (triple_seq c _ _ P).
  - eapply triple_map_err, triple_fs, ctriple_reads; [apply creads_check_if_exists|done| |done].
    intros Ht s Hs. exists true. specialize (Hc Ht s Hs). apply Forall_cons in Hc as [(o & -> & Hs1 & Hd) _].
    split; [done|]. split; [done|]. by apply configuration_data.
  - apply IH. intros Ht s Hs. specialize (Hc Ht s Hs). by apply Forall_cons in Hc as [_ ?].
Qed.

(** The directories checked again once the migration is committed. *)
Lemma end_spec c now :
  triple c migrated (check_data_directories (env now) false) (λ _, migrated) phase.
Proof.
  eapply triple_weaken; [apply (check_each_directory_spec c now false _ migrated)|done|done|by right; right].
  intros _ s Hs. cbn [me_paths]. pose proof Hs as (_ & Hcl & _).
  repeat constructor; rewrite ?(placed_root _ _ Hplaced), ?(placed_data _ _ Hplaced); [done|by apply migrated_data_root].
Qed.

(** What an interrupted creation left is given up. *)
Lemma staging_given_up c now attempt :
  triple c (λ s, (continues attempt s ∧ (c = true → (attempt = Fresh → unoccupied S s) ∧
                                         (attempt = Interrupted → staging_tree (sub S s)))) ∧
                 (shut s ∨ (c = false ∧ migrated s)))
    match attempt with
    | Interrupted => mcatch (delete_interrupted_staging (env now)) (cut_in_place (env now) 5 identity_line)
    | _ => mret tt
    end
    (λ _ s, continues attempt s ∧ ((shut s ∧ (c = true → prepared_for attempt s)) ∨ (c = false ∧ migrated s))) phase.
Proof.
  destruct attempt as [| |r].
  - apply triple_ret. intros s [[H1 H2] [Hs|Hs]]; (split; [done|]); [left|by right]. split; [done|]. intros Ht.
    split_and!; [done| |done]. intros _. by apply (H2 Ht).
  - apply triple_catch; [|intros; apply refuses_cut].
    eapply triple_weaken; [apply (delete_interrupted_spec (pem_encode := pem_encode) (rq := rq) (inst := inst))| | |done].
    + intros s [[H1 H2] [Hs|Hs]]; [left|by right]. split; [done|]. intros Ht. destruct (H2 Ht) as [_ H3].
      destruct (staging_directory s (H3 eq_refl)) as (o & Ho & _). by exists o.
    + intros [] s [[Hs Hu]|Hs]; (split; [done|]); [left|by right]. split; [done|]. intros _. by split_and!.
  - apply triple_ret. intros s [[H1 H2] [Hs|Hs]]; (split; [done|]); [left|by right]. split; [done|]. intros _. by split_and!.
Qed.

Lemma record_ours r s : ready s → record_at r (sub S s) → ours r.
Proof.
  intros (_ & _ & _ & [Hu|(_ & _ & H)]) (o & Ho & _ & Hr); [|by eapply H]. by rewrite (unoccupied_sub S s) in Hu; rewrite Hu in Ho.
Qed.

Lemma route_spec c now attempt lock :
  (c = true → lock = Ok tt ∧ now ≤ deadline) →
  triple c (λ s, continues attempt s ∧ phase s ∧
      (c = true → ready s ∧ (attempt = Fresh → unoccupied S s) ∧ (attempt = Interrupted → staging_tree (sub S s))))
    (route toml_value toml_config toml_to_string pem_certificates pem_encode parse_rfc3339 hostname (env now) rq attempt lock)
    (λ x s, x = Committed ∧ migrated s) phase.
Proof.
  intros Hc. unfold route.
  set (F := λ s, continues attempt s ∧ (c = true → (attempt = Fresh → unoccupied S s) ∧
                                                  (attempt = Interrupted → staging_tree (sub S s)))).
  eapply (triple_seq c _ _ (λ s, F s ∧ phase s ∧ (c = true → ready s))).
  { eapply triple_weaken; [apply triple_catch; [apply (triple_lock c
      (λ s, F s ∧ phase s ∧ (c = true → ready s)) lock phase)|]|unfold F; naive_solver|naive_solver|done].
    - naive_solver.
    - naive_solver.
    - intros [code line|]; [apply refuses_in_place|apply refuses_err]. }
  eapply triple_seq.
  { apply close_directories_spec. intros s k o Hk [H1 H2].
    assert (below S k = false) as Hb by (destruct Hk as [-> | ->]; [apply above_child|by apply sibling_self]).
    split; [by apply continues_other|]. intros Ht. destruct (H2 Ht) as [H3 H4]. split.
    - intros E j. rewrite lookup_insert_ne; [by apply H3|]. intros ->. by rewrite below_app in Hb.
    - intros E. apply (staging_same rq inst (sub S s)); [|auto]. intros j. by apply sub_insert_other. }
  eapply (triple_seq c _ _ (λ s, continues attempt s ∧
      ((shut s ∧ (c = true → prepared_for attempt s)) ∨ (c = false ∧ migrated s)))).
  { apply staging_given_up. }
  eapply triple_bind; [apply check_what_is_there_spec|]. intros checked.
  apply (triple_pre c (checked_ok checked)); [naive_solver|]. intros Hch.
  apply (triple_pre c (∀ r, recorded attempt = Some r → ours r)).
  { intros s [((Hr & _) & _ & Hcn) _] r Ea. eapply record_ours; [exact Hr|by apply Hcn]. }
  intros Ho. eapply (triple_bind c _ _ (λ x s, prepared_for attempt s ∧ x = verified)).
  { eapply triple_weaken; [apply (read_each_file_spec c now attempt checked (prepared_for attempt))|naive_solver|done|apply prepared_phase].
    - done.
    - by intros s [(? & _) _].
    - intros Ht. by destruct (Hc Ht). }
  intros v. apply (triple_pre c (v = verified)); [naive_solver|]. intros ->.
  eapply (triple_seq c _ _ (prepared_for attempt)).
  { eapply triple_weaken; [apply restrict_files_spec, Hch|naive_solver|done|done]. }
  eapply triple_bind.
  { apply triple_catch; [by apply record_and_stage_spec|intros; apply refuses_cut]. }
  intros r. apply (triple_pre c (ours r ∧ mr_reversal_pending r = false)); [naive_solver|]. intros [Hr Hp].
  eapply (triple_seq c _ _ migrated).
  { eapply triple_weaken; [by apply commit_spec|naive_solver|done|done]. }
  eapply triple_seq; [apply end_spec|]. by apply triple_ret.
Qed.


(** ** The tests a start begins with *)

(** A directory in custody counts; a failed check does not. *)
Lemma counts_spec {E : Type} c now path (P : Store → Prop) I :
  triple c P (counts (E := E) (env now) path)
    (λ b s, P s ∧ (b = true → closed_at (path_key path) s) ∧
            (c = true → closed_at (path_key path) s → b = true)) I.
Proof.
  intros w Hq HP. unfold counts, fs_or. cbn [me_custody mc_configuration migration_custody_system].
  pose proof (creads_check_if_exists path Directory configuration (mfs w)) as (H1 & H2 & H3).
  pose proof (steady_check_if_exists path Directory configuration (mfs w)) as Hs.
  destruct (check_if_exists_within path Directory configuration (mfs w)) as [r u] eqn:Er; cbn [fst snd] in *.
  assert (c = true → calm (with_fs w u)) as Hcalm.
  { intros Ht. destruct (Hq Ht) as (Hw & ? & ?). rewrite (Hs Hw). by split_and!. }
  split; [done|]. unfold store in *. cbn [mfs with_fs]. rewrite H1. split_and!; [done| |].
  - destruct r as [b|e]; [|done]. intros ->. specialize (H2 true u eq_refl). unfold custody_found in H2.
    destruct (objects (mfs w) !! path_key path) as [o|] eqn:Eo; [|done]. exists o. split; [done|]. apply H2.
  - intros Ht (o & Ho & Hc). destruct (H3 (proj1 (Hq Ht)) true) as (u' & Hr & _); [by rewrite Ho|].
    injection Hr as -> _. done.
Qed.

(** When no call fails, a path is there when an object is. *)
Lemma is_there_spec {E : Type} c path (P : Store → Prop) I :
  triple c P (is_there (E := E) path)
    (λ b s, P s ∧ (c = true → b = true ↔ is_Some (s !! path_key path))) I.
Proof.
  intros w Hq HP. unfold is_there. pose proof (creads_symlink path (mfs w)) as (Hs & _).
  destruct c.
  - destruct (Hq eq_refl) as ([Hf Hw] & ? & ?). unfold symlink_metadata, cbind, call_fault in *. rewrite Hf in *.
    cbn [fst snd]. split; [done|]. split; [done|]. intros _. unfold store. cbn [mfs with_fs].
    destruct (objects (mfs w) !! path_key path); cbn; split; try done; by intros [? ?].
  - destruct (symlink_metadata path (mfs w)) as [r u]. cbn in Hs. split; [done|]. unfold store in *. cbn [mfs with_fs].
    by rewrite Hs.
Qed.

Lemma any_there_spec {E : Type} c now names (P : Store → Prop) I :
  Forall (λ n, is_Some (files_of inst !! n)) names →
  triple c P (any_there (E := E) (env now) names)
    (λ b s, P s ∧ (c = true → b = true ↔ ∃ n, n ∈ names ∧ is_Some (s !! (D ++ [n])))) I.
Proof.
  induction 1 as [|n names Hn _ IH]; cbn [any_there].
  { apply triple_ret. intros s Hs. split; [done|]. intros _. split; [done|]. intros (n & Hn & _). by apply not_elem_of_nil in Hn. }
  eapply triple_bind; [apply is_there_spec|]. rewrite file_key by done. intros [].
  - apply triple_ret. intros s [Hs Hi]. split; [done|]. intros Ht. split; [|done]. intros _. exists n.
    split; [by left|]. by apply Hi.
  - intros w Hq [Hs Hi]. specialize (IH w Hq Hs). destruct (any_there (env now) names w) as [[b|e] w'] eqn:Ea; [|done].
    pose proof (any_there_inspects (E := E) (env now) names w) as Hst. rewrite Ea in Hst. cbn in Hst.
    destruct IH as (H1 & H2 & H3). split; [done|]. split; [done|]. intros Ht. rewrite (H3 Ht), <- Hst. split.
    + intros (m & Hm1 & Hm2). exists m. split; [by right|done].
    + intros (m & Hm1 & Hm2). apply elem_of_cons in Hm1 as [->|Hm1]; [|eauto]. by apply Hi in Hm2.
Qed.

(** The staged record: a refused one counts as none. *)
Lemma staged_record_spec c now (P : Store → Prop) :
  triple c P (staged_record (env now))
    (λ x s, P s ∧ (∀ r, x = Some r → record_at r (sub S s)) ∧
            (c = true → ∀ r, record_at r (sub S s) → x = Some r)) P.
Proof.
  intros w Hq HP. unfold staged_record. cbn [me_custody mc_configuration migration_custody_system].
  pose proof (creads_read_checked_within (staged_record_path (env now)) configuration (mfs w)) as (H1 & H2 & H3).
  pose proof (read_checked_quiet (staged_record_path (env now)) configuration (mfs w)) as Hs.
  rewrite staged_record_key in H2, H3.
  destruct (read_checked_within (staged_record_path (env now)) configuration (mfs w)) as [x u] eqn:Er; cbn [fst snd] in *.
  assert (∀ y, x = Ok y → read_found configuration (store w !! record_key) y) as Hfound by (intros y ->; by apply (H2 y u)).
  assert (store (with_fs w u) = store w) as Hst by exact H1.
  assert (c = true → calm (with_fs w u)) as Hcalm.
  { intros Ht. destruct (Hq Ht) as (Hw & ? & ?).
    destruct (Hs Hw) as [[b [= -> ->]]|[reason [= -> ->]]]; by split_and!. }
  assert (c = true → ∀ r, record_at r (sub S (store w)) → ∃ b, x = Ok (Some b) ∧ record_from_slice b = Some r) as Hrec.
  { intros Ht r (o & Ho & Hic & Hr). destruct (H3 (proj1 (Hq Ht)) (Some (contents o))) as (u' & [= -> _] & _); [|eauto].
    unfold sub, store in Ho. by rewrite Ho. }
  destruct x as [[b|]|[reason|reason]].
  - rewrite Hst. split; [done|]. split_and!; [done| |].
    + intros r Hr. specialize (Hfound _ eq_refl). unfold read_found in Hfound.
      destruct (store w !! record_key) as [o|] eqn:Eo; [|done]. destruct Hfound as [[= ->] Hic]. by exists o.
    + intros Ht r Hr. by destruct (Hrec Ht r Hr) as (b' & [= <-] & ?).
  - rewrite Hst. split; [done|]. split_and!; [done|done|]. intros Ht r Hr. by destruct (Hrec Ht r Hr) as (b' & ? & ?).
  - rewrite Hst. split; [|done]. destruct c; [|done]. destruct (Hq eq_refl) as (Hw & _).
    by destruct (Hs Hw) as [[b ?]|[e ?]].
  - rewrite Hst. split; [done|]. split_and!; [done|done|]. intros Ht r Hr. by destruct (Hrec Ht r Hr) as (b' & ? & ?).
Qed.


(** ** Completing, and reversing *)

Lemma record_unique r r' s : record_at r (sub S s) → record_at r' (sub S s) → r = r'.
Proof. intros (o & Ho & _ & Hr) (o' & Ho' & _ & Hr'). congruence. Qed.

Lemma check_recorded_ours request r :
  ours r → request = None ∨ request = Some rq → check_recorded request r = Ok tt.
Proof. intros (Ha & _) [-> | ->]; [done|]. cbn [check_recorded]. by rewrite Ha. Qed.

Lemma between_record b s r : between b s → record_at r (sub S s) → ours r ∧ mr_reversal_pending r = b.
Proof.
  intros (_ & _ & _ & _ & _ & _ & r' & R1 & R2 & R3 & _) Hr. by rewrite (record_unique r r' s Hr R3).
Qed.

#[local] Notation between_the_renames now := (between_the_renames toml_value toml_config pem_certificates (env now)).

(** The staged set taken to the data root. *)
Lemma complete_spec c now r :
  ours r →
  triple c (λ s, between false s ∧ record_at r (sub S s))
    (mtry (F := Stop) (mmap_err Failure (check_staged toml_value toml_config pem_certificates (env now) r) ;;*
           at_point CompleteCommit ;;* fsi (rename (staging paths) (data_root paths))))
    (λ x s, match x with Ok _ => migrated s | Err _ => c = false ∧ phase s end) phase.
Proof.
  intros Hr.
  assert (∀ s, between false s ∧ record_at r (sub S s) → phase s) as HI.
  { intros s [H _]. right; left. by exists false. }
  apply triple_try. eapply triple_seq.
  { apply triple_map_err, check_staged_spec; [done| |done]. intros s [Hb Hrec].
    pose proof Hb as (_ & _ & _ & _ & _ & _ & r' & _ & _ & R3 & R4). rewrite (record_unique r r' s Hrec R3). by apply R4. }
  eapply triple_seq; [by apply triple_at|]. eapply triple_weaken; [apply triple_fsi, second_rename_spec| |done|].
  - by intros s [? _].
  - apply renaming_phase.
Qed.

Lemma between_the_renames_spec c now request lock :
  request = None ∨ request = Some rq → (c = true → lock = Ok tt) →
  triple c (λ s, ∃ b, between b s ∧ (c = true → b = false)) (between_the_renames now request lock)
    (λ x s, x = Committed ∧ migrated s) phase.
Proof.
  intros Hreq Hl. set (P := λ s, ∃ b, between b s ∧ (c = true → b = false)).
  assert (∀ s, P s → phase s) as HP by (intros s (b & H & _); right; left; by exists b).
  unfold MigrationRun.between_the_renames. eapply triple_bind.
  { eapply triple_map_err, triple_weaken; [apply (staged_record_spec c now P)|done|intros x s H; exact H|done]. }
  intros found. eapply (triple_bind c _ _ (λ r s, record_at r (sub S s) ∧ P s)).
  { apply triple_of; [|naive_solver|].
    - intros s r (Hs & H1 & _) Hr. split; [|done]. apply H1. by apply ok_or_ok in Hr.
    - intros s (Hs & _ & H2) Ht. destruct Hs as (b & (_ & _ & _ & _ & _ & _ & r & _ & _ & R3 & _) & _).
      by rewrite (H2 Ht r R3). }
  intros r. apply (triple_pre c (ours r)).
  { intros s [Hr (b & Hb & _)]. by apply (between_record b s r). }
  intros Hr. rewrite (check_recorded_ours request r Hr Hreq).
  eapply (triple_seq c _ _ (λ s, record_at r (sub S s) ∧ P s)); [apply triple_of; naive_solver|].
  eapply (triple_seq c _ _ (λ s, record_at r (sub S s) ∧ P s)).
  { eapply triple_weaken; [by apply (triple_lock c (λ s, record_at r (sub S s) ∧ P s) lock phase); [|naive_solver]|done|naive_solver|done]. }
  destruct (mr_reversal_pending r) eqn:Ep.
  - intros w Hq (Hrec & b & Hb & Hbc). destruct (between_record b _ r Hb Hrec) as [_ Eb].
    destruct (reverse_spec (A := Prepared) c now r "a reversal was interrupted" b w Hr Hq Hb) as (e & w' & -> & Hph & _).
    split; [|done]. destruct c; [|done]. specialize (Hbc eq_refl). congruence.
  - eapply triple_bind.
    { eapply triple_weaken; [by apply (complete_spec c now r)| |done|done].
      intros s (Hrec & b & Hb & _). destruct (between_record b s r Hb Hrec) as [_ Eb]. rewrite Ep in Eb. by subst b. }
    intros [[]|[reason|]]; [|apply triple_err; naive_solver|apply triple_err; naive_solver].
    eapply triple_seq; [apply end_spec|]. by apply triple_ret.
Qed.

(** A recorded reversal is carried out. *)
Lemma between_the_renames_reverses now request w :
  request = None ∨ request = Some rq → calm w → between true (store w) →
  ∃ e w', between_the_renames now request (Ok tt) w = (Err e, w') ∧ ready (store w').
Proof.
  intros Hreq Hq Hb. unfold MigrationRun.between_the_renames, mbind, mmap_err.
  pose proof Hb as (_ & _ & _ & _ & _ & _ & r & R1 & R2 & R3 & _).
  pose proof (staged_record_spec true now (between true) w (λ _, Hq) Hb) as H.
  destruct (staged_record (env now) w) as [[x|e] w1]; [|by destruct H]. destruct H as (Hq1 & Hb1 & Hx & Hx').
  cbn [map_err]. pose proof (Hb1) as (_ & _ & _ & _ & _ & _ & r1 & S1 & S2 & S3 & _).
  rewrite (Hx' eq_refl r1 S3). cbn [ok_or mof]. rewrite (check_recorded_ours request r1 S1 Hreq). cbn [mof take_lock].
  rewrite S2. set (w2 := {| mfs := mfs w1; watch_answers := _; std_reads := _; actions := _ |}).
  destruct (reverse_spec (A := Prepared) true now r1 "a reversal was interrupted" true w2 S1) as (e & w' & -> & _ & Hrd);
    [intros _; exact (Hq1 eq_refl)|done|]. eauto.
Qed.

(** ** The start *)

#[local] Notation prepare now := (prepare toml_value toml_config toml_to_string pem_certificates pem_encode
  parse_rfc3339 hostname (env now)).

(** What a start promises: the phase it leaves, migrated when it says so, and that it
    commits when no call fails. *)
Definition promised (c : bool) (x : Prepared) (s : Store) : Prop :=
  phase s ∧ (x = Committed → migrated s) ∧ (c = true → x = Committed).

Lemma promised_committed c x s : x = Committed ∧ migrated s → promised c x s.
Proof. intros [-> H]. split_and!; [by right; right|done|done]. Qed.

Section Start.
Context (c : bool) (now : Z) (request : option Request) (lock : Result unit Stop).
Context (Hreq : request = None ∨ request = Some rq).
Context (Hcalm : c = true → request = Some rq ∧ lock = Ok tt ∧ now ≤ deadline).

Lemma route_promised attempt :
  triple c (λ s, continues attempt s ∧ phase s ∧
      (c = true → ready s ∧ (attempt = Fresh → unoccupied S s) ∧ (attempt = Interrupted → staging_tree (sub S s))))
    (route toml_value toml_config toml_to_string pem_certificates pem_encode parse_rfc3339 hostname (env now) rq attempt lock)
    (promised c) phase.
Proof.
  eapply triple_weaken; [apply route_spec|done|intros x s; apply promised_committed|done]. naive_solver.
Qed.

(** A start beside a console layout with a staging. *)
Lemma beside_spec :
  triple c (λ s, phase s ∧ (c = true → ready s ∧ staging_tree (sub S s)))
    (beside_a_console_layout toml_value toml_config toml_to_string pem_certificates pem_encode parse_rfc3339 hostname
       (env now) request lock) (promised c) phase.
Proof.
  unfold beside_a_console_layout. eapply triple_bind.
  { apply triple_catch; [|intros; apply refuses_in_place].
    eapply triple_weaken; [apply (staged_record_spec c now (λ s, phase s ∧ (c = true → ready s ∧ staging_tree (sub S s))))
      |done|intros x s H; exact H|naive_solver]. }
  intros found. assert (request = None → c = false) as Hnone by (destruct c; naive_solver).
  destruct Hreq as [E|E]; rewrite E.
  { destruct found; (apply triple_refuses; [apply refuses_in_place|]); naive_solver. }
  destruct found as [r|].
  - destruct (asks_for r rq) eqn:Ea.
    + eapply triple_weaken; [apply (route_promised (Continued r))| |done|done].
      intros s ((Hp & Hc) & Hr & _). split_and!; [|done|].
      * intros r' [= <-]. by apply Hr.
      * intros Ht. by destruct (Hc Ht).
    + apply triple_refuses; [apply refuses_in_place|]. intros s ((Hp & Hc) & Hr & _). split; [|done].
      destruct c; [|done]. destruct (Hc eq_refl) as [Hrd _]. specialize (Hr r eq_refl).
      destruct (record_ours r s Hrd Hr) as (? & _). congruence.
  - eapply triple_weaken; [apply (route_promised Interrupted)| |done|done]. intros s ((Hp & Hc) & _).
    split_and!; [done|done|]. intros Ht. by destruct (Hc Ht).
Qed.

(** The record of a data root found beside a legacy directory is a committed migration's. *)
Lemma data_root_record_spec (P : Store → Prop) :
  (∀ s, P s → phase s ∧ closed_at L s ∧ (c = true → migrated s)) →
  triple c P (data_root_record (env now))
    (λ x s, P s ∧ (is_Some x → migrated s) ∧ (∀ r, x = Some r → migrated s → ours r) ∧ (c = true → is_Some x)) P.
Proof.
  intros HP.
  assert (∀ s, P s → c = true → ∃ o r, s !! (D ++ ["migration.json"]) = Some o ∧ in_custody File configuration o ∧
            record_from_slice (contents o) = Some r ∧ ours r) as Hcm.
  { intros s Hs Ht. destruct (HP s Hs) as (_ & _ & Hmi). destruct (Hmi Ht) as (_ & _ & _ & _ & _ & r & Hr & Hw).
    destruct (whole_record _ _ _ _ Hw) as (o & Ho & Hic & Hrec). exists o, r. done. }
  unfold data_root_record. cbn [me_paths me_custody mc_configuration migration_custody_system].
  eapply (triple_bind c _ _ (λ b s, read_found configuration (s !! (D ++ ["migration.json"])) b ∧ P s)).
  { eapply triple_fs, ctriple_map_err, ctriple_reads; [apply creads_read_checked_within|done| |];
      rewrite (placed_record _ _ Hplaced).
    - intros Ht s Hs. destruct (Hcm s Hs Ht) as (o & r & Ho & Hic & _). rewrite Ho. by eexists.
    - intros s x Hs Hx. done. }
  assert (∀ s o, P s → s !! (D ++ ["migration.json"]) = Some o → migrated s) as Hmig.
  { intros s o Hs Ho. destruct (HP s Hs) as ([(_ & _ & Hu & _)|[(b & _ & _ & Hu & _)|H]] & (ol & Hol & _) & _); [| |done].
    - specialize (Hu []). rewrite app_nil_r in Hu. congruence.
    - by rewrite Hu in Ho. }
  intros [b|].
  - destruct (record_from_slice b) as [r|] eqn:Er.
    + apply triple_ret. intros s [Hf Hs]. unfold read_found in Hf.
      destruct (s !! (D ++ ["migration.json"])) as [o|] eqn:Eo; [|done]. destruct Hf as [[= ->] Hic].
      split_and!; [done|intros _; by eapply Hmig| |done]. intros r' [= <-] (_ & _ & _ & _ & _ & r0 & Hr0 & Hw).
      destruct (whole_record _ _ _ _ Hw) as (o' & Ho' & _ & Hrec). unfold sub in Ho'. rewrite Eo in Ho'.
      injection Ho' as <-. congruence.
    + apply triple_err. intros s [Hf Hs]. split; [|done]. destruct c; [|done].
      destruct (Hcm s Hs eq_refl) as (o & r & Ho & _ & Hr & _). rewrite Ho in Hf. destruct Hf as [[= ->] _]. congruence.
  - apply triple_ret. intros s [Hf Hs]. split_and!; [done|by intros [? ?]|done|].
    intros Ht. destruct (Hcm s Hs Ht) as (o & r & Ho & _). rewrite Ho in Hf. by destruct Hf.
Qed.

Lemma committed_spec :
  triple c (λ s, phase s ∧ closed_at L s ∧ (c = true → migrated s)) (committed (env now) request) (promised c) phase.
Proof.
  set (P := λ s, phase s ∧ closed_at L s ∧ (c = true → migrated s)). unfold committed.
  eapply (triple_seq c _ _ P).
  { eapply triple_weaken; [apply (check_each_directory_spec c now false _ P)|done|done|by intros s [? _]].
    intros Ht s (_ & _ & Hs). specialize (Hs Ht). cbn [me_paths]. pose proof Hs as (_ & Hcl & _).
    repeat constructor; rewrite ?(placed_root _ _ Hplaced), ?(placed_data _ _ Hplaced); [done|by apply migrated_data_root]. }
  eapply triple_bind.
  { eapply triple_weaken; [apply (data_root_record_spec P); by intros s Hs|done|intros x s H; exact H|by intros s [? _]]. }
  intros found. eapply (triple_bind c _ _ (λ r s, ours r ∧ migrated s)).
  { apply triple_of.
    - intros s r (Hs & H1 & H2 & _) Hr. apply ok_or_ok in Hr. subst found.
      assert (migrated s) as Hmi by (apply H1; by eexists). split; [by apply (H2 r)|done].
    - by intros s ((? & _) & _).
    - intros s (_ & _ & _ & H) Ht. by destruct (H Ht) as [r ->]. }
  intros r. apply (triple_pre c (ours r)); [naive_solver|]. intros Hr.
  rewrite (check_recorded_ours request r Hr Hreq). eapply (triple_seq c _ _ migrated).
  { apply triple_of; [naive_solver| |done]. intros s [_ H]. by right; right. }
  apply triple_ret. intros s H. by apply promised_committed.
Qed.

(** The phase, a reversal excluded when no call fails. *)
Definition begins (s : Store) : Prop := ready s ∨ (∃ b, between b s ∧ (c = true → b = false)) ∨ migrated s.

Lemma begins_phase s : begins s → phase s.
Proof. intros [?|[(b & ? & _)|?]]; [by left|right; left; by exists b|by right; right]. Qed.

(** What the tests found. *)
Definition found (there console staging legacy : bool) (s : Store) : Prop :=
  begins s ∧ (c = true → there = true ↔ is_Some (s !! D)) ∧
  (c = true → console = true ↔ there = true ∧ ∃ n, n ∈ IDENTITY_FILES ∧ is_Some (s !! (D ++ [n]))) ∧
  (staging = true → closed_at S s) ∧ (c = true → closed_at S s → staging = true) ∧
  (legacy = true → closed_at L s) ∧ (c = true → closed_at L s → legacy = true).

Lemma unoccupied_open d s : unoccupied d s → closed_at d s → False.
Proof. intros Hu (o & Ho & _). specialize (Hu []). rewrite app_nil_r in Hu. congruence. Qed.

Lemma staging_closed s : staging_tree (sub S s) → closed_at S s.
Proof. intros ((o & Ho & Hc) & _). exists o. unfold sub in Ho. by rewrite app_nil_r in Ho. Qed.

Lemma found_ready d k st lg s :
  c = true → found d k st lg s → ready s →
  d = true ∧ k = true ∧ lg = false ∧ (if st then staging_tree (sub S s) else unoccupied S s).
Proof.
  intros Ht (_ & Hd & Hk & Hs1 & Hs2 & Hl & _) Hr. pose proof Hr as (_ & _ & HL & HS).
  assert (d = true) as E.
  { apply (Hd Ht). destruct (ready_data_root s Hr) as (o & Ho & _). by exists o. }
  split_and!; [done| | |].
  - apply (Hk Ht). split; [done|]. exists CERT. split; [by left|].
    destruct (ready_file s CERT Hr) as (o & Ho & _); [|by exists o]. apply (mg_required Hm). by right; right; left.
  - destruct lg; [|done]. destruct (unoccupied_open L s); auto.
  - destruct st, HS as [Hu|Hst]; try done.
    + by destruct (unoccupied_open S s); auto.
    + by specialize (Hs2 Ht (staging_closed s Hst)).
Qed.

Lemma found_between d k st lg b s :
  c = true → found d k st lg s → between b s → d = false ∧ k = false ∧ st = true ∧ lg = true.
Proof.
  intros Ht (_ & Hd & Hk & _ & Hs2 & _ & Hl2) (_ & _ & HD & _ & HL & HS & _).
  assert (d = false) as ->.
  { destruct d; [|done]. destruct (proj1 (Hd Ht) eq_refl) as [o Ho]. specialize (HD []). rewrite app_nil_r in HD. congruence. }
  split_and!; [done| |by apply Hs2, staging_closed|by apply Hl2]. destruct k; [|done]. by destruct (proj1 (Hk Ht) eq_refl).
Qed.

Lemma found_migrated d k st lg s :
  c = true → found d k st lg s → migrated s → d = true ∧ k = false ∧ st = false ∧ lg = true.
Proof.
  intros Ht (_ & Hd & Hk & Hs1 & _ & _ & Hl2) Hmi. pose proof Hmi as (_ & _ & HS & _ & HL & r & _ & _ & Hw).
  split_and!.
  - apply (Hd Ht). destruct (migrated_data_root s Hmi) as (o & Ho & _). by exists o.
  - destruct k; [|done]. destruct (proj1 (Hk Ht) eq_refl) as (_ & n & Hn & Hx). exfalso.
    destruct (Hw [n] Hx) as [E|E]; [injection E as ->|cbn in E].
    + repeat (apply elem_of_cons in Hn as [?|Hn]; [done|]). by apply not_elem_of_nil in Hn.
    + repeat (apply elem_of_cons in Hn as [->|Hn];
        [repeat (apply elem_of_cons in E as [?|E]; [done|]); by apply not_elem_of_nil in E|]).
      by apply not_elem_of_nil in Hn.
  - destruct st; [|done]. destruct (unoccupied_open S s); auto.
  - by apply Hl2.
Qed.

Lemma tests_spec (k : bool → bool → bool → bool → MM Prepared Stop) :
  (∀ d co st lg, triple c (found d co st lg) (k d co st lg) (promised c) phase) →
  triple c begins
    (do? d := is_there (data_root paths) in
     do? co := (if d : bool then any_there (env now) IDENTITY_FILES else mret false) in
     do? st := counts (env now) (staging paths) in
     do? lg := counts (env now) (legacy paths) in
     k d co st lg) (promised c) phase.
Proof.
  intros Hk. eapply triple_bind; [apply (is_there_spec c _ begins)|]. intros d. rewrite (placed_data _ _ Hplaced).
  set (Q1 := λ s, begins s ∧ (c = true → d = true ↔ is_Some (s !! D))).
  eapply (triple_bind c _ _ (λ co s, Q1 s ∧
    (c = true → co = true ↔ d = true ∧ ∃ n, n ∈ IDENTITY_FILES ∧ is_Some (s !! (D ++ [n]))))).
  { destruct d.
    - eapply triple_weaken; [apply (any_there_spec c now IDENTITY_FILES Q1)|done| |done].
      + repeat constructor; apply (mg_required Hm); repeat first [left; reflexivity | right].
      + intros b s [H1 H2]. split; [done|]. intros Ht. rewrite (H2 Ht). naive_solver.
    - apply triple_ret. intros s Hs. split; [exact Hs|]. intros _. naive_solver. }
  intros co. eapply triple_bind; [apply counts_spec|]. intros st. eapply triple_bind; [apply counts_spec|]. intros lg.
  rewrite (placed_staging _ _ Hplaced), (placed_legacy _ _ Hplaced).
  eapply triple_weaken; [apply (Hk d co st lg)| |done|done]. unfold Q1, found. naive_solver.
Qed.

(** A branch that no calm start takes. *)
Lemma found_other d k st lg s :
  found d k st lg s →
  (d, k, st, lg) ∉ [(false, false, true, true); (true, true, true, false); (true, true, false, false); (true, false, false, true)] →
  c = false ∧ phase s.
Proof.
  intros Hf Hn. split; [|apply begins_phase; by destruct Hf]. apply not_true_is_false. intros Ec. destruct Hn.
  pose proof Hf as (Hb & _). rename Hf into Hf'. destruct Hb as [Hr|[(b & Hb & _)|Hmi]].
  - destruct (found_ready d k st lg s Ec Hf' Hr) as (-> & -> & -> & _). destruct st; [right; left|right; right; left].
  - destruct (found_between d k st lg b s Ec Hf' Hb) as (-> & -> & -> & ->). left.
  - destruct (found_migrated d k st lg s Ec Hf' Hmi) as (-> & -> & -> & ->). right; right; right; left.
Qed.

Lemma check_console_spec :
  c = false → triple c phase (check_data_directories (env now) true ;;* mret ConsoleLayout) (promised c) phase.
Proof.
  intros Hc. eapply triple_seq; [apply check_each_directory_spec; by rewrite Hc|]. apply triple_ret.
  intros s Hs. split_and!; [done|done|by rewrite Hc].
Qed.

Lemma plain_spec : c = false → triple c phase (plain (env now) request) (promised c) phase.
Proof.
  intros Hc. unfold plain. destruct (is_some request); [by apply triple_err|].
  eapply triple_seq; [apply check_each_directory_spec; by rewrite Hc|].
  eapply (triple_bind c _ _ (λ _, phase)).
  - apply triple_inspects; [apply data_root_record_inspects|done|by rewrite Hc].
  - intros _. apply triple_ret. intros s Hs. split_and!; [done|done|by rewrite Hc].
Qed.

(** Between the renames: only there are both directories in custody. *)
Lemma between_found d co st lg :
  st = true → lg = true → triple c (found d co st lg) (between_the_renames now request lock) (promised c) phase.
Proof.
  intros Es El. eapply triple_weaken; [apply between_the_renames_spec; [done|naive_solver]| |
    intros x s; apply promised_committed|done].
  intros s (Hb & _ & _ & Hs & _ & Hl & _). destruct Hb as [(_ & _ & Hu & _)|[Hb|(_ & _ & Hu & _)]]; [|done|].
  - by destruct (unoccupied_open L s Hu (Hl El)).
  - by destruct (unoccupied_open S s Hu (Hs Es)).
Qed.

(** Neither: the migration begins, or the console layout is left alone. *)
Lemma fresh_found d co st lg :
  st = false → lg = false →
  triple c (found d co st lg)
    match request with
    | Some r => route toml_value toml_config toml_to_string pem_certificates pem_encode parse_rfc3339 hostname (env now) r Fresh lock
    | None => check_data_directories (env now) true ;;* mret ConsoleLayout
    end (promised c) phase.
Proof.
  intros Es El. assert (∀ s, found d co st lg s → phase s) as Hph by (intros s [H _]; by apply begins_phase).
  destruct Hreq as [E|E]; rewrite E.
  - apply (triple_pre c (c = false)); [|intros Hc; eapply triple_weaken; [by apply check_console_spec|done|done|done]].
    intros s _. apply not_true_is_false. intros Ec. destruct (Hcalm Ec) as [? _]. congruence.
  - eapply triple_weaken; [apply (route_promised Fresh)| |done|done]. intros s Hf. split_and!; [done|auto|]. intros Ht.
    pose proof Hf as ([Hr|[(b & Hb & _)|Hmi]] & _).
    + destruct (found_ready _ _ _ _ s Ht Hf Hr) as (_ & _ & _ & H). by rewrite Es in H.
    + destruct (found_between _ _ _ _ b s Ht Hf Hb) as (_ & _ & ? & _). congruence.
    + destruct (found_migrated _ _ _ _ s Ht Hf Hmi) as (_ & _ & _ & ?). congruence.
Qed.

Lemma prepare_spec : triple c begins (prepare now request lock) (promised c) phase.
Proof.
  unfold MigrationRun.prepare. apply tests_spec. intros d co st lg.
  assert (∀ s, found d co st lg s → phase s) as Hph by (intros s [H _]; by apply begins_phase).
  assert (∀ m : MM Prepared Stop, refuses m → (d, co, st, lg) ∉ [(false, false, true, true); (true, true, true, false);
      (true, true, false, false); (true, false, false, true)] →
    triple c (found d co st lg) m (promised c) phase) as Hother.
  { intros m Hr Hn. apply triple_refuses; [done|]. intros s Hf. by eapply found_other. }
  assert (∀ m : MM Prepared Stop, (c = false → triple c phase m (promised c) phase) →
    (d, co, st, lg) ∉ [(false, false, true, true); (true, true, true, false); (true, true, false, false); (true, false, false, true)] →
    triple c (found d co st lg) m (promised c) phase) as Hfalse.
  { intros m Hr Hn. apply (triple_pre c (c = false)); [intros s Hf; by eapply found_other|]. intros Hc.
    eapply triple_weaken; [by apply Hr|done|done|done]. }
  destruct d, co, st, lg; try (by apply between_found); try (by apply fresh_found); try (apply Hother; [apply refuses_err|absent]); try (apply Hfalse; [apply plain_spec|absent]).
  - eapply triple_weaken; [apply beside_spec| |done|done]. intros s Hf. split; [auto|]. intros Ht.
    pose proof Hf as ([Hr|[(b & Hb & _)|Hmi]] & _).
    + by destruct (found_ready _ _ _ _ s Ht Hf Hr) as (_ & _ & _ & ?).
    + by destruct (found_between _ _ _ _ b s Ht Hf Hb).
    + by destruct (found_migrated _ _ _ _ s Ht Hf Hmi) as (_ & ? & _).
  - eapply triple_weaken; [apply committed_spec| |done|done]. intros s Hf. pose proof Hf as (Hb & _ & _ & _ & _ & Hl & _).
    split_and!; [auto|auto|]. intros Ht. destruct Hb as [Hr|[(b & Hb & _)|Hmi]]; [| |done].
    + by destruct (found_ready _ _ _ _ s Ht Hf Hr) as (_ & ? & _).
    + by destruct (found_between _ _ _ _ b s Ht Hf Hb).
Qed.
End Start.

(** A recorded reversal: the start ends in an error, with the console layout back. *)
Lemma prepare_reverses now request w :
  request = None ∨ request = Some rq → calm w → between true (store w) →
  ∃ e w', prepare now request (Ok tt) w = (Err e, w') ∧ ready (store w').
Proof.
  intros Hreq Hq Hb. unfold MigrationRun.prepare, mbind at 1 2 3 4. cbn [me_paths].
  pose proof (is_there_spec (E := Stop) true (data_root paths) (between true) phase w (λ _, Hq) Hb) as H1.
  destruct (is_there (data_root paths) w) as [[d|e] w1]; [|by destruct H1]. destruct H1 as (Hq1 & Hb1 & Hd).
  assert (d = false) as ->.
  { destruct d; [|done]. destruct (proj1 (Hd eq_refl) eq_refl) as [o Ho]. rewrite (placed_data _ _ Hplaced) in Ho.
    destruct Hb1 as (_ & _ & HD & _). specialize (HD []). rewrite app_nil_r in HD. congruence. }
  cbn [mret].
  pose proof (counts_spec (E := Stop) true now (staging paths) (between true) phase w1 Hq1 Hb1) as H2.
  destruct (counts (env now) (staging paths) w1) as [[st|e] w2]; [|by destruct H2]. destruct H2 as (Hq2 & Hb2 & _ & Hs).
  rewrite (placed_staging _ _ Hplaced) in Hs. rewrite Hs; [|done|apply staging_closed; by destruct Hb2 as (_ & _ & _ & _ & _ & ? & _)].
  pose proof (counts_spec (E := Stop) true now (legacy paths) (between true) phase w2 Hq2 Hb2) as H3.
  destruct (counts (env now) (legacy paths) w2) as [[lg|e] w3]; [|by destruct H3]. destruct H3 as (Hq3 & Hb3 & _ & Hl).
  rewrite (placed_legacy _ _ Hplaced) in Hl. rewrite Hl; [|done|by destruct Hb3 as (_ & _ & _ & _ & ? & _)].
  by apply between_the_renames_reverses; [|apply Hq3|].
Qed.

End Recovery.
