(* ===== verification/MigrationStarts.v ===== *)
(** * Starts of the service ([service/migration.rs])

    Any sequence of starts of the service on one installation, each with its own
    arguments, lock, time and failures: the phases of [MigrationPhases.v] are an
    invariant of them, a start that says the migration is committed has left it so, and
    after whatever they left at most two starts in which no call fails commit it. *)

From stdpp Require Import sorting.
From S2P Require Import Prelude FileTree IpAddr Types Errors Network Config Signing Tls TlsConfig X509.
From S2P Require Import Transport Enrollment Identity Custody CustodyTree Installed Service.
From S2P Require Import MigrationChecks MigrationRun MigrationToy MigrationSafety MigrationLogic MigrationPhases.
From S2P Require Import MigrationStaging MigrationRecovery.
Open Scope Z_scope.

(** One start of the service: its arguments, the lock it gets, the time, and what its
    calls meet. One whose calls all fail from some point on was cut off there. *)
Record Beginning := {
  bg_request : option Request;
  bg_lock : Result unit Stop;
  bg_now : Z;
  bg_calls : list (option CallFault);
  bg_waits : list (option WaitFault);
  bg_ids : list (Z * Z * Z);
  bg_watch : list (option Injected);
  bg_reads : list (option IoFault);
}.

Definition boot (b : Beginning) (s : Store) : MigrationWorld :=
  {| mfs := {| objects := s; call_faults := bg_calls b; wait_faults := bg_waits b; new_ids := bg_ids b |};
     watch_answers := bg_watch b; std_reads := bg_reads b; actions := [] |}.

Section Starts.
Context {W : WireCrypto} {K : KeyBytes W} {St : SecureStore} {J : IdentityJson} {M : MigrationJson}.
Context {Sec : Win32Security}.
Context (toml_value : string → Result Toml TomlError) (toml_config : string → Result AgentConfig TomlError).
Context (toml_to_string : Toml → Result string string).
Context (pem_certificates : bytes → list (Result bytes PemError)).
Context (pem_encode : list bytes → string) (parse_rfc3339 : string → option Z).
Context (hostname : Result string string) (program_data : string).

Definition start_once (b : Beginning) (s : Store) : Result Prepared Stop * MigrationWorld :=
  prepare toml_value toml_config toml_to_string pem_certificates pem_encode parse_rfc3339 hostname
    {| me_paths := under program_data; me_custody := migration_custody_system; me_now := bg_now b |}
    (bg_request b) (bg_lock b) (boot b s).

(** The objects after a sequence of starts. *)
Fixpoint starts (l : list Beginning) (s : Store) : Store :=
  match l with
  | [] => s
  | b :: l => starts l (store (start_once b s).2)
  end.

Context {Laws : SddlLaws Sec} {MLaws : MigrationJsonLaws J M}.
Context (root : Path) (Hplaced : placed (under program_data) root) (rq : Request) (inst : Installation).
Context (deadline : Z).
Context (Hm : migratable toml_value toml_config toml_to_string pem_certificates pem_encode parse_rfc3339 hostname
                program_data rq inst deadline).

#[local] Notation ready := (ready root rq inst).
#[local] Notation between := (between pem_encode root rq inst).
#[local] Notation migrated := (migrated pem_encode root rq inst).
#[local] Notation phase := (phase pem_encode root rq inst).

(** A start without arguments, or with those of this migration. *)
Definition of_this_migration (b : Beginning) : Prop := bg_request b = None ∨ bg_request b = Some rq.

(** One that can succeed: no call fails, the lock is free, the certificate is valid. *)
Definition undisturbed (b : Beginning) : Prop :=
  bg_calls b = [] ∧ bg_waits b = [] ∧ bg_watch b = [] ∧ bg_reads b = [] ∧
  bg_request b = Some rq ∧ bg_lock b = Ok tt ∧ bg_now b ≤ deadline.

Lemma start_phase b s :
  of_this_migration b → phase s →
  phase (store (start_once b s).2) ∧ ((start_once b s).1 = Ok Committed → migrated (store (start_once b s).2)).
Proof.
  intros Hb Hs. pose proof (prepare_spec (Hm := Hm) (Hplaced := Hplaced) false (bg_now b) (bg_request b) (bg_lock b) Hb ltac:(done)
    (boot b s) ltac:(done)) as H. unfold start_once. destruct (prepare _ _ _ _ _ _ _ _ _ _ _) as [[x|e] w].
  - destruct H as [_ (H1 & H2 & _)]; [|split; [done|]; cbn; intros [= ->]; auto].
    destruct Hs as [?|[[p ?]|?]]; [by left|right; left; by exists p|by right; right].
  - destruct H as [_ H1]; [|done]. destruct Hs as [?|[[p ?]|?]]; [by left|right; left; by exists p|by right; right].
Qed.

Lemma starts_phase l s : Forall of_this_migration l → phase s → phase (starts l s).
Proof. intros Hl. revert s. induction Hl as [|b l Hb _ IH]; intros s Hs; [done|]. by apply IH, start_phase. Qed.

Lemma undisturbed_commits b s :
  undisturbed b → ready s ∨ between false s ∨ migrated s →
  (start_once b s).1 = Ok Committed ∧ migrated (store (start_once b s).2).
Proof.
  intros (U1 & U2 & U3 & U4 & U5 & U6 & U7) Hs.
  pose proof (prepare_spec (Hm := Hm) (Hplaced := Hplaced) true (bg_now b) (bg_request b) (bg_lock b) (or_intror U5) ltac:(done)
    (boot b s) ltac:(done)) as H. unfold start_once. destruct (prepare _ _ _ _ _ _ _ _ _ _ _) as [[x|e] w].
  - destruct H as [_ (_ & H2 & H3)]; [|cbn; rewrite H3 by done; auto].
    destruct Hs as [?|[?|?]]; [by left|right; left; by exists false|by right; right].
  - destruct H as [? _]; [|done]. destruct Hs as [?|[?|?]]; [by left|right; left; by exists false|by right; right].
Qed.

Lemma undisturbed_reverses b s :
  undisturbed b → between true s → is_ok (start_once b s).1 = false ∧ ready (store (start_once b s).2).
Proof.
  intros (U1 & U2 & U3 & U4 & U5 & U6 & U7) Hs.
  destruct (prepare_reverses (toml_value := toml_value) (toml_config := toml_config) (toml_to_string := toml_to_string)
    (pem_certificates := pem_certificates) (pem_encode := pem_encode) (parse_rfc3339 := parse_rfc3339)
    (hostname := hostname) (Hplaced := Hplaced) (rq := rq) (inst := inst) (bg_now b) (bg_request b) (boot b s) (or_intror U5)) as (e & w & Hw & Hr);
    [done|done|]. unfold start_once. rewrite U6, Hw. done.
Qed.

(** C4 The phases are an invariant of starts: whatever sequence of starts of this
    migration, without arguments or with its own, runs on a console installation the
    migration accepts, and whatever fails or is cut off in them and when, the product's
    directory is left in one of the phases a migration goes through; and a start that
    ends with [Committed] has left it migrated: the data root holds the checked
    configuration, the anchor, and the identity's files with the console's bytes, each in
    the custody asked of it, and the console's own directory is at the legacy name. *)
Theorem starts_keep_phase l b s :
  ready s → Forall of_this_migration (l ++ [b]) →
  phase (starts l s) ∧ phase (starts (l ++ [b]) s) ∧
  ((start_once b (starts l s)).1 = Ok Committed → migrated (store (start_once b (starts l s)).2)).
Proof.
  intros Hs Hl. assert (phase s) as Hp by by left. pose proof Hl as [H1 H2]%Forall_app. apply Forall_cons in H2 as [H2 _].
  split_and!; [by apply starts_phase|by apply starts_phase|]. exact (proj2 (start_phase b _ H2 (starts_phase l s H1 Hp))).
Qed.

(** C3 A migration is never stuck: after any sequence of starts of this migration on a
    console installation it accepts, whose [identity.json] is UTF-8 text, each failed or cut
    off anywhere, a start with the
    migration's arguments in which no call fails, the instance lock is free and the
    client certificate has not expired commits it; or, when a failed commit had been
    marked for reversal, puts the console layout back, and the next such start commits. *)
Theorem migration_recovers l b b' s :
  ready s → Forall of_this_migration l → undisturbed b → undisturbed b' →
  let first := start_once b (starts l s) in
  let second := start_once b' (store first.2) in
  (first.1 = Ok Committed ∧ migrated (store first.2)) ∨
  (is_ok first.1 = false ∧ ready (store first.2) ∧ second.1 = Ok Committed ∧ migrated (store second.2)).
Proof.
  intros Hs Hl Hb Hb' first second. assert (phase (starts l s)) as Hp by (apply starts_phase; [done|by left]).
  destruct Hp as [Hp|[[[] Hp]|Hp]]; [left|right|left|left]; try (by apply undisturbed_commits; auto).
  destruct (undisturbed_reverses b (starts l s) Hb Hp) as [H1 H2].
  destruct (undisturbed_commits b' (store first.2) Hb' (or_introl H2)) as [H3 H4]. done.
Qed.

End Starts.

(** ** The toy host's starts *)

Module ToyStarts.
Import ToyHost.
#[local] Existing Instances security ToyRecord.json ToyRecord.json_laws ToyEnrollment.wire ToyEnrollment.keys
  InsecureDevStore ToyIdentity.json.

#[export] Instance laws : SddlLaws security :=
  {| system_sid := ToyWin32.system_sid : bytes; administrators_sid := ToyWin32.admin_sid : bytes;
     system_matches := eq_refl; administrators_matches := eq_refl; sddl_private_directory := eq_refl;
     sddl_shared_file := eq_refl; sddl_identity_directory := eq_refl; sddl_identity_file := eq_refl |}.

(** The installation on it. *)
Definition file_of (name : string) : option (FileInfo * bytes) :=
  (λ o, (info o, contents o)) <$> console_files !! ((root ++ ["agent"]) ++ [name]).
Definition inst : Installation :=
  {| files_of := list_to_map (omap (λ n, (λ f, (n, f)) <$> file_of n) REQUIRED);
     account_of := user_sid; console_config := "old"; anchor_certificates := [anchor_der];
     console_agent_id := ToyEnrollment.agent_uuid;
     console_key_fingerprint := pubkey_fingerprint (public_key_bytes (from_secret_bytes ToyEnrollment.seed));
     generated := "new" |}.

Lemma placed_root : placed (under program_data) root.
Proof. apply (placed_under program_data). by split. Qed.

Lemma migratable_inst :
  migratable toml_value toml_config toml_to_string pem_certificates pem_encode parse_rfc3339 hostname program_data
    request inst 100.
Proof.
  split.
  - intros n Hn. repeat (apply elem_of_cons in Hn as [->|Hn]; [vm_compute; by eexists|]). by apply not_elem_of_nil in Hn.
  - intros n i b Hn. cbn [files_of inst] in Hn. apply elem_of_list_to_map_2 in Hn. revert Hn.
    match goal with |- _ ∈ ?l → _ => let l' := eval vm_compute in l in change l with l' end. intros Hn.
    repeat (apply elem_of_cons in Hn as [[= -> -> ->]|Hn]; [vm_compute; split_and!; try done; repeat first [left; reflexivity|right]|]).
    by apply not_elem_of_nil in Hn.
  - vm_compute. reflexivity.
  - vm_compute. reflexivity.
  - vm_compute. reflexivity.
  - vm_compute. reflexivity.
  - vm_compute. reflexivity.
  - split; [reflexivity|]. exists new_config. split; [vm_compute; reflexivity|]. apply (proj1 (check_installed_config_ok _ "c" _)). vm_compute. reflexivity.
  - vm_compute. reflexivity.
  - reflexivity.
Qed.

Lemma console_object k o : console_files !! k = Some o →
  (k, o) ∈ [(["c:"; "programdata"], object true 1 "ProgramData" both_sids []);
    (root, object true 2 "CyberGuard" both_sids []); (root ++ ["agent"], object true 3 "agent" both_sids []);
    ((root ++ ["agent"]) ++ ["agent.toml"], object false 4 "agent.toml" both_sids (bytes_of_text "old"));
    ((root ++ ["agent"]) ++ ["server-ca.pem"], object false 5 "server-ca.pem" both_sids (bytes_of_text "anchor"));
    ((root ++ ["agent"]) ++ ["cert.pem"], object false 6 "cert.pem" enrolled_sids (bytes_of_text "cert"));
    ((root ++ ["agent"]) ++ ["key.dat"], object false 7 "key.dat" enrolled_sids sealed_seed);
    ((root ++ ["agent"]) ++ ["identity.json"], object false 8 "identity.json" enrolled_sids (bytes_of_text "saved"))].
Proof. apply elem_of_list_to_map_2. Qed.

(** By cases on the object. *)
Ltac each H :=
  apply console_object in H;
  repeat (apply elem_of_cons in H as [H|H]; [injection H; clear H; intros; simplify_eq|]); [..|by apply not_elem_of_nil in H].

Lemma ready_console : ready root request inst console_files.
Proof.
  split_and!.
  - split_and!.
    + exists (object true 2 "CyberGuard" both_sids []). split; [reflexivity|]. split; [done|]. split; [reflexivity|].
      eexists. split; [reflexivity|]. repeat constructor.
    + intros n k o H. each H; by left.
    + intros n o H. each H; done.
  - split_and!.
    + exists (object true 3 "agent" both_sids []). split; [reflexivity|]. split; [done|]. split; [done|]. split; [reflexivity|].
      eexists. split; [reflexivity|]. repeat constructor.
    + intros k o Hk H. unfold sub in H. each H. all: try done.
      all: eexists; split; [reflexivity|]; split; [vm_compute; reflexivity|]; split; [done|]; split; [reflexivity|].
      all: intros _; eexists; split; [reflexivity|]; split; [reflexivity|]; vm_compute; congruence.
    + intros n [[i b] H]. destruct (mg_known migratable_inst n i b H) as [Hn _].
      repeat (apply elem_of_cons in Hn as [->|Hn]; [vm_compute in H; first [discriminate H|by eexists]|]).
      by apply not_elem_of_nil in Hn.
  - intros k. destruct (console_files !! _) eqn:H; [|done]. each H.
  - left. intros k. destruct (console_files !! _) eqn:H; [|done]. each H.
Qed.

(** A start with the arguments, cut off before its second rename or not at all. *)
Definition beginning (watch : list (option Injected)) : Beginning :=
  {| bg_request := Some request; bg_lock := Ok tt; bg_now := 100; bg_calls := []; bg_waits := []; bg_ids := [];
     bg_watch := watch; bg_reads := [] |}.
Definition interrupted : Beginning := beginning (replicate 32 None ++ [Some Crash]).
Definition unhindered : Beginning := beginning [].

End ToyStarts.

Import ToyHost ToyStarts.
#[local] Existing Instances security ToyRecord.json ToyRecord.json_laws ToyEnrollment.wire ToyEnrollment.keys
  InsecureDevStore ToyIdentity.json.

#[local] Notation toy_start := (start_once toml_value toml_config toml_to_string pem_certificates pem_encode
  parse_rfc3339 hostname program_data).
#[local] Notation toy_starts := (starts toml_value toml_config toml_to_string pem_certificates pem_encode
  parse_rfc3339 hostname program_data).

Lemma starts_keep_phase_witness :
  (toy_start interrupted console_files).1 = Err Crashed ∧
  phase pem_encode root request inst (toy_starts [interrupted] console_files) ∧
  MigrationPhases.migrated pem_encode root request inst (store (toy_start unhindered (toy_starts [interrupted] console_files)).2).
Proof.
  pose proof (starts_keep_phase toml_value toml_config toml_to_string pem_certificates pem_encode parse_rfc3339 hostname
    program_data root placed_root request inst 100 migratable_inst [interrupted] unhindered console_files ready_console
    ltac:(repeat constructor; by right)) as (H1 & _ & H3).
  split; [vm_compute; reflexivity|]. split; [exact H1|]. apply H3. vm_compute. reflexivity.
Defined.

Lemma migration_recovers_witness :
  (toy_start interrupted console_files).1 = Err Crashed ∧
  ((toy_start unhindered (toy_starts [interrupted] console_files)).1 = Ok Committed ∧
   MigrationPhases.migrated pem_encode root request inst (store (toy_start unhindered (toy_starts [interrupted] console_files)).2)).
Proof.
  pose proof (migration_recovers toml_value toml_config toml_to_string pem_certificates pem_encode parse_rfc3339 hostname
    program_data root placed_root request inst 100 migratable_inst [interrupted] unhindered unhindered console_files
    ready_console ltac:(repeat constructor; by right) ltac:(by split_and!) ltac:(by split_and!)) as H.
  split; [vm_compute; reflexivity|]. destruct H as [H|[H _]]; [exact H|]. vm_compute in H. discriminate H.
Defined.
