(* ===== verification/Agent.v ===== *)
(** * The agent's runs ([lib.rs])

    The plain heartbeat loop [run], the opening of the platform's capture, and
    [run_secure_within]: the capture, the TLS client, the delivery loop and the
    stop. Each select!, clock reading and answer is an input. *)

From S2P Require Import Prelude IpAddr Types Errors Ring Dispatch Logon Paths Emit Config Signing Tls.
From S2P Require Import TlsConfig Transport Enrollment Delivery.
Open Scope Z_scope.

(** ** The plain heartbeat loop *)

(** One turn: the clock, the time since start and the wall clock's text, whether
    the shutdown won, and what each POST of the turn met. *)
Record TickInput := {
  ti_now : Instant;
  ti_elapsed : Z;
  ti_wall : string;
  ti_shutdown : bool;
  ti_net : Z → Transport.Outcome;
}.

Inductive PlainAction :=
| Wait (until : Z)
| Heartbeat (e : HeartbeatEnvelope) (sent : option (list NetAction * Result unit TransportError))
| Farewell (e : HeartbeatEnvelope) (sent : Result unit TransportError).

Section Plain.
Context (agent_block : AgentBlock) (client : HeartbeatClient) (heartbeat : HeartbeatConfig) (start_time : Instant).

(** [start_time + interval.saturating_mul((sequence - 1) as u32)]. *)
Definition plain_target (sequence : Z) : Instant :=
  tick_at heartbeat start_time (wrap_u 32 (sequence - 1)).

(** The loop from [sequence]; [true] when it returned. *)
Fixpoint run_plain (sequence : Z) (inputs : list TickInput) : list PlainAction * bool :=
  match inputs with
  | [] => ([], false)
  | i :: inputs =>
      let sequence := wrap_u 64 (sequence + 1) in
      let until := sat_sub (plain_target sequence) (ti_now i) in
      if ti_shutdown i then
        let e := build_envelope agent_block sequence (ti_elapsed i) (ti_wall i) GoingOffline in
        ([Wait until; Farewell e (send_single_attempt (ti_net i 1))], true)
      else
        let e := build_envelope agent_block sequence (ti_elapsed i) (ti_wall i) Online in
        let '(rest, returned) := run_plain sequence inputs in
        (Wait until :: Heartbeat e (client_send client (ti_net i)) :: rest, returned)
  end.

(** The envelopes of a run, in order. *)
Definition envelopes (tr : list PlainAction) : list HeartbeatEnvelope :=
  omap (λ a, match a with Heartbeat e _ | Farewell e _ => Some e | Wait _ => None end) tr.

Definition waits (tr : list PlainAction) : list Z :=
  omap (λ a, match a with Wait d => Some d | _ => None end) tr.

(** The turns up to and with the one the shutdown won. *)
Fixpoint taken (inputs : list TickInput) : list TickInput :=
  match inputs with
  | [] => []
  | i :: inputs => i :: if ti_shutdown i then [] else taken inputs
  end.

Definition tick_status (i : TickInput) : HeartbeatStatus := if ti_shutdown i then GoingOffline else Online.

Lemma run_plain_spec inputs sequence :
  let tr := (run_plain sequence inputs).1 in
  envelopes tr = imap (λ k i, build_envelope agent_block (wrap_u 64 (sequence + Z.of_nat k + 1))
                                (ti_elapsed i) (ti_wall i) (tick_status i)) (taken inputs) ∧
  waits tr = imap (λ k i, sat_sub (plain_target (wrap_u 64 (sequence + Z.of_nat k + 1))) (ti_now i))
               (taken inputs) ∧
  (run_plain sequence inputs).2 = existsb ti_shutdown inputs.
Proof.
  revert sequence. induction inputs as [|i inputs IH]; intros sequence; [done|].
  cbn [run_plain taken existsb imap]. unfold tick_status. rewrite Z.add_0_r.
  destruct (ti_shutdown i) eqn:Ei; cbn [orb]; [done|].
  destruct (IH (wrap_u 64 (sequence + 1))) as (H1 & H2 & H3).
  destruct (run_plain (wrap_u 64 (sequence + 1)) inputs) as [rest returned]; cbn [fst snd] in *.
  unfold envelopes, waits in *. cbn. rewrite H1, H2, H3.
  assert (∀ k, wrap_u 64 (wrap_u 64 (sequence + 1) + Z.of_nat k + 1)
               = wrap_u 64 (sequence + Z.of_nat (S k) + 1)) as Hw.
  { intros k. rewrite <- (Z.add_assoc (wrap_u 64 _)), wrap_u_add_l by lia. f_equal. lia. }
  split_and!; [f_equal|f_equal|done]; apply imap_ext; intros k j _; cbv beta; by rewrite Hw.
Qed.

(** The plain loop numbers its heartbeats consecutively from 1 on the absolute
    timeline: over any turns, the [k]-th envelope sent has sequence number [k + 1]
    and is online, but the one of the turn the shutdown won, which is the last and
    says it is going offline; before it the loop waits until
    [start_time + k * interval], not at all when that has passed. The loop returns
    exactly when a shutdown won. *)
Theorem plain_run_timeline inputs :
  let tr := (run_plain 0 inputs).1 in
  length (envelopes tr) = length (taken inputs) ∧
  (∀ k i, taken inputs !! k = Some i → Z.of_nat k < 2 ^ 32 →
     ∃ e, envelopes tr !! k = Some e ∧ he_sequence_number e = Z.of_nat k + 1 ∧
       he_status e = tick_status i ∧
       (ti_shutdown i = true ↔ existsb ti_shutdown inputs = true ∧ length (taken inputs) = S k) ∧
       ∃ d, waits tr !! k = Some d ∧
         ti_now i + d = Z.max (ti_now i) (tick_at heartbeat start_time (Z.of_nat k))) ∧
  (run_plain 0 inputs).2 = existsb ti_shutdown inputs.
Proof.
  destruct (run_plain_spec inputs 0) as (H1 & H2 & H3). intros tr. fold tr in H1, H2.
  rewrite H1, H2, H3, length_imap. split_and!; [done| |done].
  intros k i Hi Hk. rewrite !list_lookup_imap, Hi. cbn.
  rewrite wrap_u_small by (unfold in_u; lia).
  eexists. split_and!; [done|cbn; lia|done| |].
  - clear -Hi. revert k Hi. induction inputs as [|j inputs IH]; intros k Hi; [done|].
    cbn [taken existsb] in *. destruct (ti_shutdown j) eqn:Ej.
    + destruct k as [|k]; [|done]. injection Hi as <-. rewrite Ej. done.
    + destruct k as [|k].
      * injection Hi as <-. rewrite Ej. cbn. split; [done|]. intros [Hx Hl].
        destruct inputs as [|j' inputs]; done.
      * cbn in *. rewrite (IH k Hi). split; intros [Hx Hl]; split; congruence || lia.
  - eexists. split; [done|]. unfold plain_target.
    replace (0 + Z.of_nat k + 1 - 1) with (Z.of_nat k) by lia.
    rewrite wrap_u_small by (unfold in_u; lia). unfold sat_sub. lia.
Qed.

(** *** The shutdown signal ([shutdown.rs]) *)

(** Ctrl-C: its handler could not be registered, or when it came. *)
Inductive CtrlC := RegistrationFailed (reason : string) | Pressed (when : Instant) | NeverPressed.

(** When the wait that began at [since] resolves: the result of [ctrl_c] is not looked at. *)
Definition wait_for_shutdown (since : Instant) (signal : CtrlC) : option Instant :=
  match signal with
  | RegistrationFailed _ => Some since
  | Pressed when => Some (Z.max since when)
  | NeverPressed => None
  end.

(** Turns that a [select!] over the tick and this shutdown can take: with the tick still to
    come a shutdown that has resolved wins, and one that never does never wins. *)
Fixpoint can_take (resolved : option Instant) (sequence : Z) (inputs : list TickInput) : Prop :=
  match inputs with
  | [] => True
  | i :: inputs =>
      let sequence := wrap_u 64 (sequence + 1) in
      (match resolved with
       | None => ti_shutdown i = false
       | Some t => t ≤ ti_now i → ti_now i < plain_target sequence → ti_shutdown i = true
       end) ∧ can_take resolved sequence inputs
  end.

(** Where the signal's handler cannot be registered the agent stops, by its second turn,
    rather than run without one. *)
Lemma failed_registration_ends reason i j inputs :
  can_take (wait_for_shutdown start_time (RegistrationFailed reason)) 0 (i :: j :: inputs) →
  start_time ≤ ti_now j < plain_target 2 →
  (length (taken (i :: j :: inputs)) ≤ 2)%nat ∧ (run_plain 0 (i :: j :: inputs)).2 = true.
Proof.
  intros (_ & Hj & _) Hnow. cbn [wait_for_shutdown] in Hj.
  change (wrap_u 64 (wrap_u 64 (0 + 1) + 1)) with 2 in Hj. specialize (Hj (proj1 Hnow) (proj2 Hnow)).
  destruct (run_plain_spec (i :: j :: inputs) 0) as (_ & _ & ->). cbn [taken existsb]. rewrite Hj.
  destruct (ti_shutdown i); cbn; (split; [lia|done]).
Qed.

(** Nor without one does it stop by itself. *)
Lemma never_pressed_goes_on inputs :
  can_take (wait_for_shutdown start_time NeverPressed) 0 inputs → (run_plain 0 inputs).2 = false.
Proof.
  destruct (run_plain_spec inputs 0) as (_ & _ & ->). cbn [wait_for_shutdown]. generalize 0.
  induction inputs as [|i inputs IH]; intros z; [done|]. intros [Hi H]. cbn [existsb]. rewrite Hi. by apply (IH _ H).
Qed.

End Plain.

(** ** The platform's capture *)

Definition RING_CAPACITY : nat := Z.to_nat 65536.

(** The sources that run. *)
Record Sources := { etw_running : bool; logons_running : bool }.
Definition no_sources : Sources := {| etw_running := false; logons_running := false |}.

Record PlatformCapture := { pc_ring : option EventRing; pc_paths : DevicePathMap }.

Definition events_only (ring : option EventRing) : PlatformCapture :=
  {| pc_ring := ring; pc_paths := empty_map |}.

(** A logon source that cannot open stops the session. *)
Definition open_logons (logon_open : Result unit LogonError) : Result unit AgentError * Sources :=
  match logon_open with
  | Ok _ => (Ok tt, {| etw_running := true; logons_running := true |})
  | Err e => (Err (AgentLogon e), no_sources)
  end.

Definition open_platform_capture (holds_lock : bool) (etw_open : StartMode → Result unit OpenError)
    (logon_open : Result unit LogonError) (drives : DevicePathMap)
  : Result PlatformCapture AgentError * Sources :=
  let mode := if holds_lock then Locked else Unlocked in
  match etw_open mode with
  | Ok _ =>
      let '(r, sources) := open_logons logon_open in
      (try? r in Ok {| pc_ring := Some (Ring.new RING_CAPACITY); pc_paths := drives |}, sources)
  | Err Unsupported => (Ok (events_only None), no_sources)
  | Err e => (Err (AgentEtw (etw_from_open e)), no_sources)
  end.

(** A capture that fails to open leaves nothing running and says why: whatever
    the tracing session and the logon subscription answer, an error means that no
    source runs and its exit code is 9 exactly for a privilege failure, 1
    otherwise; success means that both sources fill one ring, or that the platform
    has no capture and nothing runs. *)
Theorem capture_opens_fully_or_not_at_all (holds_lock : bool) etw_open logon_open drives :
  let mode := if holds_lock then Locked else Unlocked in
  let '(r, sources) := open_platform_capture holds_lock etw_open logon_open drives in
  match r with
  | Ok c =>
      (etw_open mode = Ok tt ∧ logon_open = Ok tt ∧ sources = {| etw_running := true; logons_running := true |} ∧
       pc_ring c = Some (Ring.new RING_CAPACITY)) ∨
      (etw_open mode = Err Unsupported ∧ sources = no_sources ∧ pc_ring c = None)
  | Err e =>
      sources = no_sources ∧
      (agent_exit_code e = 9 ∨ agent_exit_code e = 1) ∧
      (agent_exit_code e = 9 ↔
         (∃ oe, etw_open mode = Err oe ∧ is_privilege oe = true) ∨
         (etw_open mode = Ok tt ∧ logon_open = Err LogonAccessDenied))
  end.
Proof.
  intros mode. unfold open_platform_capture. fold mode.
  destruct (etw_open mode) as [[]|oe] eqn:Eo.
  - destruct logon_open as [[]|[|code m]]; cbn; [by left|naive_solver..].
  - destruct oe; cbn; [naive_solver..|by right].
Qed.

(** ** The secure run *)

Inductive StopOutcome :=
| StopCompleted (undelivered : nat)
| StopExpired (pending : string) (undelivered : nat).

Definition PENDING_TEARDOWN : string := "the capture teardown and the final going_offline request".
Definition PENDING_FINAL_REQUEST : string := "the final going_offline request".

Definition outcome_undelivered (o : StopOutcome) : nat :=
  match o with StopCompleted u | StopExpired _ u => u end.

(** How a run ended, or that its rounds are used up or its clock catch-up spins. *)
Inductive SecureEnd :=
| Ended (r : Result StopOutcome AgentError)
| StillGoing
| Spinning.

(** What the stop meets: when the signal was seen, what the sources flushed while
    they were torn down and whether that ended by the deadline, and the final
    POST's instants, captures and exchange. *)
Record StopInput := {
  signal_at : Instant;
  at_teardown : Captured;
  torn_in_time : bool;
  final_left_at : Instant;
  final_done_at : Instant;
  final_drain : Captured;
  final_end : Captured;
  final_io : Z → AttemptIo;
}.

Section Secure.
Context {W : WireCrypto} {R : Rustls}.
Context (agent_block : AgentBlock) (agent_id : string) (keypair : AgentKeypair).
Context (heartbeat : HeartbeatConfig) (start_time : Instant).

(** The stop from the signal; [None] is the console's unbounded stop. *)
Definition stop_phase (paths : DevicePathMap) (in_flight : option Pending) (stop_budget : option Z)
    (i : StopInput) : M StopOutcome :=
  let deadline := (λ budget, signal_at i + budget) <$> stop_budget in
  capture (at_teardown i) ;;!
  let torn_down := match deadline with Some _ => torn_in_time i | None => true end in
  if negb torn_down then
    λ d, ([], StopExpired PENDING_TEARDOWN (undelivered d in_flight), d)
  else
    do! finished := finish agent_block agent_id keypair heartbeat paths in_flight deadline
                      (final_left_at i) (final_done_at i) (final_drain i) (final_end i) (final_io i) in
    ret (if expired finished then StopExpired PENDING_FINAL_REQUEST (undelivered_count finished)
         else StopCompleted (undelivered_count finished)).

(** The delivery loop and the stop over an opened capture. *)
Definition run_captured (c : PlatformCapture) (rounds : list Round) (stop_budget : option Z) (i : StopInput)
  : M SecureEnd :=
  do! flow := run_until agent_block agent_id keypair heartbeat start_time (pc_paths c) vars_init rounds in
  match flow with
  | Stopped in_flight => do! out := stop_phase (pc_paths c) in_flight stop_budget i in ret (Ended (Ok out))
  | Fatal e => ret (Ended (Err e))
  | Continue _ => ret StillGoing
  | Spins => ret Spinning
  end.

(** What the run builds before its loop. *)
Record TlsEnv := {
  read_anchor : string → Result bytes string;
  client_certificate : bytes;
  pkcs8_der : Result bytes string;
  key_try_from : bytes → Result PrivateKeyDer string;
  server_name : string → Result unit string;
}.

Definition build_sender (config : AgentConfig) (env : TlsEnv) : Result SecureSender AgentError :=
  let? anchor_path := ok_or (trust_anchor_path (Config.server config))
                        (AgentTls (Errors.ClientConfig "secure path requires server.trust_anchor_path")) in
  let? pem := map_err (λ e, AgentTls (Errors.ClientConfig ("read trust anchor " +:+ anchor_path +:+ ": " +:+ e)))
                (read_anchor env anchor_path) in
  try? map_err AgentTls (build_client_config pem (client_certificate env) (pkcs8_der env) (key_try_from env)) in
  map_err AgentTls (sender_new (server_name env) (heartbeat_target (Config.server config))
                      (seconds (request_timeout_seconds (Config.heartbeat config)))).

Definition run_secure_within (config : AgentConfig) (opened : Result PlatformCapture AgentError) (env : TlsEnv)
    (rounds : list Round) (stop_budget : option Z) (i : StopInput) : list Action * SecureEnd * Delivery :=
  match (let? c := opened in let? _ := build_sender config env in Ok c) with
  | Err e => ([], Ended (Err e), delivery_new None)
  | Ok c => run_captured c rounds stop_budget i (delivery_new (pc_ring c))
  end.

(** ** Lemmas *)

Lemma stop_phase_accounts paths o stop_budget i d :
  let '(tr, out, d') := stop_phase paths o stop_budget i d in
  tracks agent_id paths d tr d' ∧
  (outcome_undelivered out + length (events_of (delivered tr)))%nat =
    (match ring d' with Some r => ring_len r | None => 0 end
     + length (events_of (flight_list o ++ formed tr)))%nat ∧ dropped tr = [].
Proof.
  unfold stop_phase. rewrite bind_run.
  pose proof (good_capture agent_id paths (at_teardown i) d) as Hc.
  destruct (capture_events (at_teardown i) d) as (K1 & K2 & K3).
  destruct (capture (at_teardown i) d) as [[t1 []] d1]; cbn [fst snd] in *.
  match goal with |- context [negb ?b] => destruct b end; cbn [negb].
  - rewrite bind_run.
    match goal with |- context [finish _ _ _ _ _ _ ?dl _ _ _ _ _ d1] =>
      pose proof (good_finish agent_block agent_id keypair heartbeat paths o dl (final_left_at i)
        (final_done_at i) (final_drain i) (final_end i) (final_io i) d1) as Hg;
      pose proof (finish_accounts agent_block agent_id keypair heartbeat paths o dl (final_left_at i)
        (final_done_at i) (final_drain i) (final_end i) (final_io i) d1) as Hf end.
    destruct (finish _ _ _ _ _ _ _ _ _ _ _ _ d1) as [[t2 fin] d2]; cbn [fst snd ret] in *.
    destruct Hf as (b & Hb & Hd & Hu). rewrite app_nil_r.
    split; [by eapply tracks_trans|]. unfold delivered, formed, dropped in *.
    rewrite !omap_app, K1, K2, K3, Hd. cbn [app]. rewrite Hb. cbn. rewrite app_nil_r.
    split; [|done]. by destruct (expired fin).
  - cbn [fst snd]. rewrite app_nil_r. split; [done|]. rewrite K1, K2, K3, app_nil_r. split; [|done].
    cbn. unfold undelivered, flight_list. destruct o; cbn; rewrite ?app_nil_r; lia.
Qed.

Lemma finish_unbounded paths o t1 t2 l1 l2 io d :
  expired (finish agent_block agent_id keypair heartbeat paths o None t1 t2 l1 l2 io d).1.2 = false.
Proof.
  unfold finish. repeat (rewrite bind_run; cbn [fst snd]). cbn. by rewrite andb_false_r.
Qed.

Lemma stop_phase_unbounded paths o i d : ∃ u, (stop_phase paths o None i d).1.2 = StopCompleted u.
Proof.
  unfold stop_phase. rewrite bind_run. cbn [fst snd fmap option_fmap option_map negb].
  rewrite bind_run. cbn [fst snd ret]. rewrite finish_unbounded. eauto.
Qed.

(** What becomes of the events of a run that ended by a stop. *)
Lemma secure_stop_counts config c env rounds stop_budget i (cap : nat) tr out d :
  (0 < cap)%nat → pc_ring c = Some (Ring.new cap) →
  run_secure_within config (Ok c) env rounds stop_budget i = (tr, Ended (Ok out), d) →
  (∃ r lost,
     ring d = Some r ∧
     length (Ring.accepted (ops tr)) =
       (length (events_of (delivered tr)) + length (events_of (dropped tr))
        + lost + outcome_undelivered out)%nat ∧
     dropped_total r = wrap_u 64 (Z.of_nat lost + Z.of_nat (length (events_of (dropped tr))))) ∧
  (stop_budget = None → ∃ u, out = StopCompleted u).
Proof.
  intros Hcap Hring. unfold run_secure_within. destruct (build_sender config env) as [sender|]; [|done].
  rewrite Hring. unfold run_captured. rewrite bind_run.
  pose proof (good_run agent_block agent_id keypair heartbeat start_time (pc_paths c) vars_init rounds
                (delivery_new (Some (Ring.new cap)))) as Hg.
  destruct (run_until _ _ _ _ _ _ vars_init rounds _) as [[tr1 f] d1] eqn:Erun; cbn [fst snd] in *.
  destruct f as [v|o|e|]; cbn [ret fst snd]; try done. apply stopped_formed in Erun. rewrite bind_run.
  pose proof (stop_phase_accounts (pc_paths c) o stop_budget i d1) as Hs.
  pose proof (stop_phase_unbounded (pc_paths c) o i d1) as Hu.
  destruct (stop_phase (pc_paths c) o stop_budget i d1) as [[tr2 out'] d2] eqn:Estop; cbn [fst snd ret] in *.
  rewrite app_nil_r. intros [= <- -> <-]. destruct Hs as (Ht & Hund & Hd). split.
  - destruct (tracks_accounts agent_id (pc_paths c) cap (delivery_new (Some (Ring.new cap))) (tr1 ++ tr2) d2
                Hcap eq_refl (tracks_trans _ _ _ _ _ _ _ Hg Ht)) as (r & lost & Hr & Hlen & Hdt & _).
    exists r, lost. split_and!; [done| |done]. rewrite Hr in Hund. rewrite Hlen.
    unfold formed, delivered, dropped in *.
    rewrite !omap_app, Hd, app_nil_r, !events_of_app, !length_app in *. lia.
  - intros ->. rewrite Estop in Hu. done.
Qed.

(** What of a stop's POST and of the ring is delivered, and what is left and counted. *)
Lemma stop_phase_events paths o stop_budget i d r :
  ring (stop_phase paths o stop_budget i d).2 = Some r →
  let '(tr, out, d') := stop_phase paths o stop_budget i d in
  dropped tr = [] ∧ ∃ left, length left = outcome_undelivered out ∧
    events_of (flight_list o ++ formed tr) ++ (render_event agent_id paths <$> snapshot_events r)
      ≡ₚ events_of (delivered tr) ++ left.
Proof.
  unfold stop_phase. rewrite bind_run.
  destruct (capture_events (at_teardown i) d) as (K1 & K2 & K3).
  destruct (capture (at_teardown i) d) as [[t1 []] d1]; cbn [fst snd] in *.
  match goal with |- context [negb ?b] => destruct b end; cbn [negb].
  - rewrite bind_run.
    match goal with |- context [finish _ _ _ _ _ _ ?dl _ _ _ _ _ d1] =>
      pose proof (finish_delivers agent_block agent_id keypair heartbeat paths o dl (final_left_at i)
        (final_done_at i) (final_drain i) (final_end i) (final_io i) d1) as Hf end.
    destruct (finish _ _ _ _ _ _ _ _ _ _ _ _ d1) as [[t2 fin] d2]; cbn [fst snd ret] in *.
    intros Hr. rewrite Hr in Hf. destruct Hf as (b & Hb & Hd & Hu). rewrite app_nil_r.
    unfold delivered, formed, dropped in *. rewrite !omap_app, K1, K2, K3, Hd. cbn [app]. rewrite Hb.
    split; [done|].
    assert (outcome_undelivered (if expired fin then StopExpired PENDING_FINAL_REQUEST (undelivered_count fin)
      else StopCompleted (undelivered_count fin)) = undelivered_count fin) as -> by (by destruct (expired fin)).
    destruct Hu as [[-> ->]|[-> ->]]; cbn; rewrite ?app_nil_r; eexists; (split; [|done]);
      rewrite ?length_app, length_fmap, snapshot_length; lia.
  - cbn [fst snd]. intros Hr. rewrite app_nil_r, K1, K2, K3, app_nil_r. split; [done|].
    exists (events_of (flight_list o) ++ (render_event agent_id paths <$> snapshot_events r)). split; [|done].
    cbn. unfold undelivered. rewrite Hr, length_app, length_fmap, snapshot_length.
    unfold flight_list. destruct o; cbn; rewrite ?app_nil_r; lia.
Qed.

(** Which events they are. *)
Lemma secure_stop_events config c env rounds stop_budget i (cap : nat) tr out d :
  (0 < cap)%nat → pc_ring c = Some (Ring.new cap) →
  run_secure_within config (Ok c) env rounds stop_budget i = (tr, Ended (Ok out), d) →
  ∃ r evicted left,
    ring d = Some r ∧ r = (ring_run (Ring.new cap) (ops tr)).2 ∧ length left = outcome_undelivered out ∧
    (render_event agent_id (pc_paths c) <$> Ring.accepted (ops tr)) ≡ₚ
      events_of (delivered tr) ++ events_of (dropped tr) ++ evicted ++ left ∧
    dropped_total r = wrap_u 64 (Z.of_nat (length evicted) + Z.of_nat (length (events_of (dropped tr)))).
Proof.
  intros Hcap Hring. unfold run_secure_within. destruct (build_sender config env) as [sender|]; [|done].
  rewrite Hring. unfold run_captured. rewrite bind_run.
  pose proof (good_run agent_block agent_id keypair heartbeat start_time (pc_paths c) vars_init rounds
                (delivery_new (Some (Ring.new cap)))) as Hg.
  destruct (run_until _ _ _ _ _ _ vars_init rounds _) as [[tr1 f] d1] eqn:Erun; cbn [fst snd] in *.
  destruct f as [v|o|e|]; cbn [ret fst snd]; try done. apply stopped_formed_perm in Erun. rewrite bind_run.
  pose proof (stop_phase_accounts (pc_paths c) o stop_budget i d1) as Hs.
  pose proof (stop_phase_events (pc_paths c) o stop_budget i d1) as He.
  destruct (stop_phase (pc_paths c) o stop_budget i d1) as [[tr2 out'] d2] eqn:Estop; cbn [fst snd ret] in *.
  rewrite app_nil_r. intros [= <- -> <-]. destruct Hs as (Ht & _).
  pose proof (tracks_trans _ _ _ _ _ _ _ Hg Ht) as Hall.
  destruct (tracks_events agent_id (pc_paths c) cap (delivery_new (Some (Ring.new cap))) (tr1 ++ tr2) d2
              Hcap eq_refl Hall) as (r & evicted & Hr & Hp & Hdt).
  destruct (He r Hr) as (Hd & left & Hleft & Hl). exists r, evicted, left. split_and!; [done| |done| |done].
  { destruct Hall as [Hall _]. cbn in Hall. rewrite Hr in Hall. by injection Hall. }
  rewrite Hp. unfold formed, delivered, dropped in *. rewrite !omap_app, Hd, app_nil_r, !events_of_app.
  rewrite events_of_app in Hl.
  rewrite Erun, <- !app_assoc, (app_assoc _ (_ <$> _)) at 1.
  transitivity (events_of (omap (λ a, match a with Attempted b Delivered => Some b | _ => None end) tr1) ++
    events_of (omap (λ a, match a with DroppedBatch b _ => Some b | _ => None end) tr1) ++
    ((events_of (flight_list o) ++ events_of (omap (λ a, match a with Formed b => Some b | _ => None end) tr2)) ++
     (render_event agent_id (pc_paths c) <$> snapshot_events r)) ++ evicted); [by rewrite <- !app_assoc|].
  rewrite Hl. solve_Permutation.
Qed.

(** C26 The secure run's stop reports every event: for any run over an opened
    capture that ends by a stop, within a budget or without one, and even when the
    budget ran out before the sources were torn down, each event accepted since the
    start was delivered, was in a batch dropped after rejections, was evicted by the
    ring, or is in the number of undelivered events of the outcome; without a budget
    the outcome is always a completed stop. *)
Theorem secure_stop_accounts config c env rounds stop_budget i (cap : nat) tr out d :
  (0 < cap)%nat → pc_ring c = Some (Ring.new cap) →
  run_secure_within config (Ok c) env rounds stop_budget i = (tr, Ended (Ok out), d) →
  (∃ r lost,
     ring d = Some r ∧
     length (Ring.accepted (ops tr)) =
       (length (events_of (delivered tr)) + length (events_of (dropped tr))
        + lost + outcome_undelivered out)%nat ∧
     dropped_total r = wrap_u 64 (Z.of_nat lost + Z.of_nat (length (events_of (dropped tr))))) ∧
  (stop_budget = None → ∃ u, out = StopCompleted u).
Proof. apply secure_stop_counts. Qed.

End Secure.

(** A run whose stop deadline passes while the sources are torn down. *)
Definition sample_stop : StopInput :=
  {| signal_at := seconds 31; at_teardown := []; torn_in_time := false; final_left_at := 0;
     final_done_at := 0; final_drain := []; final_end := []; final_io := λ _, sample_io None |}.

Definition sample_stopping : list Round :=
  [sample_round 0 [(0, Network (sample_network 1))] (Some (sample_io None));
   {| now := 1; now_idle := 1; at_check := []; at_len := []; at_oldest := []; at_drain := [];
      at_attempt := []; attempt_io := None; stop := true |}].

Definition sample_tls : TlsEnv (R := ToyRustls.toy) :=
  Build_TlsEnv (R := ToyRustls.toy) (λ _, Ok [Byte.x01]) [Byte.x02] (Ok []) Ok (λ _, Ok tt).

Notation sample_secure :=
  (run_secure_within (W := ToyCrypto.toy) (R := ToyRustls.toy) sample_block "agent"
     (keypair_of (W := ToyCrypto.toy) tt) heartbeat_default 0 ToyEnrollment.config
     (Ok {| pc_ring := Some (Ring.new 8); pc_paths := empty_map |})
     sample_tls sample_stopping (Some (seconds 58)) sample_stop) (only parsing).

Lemma secure_stop_accounts_witness :
  sample_secure.1.2 = Ended (Ok (StopExpired PENDING_TEARDOWN 1)) ∧
  ∃ lost, length (Ring.accepted (ops sample_secure.1.1)) =
    (length (events_of (delivered sample_secure.1.1)) + length (events_of (dropped sample_secure.1.1))
     + lost + 1)%nat.
Proof.
  assert (sample_secure = (sample_secure.1.1, Ended (Ok (StopExpired PENDING_TEARDOWN 1)), sample_secure.2))
    as E by (vm_compute; reflexivity).
  split; [vm_compute; reflexivity|].
  destruct (secure_stop_accounts (W := ToyCrypto.toy) (R := ToyRustls.toy) sample_block "agent"
    (keypair_of (W := ToyCrypto.toy) tt) heartbeat_default 0 ToyEnrollment.config
    {| pc_ring := Some (Ring.new 8); pc_paths := empty_map |} _ sample_stopping (Some (seconds 58))
    sample_stop 8 _ _ _ ltac:(lia) eq_refl E) as [(r & lost & _ & H & _) _].
  exists lost. exact H.
Defined.
