(* ===== verification/Capture.v ===== *)
(** * The capture as a whole ([lib.rs]: [open_platform_capture], [open_logons])

    The capture opened over the session of [EtwSession] and the subscription of
    [Subscription], which refines the one [Agent] is written against; and the three sources
    filling one ring, with the types of the events the delivery takes from it. *)

From S2P Require Import Prelude IpAddr Types Errors Ring Cache Network Dispatch Hygiene Logon Subscription EtwSession.
From S2P Require Import Paths Wide Agent.
Open Scope Z_scope.

(** ** The platform *)

Inductive TargetOs := Windows | Linux | MacOs | OtherOs.

Definition detect_platform (os : TargetOs) : string :=
  match os with Windows => "windows" | Linux => "linux" | MacOs => "macos" | OtherOs => "unknown" end.

(** The map of drives, built once at the start; empty where there is no capture. *)
Definition device_path_map (os : TargetOs) (query : list Z → option (list Z)) : DevicePathMap :=
  match os with Windows => from_system query | _ => empty_map end.

(** ** Opening *)

Section Open.
Context (system_message : Z → string).
Context (trace_start : option nat → Result unit TraceError * option nat) (p : Token).

(** [PlatformCapture]: the ring, and the sources that fill it. *)
Record CaptureSources := {
  so_ring : option EventRing;
  so_session : option EtwSession;
  so_logons : option LogonState;
  so_paths : DevicePathMap;
}.

(** A ring the caller fills, or none: no source. *)
Definition ring_only (ring : option EventRing) : CaptureSources :=
  {| so_ring := ring; so_session := None; so_logons := None; so_paths := empty_map |}.

(** What the subscription's opening answers, and what a stop of the session meets. *)
Record OpenInput := {
  oi_start : StartInput;
  oi_create_render_context : list string → Z * Z;
  oi_signal_event : Z * Z;
  oi_evt_subscribe : string → string → Z * Z;
  oi_stop_event : Z * Z;
  oi_thread : Result unit string;
  oi_stop : SessionStop;
  oi_now : Instant;
}.

Definition open_subscription_of (i : OpenInput) (ring : EventRing) : Result LogonState LogonError :=
  open_subscription system_message (oi_create_render_context i) (oi_signal_event i) (oi_evt_subscribe i) (oi_stop_event i)
    (oi_thread i) (oi_now i) ring.

(** The logon subscription beside an open session, which is stopped if it cannot open;
    [None] if that stop does not return. *)
Definition open_logons (i : OpenInput) (session : EtwSession) (h : Host)
  : option (Result (EtwSession * LogonState) AgentError * Host) :=
  match open_subscription_of i (es_ring session) with
  | Ok logons => Some (Ok (session, logons), h)
  | Err e =>
      match EtwSession.stop p (oi_stop i) session h (oi_now i) with
      | Some (_, h, _, _) => Some (Err (AgentLogon e), h)
      | None => None
      end
  end.

Definition open_platform_capture (i : OpenInput) (process_id : Z) (drives : DevicePathMap) (holds_lock : bool) (h : Host)
  : option (Result CaptureSources AgentError * Host) :=
  let mode := if holds_lock then Locked else Unlocked in
  match open_excluding system_message trace_start p (oi_start i) RING_CAPACITY process_id mode h with
  | (Err Unsupported, h) => Some (Ok (ring_only None), h)
  | (Err e, h) => Some (Err (AgentEtw (etw_from_open e)), h)
  | (Ok session, h) =>
      match open_logons i session h with
      | None => None
      | Some (Err e, h) => Some (Err e, h)
      | Some (Ok (session, logons), h) =>
          Some (Ok {| so_ring := Some (es_ring session); so_session := Some session; so_logons := Some logons;
                      so_paths := drives |}, h)
      end
  end.
End Open.

(** Elsewhere there is no logon source, which is a type without a value, and the session
    goes on alone. *)
Inductive NoLogons : Type := .
Definition no_logons_stop (l : NoLogons) : NoLogons := match l with end.
Definition open_logons_elsewhere (ring : EventRing) (session : EtwSession)
  : Result (EtwSession * option NoLogons) AgentError := Ok (session, None).

(** What a secure run captures from. *)
Inductive CaptureKind := PlatformKind (holds_lock : bool) | RingKind (ring : EventRing) | OffKind.

(** The capture a run is given, opened. *)
Definition opened_capture (capture : CaptureKind) (platform : bool → Result PlatformCapture AgentError)
  : Result PlatformCapture AgentError :=
  match capture with
  | PlatformKind holds_lock => platform holds_lock
  | RingKind ring => Ok (events_only (Some ring))
  | OffKind => Ok (events_only None)
  end.

(** A start on Windows fails with an error of its own. *)
Lemma start_supported system_message trace_start p i cap pid mode h :
  (start system_message trace_start p i cap pid mode h).1 ≠ Err Unsupported.
Proof.
  unfold start. destruct (si_spawned i); [|done]. destruct (trace_start _) as [[[]|e] o].
  - by destruct (si_reported i), mode.
  - destruct (si_reported i); [|by destruct mode]. unfold fail_start. cbn [fst].
    assert (∀ code, from_win32 system_message code ≠ Unsupported) as Hw.
    { intros code. unfold from_win32. by repeat case_match. }
    intros H. assert (open_error system_message e ≠ Unsupported) as Ho.
    { destruct e as [[raw|] m| | |]; cbn [open_error]; try apply Hw; done. }
    destruct (open_error system_message e) as [| |code m|]; [by destruct mode..| |done].
    destruct mode; cbn [with_lock_mode] in H; [done|]. by repeat case_match.
Qed.

Lemma start_ring system_message trace_start p i cap pid mode h s h' :
  start system_message trace_start p i cap pid mode h = (Ok s, h') → es_ring s = Ring.new cap.
Proof.
  unfold start. destruct (si_spawned i); [|done]. destruct (trace_start _) as [[[]|e] o], (si_reported i); try done.
  by intros [= <- _].
Qed.

Lemma open_subscription_ring system_message i ring logons :
  open_subscription_of system_message i ring = Ok logons → (sink logons).1 = ring.
Proof.
  unfold open_subscription_of, open_subscription, map_err. intros H. repeat case_match; by simplify_eq/=.
Qed.

(** What an error or a success says, without what it carries. *)
Definition unit_of {A E} (r : Result A E) : Result unit E := match r with Ok _ => Ok tt | Err e => Err e end.

(** C16 Opening the capture refines the step the agent's run is written against: it always
    returns, with the error or the success that step gives on the answers of the session's
    start and of the subscription's opening. With the lock, a token that controls
    sessions and stops that are not refused, a capture that opens has its own session
    running, its pump and its logon thread filling one empty ring; one that fails leaves
    no session of the name running, whichever source failed. *)
Theorem capture_open_refines system_message trace_start p (i : OpenInput) (process_id : Z)
    (drives : DevicePathMap) (holds_lock : bool) (h : Host) :
  trace_contract system_message p trace_start →
  let started := start system_message trace_start p (oi_start i) RING_CAPACITY (Some process_id)
                   (if holds_lock then Locked else Unlocked) h in
  let '(spec, sources) := Agent.open_platform_capture holds_lock (λ _, unit_of started.1)
                            (unit_of (open_subscription_of system_message i (Ring.new RING_CAPACITY))) drives in
  ∃ r h', open_platform_capture system_message trace_start p i process_id drives holds_lock h = Some (r, h') ∧
    unit_of r = unit_of spec ∧
    (holds_lock = true → controls p = true →
     si_reclaim_refused (oi_start i) = None → si_stop_refused (oi_start i) = None → sp_refused (oi_stop i) = None →
     (∀ o, si_before_start (oi_start i) o = o) → (∀ o, si_before_stop (oi_start i) o = o) →
     match r with
     | Ok c => owner h' = Some (me p) ∧ sources = {| etw_running := true; logons_running := true |} ∧
         ∃ session logons, so_session c = Some session ∧ so_logons c = Some logons ∧
           es_pump session = true ∧ es_excluded_pid session = Some process_id ∧
           es_ring session = Ring.new RING_CAPACITY ∧ (sink logons).1 = es_ring session ∧
           so_ring c = Some (es_ring session)
     | Err _ => owner h' = None ∧ sources = no_sources
     end).
Proof.
  intros Htrace started. unfold Agent.open_platform_capture, open_platform_capture, open_excluding. fold started.
  pose proof (start_supported system_message trace_start p (oi_start i) RING_CAPACITY (Some process_id)
                (if holds_lock then Locked else Unlocked) h) as Hu.
  pose proof (locked_start_outcome system_message p trace_start Htrace (oi_start i) RING_CAPACITY (Some process_id) h) as Hl.
  fold started in Hu. destruct started as [[session|e] h1] eqn:Es; cbn [fst unit_of].
  - assert (es_ring session = Ring.new RING_CAPACITY) as Hring by (by eapply start_ring).
    unfold open_logons. rewrite Hring. destruct (open_subscription_of _ _ _) as [logons|e] eqn:El; cbn.
    + do 2 eexists. split; [done|]. split; [done|]. intros -> Hc H1 H2 H3 H4 H5.
      subst started. rewrite Es in Hl. destruct (Hl Hc H1 H2 H4 H5) as [(A & B & C & D & E) _]. split; [done|]. split; [done|].
      exists session, logons. split_and!; try done. rewrite Hring. by eapply open_subscription_ring.
    + destruct (stop_returns p (oi_stop i) session h1 (oi_now i)) as (s' & h' & t & w & -> & Ho).
      do 2 eexists. split; [done|]. split; [done|]. intros -> Hc H1 H2 H3 H4 H5.
      subst started. rewrite Es in Hl. destruct (Hl Hc H1 H2 H4 H5) as [(A & B & _) _]. split; [|done].
      apply Ho; [done..|by left].
  - destruct e; cbn; try done; (do 2 eexists; split; [done|]; split; [done|]); intros -> Hc H1 H2 H3 H4 H5;
      subst started; rewrite Es in Hl; destruct (Hl Hc H1 H2 H4 H5) as [A _]; done.
Qed.

(** ** The three sources and the delivery over one ring *)

(** The types of an event's fields, and what the constructors promise beside them. *)
Definition process_typed (e : CapturedEvent) : Prop :=
  in_u 32 (ce_pid e) ∧ in_u 32 (ce_parent_pid e) ∧ in_u 64 (ce_etw_timestamp_nanos e) ∧
  from_option (in_u 64) True (ce_created_time_nanos e) ∧ from_option (in_i 32) True (ce_exit_status e) ∧
  ce_image_file_name e ≠ "" ∧
  match ce_activity_id e with
  | Launch => ce_exit_status e = None ∧ ce_created_time_nanos e = Some (ce_etw_timestamp_nanos e)
  | Terminate => True
  end.

Definition endpoint_typed (a : SocketAddr) : Prop := ip_wf (ip a) ∧ in_u 16 (IpAddr.port a).

Definition network_typed (e : NetworkEvent) : Prop :=
  in_u 32 (ne_pid e) ∧ endpoint_typed (ne_src e) ∧ endpoint_typed (ne_dst e) ∧
  in_u 64 (ne_etw_timestamp_nanos e) ∧ from_option (in_u 64) True (ne_created_time_nanos e).

Definition logon_typed (e : LogonEvent) : Prop :=
  le_user_uid e ≠ "" ∧ in_u 32 (le_logon_type_id e) ∧ le_auth_protocol_id e ∈ [0; 1; 2; 99] ∧
  from_option (λ s, ip_wf (ls_ip s)) True (le_src e) ∧
  in_u 64 (le_timestamp_nanos e) ∧
  match le_status e with
  | Success => le_status_code e = None ∧ le_status_detail e = None
  | Failure => from_option (in_u 32) False (le_status_code e) ∧ from_option (in_u 32) False (le_status_detail e) ∧
               le_elevated_token e = None
  end.

Definition event_typed (e : RingEvent) : Prop :=
  match e with Process e => process_typed e | Network e => network_typed e | Logon e => logon_typed e end.

(** What the parser gives: integers at their widths. *)
Definition record_typed (r : EventRecord) : Prop :=
  (∀ name x, er_u32 r name = Some x → in_u 32 x) ∧ (∀ name x, er_i32 r name = Some x → in_i 32 x).

(** One turn of a source, of the hygiene thread or of the delivery loop, in the order they
    take the locks. *)
Inductive CaptureOp :=
| Traced (d : string * Instant * Delivered)
| Logged (draw : string * Instant) (r : LogRecord)
| Swept (is_alive : Z → bool) (at_snapshot : gmap Z Z)
| Taken (max : nat).

Definition op_typed (op : CaptureOp) : Prop :=
  match op with Traced (_, FromProcess r) => record_typed r | _ => True end.

Definition with_ring (s : EtwSession) (ring : EventRing) : EtwSession :=
  {| es_ring := ring; es_cache := es_cache s; es_discards := es_discards s; es_excluded_pid := es_excluded_pid s;
     es_pump := es_pump s; es_hygiene := es_hygiene s |}.
Definition with_cache (s : EtwSession) (cache : gmap Z Z) : EtwSession :=
  {| es_ring := es_ring s; es_cache := cache; es_discards := es_discards s; es_excluded_pid := es_excluded_pid s;
     es_pump := es_pump s; es_hygiene := es_hygiene s |}.

(** The events taken, and the sources after it. *)
Definition capture_step (s : EtwSession * LogonCounters) (op : CaptureOp) : list RingEvent * (EtwSession * LogonCounters) :=
  match op with
  | Traced d => ([], (deliver s.1 d, s.2))
  | Logged draw r =>
      let '(ring, counters) := handle_record draw r (es_ring s.1, s.2) in ([], (with_ring s.1 ring, counters))
  | Swept is_alive at_snapshot =>
      ([], (with_cache s.1 (sweep_between is_alive at_snapshot (es_cache s.1)).2, s.2))
  | Taken max => let '(out, ring) := drain_up_to (es_ring s.1) max in (out, (with_ring s.1 ring, s.2))
  end.

Fixpoint capture_run (s : EtwSession * LogonCounters) (ops : list CaptureOp)
  : list RingEvent * (EtwSession * LogonCounters) :=
  match ops with
  | [] => ([], s)
  | op :: ops =>
      let '(out, s) := capture_step s op in
      let '(outs, s) := capture_run s ops in (out ++ outs, s)
  end.

(** A ring that holds typed events within its capacity. *)
Definition ring_typed (cap : nat) (r : EventRing) : Prop :=
  capacity r = cap ∧ (length (events r) ≤ cap)%nat ∧ Forall event_typed (snapshot_events r).

Lemma enqueue_typed cap r now e : (0 < cap)%nat → ring_typed cap r → (refused_event e = false → event_typed e) →
  ring_typed cap (enqueue_or_drop r now e).
Proof.
  intros Hpos (Hc & Hl & Hf) He. unfold enqueue_or_drop, ring_typed, snapshot_events in *.
  destruct (refused_event e); [done|]. specialize (He eq_refl).
  case_decide as Hd; cbn; rewrite fmap_app, length_app; cbn; (split; [done|]).
  - destruct (events r) as [|x l]; cbn in *; [lia|]. split; [lia|]. inversion Hf; subst.
    apply Forall_app. split; [done|by repeat constructor].
  - split; [lia|]. apply Forall_app. split; [done|by repeat constructor].
Qed.

Lemma decode_pid_range bs x : decode_pid bs = Some x → in_u 32 x.
Proof.
  unfold decode_pid. case_decide as H; [|done]. intros [= <-]. pose proof (from_le_bytes_range bs) as Hr.
  by rewrite H in Hr.
Qed.

Lemma port_range bs x : port bs = Some x → in_u 16 x.
Proof.
  unfold port, from_be_bytes. case_decide as H; [|done]. intros [= <-].
  pose proof (from_le_bytes_range (reverse bs)) as Hr. by rewrite length_reverse, H in Hr.
Qed.

Lemma decode_connection_typed event_id p sa da sp dp c :
  decode_connection event_id p sa da sp dp = Some c →
  in_u 32 (dc_pid c) ∧ endpoint_typed (dc_src c) ∧ endpoint_typed (dc_dst c).
Proof.
  unfold decode_connection. intros H.
  destruct (connection_direction event_id) as [d|]; [|done].
  destruct (decode_pid p) eqn:Ep; [|done]. simpl in H.
  destruct (address sa) eqn:Es; [|done]. destruct (port sp) eqn:Esp; [|done].
  destruct (address da) eqn:Ed; [|done]. destruct (port dp) eqn:Edp; [|done].
  apply address_wf in Es, Ed. apply port_range in Esp, Edp. apply decode_pid_range in Ep.
  simpl in H. unfold endpoint_typed. destruct d; by simplify_eq.
Qed.

Lemma u32_of_range v x : u32_of v = Some x → in_u 32 x.
Proof.
  unfold u32_of. intros H. repeat case_match; simplify_eq; [apply wrap_u_range; lia|..].
  - pose proof (wrap_u_range 16 (v_bits v)) as [? ?]; unfold in_u in *; lia.
  - pose proof (wrap_u_range 8 (v_bits v)) as [? ?]; unfold in_u in *; lia.
Qed.

Lemma render_typed r raw : render r = Ok raw →
  (∀ x, rl_status raw = Some x → in_u 32 x) ∧ (∀ x, rl_sub_status raw = Some x → in_u 32 x).
Proof.
  unfold render, record_of. intros H. repeat case_match; simplify_eq; cbn; split; intros x; apply u32_of_range.
Qed.

Lemma logon_type_id_u32 t : in_u 32 (logon_type_id t).
Proof. unfold logon_type_id, in_u. destruct t; [|lia]. repeat case_match; lia. Qed.

Lemma auth_protocol_id_cases s : auth_protocol_id s ∈ [0; 1; 2; 99].
Proof. unfold auth_protocol_id. repeat case_match; set_solver. Qed.

Lemma decode_logon_typed uuid raw e :
  (∀ x, rl_status raw = Some x → in_u 32 x) → (∀ x, rl_sub_status raw = Some x → in_u 32 x) →
  decode_logon uuid raw = Report e → logon_typed e.
Proof.
  intros Hs Hss He.
  assert (∀ o : option Z, (∀ x, o = Some x → in_u 32 x) → in_u 32 (default 0 o)) as Hd.
  { intros [x|] Hx; [by apply Hx|]. unfold in_u. cbn. lia. }
  destruct (decode_logon_report uuid raw e He) as (_ & Hne & _ & Ht & _). apply filetime_range in Ht.
  assert (from_option (λ s, ip_wf (ls_ip s)) True (le_src e) ∧ le_logon_type_id e = logon_type_id (rl_logon_type raw) ∧
    (∃ a, le_auth_protocol_id e = auth_protocol_id a) ∧
    match le_status e with
    | Success => le_status_code e = None ∧ le_status_detail e = None
    | Failure => le_status_code e = Some (default 0 (rl_status raw)) ∧
                 le_status_detail e = Some (default 0 (rl_sub_status raw)) ∧ le_elevated_token e = None
    end) as (Hip & Hty & (a & Ha) & Hst).
  { unfold decode_logon in He.
    assert (from_option (λ s, ip_wf (ls_ip s)) True (source (rl_ip_address raw) (rl_workstation raw))) as Hw.
    { destruct (source _ _) eqn:E; [|done]. by apply source_wf in E. }
    destruct (_ =? EVENT_LOGON_SUCCESS); [|destruct (_ =? EVENT_LOGON_FAILURE); [|done]];
      repeat case_match; simplify_eq/=; split_and!; done || by eexists. }
  unfold logon_typed. rewrite Hty, Ha. split_and!; try done; [apply logon_type_id_u32|apply auth_protocol_id_cases|].
  destruct (le_status e); [done|]. destruct Hst as (-> & -> & ->). split_and!; cbn; by apply Hd || done.
Qed.

Definition cache_typed (c : gmap Z Z) : Prop := map_Forall (λ _ t, in_u 64 t) c.

Lemma cache_typed_lookup c pid : cache_typed c → from_option (in_u 64) True (c !! pid).
Proof. intros H. destruct (c !! pid) eqn:E; [by eapply H|done]. Qed.

Lemma raw_process_typed a r : record_typed r →
  in_u 32 (rp_pid (raw_process a r)) ∧ in_u 32 (rp_parent_pid (raw_process a r)) ∧
  from_option (in_i 32) True (rp_exit_status (raw_process a r)) ∧
  (rp_activity_id (raw_process a r) = Launch → rp_exit_status (raw_process a r) = None).
Proof.
  intros [Hu Hi]. assert (∀ name, in_u 32 (default 0 (er_u32 r name))) as Hd.
  { intros name. destruct (er_u32 r name) eqn:E; [by eapply Hu|unfold in_u; cbn; lia]. }
  cbn. split_and!; try apply Hd; destruct a; try done. destruct (er_i32 r _) eqn:E; [by eapply Hi|done].
Qed.

Lemma dispatch_record_typed cap uuid now raw c r : (0 < cap)%nat →
  in_u 32 (rp_pid raw) → in_u 32 (rp_parent_pid raw) → from_option (in_i 32) True (rp_exit_status raw) →
  (rp_activity_id raw = Launch → rp_exit_status raw = None) →
  cache_typed c → ring_typed cap r →
  let '(c', r') := dispatch_record uuid now raw c r in cache_typed c' ∧ ring_typed cap r'.
Proof.
  intros Hcap Hp Hpp Hx Hl Hc Hr. unfold dispatch_record.
  destruct (filetime_to_unix_nanos _) as [t|] eqn:Et; [|done]. apply filetime_range in Et.
  pose proof (cache_typed_lookup c (rp_pid raw) Hc) as Hlook. unfold consult_and_purge.
  destruct (rp_activity_id raw) eqn:Ea.
  all: split; [first [by apply map_Forall_insert_2|by apply map_Forall_delete]|].
  all: apply enqueue_typed; [done|done|]; intros Hne; unfold event_typed, process_typed; cbn in *.
  all: split_and!; try done; [by intros E; rewrite E in Hne|..]; by apply Hl.
Qed.

Lemma network_typed_step cap uuid now r x ring c d : (0 < cap)%nat → cache_typed c → ring_typed cap ring →
  ring_typed cap (network_callback uuid now r x ring c d).1.
Proof.
  intros Hcap Hc Hr. pose proof (network_callback_fate uuid now r x ring c d) as H.
  destruct (network_callback _ _ _ _ _ _ _) as [ring' d']. cbn.
  destruct (network_fate x r) as [con t| | |] eqn:Ef; destruct H as [H1 H2]; try (by rewrite H1).
  rewrite H2. apply enqueue_typed; [done..|]. intros _. unfold network_fate in Ef. repeat case_match; simplify_eq.
  match goal with H : decode_connection _ _ _ _ _ _ = _ |- _ => apply decode_connection_typed in H as (? & ? & ?) end.
  match goal with H : filetime_to_unix_nanos _ = _ |- _ => apply filetime_range in H end.
  repeat (split; [done|]). by apply (cache_typed_lookup c (dc_pid con)).
Qed.

Lemma handle_record_typed cap draw r ring counters : (0 < cap)%nat → ring_typed cap ring →
  ring_typed cap (handle_record draw r (ring, counters)).1.
Proof.
  intros Hcap Hr. unfold handle_record. destruct (render r) as [raw|] eqn:Er; [|done].
  destruct (render_typed r raw Er) as [Hs Hss]. cbn [fst snd]. unfold dispatch_logon_record.
  destruct (decode_logon draw.1 raw) as [e| | |] eqn:Ed; try done.
  apply enqueue_typed; [done..|]. intros _. by eapply decode_logon_typed.
Qed.

Definition sources_typed (cap : nat) (s : EtwSession) : Prop := ring_typed cap (es_ring s) ∧ cache_typed (es_cache s).

Lemma capture_step_typed cap s op : (0 < cap)%nat → op_typed op → sources_typed cap s.1 →
  let '(out, s') := capture_step s op in sources_typed cap s'.1 ∧ Forall event_typed out.
Proof.
  intros Hcap Hop [Hr Hc]. destruct op as [[[uuid now] [r|r]]|draw r|is_alive at_snapshot|max]; cbn [capture_step].
  - split; [|constructor]. unfold deliver, dispatch_callback. cbn in Hop |- *.
    destruct (if er_event_id r =? 1 then _ else _) as [a|]; [|done]. destruct (er_schema r); [|done].
    destruct (raw_process_typed a r Hop) as (A & B & C & D).
    pose proof (dispatch_record_typed cap uuid now (raw_process a r) _ _ Hcap A B C D Hc Hr) as H.
    destruct (dispatch_record _ _ _ _ _). by destruct H.
  - split; [|constructor]. unfold deliver.
    pose proof (network_typed_step cap uuid now r (es_excluded_pid s.1) _ _ (es_discards s.1) Hcap Hc Hr) as H.
    by destruct (network_callback _ _ _ _ _ _ _).
  - pose proof (handle_record_typed cap draw r (es_ring s.1) s.2 Hcap Hr) as H.
    by destruct (handle_record _ _ _).
  - split; [|constructor]. split; [done|]. pose proof (sweep_evicts_exactly is_alive at_snapshot (es_cache s.1)) as H.
    destruct (sweep_between _ _ _) as [n c]. destruct H as [H _]. intros pid t. cbn. rewrite H.
    case_decide; [done|]. by apply Hc.
  - destruct Hr as (H1 & H2 & H3). unfold drain_up_to, snapshot_events in *. split; cbn.
    + split; [|done]. split; [done|]. cbn. rewrite length_drop. split; [lia|]. unfold snapshot_events. cbn.
      rewrite fmap_drop. by apply Forall_drop.
    + rewrite fmap_take. by apply Forall_take.
Qed.

(** C19 Every event the capture hands to the delivery is well typed: over any interleaving of
    the two tracing callbacks, the logon thread, the hygiene sweep and the delivery's
    reads, each event taken, and each still in the ring, has its identifiers, ports,
    codes and timestamps within their machine widths, well-formed addresses, a
    non-empty image path or user (the name rendered from a path that ends in a separator is
    empty all the same, [Emit.empty_process_name_reachable]), no exit status on a launch, and status codes exactly on
    a failed logon; and the ring never exceeds its capacity. *)
Theorem captured_events_typed (cap : nat) (excluded_pid : option Z) (hygiene_spawned : Result unit string)
    (ops : list CaptureOp) :
  (0 < cap)%nat → Forall op_typed ops →
  let '(out, s) := capture_run (opened_session cap excluded_pid hygiene_spawned, counters_new) ops in
  Forall event_typed out ∧ Forall event_typed (snapshot_events (es_ring s.1)) ∧
  (length (events (es_ring s.1)) ≤ cap)%nat.
Proof.
  intros Hcap Hops.
  assert (∀ s, sources_typed cap s.1 →
    let '(out, s') := capture_run s ops in sources_typed cap s'.1 ∧ Forall event_typed out) as Hrun.
  { induction Hops as [|op ops Hop _ IH]; intros s Hs; cbn [capture_run]; [by split|].
    pose proof (capture_step_typed cap s op Hcap Hop Hs) as Hst. destruct (capture_step s op) as [out s1].
    destruct Hst as [H1 H2]. specialize (IH s1 H1). destruct (capture_run s1 ops) as [outs s2].
    destruct IH as [I1 I2]. split; [done|]. by apply Forall_app. }
  specialize (Hrun (opened_session cap excluded_pid hygiene_spawned, counters_new)).
  destruct (capture_run _ ops) as [out s]. destruct Hrun as [[(_ & Hl & He) _] Ho]; [|done].
  split; [|done]. split; [done|]. split; [cbn; lia|constructor].
Qed.

(** ** Witnesses *)

Definition sample_record (event_id : Z) : EventRecord :=
  {| er_event_id := event_id; er_raw_timestamp := 133000000000000000; er_schema := true;
     er_u32 := λ name, if decide (name = "ProcessID") then Some 4242 else None;
     er_i32 := λ name, if decide (name = "ExitCode") then Some (-1) else None;
     er_string := λ name, if decide (name = "ImageName") then Some "cmd.exe" else None;
     er_bytes := λ _, None |}.

Lemma sample_record_typed event_id : record_typed (sample_record event_id).
Proof. split; cbn; intros name x H; case_decide; simplify_eq; by vm_compute. Qed.

Lemma captured_events_typed_witness :
  let ops := [Traced ("a", 1, FromProcess (sample_record 1)); Traced ("b", 2, FromNetwork (sample_record 12));
              Traced ("c", 3, FromProcess (sample_record 2)); Taken 1;
              Logged ("d", 4) Subscription.sample_record; Swept (λ _, false) ∅; Taken 8] in
  let '(out, s) := capture_run (opened_session 4 (Some 7) (Ok tt), counters_new) ops in
  length out = 3%nat ∧ network_records_discarded s.1 = 1 ∧ Forall event_typed out.
Proof.
  intros ops.
  assert (Forall op_typed ops) as Hops.
  { repeat (apply Forall_cons_2; [first [exact I|apply sample_record_typed]|]). constructor. }
  pose proof (captured_events_typed 4 (Some 7) (Ok tt) ops ltac:(lia) Hops) as H.
  destruct (capture_run _ ops) as [out s] eqn:E. split; [|split; [|exact (proj1 H)]].
  - assert (length (capture_run (opened_session 4 (Some 7) (Ok tt), counters_new) ops).1 = 3%nat) as Hl
      by (by vm_compute). by rewrite E in Hl.
  - assert (network_records_discarded (capture_run (opened_session 4 (Some 7) (Ok tt), counters_new) ops).2.1 = 1) as Hl
      by (by vm_compute). by rewrite E in Hl.
Defined.

(** The subscription is refused: the session the start reclaimed and made its own is
    stopped. *)
Lemma capture_open_refines_witness :
  let i := {| oi_start := ToyTrace.quiet; oi_create_render_context := λ _, (1, 0); oi_signal_event := (2, 0);
              oi_evt_subscribe := λ _ _, (0, 5); oi_stop_event := (3, 0); oi_thread := Ok tt;
              oi_stop := {| sp_hygiene_joins := 0; sp_refused := None; sp_finished := λ _, true; sp_late := λ _, 0%nat |};
              oi_now := 0 |} in
  ∃ h, open_platform_capture ToyTrace.no_message ToyTrace.granting (ToyTrace.token true) i 99 empty_map true
         (ToyTrace.host (Some 3%nat)) = Some (Err (AgentLogon LogonAccessDenied), h) ∧ owner h = None.
Proof.
  intros i.
  pose proof (capture_open_refines ToyTrace.no_message ToyTrace.granting (ToyTrace.token true) i 99 empty_map true
    (ToyTrace.host (Some 3%nat)) (ToyTrace.granting_contract true)) as H.
  cbn -[RING_CAPACITY open_platform_capture] in H. destruct H as (r & h & E & Hu & H).
  specialize (H eq_refl eq_refl eq_refl eq_refl eq_refl (λ _, eq_refl) (λ _, eq_refl)).
  exists h. destruct r as [c|e]; [discriminate|]. split; [|exact (proj1 H)]. rewrite E. injection Hu as ->. reflexivity.
Defined.
