(* ===== verification/EndToEnd.v ===== *)
(** * From a record to its delivery

    The capture's sources and the secure run over one ring. A schedule interleaves the
    turns of the sources (the two tracing callbacks, the logon thread's records, the hygiene
    sweep) with the delivery's own operations on the ring; the sources' part of it is the
    callbacks themselves, run on the ring as it is then. *)

From S2P Require Import Prelude IpAddr Types Errors Ring Cache Network Dispatch Hygiene Logon Subscription EtwSession.
From S2P Require Import Capture Paths Emit Config Signing Tls TlsConfig Transport Enrollment Delivery Agent.
Open Scope Z_scope.

(** ** Schedules *)

Inductive SystemStep :=
| SourceTurn (op : CaptureOp)
| DeliveryTurn (op : RingOp).

(** The delivery takes events out and the sources put them in. *)
Definition proper (x : SystemStep) : Prop :=
  match x with
  | SourceTurn (Taken _) | DeliveryTurn (Enqueue _ _) => False
  | _ => True
  end.

Definition Sources := (EtwSession * LogonCounters)%type.

Definition system_step (s : Sources) (x : SystemStep) : Sources :=
  match x with
  | SourceTurn op => (capture_step s op).2
  | DeliveryTurn op => (with_ring s.1 (ring_step (es_ring s.1) op).2, s.2)
  end.

Definition system_run (s : Sources) (steps : list SystemStep) : Sources := foldl system_step s steps.

(** What a turn enqueues, as a ring with one place shows it. *)
Definition turn_ops (s : Sources) (op : CaptureOp) : list RingOp :=
  (λ p, Enqueue p.1 p.2) <$> Ring.events (es_ring (capture_step (with_ring s.1 (Ring.new 1), s.2) op).2.1).

(** The ring operations of a schedule, in order. *)
Fixpoint system_ops (s : Sources) (steps : list SystemStep) : list RingOp :=
  match steps with
  | [] => []
  | x :: steps =>
      match x with SourceTurn op => turn_ops s op | DeliveryTurn op => [op] end ++
      system_ops (system_step s x) steps
  end.

Definition source_turns (steps : list SystemStep) : list CaptureOp :=
  omap (λ x, match x with SourceTurn op => Some op | DeliveryTurn _ => None end) steps.

(** ** What a turn reports *)

(** A creation time the event has from the cache, not from its own record, left out. *)
Definition without_created (e : RingEvent) : RingEvent :=
  match e with
  | Process e =>
      Process {| ce_pid := ce_pid e; ce_event_id := ce_event_id e; ce_activity_id := ce_activity_id e;
                 ce_image_file_name := ce_image_file_name e; ce_parent_pid := ce_parent_pid e;
                 ce_command_line := ce_command_line e; ce_subject_user_sid := ce_subject_user_sid e;
                 ce_etw_timestamp_nanos := ce_etw_timestamp_nanos e;
                 ce_created_time_nanos := match ce_activity_id e with
                                          | Launch => ce_created_time_nanos e | Terminate => None end;
                 ce_exit_status := ce_exit_status e |}
  | Network e =>
      Network {| ne_event_id := ne_event_id e; ne_pid := ne_pid e; ne_direction := ne_direction e;
                 ne_src := ne_src e; ne_dst := ne_dst e; ne_etw_timestamp_nanos := ne_etw_timestamp_nanos e;
                 ne_created_time_nanos := None |}
  | Logon e => Logon e
  end.

(** The event a turn's record says, by its own fields; a process record without an image
    path says none. *)
Definition reported (excluded_pid : option Z) (op : CaptureOp) : option RingEvent :=
  match op with
  | Traced d =>
      match EtwSession.event_of excluded_pid [] d with
      | Some e => if refused_event e then None else Some e
      | None => None
      end
  | Logged draw r =>
      match Subscription.render r with
      | Ok raw => match decode_logon draw.1 raw with Report e => Some (Logon e) | _ => None end
      | Err _ => None
      end
  | Swept _ _ | Taken _ => None
  end.

(** A network record that is no usable connection, and a logon record that cannot be used. *)
Definition counts_discard (excluded_pid : option Z) (op : CaptureOp) : bool :=
  match op with
  | Traced (_, FromNetwork r) => match network_fate excluded_pid r with NotUsable => true | _ => false end
  | _ => false
  end.
Definition counts_unusable (op : CaptureOp) : bool :=
  match op with
  | Logged draw r =>
      match Subscription.render r with
      | Ok raw => match decode_logon draw.1 raw with Unusable => true | _ => false end
      | Err _ => true
      end
  | _ => false
  end.

Definition count (f : CaptureOp → bool) (l : list CaptureOp) : Z := Z.of_nat (length (filter f l)).

(** ** Lemmas *)

(** What a turn makes of a ring: it enqueues one event or none, the same one whatever the
    ring holds. *)
Definition turns_to (s : Sources) (op : CaptureOp) (o : option (Instant * RingEvent)) : Prop :=
  ∀ r, es_ring (capture_step (with_ring s.1 r, s.2) op).2.1 =
    match o with Some (now, e) => enqueue_or_drop r now e | None => r end.

(** What the exclusion and the counters become over a turn. *)
Definition counted (s : Sources) (op : CaptureOp) : Prop :=
  let s' := (capture_step s op).2 in
  es_excluded_pid s'.1 = es_excluded_pid s.1 ∧
  network_records_discarded s'.1 =
    (if counts_discard (es_excluded_pid s.1) op then wrap_u 64 (network_records_discarded s.1 + 1)
     else network_records_discarded s.1) ∧
  unusable s'.2 = (if counts_unusable op then wrap_u 64 (unusable s.2 + 1) else unusable s.2).

(** The event without its creation time, unless the ring refuses it. *)
Definition shown (o : option (Instant * RingEvent)) : option RingEvent :=
  match o with Some (_, e) => if refused_event e then None else Some (without_created e) | None => None end.

Lemma turn_process s counters uuid now r :
  let op := Traced (uuid, now, FromProcess r) in
  ∃ o, turns_to (s, counters) op o ∧ shown o = reported (es_excluded_pid s) op ∧ counted (s, counters) op.
Proof.
  cbn zeta. unfold turns_to, counted, reported, EtwSession.event_of, process_said, capture_step, deliver, dispatch_callback.
  cbn [fst snd].
  destruct (er_event_id r =? 1), (er_event_id r =? 2), (er_schema r); cbn [fst snd]; unfold dispatch_record;
    cbn [rp_filetime_100ns raw_process rp_activity_id];
    try (by exists None);
    (destruct (filetime_to_unix_nanos _) as [t|]; [|by exists None]);
    cbn; (eexists (Some (now, Process _)); split; [intros q; reflexivity|split; [|done]]); cbn; by case_match.
Qed.

Lemma turn_network s counters uuid now r :
  let op := Traced (uuid, now, FromNetwork r) in
  ∃ o, turns_to (s, counters) op o ∧ shown o = reported (es_excluded_pid s) op ∧ counted (s, counters) op.
Proof.
  cbn zeta. unfold turns_to, counted, reported, EtwSession.event_of, counts_discard, capture_step, deliver. cbn [fst snd].
  pose proof (λ q, network_callback_fate uuid now r (es_excluded_pid s) q (es_cache s) (es_discards s)) as H.
  exists (match network_fate (es_excluded_pid s) r with
          | Reports c t => Some (now, Network {|
              ne_event_id := uuid; ne_pid := dc_pid c; ne_direction := dc_direction c; ne_src := dc_src c;
              ne_dst := dc_dst c; ne_etw_timestamp_nanos := t; ne_created_time_nanos := es_cache s !! dc_pid c |})
          | _ => None end).
  split; [|split].
  - intros q. specialize (H q). cbn [with_ring es_excluded_pid es_ring es_cache es_discards].
    destruct (network_callback _ _ _ _ _ _ _) as [ring' d']. by destruct (network_fate _ _), H.
  - by destruct (network_fate _ _).
  - specialize (H (es_ring s)). destruct (network_callback _ _ _ _ _ _ _) as [ring' d'].
    unfold network_records_discarded. cbn. by destruct (network_fate _ _); destruct H as [H1 H2]; subst.
Qed.

Lemma turn_logged s counters draw r :
  let op := Logged draw r in
  ∃ o, turns_to (s, counters) op o ∧ shown o = reported (es_excluded_pid s) op ∧ counted (s, counters) op.
Proof.
  cbn zeta. unfold turns_to, counted, reported, counts_unusable, capture_step, handle_record, dispatch_logon_record.
  cbn [fst snd with_ring es_ring].
  destruct (Subscription.render r) as [raw|code]; [|by exists None].
  destruct (decode_logon draw.1 raw) as [e| | |]; [|by exists None..].
  by exists (Some (draw.2, Logon e)).
Qed.

Lemma turn_enqueues s op : proper (SourceTurn op) →
  ∃ o, turns_to s op o ∧ shown o = reported (es_excluded_pid s.1) op ∧ counted s op.
Proof.
  destruct s as [s counters]. intros Hop. destruct op as [[[uuid now] [r|r]]|draw r|alive at_snapshot|max]; [| | | |done].
  - apply turn_process.
  - apply turn_network.
  - apply turn_logged.
  - by exists None.
Qed.

(** A turn's part of the ring operations is what it does to the ring. *)
Lemma turn_ops_ring s op o : turns_to s op o →
  es_ring (capture_step s op).2.1 = (ring_run (es_ring s.1) (turn_ops s op)).2 ∧
  without_created <$> Ring.accepted (turn_ops s op) = option_list (shown o).
Proof.
  intros Ho. unfold turn_ops. rewrite Ho. pose proof (Ho (es_ring s.1)) as Hs.
  replace (with_ring s.1 (es_ring s.1), s.2) with s in Hs by (by destruct s as [[] ?]). rewrite Hs.
  unfold enqueue_or_drop. destruct o as [[now e]|]; [|done]. cbn [shown].
  destruct (refused_event e) eqn:Ee; [done|]. cbn [new capacity events length].
  rewrite (decide_False (P := (1 ≤ 0)%nat)) by lia. cbn [events app fmap list_fmap fst snd ring_run ring_step Ring.accepted].
  unfold enqueue_or_drop. by rewrite Ee.
Qed.

Lemma count_cons f op l : count f (op :: l) = (if f op then 1 else 0) + count f l.
Proof. unfold count. rewrite filter_cons. case_decide; destruct (f op); try done; cbn [length]; lia. Qed.

(** The schedule's ring, what it enqueued and what it counted. *)
Lemma system_run_accounts steps excluded_pid s x y : Forall proper steps →
  es_excluded_pid s.1 = excluded_pid →
  network_records_discarded s.1 = wrap_u 64 x → unusable s.2 = wrap_u 64 y →
  let s' := system_run s steps in
  es_ring s'.1 = (ring_run (es_ring s.1) (system_ops s steps)).2 ∧
  without_created <$> Ring.accepted (system_ops s steps) = omap (reported excluded_pid) (source_turns steps) ∧
  network_records_discarded s'.1 = wrap_u 64 (x + count (counts_discard excluded_pid) (source_turns steps)) ∧
  unusable s'.2 = wrap_u 64 (y + count counts_unusable (source_turns steps)).
Proof.
  intros Hsteps. revert s x y. induction Hsteps as [|step steps Hstep _ IH]; intros s x y He Hx Hy; cbn zeta.
  { cbn. by rewrite !Z.add_0_r. }
  cbn [system_run foldl system_ops]. fold (system_run (system_step s step) steps).
  rewrite ring_run_after, accepted_app, fmap_app. destruct step as [op|op].
  - destruct (turn_enqueues s op Hstep) as (o & Ho & Hrep & Hc & Hd & Hu).
    destruct (turn_ops_ring s op o Ho) as [<- ->]. change (system_step s (SourceTurn op)) with (capture_step s op).2.
    change (source_turns (SourceTurn op :: steps)) with (op :: source_turns steps). rewrite !count_cons, !Z.add_assoc.
    destruct (IH (capture_step s op).2 (x + if counts_discard excluded_pid op then 1 else 0)
                (y + if counts_unusable op then 1 else 0)) as (A & B & C & D).
    { by rewrite Hc. }
    { rewrite Hd, He, Hx. destruct (counts_discard excluded_pid op); [by rewrite wrap_u_add_l by lia|by rewrite Z.add_0_r]. }
    { rewrite Hu, Hy. destruct (counts_unusable _); [by rewrite wrap_u_add_l by lia|by rewrite Z.add_0_r]. }
    rewrite A, B, C, D. split; [done|]. split; [|done]. rewrite Hrep, He. change (omap (reported excluded_pid) (op :: source_turns steps)) with
      (match reported excluded_pid op with
       | Some e => e :: omap (reported excluded_pid) (source_turns steps)
       | None => omap (reported excluded_pid) (source_turns steps) end).
    by destruct (reported excluded_pid op).
  - destruct (IH (system_step s (DeliveryTurn op)) x y) as (A & B & C & D); [done..|].
    rewrite A, B, C, D. change (source_turns (DeliveryTurn op :: steps)) with (source_turns steps).
    split_and!; [|destruct op; done|done|done]. cbn [ring_run system_step with_ring es_ring fst].
    by destruct (ring_step _ op).
Qed.

Section EndToEnd.
Context {W : WireCrypto} {R : Rustls}.
Context (agent_block : AgentBlock) (agent_id : string) (keypair : AgentKeypair).
Context (heartbeat : HeartbeatConfig) (start_time : Instant).

(** C2 Every record is followed from its callback to the server. Take a secure run over an
    opened capture that ends by a stop, whose ring operations are those of a schedule of
    the sources' turns (the callbacks of the two providers, the logon thread's records,
    the hygiene sweeps, each run on the sources as the turns before left them) and of the
    delivery's own. Then the ring the run ends with is the one the sources hold; the events
    the ring accepted are, in order, one for each record that says one (a launch or
    termination with an image path, a connection of another process, a reportable logon),
    with that record's fields, and no others (a creation time taken from the cache aside);
    each is in exactly one of four lists: delivered, of a batch dropped after rejections,
    evicted by the ring, or left and in the outcome's number of undelivered events; the
    ring's counter is the evictions and the dropped batches' events; and the two counters
    of unusable records count the network records that are no usable connection and the
    logon records that cannot be used. *)
Theorem records_end_to_end config c env rounds stop_budget i (cap : nat) tr out d
    (excluded_pid : option Z) (hygiene_spawned : Result unit string) (steps : list SystemStep) :
  (0 < cap)%nat → pc_ring c = Some (Ring.new cap) →
  run_secure_within agent_block agent_id keypair heartbeat start_time config (Ok c) env rounds stop_budget i
    = (tr, Ended (Ok out), d) →
  let s0 := (opened_session cap excluded_pid hygiene_spawned, counters_new) in
  let s := system_run s0 steps in
  ops tr = system_ops s0 steps → Forall proper steps →
  ring d = Some (es_ring s.1) ∧
  without_created <$> Ring.accepted (ops tr) = omap (reported excluded_pid) (source_turns steps) ∧
  (∃ evicted left, length left = outcome_undelivered out ∧
     (render_event agent_id (pc_paths c) <$> Ring.accepted (ops tr)) ≡ₚ
       Delivery.events_of (delivered tr) ++ Delivery.events_of (dropped tr) ++ evicted ++ left ∧
     dropped_total (es_ring s.1) =
       wrap_u 64 (Z.of_nat (length evicted) + Z.of_nat (length (Delivery.events_of (dropped tr))))) ∧
  network_records_discarded s.1 = wrap_u 64 (count (counts_discard excluded_pid) (source_turns steps)) ∧
  unusable s.2 = wrap_u 64 (count counts_unusable (source_turns steps)).
Proof.
  intros Hcap Hring Hrun s0 s Hops Hsteps.
  destruct (system_run_accounts steps excluded_pid s0 0 0 Hsteps) as (A & B & C & D); [done..|]. fold s in A, C, D.
  destruct (secure_stop_events _ _ _ _ _ _ _ _ _ _ _ cap _ _ _ Hcap Hring Hrun)
    as (r & evicted & left & Hr & Er & Hleft & Hp & Hdt).
  rewrite Hops in Er. assert (r = es_ring s.1) as -> by (rewrite Er; exact (eq_sym A)).
  split; [done|]. rewrite Hops at 1. split; [done|]. split; [by exists evicted, left|done].
Qed.
End EndToEnd.

(** A record of the connection of [sample_network]. *)
Definition connection_record : EventRecord :=
  {| er_event_id := TCP_CONNECT_V4; er_raw_timestamp := FILETIME_TO_UNIX_100NS + 20; er_schema := true;
     er_u32 := λ _, None; er_i32 := λ _, None; er_string := λ _, None;
     er_bytes := λ name,
       if decide (name = "PID") then Some (le_bytes 4 1)
       else if decide (name = "saddr") then Some [Byte.x0a; Byte.x00; Byte.x00; Byte.x01]
       else if decide (name = "daddr") then Some [Byte.x0a; Byte.x00; Byte.x00; Byte.x02]
       else if decide (name = "sport") then Some (be_bytes 2 50000)
       else if decide (name = "dport") then Some (be_bytes 2 443)
       else None |}.

(** One of another event id. *)
Definition other_record : EventRecord :=
  {| er_event_id := 10; er_raw_timestamp := 0; er_schema := true;
     er_u32 := λ _, None; er_i32 := λ _, None; er_string := λ _, None; er_bytes := λ _, None |}.

(** The first record is reported and drained, the second counted; a sweep runs between
    them. *)
Definition sample_steps : list SystemStep :=
  [SourceTurn (Traced ("n1", 0, FromNetwork connection_record)); SourceTurn (Swept (λ _, true) ∅);
   DeliveryTurn (Drain 1024); SourceTurn (Traced ("n2", 0, FromNetwork other_record))].

Lemma records_end_to_end_witness :
  (∃ e, omap (reported None) (source_turns sample_steps) = [e]) ∧
  length (Ring.accepted (ops sample_secure.1.1)) = 1%nat ∧
  network_records_discarded (system_run (opened_session 8 None (Ok tt), counters_new) sample_steps).1 = 1.
Proof.
  assert (sample_secure = (sample_secure.1.1, Ended (Ok (StopExpired PENDING_TEARDOWN 1)), sample_secure.2))
    as E by (vm_compute; reflexivity).
  assert (ops sample_secure.1.1 = system_ops (opened_session 8 None (Ok tt), counters_new) sample_steps) as Hops
    by (vm_compute; reflexivity).
  destruct (records_end_to_end (W := ToyCrypto.toy) (R := ToyRustls.toy) sample_block "agent"
    (keypair_of (W := ToyCrypto.toy) tt) heartbeat_default 0 ToyEnrollment.config
    {| pc_ring := Some (Ring.new 8); pc_paths := empty_map |} _ sample_stopping (Some (seconds 58))
    sample_stop 8 _ _ _ None (Ok tt) sample_steps ltac:(lia) eq_refl E Hops ltac:(by repeat constructor))
    as (_ & Hacc & _ & Hd & _).
  split; [eexists; vm_compute; reflexivity|]. split; [|exact Hd].
  rewrite <- (length_fmap without_created), Hacc. vm_compute. reflexivity.
Defined.
