(* ===== verification/ServiceRun.v ===== *)
(** * The service's run ([service/windows.rs])

    [serve], which puts the parts together: the fixed paths, the migration, the
    configuration, the instance lock, the file log, RUNNING, the identity and the secure
    run; [supervise] beside it and the main function around both. What the host answers
    is an input: the outcome of each [acquire], the status as [running] finds it, what
    each round of the identity step and the capture meet, and when the stop comes. The
    store, the log directory and the POSTs are the state; each part logs what it did and what came of it. *)

From S2P Require Import Prelude FileTree IpAddr Types Errors Ring Dispatch Logon Paths Emit Rotation.
From S2P Require Import Network Config Signing Tls TlsConfig X509 Delivery Transport Enrollment Identity.
From S2P Require Import Custody Installed Service LogFile MigrationChecks MigrationRun MigrationSafety Agent.
From S2P Require Import InstanceLock ServiceStatus.
Open Scope Z_scope.

(** ** Paths *)

(** The component up to the next separator is not empty. *)
Definition component (l : list Ascii.ascii) : bool :=
  match l with c :: _ => negb (is_separator c) | [] => false end.
Fixpoint after_component (l : list Ascii.ascii) : list Ascii.ascii :=
  match l with
  | c :: l => if is_separator c then l else after_component l
  | [] => []
  end.

Definition is_drive_letter (c : Ascii.ascii) : bool :=
  let n := Ascii.N_of_ascii c in ((65 <=? n) && (n <=? 90) || (97 <=? n) && (n <=? 122))%N.

(** [Path::is_absolute] on Windows: a prefix and a root, which every prefix but a drive
    implies. *)
Definition is_absolute (p : string) : bool :=
  match String.list_ascii_of_string p with
  | a :: b :: rest =>
      if is_separator a && is_separator b then
        match rest with
        | c :: d :: more =>
            (bool_decide (c = Ascii.ascii_of_N 63) && is_separator d
             && negb (existsb (λ x, bool_decide (x = slash)) (take 8 (a :: b :: rest))))
            || (bool_decide (c = Ascii.ascii_of_N 46) && is_separator d)
            || (component rest && component (after_component rest))
        | _ => false
        end
      else is_drive_letter a && bool_decide (b = colon)
           && match rest with c :: _ => is_separator c | [] => false end
  | _ => false
  end.

(** ** The configuration *)

Definition failed (code : Z) (line : string) : ServiceExit := ServiceFailed code line.

Definition canonicalize (config : AgentConfig) (paths : InstalledPaths) : AgentConfig :=
  {| Config.server := {| url := url (Config.server config);
                         trust_anchor_path := Some (trust_anchor paths);
                         heartbeat_url := heartbeat_url (Config.server config) |};
     agent := agent config; heartbeat := heartbeat config; Config.log := Config.log config;
     enrollment :=
       (λ e, {| token := token e; cert_path := cert paths; key_path := key paths; identity_path := identity paths;
                timeout_seconds := timeout_seconds e; enroll_max_retries := enroll_max_retries e;
                enroll_backoff_initial_ms := enroll_backoff_initial_ms e;
                enroll_backoff_factor := enroll_backoff_factor e |}) <$> enrollment config;
     tls := tls config; envelope := envelope config |}.

(** [config.agent.id = ...]. *)
Definition with_agent_id (config : AgentConfig) (agent_id : string) : AgentConfig :=
  {| Config.server := Config.server config;
     agent := {| id := agent_id; Config.hostname := Config.hostname (agent config) |};
     heartbeat := heartbeat config; Config.log := Config.log config; enrollment := enrollment config;
     tls := tls config; envelope := envelope config |}.

(** [InstalledCustody::system]. *)
Definition installed_custody_system (paths : InstalledPaths) : InstalledCustody :=
  {| ic_identity_dir := identity_dir paths; ic_hygiene_temporary := installed_hygiene_temporary paths;
     ic_policy := system_only; ic_config_policy := configuration;
     ic_directory_sddl := DIRECTORY_SDDL; ic_file_sddl := FILE_SDDL |}.

(** [init_logger_with_writer]: a subscriber that is set already is tolerated. *)
Definition init_logger_with_writer (level : string) : Result unit AgentError := Ok tt.

(** [Display for TlsError] and [Display for AgentError]. *)
Definition tls_error_text (e : TlsError) : string :=
  match e with
  | ServerCertUntrusted m => "server certificate verification failed: " +:+ m
  | ClientCertRejected m => "server rejected client certificate: " +:+ m
  | Errors.ClientConfig m => "tls client configuration failed: " +:+ m
  end.
Definition agent_error_text (e : AgentError) : string :=
  match e with
  | AgentConfigError c => config_error_text c
  | AgentTransport t => transport_error_text t
  | AgentEnrollment en => enrollment_error_text en
  | AgentSecureStore st => secure_store_error_text st
  | AgentTls t => tls_error_text t
  | AgentSigning si => signing_error_text si
  | AgentEtw etw => etw_error_text etw
  | AgentLogon logon => logon_error_text logon
  end.

(** ** The state *)

(** How the rounds of the identity step ended. *)
Inductive IdentityEnd := Obtained | IdentityRefused (e : EnrollmentError) | StoppedFirst | StillTrying.

(** What the run did, in order, and what came of it. *)
Inductive ServeAction :=
| AsksLock (outcome : LockOutcome)
| OpensLog (result : Result unit string)
| SaysRunning
| WritesEntry (entry : Entry)
| RunsCopies
| ChecksAnchor (path : string) (result : Result unit string)
| ChecksIdentity (result : Result unit EnrollmentError)
| EnsuresIdentity (rounds : list RoundAction) (result : IdentityEnd)
| Captures (holds_lock : bool) (config : AgentConfig).

Record ServeState := {
  sv_store : CustodyWorld;
  sv_std_reads : list (option IoFault);
  sv_posted : list NetAction;
  sv_logs : Rotation.World;
  sv_status : ServiceStatus.Service;
  sv_lock : option InstanceLock;
  sv_log : list ServeAction;
}.

(** How a run ends, or that it goes on past what its inputs say. *)
Inductive ServeEnd := Exits (exit : ServiceExit) | GoesOn.

(** An early return is the error. *)
Definition SM (A : Type) : Type := ServeState → Result A ServeEnd * ServeState.
Definition sret {A} (a : A) : SM A := λ s, (Ok a, s).
Definition returns {A} (e : ServiceExit) : SM A := λ s, (Err (Exits e), s).
Definition sof {A} (r : Result A ServiceExit) : SM A := λ s, (map_err Exits r, s).
Definition sbind {A B} (m : SM A) (f : A → SM B) : SM B :=
  λ s, let '(r, s') := m s in match r with Ok a => f a s' | Err e => (Err e, s') end.

Declare Scope serve_scope.
Notation "'run?' x ':=' m 'in' k" := (sbind m (λ x, k))
  (at level 10, x pattern, m at level 100, k at level 200) : serve_scope.
Notation "m ';;%' k" := (sbind m (λ _, k)) (at level 100, right associativity) : serve_scope.
Open Scope serve_scope.

Definition with_store (s : ServeState) (c : CustodyWorld) : ServeState :=
  {| sv_store := c; sv_std_reads := sv_std_reads s; sv_posted := sv_posted s; sv_logs := sv_logs s;
     sv_status := sv_status s; sv_lock := sv_lock s; sv_log := sv_log s |}.
Definition note_action (a : ServeAction) : SM unit := λ s,
  (Ok tt, {| sv_store := sv_store s; sv_std_reads := sv_std_reads s; sv_posted := sv_posted s; sv_logs := sv_logs s;
             sv_status := sv_status s; sv_lock := sv_lock s; sv_log := sv_log s ++ [a] |}).
Definition hold (l : InstanceLock) : SM unit := λ s,
  (Ok tt, {| sv_store := sv_store s; sv_std_reads := sv_std_reads s; sv_posted := sv_posted s; sv_logs := sv_logs s;
             sv_status := sv_status s; sv_lock := Some l; sv_log := sv_log s |}).

(** An operation of [custody.rs], and one of [identity.rs]; their result is a value. *)
Definition on_custody {A} (m : CM A string) : SM (Result A string) := λ s,
  let '(r, c) := m (sv_store s) in (Ok r, with_store s c).
Definition installed_world (s : ServeState) : InstalledWorld :=
  {| custody := sv_store s; std_faults := sv_std_reads s; all_posted := sv_posted s |}.
Definition on_identity {A} (m : XM A) : SM (Result A EnrollmentError) := λ s,
  let '(r, w) := m (installed_world s) in
  (Ok r, {| sv_store := custody w; sv_std_reads := std_faults w; sv_posted := all_posted w; sv_logs := sv_logs s;
            sv_status := sv_status s; sv_lock := sv_lock s; sv_log := sv_log s |}).

(** ** The run *)

Section Serve.
Context {W : WireCrypto} {K : KeyBytes W} {R : Rustls} {A : AnswerReader}.
Context {St : SecureStore} {J : IdentityJson} {M : MigrationJson} {Sec : Win32Security}.
Context (toml_value : string → Result Toml TomlError) (toml_config : string → Result AgentConfig TomlError).
Context (toml_to_string : Toml → Result string string).
Context (pem_certificates : bytes → list (Result bytes PemError)).
Context (pem_encode : list bytes → string) (parse_rfc3339 : string → option Z).
Context (hostname : Result string string).

(** One round of the identity step: what it meets, and whether the stop wins it or the
    wait after it. *)
Record ServiceRound := { sr_env : EnrollEnv; sr_stopped : bool; sr_wait_stopped : bool }.

(** What the secure run meets. *)
Record SecureInput := {
  si_etw_open : StartMode → Result unit OpenError;
  si_logon_open : Result unit LogonError;
  si_drives : DevicePathMap;
  si_tls : Identity → TlsEnv;
  si_start : Instant;
  si_rounds : list Round;
  si_stop : StopInput;
}.

Record ServeInput := {
  in_program_data : Result string string;
  in_now : Z;
  (** What the first call of [acquire] returns, and the second. *)
  in_first_lock : LockOutcome;
  in_second_lock : LockOutcome;
  in_std_reads : list (option IoFault);
  in_version : string;
  (** The status, as the run finds it when it says RUNNING. *)
  in_status : ServiceStatus.Service;
  (** The old copies are done when the identity is looked at. *)
  in_copies_first : bool;
  in_rounds : list ServiceRound;
  (** A stop was asked for when the identity step had ended. *)
  in_stopped : bool;
  in_secure : SecureInput;
}.

(** The closure [lock]: what the migration gets. *)
Definition lock_answer (o : LockOutcome) : Result unit Stop :=
  match o with
  | Acquired _ => Ok tt
  | Unprivileged => Err (StartRefused 1 (stderr_lock_failed "the migration's token cannot create the lock" 5))
  | o => Err (StartRefused (default 1 (lock_exit_code o)) (default "" (lock_stderr_line o)))
  end.

Definition service_environment (paths : InstalledPaths) (now : Z) : Environment :=
  {| me_paths := paths; me_custody := migration_custody_system; me_now := now |}.

(** The watcher of the service lets every point pass. *)
Definition migration_world (i : ServeInput) (s : ServeState) : MigrationWorld :=
  {| mfs := sv_store s; watch_answers := []; std_reads := in_std_reads i; actions := [] |}.

(** The migration, and the lock if it asked for it. *)
Definition prepare_step (i : ServeInput) (paths : InstalledPaths) (request : option Request) : SM (Result Prepared Stop) :=
  λ s,
    let '(r, w) := MigrationRun.prepare toml_value toml_config toml_to_string pem_certificates pem_encode parse_rfc3339
                     hostname (service_environment paths (in_now i)) request (lock_answer (in_first_lock i))
                     (migration_world i s) in
    let s := with_store s (mfs w) in
    match actions w with
    | TakeLock :: _ =>
        (note_action (AsksLock (in_first_lock i)) ;;%
         (match in_first_lock i with Acquired l => hold l | _ => sret tt end) ;;%
         sret r) s
    | _ => (Ok r, s)
    end.

Definition stop_exit (stop : Stop) : ServiceExit :=
  match stop with
  | StartRefused code line => failed code line
  | Crashed => failed 1 "cg-agent: the migration ended abnormally"
  end.

Definition run_migration (i : ServeInput) (paths : InstalledPaths) (request : option Request) : SM Prepared :=
  run? prepared := prepare_step i paths request in
  sof (map_err stop_exit prepared).

Definition read_installed_config (fixed config_path : string) : SM (Result AgentConfig string) :=
  run? read := on_custody (read_checked fixed configuration) in
  let refused reason := "cg-agent: invalid config " +:+ config_path +:+ ": " +:+ reason in
  sret (match read with
        | Ok None => Err (config_error_line config_path (ConfigNotFound config_path))
        | Err reason => Err (refused reason)
        | Ok (Some b) =>
            if valid_utf8 b
            then map_err (config_error_line config_path) (load_from_str toml_value toml_config (text_of_bytes b))
            else Err (refused "the file is not UTF-8")
        end).

(** The lock, unless the migration took it; whether it is held. *)
Definition take_instance_lock (i : ServeInput) : SM bool := λ s,
  match sv_lock s with
  | Some _ => (Ok true, s)
  | None =>
      let outcome := if existsb (λ a, match a with AsksLock _ => true | _ => false end) (sv_log s)
                     then in_second_lock i else in_first_lock i in
      (note_action (AsksLock outcome) ;;%
       match outcome with
       | Acquired l => hold l ;;% sret true
       | Unprivileged => sret false
       | o => returns (failed (default 1 (lock_exit_code o)) (default "" (lock_stderr_line o)))
       end) s
  end.

(** The file log and the logger on it. *)
Definition open_file_log (i : ServeInput) (config : AgentConfig) : SM unit :=
  run? opened := (λ s, let '(r, c, logs) := open_log (in_program_data i) (sv_store s) (sv_logs s) in
                       (Ok r, {| sv_store := c; sv_std_reads := sv_std_reads s; sv_posted := sv_posted s;
                                 sv_logs := logs; sv_status := sv_status s; sv_lock := sv_lock s;
                                 sv_log := sv_log s |})) in
  note_action (OpensLog opened) ;;%
  match opened with
  | Err reason => returns (failed EXIT_SERVICE_LOG (stderr_service_log reason))
  | Ok _ =>
      sof (map_err (λ e, failed EXIT_SERVICE_LOG (stderr_service_log (agent_error_text e)))
             (init_logger_with_writer (level (Config.log config))))
  end.

(** [status.running()], and the entry when it was reported. *)
Definition say_running (i : ServeInput) : SM unit := λ s,
  let '(said, status) := running (in_status i) in
  let s := {| sv_store := sv_store s; sv_std_reads := sv_std_reads s; sv_posted := sv_posted s; sv_logs := sv_logs s;
              sv_status := status; sv_lock := sv_lock s; sv_log := sv_log s |} in
  if said : bool then (note_action SaysRunning ;;% note_action (WritesEntry (running_entry (in_version i)))) s
  else (Ok tt, s).

(** The old copies, on a thread of their own; they touch no object the identity step
    reads, and are done before it or not at all yet. *)
Definition run_copies (i : ServeInput) (paths : InstalledPaths) : SM unit :=
  note_action RunsCopies ;;%
  λ s, (Ok tt,
        if in_copies_first i
        then with_store s (mfs (copies (service_environment paths (in_now i)) (migration_world i s)).2)
        else s).

(** The rounds in turn; each works on what the last one left. *)
Fixpoint round_inputs (config : AgentConfig) (config_path : string) (c : InstalledCustody)
    (rounds : list ServiceRound) (w : InstalledWorld) : list (RoundInput (X := Identity)) :=
  match rounds with
  | [] => []
  | r :: rounds =>
      let '(res, w') := installed_ensure_identity toml_value toml_to_string pem_certificates (sr_env r) config
                          config_path c w in
      {| round_end := if sr_stopped r then None else Some res; wait_stopped := sr_wait_stopped r |}
      :: round_inputs config config_path c rounds w'
  end.

Definition identity_end {X} (out : RoundsOutcome (X := X)) : IdentityEnd :=
  match out with
  | StillRunning => StillTrying
  | RoundsStopped => StoppedFirst
  | RoundsEnded (Err e) => IdentityRefused e
  | RoundsEnded (Ok _) => Obtained
  end.

Definition identity_step (i : ServeInput) (config : AgentConfig) (config_path : string) (c : InstalledCustody)
  : SM Identity := λ s,
  let '(acts, out) := identity_rounds_until_stopped ENROLLMENT_ROUND_WAIT
                        (round_inputs config config_path c (in_rounds i) (installed_world s)) in
  (note_action (EnsuresIdentity acts (identity_end out)) ;;%
   match out with
   | StillRunning => λ s, (Err GoesOn, s)
   | RoundsStopped => returns (Clean 0)
   | RoundsEnded (Err e) => returns (failed (enrollment_exit_code e) (enrollment_stderr_line e))
   | RoundsEnded (Ok identity) => sret identity
   end) s.

(** [run_secure_within] on the platform's capture, and the exit its outcome is. *)
Definition secure_exit (e : SecureEnd) : ServeEnd :=
  match e with
  | Agent.Ended (Ok (StopCompleted undelivered)) => Exits (Clean undelivered)
  | Agent.Ended (Ok (StopExpired pending undelivered)) => Exits (DeadlineExpired pending (Some undelivered))
  | Agent.Ended (Err e) => Exits (failed (agent_exit_code e) (agent_stderr_line e))
  | StillGoing | Spinning => GoesOn
  end.

Definition secure_block (i : ServeInput) (config : AgentConfig) (identity : Identity) : AgentBlock :=
  {| ab_agent_id := agent_id identity; ab_agent_version := in_version i; ab_agent_platform := "windows";
     ab_agent_hostname := Config.hostname (agent config) |}.

Definition secure_step (i : ServeInput) (holds_lock : bool) (config : AgentConfig) (identity : Identity) : SM ServeEnd :=
  note_action (Captures holds_lock config) ;;%
  let si := in_secure i in
  let opened := (open_platform_capture holds_lock (si_etw_open si) (si_logon_open si) (si_drives si)).1 in
  let ran := run_secure_within (secure_block i config identity) (agent_id identity) (keypair identity)
               (heartbeat config) (si_start si) config opened (si_tls si identity) (si_rounds si)
               (Some (seconds STOP_BUDGET)) (si_stop si) in
  sret (secure_exit ran.1.2).

(** What follows the configuration and the lock. *)
Definition serve_running (i : ServeInput) (paths : InstalledPaths) (prepared : Prepared) (config : AgentConfig)
    (holds_lock : bool) : SM ServeEnd :=
  open_file_log i config ;;%
  say_running i ;;%
  (if bool_decide (prepared = Committed) && holds_lock then run_copies i paths else sret tt) ;;%
  run? anchor := on_custody (check (trust_anchor paths) File configuration) in
  note_action (ChecksAnchor (trust_anchor paths) anchor) ;;%
  sof (map_err (λ reason, failed 6 (tls_stderr_line (Errors.ClientConfig reason))) anchor) ;;%
  let c := installed_custody_system paths in
  run? checked := on_identity (installed_check config c) in
  note_action (ChecksIdentity checked) ;;%
  sof (map_err (λ e, failed (enrollment_exit_code e) (enrollment_stderr_line e)) checked) ;;%
  run? identity := identity_step i config (config_file paths) c in
  if in_stopped i then returns (Clean 0) else
  secure_step i holds_lock (with_agent_id config (agent_id identity)) identity.

(** The refusal's line on a console layout. *)
Definition refusal (prepared : Prepared) (line : string) : ServiceExit :=
  failed 2 (if bool_decide (prepared = ConsoleLayout) then line +:+ "; " +:+ DEFAULT_REFUSAL else line).

Definition serve_body (i : ServeInput) (config_path : string) (arguments : list string) : SM ServeEnd :=
  (if is_absolute config_path then sret tt else returns (failed 2 STDERR_RELATIVE_CONFIG)) ;;%
  run? program_data := sof (map_err (λ reason, failed 1 ("cg-agent: " +:+ reason)) (in_program_data i)) in
  let paths := under program_data in
  sof (map_err (failed 2) (check_config_path paths config_path)) ;;%
  run? request := sof (map_err (failed 2) (parse_start_arguments arguments)) in
  run? prepared := run_migration i paths request in
  run? read := read_installed_config (config_file paths) config_path in
  run? config := sof (map_err (refusal prepared) read) in
  sof (map_err (refusal prepared) (check_installed_config paths config_path config)) ;;%
  let config := canonicalize config paths in
  run? holds_lock := take_instance_lock i in
  serve_running i paths prepared config holds_lock.

Definition serve (i : ServeInput) (config_path : string) (arguments : list string) (s : ServeState)
  : ServeEnd * ServeState :=
  let '(r, s') := serve_body i config_path arguments s in
  (match r with Ok e => e | Err e => e end, s').
End Serve.

(** ** Beside and around the run *)

(** How the run's task ended. *)
Inductive TaskEnd := Joined (exit : ServiceExit) | Panicked | Cancelled.

Definition joined (e : TaskEnd) : ServiceExit :=
  match e with
  | Joined exit => exit
  | Panicked => ServiceFailed 1 "cg-agent: the service run ended abnormally (panic)"
  | Cancelled => ServiceFailed 1 "cg-agent: the service run ended abnormally (cancelled)"
  end.

(** What a poll of the supervision finds: the time, how the run's task has ended if it
    has, the watch channel's value, and [LOG_FAILURE] as it is read after. *)
Record Poll := {
  p_at : Instant;
  p_run : option TaskEnd;
  p_stop : bool;
  p_log : option string;
}.

(** The future [watchdog]: in [stopped], or in the sleep after it. *)
Inductive Watchdog := AwaitsStop | Sleeps (until : Instant).

(** A poll of it, and whether it has completed. *)
Definition poll_watchdog (w : Watchdog) (p : Poll) : Watchdog * bool :=
  match w with
  | AwaitsStop =>
      if p_stop p
      then let until := p_at p + seconds STOP_DEADLINE in (Sleeps until, until <=? p_at p)
      else (AwaitsStop, false)
  | Sleeps until => (Sleeps until, until <=? p_at p)
  end.

(** The selection, biased to the run, over the polls the runtime makes. *)
Fixpoint supervise (watchdog : Watchdog) (polls : list Poll) : option (Instant * ServiceExit) :=
  match polls with
  | [] => None
  | p :: polls =>
      match p_run p with
      | Some e => Some (p_at p, with_log_failure (joined e) (p_log p))
      | None =>
          let '(watchdog, over) := poll_watchdog watchdog p in
          if over then Some (p_at p, with_log_failure (DeadlineExpired PENDING_UNKNOWN None) (p_log p))
          else supervise watchdog polls
      end
  end.

(** The Application log: without a source the entries are skipped. *)
Definition event_write (source : bool) (e : Entry) (log : list Entry) : list Entry :=
  if source then log ++ [e] else log.

(** What the main function leaves: the process ended, or the status reported last. *)
Inductive MainEnd := ProcessExits (code : Z) | Reported (s : ServiceStatus.Service).

(** [service_main], once the supervised run has ended with [supervised]; the status is
    then [at_end]. *)
Definition service_main (source : bool) (registered : Result unit Z) (runtime : Result unit string)
    (supervised : ServiceExit) (at_end : ServiceStatus.Service) (log : list Entry) : MainEnd * list Entry :=
  match registered with
  | Err error =>
      (ProcessExits 1,
       event_write source (entry (ServiceFailed 1
         ("cg-agent: the service could not register its control handler: Win32 error " +:+ dec error))) log)
  | Ok _ =>
      let exit := match runtime with
                  | Ok _ => supervised
                  | Err e => ServiceFailed 1 ("cg-agent: the service runtime failed: " +:+ e)
                  end in
      (Reported (stopped at_end (specific_code exit)), event_write source (entry exit) log)
  end.

Definition ERROR_FAILED_SERVICE_CONTROLLER_CONNECT : Z := 1063.

(** [run]: the dispatcher's answer to the process's exit code and its line. *)
Definition run_dispatcher (dispatched : Result unit Z) : Z * option string :=
  match dispatched with
  | Ok _ => (0, None)
  | Err error =>
      if error =? ERROR_FAILED_SERVICE_CONTROLLER_CONNECT
      then (EXIT_NOT_STARTED_BY_SCM, Some STDERR_NOT_STARTED_BY_SCM)
      else (1, Some ("cg-agent: the service dispatcher failed: Win32 error " +:+ dec error))
  end.
