(* ===== verification/ServiceLife.v ===== *)
(** * The life of a service start

    The order of a start as an automaton, which the run of [ServiceRun.v] follows whatever
    it meets; what a refused lock ends; and when and how the service ends. *)

From stdpp Require Import sorting.
From S2P Require Import Prelude FileTree IpAddr Types Errors Ring Dispatch Logon Paths Emit Rotation.
From S2P Require Import Network Config Signing Tls TlsConfig X509 Delivery Transport Enrollment Identity.
From S2P Require Import Custody CustodyTree Installed Service LogFile MigrationChecks MigrationRun MigrationToy MigrationSafety Agent.
From S2P Require Import InstanceLock ServiceStatus ServiceRun.
Open Scope Z_scope.

(** ** The automaton *)

(** How far a start has got; from the log on, whether it holds the lock; or the end that
    what it met leaves it. *)
Inductive ServePhase :=
| Begun
| Asked (outcome : LockOutcome)
| Logged (held : bool)
| Said (held : bool)
| Written (held : bool)
| Copying
| Anchored (held : bool)
| Checked (held : bool)
| Ensured (held : bool)
| Capturing
| Ending (e : ServeEnd).

(** The configuration names the installed paths, spelled as they are. *)
Definition at_fixed_paths (p : InstalledPaths) (c : AgentConfig) : bool :=
  bool_decide (trust_anchor_path (Config.server c) = Some (trust_anchor p)) &&
  match enrollment c with
  | Some e => bool_decide (cert_path e = cert p) && bool_decide (key_path e = key p)
              && bool_decide (identity_path e = identity p)
  | None => false
  end.

Definition identity_failed (e : EnrollmentError) : ServePhase :=
  Ending (Exits (ServiceFailed (enrollment_exit_code e) (enrollment_stderr_line e))).

Definition advance (program_data : Result string string) (p : ServePhase) (a : ServeAction) : option ServePhase :=
  match p, a with
  | Begun, AsksLock o => Some (Asked o)
  | Asked (Acquired _), OpensLog (Ok _) => Some (Logged true)
  | Asked Unprivileged, OpensLog (Ok _) => Some (Logged false)
  | Asked (Acquired _), OpensLog (Err reason) | Asked Unprivileged, OpensLog (Err reason) =>
      Some (Ending (Exits (ServiceFailed EXIT_SERVICE_LOG (stderr_service_log reason))))
  | Logged h, SaysRunning => Some (Said h)
  | Said h, WritesEntry _ => Some (Written h)
  | Logged true, RunsCopies | Written true, RunsCopies => Some Copying
  | Logged _, ChecksAnchor path r | Written _, ChecksAnchor path r | Copying, ChecksAnchor path r =>
      if match program_data with Ok d => bool_decide (path = trust_anchor (under d)) | Err _ => false end then
        match r with
        | Ok _ => Some (Anchored match p with Logged h | Written h => h | _ => true end)
        | Err reason => Some (Ending (Exits (ServiceFailed 6 (tls_stderr_line (Errors.ClientConfig reason)))))
        end
      else None
  | Anchored h, ChecksIdentity (Ok _) => Some (Checked h)
  | Anchored _, ChecksIdentity (Err e) => Some (identity_failed e)
  | Checked h, EnsuresIdentity _ Obtained => Some (Ensured h)
  | Checked _, EnsuresIdentity _ (IdentityRefused e) => Some (identity_failed e)
  | Checked _, EnsuresIdentity _ StoppedFirst => Some (Ending (Exits (Clean 0)))
  | Checked _, EnsuresIdentity _ StillTrying => Some (Ending GoesOn)
  | Ensured h, Captures h' c =>
      if Bool.eqb h h' && match program_data with Ok d => at_fixed_paths (under d) c | Err _ => false end
      then Some Capturing else None
  | _, _ => None
  end.

(** How a run that is in the phase when it ends has ended. Before the log it has failed,
    with the lock's code if it was refused that; between the log and the capture it ends
    as what it met says, or cleanly if a stop came when it had its identity. *)
Definition ends_in (p : ServePhase) (e : ServeEnd) : Prop :=
  match p with
  | Begun | Asked (Acquired _) => ∃ code line, e = Exits (ServiceFailed code line)
  | Asked o => ∃ line, e = Exits (ServiceFailed (default 1 (lock_exit_code o)) line)
  | Ensured _ => e = Exits (Clean 0)
  | Ending e' => e = e'
  | Capturing => True
  | _ => False
  end.

Definition phase_after (program_data : Result string string) (l : list ServeAction) : option ServePhase :=
  foldl (λ p a, p ≫= λ p, advance program_data p a) (Some Begun) l.

Lemma phase_after_snoc d l a p p' :
  phase_after d l = Some p → advance d p a = Some p' → phase_after d (l ++ [a]) = Some p'.
Proof. intros H1 H2. unfold phase_after in *. rewrite foldl_app. cbn. by rewrite H1. Qed.

(** Whether the lock is held in the phase. *)
Definition holds (p : ServePhase) : option bool :=
  match p with
  | Begun => Some false
  | Asked (Acquired _) | Copying => Some true
  | Asked _ => Some false
  | Logged h | Said h | Written h | Anchored h | Checked h | Ensured h => Some h
  | Capturing | Ending _ => None
  end.
(** Nothing is changed yet. *)
Definition untouched (p : ServePhase) : bool :=
  match p with
  | Begun => true
  | Asked (Acquired _) => false
  | Asked _ => true
  | _ => false
  end.

Section Life.
Context {W : WireCrypto} {K : KeyBytes W} {R : Rustls} {A : AnswerReader}.
Context {St : SecureStore} {J : IdentityJson} {M : MigrationJson} {Sec : Win32Security}.
Context (toml_value : string → Result Toml TomlError) (toml_config : string → Result AgentConfig TomlError).
Context (toml_to_string : Toml → Result string string).
Context (pem_certificates : bytes → list (Result bytes PemError)).
Context (pem_encode : list bytes → string) (parse_rfc3339 : string → option Z).
Context (hostname : Result string string).
Context (i : ServeInput) (m0 : gmap Path Object).

(** The state agrees with the phase its log is in. *)
Definition lives (p : ServePhase) (s : ServeState) : Prop :=
  phase_after (in_program_data i) (sv_log s) = Some p ∧
  (∀ h, holds p = Some h → bool_decide (is_Some (sv_lock s)) = h) ∧
  (untouched p = true → objects (sv_store s) = m0).

(** From a phase in [P], an operation that returns is in one in [Q]; one that ends the
    run does as the phase it is in says. *)
Definition serves {X} (P : ServePhase → Prop) (m : SM X) (Q : X → ServePhase → Prop) : Prop :=
  ∀ s p, P p → lives p s →
    let '(r, s') := m s in
    match r with Ok x => ∃ p', Q x p' ∧ lives p' s' | Err e => ∃ p', ends_in p' e ∧ lives p' s' end.

Lemma serves_bind {X Y} P (m : SM X) Q (f : X → SM Y) T :
  serves P m Q → (∀ x, serves (Q x) (f x) T) → serves P (sbind m f) T.
Proof.
  intros Hm Hf s p Hp Hs. specialize (Hm s p Hp Hs). unfold sbind. destruct (m s) as [[x|e] s1]; [|done].
  destruct Hm as (p1 & Hq & H1). by apply (Hf x s1 p1).
Qed.

Lemma serves_ret {X} P (x : X) : serves P (sret x) (λ _, P).
Proof. intros s p Hp Hs. cbn. eauto. Qed.

Lemma serves_returns {X} (P : ServePhase → Prop) (e : ServiceExit) Q :
  (∀ p, P p → ends_in p (Exits e)) → serves P (returns (A := X) e) Q.
Proof. intros H s p Hp Hs. cbn. eauto. Qed.

(** The phases before the log that a failure may end. *)
Definition early (p : ServePhase) : Prop := p = Begun ∨ ∃ l, p = Asked (Acquired l).
Definition failed_exit (e : ServiceExit) : Prop := ∃ code line, e = ServiceFailed code line.

Lemma early_ends p e : early p → failed_exit e → ends_in p (Exits e).
Proof. intros [->|[l ->]] (c & line & ->); cbn; eauto. Qed.

Lemma serves_check {X E} (P : ServePhase → Prop) (r : Result X E) (f : E → ServiceExit) :
  (∀ p, P p → early p) → (∀ e, failed_exit (f e)) →
  serves P (sof (map_err f r)) (λ x p, r = Ok x ∧ P p).
Proof. intros HP Hf s p Hp Hs. unfold sof. destruct r; cbn; eauto using early_ends. Qed.

(** After a result was noted, its error ends the run as noted. *)
Lemma serves_result {X E} (P : ServePhase → Prop) (r : Result X E) (f : E → ServiceExit) :
  serves (λ p, match r with Ok _ => P p | Err e => p = Ending (Exits (f e)) end) (sof (map_err f r)) (λ _, P).
Proof. intros s p Hp Hs. unfold sof. destruct r; cbn in *; subst; eauto. exists (Ending (Exits (f e))). by split. Qed.

Lemma serves_weaken {X} P P' (m : SM X) (Q Q' : X → ServePhase → Prop) :
  serves P m Q → (∀ p, P' p → P p) → (∀ x p, Q x p → Q' x p) → serves P' m Q'.
Proof.
  intros Hm HP HQ s p Hp Hs. specialize (Hm s p (HP p Hp) Hs). destruct (m s) as [[x|e] s1]; [|done]. naive_solver.
Qed.

Lemma serves_note P a (Q : ServePhase → Prop) :
  (∀ p, P p → ∃ p', advance (in_program_data i) p a = Some p' ∧ Q p' ∧
     (∀ h, holds p' = Some h → holds p = Some h) ∧ (untouched p' = true → untouched p = true)) →
  serves P (note_action a) (λ _, Q).
Proof.
  intros H s p Hp (H1 & H2 & H3). destruct (H p Hp) as (p' & Ha & Hq & Hh & Hu). cbn. exists p'. split; [done|].
  split_and!; cbn; eauto using phase_after_snoc.
Qed.

Lemma serves_custody {X} P (m : CM X string) :
  (∀ p, P p → untouched p = false) ∨ inspects m → serves P (on_custody m) (λ _, P).
Proof.
  intros H s p Hp (H1 & H2 & H3). unfold on_custody.
  assert (untouched p = true → objects (m (sv_store s)).2 = m0) as Ho.
  { intros Hu. destruct H as [H|H]; [rewrite H in Hu; done|]. rewrite <- (H (sv_store s)). auto. }
  destruct (m (sv_store s)) as [r c]. cbn in *. exists p. split; [done|]. by split_and!.
Qed.

Lemma serves_identity {X} P (m : XM X) :
  (∀ p, P p → untouched p = false) → serves P (on_identity m) (λ _, P).
Proof.
  intros H s p Hp (H1 & H2 & H3). unfold on_identity. destruct (m (installed_world s)) as [r w]. cbn.
  exists p. split; [done|]. split_and!; try done. cbn. by rewrite H.
Qed.

#[local] Notation prepare_step := (prepare_step toml_value toml_config toml_to_string pem_certificates pem_encode
  parse_rfc3339 hostname).

(** The phases in which the lock has been decided and the start goes on. *)
Definition decided (h : bool) (p : ServePhase) : Prop :=
  match p with Asked (Acquired _) => h = true | Asked Unprivileged => h = false | _ => False end.
(** A migration that returns has the lock or did not ask for it; one that stops the start
    leaves it in a phase its end suits. *)
Definition after_prepare (r : Result Prepared Stop) (p : ServePhase) : Prop :=
  match r with Ok _ => early p | Err stop => ends_in p (Exits (stop_exit stop)) end.

Lemma stop_exit_fails stop : failed_exit (stop_exit stop).
Proof. destruct stop; unfold failed_exit; cbn; eauto. Qed.

Lemma early_prepared r p : early p → after_prepare r p.
Proof. intros H. destruct r as [x|stop]; [done|]. apply early_ends, stop_exit_fails. exact H. Qed.

Lemma lock_answer_cases o :
  (∃ l, o = Acquired l ∧ lock_answer o = Ok tt) ∨
  ((∀ l, o ≠ Acquired l) ∧ ∃ line, lock_answer o = Err (StartRefused (default 1 (lock_exit_code o)) line)).
Proof. destruct o; cbn; eauto 7. Qed.

Lemma serves_prepare paths request : serves (λ p, p = Begun) (prepare_step i paths request) after_prepare.
Proof.
  intros s p -> (H1 & H2 & H3). unfold ServiceRun.prepare_step.
  set (prep := MigrationRun.prepare toml_value toml_config toml_to_string pem_certificates pem_encode parse_rfc3339
    hostname (service_environment paths (in_now i)) request).
  pose proof (prepare_lock toml_value toml_config toml_to_string pem_certificates pem_encode parse_rfc3339 hostname
    (service_environment paths (in_now i)) request (lock_answer (in_first_lock i)) (migration_world i s)) as HL.
  fold prep in HL. destruct (prep (lock_answer (in_first_lock i)) (migration_world i s)) as [r w] eqn:E.
  destruct HL as [[Ha Hst]|[ps Ha]]; cbn in Ha; rewrite Ha.
  { exists Begun. split; [apply early_prepared; by left|]. split_and!; cbn; [done|done|]. intros _. rewrite <- (H3 eq_refl). exact Hst. }
  pose proof (phase_after_snoc _ _ (AsksLock (in_first_lock i)) _ _ H1 eq_refl) as Hp.
  destruct (lock_answer_cases (in_first_lock i)) as [(l & Hl & Hans)|(Hn & line & Hans)].
  - rewrite Hl in *. cbn. exists (Asked (Acquired l)). split; [apply early_prepared; right; eauto|]. split_and!; [done| |done].
    by intros h [= <-].
  - rewrite Hans in E. pose proof (prepare_unlocked toml_value toml_config toml_to_string pem_certificates pem_encode
      parse_rfc3339 hostname (service_environment paths (in_now i)) request (StartRefused (default 1 (lock_exit_code (in_first_lock i))) line)
      (migration_world i s)) as Hu. fold prep in Hu. rewrite E in Hu.
    destruct (prepare_refused toml_value toml_config toml_to_string pem_certificates pem_encode
      parse_rfc3339 hostname (service_environment paths (in_now i)) request (default 1 (lock_exit_code (in_first_lock i))) line
      (migration_world i s)) as [Hc|[line' Hc]]; fold prep in Hc; rewrite E in Hc; cbn in Hc; [congruence|].
    subst r.
    assert (sv_lock s = None) as Hk by (specialize (H2 _ eq_refl); by destruct (sv_lock s)).
    destruct (in_first_lock i) as [l| | | |]; [by destruct (Hn l)|..]; cbn;
      (match goal with |- context [AsksLock ?o] => exists (Asked o) end; split; [by exists line'|]; split_and!; cbn; [done|intros h [= <-]; by rewrite Hk|intros _; rewrite <- (H3 eq_refl); symmetry; exact Hu]).
Qed.

Lemma serves_migration paths request :
  serves (λ p, p = Begun)
    (run_migration toml_value toml_config toml_to_string pem_certificates pem_encode parse_rfc3339 hostname i paths
       request) (λ _, early).
Proof.
  eapply serves_bind; [apply serves_prepare|]. intros prepared s p Hp Hs. unfold sof.
  destruct prepared as [x|stop]; cbn in *; eauto.
Qed.

Lemma serves_read_config P fixed config_path :
  serves P (read_installed_config toml_value toml_config fixed config_path) (λ _, P).
Proof.
  eapply serves_bind; [apply serves_custody; right; apply read_checked_inspects|]. intros read. apply serves_ret.
Qed.

Lemma serves_lock :
  serves early (take_instance_lock i) decided.
Proof.
  intros s p Hp (H1 & H2 & H3). unfold take_instance_lock.
  destruct Hp as [->|[l ->]].
  - pose proof (H2 _ eq_refl) as Hk. destruct (sv_lock s) as [l|] eqn:El; [done|].
    match goal with |- context [if ?b then _ else _] => generalize (if b then in_second_lock i else in_first_lock i) end.
    intros o. pose proof (phase_after_snoc _ _ (AsksLock o) _ _ H1 eq_refl) as Hp.
    assert (∀ s', sv_log s' = sv_log s ++ [AsksLock o] → bool_decide (is_Some (sv_lock s')) = default false (holds (Asked o)) →
      sv_store s' = sv_store s → lives (Asked o) s') as HL.
    { intros s' L1 L2 L3. split_and!; [by rewrite L1|intros h Hh; by rewrite L2, Hh|]. rewrite L3. intros _. by apply H3. }
    destruct o as [l| | | |]; cbn; eexists; (split; [|apply HL; cbn; by rewrite ?El]); cbn; eauto.
  - pose proof (H2 _ eq_refl) as Hk. destruct (sv_lock s) as [l'|] eqn:El; [|done].
    exists (Asked (Acquired l)). split; [done|]. split_and!; [done|by rewrite El|done].
Qed.

Lemma decided_opens h p r : decided h p → advance (in_program_data i) p (OpensLog r) =
  Some match r with
       | Ok _ => Logged h
       | Err reason => Ending (Exits (ServiceFailed EXIT_SERVICE_LOG (stderr_service_log reason)))
       end.
Proof. destruct p as [|[| | | |]| | | | | | | | |], r; cbn; try done; by intros ->. Qed.

Lemma serves_log h config : serves (decided h) (open_file_log i config) (λ _ p, p = Logged h).
Proof.
  intros s p Hp (H1 & H2 & H3). unfold open_file_log, sbind.
  destruct (open_log _ _ _) as [[r c] logs]. cbn.
  pose proof (phase_after_snoc _ _ _ _ _ H1 (decided_opens h p r Hp)) as Hl.
  assert (holds p = Some h) as Hh by (destruct p as [|[| | | |]| | | | | | | | |]; cbn in *; by subst).
  destruct r as [[]|e]; cbn.
  - exists (Logged h). split; [done|]. split_and!; [done|intros ? [= <-]; by apply H2|done].
  - eexists (Ending _). by split_and!.
Qed.

Lemma serves_running h :
  serves (λ p, p = Logged h) (say_running i) (λ _ p, p = Logged h ∨ p = Written h).
Proof.
  intros s p -> (H1 & H2 & H3). unfold say_running. destruct (running (in_status i)) as [[] status]; cbn.
  - exists (Written h). split; [by right|]. split_and!; cbn; [|intros ? [= <-]; by apply H2|done].
    apply (phase_after_snoc _ _ _ (Said h)); [|done]. apply (phase_after_snoc _ _ _ (Logged h)); [done|]. by destruct h.
  - exists (Logged h). split; [by left|]. by split_and!.
Qed.

Lemma serves_copies paths :
  serves (λ p, p = Logged true ∨ p = Written true) (run_copies i paths) (λ _ p, p = Copying).
Proof.
  eapply serves_bind; [apply (serves_note _ _ (λ p, p = Copying))|].
  - intros p [-> | ->]; exists Copying; split_and!; try done; by intros h [= <-].
  - intros _ s p -> (H1 & H2 & H3). exists Copying. split; [done|].
    destruct (in_copies_first i); by split_and!.
Qed.

Lemma serves_ensure h config config_path c :
  serves (λ p, p = Checked h)
    (identity_step toml_value toml_to_string pem_certificates i config config_path c) (λ _ p, p = Ensured h).
Proof.
  intros s p -> (H1 & H2 & H3). unfold identity_step. destruct (identity_rounds_until_stopped _ _) as [acts out].
  pose proof (λ p' H, phase_after_snoc _ _ (EnsuresIdentity acts (identity_end out)) _ p' H1 H) as Hn.
  destruct out as [| |[identity|e]]; cbn in *; specialize (Hn _ eq_refl);
    [by eexists (Ending _); split_and!..| |by eexists (Ending _); split_and!].
  exists (Ensured h). split; [done|]. split_and!; [done|intros ? [= <-]; by apply H2|done].
Qed.

Lemma serves_secure h config identity :
  match in_program_data i with Ok d => at_fixed_paths (under d) config | Err _ => false end = true →
  serves (λ p, p = Ensured h) (secure_step i h config identity) (λ _ p, p = Capturing).
Proof.
  intros Hc. eapply serves_bind; [apply (serves_note _ _ (λ p, p = Capturing))|].
  - intros p ->. exists Capturing. cbn. rewrite Hc, eqb_reflx. by split_and!.
  - intros u. apply serves_ret.
Qed.

Lemma canonical_fixed p config_path config id :
  check_installed_config p config_path config = Ok tt →
  at_fixed_paths p (with_agent_id (canonicalize config p) id) = true.
Proof.
  intros H. apply check_installed_config_ok in H as (enr & anchor & url & He & _).
  unfold at_fixed_paths. cbn. rewrite He. cbn. by rewrite !bool_decide_true.
Qed.

#[local] Notation serve_running := (serve_running toml_value toml_to_string pem_certificates).
#[local] Notation serve := (serve toml_value toml_config toml_to_string pem_certificates pem_encode parse_rfc3339
  hostname).

Lemma serves_from_log program_data prepared config_path config h :
  in_program_data i = Ok program_data → check_installed_config (under program_data) config_path config = Ok tt →
  serves (decided h)
    (serve_running i (under program_data) prepared (canonicalize config (under program_data)) h) (λ _ p, p = Capturing).
Proof.
  intros Hd Hc. unfold ServiceRun.serve_running.
  eapply serves_bind; [apply serves_log|intros ?]. eapply serves_bind; [apply serves_running|intros ?].
  pose (Q := λ p, p = Logged h ∨ p = Written h ∨ h = true ∧ p = Copying).
  assert (∀ p, Q p → untouched p = false) as HQ by (intros p [->|[->|[_ ->]]]; done).
  apply (serves_bind _ _ (λ _, Q)).
  { destruct (bool_decide (prepared = Committed)), h; cbn [andb];
      (eapply serves_weaken; [first [apply serves_copies|apply serves_ret]|intros p Hp; exact Hp|unfold Q; naive_solver]). }
  intros ?. apply (serves_bind _ _ (λ _, Q)); [apply serves_custody; by left|]. intros anchor.
  eapply serves_bind.
  { apply serves_note with (Q := λ p, match anchor with
      | Ok _ => p = Anchored h
      | Err reason => p = Ending (Exits (failed 6 (tls_stderr_line (Errors.ClientConfig reason)))) end).
    intros p Hp. unfold advance. rewrite Hd.
    destruct Hp as [->|[->|[-> ->]]], anchor; rewrite bool_decide_true by done; eexists; split_and!; try done; by destruct h. }
  intros ?. eapply serves_bind; [apply (serves_result (λ p, p = Anchored h))|].
  intros ?. apply (serves_bind _ _ (λ _ p, p = Anchored h)); [by apply serves_identity; intros p ->|]. intros checked.
  eapply serves_bind.
  { apply serves_note with (Q := λ p, match checked with
      | Ok _ => p = Checked h
      | Err e => p = Ending (Exits (failed (enrollment_exit_code e) (enrollment_stderr_line e))) end).
    intros p ->. destruct checked; cbn; eexists; by split_and!. }
  intros ?. eapply serves_bind; [apply (serves_result (λ p, p = Checked h))|].
  intros ?. eapply serves_bind; [apply serves_ensure|]. intros identity.
  destruct (in_stopped i); [by apply serves_returns; intros p ->|].
  eapply serves_weaken; [apply serves_secure|done|done]. rewrite Hd. by eapply canonical_fixed.
Qed.

(** The steps before the lock. *)
Lemma serves_body config_path arguments :
  serves (λ p, p = Begun) (serve_body toml_value toml_config toml_to_string pem_certificates pem_encode
    parse_rfc3339 hostname i config_path arguments) (λ _ p, p = Capturing).
Proof.
  assert (∀ p, p = Begun → early p) as Hb by (intros p ->; by left).
  unfold serve_body. apply (serves_bind _ _ (λ _ p, p = Begun)).
  { destruct (is_absolute config_path); [apply serves_ret|].
    apply serves_returns. intros p Hp. apply early_ends; [by apply Hb|by eexists _, _]. }
  intros ?. eapply serves_bind; [apply serves_check; [done|by eexists _, _]|]. intros program_data.
  eapply serves_bind; [apply serves_check; [naive_solver|by eexists _, _]|]. intros ?.
  eapply serves_bind; [apply serves_check; [naive_solver|by eexists _, _]|]. intros request.
  apply (serves_bind _ _ (λ _ p, in_program_data i = Ok program_data ∧ early p)).
  { intros s1 p (_ & _ & Hd & ->) Hs1.
    pose proof (serves_migration (under program_data) request s1 Begun eq_refl Hs1) as H.
    destruct (run_migration _ _ _ _ _ _ _ _ _ _ s1) as [[r|e] s2]; naive_solver. }
  intros prepared. eapply serves_bind; [apply serves_read_config|]. intros read.
  eapply serves_bind; [apply serves_check; [naive_solver|by eexists _, _]|]. intros config.
  eapply serves_bind; [apply serves_check; [naive_solver|by eexists _, _]|]. intros [].
  apply (serves_bind _ _ (λ h p, check_installed_config (under program_data) config_path config = Ok tt ∧
    in_program_data i = Ok program_data ∧ decided h p)).
  { intros s1 p (Hc & _ & Hd & Hp) Hs1. pose proof (serves_lock s1 p Hp Hs1) as HL.
    destruct (take_instance_lock i s1) as [[h|e] s2]; naive_solver. }
  intros h s1 p (Hc & Hd & Hp) Hs1. by apply (serves_from_log program_data prepared config_path config h Hd Hc s1 p).
Qed.

Lemma serve_lives config_path arguments s :
  sv_log s = [] → sv_lock s = None → objects (sv_store s) = m0 →
  let '(e, s') := serve i config_path arguments s in ∃ p, ends_in p e ∧ lives p s'.
Proof.
  intros Hl Hk Hm. assert (lives Begun s) as Hs.
  { split_and!; [by rewrite Hl|intros h [= <-]; by rewrite Hk|done]. }
  pose proof (serves_body config_path arguments s Begun eq_refl Hs) as H. unfold ServiceRun.serve.
  destruct (serve_body _ _ _ _ _ _ _ _ _ _ s) as [[e|e] s']; [|done]. destruct H as (p & -> & H). by exists Capturing.
Qed.
End Life.

(** ** A start *)

Section Starts.
Context {W : WireCrypto} {K : KeyBytes W} {R : Rustls} {A : AnswerReader}.
Context {St : SecureStore} {J : IdentityJson} {M : MigrationJson} {Sec : Win32Security}.
Context (toml_value : string → Result Toml TomlError) (toml_config : string → Result AgentConfig TomlError).
Context (toml_to_string : Toml → Result string string).
Context (pem_certificates : bytes → list (Result bytes PemError)).
Context (pem_encode : list bytes → string) (parse_rfc3339 : string → option Z).
Context (hostname : Result string string).
Context (i : ServeInput).

#[local] Notation prepare_step := (prepare_step toml_value toml_config toml_to_string pem_certificates pem_encode
  parse_rfc3339 hostname).
#[local] Notation serve := (serve toml_value toml_config toml_to_string pem_certificates pem_encode parse_rfc3339
  hostname).

(** C9 A start of the service goes through its steps in order, skips none that guards a
    later one, and goes on after none that failed: whatever it meets and wherever it ends,
    what it did, with what came of each step, is a word of the automaton, and it ends as
    the phase it is in says. It asks for the instance lock once, before the log; opens the
    log only with the lock or with a token that cannot have it; says RUNNING only after
    the log opened, and a log that does not open ends it with that failure; runs the
    migration's old copies only with the lock; then checks the custody of the trust anchor,
    at its installed path, then the identity's, then obtains an identity, and the failure
    of any of these is its exit, with that failure's code; and then captures, with the
    session reclaim exactly when it holds the lock and with a configuration at the
    installed paths. A refused lock is its exit with the lock's code, and anything that
    ends it before the log is a failure. Until it has the lock or opens the log it changes
    no object. *)
Theorem service_life_cycle config_path arguments s :
  sv_log s = [] → sv_lock s = None →
  let '(e, s') := serve i config_path arguments s in
  ∃ p, phase_after (in_program_data i) (sv_log s') = Some p ∧ ends_in p e ∧
    (∀ h, holds p = Some h → bool_decide (is_Some (sv_lock s')) = h) ∧
    (untouched p = true → objects (sv_store s') = objects (sv_store s)).
Proof.
  intros Hl Hk. pose proof (serve_lives toml_value toml_config toml_to_string pem_certificates pem_encode parse_rfc3339
    hostname i (objects (sv_store s)) config_path arguments s Hl Hk eq_refl) as H.
  destruct (serve i config_path arguments s) as [e s']. destruct H as (p & He & H1 & H2 & H3). by exists p.
Qed.

(** *** One that may not hold the lock *)

Context (code : Z).
Hypothesis Hcode : lock_exit_code (in_first_lock i) = Some code.

(** The run ended as a failure, having asked for the lock or not. *)
Definition refused (e : ServeEnd) (l : list ServeAction) : Prop :=
  ∃ c line, e = Exits (ServiceFailed c line) ∧ (l = [] ∨ (l = [AsksLock (in_first_lock i)] ∧ c = code)).

(** From a state that has done nothing, an operation leaves one, or ends the run refused. *)
Definition waits {X} (m : SM X) (Q : X → Prop) : Prop :=
  ∀ s, sv_log s = [] → sv_lock s = None →
    let '(r, s') := m s in
    objects (sv_store s') = objects (sv_store s) ∧
    match r with Ok x => Q x ∧ sv_log s' = [] ∧ sv_lock s' = None | Err e => refused e (sv_log s') end.

Lemma waits_bind {X Y} (m : SM X) (f : X → SM Y) Q T :
  waits m Q → (∀ x, Q x → waits (f x) T) → waits (sbind m f) T.
Proof.
  intros Hm Hf s Hl Hk. specialize (Hm s Hl Hk). unfold sbind. destruct (m s) as [[x|e] s1]; [|done].
  destruct Hm as (Ho & Hx & Hl1 & Hk1). specialize (Hf x Hx s1 Hl1 Hk1). destruct (f x s1) as [r s2].
  destruct Hf as [Ho2 H2]. split; [congruence|done].
Qed.

Lemma waits_check {X E} (r : Result X E) (f : E → ServiceExit) :
  (∀ e, ∃ c line, f e = ServiceFailed c line) → waits (sof (map_err f r)) (λ _, True).
Proof.
  intros Hf s Hl Hk. unfold sof. destruct r as [x|e]; cbn; [done|]. split; [done|]. destruct (Hf e) as (c & line & ->).
  exists c, line. auto.
Qed.

Lemma lock_answer_code o c : lock_exit_code o = Some c → ∃ line, lock_answer o = Err (StartRefused c line).
Proof. destruct o; intros [= <-]; cbn; eauto. Qed.

Lemma waits_migration paths request :
  waits (run_migration toml_value toml_config toml_to_string pem_certificates pem_encode parse_rfc3339 hostname i paths
           request) (λ _, True).
Proof.
  intros s Hl Hk. unfold run_migration, sbind, ServiceRun.prepare_step.
  destruct (lock_answer_code _ _ Hcode) as [line Hans]. rewrite Hans.
  set (prep := MigrationRun.prepare toml_value toml_config toml_to_string pem_certificates pem_encode parse_rfc3339
    hostname (service_environment paths (in_now i)) request).
  pose proof (prepare_unlocked toml_value toml_config toml_to_string pem_certificates pem_encode
    parse_rfc3339 hostname (service_environment paths (in_now i)) request (StartRefused code line)
    (migration_world i s)) as Hu. fold prep in Hu.
  pose proof (prepare_refused toml_value toml_config toml_to_string pem_certificates pem_encode
    parse_rfc3339 hostname (service_environment paths (in_now i)) request code line
    (migration_world i s)) as Hr. fold prep in Hr.
  pose proof (prepare_lock toml_value toml_config toml_to_string pem_certificates pem_encode parse_rfc3339 hostname
    (service_environment paths (in_now i)) request (Err (StartRefused code line)) (migration_world i s)) as HL.
  fold prep in HL.
  destruct (prep (Err (StartRefused code line)) (migration_world i s)) as [r w]. cbn [fst snd] in *.
  destruct HL as [[Ha _]|[ps Ha]]; cbn in Ha; rewrite Ha in *.
  - split; [symmetry; by destruct r|]. destruct r as [x|[c l|]]; cbn; [done|by eexists _, _; eauto..].
  - destruct Hr as [Hr|[line' ->]]; [done|].
    destruct (in_first_lock i) eqn:Ei; try done; cbn; (split; [symmetry; exact Hu|]); eexists _, _; (split; [done|]);
      right; rewrite Hl, Ei; done.
Qed.

Lemma waits_read_config fixed config_path :
  waits (read_installed_config toml_value toml_config fixed config_path) (λ _, True).
Proof.
  intros s Hl Hk. unfold read_installed_config, sbind, on_custody.
  pose proof (read_checked_inspects fixed configuration (sv_store s)) as Hi.
  destruct (read_checked fixed configuration (sv_store s)) as [r c]. cbn in *. done.
Qed.

Lemma waits_lock : waits (take_instance_lock i) (λ _, False).
Proof.
  intros s Hl Hk. unfold take_instance_lock. rewrite Hk, Hl. cbn [existsb].
  destruct (in_first_lock i) eqn:Ei; try done; cbn; (split; [done|]); rewrite Hl; injection Hcode as <-;
    eexists _, _; (split; [done|]); right; rewrite Ei; done.
Qed.

(** A start that another instance or its own token keeps from the lock changes nothing:
    whatever it meets, it leaves the store as it was, never opens the log or says
    RUNNING, and ends as a failure; if it got as far as asking for the lock, in the
    migration or before the log, the failure has the lock's code (10 for another
    instance, 1 otherwise) and it asked once. *)
Theorem refused_lock_ends config_path arguments s :
  sv_log s = [] → sv_lock s = None →
  let '(e, s') := serve i config_path arguments s in
  objects (sv_store s') = objects (sv_store s) ∧
  ∃ c line, e = Exits (ServiceFailed c line) ∧
    (sv_log s' = [] ∨ (sv_log s' = [AsksLock (in_first_lock i)] ∧ c = code)).
Proof.
  intros Hl Hk.
  assert (waits (serve_body toml_value toml_config toml_to_string pem_certificates pem_encode parse_rfc3339 hostname i
    config_path arguments) (λ _, False)) as H.
  2: { specialize (H s Hl Hk). unfold ServiceRun.serve. destruct (serve_body _ _ _ _ _ _ _ _ _ _ s) as [[e|e] s'];
       naive_solver. }
  unfold serve_body. apply (waits_bind _ _ (λ _, True)).
  { destruct (is_absolute config_path); [done|]. intros s1 Hl1 Hk1. cbn. split; [done|]. eexists _, _. eauto. }
  intros _ _. eapply waits_bind; [apply waits_check; by eexists _, _|]. intros program_data _.
  eapply waits_bind; [apply waits_check; by eexists _, _|]. intros _ _.
  eapply waits_bind; [apply waits_check; by eexists _, _|]. intros request _.
  eapply waits_bind; [apply waits_migration|]. intros prepared _.
  eapply waits_bind; [apply waits_read_config|]. intros read _.
  eapply waits_bind; [apply waits_check; by eexists _, _|]. intros config _.
  eapply waits_bind; [apply waits_check; by eexists _, _|]. intros _ _.
  eapply waits_bind; [apply waits_lock|]. done.
Qed.
End Starts.

(** ** The end of the service *)

(** What has happened by an instant. *)
Definition by_then {X} (x : option (Instant * X)) (now : Instant) : option X :=
  match x with Some (at_, v) => if at_ <=? now then Some v else None | None => None end.

(** A poll finds what has happened by then. *)
Definition finds (run : option (Instant * TaskEnd)) (log_failure : option (Instant * string)) (t : Instant) (p : Poll)
  : Prop :=
  p_run p = by_then run (p_at p) ∧ p_log p = by_then log_failure (p_at p) ∧ (p_stop p = true ↔ t ≤ p_at p).

(** The runtime polls within [late] of the stop, of the end of the sleep that began then,
    and of the run's end. *)
Record polled (run : option (Instant * TaskEnd)) (t late : Instant) (polls : list Poll) : Prop := {
  pd_stop : ∃ p, p ∈ polls ∧ t ≤ p_at p ≤ t + late;
  pd_sleep p : p ∈ polls → t ≤ p_at p ≤ t + late →
    ∃ q, q ∈ polls ∧ p_at p + seconds STOP_DEADLINE ≤ p_at q ≤ p_at p + seconds STOP_DEADLINE + late;
  pd_run r e : run = Some (r, e) → ∃ p, p ∈ polls ∧ r ≤ p_at p ≤ r + late;
}.

Definition in_order (p q : Poll) : Prop := p_at p ≤ p_at q.

(** The poll that ends the supervision, and why it does. *)
Lemma supervise_ended w polls ends exit : StronglySorted in_order polls → supervise w polls = Some (ends, exit) →
  ∃ p, p ∈ polls ∧ p_at p = ends ∧ (∀ q, q ∈ polls → p_at q < ends → p_run q = None) ∧
    match p_run p with
    | Some e => exit = with_log_failure (joined e) (p_log p)
    | None => exit = DeadlineExpired PENDING_UNKNOWN None ∧
        match w with
        | Sleeps until => until ≤ ends
        | AwaitsStop => ∃ q, q ∈ polls ∧ p_stop q = true ∧ p_at q + seconds STOP_DEADLINE ≤ ends
        end
    end.
Proof.
  intros Hs. revert w. induction Hs as [|p polls Hs IH Hp]; intros w H; [done|]. cbn [supervise] in H.
  rewrite Forall_forall in Hp.
  assert (∀ x, p_at p = x → ∀ q, q ∈ p :: polls → p_at q < x → p_run q = None) as Hfirst.
  { intros x <- q [->|Hq]%elem_of_cons Hlt; [lia|]. specialize (Hp q Hq). unfold in_order in Hp. lia. }
  destruct (p_run p) as [e|] eqn:Er.
  { injection H as <- <-. exists p. rewrite Er. split_and!; [left|done|by apply Hfirst|done]. }
  assert (∀ l, with_log_failure (DeadlineExpired PENDING_UNKNOWN None) l = DeadlineExpired PENDING_UNKNOWN None)
    as Hlog by (by intros []).
  assert (∀ ends, (∀ q, q ∈ polls → p_at q < ends → p_run q = None) →
    ∀ q, q ∈ p :: polls → p_at q < ends → p_run q = None) as Hcons.
  { intros x Hq q [->|Hin]%elem_of_cons; [done|by apply Hq]. }
  destruct w as [|until]; cbn [poll_watchdog] in H.
  - destruct (p_stop p) eqn:Es.
    + destruct (Z.leb_spec (p_at p + seconds STOP_DEADLINE) (p_at p)); [unfold seconds, STOP_DEADLINE in *; lia|].
      destruct (IH _ H) as (q & Hq & Hat & Hb & Hex). exists q. split_and!; [by right|done|by apply Hcons|].
      destruct (p_run q); [done|]. destruct Hex as [Hex Hle]. split; [done|]. exists p. split_and!; [left|done|done].
    + destruct (IH _ H) as (q & Hq & Hat & Hb & Hex). exists q. split_and!; [by right|done|by apply Hcons|].
      destruct (p_run q); [done|]. destruct Hex as [Hex (q' & Hq' & H')]. split; [done|]. exists q'. by split; [right|].
  - destruct (Z.leb_spec until (p_at p)).
    + injection H as <- <-. exists p. rewrite Er, Hlog. split_and!; [left|done|by apply Hfirst|done..].
    + destruct (IH _ H) as (q & Hq & Hat & Hb & Hex). exists q. split_and!; [by right|done|by apply Hcons|done].
Qed.

(** It ends by any poll after the sleep's end. *)
Lemma supervise_sleeps until polls q : StronglySorted in_order polls → q ∈ polls → until ≤ p_at q →
  ∃ ends exit, supervise (Sleeps until) polls = Some (ends, exit) ∧ ends ≤ p_at q.
Proof.
  intros Hs Hq Hu. induction Hs as [|p polls Hs IH Hp]; [by apply elem_of_nil in Hq|]. cbn [supervise poll_watchdog].
  assert (p_at p ≤ p_at q) as Hle.
  { apply elem_of_cons in Hq as [->|Hq]; [lia|]. rewrite Forall_forall in Hp. by apply Hp. }
  destruct (p_run p); [eauto|]. destruct (Z.leb_spec until (p_at p)); [eauto|].
  apply elem_of_cons in Hq as [->|Hq]; [lia|]. by apply IH.
Qed.

Lemma supervise_ends t late polls : StronglySorted in_order polls →
  (∀ p, p ∈ polls → p_stop p = true ↔ t ≤ p_at p) →
  (∃ p, p ∈ polls ∧ t ≤ p_at p ≤ t + late) →
  (∀ p, p ∈ polls → t ≤ p_at p ≤ t + late →
    ∃ q, q ∈ polls ∧ p_at p + seconds STOP_DEADLINE ≤ p_at q ≤ p_at p + seconds STOP_DEADLINE + late) →
  ∃ ends exit, supervise AwaitsStop polls = Some (ends, exit) ∧ ends ≤ t + seconds STOP_DEADLINE + 2 * late.
Proof.
  assert (0 < seconds STOP_DEADLINE) as HD by (by vm_compute).
  intros Hs. induction Hs as [|p polls Hs IH Hp]; intros Hstop (p1 & Hp1 & Ht1) Hsleep; [by apply elem_of_nil in Hp1|].
  rewrite Forall_forall in Hp. unfold in_order in Hp. cbn [supervise poll_watchdog].
  assert (p_at p ≤ p_at p1) as Hle by (apply elem_of_cons in Hp1 as [->|Hp1]; [lia|by apply Hp]).
  destruct (p_run p); [do 2 eexists; split; [done|lia]|].
  destruct (p_stop p) eqn:Es.
  - apply Hstop in Es; [|left]. destruct (Z.leb_spec (p_at p + seconds STOP_DEADLINE) (p_at p)); [lia|].
    destruct (Hsleep p ltac:(left) ltac:(lia)) as (q & [->|Hq]%elem_of_cons & Hq1); [lia|].
    destruct (supervise_sleeps (p_at p + seconds STOP_DEADLINE) polls q Hs Hq ltac:(lia)) as (ends & exit & -> & He).
    do 2 eexists. split; [done|lia].
  - assert (p_at p < t) as Hlt.
    { destruct (Z.lt_ge_cases (p_at p) t); [done|]. assert (p_stop p = true) by (apply Hstop; [left|lia]). congruence. }
    apply IH.
    + intros q Hq. apply Hstop. by right.
    + apply elem_of_cons in Hp1 as [->|Hp1]; [lia|]. by exists p1.
    + intros q Hq Hr. destruct (Hsleep q ltac:(by right) Hr) as (q' & [->|Hq']%elem_of_cons & H'); [|by exists q'].
      specialize (Hp q Hq). lia.
Qed.

(** What the control manager and the Application log are told of an exit. *)
Lemma main_reports source exit at_end entries :
  let '(reported, written) := service_main source (Ok tt) (Ok tt) exit at_end entries in
  ∃ s, reported = Reported s ∧ state_of s = SERVICE_STOPPED ∧
    last (reports s) = Some (now s, status (current s)) ∧
    (dwWin32ExitCode (status (current s)) = NO_ERROR ↔ ∃ u, exit = Clean u) ∧
    dwServiceSpecificExitCode (status (current s)) = default 0 (specific_code exit) ∧
    (source = true → last written = Some (entry exit)).
Proof.
  unfold service_main. eexists. split_and!; [done|done| | |done|].
  - cbn. by rewrite last_snoc.
  - cbn. destruct exit; cbn; naive_solver.
  - intros ->. cbn. by rewrite last_snoc.
Qed.

(** C11 The service ends in time and says how. Let a stop be asked for at [t], by the
    control manager or because the file log gave up, and let the runtime poll the
    supervision in order, in whatever polls it makes, but within [late] of the stop, of
    the end of the watchdog's sleep and of the run's end. Then it ends by
    [t + STOP_DEADLINE + 2 late], whatever the run does: within [late] of the run's end
    with the run's own exit (1 for a panic or a cancellation), unless that is clean and
    the file log had given up by then, which makes it the log's failure, code 13; or, if
    the run has not ended by then, and not before [t + STOP_DEADLINE], with the deadline's
    exit, whatever the log did. What the control manager is told last is STOPPED, with the
    exit's code, and no code exactly when that exit is a clean one; the last entry of the
    Application log is the exit's. *)
Theorem service_ends_in_time run log_failure t late polls source at_end entries :
  Forall (finds run log_failure t) polls → StronglySorted in_order polls → polled run t late polls →
  ∃ ends exit, supervise AwaitsStop polls = Some (ends, exit) ∧ ends ≤ t + seconds STOP_DEADLINE + 2 * late ∧
    ((∃ r e, run = Some (r, e) ∧ r ≤ ends ≤ r + late ∧
        exit = match e, by_then log_failure ends with
               | Joined (Clean _), Some why => ServiceFailed EXIT_SERVICE_LOG (stderr_service_log why)
               | _, _ => joined e
               end) ∨
     ((∀ r e, run = Some (r, e) → ends < r) ∧ t + seconds STOP_DEADLINE ≤ ends ∧
        exit = DeadlineExpired PENDING_UNKNOWN None)) ∧
    let '(reported, written) := service_main source (Ok tt) (Ok tt) exit at_end entries in
    ∃ s, reported = Reported s ∧ state_of s = SERVICE_STOPPED ∧
      last (reports s) = Some (now s, status (current s)) ∧
      (dwWin32ExitCode (status (current s)) = NO_ERROR ↔ ∃ u, exit = Clean u) ∧
      dwServiceSpecificExitCode (status (current s)) = default 0 (specific_code exit) ∧
      (source = true → last written = Some (entry exit)).
Proof.
  intros Hfinds Hs [Hp1 Hp2 Hp3]. rewrite Forall_forall in Hfinds.
  destruct (supervise_ends t late polls Hs) as (ends & exit & E & Hle); [|done..|].
  { intros p Hp. apply (Hfinds p Hp). }
  exists ends, exit. split; [done|]. split; [done|]. split; [|apply main_reports].
  destruct (supervise_ended _ _ _ _ Hs E) as (p & Hp & Hat & Hbefore & Hexit).
  destruct (Hfinds p Hp) as (Hrun & Hlog & _). rewrite Hrun, Hat in Hexit. rewrite Hat in Hlog.
  unfold by_then at 1 in Hexit. destruct run as [[r e]|] eqn:Er; [destruct (Z.leb_spec r ends)|].
  - left. exists r, e. split; [done|]. split.
    + split; [done|]. destruct (Hp3 r e eq_refl) as (q & Hq & Hq1). destruct (Z.le_gt_cases ends (p_at q)); [lia|].
      destruct (Hfinds q Hq) as (Hrq & _). rewrite (Hbefore q Hq) in Hrq by done. cbn in Hrq.
      destruct (Z.leb_spec r (p_at q)); [done|lia].
    + rewrite Hexit, Hlog. by destruct (by_then log_failure ends), e as [[]| |].
  - right. destruct Hexit as [-> (q & Hq & Hst & Hle')]. apply (Hfinds q Hq) in Hst. split; [|split; [lia|done]].
    by intros ? ? [= <- <-].
  - right. destruct Hexit as [-> (q & Hq & Hst & Hle')]. apply (Hfinds q Hq) in Hst. split; [done|split; [lia|done]].
Qed.

(** ** An installed service *)

Module ToyService.
Definition sddl (s : string) : Result Descriptor Z :=
  if bool_decide (s = LOG_DIRECTORY) then ToyHost.written 3 [ToyWin32.system_sid; ToyWin32.admin_sid]
  else if bool_decide (s = LOG_FILE) then ToyHost.written 0 [ToyWin32.system_sid; ToyWin32.admin_sid]
  else ToyHost.sddl s.
Instance security : Win32Security := {|
  IsValidSid := IsValidSid (Win32Security := ToyHost.security);
  IsWellKnownSid := IsWellKnownSid (Win32Security := ToyHost.security);
  EqualSid := EqualSid (Win32Security := ToyHost.security);
  from_sddl_text := sddl;
  sid_to_string := sid_to_string (Win32Security := ToyHost.security) |}.

Definition secure : SecureInput (W := ToyEnrollment.wire) (R := ToyRustls.toy) :=
  {| si_etw_open := λ _, Ok tt; si_logon_open := Ok tt; si_drives := empty_map; si_tls := λ _, sample_tls;
     si_start := 0; si_rounds := sample_stopping; si_stop := sample_stop |}.

Definition input (lock : LockOutcome) : ServeInput (W := ToyEnrollment.wire) (R := ToyRustls.toy) :=
  {| in_program_data := Ok ToyHost.program_data; in_now := 100; in_first_lock := lock; in_second_lock := Held;
     in_std_reads := []; in_version := "1.0.0"; in_status := begun true 0; in_copies_first := true;
     in_rounds := [{| sr_env := ToyEnrollment.env; sr_stopped := false; sr_wait_stopped := false |}];
     in_stopped := false; in_secure := secure |}.
Definition lock : InstanceLock := {| mutex := 4; namespace := 8 |}.

(** The host of [ToyHost], migrated and not. *)
Definition state (w : MigrationWorld) : ServeState :=
  {| sv_store := mfs w; sv_std_reads := []; sv_posted := []; sv_logs := sample_world []; sv_status := begun true 0;
     sv_lock := None; sv_log := [] |}.

Definition started (lock : LockOutcome) (w : MigrationWorld) : ServeEnd * ServeState :=
  serve (W := ToyEnrollment.wire) (K := ToyEnrollment.keys) (R := ToyRustls.toy) (A := ToyEnrollment.reader)
    (St := InsecureDevStore) (J := ToyIdentity.json) (M := ToyRecord.json) (Sec := security)
    ToyHost.toml_value ToyHost.toml_config ToyHost.toml_to_string ToyHost.pem_certificates ToyHost.pem_encode
    ToyHost.parse_rfc3339 ToyHost.hostname (input lock) (config_file (under ToyHost.program_data)) [] (state w).
End ToyService.

Lemma service_life_cycle_witness :
  let s' := (ToyService.started (Acquired ToyService.lock) ToyHost.migrated).2 in
  length (sv_log s') = 9%nat ∧ phase_after (Ok ToyHost.program_data) (sv_log s') = Some Capturing.
Proof.
  intros s'. split; [vm_compute; reflexivity|].
  pose proof (service_life_cycle (W := ToyEnrollment.wire) (K := ToyEnrollment.keys) (R := ToyRustls.toy)
    (A := ToyEnrollment.reader) (St := InsecureDevStore) (J := ToyIdentity.json) (M := ToyRecord.json)
    (Sec := ToyService.security) ToyHost.toml_value ToyHost.toml_config ToyHost.toml_to_string ToyHost.pem_certificates
    ToyHost.pem_encode ToyHost.parse_rfc3339 ToyHost.hostname
    (ToyService.input (Acquired ToyService.lock)) (config_file (under ToyHost.program_data)) []
    (ToyService.state ToyHost.migrated) eq_refl eq_refl) as H.
  unfold s', ToyService.started. destruct (ServiceRun.serve _ _ _ _ _ _ _ _ _ _ _) as [e s1] eqn:E. cbn [snd].
  destruct H as (p & Hp & _).
  assert (phase_after (Ok ToyHost.program_data) (sv_log (ToyService.started (Acquired ToyService.lock) ToyHost.migrated).2)
    = Some Capturing) as Hc by (vm_compute; reflexivity).
  unfold ToyService.started in Hc. rewrite E in Hc. cbn [snd] in Hc. exact (eq_trans Hp (eq_trans (eq_sym Hp) Hc)).
Defined.

Lemma refused_lock_ends_witness :
  let '(e, s') := ToyService.started Held ToyHost.migrated in
  sv_log s' = [AsksLock Held] ∧ ∃ line, e = Exits (ServiceFailed 10 line).
Proof.
  assert (sv_log (ToyService.started Held ToyHost.migrated).2 = [AsksLock Held]) as Hl by (vm_compute; reflexivity).
  pose proof (refused_lock_ends (W := ToyEnrollment.wire) (K := ToyEnrollment.keys) (R := ToyRustls.toy)
    (A := ToyEnrollment.reader) (St := InsecureDevStore) (J := ToyIdentity.json) (M := ToyRecord.json)
    (Sec := ToyService.security) ToyHost.toml_value ToyHost.toml_config ToyHost.toml_to_string ToyHost.pem_certificates
    ToyHost.pem_encode ToyHost.parse_rfc3339 ToyHost.hostname
    (ToyService.input Held) 10 eq_refl (config_file (under ToyHost.program_data)) []
    (ToyService.state ToyHost.migrated) eq_refl eq_refl) as H.
  unfold ToyService.started in *. destruct (ServiceRun.serve _ _ _ _ _ _ _ _ _ _ _) as [e s']. cbn [snd] in Hl.
  destruct H as (_ & c & line & -> & [H|[_ ->]]); [rewrite H in Hl; discriminate Hl|]. split; [exact Hl|by exists line].
Defined.

(** A run that ends cleanly after its log gave up, and one that hangs past its stop; the
    runtime polls a second late. *)
Definition sample_poll (run : option TaskEnd) (log : option string) (at_ : Z) : Poll :=
  {| p_at := seconds at_; p_run := run; p_stop := 100 <=? at_; p_log := log |}.
Definition sample_polls : list Poll :=
  [sample_poll None None 50; sample_poll None (Some "disk full") 101;
   sample_poll (Some (Joined (Clean 0))) (Some "disk full") 121; sample_poll (Some (Joined (Clean 0))) (Some "disk full") 161].
Definition hanging_polls : list Poll := [sample_poll None None 101; sample_poll None None 162].

Lemma service_ends_in_time_witness :
  supervise AwaitsStop sample_polls
    = Some (seconds 121, ServiceFailed EXIT_SERVICE_LOG (stderr_service_log "disk full")) ∧
  supervise AwaitsStop hanging_polls = Some (seconds 162, DeadlineExpired PENDING_UNKNOWN None).
Proof.
  split.
  - destruct (service_ends_in_time (Some (seconds 120, Joined (Clean 0))) (Some (seconds 100, "disk full"))
      (seconds 100) (seconds 1) sample_polls true (begun true 0) []) as (ends & exit & Hs & _ & H & _).
    + repeat constructor; vm_compute; done.
    + repeat constructor; vm_compute; done.
    + split.
      * eexists. split; [right; left|]. by vm_compute.
      * intros p. unfold sample_polls, hanging_polls. rewrite !elem_of_cons, elem_of_nil. intros [->|[->|[->|[->|[]]]]] Hr; try (by destruct Hr as [Hr1 Hr2]; vm_compute in Hr1; vm_compute in Hr2).
        eexists. split; [right; right; right; left|]. by vm_compute.
      * intros r e [= <- <-]. eexists. split; [right; right; left|]. by vm_compute.
    + assert (Some ends = Some (seconds 121)) as [= ->]
        by (transitivity (fst <$> supervise AwaitsStop sample_polls); [by rewrite Hs|by vm_compute]).
      rewrite Hs. destruct H as [(r & e & [= <- <-] & _ & ->)|(H & _)]; [by vm_compute|].
      specialize (H _ _ eq_refl). by vm_compute in H.
  - destruct (service_ends_in_time None None (seconds 100) (seconds 1) hanging_polls true (begun true 0) []) as (ends & exit & Hs & _ & H & _).
    + repeat constructor; vm_compute; done.
    + repeat constructor; vm_compute; done.
    + split.
      * eexists. split; [left|]. by vm_compute.
      * intros p. unfold sample_polls, hanging_polls. rewrite !elem_of_cons, elem_of_nil. intros [->|[->|[]]] Hr; try (by destruct Hr as [Hr1 Hr2]; vm_compute in Hr1; vm_compute in Hr2).
        eexists. split; [right; left|]. by vm_compute.
      * done.
    + assert (Some ends = Some (seconds 162)) as [= ->]
        by (transitivity (fst <$> supervise AwaitsStop hanging_polls); [by rewrite Hs|by vm_compute]).
      rewrite Hs. destruct H as [(r & e & [=] & _)|(_ & _ & ->)]. done.
Defined.
