(* ===== verification/CommandLine.v ===== *)
(** * The command line ([main.rs])

    The console agent: the configuration, the instance lock, the identity and the secure
    run, or the plain one. The parsed arguments, what the configuration file holds, the
    lock's outcome, and what the identity step and the runs meet are inputs; the log
    lines are left out, the lines on stderr and the exit code are not. *)

From S2P Require Import Prelude IpAddr Types Errors Ring Dispatch Logon Paths Emit.
From S2P Require Import Network Config Signing Tls TlsConfig X509 Delivery Transport Enrollment Identity.
From S2P Require Import Custody Service Agent InstanceLock ServiceRun.
Open Scope Z_scope.

Record Cli := { cli_config : string; cli_service : bool }.

(** What the console started, in order. *)
Inductive ConsoleAction :=
| TakesLock (outcome : LockOutcome)
| ReadiesIdentity
| RunsSecure (holds_lock : bool) (config : AgentConfig)
| RunsPlain.

(** The process's exit code with its lines on stderr, or that it runs on. *)
Inductive ConsoleEnd := ExitCode (code : Z) (stderr : list string) | RunsOn.

Definition report_lock_outcome (o : LockOutcome) : ConsoleEnd :=
  match lock_exit_code o, lock_stderr_line o with
  | Some code, Some line => ExitCode code [line]
  | _, _ => RunsOn
  end.

Definition report_agent_error (e : AgentError) : ConsoleEnd := ExitCode (agent_exit_code e) [agent_stderr_line e].

Section Console.
Context {W : WireCrypto} {K : KeyBytes W} {R : Rustls} {A : AnswerReader}.
Context {S : SecureStore} {J : IdentityJson}.
Context (toml_value : string → Result Toml TomlError) (toml_config : string → Result AgentConfig TomlError).
Context (toml_to_string : Toml → Result string string) (path_parent : string → option string).

Record ConsoleInput := {
  ci_file : option (Result string string);
  ci_lock : LockOutcome;
  ci_enroll : EnrollEnv;
  ci_version : string;
  ci_platform : string;
  ci_secure : SecureInput;
  ci_ticks : list TickInput;
}.

Definition console_block (i : ConsoleInput) (agent_id : string) (config : AgentConfig) : AgentBlock :=
  {| ab_agent_id := agent_id; ab_agent_version := ci_version i; ab_agent_platform := ci_platform i;
     ab_agent_hostname := Config.hostname (agent config) |}.

(** [run_secure]: the run without a stop budget. *)
Definition run_secure (i : ConsoleInput) (holds_lock : bool) (config : AgentConfig) (identity : Identity) : SecureEnd :=
  let si := ci_secure i in
  let opened := (open_platform_capture holds_lock (si_etw_open si) (si_logon_open si) (si_drives si)).1 in
  (run_secure_within (console_block i (agent_id identity) config) (agent_id identity) (keypair identity)
     (heartbeat config) (si_start si) config opened (si_tls si identity) (si_rounds si) None (si_stop si)).1.2.

Definition console_secure (i : ConsoleInput) (cli : Cli) (cfg : AgentConfig) (holds_lock : bool) (w : IdWorld)
  : ConsoleEnd * list ConsoleAction * IdWorld :=
  let '(r, w') := Identity.ensure_identity toml_value toml_to_string path_parent (ci_enroll i) cfg (cli_config cli) w in
  match r with
  | Err e => (ExitCode (enrollment_exit_code e) [enrollment_stderr_line e], [ReadiesIdentity], w')
  | Ok identity =>
      let cfg := with_agent_id cfg (agent_id identity) in
      (match run_secure i holds_lock cfg identity with
       | Agent.Ended (Ok _) => ExitCode 0 []
       | Agent.Ended (Err e) => report_agent_error e
       | _ => RunsOn
       end, [ReadiesIdentity; RunsSecure holds_lock cfg], w')
  end.

Definition console_plain (i : ConsoleInput) (cfg : AgentConfig) : ConsoleEnd :=
  let returned := (run_plain (console_block i (id (agent cfg)) cfg)
                     (client_new (url (Config.server cfg)) (heartbeat cfg)) (heartbeat cfg)
                     (si_start (ci_secure i)) 0 (ci_ticks i)).2 in
  if returned then ExitCode 0 [] else RunsOn.

Definition console (i : ConsoleInput) (cli : Cli) (w : IdWorld) : ConsoleEnd * list ConsoleAction * IdWorld :=
  match load_from_path toml_value toml_config (cli_config cli) (ci_file i) with
  | Err e => (ExitCode 2 ["cg-agent: invalid config: " +:+ config_error_text e], [], w)
  | Ok cfg =>
      match init_logger_with_writer (level (Config.log cfg)) with
      | Err e => (ExitCode 1 ["cg-agent: logger init failed: " +:+ agent_error_text e], [], w)
      | Ok _ =>
          match trust_anchor_path (Config.server cfg) with
          | Some _ =>
              let '(ended, trace, w') :=
                match ci_lock i with
                | Acquired _ => console_secure i cli cfg true w
                | Unprivileged => console_secure i cli cfg false w
                | o => (report_lock_outcome o, [], w)
                end in
              (ended, TakesLock (ci_lock i) :: trace, w')
          | None => (console_plain i cfg, [RunsPlain], w)
          end
      end
  end.

(** [service::run]: the dispatcher, or the refusal of a build for another system. *)
Definition service_run (windows : bool) (dispatched : Result unit Z) : Z * option string :=
  if windows then run_dispatcher dispatched else (EXIT_NOT_STARTED_BY_SCM, Some STDERR_NOT_STARTED_BY_SCM).

(** [main]: the service only under the control manager, before the configuration. *)
Definition main (i : ConsoleInput) (cli : Cli) (dispatched : Result unit Z) (runtime : Result unit string) (w : IdWorld)
  : ConsoleEnd * list ConsoleAction * IdWorld :=
  if cli_service cli then
    let '(code, line) := service_run true dispatched in (ExitCode code (option_list line), [], w)
  else
    match runtime with
    | Ok _ => console i cli w
    | Err e => (ExitCode 1 ["cg-agent: runtime failed: " +:+ e], [], w)
    end.

(** ** The console's order and its codes *)

Lemma enrollment_code_range e : 2 ≤ enrollment_exit_code e ≤ 7.
Proof. destruct e as [| | | |[]]; cbn; lia. Qed.

Lemma agent_code_range e : 1 ≤ agent_exit_code e ≤ 9.
Proof.
  destruct e as [e|e|e|e|e|e|e|e]; cbn; try lia.
  1: pose proof (enrollment_code_range e); lia.
  all: unfold signing_exit_code; destruct e; cbn; lia.
Qed.

Lemma console_secure_run i cli cfg h w :
  let '(e, tr, w') := console_secure i cli cfg h w in
  (tr = [ReadiesIdentity] ∨ ∃ agent_id, tr = [ReadiesIdentity; RunsSecure h (with_agent_id cfg agent_id)]) ∧
  ∀ code l, e = ExitCode code l → 0 ≤ code ≤ 9 ∧ (code = 0 ↔ l = []) ∧ (code = 0 → ∃ c, RunsSecure h c ∈ tr).
Proof.
  unfold console_secure. destruct (ensure_identity _ _ _ _ _ _ w) as [[identity|e] w'].
  - split; [right; eauto|]. intros code l.
    destruct (run_secure _ _ _ _) as [[out|e]| |]; try done; intros [= <- <-].
    + split_and!; [lia|lia|done|]. intros _. eexists. right. by left.
    + pose proof (agent_code_range e). split_and!; [lia|lia|split; [lia|done]|lia].
  - split; [by left|]. intros code l [= <- <-]. pose proof (enrollment_code_range e). 
    split_and!; [lia|lia|split; [lia|done]|lia].
Qed.

(** C14 The console takes the lock before anything it guards, and its exit code says what
    ended it: the identity step and the secure run come only after the lock was had
    or the token could not have it, the session reclaim goes with the lock, and a
    configuration without a trust anchor touches neither; a refused lock leaves
    every file as it was and posts nothing. The exit code is at most 10, it is 10
    exactly when another instance holds the lock, and 0 exactly when stderr stayed
    empty and a run was over. *)
Theorem console_guarded i cli w :
  let '(e, tr, w') := console i cli w in
  match tr with
  | [] => w' = w
  | [RunsPlain] => w' = w
  | TakesLock o :: rest =>
      o = ci_lock i ∧
      match lock_exit_code o with
      | Some code => rest = [] ∧ w' = w ∧ e = ExitCode code (option_list (lock_stderr_line o))
      | None => rest = [ReadiesIdentity] ∨
                ∃ c, rest = [ReadiesIdentity; RunsSecure (match o with Acquired _ => true | _ => false end) c] ∧
                     is_Some (trust_anchor_path (Config.server c))
      end
  | _ => False
  end ∧
  ∀ code l, e = ExitCode code l →
    0 ≤ code ≤ 10 ∧ (code = 10 ↔ tr = [TakesLock Held]) ∧ (code = 0 ↔ l = []) ∧
    (code = 0 → RunsPlain ∈ tr ∨ ∃ h c, RunsSecure h c ∈ tr).
Proof.
  unfold console. destruct (load_from_path _ _ _ _) as [cfg|ce]; cycle 1.
  { split; [done|]. intros code l [= <- <-]. split_and!; [lia|lia|done|done|lia]. }
  cbn [init_logger_with_writer]. destruct (trust_anchor_path (Config.server cfg)) as [anchor|] eqn:Ea; cycle 1.
  { split; [done|]. unfold console_plain. destruct (run_plain _ _ _ _ _ _).2; [|done]. intros code l [= <- <-].
    split_and!; [lia|lia|done|done|]. intros _. left. by left. }
  assert (∀ h, let '(e, tr, w') := console_secure i cli cfg h w in
    (tr = [ReadiesIdentity] ∨ ∃ c, tr = [ReadiesIdentity; RunsSecure h c] ∧ is_Some (trust_anchor_path (Config.server c))) ∧
    ∀ o code l, e = ExitCode code l →
      0 ≤ code ≤ 10 ∧ (code = 10 ↔ TakesLock o :: tr = [TakesLock Held]) ∧ (code = 0 ↔ l = []) ∧
      (code = 0 → RunsPlain ∈ TakesLock o :: tr ∨ ∃ h c, RunsSecure h c ∈ TakesLock o :: tr)) as Hs.
  { intros h. pose proof (console_secure_run i cli cfg h w) as H. destruct (console_secure i cli cfg h w) as [[e tr] w'].
    destruct H as [Htr He]. split.
    - destruct Htr as [->|[agent ->]]; [by left|right]. eexists. split; [done|]. cbn. by rewrite Ea.
    - intros o code l Hc. destruct (He code l Hc) as (H1 & H2 & H3). split_and!; [lia|lia| |done|].
      + split; [lia|]. intros E. exfalso. destruct Htr as [->|[agent ->]]; discriminate E.
      + intros H0. right. destruct (H3 H0) as [c Hin]. exists h, c. by right. }
  destruct (ci_lock i) as [lock| | | |step c] eqn:El.
  - specialize (Hs true). destruct (console_secure _ _ _ _ w) as [[e tr] w'].
    destruct Hs as [Htr He]; split; [by split|by apply He].
  - split; [done|]. intros code l [= <- <-]. cbn. split_and!; try lia; done.
  - split; [done|]. intros code l [= <- <-]. cbn. split_and!; try lia; done.
  - specialize (Hs false). destruct (console_secure _ _ _ _ w) as [[e tr] w'].
    destruct Hs as [Htr He]; split; [by split|by apply He].
  - split; [done|]. intros code l [= <- <-]. cbn. split_and!; try lia; done.
Qed.
End Console.
